(* ===== verification/_CoqProject ===== *)
-Q . S2P
Prelude.v
Fs.v
Instances.v
RecordModel.v
Wal.v
WalLemmas.v
WalRecover.v
WalProps.v
Memtable.v
MemtableProps.v
Flush.v
FlushProps.v
Columnar.v
Latency.v
Tests.v
WalTests.v
RowTests.v
Engine.v
Settings.v
EngineLemmas.v
LakeModel.v
EngineProps.v
Concurrent.v
ConcurrentReads.v
Sbbf.v
Bloom.v
Catalog.v
Index.v
IndexProps.v
Cache.v
ColumnTests.v
Fetch.v
WorkingSet.v
Read.v
ReadProps.v
Store.v
StoreProps.v
StoreTests.v
Reader.v
Lakehouse.v
LakehouseProps.v
DuckModel.v
StackProps.v
Node.v
Bench.v
BenchProps.v
TraceFlush.v
