(* ===== verification/Prelude.v ===== *)
(** * Holy grail: a verification of the storage engine

    The program (crate under [src/]) is a key-value store with two tiers. Writes go
    to a write-ahead log, then to a memtable; a flush turns a frozen memtable into a
    Parquet file that the DuckDB binary publishes in a DuckLake catalog; reads ask
    the memtables first and then the published files, newest first; recovery
    rebuilds the in-memory state from the catalog and the log. The watermark, the
    highest LSN any published file holds, is the boundary between the tiers: the
    log is replayed above it and truncated below it.

    ** Files and what they model

    - [Prelude.v]: errors ([src/src/error.rs]), the state-and-error monad [M] in which
      every [?] of the source is a bind, Hoare triples over it, machine integers as
      [Z] with their wrap-around written out, byte strings and their order, decimal
      texts, the stable sort, the hint databases and tactics.
    - [Fs.v]: what the program uses of [std::fs] and [BufWriter]. A file has synced
      and unsynced bytes; a schedule of faults says which calls fail, and for a write
      how many bytes got out first; a crash keeps the synced bytes of every file and
      any prefix of the others.
    - [Instances.v]: CRC-32, a directory listing and base64 as concrete functions.
      They stand for third-party code in witnesses only.
    - [RecordModel.v] ([record.rs]): records and the WAL frame, [encode] and [decode].
    - [Wal.v], [WalLemmas.v], [WalRecover.v], [WalProps.v] ([wal.rs]): the segmented log.
      [wal] is the struct [Wal]; its methods run on the pair of the struct and the
      directory. [WalLemmas.v] has the invariant [wal_inv] of an open log,
      [WalRecover.v] the opening of a directory when any call may fail.
    - [Memtable.v], [MemtableProps.v] ([memtable.rs]): [Memtable] and [MemtableSet].
      The skip list is the class [SkipMap] with its laws; an [Arc] is an address.
    - [Flush.v], [FlushProps.v] ([flush.rs], [schema.rs], settings of [config.rs]): the
      plan, the batches, the staging file and its name, the SQL scripts, what the
      child process comes to.
    - [Columnar.v]: the interface between the engine and the columnar level, the
      classes [Columnar] and [ColumnarLaws]. The engine is verified against it.
    - [Engine.v], [EngineLemmas.v], [EngineProps.v] ([engine.rs]): [open], [put],
      [delete], [get], [flush_inner] with its four crash points. An [engine] is the
      in-memory struct, the [world] what outlives it. [LakeModel.v] is an executable
      lake with a fault schedule that satisfies the interface, for the examples.
    - [Concurrent.v] ([engine.rs]): writes as three atomic steps (number, log, show) of
      many writers and a flush as nine ([flush_step]), interleaved with each other and
      with reads. [ConcurrentReads.v]: a read as its three looks, at the memtables, the
      index and the files, with any of those steps in between.
    - [Latency.v], [Store.v], [StoreProps.v] ([store/latency.rs], [store/mod.rs]): the
      latency profiles, their fit and draws on IEEE binary64; the counters; the object
      store's trait as the class [ObjectStore] and the wrapper as an instance of it.
    - [Settings.v] ([config.rs]): the defaults and [from_env] on an environment.
    - [Bloom.v] ([bloom.rs]): Murmur3, the split-block filter and its parser. [Sbbf.v]: the
      published hash and filter that the code ports, written down apart from it.
    - [Catalog.v] ([catalog.rs]): the catalog's tables and the queries on them,
      [connect] with its schema check, [published_watermark].
    - [Index.v], [IndexProps.v] ([index.rs]): [FileIndex::load] and the pruning tests.
    - [Cache.v] ([cache.rs]): the byte-bounded LRU, the footer cache and the range
      fetcher. [Fetch.v]: the concurrent fetches of [get_byte_ranges] as interleaved
      steps. [WorkingSet.v]: what a sequence of reads hits and misses in the LRU.
    - [Read.v], [ReadProps.v] ([read.rs]): the point read over files and row groups.
    - [Reader.v]: the point read over the caches and the latency store. A call of the
      Parquet library is a [program] of range requests.
    - [Lakehouse.v], [LakehouseProps.v]: catalog, index, reader and publish put together
      as an instance of [Columnar], and the proof that it keeps [ColumnarLaws] from what
      is documented of Postgres, DuckDB and the Parquet reader (the record
      [documented]). [DuckModel.v] is an executable store and insert that do what is
      documented. [StackProps.v]: the engine over this instance, end to end.
    - [Node.v] ([engine.rs]): the engine with the store, the caches, the reader and the
      accessors, as an instance of the class [Node] of what an embedding program calls.
    - [Bench.v], [BenchProps.v] ([bin/bench.rs]): the benchmark, over any [Node].
      [TraceFlush.v] ([src/examples/trace_flush.rs]): the probe of what a publish costs.
    - [Tests.v], [WalTests.v], [RowTests.v], [ColumnTests.v], [StoreTests.v]: the unit tests
      of the modules as definitions, assertion by assertion, and that they pass.

    ** What the theorems show

    - Engine: a run of one client, with any call failing, a crash anywhere and
      recoveries that may fail too, refines a plain map ([engine_refines_map]); acknowledged writes are
      durable and visible; every crash window of the flush keeps the history; a
      flush that returns [Ok] has published all of it.
    - The stack: the same refinement for the engine over the catalog, the index and the
      reader of the code, from the documented behaviour of third-party code only
      ([stack_refines_map]); what a publish put in the lake is what an index loaded
      afterwards reads ([publish_then_read]).
    - Liveness: while no call fails every command is answered ([always_serves]), and a
      flush that froze with no write on its way goes through to its end among writers
      ([concurrent_flush_serves]).
    - Concurrency, in the interleavings of [cstep] (a flush freezes with no write on its
      way, one flush at a time and none after a failed one, new segments in turn): the
      state is the one of the writes made in LSN order ([concurrent_serializes]); a read made at
      one moment counts every acknowledged write and no unlogged one, with an index older
      than the lake too ([concurrent_reads]), and one made at three answers as of one moment
      between them ([spread_reads_linearize]); a crash keeps the logged writes ([concurrent_crash_safe]).
    - Log: what an [append] that returned [Ok] wrote is there after any crash;
      truncation drops nothing above the watermark; torn tails are cut, and a torn
      directory always opens; the replay loop reaches the end of the log.
    - Records: the frame round trips in both directions, a cut frame is a torn tail,
      and [decode] classifies every byte string.
    - Memtable: the newest record of a key wins in any arrival order; iteration is in
      key order; [freeze] and [retire] on every branch.
    - Flush: the batches hold every row once, tombstones included; the plan is
      idempotent; staging names are distinct and ordered.
    - Columnar level: pruning by key range, bloom and row group never changes an
      answer; the index is newest first and its watermark is the one the catalog
      query returns; the bloom's probe is the published filter's ([probe_reference]) and
      never panics; the cache is bounded, exact, evicts least recently used and is
      transparent; which fetches hit is told from the fetches alone ([hits_by_reuse]).
    - Reading through the caches: the answer is the one of a read off the objects
      ([cached_read_is_direct]); every miss is one GET of the store ([misses_are_gets]);
      the concurrent fetches of a row group end, agree with fetches made in turn and keep
      the cache's books ([fetches_terminate], [fetches_agree], [fetches_accounted]); with
      room for what a set of keys touches, its reads are free once it is warm
      ([warm_reads_are_free]); distinct ranges that do not all fit, fetched in a cycle,
      never hit ([cyclic_reads_never_hit]).
    - Benchmark: the table is written, published and reads back
      ([write_table_publishes]); the order of the random run is a fair shuffle
      ([shuffle_fair]) and the sequential run's files are disjoint
      ([sequential_files_disjoint]); the hot set is drawn without repetition
      ([pick_hot_ends]); the calibration returns the bytes of the ranges the reads touch
      ([calibrate_measures]); percentiles ([pct_ranks]) and the verdict of every sweep
      ([envelope_reports]); what GET/read divides when the cache is large enough
      ([roomy_point_counts_warmup]). The probe: up to its read the engine makes no request
      of the object store ([trace_makes_no_request]).
    - Tests: the tests of the log pass for every 32-bit checksum and order of listing
      ([wal_tests_pass]), those of the memtables and the flush for every skip list with its
      laws ([memtable_tests_pass], [flush_tests_pass]), those of the wrapper for every store
      in memory with its laws ([latency_tests_pass]); the others are evaluated.
    - Settings and store: every setting from its variable or its default, only a bad
      [HG_LATENCY] stops the process, numbers are in range, and the engine's constructor
      accepts them unless the queue is set to zero ([from_env_admissible]); the wrapper of the store changes no answer
      ([shim_transparent]) and its counters and injected time are exact
      ([shim_accounts], [fixed_profile_exact]).
    - Limits the code has, each a theorem on a concrete run: a failed flush followed
      by a good one loses an acknowledged write ([failed_flush_loses_acked]); so does
      a write that is slower than a flush ([late_write_dropped_by_flush]), one that is in
      the older of two concurrent flushes ([concurrent_flushes_lose_acked]) and one
      after a torn append ([torn_append_loses_next]); a late LSN shadows a newer one
      ([late_lsn_shadows_newer]); a segment started out of turn can have its name used
      again and be deleted while active ([late_rotation_reuses_segment]); a row group
      without statistics hides later ones ([missing_stats_hide_later_groups]); the byte
      cache miscounts a key inserted again with other bytes
      ([resized_reinsert_miscounts]).

    ** Assumptions

    Third-party code is a parameter: the checksum is a 32-bit number; a directory
    listing is complete, in any order; the skip list is an ordered map; a staged
    Parquet file reads back as the rows written; a publish is one transaction, which
    may commit and still report failure ([ColumnarLaws]); Postgres reads a decimal
    text as a number. For the stack, [documented] says it in the terms of the catalog's
    rows: an insert adds one data file under a new id and path, its statistics and its
    bloom, or changes nothing. The random generator and [ln], [exp], [cos] are
    parameters nothing is assumed of. Each theorem with such a hypothesis has a witness with a
    concrete function in its place. A crash keeps the directory's entries: the code
    syncs files and never the directory, and the model takes a created or removed
    name to survive, as a journaling file system provides. LSNs are below 2^63, the range of the [BIGINT]
    column, and a record's payload is below 2^32 bytes, the range of its length field.

    ** Fuel

    [replay_loop] takes one more turn than the segment has bytes, and each frame has
    at least eight; [replay_loop_total] shows it stops only where [decode] does.
    [evict] takes one more turn than the recency map has entries, and each turn takes
    one off. [trim_start_matches] and the decimal printer take the length of the text
    and 20 digits. [pick_hot] draws until it has enough different positions, which no
    bound ensures: its fuel is the number of draws allowed, it says when they did not do,
    and [pick_hot_ends] says when they do. Nothing else needs fuel: a run of requests and
    the draws of [charge_for] are structural.

    ** Not modelled

    [Display] and [Debug], tracing and what the benchmark and the probe print but for the
    verdict; the task that drives the socket of the Postgres connection; the module
    declarations of [lib.rs]. The delays of the store and of the publish change no answer:
    they are in [Store.v] and, for reads, in [Reader.v] and [Node.v]. [Concurrent.v] has one
    flush at a time, frozen while no write is on its way and not after a failed one, and a
    new segment in its turn: the theorems on limits show what goes wrong otherwise. The
    steps inside the scan of a read's files are those of [Fetch.v].

    Of the tests, [a_fitted_lognormal_reproduces_its_percentiles] is left out: it samples
    the random generator, of which nothing is assumed. The integration tests under
    [src/tests/] need a running Postgres, an object store and the DuckDB binary. *)

From Stdlib Require Import Strings.Byte Ascii String.
From stdpp Require Export base gmap strings sorting list.
(* The list lemmas of stdpp, in front of the Standard Library's of the same names. *)
Export list_basics.list list_relations.list list_monad.list list_misc.list
  list_tactics.list list_numbers.list.

#[export] Set Default Goal Selector "!".
#[global] Open Scope Z_scope.

(** * Errors, results and the state-and-error monad *)

(** [error.rs]: the payloads of third-party errors are opaque texts. *)
Inductive Error : Type :=
| Io (msg : string)
| ObjectStore (msg : string)
| Postgres (msg : string)
| DuckDbExec (code : Z) (stderr : string)
| Parquet (msg : string)
| Arrow (msg : string)
| CorruptWal (segment : string) (offset : Z) (reason : string)
| WriteStalled (frozen : Z)
| Config (msg : string).

(** What a panic comes to where a run must go on in the model: no value of the program
    is made this way. *)
Definition panicked : Error := Config "panicked".

(** [std::result::Result] at the crate's error type. *)
Inductive result (A : Type) : Type :=
| Ok (a : A)
| Err (e : Error).
Arguments Ok {A} a.
Arguments Err {A} e.

#[export] Instance Error_eq_dec : EqDecision Error.
Proof. solve_decision. Defined.

#[export] Instance result_eq_dec `{EqDecision A} : EqDecision (result A).
Proof. solve_decision. Defined.

#[export] Instance result_ret : MRet result := @Ok.
#[export] Instance result_bind : MBind result := λ A B f r,
  match r with Ok a => f a | Err e => Err e end.
#[export] Instance result_fmap : FMap result := λ A B f r,
  match r with Ok a => Ok (f a) | Err e => Err e end.

(** [Option::ok_or_else] and [Result::ok]. *)
Definition ok_or {A} (o : option A) (e : Error) : result A :=
  match o with Some a => Ok a | None => Err e end.
Definition res_ok {A} (r : result A) : option A :=
  match r with Ok a => Some a | Err _ => None end.
Definition is_ok {A} (r : result A) : bool :=
  match r with Ok _ => true | Err _ => false end.

(** A method that reads and updates a state of type [S] and may fail. On [Err]
    the state is the one reached so far: Rust does not roll back. *)
Definition M (S A : Type) : Type := S → result A * S.

Definition action {S A} (f : S → result A * S) : M S A := f.
#[export] Instance m_ret {S} : MRet (M S) := λ A a s, (Ok a, s).
#[export] Instance m_bind {S} : MBind (M S) := λ A B f m s,
  match m s with
  | (Ok a, s') => f a s'
  | (Err e, s') => (Err e, s')
  end.
Definition m_err {S A} (e : Error) : M S A := λ s, (Err e, s).
Definition m_get {S} : M S S := λ s, (Ok s, s).
Definition m_modify {S} (f : S → S) : M S unit := λ s, (Ok tt, f s).
(** [?] on a result that does not touch the state. *)
Definition m_lift {S A} (r : result A) : M S A := λ s, (r, s).
(** Run a method of a component of the state: [self.field.method()?]. *)
Definition m_zoom {S T A} (get : S → T) (set : T → S → S) (m : M T A) : M S A := λ s,
  match m (get s) with (r, t) => (r, set t s) end.

(** [for a in l { f(a)? }]. *)
Fixpoint m_iter {S A} (f : A → M S unit) (l : list A) : M S unit :=
  match l with
  | [] => mret tt
  | a :: l' => _ ← f a; m_iter f l'
  end.

(** * Machine integers *)

Definition u32_max : Z := 2 ^ 32 - 1.
Definition u64_max : Z := 2 ^ 64 - 1.
(** [as u32], [as u64], [as i64] of a non-negative or any integer. *)
Definition as_u32 (z : Z) : Z := z mod 2 ^ 32.
Definition as_u64 (z : Z) : Z := z mod 2 ^ 64.
Definition as_i64 (z : Z) : Z := (z + 2 ^ 63) mod 2 ^ 64 - 2 ^ 63.

Definition is_u32 (z : Z) : Prop := 0 ≤ z < 2 ^ 32.
Definition is_u64 (z : Z) : Prop := 0 ≤ z < 2 ^ 64.

(** Lengths are [usize], which is 64 bits wide and never overflowed by a length. *)
Definition zlen {A} (l : list A) : Z := Z.of_nat (length l).

(** * Bytes *)

Abbreviation byte := Byte.byte.
Abbreviation bytes := (list Byte.byte).

Definition byte_val (b : byte) : Z := Z.of_N (Byte.to_N b).
(** [as u8]. *)
Definition byte_of (z : Z) : byte :=
  match Byte.of_N (Z.to_N (z mod 256)) with Some b => b | None => Byte.x00 end.

#[export] Instance byte_eq_dec : EqDecision byte := Byte.byte_eq_dec.
#[export] Program Instance byte_countable : Countable byte :=
  {| encode b := encode (Byte.to_N b); decode p := N ← decode p; Byte.of_N N |}.
Next Obligation. intros b. simpl. rewrite (decode_encode (Byte.to_N b)). apply Byte.of_to_N. Qed.

(** [&buf[a..b]] of a slice whose bounds are known to hold. *)
Definition slice {A} (l : list A) (a b : Z) : list A :=
  take (Z.to_nat (b - a)) (drop (Z.to_nat a) l).

(** [to_le_bytes] at [n] bytes, and [from_le_bytes]. *)
Fixpoint le_bytes (n : nat) (z : Z) : bytes :=
  match n with
  | O => []
  | S n' => byte_of z :: le_bytes n' (z / 256)
  end.
Fixpoint from_le (l : bytes) : Z :=
  match l with
  | [] => 0
  | b :: l' => byte_val b + 256 * from_le l'
  end.

(** [Ord] of [[u8]]: lexicographic. *)
Fixpoint bytes_cmp (a b : bytes) : comparison :=
  match a, b with
  | [], [] => Eq
  | [], _ :: _ => Lt
  | _ :: _, [] => Gt
  | x :: a', y :: b' =>
    match byte_val x ?= byte_val y with
    | Eq => bytes_cmp a' b'
    | c => c
    end
  end.
Definition bytes_lt (a b : bytes) : Prop := bytes_cmp a b = Lt.
Definition bytes_le (a b : bytes) : Prop := bytes_cmp a b ≠ Gt.
Definition bytes_leb (a b : bytes) : bool :=
  match bytes_cmp a b with Gt => false | _ => true end.

#[export] Instance bytes_lt_dec : RelDecision bytes_lt.
Proof. unfold bytes_lt. intros a b. solve_decision. Defined.
#[export] Instance bytes_le_dec : RelDecision bytes_le.
Proof. unfold bytes_le. intros a b. solve_decision. Defined.

(** * Texts *)

Definition empty_str : string := EmptyString.
Definition slash : ascii := "/"%char.
Definition nl : string := String (ascii_of_N 10) EmptyString.

Fixpoint str_of_list (l : list ascii) : string :=
  match l with [] => EmptyString | c :: l' => String c (str_of_list l') end.
Fixpoint list_of_str (s : string) : list ascii :=
  match s with EmptyString => [] | String c s' => c :: list_of_str s' end.

(** [str::strip_prefix] and [str::strip_suffix]. *)
Fixpoint strip_prefix_list (p s : list ascii) : option (list ascii) :=
  match p, s with
  | [], _ => Some s
  | x :: p', y :: s' => if decide (x = y) then strip_prefix_list p' s' else None
  | _ :: _, [] => None
  end.
Definition strip_prefix (p s : string) : option string :=
  str_of_list <$> strip_prefix_list (list_of_str p) (list_of_str s).
Definition strip_suffix (p s : string) : option string :=
  (λ l, str_of_list (reverse l)) <$>
    strip_prefix_list (reverse (list_of_str p)) (reverse (list_of_str s)).

(** [str::trim_start_matches]: strip the pattern as long as it is there. The
    fuel is the length of the text, and a non-empty pattern shortens it. *)
Fixpoint trim_start_fuel (fuel : nat) (p s : string) : string :=
  match fuel with
  | O => s
  | S f => match strip_prefix p s with
           | Some s' => trim_start_fuel f p s'
           | None => s
           end
  end.
Definition trim_start_matches (p s : string) : string :=
  trim_start_fuel (String.length s) p s.

(** [str::split_once] at a character. *)
Fixpoint split_once_list (c : ascii) (s : list ascii) : option (list ascii * list ascii) :=
  match s with
  | [] => None
  | x :: s =>
    if decide (x = c) then Some ([], s)
    else (λ '(a, b), (x :: a, b)) <$> split_once_list c s
  end.
Definition split_once (c : ascii) (s : string) : option (string * string) :=
  (λ '(a, b), (str_of_list a, str_of_list b)) <$> split_once_list c (list_of_str s).

(** [{:?}] of a text without characters that need an escape. *)
Definition debug_str (s : string) : string :=
  let quote := String (ascii_of_N 34) EmptyString in quote +:+ s +:+ quote.

Definition digit_ascii (d : Z) : ascii := ascii_of_N (Z.to_N (48 + d)).
Definition ascii_digit (c : ascii) : option Z :=
  let n := Z.of_N (N_of_ascii c) in
  if (48 <=? n) && (n <=? 57) then Some (n - 48) else None.

(** The low [n] decimal digits of [z], most significant first. *)
Fixpoint dec_digits (n : nat) (z : Z) : list ascii :=
  match n with
  | O => []
  | S n' => dec_digits n' (z / 10) ++ [digit_ascii (z mod 10)]
  end.
(** [format!("{z:020}")] of a [u64]: a [u64] has at most 20 digits, so the
    padded text has exactly 20. *)
Definition fmt_020 (z : Z) : string := str_of_list (dec_digits 20 z).

(** [<u64 as FromStr>::from_str]: an optional [+], then one or more digits,
    [Err] on an empty text, on any other character and on overflow. *)
Definition dec_step (acc : option Z) (c : ascii) : option Z :=
  match acc, ascii_digit c with
  | Some a, Some d => Some (10 * a + d)
  | _, _ => None
  end.
Definition dec_value (l : list ascii) : option Z := fold_left dec_step l (Some 0).
Definition parse_u64 (s : string) : option Z :=
  let digits := match list_of_str s with
                | c :: l => if decide (c = "+"%char) then l else c :: l
                | [] => []
                end in
  match digits with
  | [] => None
  | _ => match dec_value digits with
         | Some v => if v <=? u64_max then Some v else None
         | None => None
         end
  end.

(** [to_string] of an integer, without padding. *)
Fixpoint dec_fuel (fuel : nat) (z : Z) (acc : list ascii) : list ascii :=
  match fuel with
  | O => acc
  | S f => let acc' := digit_ascii (z mod 10) :: acc in
           if z <? 10 then acc' else dec_fuel f (z / 10) acc'
  end.
Definition show_u64 (z : Z) : string := str_of_list (dec_fuel 20 z []).
Definition show_i64 (z : Z) : string :=
  if z <? 0 then String "-"%char (show_u64 (- z)) else show_u64 z.

(** * Stable sorting: [slice::sort_by] with a comparison given as [<=] *)

Section sort.
Context {A : Type} (leb : A → A → bool).

Fixpoint sort_insert (x : A) (l : list A) : list A :=
  match l with
  | [] => [x]
  | y :: l' => if leb x y then x :: y :: l' else y :: sort_insert x l'
  end.
Definition sort_by (l : list A) : list A := foldr sort_insert [] l.
End sort.

(** * Tactics and hint databases *)

Create Rewrite HintDb hg_len.
Create HintDb hg.


(** Split on the scrutinee of a match of the goal or of a hypothesis. *)
Ltac split_match :=
  match goal with
  | |- context [match ?x with _ => _ end] => destruct x eqn:?
  | H : context [match ?x with _ => _ end] |- _ => destruct x eqn:?
  end.

(** Turn boolean tests on integers into facts [lia] reads. *)
Ltac zbool :=
  repeat match goal with
  | H : (_ && _)%bool = true |- _ => apply andb_prop in H as [? ?]
  | H : (_ =? _) = true |- _ => apply Z.eqb_eq in H
  | H : (_ =? _) = false |- _ => apply Z.eqb_neq in H
  | H : (_ <? _) = true |- _ => apply Z.ltb_lt in H
  | H : (_ <? _) = false |- _ => apply Z.ltb_ge in H
  | H : (_ <=? _) = true |- _ => apply Z.leb_le in H
  | H : (_ <=? _) = false |- _ => apply Z.leb_gt in H
  end.

(** * Lengths and slices *)

Section lengths.
Context {A : Type}.
Implicit Types l k : list A.

Lemma zlen_nil : zlen (@nil A) = 0.
Proof. done. Qed.
Lemma zlen_cons x l : zlen (x :: l) = 1 + zlen l.
Proof. unfold zlen. simpl. lia. Qed.
Lemma zlen_app l k : zlen (l ++ k) = zlen l + zlen k.
Proof. unfold zlen. rewrite length_app. lia. Qed.
Lemma zlen_nonneg l : 0 ≤ zlen l.
Proof. unfold zlen. lia. Qed.
Lemma zlen_take n l : zlen (take n l) = Z.min (Z.of_nat n) (zlen l).
Proof. unfold zlen. rewrite length_take. lia. Qed.
Lemma zlen_drop n l : zlen (drop n l) = Z.max 0 (zlen l - Z.of_nat n).
Proof. unfold zlen. rewrite length_drop. lia. Qed.
Lemma zlen_zero_inv l : zlen l = 0 → l = [].
Proof. destruct l; [done |]. rewrite zlen_cons. pose proof (zlen_nonneg l). lia. Qed.

Lemma slice_app_l l k n : n = zlen l → slice (l ++ k) 0 n = l.
Proof.
  intros ->. unfold slice, zlen. rewrite Z.sub_0_r, Nat2Z.id. simpl. apply take_app_length.
Qed.
Lemma slice_app_r l k a b :
  zlen l ≤ a → a ≤ b → slice (l ++ k) a b = slice k (a - zlen l) (b - zlen l).
Proof.
  intros Ha Hb. pose proof (zlen_nonneg l). unfold slice, zlen in *.
  replace (b - _ - (a - _)) with (b - a) by lia.
  rewrite drop_app_ge by lia. do 2 f_equal. lia.
Qed.
Lemma slice_full l n : n = zlen l → slice l 0 n = l.
Proof. intros ->. rewrite <- (app_nil_r l) at 1. by apply slice_app_l. Qed.
(** The workhorse: the slice that is the middle part of a concatenation. *)
Lemma slice_mid l k m a b :
  a = zlen l → b = a + zlen k → slice (l ++ k ++ m) a b = k.
Proof.
  intros -> ->. pose proof (zlen_nonneg k). rewrite slice_app_r by lia.
  rewrite Z.sub_diag. apply slice_app_l. lia.
Qed.
Lemma slice_end l k a b :
  a = zlen l → b = a + zlen k → slice (l ++ k) a b = k.
Proof. intros. rewrite <- (app_nil_r k) at 1. by apply slice_mid. Qed.
Lemma zlen_slice l a b : 0 ≤ a → a ≤ b → b ≤ zlen l → zlen (slice l a b) = b - a.
Proof. intros. unfold slice. rewrite zlen_take, zlen_drop. lia. Qed.
Lemma slice_prefix l k a b :
  0 ≤ a → a ≤ b → b ≤ zlen l → slice (l ++ k) a b = slice l a b.
Proof.
  intros Ha Hb Hl. unfold slice, zlen in *. rewrite drop_app_le by lia.
  apply take_app_le. rewrite length_drop. lia.
Qed.

Lemma slice_split l a b c : 0 ≤ a → a ≤ b → b ≤ c → slice l a c = slice l a b ++ slice l b c.
Proof.
  intros. unfold slice.
  replace (Z.to_nat (c - a)) with (Z.to_nat (b - a) + Z.to_nat (c - b))%nat by lia.
  rewrite <- take_take_drop, drop_drop. do 3 f_equal. lia.
Qed.
Lemma slice_one l a d :
  0 ≤ a < zlen l → slice l a (a + 1) = [default d (l !! Z.to_nat a)].
Proof.
  intros Ha. unfold slice, zlen in *. replace (a + 1 - a) with 1 by lia.
  destruct (lookup_lt_is_Some_2 l (Z.to_nat a)) as [x Hx]; [lia |].
  rewrite Hx. by rewrite (drop_S _ _ _ Hx).
Qed.
End lengths.

Lemma elem_of_concat {A} (x : A) ls : x ∈ concat ls ↔ ∃ l, l ∈ ls ∧ x ∈ l.
Proof.
  rewrite list_elem_of_In, in_concat. by setoid_rewrite list_elem_of_In.
Qed.

Lemma NoDup_fmap_elem {A B} (f : A → B) (l : list A) x y :
  NoDup (f <$> l) → x ∈ l → y ∈ l → f x = f y → x = y.
Proof.
  induction l as [|a l IH]; simpl; rewrite ?NoDup_cons; intros Hnd Hx Hy E;
    [by apply elem_of_nil in Hx |]. destruct Hnd as [Ha Hnd].
  apply elem_of_cons in Hx as [->|Hx]; apply elem_of_cons in Hy as [->|Hy]; auto;
    exfalso; apply Ha; [rewrite E | rewrite <- E]; by apply list_elem_of_fmap_2.
Qed.

(** An association list in strict key order is determined by its entries. *)
Lemma sorted_assoc_unique {K V} (R : K → K → Prop) `{!StrictOrder R} (l k : list (K * V)) :
  StronglySorted R l.*1 → StronglySorted R k.*1 → (∀ x y, (x, y) ∈ l ↔ (x, y) ∈ k) → l = k.
Proof.
  revert k. induction l as [|[x v] l IH]; intros [|[y w] k] Hl Hk Hiff; [done |..].
  { exfalso. apply (not_elem_of_nil (y, w)), Hiff. left. }
  { exfalso. apply (not_elem_of_nil (x, v)), Hiff. left. }
  simpl in Hl, Hk. apply StronglySorted_inv in Hl as [Hl Hx], Hk as [Hk Hy].
  rewrite Forall_forall in Hx, Hy.
  assert (∀ z u, (z, u) ∈ l → R x z) as Hx'
    by (intros z u Hz; apply Hx; by apply (list_elem_of_fmap_2 fst) in Hz).
  assert (∀ z u, (z, u) ∈ k → R y z) as Hy'
    by (intros z u Hz; apply Hy; by apply (list_elem_of_fmap_2 fst) in Hz).
  assert ((x, v) = (y, w)) as [= -> ->].
  { assert ((x, v) ∈ (y, w) :: k) as H1 by (apply Hiff; left).
    assert ((y, w) ∈ (x, v) :: l) as H2 by (apply Hiff; left).
    apply elem_of_cons in H1 as [?|H1]; [done |]. apply elem_of_cons in H2 as [?|H2]; [done |].
    apply Hy' in H1. apply Hx' in H2. destruct (irreflexivity R x). by trans y. }
  f_equal. apply IH; [done.. |]. intros z u. specialize (Hiff z u).
  rewrite !elem_of_cons in Hiff. split; intros Hz.
  - destruct Hiff as [[E|?] _]; [by right | | done]. injection E as -> ->.
    apply Hx' in Hz. by destruct (irreflexivity R y).
  - destruct Hiff as [_ [E|?]]; [by right | | done]. injection E as -> ->.
    apply Hy' in Hz. by destruct (irreflexivity R y).
Qed.

(** * Filters *)

Lemma filter_none {A} (P : A → Prop) `{!∀ x, Decision (P x)} (l : list A) :
  (∀ x, x ∈ l → ¬ P x) → base.filter P l = [].
Proof.
  induction l as [|x l IH]; intros Hx; [done |]. rewrite filter_cons.
  rewrite decide_False by (apply Hx; left). apply IH. intros. apply Hx. by right.
Qed.

Lemma filter_all {A} (P : A → Prop) `{!∀ x, Decision (P x)} (l : list A) :
  (∀ x, x ∈ l → P x) → base.filter P l = l.
Proof.
  induction l as [|x l IH]; intros Hx; [done |]. rewrite filter_cons.
  rewrite decide_True by (apply Hx; left). f_equal. apply IH. intros. apply Hx. by right.
Qed.

Lemma filter_fmap' {A B} (f : A → B) (P : B → Prop) `{!∀ x, Decision (P x)} (l : list A) :
  base.filter P (f <$> l) = f <$> base.filter (λ x, P (f x)) l.
Proof.
  induction l as [|x l IH]; [done |]. rewrite fmap_cons, !filter_cons, IH.
  by case_decide.
Qed.

#[export] Hint Rewrite @zlen_nil @zlen_cons @zlen_app @zlen_take @zlen_drop : hg_len.
#[export] Hint Resolve zlen_nonneg : hg.

(** Length goals: push [zlen] through, note that lengths are not negative. *)
Ltac lens :=
  autorewrite with hg_len in *;
  repeat match goal with
  | |- context [zlen ?l] =>
    lazymatch goal with H : 0 ≤ zlen l |- _ => fail | _ => pose proof (zlen_nonneg l) end
  | _ : context [zlen ?l] |- _ =>
    lazymatch goal with H : 0 ≤ zlen l |- _ => fail | _ => pose proof (zlen_nonneg l) end
  end; lia.

(** * Bytes and little-endian words *)

Lemma byte_val_range b : 0 ≤ byte_val b < 256.
Proof. unfold byte_val. pose proof (Byte.to_N_bounded b). lia. Qed.

Lemma byte_val_of z : byte_val (byte_of z) = z mod 256.
Proof.
  unfold byte_val, byte_of. pose proof (Z.mod_pos_bound z 256 ltac:(lia)).
  destruct (Byte.of_N (Z.to_N (z mod 256))) eqn:E.
  - apply Byte.to_of_N in E. rewrite E. lia.
  - apply Byte.of_N_None_iff in E. lia.
Qed.

Lemma byte_of_val b : byte_of (byte_val b) = b.
Proof.
  unfold byte_of. rewrite Z.mod_small by apply byte_val_range.
  unfold byte_val. by rewrite N2Z.id, Byte.of_to_N.
Qed.

#[export] Instance byte_val_inj : Inj (=) (=) byte_val.
Proof. intros a b H. by rewrite <- (byte_of_val a), <- (byte_of_val b), H. Qed.

Lemma length_le_bytes n z : length (le_bytes n z) = n.
Proof. revert z. induction n; intros; simpl; [done |]. by rewrite IHn. Qed.

Lemma zlen_le_bytes n z : zlen (le_bytes n z) = Z.of_nat n.
Proof. unfold zlen. by rewrite length_le_bytes. Qed.
#[export] Hint Rewrite zlen_le_bytes : hg_len.

Lemma from_le_bytes n z : from_le (le_bytes n z) = z mod 2 ^ (8 * Z.of_nat n).
Proof.
  revert z. induction n as [|n IH]; intros z; cbn [le_bytes from_le].
  - by rewrite Z.mod_1_r.
  - rewrite byte_val_of, IH.
    replace (8 * Z.of_nat (S n)) with (8 + 8 * Z.of_nat n) by lia.
    rewrite Z.pow_add_r by lia. change (2 ^ 8) with 256.
    rewrite Z.rem_mul_r; lia.
Qed.

Lemma from_le_small n z : 0 ≤ z < 2 ^ (8 * Z.of_nat n) → from_le (le_bytes n z) = z.
Proof. intros. rewrite from_le_bytes. by apply Z.mod_small. Qed.

Lemma from_le_range l : 0 ≤ from_le l < 2 ^ (8 * zlen l).
Proof.
  induction l as [|b l IH]; simpl from_le; [done |]. rewrite zlen_cons.
  replace (8 * (1 + zlen l)) with (8 + 8 * zlen l) by lia.
  rewrite Z.pow_add_r by (pose proof (zlen_nonneg l); lia). change (2 ^ 8) with 256.
  pose proof (byte_val_range b). nia.
Qed.

Lemma le_bytes_from_le l : le_bytes (length l) (from_le l) = l.
Proof.
  induction l as [|b l IH]; [done |]. cbn [length from_le le_bytes].
  pose proof (byte_val_range b).
  replace ((byte_val b + 256 * from_le l) / 256) with (from_le l)
    by (apply (Z.div_unique _ _ _ (byte_val b)); lia).
  rewrite IH. f_equal. apply byte_val_inj.
  rewrite byte_val_of. symmetry. apply (Z.mod_unique _ _ (from_le l)); lia.
Qed.

Lemma le_bytes_slice n l a b :
  0 ≤ a → b ≤ zlen l → b = a + Z.of_nat n → le_bytes n (from_le (slice l a b)) = slice l a b.
Proof.
  intros Ha Hb E. rewrite <- (le_bytes_from_le (slice l a b)) at 2. f_equal.
  apply Nat2Z.inj. fold (zlen (slice l a b)). rewrite zlen_slice; lia.
Qed.

(** * The order of keys *)

Lemma bytes_cmp_refl a : bytes_cmp a a = Eq.
Proof. induction a as [|x a IH]; [done |]. simpl. by rewrite Z.compare_refl. Qed.

Lemma bytes_cmp_eq a b : bytes_cmp a b = Eq ↔ a = b.
Proof.
  split; [| intros ->; apply bytes_cmp_refl].
  revert b. induction a as [|x a IH]; intros [|y b]; simpl; try done.
  destruct (byte_val x ?= byte_val y) eqn:E; try done.
  apply Z.compare_eq_iff, byte_val_inj in E. intros ?%IH. congruence.
Qed.

Lemma bytes_cmp_opp a b : bytes_cmp b a = CompOpp (bytes_cmp a b).
Proof.
  revert b. induction a as [|x a IH]; intros [|y b]; simpl; try done.
  rewrite Z.compare_antisym. destruct (byte_val x ?= byte_val y) eqn:E; simpl; auto.
Qed.

Lemma bytes_lt_trans a b c : bytes_lt a b → bytes_lt b c → bytes_lt a c.
Proof.
  unfold bytes_lt. revert b c.
  induction a as [|x a IH]; intros [|y b] [|z c]; simpl; try done.
  destruct (Z.compare_spec (byte_val x) (byte_val y)) as [E1|E1|E1]; intros H1; try done;
    destruct (Z.compare_spec (byte_val y) (byte_val z)) as [E2|E2|E2]; intros H2; try done.
  - rewrite E1, E2, Z.compare_refl. eauto.
  - by rewrite E1, (proj2 (Z.compare_lt_iff _ _) E2).
  - by rewrite <- E2, (proj2 (Z.compare_lt_iff _ _) E1).
  - by rewrite (proj2 (Z.compare_lt_iff _ _) (Z.lt_trans _ _ _ E1 E2)).
Qed.

#[export] Instance bytes_lt_strict : StrictOrder bytes_lt.
Proof.
  split.
  - intros a. red. unfold bytes_lt. by rewrite bytes_cmp_refl.
  - intros a b c. apply bytes_lt_trans.
Qed.

Lemma bytes_lt_irrefl a : ¬ bytes_lt a a.
Proof. apply (irreflexivity bytes_lt). Qed.

Lemma bytes_le_lt_eq a b : bytes_le a b ↔ bytes_lt a b ∨ a = b.
Proof.
  unfold bytes_le, bytes_lt. rewrite <- bytes_cmp_eq.
  destruct (bytes_cmp a b); naive_solver.
Qed.

Lemma bytes_not_lt a b : ¬ bytes_lt a b ↔ bytes_le b a.
Proof.
  unfold bytes_le, bytes_lt. rewrite (bytes_cmp_opp a b).
  destruct (bytes_cmp a b); naive_solver.
Qed.

Lemma bytes_leb_le a b : bytes_leb a b = true ↔ bytes_le a b.
Proof. unfold bytes_leb, bytes_le. destruct (bytes_cmp a b); naive_solver. Qed.

Lemma bytes_le_refl a : bytes_le a a.
Proof. apply bytes_le_lt_eq. by right. Qed.

Lemma bytes_le_trans a b c : bytes_le a b → bytes_le b c → bytes_le a c.
Proof.
  rewrite !bytes_le_lt_eq. intros [?|<-] [?|<-]; eauto using bytes_lt_trans.
Qed.

Lemma bytes_lt_le_trans a b c : bytes_lt a b → bytes_le b c → bytes_lt a c.
Proof. rewrite bytes_le_lt_eq. intros ? [?|<-]; eauto using bytes_lt_trans. Qed.

Lemma bytes_le_lt_trans a b c : bytes_le a b → bytes_lt b c → bytes_lt a c.
Proof. rewrite bytes_le_lt_eq. intros [?|<-] ?; eauto using bytes_lt_trans. Qed.

Lemma bytes_lt_le a b : bytes_lt a b → bytes_le a b.
Proof. rewrite bytes_le_lt_eq. by left. Qed.

Lemma bytes_le_antisym a b : bytes_le a b → bytes_le b a → a = b.
Proof.
  rewrite !bytes_le_lt_eq. intros [H1|<-] [H2|H2]; try done.
  exfalso. eapply bytes_lt_irrefl. eauto using bytes_lt_trans.
Qed.

#[export] Hint Resolve bytes_le_refl bytes_lt_le : hg.

(** * Texts *)

Lemma str_of_list_of s : str_of_list (list_of_str s) = s.
Proof. induction s; simpl; congruence. Qed.
Lemma list_of_str_of l : list_of_str (str_of_list l) = l.
Proof. induction l; simpl; congruence. Qed.
Lemma list_of_str_app s t : list_of_str (s +:+ t) = list_of_str s ++ list_of_str t.
Proof. induction s; simpl; [done |]. by f_equal. Qed.

#[export] Instance str_of_list_inj : Inj (=) (=) str_of_list.
Proof. intros l k H. by rewrite <- (list_of_str_of l), H, list_of_str_of. Qed.

Lemma strip_prefix_list_app p s : strip_prefix_list p (p ++ s) = Some s.
Proof. induction p; simpl; [done |]. by rewrite decide_True. Qed.

Lemma strip_prefix_list_Some p s r : strip_prefix_list p s = Some r ↔ s = p ++ r.
Proof.
  split; [| intros ->; apply strip_prefix_list_app].
  revert s. induction p as [|x p IH]; intros [|y s]; simpl; try naive_solver.
  case_decide; [| done]. intros ?%IH. congruence.
Qed.

Lemma strip_prefix_app p s : strip_prefix p (p +:+ s) = Some s.
Proof.
  unfold strip_prefix. rewrite list_of_str_app, strip_prefix_list_app. simpl.
  by rewrite str_of_list_of.
Qed.

Lemma strip_suffix_app p s : strip_suffix p (s +:+ p) = Some s.
Proof.
  unfold strip_suffix. rewrite list_of_str_app, reverse_app, strip_prefix_list_app. simpl.
  by rewrite reverse_involutive, str_of_list_of.
Qed.

Lemma strip_suffix_Some p s r : strip_suffix p s = Some r → s = r +:+ p.
Proof.
  unfold strip_suffix. rewrite fmap_Some. intros (l & Hl & ->).
  apply strip_prefix_list_Some in Hl. apply (f_equal reverse) in Hl.
  rewrite reverse_involutive, reverse_app, reverse_involutive in Hl.
  rewrite <- (str_of_list_of s), Hl.
  rewrite <- (str_of_list_of (_ +:+ _)), list_of_str_app, list_of_str_of. done.
Qed.

Lemma split_once_list_Some c s a b :
  split_once_list c s = Some (a, b) ↔ s = a ++ c :: b ∧ c ∉ a.
Proof.
  revert a. induction s as [|x s IH]; intros a; simpl.
  { split; [done |]. intros [E _]. by destruct a. }
  case_decide as Hx.
  - subst x. split; [intros [= <- <-]; split; [done | apply not_elem_of_nil] |].
    intros [E Ha]. destruct a as [|y a]; [by injection E as -> |].
    injection E as -> _. by destruct Ha; left.
  - rewrite fmap_Some. split.
    + intros ([a' b'] & E & [= -> ->]). apply IH in E as [-> Ha]. split; [done |].
      rewrite not_elem_of_cons. auto.
    + intros [E Ha]. destruct a as [|y a]; [by injection E as ->|]. injection E as -> ->.
      exists (a, b). split; [| done]. apply IH. split; [done |].
      rewrite not_elem_of_cons in Ha. tauto.
Qed.

Lemma split_once_app c a b :
  c ∉ list_of_str a → split_once c (a +:+ String c b) = Some (a, b).
Proof.
  intros Ha. unfold split_once. rewrite list_of_str_app. simpl.
  rewrite (proj2 (split_once_list_Some c _ (list_of_str a) (list_of_str b))) by done.
  simpl. by rewrite !str_of_list_of.
Qed.

(** * Decimal numbers *)

Lemma ascii_digit_of d : 0 ≤ d < 10 → ascii_digit (digit_ascii d) = Some d.
Proof.
  intros Hd. unfold ascii_digit, digit_ascii. rewrite N_ascii_embedding by lia.
  rewrite Z2N.id by lia.
  replace ((48 <=? 48 + d) && (48 + d <=? 57))%bool with true.
  - f_equal. lia.
  - symmetry. apply andb_true_intro. split; apply Z.leb_le; lia.
Qed.

Lemma digit_not_plus d : 0 ≤ d < 10 → digit_ascii d ≠ "+"%char.
Proof.
  intros Hd E. apply (f_equal N_of_ascii) in E. unfold digit_ascii in E.
  rewrite N_ascii_embedding in E by lia. change (N_of_ascii "+") with 43%N in E. lia.
Qed.

Lemma dec_value_snoc l c : dec_value (l ++ [c]) = dec_step (dec_value l) c.
Proof. unfold dec_value. by rewrite fold_left_app. Qed.

Lemma length_dec_digits n z : length (dec_digits n z) = n.
Proof.
  revert z. induction n; intros; simpl; [done |]. rewrite length_app, IHn. simpl. lia.
Qed.

Lemma dec_digits_value n z : 0 ≤ z → dec_value (dec_digits n z) = Some (z mod 10 ^ Z.of_nat n).
Proof.
  revert z. induction n as [|n IH]; intros z Hz; cbn [dec_digits].
  - by rewrite Z.mod_1_r.
  - rewrite dec_value_snoc, IH by (apply Z.div_pos; lia). unfold dec_step.
    rewrite ascii_digit_of by (apply Z.mod_pos_bound; lia). f_equal.
    rewrite Nat2Z.inj_succ, Z.pow_succ_r by lia.
    rewrite Z.rem_mul_r; lia.
Qed.

Lemma dec_digits_no_plus n z l : dec_digits n z ≠ "+"%char :: l.
Proof.
  revert z l. induction n as [|n IH]; intros z l; simpl; [done |].
  destruct (dec_digits n (z / 10)) as [|c k] eqn:E; simpl.
  - intros [= H _]. by apply digit_not_plus in H; [| apply Z.mod_pos_bound].
  - intros [= -> _]. by apply IH in E.
Qed.

Lemma dec_value_nonneg l v : dec_value l = Some v → 0 ≤ v.
Proof.
  revert v. induction l as [|c l IH] using rev_ind; intros v.
  - intros [= <-]. done.
  - rewrite dec_value_snoc. unfold dec_step.
    destruct (dec_value l) as [w|]; [| done]. specialize (IH w eq_refl).
    unfold ascii_digit. destruct (_ && _) eqn:E; [| done].
    apply andb_prop in E as [E _]. intros [= <-]. lia.
Qed.

Lemma parse_u64_range s v : parse_u64 s = Some v → is_u64 v.
Proof.
  unfold parse_u64, is_u64, u64_max. intros H. repeat case_match; simplify_eq;
    (split; [by eapply dec_value_nonneg | lia]).
Qed.

Lemma parse_u64_nonneg s v : parse_u64 s = Some v → 0 ≤ v.
Proof. by intros [? _]%parse_u64_range. Qed.

Lemma parse_digits l v :
  l ≠ [] → (∀ k, l ≠ "+"%char :: k) → dec_value l = Some v → v ≤ u64_max →
  parse_u64 (str_of_list l) = Some v.
Proof.
  intros Hl Hp Hv Hm. unfold parse_u64. rewrite list_of_str_of.
  destruct l as [|c k]; [done |].
  rewrite decide_False by (intros ->; by apply (Hp k)).
  rewrite Hv. apply Z.leb_le in Hm. by rewrite Hm.
Qed.

Lemma parse_fmt_020 z : is_u64 z → parse_u64 (fmt_020 z) = Some z.
Proof.
  unfold is_u64. intros Hz. apply parse_digits.
  - intros E. apply (f_equal length) in E. rewrite length_dec_digits in E. done.
  - intros k. apply dec_digits_no_plus.
  - rewrite dec_digits_value by lia. f_equal. apply Z.mod_small. lia.
  - unfold u64_max. lia.
Qed.

Lemma fmt_020_inj z1 z2 : is_u64 z1 → is_u64 z2 → fmt_020 z1 = fmt_020 z2 → z1 = z2.
Proof.
  intros H1 H2 E. apply parse_fmt_020 in H1. apply parse_fmt_020 in H2. congruence.
Qed.

(** * Texts of equal length in [str] order *)

Lemma compare_app_same p s t : String.compare (p +:+ s) (p +:+ t) = String.compare s t.
Proof.
  induction p as [|c p IH]; simpl; [done |]. unfold Ascii.compare. by rewrite N.compare_refl.
Qed.

Lemma compare_refl_str s : String.compare s s = Eq.
Proof. induction s as [|c s IH]; simpl; [done |]. unfold Ascii.compare. by rewrite N.compare_refl. Qed.

Lemma compare_app_equal_length s1 s2 t1 t2 :
  String.length s1 = String.length s2 →
  String.compare (s1 +:+ t1) (s2 +:+ t2) =
    match String.compare s1 s2 with Eq => String.compare t1 t2 | c => c end.
Proof.
  revert s2. induction s1 as [|c s1 IH]; intros [|d s2] Hlen; simpl in *; try done.
  destruct (Ascii.compare c d); [| done..]. apply IH. lia.
Qed.

Lemma str_of_list_app l k : str_of_list (l ++ k) = str_of_list l +:+ str_of_list k.
Proof. induction l as [|c l IH]; simpl; [done |]. rewrite IH. done. Qed.
Lemma length_str_of_list l : String.length (str_of_list l) = length l.
Proof. induction l; simpl; [done |]. by f_equal. Qed.

Lemma digit_ascii_compare d e :
  0 ≤ d < 10 → 0 ≤ e < 10 → Ascii.compare (digit_ascii d) (digit_ascii e) = (d ?= e).
Proof.
  intros Hd He. unfold Ascii.compare, digit_ascii. rewrite !N_ascii_embedding by lia.
  rewrite <- N2Z.inj_compare, !Z2N.id by lia. destruct (d ?= e) eqn:E.
  - rewrite Z.compare_eq_iff in *. lia.
  - rewrite Z.compare_lt_iff in *. lia.
  - rewrite Z.compare_gt_iff in *. lia.
Qed.

Lemma compare_div_mod z1 z2 :
  (z1 ?= z2) = match z1 / 10 ?= z2 / 10 with Eq => z1 mod 10 ?= z2 mod 10 | c => c end.
Proof.
  pose proof (Z.div_mod z1 10 ltac:(lia)). pose proof (Z.div_mod z2 10 ltac:(lia)).
  pose proof (Z.mod_pos_bound z1 10 ltac:(lia)). pose proof (Z.mod_pos_bound z2 10 ltac:(lia)).
  destruct (Z.compare_spec (z1 / 10) (z2 / 10)) as [E|E|E].
  - destruct (Z.compare_spec (z1 mod 10) (z2 mod 10)).
    + apply Z.compare_eq_iff. lia.
    + apply Z.compare_lt_iff. lia.
    + apply Z.compare_gt_iff. lia.
  - apply Z.compare_lt_iff. lia.
  - apply Z.compare_gt_iff. lia.
Qed.

Lemma dec_digits_compare n z1 z2 :
  0 ≤ z1 < 10 ^ Z.of_nat n → 0 ≤ z2 < 10 ^ Z.of_nat n →
  String.compare (str_of_list (dec_digits n z1)) (str_of_list (dec_digits n z2)) = (z1 ?= z2).
Proof.
  revert z1 z2. induction n as [|n IH]; intros z1 z2 H1 H2.
  { change (10 ^ Z.of_nat 0) with 1 in *. replace z1 with z2 by lia. by rewrite Z.compare_refl. }
  rewrite Nat2Z.inj_succ, Z.pow_succ_r in H1, H2 by lia. cbn [dec_digits].
  rewrite !str_of_list_app, compare_app_equal_length
    by (by rewrite !length_str_of_list, !length_dec_digits).
  rewrite IH by (split; [apply Z.div_pos | apply Z.div_lt_upper_bound]; lia).
  rewrite (compare_div_mod z1 z2). destruct (z1 / 10 ?= z2 / 10); try done. simpl.
  rewrite digit_ascii_compare by (apply Z.mod_pos_bound; lia).
  by destruct (z1 mod 10 ?= z2 mod 10).
Qed.

(** Zero-padded numbers sort as texts the way they sort as numbers. *)
Lemma fmt_020_compare z1 z2 :
  is_u64 z1 → is_u64 z2 → String.compare (fmt_020 z1) (fmt_020 z2) = (z1 ?= z2).
Proof. unfold is_u64. intros. apply dec_digits_compare; lia. Qed.

Lemma length_fmt_020 z : String.length (fmt_020 z) = 20%nat.
Proof. unfold fmt_020. by rewrite length_str_of_list, length_dec_digits. Qed.

Lemma compare_padded p q z1 z2 :
  is_u64 z1 → is_u64 z2 →
  String.compare (p +:+ fmt_020 z1 +:+ q) (p +:+ fmt_020 z2 +:+ q) = (z1 ?= z2).
Proof.
  intros H1 H2. rewrite compare_app_same, compare_app_equal_length by (by rewrite !length_fmt_020).
  rewrite fmt_020_compare by done. destruct (z1 ?= z2); [apply compare_refl_str | done..].
Qed.

(** * Sorting *)

Lemma StronglySorted_sublist {A} (R : A → A → Prop) l k :
  sublist l k → StronglySorted R k → StronglySorted R l.
Proof.
  induction 1 as [|x l k Hl IH|x l k Hl IH]; [done | |].
  - intros [Hk Hx]%StronglySorted_inv. constructor; [auto |].
    rewrite Forall_forall in *. intros y Hy. apply Hx. by eapply elem_of_sublist.
  - intros [Hk _]%StronglySorted_inv. auto.
Qed.

Section sort_lemmas.
Context {A : Type} (leb : A → A → bool).
Context (leb_total : ∀ x y, leb x y = true ∨ leb y x = true).
Context (leb_trans : ∀ x y z, leb x y = true → leb y z = true → leb x z = true).

Definition leb_sorted : list A → Prop := StronglySorted (λ x y, leb x y = true).

Lemma sort_insert_perm x l : sort_insert leb x l ≡ₚ x :: l.
Proof.
  induction l as [|y l IH]; simpl; [done |]. destruct (leb x y); [done |].
  rewrite IH. apply Permutation_swap.
Qed.

Lemma sort_by_perm l : sort_by leb l ≡ₚ l.
Proof. induction l as [|x l IH]; simpl; [done |]. by rewrite sort_insert_perm, IH. Qed.

Lemma sort_insert_sorted x l : leb_sorted l → leb_sorted (sort_insert leb x l).
Proof.
  unfold leb_sorted. induction 1 as [|y l Hl IH Hy]; simpl; [by repeat constructor |].
  destruct (leb x y) eqn:E.
  - repeat (constructor; try done). revert Hy. rewrite !Forall_forall. eauto.
  - constructor; [done |]. rewrite sort_insert_perm. constructor; [| done].
    destruct (leb_total x y); congruence.
Qed.

Lemma sort_by_sorted l : leb_sorted (sort_by leb l).
Proof. induction l; simpl; [constructor | by apply sort_insert_sorted]. Qed.

Lemma sort_insert_le x l :
  Forall (λ y, leb x y = true) l → sort_insert leb x l = x :: l.
Proof. destruct 1 as [|y l Hy]; simpl; [done |]. by rewrite Hy. Qed.

(** Sorting what is already in order changes nothing: the sort is stable. *)
Lemma sort_by_id l : leb_sorted l → sort_by leb l = l.
Proof.
  induction 1 as [|x l Hl IH Hx]; simpl; [done |]. rewrite IH. by apply sort_insert_le.
Qed.

(** A list without ties has one sorted order. *)
Lemma leb_sorted_unique l k :
  (∀ x y, x ∈ l → y ∈ l → leb x y = true → leb y x = true → x = y) →
  leb_sorted l → leb_sorted k → l ≡ₚ k → l = k.
Proof.
  intros Hanti Hl. revert k. induction Hl as [|x l Hl IH Hx]; intros k Hk Hp.
  { by apply Permutation_nil_l in Hp. }
  destruct Hk as [|y k Hk Hy]; [by apply Permutation_nil_r in Hp |].
  assert (x = y) as ->.
  { assert (x ∈ y :: k) as Hxk by (rewrite <- Hp; left).
    assert (y ∈ x :: l) as Hyl by (rewrite Hp; left).
    apply elem_of_cons in Hxk as [?|Hxk]; [done |].
    apply elem_of_cons in Hyl as [?|Hyl]; [done |].
    rewrite Forall_forall in Hx, Hy.
    apply Hanti; [by left | by right | by apply Hx | by apply Hy]. }
  f_equal. apply IH; [| done |].
  - intros a b ??. apply Hanti; by right.
  - by apply Permutation_cons_inv in Hp.
Qed.

Lemma sort_by_unique l k :
  (∀ x y, x ∈ l → y ∈ l → leb x y = true → leb y x = true → x = y) →
  l ≡ₚ k → sort_by leb l = sort_by leb k.
Proof.
  intros Hanti Hp. apply leb_sorted_unique; try apply sort_by_sorted.
  - intros x y. rewrite !sort_by_perm. apply Hanti.
  - by rewrite !sort_by_perm.
Qed.
End sort_lemmas.

(** * The monad *)

Section monad.
Context {S : Type}.

Lemma bind_ok {A B} (m : M S A) (f : A → M S B) s a s' :
  m s = (Ok a, s') → (m ≫= f) s = f a s'.
Proof. unfold mbind, m_bind. by intros ->. Qed.

Lemma bind_err {A B} (m : M S A) (f : A → M S B) s e s' :
  m s = (Err e, s') → (m ≫= f) s = (Err e, s').
Proof. unfold mbind, m_bind. by intros ->. Qed.

(** What a sequence did, read off its outcome. *)
Lemma bind_inv {A B} (m : M S A) (f : A → M S B) s r s' :
  (m ≫= f) s = (r, s') →
  (∃ a s1, m s = (Ok a, s1) ∧ f a s1 = (r, s')) ∨
  (∃ e, m s = (Err e, s') ∧ r = Err e).
Proof.
  unfold mbind, m_bind. destruct (m s) as [[a|e] s1]; [naive_solver |].
  intros [= <- <-]. eauto.
Qed.
End monad.

Lemma zoom_ok {S U A} (get : S → U) (set : U → S → S) (m : M U A) s a u :
  m (get s) = (Ok a, u) → m_zoom get set m s = (Ok a, set u s).
Proof. unfold m_zoom. by intros ->. Qed.

Lemma zoom_inv {S U A} (get : S → U) (set : U → S → S) (m : M U A) s r s' :
  m_zoom get set m s = (r, s') → ∃ u, m (get s) = (r, u) ∧ s' = set u s.
Proof. unfold m_zoom. destruct (m (get s)) as [r0 u]. intros [= <- <-]. eauto. Qed.

(** Triples: from [P], [m] ends with a value in [Q] or fails in a state in [E]. *)
Definition triple {S A} (P : S → Prop) (m : M S A) (Q : A → S → Prop) (E : S → Prop) : Prop :=
  ∀ s r s', P s → m s = (r, s') → match r with Ok a => Q a s' | Err _ => E s' end.

Section triples.
Context {S : Type}.

Lemma triple_bind {A B} (P : S → Prop) (m : M S A) (f : A → M S B) Q R E :
  triple P m Q E → (∀ a, triple (Q a) (f a) R E) → triple P (m ≫= f) R E.
Proof.
  intros Hm Hf s r s' HP Hrun.
  apply bind_inv in Hrun as [(a & s1 & E1 & E2)|(e & E1 & ->)].
  - apply (Hm _ _ _ HP) in E1. by apply (Hf a _ _ _ E1) in E2.
  - by apply (Hm _ _ _ HP) in E1.
Qed.

Lemma triple_ret {A} (P : S → Prop) (a : A) (Q : A → S → Prop) E :
  (∀ s, P s → Q a s) → triple P (mret a) Q E.
Proof. intros HQ s r s' HP [= <- <-]. auto. Qed.

Lemma triple_conseq {A} (P P' : S → Prop) (m : M S A) Q Q' E :
  triple P' m Q' E → (∀ s, P s → P' s) → (∀ a s, Q' a s → Q a s) → triple P m Q E.
Proof.
  intros Hm HP HQ s r s' Hs Hrun. specialize (Hm _ _ _ (HP _ Hs) Hrun).
  destruct r; auto.
Qed.
End triples.

Ltac munfold := unfold action, mret, m_ret, m_err, m_get, m_modify, m_lift in *.

#[global] Arguments le_bytes : simpl never.
#[global] Arguments from_le : simpl never.
#[global] Arguments zlen : simpl never.
#[global] Arguments slice : simpl never.
#[global] Arguments fmt_020 : simpl never.
#[global] Arguments parse_u64 : simpl never.
