(* ===== verification/Fs.v ===== *)
(** The part of [std::fs] and [std::io] the program uses, as methods on a
    directory: open, read, append, set_len, fsync, remove, and [BufWriter].

    A file is what is on the disk ([f_synced]) followed by what is written but
    not yet synced ([f_pending]). Every system call can fail: a list of faults,
    consumed one per call, says which ones do and, for a write, how many bytes
    went out before the failure. The empty list is a run without I/O errors.
    [crash] is a process or machine death: of the pending bytes of each file some
    prefix survives. *)

From S2P Require Import Prelude.

(** * Files and faults *)

Record file : Type := mk_file { f_synced : bytes; f_pending : bytes }.
Definition contents (f : file) : bytes := f_synced f ++ f_pending f.

Inductive fault : Type := Works | Fails (n : nat).

Record fs : Type := mk_fs { fs_files : gmap string file; fs_faults : list fault }.

Definition io_error : Error := Io "io error".
Definition not_found : Error := Io "not found".

(** The outcome of the next system call. *)
Definition next_fault : M fs fault := λ s,
  match fs_faults s with
  | [] => (Ok Works, s)
  | x :: l => (Ok x, {| fs_files := fs_files s; fs_faults := l |})
  end.

Definition set_file (name : string) (f : file) (s : fs) : fs :=
  {| fs_files := <[name := f]> (fs_files s); fs_faults := fs_faults s |}.

(** A call on an existing file: [k] is its effect when it works, [e] when it fails. *)
Definition file_call {A} (name : string) (k : file → result A * file)
    (e : nat → file → file) : M fs A :=
  x ← next_fault;
  action (λ s,
    match fs_files s !! name with
    | None => (Err not_found, s)
    | Some f =>
      match x with
      | Works => let '(r, f') := k f in (r, set_file name f' s)
      | Fails n => (Err io_error, set_file name (e n f) s)
      end
    end).

(** A call that leaves the directory's files alone: [fs::create_dir_all] of the
    directory itself, [fs::read_dir]. *)
Definition dir_call : M fs unit :=
  x ← next_fault;
  match x with Works => mret tt | Fails _ => m_err io_error end.

(** [OpenOptions::new().create(true).append(true).open(path)]. *)
Definition open_append (name : string) : M fs unit :=
  x ← next_fault;
  action (λ s,
    match x with
    | Fails _ => (Err io_error, s)
    | Works => match fs_files s !! name with
               | Some _ => (Ok tt, s)
               | None => (Ok tt, set_file name (mk_file [] []) s)
               end
    end).

(** [OpenOptions::new().write(true).open(path)] and [File::open(path)]. *)
Definition open_existing (name : string) : M fs unit :=
  file_call name (λ f, (Ok tt, f)) (λ _ f, f).

(** [read_to_end] from the start. *)
Definition read_to_end (name : string) : M fs bytes :=
  file_call name (λ f, (Ok (contents f), f)) (λ _ f, f).

(** [fs::metadata(path)?.len()]. *)
Definition metadata_len (name : string) : M fs Z :=
  file_call name (λ f, (Ok (zlen (contents f)), f)) (λ _ f, f).

(** [File::set_len]: cut, or extend with zeros. *)
Definition set_len (name : string) (n : Z) : M fs unit :=
  file_call name
    (λ f, let n := Z.to_nat n in
          (Ok tt, mk_file (take n (f_synced f))
                    (take (n - length (f_synced f)) (f_pending f) ++
                     replicate (n - length (contents f)) Byte.x00)))
    (λ _ f, f).

(** [sync_data] and [sync_all]. *)
Definition sync (name : string) : M fs unit :=
  file_call name (λ f, (Ok tt, mk_file (contents f) [])) (λ _ f, f).

(** [File::write_all] in append mode. *)
Definition write_file (name : string) (bs : bytes) : M fs unit :=
  file_call name
    (λ f, (Ok tt, mk_file (f_synced f) (f_pending f ++ bs)))
    (λ n f, mk_file (f_synced f) (f_pending f ++ take n bs)).

(** [fs::remove_file]. *)
Definition remove_file (name : string) : M fs unit :=
  x ← next_fault;
  action (λ s,
    match fs_files s !! name, x with
    | None, _ => (Err not_found, s)
    | Some _, Works => (Ok tt, mk_fs (base.delete name (fs_files s)) (fs_faults s))
    | Some _, Fails _ => (Err io_error, s)
    end).

(** * [BufWriter<File>] *)

Record bufwriter : Type := mk_bufwriter { bw_file : string; bw_buf : bytes }.

(** [DEFAULT_BUF_SIZE]. *)
Definition BUF_CAPACITY : Z := 8192.

(** How many bytes a failing write put out before the failure. *)
Definition written_by (x : fault) (bs : bytes) : nat :=
  match x with Works => length bs | Fails n => Nat.min n (length bs) end.

(** [flush_buf]: write the buffer out. An empty buffer makes no call. On a
    failure the written part leaves the buffer and the rest stays. *)
Definition flush_buf : M (bufwriter * fs) unit := λ '(w, s),
  match bw_buf w with
  | [] => (Ok tt, (w, s))
  | bs =>
    let x := default Works (head (fs_faults s)) in
    match write_file (bw_file w) bs s with
    | (Ok tt, s') => (Ok tt, (mk_bufwriter (bw_file w) [], s'))
    | (Err e, s') => (Err e, (mk_bufwriter (bw_file w) (drop (written_by x bs) bs), s'))
    end
  end.

Definition buffer_push (bs : bytes) : M (bufwriter * fs) unit :=
  m_modify (λ '(w, s), (mk_bufwriter (bw_file w) (bw_buf w ++ bs), s)).

(** [<BufWriter as Write>::write_all]. *)
Definition bw_write_all (bs : bytes) : M (bufwriter * fs) unit :=
  '(w, _) ← m_get;
  let spare := BUF_CAPACITY - zlen (bw_buf w) in
  if zlen bs <? spare then buffer_push bs else
  _ ← (if spare <? zlen bs then flush_buf else mret tt);
  if BUF_CAPACITY <=? zlen bs
  then m_zoom snd (λ s st, (fst st, s)) (write_file (bw_file w) bs)
  else buffer_push bs.

(** [<BufWriter as Write>::flush]: [File::flush] does nothing. *)
Definition bw_flush : M (bufwriter * fs) unit := flush_buf.

(** * Crashes *)

(** [f'] is what a crash can leave of [f]. *)
Definition crash_file (f f' : file) : Prop :=
  ∃ n, f' = mk_file (f_synced f ++ take n (f_pending f)) [].

(** The directory after a crash and a restart. The faults of the new run are
    unrelated to the old ones. *)
Definition crash (s s' : fs) : Prop :=
  (∀ name f, fs_files s !! name = Some f →
    ∃ f', fs_files s' !! name = Some f' ∧ crash_file f f') ∧
  (∀ name, fs_files s !! name = None → fs_files s' !! name = None).

(** An executable crash: [n name] bytes of each file's pending part survive. *)
Definition crash_at (n : string → nat) (s : fs) : fs :=
  {| fs_files := map_imap (λ name f,
       Some (mk_file (f_synced f ++ take (n name) (f_pending f)) [])) (fs_files s);
     fs_faults := [] |}.

(** * What a call does when nothing fails *)

Section works.
Implicit Types (m : gmap string file) (f : file).

Lemma fs_eta s : mk_fs (fs_files s) (fs_faults s) = s.
Proof. by destruct s. Qed.

Lemma file_call_ok {A} name (k : file → result A * file) e m f r :
  m !! name = Some f → k f = (r, f) →
  file_call name k e (mk_fs m []) = (r, mk_fs m []).
Proof.
  intros Hf Hk. unfold file_call, mbind, m_bind, action. simpl. rewrite Hf, Hk.
  unfold set_file. simpl. by rewrite insert_id.
Qed.

Lemma open_existing_ok name m f :
  m !! name = Some f → open_existing name (mk_fs m []) = (Ok tt, mk_fs m []).
Proof. intros. by eapply file_call_ok. Qed.
Lemma read_to_end_ok name m f :
  m !! name = Some f → read_to_end name (mk_fs m []) = (Ok (contents f), mk_fs m []).
Proof. intros. by eapply file_call_ok. Qed.
Lemma metadata_len_ok name m f :
  m !! name = Some f → metadata_len name (mk_fs m []) = (Ok (zlen (contents f)), mk_fs m []).
Proof. intros. by eapply file_call_ok. Qed.
Lemma dir_call_ok m : dir_call (mk_fs m []) = (Ok tt, mk_fs m []).
Proof. done. Qed.
Lemma open_append_ok name m :
  open_append name (mk_fs m []) =
    (Ok tt, mk_fs (match m !! name with Some _ => m | None => <[name := mk_file [] []]> m end) []).
Proof.
  unfold open_append, mbind, m_bind, action. simpl. by destruct (m !! name).
Qed.
Lemma remove_file_ok name m f :
  m !! name = Some f → remove_file name (mk_fs m []) = (Ok tt, mk_fs (base.delete name m) []).
Proof. intros Hf. unfold remove_file, mbind, m_bind, action. simpl. by rewrite Hf. Qed.

(** Cutting a synced file back to its first part, then syncing. *)
Lemma set_len_cut_ok name m l t :
  m !! name = Some (mk_file (l ++ t) []) →
  set_len name (zlen l) (mk_fs m []) = (Ok tt, mk_fs (<[name := mk_file l []]> m) []).
Proof.
  intros Hf. unfold set_len, file_call, mbind, m_bind, action. simpl. rewrite Hf.
  simpl. unfold set_file, contents, zlen. simpl. rewrite Nat2Z.id, app_nil_r, take_nil.
  rewrite take_app_length, length_app.
  by replace (length l - (length l + length t))%nat with 0%nat by lia.
Qed.
Lemma sync_clean_ok name m l :
  m !! name = Some (mk_file l []) → sync name (mk_fs m []) = (Ok tt, mk_fs m []).
Proof.
  intros Hf. eapply file_call_ok; [done |]. unfold contents. simpl. by rewrite app_nil_r.
Qed.
End works.

(** * What a call can do when it may fail *)

(** [f'] is [f] with a part of [bs] appended, some of it synced. *)
Definition grown (l bs : bytes) (f' : file) : Prop :=
  ∃ i j, (i ≤ j)%nat ∧ contents f' = l ++ take j bs ∧ f_synced f' = l ++ take i bs.

Section may_fail.
Implicit Types (m : gmap string file) (f : file).

Lemma file_call_inv {A} name (k : file → result A * file) e s r s' f :
  fs_files s !! name = Some f → file_call name k e s = (r, s') →
  (k f = (r, match fs_files s' !! name with Some f' => f' | None => f end) ∨
   ∃ n, fs_files s' !! name = Some (e n f) ∧ r = Err io_error) ∧
  ∃ f', fs_files s' = <[name := f']> (fs_files s).
Proof.
  intros Hf. unfold file_call, mbind, m_bind, action, next_fault.
  destruct (fs_faults s) as [|[|n] l]; simpl; rewrite Hf; simpl.
  1,2: destruct (k f) as [r0 f0] eqn:Hk; intros [= <- <-]; simpl; rewrite lookup_insert_eq; eauto.
  intros [= <- <-]. simpl. rewrite lookup_insert_eq. split; [right |]; eauto.
Qed.

Lemma write_file_inv name bs s r s' f :
  fs_files s !! name = Some f → write_file name bs s = (r, s') →
  ∃ n, fs_files s' = <[name := mk_file (f_synced f) (f_pending f ++ take n bs)]> (fs_files s)
    ∧ (r = Ok tt → take n bs = bs).
Proof.
  intros Hf H. apply (file_call_inv _ _ _ _ _ _ _ Hf) in H as [H [f' Hs]].
  rewrite Hs, lookup_insert_eq in H. destruct H as [[= <- <-]|(n & [= ->] & ->)].
  - exists (length bs). by rewrite Hs, firstn_all.
  - exists n. by rewrite Hs.
Qed.

Lemma sync_inv name s r s' f :
  fs_files s !! name = Some f → sync name s = (r, s') →
  ∃ f', fs_files s' = <[name := f']> (fs_files s) ∧ contents f' = contents f ∧
    (f' = f ∨ f' = mk_file (contents f) []) ∧ (r = Ok tt → f' = mk_file (contents f) []).
Proof.
  intros Hf H. apply (file_call_inv _ _ _ _ _ _ _ Hf) in H as [H [f' Hs]].
  rewrite Hs, lookup_insert_eq in H. exists f'.
  destruct H as [[= <- <-]|(n & [= ->] & ->)]; split_and!; eauto; try done.
  unfold contents. simpl. by rewrite app_nil_r.
Qed.

Lemma open_append_inv name s r s' :
  open_append name s = (r, s') →
  fs_files s' = fs_files s ∧ (r = Ok tt → is_Some (fs_files s !! name)) ∨
  fs_files s !! name = None ∧ fs_files s' = <[name := mk_file [] []]> (fs_files s) ∧ r = Ok tt.
Proof.
  unfold open_append, mbind, m_bind, action, next_fault.
  destruct (fs_faults s) as [|[|n] l]; simpl;
    destruct (fs_files s !! name) eqn:E; intros [= <- <-]; simpl; rewrite ?E;
    (by left) || (by right).
Qed.

Lemma remove_file_inv name s r s' :
  remove_file name s = (r, s') →
  fs_files s' = fs_files s ∧ (∃ e, r = Err e) ∨
  fs_files s' = base.delete name (fs_files s) ∧ r = Ok tt.
Proof.
  unfold remove_file, mbind, m_bind, action, next_fault.
  destruct (fs_faults s) as [|[|n] l]; simpl;
    destruct (fs_files s !! name) eqn:E; intros [= <- <-]; simpl; eauto.
Qed.

(** Without faults every call on an existing file works. *)
Lemma write_file_quiet name bs s f :
  fs_files s !! name = Some f → fs_faults s = [] →
  ∃ s', write_file name bs s = (Ok tt, s') ∧ fs_faults s' = [].
Proof.
  intros Hf Hq. unfold write_file, file_call, mbind, m_bind, action, next_fault.
  rewrite Hq. rewrite Hf. eauto.
Qed.
Lemma sync_quiet name s f :
  fs_files s !! name = Some f → fs_faults s = [] →
  ∃ s', sync name s = (Ok tt, s') ∧ fs_faults s' = [].
Proof.
  intros Hf Hq. unfold sync, file_call, mbind, m_bind, action, next_fault.
  rewrite Hq. rewrite Hf. eauto.
Qed.
Lemma open_append_quiet name s :
  fs_faults s = [] → ∃ s', open_append name s = (Ok tt, s') ∧ fs_faults s' = [].
Proof.
  intros Hq. unfold open_append, mbind, m_bind, action, next_fault. rewrite Hq.
  destruct (fs_files s !! name); eauto.
Qed.
Lemma dir_call_quiet s : fs_faults s = [] → dir_call s = (Ok tt, s).
Proof. intros Hq. unfold dir_call, mbind, m_bind, next_fault. by rewrite Hq. Qed.
Lemma remove_file_quiet name s f :
  fs_files s !! name = Some f → fs_faults s = [] →
  ∃ s', remove_file name s = (Ok tt, s') ∧ fs_faults s' = [].
Proof.
  intros Hf Hq. unfold remove_file, mbind, m_bind, action, next_fault. rewrite Hq.
  rewrite Hf. eauto.
Qed.

(** [write_all] then [flush] on an empty buffer is one write of the bytes,
    however many they are: below the capacity through the buffer, else directly. *)
Lemma bw_write_flush name bs s :
  bs ≠ [] →
  ∃ buf, (_ ← bw_write_all bs; bw_flush) (mk_bufwriter name [], s) =
    match write_file name bs s with
    | (Ok _, s') => (Ok tt, (mk_bufwriter name [], s'))
    | (Err e, s') => (Err e, (mk_bufwriter name buf, s'))
    end.
Proof.
  intros Hne. unfold bw_write_all.
  unfold mbind at 1 2 3, m_bind at 1 2 3, m_get. cbn [bw_buf].
  rewrite (zlen_nil (A := byte)), Z.sub_0_r.
  destruct (zlen bs <? BUF_CAPACITY) eqn:E1.
  - unfold buffer_push, m_modify. cbn. unfold bw_flush, flush_buf. cbn [bw_buf bw_file app].
    destruct bs as [|b bs]; [done |].
    destruct (write_file name (b :: bs) s) as [[[]|e] s']; eauto.
  - zbool.
    assert ((BUF_CAPACITY <=? zlen bs) = true) as -> by (by apply Z.leb_le).
    assert ((if BUF_CAPACITY <? zlen bs then flush_buf else mret tt) (mk_bufwriter name [], s)
      = (Ok tt, (mk_bufwriter name [], s))) as -> by (by destruct (BUF_CAPACITY <? zlen bs)).
    unfold m_zoom. cbn [snd fst bw_file].
    destruct (write_file name bs s) as [[[]|e] s'] eqn:E; cbn; eauto.
Qed.

Lemma grown_start l bs : grown l bs (mk_file l []).
Proof. exists 0%nat, 0%nat. unfold contents. simpl. by rewrite !app_nil_r. Qed.

Lemma grown_crash l bs f f' :
  grown l bs f → crash_file f f' → ∃ n, f' = mk_file (l ++ take n bs) [].
Proof.
  intros (i & j & Hij & Hc & Hs) [n ->]. unfold contents in Hc. rewrite Hs in *.
  rewrite <- app_assoc in Hc. apply app_inv_head in Hc.
  exists (length (take i bs ++ take n (f_pending f))). f_equal.
  rewrite <- app_assoc. f_equal.
  assert (take i bs ++ take n (f_pending f) `prefix_of` take j bs) as [k Hk].
  { exists (drop n (f_pending f)). by rewrite <- app_assoc, take_drop. }
  assert (take i bs ++ take n (f_pending f) `prefix_of` bs) as Hpre.
  { exists (k ++ drop j bs). by rewrite app_assoc, <- Hk, take_drop. }
  clear -Hpre. revert Hpre. generalize (take i bs ++ take n (f_pending f)).
  intros p [q ->]. by rewrite take_app_length.
Qed.
End may_fail.

(** * Crashes *)

Lemma crash_lookup s s' name f' :
  crash s s' → fs_files s' !! name = Some f' →
  ∃ f, fs_files s !! name = Some f ∧ crash_file f f'.
Proof.
  intros [H1 H2] Hf'. destruct (fs_files s !! name) as [f|] eqn:E.
  - destruct (H1 _ _ E) as (f0 & ? & ?). exists f. split; [done |]. congruence.
  - apply H2 in E. congruence.
Qed.

Lemma crash_clean f f' : f_pending f = [] → crash_file f f' → f' = f.
Proof. destruct f. intros Hp [n ->]. simpl in *. subst. by rewrite take_nil, app_nil_r. Qed.

Lemma crash_at_crash n s : crash s (crash_at n s).
Proof.
  split; intros name; simpl; rewrite map_lookup_imap.
  - intros f ->. simpl. eexists. split; [done |]. by exists (n name).
  - by intros ->.
Qed.
