(* ===== verification/Instances.v ===== *)
(** Concrete stand-ins for the third-party functions the model is parametric in.
    Nothing but the examples uses them: every theorem is about any function with
    the stated properties, and an example applies it to one of these. *)

From Stdlib Require Import Ascii String.
From S2P Require Import Prelude Fs.

(** CRC-32 (IEEE 802.3, reflected), the checksum [crc32fast::hash] computes. *)
Fixpoint crc32_bits (n : nat) (c : Z) : Z :=
  match n with
  | O => c
  | S n =>
    let c' := Z.shiftr c 1 in
    crc32_bits n (if Z.odd c then Z.lxor c' 0xEDB88320 else c')
  end.
Definition crc32_ieee (l : bytes) : Z :=
  as_u32 (Z.lxor 0xFFFFFFFF
    (fold_left (λ c b, crc32_bits 8 (Z.lxor c (byte_val b))) l 0xFFFFFFFF)).

Lemma crc32_ieee_u32 l : is_u32 (crc32_ieee l).
Proof. unfold crc32_ieee, as_u32, is_u32. by apply Z.mod_pos_bound. Qed.

(** The check value of the CRC catalogue: the nine bytes of 123456789. *)
Example crc32_ieee_check :
  crc32_ieee [Byte.x31; Byte.x32; Byte.x33; Byte.x34; Byte.x35;
              Byte.x36; Byte.x37; Byte.x38; Byte.x39] = 0xCBF43926.
Proof. vm_compute. reflexivity. Qed.

(** A directory read in the order of the map's keys. *)
Definition read_dir_keys (m : gmap string file) : list string := (map_to_list m).*1.

Lemma read_dir_keys_perm m : read_dir_keys m ≡ₚ (map_to_list m).*1.
Proof. done. Qed.

(** Base64, standard alphabet with padding (RFC 4648, section 4): the decoder of
    [base64::engine::general_purpose::STANDARD]. *)
Definition b64_value (c : ascii) : option Z :=
  let n := Z.of_N (N_of_ascii c) in
  if (65 <=? n) && (n <=? 90) then Some (n - 65)
  else if (97 <=? n) && (n <=? 122) then Some (n - 71)
  else if (48 <=? n) && (n <=? 57) then Some (n + 4)
  else if n =? 43 then Some 62
  else if n =? 47 then Some 63
  else None.

Fixpoint b64_groups (fuel : nat) (l : list ascii) : option bytes :=
  match fuel, l with
  | _, [] => Some []
  | S fuel, [a; b; "="%char; "="%char] =>
    x ← b64_value a; y ← b64_value b;
    if y mod 16 =? 0 then Some [byte_of (x * 4 + y / 16)] else None
  | S fuel, [a; b; c; "="%char] =>
    x ← b64_value a; y ← b64_value b; z ← b64_value c;
    if z mod 4 =? 0 then Some [byte_of (x * 4 + y / 16); byte_of (y * 16 + z / 4)] else None
  | S fuel, a :: b :: c :: d :: l =>
    x ← b64_value a; y ← b64_value b; z ← b64_value c; w ← b64_value d;
    rest ← b64_groups fuel l;
    Some (byte_of (x * 4 + y / 16) :: byte_of (y * 16 + z / 4) :: byte_of (z * 64 + w) :: rest)
  | _, _ => None
  end.
Definition base64_standard (s : string) : option bytes :=
  b64_groups (S (String.length s)) (list_of_str s).

(** The bytes of a text. *)
Definition str_bytes (s : string) : bytes := (λ c, byte_of (Z.of_N (N_of_ascii c))) <$> list_of_str s.
