(* ===== verification/RecordModel.v ===== *)
(** [src/src/record.rs]: the record [(pk, lsn, op, value)] and its WAL frame.

    [encode] and [decode] are the source's functions on byte lists. The checksum
    [crc32fast::hash] is third-party code and a parameter: the round trip only
    needs that it is a 32-bit number, the torn-tail theorems need nothing. *)

From S2P Require Import Prelude Fs Instances.

(** * Data *)

Definition Lsn : Type := Z.

Inductive Op : Type := Put | Delete.

#[export] Instance Op_eq_dec : EqDecision Op.
Proof. solve_decision. Defined.

(** [op as u8] under [#[repr(u8)]]. *)
Definition op_code (o : Op) : Z := match o with Put => 0 | Delete => 1 end.

Definition from_u8 (b : byte) : option Op :=
  match byte_val b with
  | 0 => Some Put
  | 1 => Some Delete
  | _ => None
  end.

Record record : Type := mk_record {
  key : bytes;
  lsn : Lsn;
  op : Op;
  value : bytes;
}.

#[export] Instance record_eq_dec : EqDecision record.
Proof. solve_decision. Defined.

Definition put (k : bytes) (l : Lsn) (v : bytes) : record :=
  {| key := k; lsn := l; op := Put; value := v |}.
Definition delete (k : bytes) (l : Lsn) : record :=
  {| key := k; lsn := l; op := Delete; value := [] |}.

Definition ENTRY_OVERHEAD : Z := 64.
Definition heap_size (r : record) : Z := zlen (key r) + zlen (value r) + ENTRY_OVERHEAD.

(** [iter().map(|r| r.lsn).max()], 0 for none: LSNs are not negative. *)
Definition max_lsn_of (rs : list record) : Lsn := foldr (λ r m, lsn r `max` m) 0 rs.

Definition FRAME_HEADER_LEN : Z := 8.

(** [buf[a..a + bs.len()].copy_from_slice(bs)] of a range inside the buffer. *)
Definition write_at (buf : bytes) (a : Z) (bs : bytes) : bytes :=
  take (Z.to_nat a) buf ++ bs ++ drop (Z.to_nat (a + zlen bs)) buf.

(** The records a frame can carry: the two length fields and the payload length
    are 32 bits wide. *)
Definition record_fits (r : record) : Prop :=
  is_u64 (lsn r) ∧ 17 + zlen (key r) + zlen (value r) < 2 ^ 32.

(** * Highest LSNs *)

Lemma max_lsn_of_nonneg rs : 0 ≤ max_lsn_of rs.
Proof. induction rs; simpl; lia. Qed.
Lemma max_lsn_of_app rs1 rs2 :
  max_lsn_of (rs1 ++ rs2) = max_lsn_of rs1 `max` max_lsn_of rs2.
Proof.
  induction rs1 as [|r rs1 IH]; simpl; [pose proof (max_lsn_of_nonneg rs2); lia |].
  rewrite IH. lia.
Qed.
Lemma max_lsn_of_elem r rs : r ∈ rs → lsn r ≤ max_lsn_of rs.
Proof. induction 1; simpl; lia. Qed.
Lemma max_lsn_of_le rs n : 0 ≤ n → (∀ r, r ∈ rs → lsn r ≤ n) → max_lsn_of rs ≤ n.
Proof.
  intros Hn. induction rs as [|r rs IH]; simpl; intros H; [done |].
  apply Z.max_lub; [apply H; left | apply IH; intros; apply H; by right].
Qed.
Lemma max_lsn_of_perm rs rs' : rs ≡ₚ rs' → max_lsn_of rs = max_lsn_of rs'.
Proof. induction 1; simpl; lia. Qed.
#[export] Hint Resolve max_lsn_of_nonneg : hg.

(** * Framing *)

Section frame.
Context (crc32_hash : bytes → Z).

Definition encode (r : record) (out : bytes) : bytes :=
  let payload_start := zlen out + FRAME_HEADER_LEN in
  let out := out ++ replicate (Z.to_nat FRAME_HEADER_LEN) Byte.x00 in
  let out := out ++ le_bytes 8 (lsn r) in
  let out := out ++ [byte_of (op_code (op r))] in
  let out := out ++ le_bytes 4 (as_u32 (zlen (key r))) in
  let out := out ++ key r in
  let out := out ++ le_bytes 4 (as_u32 (zlen (value r))) in
  let out := out ++ value r in
  let payload_len := zlen out - payload_start in
  let crc := crc32_hash (slice out payload_start (zlen out)) in
  let out := write_at out (payload_start - FRAME_HEADER_LEN) (le_bytes 4 crc) in
  write_at out (payload_start - 4) (le_bytes 4 (as_u32 payload_len)).

Definition decode (buf : bytes) (segment : string) (offset : Z) :
    result (option (record * Z)) :=
  if zlen buf <? FRAME_HEADER_LEN then Ok None else
  let crc := from_le (slice buf 0 4) in
  let len := from_le (slice buf 4 8) in
  let end_ := FRAME_HEADER_LEN + len in
  if zlen buf <? end_ then Ok None else
  let payload := slice buf FRAME_HEADER_LEN end_ in
  if negb (crc32_hash payload =? crc) then Ok None else
  let corrupt reason := Err (CorruptWal segment offset reason) in
  if zlen payload <? 13 then corrupt "payload shorter than fixed header"%string else
  let lsn := from_le (slice payload 0 8) in
  match from_u8 (default Byte.x00 (payload !! 8%nat)) with
  | None => corrupt "unknown op"%string
  | Some op =>
    let key_len := from_le (slice payload 9 13) in
    let key_end := 13 + key_len in
    if zlen payload <? key_end + 4 then corrupt "key length overruns payload"%string else
    let key := slice payload 13 key_end in
    let val_len := from_le (slice payload key_end (key_end + 4)) in
    let val_end := key_end + 4 + val_len in
    if zlen payload <? val_end then corrupt "value length overruns payload"%string else
    let value := slice payload (key_end + 4) val_end in
    Ok (Some ({| key := key; lsn := lsn; op := op; value := value |}, end_))
  end.

(** * The shape of a frame *)

Definition payload_of (r : record) : bytes :=
  le_bytes 8 (lsn r) ++ [byte_of (op_code (op r))] ++
  le_bytes 4 (as_u32 (zlen (key r))) ++ key r ++
  le_bytes 4 (as_u32 (zlen (value r))) ++ value r.

Definition frame_of (r : record) : bytes :=
  le_bytes 4 (crc32_hash (payload_of r)) ++
  le_bytes 4 (as_u32 (zlen (payload_of r))) ++ payload_of r.

Definition frames (rs : list record) : bytes := rs ≫= frame_of.

Lemma from_u8_op o : from_u8 (byte_of (op_code o)) = Some o.
Proof. by destruct o. Qed.

Lemma zlen_payload r : zlen (payload_of r) = 17 + zlen (key r) + zlen (value r).
Proof. unfold payload_of. lens. Qed.

Lemma zlen_frame r : zlen (frame_of r) = 25 + zlen (key r) + zlen (value r).
Proof. unfold frame_of. autorewrite with hg_len. rewrite zlen_payload. lia. Qed.

Lemma write_at_mid (a b c bs : bytes) n :
  n = zlen a → zlen b = zlen bs → write_at (a ++ b ++ c) n bs = a ++ bs ++ c.
Proof.
  intros -> Hb. unfold write_at, zlen in *. rewrite Nat2Z.id.
  rewrite take_app_length. do 2 f_equal.
  rewrite app_assoc, drop_app_ge by (rewrite length_app; lia).
  rewrite length_app. replace (_ - _)%nat with 0%nat by lia. done.
Qed.

Lemma encode_frame r out : encode r out = out ++ frame_of r.
Proof.
  unfold encode.
  set (z4 := replicate 4 Byte.x00). assert (zlen z4 = 4) as Hz by done.
  lazymatch goal with |- context [slice ?o _ _] =>
    assert (o = out ++ z4 ++ z4 ++ payload_of r) as ->
      by (unfold payload_of; rewrite <- !app_assoc; done)
  end.
  assert (slice (out ++ z4 ++ z4 ++ payload_of r) (zlen out + FRAME_HEADER_LEN)
    (zlen (out ++ z4 ++ z4 ++ payload_of r)) = payload_of r) as ->.
  { rewrite (app_assoc z4), app_assoc. apply slice_end; unfold FRAME_HEADER_LEN; lens. }
  unfold frame_of, FRAME_HEADER_LEN.
  rewrite (write_at_mid out z4) by lens.
  rewrite !app_assoc, <- (app_assoc _ z4). rewrite write_at_mid by lens.
  rewrite <- !app_assoc. do 5 f_equal. lens.
Qed.

Lemma op_of_u8 b o : from_u8 b = Some o → byte_of (op_code o) = b.
Proof.
  intros H. apply byte_val_inj. rewrite byte_val_of. revert H. unfold from_u8.
  destruct (byte_val b) as [|[]|]; intros [= <-]; done.
Qed.

Lemma encode_app r out : encode r out = out ++ encode r [].
Proof. by rewrite !encode_frame. Qed.

(** * Decoding a frame *)

Lemma payload_fields r :
  record_fits r →
  let p := payload_of r in
  let key_end := 13 + zlen (key r) in
  from_le (slice p 0 8) = lsn r ∧
  from_u8 (default Byte.x00 (p !! 8%nat)) = Some (op r) ∧
  from_le (slice p 9 13) = zlen (key r) ∧
  slice p 13 key_end = key r ∧
  from_le (slice p key_end (key_end + 4)) = zlen (value r) ∧
  slice p (key_end + 4) (key_end + 4 + zlen (value r)) = value r.
Proof.
  intros [Hl Hs]. pose proof (zlen_nonneg (key r)). pose proof (zlen_nonneg (value r)).
  intros p key_end. subst p key_end. unfold payload_of, is_u64 in *.
  assert (as_u32 (zlen (key r)) = zlen (key r)) as -> by (apply Z.mod_small; lia).
  assert (as_u32 (zlen (value r)) = zlen (value r)) as -> by (apply Z.mod_small; lia).
  set (l8 := le_bytes 8 (lsn r)). set (o := [byte_of (op_code (op r))]).
  set (k4 := le_bytes 4 (zlen (key r))). set (v4 := le_bytes 4 (zlen (value r))).
  assert (zlen l8 = 8) by apply zlen_le_bytes. assert (zlen o = 1) by done.
  assert (zlen k4 = 4) by apply zlen_le_bytes. assert (zlen v4 = 4) by apply zlen_le_bytes.
  split_and!.
  - rewrite slice_app_l by lia. by apply from_le_small.
  - rewrite lookup_app_r by (unfold l8; rewrite length_le_bytes; lia).
    unfold l8. rewrite length_le_bytes. apply from_u8_op.
  - rewrite (app_assoc l8). rewrite slice_mid by lens. apply from_le_small. lia.
  - rewrite (app_assoc l8), (app_assoc (l8 ++ o)). apply slice_mid; lens.
  - rewrite (app_assoc l8), (app_assoc (l8 ++ o)), (app_assoc ((l8 ++ o) ++ k4)).
    rewrite slice_mid by lens. apply from_le_small. lia.
  - rewrite (app_assoc l8), (app_assoc (l8 ++ o)), (app_assoc ((l8 ++ o) ++ k4)),
      (app_assoc (((l8 ++ o) ++ k4) ++ key r)).
    apply slice_end; lens.
Qed.

Section crc_u32.
Context (crc_u32 : ∀ l, is_u32 (crc32_hash l)).

Lemma frame_header r rest :
  record_fits r →
  let buf := frame_of r ++ rest in
  from_le (slice buf 0 4) = crc32_hash (payload_of r) ∧
  from_le (slice buf 4 8) = zlen (payload_of r) ∧
  slice buf FRAME_HEADER_LEN (FRAME_HEADER_LEN + zlen (payload_of r)) = payload_of r.
Proof.
  intros [_ Hs] buf. subst buf. unfold frame_of, FRAME_HEADER_LEN.
  pose proof (zlen_payload r) as Hp. pose proof (zlen_nonneg (payload_of r)).
  assert (as_u32 (zlen (payload_of r)) = zlen (payload_of r)) as ->
    by (apply Z.mod_small; lia).
  rewrite <- !app_assoc. split_and!.
  - rewrite slice_app_l by lens. apply from_le_small, crc_u32.
  - rewrite slice_mid by lens. apply from_le_small. lia.
  - rewrite (app_assoc (le_bytes 4 _)). apply slice_mid; lens.
Qed.

Lemma decode_frame r rest segment offset :
  record_fits r →
  decode (frame_of r ++ rest) segment offset = Ok (Some (r, zlen (frame_of r))).
Proof.
  intros Hf. destruct (frame_header r rest Hf) as (Hc & Hl & Hp).
  destruct (payload_fields r Hf) as (F1 & F2 & F3 & F4 & F5 & F6).
  pose proof (zlen_frame r). pose proof (zlen_payload r).
  pose proof (zlen_nonneg (key r)). pose proof (zlen_nonneg (value r)).
  pose proof (zlen_nonneg rest).
  unfold decode. rewrite Hc, Hl, Hp, Z.eqb_refl, F1, F2, F3, F4, F5, F6. simpl negb.
  rewrite !(proj2 (Z.ltb_ge _ _)) by (unfold FRAME_HEADER_LEN; lens).
  do 4 f_equal; [by destruct r | unfold FRAME_HEADER_LEN; lia].
Qed.

(** Cut a frame anywhere: [decode] asks for more bytes. *)
Lemma decode_frame_cut r n segment offset :
  record_fits r → Z.of_nat n < zlen (frame_of r) →
  decode (take n (frame_of r)) segment offset = Ok None.
Proof.
  intros Hf Hn. destruct (frame_header r [] Hf) as (_ & Hl & _).
  rewrite app_nil_r in Hl. pose proof (zlen_frame r). pose proof (zlen_payload r).
  unfold decode, FRAME_HEADER_LEN. rewrite zlen_take.
  destruct (_ <? 8) eqn:E8; [done |]. zbool.
  assert (slice (take n (frame_of r)) 4 8 = slice (frame_of r) 4 8) as ->.
  { rewrite <- (take_drop n (frame_of r)) at 2. symmetry. apply slice_prefix; lens. }
  rewrite Hl. rewrite (proj2 (Z.ltb_lt _ _)) by lia. done.
Qed.
End crc_u32.

(** What an accepted frame says about the buffer. *)
Lemma decode_some buf segment offset r n :
  decode buf segment offset = Ok (Some (r, n)) →
  let len := from_le (slice buf 4 8) in
  let payload := slice buf 8 n in
  n = 8 + len ∧ 25 ≤ n ≤ zlen buf ∧ record_fits r ∧
  crc32_hash payload = from_le (slice buf 0 4) ∧
  17 + zlen (key r) + zlen (value r) ≤ zlen payload.
Proof.
  unfold decode, FRAME_HEADER_LEN.
  repeat (case_match; try done). intros [= <- <-]. zbool.
  rewrite negb_false_iff in *. zbool.
  set (len := from_le (slice buf 4 8)) in *. set (payload := slice buf 8 (8 + len)) in *.
  pose proof (from_le_range (slice payload 0 8)) as R0.
  pose proof (from_le_range (slice payload 9 13)) as R1.
  set (kl := from_le (slice payload 9 13)) in *.
  pose proof (from_le_range (slice payload (13 + kl) (13 + kl + 4))) as R2.
  set (vl := from_le (slice payload (13 + kl) (13 + kl + 4))) in *.
  pose proof (from_le_range (slice buf 4 8)) as R3. fold len in R3.
  assert (zlen payload = len) as HL by (unfold payload; rewrite zlen_slice; lia).
  rewrite zlen_slice in R0, R1, R2, R3 by lia.
  change (2 ^ (8 * (13 - 9))) with (2 ^ 32) in R1.
  simpl key. simpl value.
  assert (zlen (slice payload 13 (13 + kl)) = kl) as -> by (rewrite zlen_slice; lia).
  assert (zlen (slice payload (13 + kl + 4) (13 + kl + 4 + vl)) = vl) as ->
    by (rewrite zlen_slice; lia).
  split_and!; try lia; try done.
  split; simpl; [exact R0 |]. rewrite !zlen_slice by lia.
  change (8 * (8 - 4)) with 32 in R3. lia.
Qed.

Lemma decode_some_pos buf segment offset r n :
  decode buf segment offset = Ok (Some (r, n)) → 25 ≤ n ≤ zlen buf.
Proof. intros H. by apply decode_some in H as (_ & ? & _). Qed.

(** An accepted frame whose payload is exactly filled is the frame [encode] writes. *)
Lemma decode_canonical buf segment offset r n :
  decode buf segment offset = Ok (Some (r, n)) →
  n = 25 + zlen (key r) + zlen (value r) →
  slice buf 0 n = frame_of r.
Proof.
  intros Hd Hn. pose proof (decode_some _ _ _ _ _ Hd) as (Hlen & Hle & [Hl Hs] & Hc & Hp).
  revert Hd. unfold decode, FRAME_HEADER_LEN. rewrite <- Hlen.
  repeat (case_match; try done). intros [= Hr]. zbool.
  pose proof (zlen_nonneg (key r)). pose proof (zlen_nonneg (value r)).
  set (p := slice buf 8 n) in *.
  assert (zlen p = n - 8) as Hzp by (apply zlen_slice; lia).
  set (kl := from_le (slice p 9 13)) in *.
  pose proof (from_le_range (slice p 9 13)) as R1. fold kl in R1.
  set (vl := from_le (slice p (13 + kl) (13 + kl + 4))) in *.
  pose proof (from_le_range (slice p (13 + kl) (13 + kl + 4))) as R2. fold vl in R2.
  assert (zlen (key r) = kl) as Hk 
    by (rewrite <- Hr; cbn [key]; rewrite zlen_slice; lia).
  assert (zlen (value r) = vl) as Hv
    by (rewrite <- Hr; cbn [value]; rewrite zlen_slice; lia).
  assert (payload_of r = p) as Hpay.
  { unfold payload_of, as_u32. rewrite Hk, Hv, !Z.mod_small by lia.
    rewrite <- Hr. cbn [key lsn op value].
    rewrite (op_of_u8 (default Byte.x00 (p !! 8%nat))) by done.
    change 8%nat with (Z.to_nat 8). rewrite <- (slice_one p 8) by lia.
    change (8 + 1) with 9.
    unfold kl at 1. unfold vl at 1. rewrite !le_bytes_slice, <- !slice_split by lia.
    apply slice_full. lia. }
  unfold frame_of. rewrite Hpay, Hzp, Hc. unfold as_u32.
  replace (n - 8) with (from_le (slice buf 4 8)) by lia.
  rewrite Z.mod_small by lia.
  rewrite !le_bytes_slice by lia. unfold p. by rewrite <- !slice_split by lia.
Qed.
End frame.

#[global] Arguments encode : simpl never.
#[global] Arguments decode : simpl never.
#[global] Arguments frame_of : simpl never.
#[global] Arguments payload_of : simpl never.
#[global] Arguments frames : simpl never.

(** * Properties *)

Section properties.
Context (crc32_hash : bytes → Z).

(** C32: a record survives [encode] and [decode]: the frame appended to any log
    tail, followed by any further bytes, is read back as the same record, and the
    length reported is exactly the length of the frame. *)
Theorem encode_decode (crc_u32 : ∀ l, is_u32 (crc32_hash l)) r out rest segment offset :
  record_fits r →
  decode crc32_hash (drop (length out) (encode crc32_hash r out ++ rest)) segment offset =
    Ok (Some (r, zlen (encode crc32_hash r out) - zlen out)).
Proof.
  intros Hf. rewrite encode_frame, <- app_assoc, drop_app_length.
  rewrite decode_frame by done. do 4 f_equal. lens.
Qed.

(** A frame cut anywhere short of its end is a torn tail, [Ok(None)], never an
    error and never a record. *)
Theorem decode_torn_tail (crc_u32 : ∀ l, is_u32 (crc32_hash l)) r n segment offset :
  record_fits r → Z.of_nat n < zlen (encode crc32_hash r []) →
  decode crc32_hash (take n (encode crc32_hash r [])) segment offset = Ok None.
Proof. rewrite encode_frame. apply decode_frame_cut, crc_u32. Qed.

(** What the bytes of a buffer say about the frame at its start. *)
Definition frame_complete (buf : bytes) : Prop :=
  8 ≤ zlen buf ∧ 8 + from_le (slice buf 4 8) ≤ zlen buf.
Definition frame_intact (buf : bytes) : Prop :=
  crc32_hash (slice buf 8 (8 + from_le (slice buf 4 8))) = from_le (slice buf 0 4).

(** C33: [decode] on any bytes. It asks for more exactly when the frame is
    incomplete or its checksum is wrong; it reports corruption, at the segment and
    offset it was given, only for a complete frame with the right checksum; a
    record it returns is one the format can carry and lies inside the buffer. *)
Theorem decode_outcomes buf segment offset :
  match decode crc32_hash buf segment offset with
  | Ok None => ¬ (frame_complete buf ∧ frame_intact buf)
  | Ok (Some (r, n)) =>
    frame_complete buf ∧ frame_intact buf ∧ record_fits r ∧
    n = 8 + from_le (slice buf 4 8) ∧ 25 + zlen (key r) + zlen (value r) ≤ n ≤ zlen buf
  | Err e =>
    frame_complete buf ∧ frame_intact buf ∧ ∃ reason, e = CorruptWal segment offset reason
  end.
Proof.
  unfold frame_complete, frame_intact.
  destruct (decode crc32_hash buf segment offset) as [[[r n]|]|e] eqn:E.
  - apply decode_some in E as (-> & Hn & Hfit & Hc & Hl). rewrite zlen_slice in Hl by lia.
    split_and!; (done || lia).
  - revert E. unfold decode, FRAME_HEADER_LEN. repeat (case_match; try done); zbool; lia.
  - revert E. unfold decode, FRAME_HEADER_LEN.
    repeat (case_match; try done); intros [= <-]; zbool; rewrite negb_false_iff in *; zbool;
      (split; [lia |]; split; [done | by eexists]).
Qed.

(** The format is canonical: a frame that [decode] accepts and whose fields
    fill its payload is, byte for byte, what [encode] writes for the record. *)
Theorem decode_encode buf segment offset r n :
  decode crc32_hash buf segment offset = Ok (Some (r, n)) →
  n = 25 + zlen (key r) + zlen (value r) →
  encode crc32_hash r [] = slice buf 0 n.
Proof. intros Hd Hn. rewrite encode_frame. symmetry. by eapply decode_canonical. Qed.
End properties.

(** * Examples *)

Definition sample : record := put [Byte.x6b; Byte.x31] 7 [Byte.x76].

Lemma sample_fits : record_fits sample.
Proof. unfold record_fits, is_u64. by vm_compute. Qed.

Lemma encode_decode_witness :
  record_fits sample ∧
  decode crc32_ieee (drop 1 (encode crc32_ieee sample [Byte.xff] ++ [Byte.x00])) empty_str 1 =
    Ok (Some (sample, zlen (encode crc32_ieee sample [Byte.xff]) - zlen [Byte.xff])).
Proof.
  split; [exact sample_fits |].
  exact (encode_decode crc32_ieee crc32_ieee_u32 sample [Byte.xff] [Byte.x00] empty_str 1
    sample_fits).
Defined.

Lemma decode_torn_tail_witness :
  decode crc32_ieee (take 20 (encode crc32_ieee sample [])) empty_str 0 = Ok None.
Proof.
  apply (decode_torn_tail crc32_ieee crc32_ieee_u32 sample 20 empty_str 0 sample_fits).
  vm_compute. reflexivity.
Defined.

Lemma decode_encode_witness :
  encode crc32_ieee sample [] =
    slice (encode crc32_ieee sample [Byte.x05] ) 1 29 ∧
  encode crc32_ieee sample [] = slice (encode crc32_ieee sample []) 0 28.
Proof.
  split; [vm_compute; reflexivity |].
  apply (decode_encode crc32_ieee (encode crc32_ieee sample []) empty_str 0 sample 28);
    vm_compute; reflexivity.
Defined.
