(* ===== verification/Wal.v ===== *)
(** [src/src/wal.rs]: the segmented write-ahead log.

    A [wal] is the struct without the directory, which is the file system state
    [fs]; its methods run on the pair of both, with every [?] of the source a
    monadic bind, so an I/O error leaves the struct and the disk as they are at
    that point. [read_dir] enumerates a directory in an order the platform does
    not promise: it is a parameter. *)

From S2P Require Import Prelude RecordModel Fs.

Definition SEGMENT_SUFFIX : string := ".wal".

(** * State *)

Record Segment : Type := mk_segment {
  seg_path : string;
  seg_start_lsn : Lsn;
  seg_max_lsn : Lsn;
}.

Record wal : Type := mk_wal {
  wal_segment_max_bytes : Z;
  wal_writer : bufwriter;
  wal_active : Segment;
  wal_active_bytes : Z;
  wal_sealed : list Segment;
  wal_scratch : bytes;
}.

Record Replay : Type := mk_replay {
  replay_records : list record;
  replay_max_lsn : Lsn;
}.

#[export] Instance Segment_eq_dec : EqDecision Segment.
Proof. solve_decision. Defined.

Definition set_seg_max (m : Lsn) (s : Segment) : Segment :=
  mk_segment (seg_path s) (seg_start_lsn s) m.
Definition set_writer (x : bufwriter) (w : wal) : wal :=
  mk_wal (wal_segment_max_bytes w) x (wal_active w) (wal_active_bytes w)
    (wal_sealed w) (wal_scratch w).
Definition set_active (x : Segment) (w : wal) : wal :=
  mk_wal (wal_segment_max_bytes w) (wal_writer w) x (wal_active_bytes w)
    (wal_sealed w) (wal_scratch w).
Definition set_active_bytes (x : Z) (w : wal) : wal :=
  mk_wal (wal_segment_max_bytes w) (wal_writer w) (wal_active w) x
    (wal_sealed w) (wal_scratch w).
Definition set_sealed (x : list Segment) (w : wal) : wal :=
  mk_wal (wal_segment_max_bytes w) (wal_writer w) (wal_active w) (wal_active_bytes w)
    x (wal_scratch w).
Definition set_scratch (x : bytes) (w : wal) : wal :=
  mk_wal (wal_segment_max_bytes w) (wal_writer w) (wal_active w) (wal_active_bytes w)
    (wal_sealed w) x.

Definition segment_name (start_lsn : Lsn) : string := fmt_020 start_lsn +:+ SEGMENT_SUFFIX.

(** The start LSN a directory entry's name stands for, if it is a segment. *)
Definition segment_start (name : string) : option Lsn :=
  strip_suffix SEGMENT_SUFFIX name ≫= parse_u64.

Section wal.
Context (crc32_hash : bytes → Z).
Context (read_dir : gmap string file → list string).

Definition list_segments : M fs (list Segment) :=
  _ ← dir_call;
  s ← m_get;
  let segs := omap (λ name,
    (λ start_lsn, mk_segment name start_lsn 0) <$> segment_start name)
    (read_dir (fs_files s)) in
  mret (sort_by (λ a b, seg_start_lsn a <=? seg_start_lsn b) segs).

(** The loop of [replay_segment]. Each frame is at least one byte long, so the
    length of the file bounds the number of turns. *)
Fixpoint replay_loop (fuel : nat) (buf : bytes) (name : string)
    (records : list record) (max_lsn : Lsn) (off : Z) : result (list record * Lsn * Z) :=
  match fuel with
  | O => Ok (records, max_lsn, off)
  | S fuel =>
    match decode crc32_hash (drop (Z.to_nat off) buf) name off with
    | Err e => Err e
    | Ok None => Ok (records, max_lsn, off)
    | Ok (Some (rec, n)) =>
      replay_loop fuel buf name (records ++ [rec]) (max_lsn `max` lsn rec) (off + n)
    end
  end.

Definition replay_segment (path : string) : M fs (list record * Lsn * Z) :=
  _ ← open_existing path;
  buf ← read_to_end path;
  m_lift (replay_loop (S (length buf)) buf path [] 0 0).

(** One turn of the loop of [open]. *)
Definition open_segment (from_lsn : Lsn) (seg : Segment) :
    M fs (Segment * list record * Lsn) :=
  '(recs, seg_max, good_bytes) ← replay_segment (seg_path seg);
  len ← metadata_len (seg_path seg);
  _ ← (if good_bytes <? len then
         _ ← open_existing (seg_path seg);
         _ ← set_len (seg_path seg) good_bytes;
         sync (seg_path seg)
       else mret tt);
  mret (set_seg_max seg_max seg, base.filter (λ r, from_lsn < lsn r) recs, seg_max).

Fixpoint open_segments (from_lsn : Lsn) (todo : list Segment)
    (segments : list Segment) (records : list record) (max_lsn : Lsn) :
    M fs (list Segment * list record * Lsn) :=
  match todo with
  | [] => mret (segments, records, max_lsn)
  | seg :: todo =>
    '(seg', recs, seg_max) ← open_segment from_lsn seg;
    open_segments from_lsn todo (segments ++ [seg']) (records ++ recs) (max_lsn `max` seg_max)
  end.

Definition open (segment_max_bytes : Z) (from_lsn : Lsn) : M fs (wal * Replay) :=
  _ ← dir_call;
  segments ← list_segments;
  '(segments, records, max_lsn) ← open_segments from_lsn segments [] [] 0;
  '(active, active_bytes, sealed) ←
    match last segments with
    | Some l =>
      bytes ← metadata_len (seg_path l);
      mret (l, bytes, removelast segments)
    | None => mret (mk_segment (segment_name 0) 0 0, 0, [])
    end;
  _ ← open_append (seg_path active);
  mret ({| wal_segment_max_bytes := segment_max_bytes;
           wal_writer := mk_bufwriter (seg_path active) [];
           wal_active := active;
           wal_active_bytes := active_bytes;
           wal_sealed := sealed;
           wal_scratch := [] |},
        mk_replay records max_lsn).

(** * Methods on [&mut self] *)

Definition on_fs {A} (m : M fs A) : M (wal * fs) A := m_zoom snd (λ s st, (fst st, s)) m.
Definition on_writer {A} (m : M (bufwriter * fs) A) : M (wal * fs) A :=
  m_zoom (λ '(w, s), (wal_writer w, s)) (λ '(x, s) '(w, _), (set_writer x w, s)) m.
Definition upd (f : wal → wal) : M (wal * fs) unit := m_modify (λ '(w, s), (f w, s)).
Definition self : M (wal * fs) wal := '(w, _) ← m_get; mret w.

Definition rotate (next_lsn : Lsn) : M (wal * fs) unit :=
  _ ← on_writer bw_flush;
  w ← self;
  _ ← on_fs (sync (bw_file (wal_writer w)));
  let path := segment_name next_lsn in
  _ ← on_fs (open_append path);
  _ ← upd (set_active (mk_segment path next_lsn 0));
  _ ← upd (set_sealed (wal_sealed w ++ [wal_active w]));
  _ ← upd (set_writer (mk_bufwriter path []));
  upd (set_active_bytes 0).

Definition append (records : list record) : M (wal * fs) unit :=
  match records with
  | [] => mret tt
  | r0 :: _ =>
    w ← self;
    _ ← (if wal_segment_max_bytes w <=? wal_active_bytes w
         then rotate (lsn r0) else mret tt);
    _ ← upd (set_scratch []);
    _ ← m_iter (λ r, upd (λ w, set_scratch (encode crc32_hash r (wal_scratch w)) w)) records;
    w ← self;
    _ ← on_writer (bw_write_all (wal_scratch w));
    _ ← on_writer bw_flush;
    _ ← on_fs (sync (bw_file (wal_writer w)));
    w ← self;
    _ ← upd (set_active_bytes (wal_active_bytes w + zlen (wal_scratch w)));
    upd (λ w, set_active
      (set_seg_max (seg_max_lsn (wal_active w) `max` max_lsn_of records) (wal_active w)) w)
  end.

Definition covered_by (watermark : Lsn) (s : Segment) : bool :=
  (seg_max_lsn s <=? watermark) && (0 <? seg_max_lsn s).

Definition truncate_through (watermark : Lsn) : M (wal * fs) unit :=
  w ← self;
  let covered := base.filter (λ s, covered_by watermark s = true) (wal_sealed w) in
  let keep := base.filter (λ s, covered_by watermark s = false) (wal_sealed w) in
  _ ← upd (set_sealed keep);
  m_iter (λ seg, on_fs (remove_file (seg_path seg))) covered.

Fixpoint size_loop (segs : list Segment) (total : Z) : M fs Z :=
  match segs with
  | [] => mret total
  | seg :: segs => n ← metadata_len (seg_path seg); size_loop segs (total + n)
  end.
Definition size_bytes (w : wal) : M fs Z := size_loop (wal_sealed w) (wal_active_bytes w).

End wal.
