(* ===== verification/WalLemmas.v ===== *)
(** The invariant of the log, and the lemmas the theorems on [Wal.v] rest on:
    scanning a segment, listing segments, opening, appending, truncating. *)

From S2P Require Import Prelude RecordModel Fs Wal.

(** * Segment names *)

Lemma segment_start_name s : is_u64 s → segment_start (segment_name s) = Some s.
Proof.
  intros. unfold segment_start, segment_name. rewrite strip_suffix_app. simpl.
  by apply parse_fmt_020.
Qed.

Lemma segment_name_inj s1 s2 :
  is_u64 s1 → is_u64 s2 → segment_name s1 = segment_name s2 → s1 = s2.
Proof.
  intros H1 H2 E. apply (f_equal segment_start) in E.
  rewrite !segment_start_name in E by done. congruence.
Qed.

Section scan.
Context (crc32_hash : bytes → Z).
Context (crc_u32 : ∀ l, is_u32 (crc32_hash l)).

Abbreviation decode := (decode crc32_hash).
Abbreviation frames := (frames crc32_hash).
Abbreviation frame_of := (frame_of crc32_hash).
Abbreviation replay_loop := (replay_loop crc32_hash).

(** Bytes on which [decode] asks for more: what a torn write leaves. *)
Definition torn (t : bytes) : Prop := ∀ segment offset, decode t segment offset = Ok None.

Lemma torn_nil : torn [].
Proof. done. Qed.

Lemma frames_app rs1 rs2 : frames (rs1 ++ rs2) = frames rs1 ++ frames rs2.
Proof. apply bind_app. Qed.

Lemma frames_cons r rs : frames (r :: rs) = frame_of r ++ frames rs.
Proof. done. Qed.

Lemma frame_pos r : (0 < length (frame_of r))%nat.
Proof.
  pose proof (zlen_frame crc32_hash r) as H. pose proof (zlen_nonneg (key r)).
  pose proof (zlen_nonneg (value r)). unfold zlen in H at 1. lia.
Qed.

Lemma length_frames rs : (length rs ≤ length (frames rs))%nat.
Proof.
  induction rs as [|r rs IH]; [done |]. rewrite frames_cons, length_app. simpl.
  pose proof (frame_pos r). lia.
Qed.

(** A prefix of a log is the frames of a prefix of its records and a torn rest. *)
Lemma take_frames n rs :
  Forall record_fits rs →
  ∃ j t, take n (frames rs) = frames (take j rs) ++ t ∧ torn t ∧
    ((length (frames rs) ≤ n)%nat → take j rs = rs ∧ t = []).
Proof.
  revert n. induction rs as [|r rs IH]; intros n Hf.
  { exists 0%nat, []. split_and!; [by destruct n | apply torn_nil | done]. }
  apply Forall_cons in Hf as [Hr Hf]. rewrite frames_cons.
  destruct (decide (length (frame_of r) ≤ n)%nat) as [Hn|Hn].
  - destruct (IH (n - length (frame_of r))%nat Hf) as (j & t & E & Ht & Hall).
    exists (S j), t. rewrite take_app_ge by done. rewrite E. simpl take.
    rewrite frames_cons, app_assoc. split_and!; [done.. |].
    rewrite length_app. intros. destruct Hall as [-> ->]; [lia | done].
  - exists 0%nat, (take n (frame_of r)). rewrite take_app_le by lia. split_and!; [done | |].
    + intros ??. apply decode_frame_cut; [done.. |]. unfold zlen. lia.
    + rewrite length_app. pose proof (frame_pos r). lia.
Qed.

(** Scanning a log: every record, in order, and the end of the last good frame. *)
Lemma replay_loop_frames fuel pre rs t name acc m :
  Forall record_fits rs → torn t → (length rs < fuel)%nat → 0 ≤ m →
  replay_loop fuel (pre ++ frames rs ++ t) name acc m (zlen pre) =
    Ok (acc ++ rs, m `max` max_lsn_of rs, zlen (pre ++ frames rs)).
Proof.
  intros Hf Ht. revert fuel pre acc m.
  induction rs as [|r rs IH]; intros [|fuel] pre acc m Hfuel Hm; simpl in Hfuel; try lia.
  - simpl. unfold zlen at 1. rewrite Nat2Z.id, drop_app_length, Ht, !app_nil_r.
    do 3 f_equal. lia.
  - apply Forall_cons in Hf as [Hr Hf]. cbn [Wal.replay_loop].
    unfold zlen at 1. rewrite Nat2Z.id, drop_app_length, frames_cons, <- app_assoc.
    rewrite decode_frame by done. rewrite app_assoc.
    replace (zlen pre + zlen (frame_of r)) with (zlen (pre ++ frame_of r)) by lens.
    rewrite (IH Hf fuel (pre ++ frame_of r) (acc ++ [r]) (m `max` lsn r)) by lia.
    rewrite <- !app_assoc. simpl. do 3 f_equal. lia.
Qed.

Lemma replay_frames rs t name :
  Forall record_fits rs → torn t →
  replay_loop (S (length (frames rs ++ t))) (frames rs ++ t) name [] 0 0 =
    Ok (rs, max_lsn_of rs, zlen (frames rs)).
Proof.
  intros Hf Ht. pose proof (length_frames rs).
  pose proof (replay_loop_frames (S (length (frames rs ++ t))) [] rs t name [] 0 Hf Ht) as E.
  rewrite !app_nil_l in E. change (zlen (@nil byte)) with 0 in E.
  rewrite E by (rewrite ?length_app; lia).
  do 3 f_equal. pose proof (max_lsn_of_nonneg rs). lia.
Qed.

(** The loop stops because [decode] stops, never because the fuel ran out. *)
Lemma replay_loop_complete fuel buf name acc m off recs m' off' :
  0 ≤ off → zlen buf < off + Z.of_nat fuel →
  replay_loop fuel buf name acc m off = Ok (recs, m', off') →
  off ≤ off' ∧ decode (drop (Z.to_nat off') buf) name off' = Ok None.
Proof.
  revert acc m off. induction fuel as [|fuel IH]; intros acc m off Ho Hf; simpl.
  - intros [= <- <- <-]. split; [lia |].
    rewrite drop_ge by (unfold zlen in Hf; lia). done.
  - destruct (decode (drop (Z.to_nat off) buf) name off) as [[[r n]|]|] eqn:E;
      [| intros [= <- <- <-]; auto with lia | done].
    intros H. apply decode_some_pos in E. apply IH in H; [naive_solver lia | lia | lia].
Qed.

Lemma replay_loop_err fuel buf name acc m off e :
  replay_loop fuel buf name acc m off = Err e →
  ∃ off', decode (drop (Z.to_nat off') buf) name off' = Err e.
Proof.
  revert acc m off. induction fuel as [|fuel IH]; intros acc m off; simpl; [done |].
  destruct (decode (drop (Z.to_nat off) buf) name off) as [[[r n]|]|] eqn:E; [| done |].
  - apply IH.
  - intros [= ->]. eauto.
Qed.

(** * The log on disk *)

(** The segments of a directory in order: start LSN, records, torn rest. Every
    file with a segment's name is one of them and all its bytes are synced. *)
Record disk_segs (m : gmap string file) (l : list (Lsn * list record * bytes)) : Prop := {
  ds_sorted : StronglySorted Z.lt l.*1.*1;
  ds_file : ∀ s rs t, (s, rs, t) ∈ l →
    is_u64 s ∧ Forall record_fits rs ∧ torn t ∧
    m !! segment_name s = Some (mk_file (frames rs ++ t) []);
  ds_only : ∀ name f s, m !! name = Some f → segment_start name = Some s →
    ∃ rs t, (s, rs, t) ∈ l ∧ name = segment_name s;
}.

Definition clean (logs : list (Lsn * list record)) : list (Lsn * list record * bytes) :=
  (λ '(s, rs), (s, rs, [])) <$> logs.

(** The records of a log, oldest segment first. *)
Definition log_records (logs : list (Lsn * list record)) : list record := concat logs.*2.

Definition seg_of (x : Lsn * list record) : Segment :=
  mk_segment (segment_name x.1) x.1 (max_lsn_of x.2).

(** The invariant of an open log: [logs] lists the sealed segments, oldest
    first, and [(s, rs)] is the active one; nothing is torn, buffered or
    unsynced. The struct knows all sealed segments unless removing one failed:
    such a segment stays on the disk until the next [open]. *)
Record wal_inv (m : gmap string file) (w : wal) (logs : list (Lsn * list record))
    (s : Lsn) (rs : list record) : Prop := {
  wi_disk : disk_segs m (clean (logs ++ [(s, rs)]));
  wi_sealed : ∃ kept, sublist kept logs ∧ wal_sealed w = seg_of <$> kept;
  wi_active : wal_active w = seg_of (s, rs);
  wi_bytes : wal_active_bytes w = zlen (frames rs);
  wi_writer : wal_writer w = mk_bufwriter (segment_name s) [];
}.

Lemma clean_app l k : clean (l ++ k) = clean l ++ clean k.
Proof. apply fmap_app. Qed.
Lemma clean_starts l : (clean l).*1.*1 = l.*1.
Proof. induction l as [|[s rs] l IH]; simpl; [done | by f_equal]. Qed.
Lemma elem_of_clean s rs t l : (s, rs, t) ∈ clean l ↔ t = [] ∧ (s, rs) ∈ l.
Proof.
  unfold clean. rewrite list_elem_of_fmap. split; [intros ([] & [= -> -> ->] & ?); auto |].
  intros [-> ?]. by exists (s, rs).
Qed.
Lemma log_records_app l k : log_records (l ++ k) = log_records l ++ log_records k.
Proof. unfold log_records. by rewrite fmap_app, concat_app. Qed.
Lemma log_records_cons x l : log_records (x :: l) = x.2 ++ log_records l.
Proof. done. Qed.
Lemma log_records_one s rs : log_records [(s, rs)] = rs.
Proof. apply app_nil_r. Qed.

Lemma elem_of_starts (s : Lsn) (rs : list record) (t : bytes) l :
  (s, rs, t) ∈ l → s ∈ l.*1.*1.
Proof.
  intros H. apply (list_elem_of_fmap_2 fst), (list_elem_of_fmap_2 fst) in H. done.
Qed.

Lemma disk_segs_starts_inj m l s rs1 t1 rs2 t2 :
  disk_segs m l → (s, rs1, t1) ∈ l → (s, rs2, t2) ∈ l → rs1 = rs2 ∧ t1 = t2.
Proof.
  intros D. pose proof (ds_sorted _ _ D) as Hs. clear D. intros H1 H2.
  induction l as [|[[s0 rs0] t0] l IH]; [by apply elem_of_nil in H1 |].
  simpl in Hs. apply StronglySorted_inv in Hs as [Hs Hall]. rewrite Forall_forall in Hall.
  assert (∀ rs t, (s, rs, t) ∈ l → s0 < s) as Hlt.
  { intros rs t Hin. by eapply Hall, elem_of_starts. }
  apply elem_of_cons in H1 as [E1|H1]; apply elem_of_cons in H2 as [E2|H2]; simplify_eq.
  - done.
  - apply Hlt in H2. lia.
  - apply Hlt in H1. lia.
  - by apply IH.
Qed.

(** * Listing *)

Lemma NoDup_omap_inj {A B} (f : A → option B) l :
  (∀ x y z, f x = Some z → f y = Some z → x = y) → NoDup l → NoDup (omap f l).
Proof.
  intros Hf. induction 1 as [|x l Hx Hl IH]; simpl; [constructor |].
  destruct (f x) as [z|] eqn:E; [| done]. constructor; [| done].
  rewrite list_elem_of_omap. intros (y & Hy & E'). by rewrite (Hf x y z E E') in Hx.
Qed.

Context (read_dir : gmap string file → list string).
Context (read_dir_perm : ∀ m, read_dir m ≡ₚ (map_to_list m).*1).

Lemma elem_of_read_dir m name : name ∈ read_dir m ↔ is_Some (m !! name).
Proof.
  rewrite read_dir_perm, list_elem_of_fmap. split.
  - intros ([n f] & -> & H). apply elem_of_map_to_list in H. eauto.
  - intros [f H]. exists (name, f). by rewrite elem_of_map_to_list.
Qed.

Definition listed (l : list (Lsn * list record * bytes)) : list Segment :=
  (λ '(s, _, _), mk_segment (segment_name s) s 0) <$> l.

Lemma listed_sorted l :
  StronglySorted Z.lt l.*1.*1 →
  leb_sorted (λ a b, seg_start_lsn a <=? seg_start_lsn b) (listed l).
Proof.
  induction l as [|[[s rs] t] l IH]; simpl; intros Hs; [constructor |].
  apply StronglySorted_inv in Hs as [Hs Hall]. constructor; [by apply IH |].
  rewrite Forall_forall in Hall. apply Forall_forall. intros x Hx.
  apply list_elem_of_fmap in Hx as ([[s' ?] ?] & -> & Hin).
  simpl. apply Z.leb_le, Z.lt_le_incl. by eapply Hall, elem_of_starts.
Qed.

Lemma listed_perm m l :
  disk_segs m l →
  omap (λ name, (λ start_lsn, mk_segment name start_lsn 0) <$> segment_start name)
    (read_dir m) ≡ₚ listed l.
Proof.
  intros D. apply NoDup_Permutation.
  - apply NoDup_omap_inj.
    + intros x y z Hx Hy. apply fmap_Some in Hx as (? & _ & ->).
      by apply fmap_Some in Hy as (? & _ & [= ?]).
    + rewrite read_dir_perm. apply NoDup_fst_map_to_list.
  - pose proof (ds_sorted _ _ D) as Hs. clear D. unfold listed.
    induction l as [|[[s rs] t] l IH]; simpl; [constructor |].
    simpl in Hs. apply StronglySorted_inv in Hs as [Hs Hall]. constructor; [| by apply IH].
    intros Hx. apply list_elem_of_fmap in Hx as ([[s' ?] ?] & E & Hin).
    apply (f_equal seg_start_lsn) in E. simpl in E. subst s'. apply elem_of_starts in Hin. rewrite Forall_forall in Hall. apply Hall in Hin. lia.
  - intros x. unfold listed. rewrite list_elem_of_omap, list_elem_of_fmap. split.
    + intros (name & Hname & Hx). apply elem_of_read_dir in Hname as [f Hf].
      apply fmap_Some in Hx as (s & Hs & ->).
      destruct (ds_only _ _ D _ _ _ Hf Hs) as (rs & t & Hin & ->). by exists (s, rs, t).
    + intros ([[s rs] t] & -> & Hin). destruct (ds_file _ _ D _ _ _ Hin) as (Hu & _ & _ & Hf).
      exists (segment_name s). rewrite elem_of_read_dir, segment_start_name by done. eauto.
Qed.

Lemma list_segments_ok m l :
  disk_segs m l → list_segments read_dir (mk_fs m []) = (Ok (listed l), mk_fs m []).
Proof.
  intros D. unfold list_segments. rewrite (bind_ok _ _ _ _ _ (dir_call_ok m)).
  unfold mbind, m_bind, m_get, mret, m_ret. simpl. do 2 f_equal.
  rewrite <- (sort_by_id _ (listed l) (listed_sorted _ (ds_sorted _ _ D))).
  apply sort_by_unique; [lia.. | |].
  - intros x y Hx Hy Hxy Hyx. rewrite (listed_perm _ _ D) in Hx, Hy. zbool.
    apply list_elem_of_fmap in Hx as ([[s ?] ?] & -> & Hx).
    apply list_elem_of_fmap in Hy as ([[s' ?] ?] & -> & Hy). simpl in *.
    by replace s with s' by lia.
  - by apply listed_perm.
Qed.

(** * Opening *)

Lemma replay_segment_ok m name rs t :
  m !! name = Some (mk_file (frames rs ++ t) []) → Forall record_fits rs → torn t →
  replay_segment crc32_hash name (mk_fs m []) =
    (Ok (rs, max_lsn_of rs, zlen (frames rs)), mk_fs m []).
Proof.
  intros Hf Hr Ht. unfold replay_segment.
  rewrite (bind_ok _ _ _ _ _ (open_existing_ok _ _ _ Hf)).
  rewrite (bind_ok _ _ _ _ _ (read_to_end_ok _ _ _ Hf)).
  unfold contents, m_lift. cbn [f_synced f_pending]. by rewrite app_nil_r, replay_frames.
Qed.

Lemma starts_middle (l1 l2 : list (Lsn * list record * bytes)) s rs rs' t t' :
  (l1 ++ (s, rs, t) :: l2).*1.*1 = (l1 ++ (s, rs', t') :: l2).*1.*1.
Proof. by rewrite !fmap_app. Qed.

Lemma sorted_lt_NoDup (l : list Z) : StronglySorted Z.lt l → NoDup l.
Proof.
  induction 1 as [|x l Hl IH Hall]; constructor; [| done].
  rewrite Forall_forall in Hall. intros Hin. apply Hall in Hin. lia.
Qed.

Lemma starts_other (l1 l2 : list (Lsn * list record * bytes)) s rs t s' rs' t' :
  StronglySorted Z.lt (l1 ++ (s, rs, t) :: l2).*1.*1 →
  (s', rs', t') ∈ l1 ++ l2 → s' ≠ s.
Proof.
  intros Hs Hin ->. apply sorted_lt_NoDup in Hs. rewrite !fmap_app in Hs. simpl in Hs.
  apply NoDup_app in Hs as (_ & H1 & Hs). apply NoDup_cons in Hs as [H2 _].
  apply elem_of_app in Hin as [Hin|Hin]; apply elem_of_starts in Hin; [| done].
  apply (H1 _ Hin). left.
Qed.

Lemma elem_of_middle {A} (x y : A) l1 l2 : x ∈ l1 ++ y :: l2 ↔ x = y ∨ x ∈ l1 ++ l2.
Proof. rewrite !elem_of_app, elem_of_cons. tauto. Qed.

(** Changing the contents of one segment leaves the others alone. *)
Lemma disk_segs_set m l1 l2 s rs t rs' t' :
  disk_segs m (l1 ++ (s, rs, t) :: l2) → Forall record_fits rs' → torn t' →
  disk_segs (<[segment_name s := mk_file (frames rs' ++ t') []]> m) (l1 ++ (s, rs', t') :: l2).
Proof.
  intros D Hr' Ht'. pose proof (ds_sorted _ _ D) as Hs.
  pose proof (ds_file _ _ D s rs t) as (Hu & Hr & Ht & Hf); [apply elem_of_middle; by left |].
  split.
  - by rewrite (starts_middle _ _ _ _ rs _ t).
  - intros s0 rs0 t0 Hin. apply elem_of_middle in Hin as [[= -> -> ->]|Hin].
    + by rewrite lookup_insert_eq.
    + pose proof (starts_other _ _ _ _ _ _ _ _ Hs Hin) as Hne.
      destruct (ds_file _ _ D s0 rs0 t0) as (Hu0 & Hr0 & Ht0 & Hf0);
        [apply elem_of_middle; by right |].
      rewrite lookup_insert_ne by (intros E; by apply segment_name_inj in E). done.
  - intros name f s0 Hname Hstart. destruct (decide (name = segment_name s)) as [->|Hne].
    + rewrite segment_start_name in Hstart by done. injection Hstart as <-.
      exists rs', t'. split; [apply elem_of_middle; by left | done].
    + rewrite lookup_insert_ne in Hname by done.
      destruct (ds_only _ _ D _ _ _ Hname Hstart) as (rs0 & t0 & Hin & ->).
      apply elem_of_middle in Hin as [[= -> -> ->]|Hin]; [done |].
      exists rs0, t0. split; [apply elem_of_middle; by right | done].
Qed.

Lemma disk_segs_cut m l1 l2 s rs t :
  disk_segs m (l1 ++ (s, rs, t) :: l2) →
  disk_segs (<[segment_name s := mk_file (frames rs) []]> m) (l1 ++ (s, rs, []) :: l2).
Proof.
  intros D. destruct (ds_file _ _ D s rs t) as (_ & Hr & _); [apply elem_of_middle; by left |].
  rewrite <- (app_nil_r (frames rs)). eapply disk_segs_set; eauto using torn_nil.
Qed.

Lemma open_segment_ok from_lsn m l1 l2 s rs t :
  disk_segs m (l1 ++ (s, rs, t) :: l2) →
  ∃ m', open_segment crc32_hash from_lsn (mk_segment (segment_name s) s 0) (mk_fs m []) =
      (Ok (seg_of (s, rs), base.filter (λ r, from_lsn < lsn r) rs, max_lsn_of rs), mk_fs m' [])
    ∧ disk_segs m' (l1 ++ (s, rs, []) :: l2).
Proof.
  intros D. pose proof (disk_segs_cut _ _ _ _ _ _ D) as D'.
  pose proof (ds_file _ _ D s rs t) as (Hu & Hr & Ht & Hf); [apply elem_of_middle; by left |].
  unfold open_segment. cbn [seg_path].
  rewrite (bind_ok _ _ _ _ _ (replay_segment_ok _ _ _ _ Hf Hr Ht)).
  rewrite (bind_ok _ _ _ _ _ (metadata_len_ok _ _ _ Hf)).
  unfold contents. cbn [f_synced f_pending]. rewrite app_nil_r, zlen_app.
  destruct (zlen (frames rs) <? _) eqn:E; zbool.
  - eexists. split; [| exact D'].
    erewrite bind_ok; [done |].
    rewrite (bind_ok _ _ _ _ _ (open_existing_ok _ _ _ Hf)).
    rewrite (bind_ok _ _ _ _ _ (set_len_cut_ok _ _ _ _ Hf)).
    eapply sync_clean_ok. apply lookup_insert_eq.
  - assert (t = []) as -> by (apply zlen_zero_inv; lens).
    exists m. split; [done |]. done.
Qed.

Lemma open_segments_ok from_lsn todo : ∀ m l1 segs recs mx,
  disk_segs m (l1 ++ todo) → 0 ≤ mx →
  ∃ m', open_segments crc32_hash from_lsn (listed todo) segs recs mx (mk_fs m []) =
      (Ok (segs ++ (seg_of <$> todo.*1),
           recs ++ base.filter (λ r, from_lsn < lsn r) (log_records todo.*1),
           mx `max` max_lsn_of (log_records todo.*1)), mk_fs m' [])
    ∧ disk_segs m' (l1 ++ clean todo.*1).
Proof.
  induction todo as [|[[s rs] t] todo IH]; intros m l1 segs recs mx D Hmx.
  - exists m. simpl. rewrite !app_nil_r. rewrite app_nil_r in D. split; [| done]. by rewrite Z.max_l by lia.
  - destruct (open_segment_ok from_lsn _ _ _ _ _ _ D) as (m1 & E1 & D1).
    rewrite cons_middle, app_assoc in D1.
    destruct (IH m1 (l1 ++ [(s, rs, [])]) (segs ++ [seg_of (s, rs)])
      (recs ++ base.filter (λ r, from_lsn < lsn r) rs) (mx `max` max_lsn_of rs) D1 ltac:(lia))
      as (m2 & E2 & D2).
    exists m2. split.
    + simpl. rewrite (bind_ok _ _ _ _ _ E1). cbn beta iota. rewrite E2.
      unfold log_records. simpl. rewrite filter_app, max_lsn_of_app, <- !app_assoc, Z.max_assoc.
      done.
    + simpl. by rewrite <- app_assoc in D2.
Qed.

Lemma last_removelast {A} (l : list A) x : last (l ++ [x]) = Some x ∧ removelast (l ++ [x]) = l.
Proof. by rewrite last_snoc, removelast_last. Qed.

(** Opening an empty directory starts segment 0. *)
Definition logs_or_new (logs : list (Lsn * list record)) : list (Lsn * list record) :=
  match logs with [] => [(0, [])] | _ => logs end.

Lemma disk_segs_new m :
  disk_segs m [] → disk_segs (<[segment_name 0 := mk_file [] []]> m) (clean [(0, [])]).
Proof.
  intros D. split.
  - repeat constructor.
  - intros s rs t Hin. apply list_elem_of_singleton in Hin as [= -> -> ->].
    rewrite lookup_insert_eq. split_and!; [done | constructor | apply torn_nil | done].
  - intros name f s Hname Hstart. destruct (decide (name = segment_name 0)) as [->|Hne].
    + rewrite segment_start_name in Hstart by done. injection Hstart as <-.
      exists [], []. split; [by left | done].
    + rewrite lookup_insert_ne in Hname by done.
      destruct (ds_only _ _ D _ _ _ Hname Hstart) as (? & ? & Hin & _).
      by apply elem_of_nil in Hin.
Qed.

Lemma segment_zero_fresh m : disk_segs m [] → m !! segment_name 0 = None.
Proof.
  intros D. destruct (m !! segment_name 0) eqn:E; [| done].
  destruct (ds_only _ _ D _ _ _ E (segment_start_name 0 ltac:(done))) as (? & ? & Hin & _).
  by apply elem_of_nil in Hin.
Qed.

Lemma open_ok max_bytes from_lsn m l :
  disk_segs m l →
  ∃ w m' logs s rs,
    open crc32_hash read_dir max_bytes from_lsn (mk_fs m []) =
      (Ok (w, mk_replay (base.filter (λ r, from_lsn < lsn r) (log_records l.*1))
                        (max_lsn_of (log_records l.*1))), mk_fs m' [])
    ∧ wal_inv m' w logs s rs ∧ logs ++ [(s, rs)] = logs_or_new l.*1
    ∧ wal_segment_max_bytes w = max_bytes ∧ wal_sealed w = seg_of <$> logs.
Proof.
  intros D. unfold open. rewrite (bind_ok _ _ _ _ _ (dir_call_ok m)).
  rewrite (bind_ok _ _ _ _ _ (list_segments_ok _ _ D)).
  destruct (open_segments_ok from_lsn l m [] [] [] 0 D ltac:(lia)) as (m1 & E & D1).
  rewrite (bind_ok _ _ _ _ _ E). cbn beta iota. simpl app in *.
  rewrite Z.max_r by auto with hg.
  destruct l.*1 as [|x logs _] eqn:El using rev_ind.
  - simpl in D1. simpl (last _). unfold mbind at 1, m_bind at 1.
    cbn [mret m_ret seg_path].
    rewrite (bind_ok _ _ _ _ _ (open_append_ok (segment_name 0) m1)).
    rewrite (segment_zero_fresh _ D1). eexists _, _, [], 0, [].
    split; [done |]. split; [| done]. split; try done; [by apply disk_segs_new |].
    by exists [].
  - destruct x as [s rs]. rewrite fmap_app in *. simpl (seg_of <$> [_]).
    destruct (last_removelast (seg_of <$> logs) (seg_of (s, rs))) as [-> ->].
    destruct (ds_file _ _ D1 s rs []) as (Hu & Hr & _ & Hf).
    { rewrite clean_app. apply elem_of_app. right. by left. }
    cbn beta iota. cbn [seg_path seg_of fst].
    erewrite (bind_ok _ _ (mk_fs m1 []));
      [| rewrite (bind_ok _ _ _ _ _ (metadata_len_ok _ _ _ Hf)); done].
    cbn beta iota. cbn [seg_path seg_of fst].
    rewrite (bind_ok _ _ _ _ _ (open_append_ok (segment_name s) m1)). rewrite Hf.
    eexists _, _, logs, s, rs. split; [done |]. split; [| by destruct logs].
    split; try done; [by exists logs |].
    simpl. unfold contents. simpl. by rewrite !app_nil_r.
Qed.

(** * Appending *)

Lemma on_writer_bind {A B} (a : M (bufwriter * fs) A) (b : A → M (bufwriter * fs) B)
    {C} (k : B → M (wal * fs) C) st :
  (x ← on_writer a; y ← on_writer (b x); k y) st =
  (y ← on_writer (x ← a; b x); k y) st.
Proof.
  destruct st as [w f]. unfold on_writer, m_zoom, mbind, m_bind. simpl.
  destruct (a (wal_writer w, f)) as [[x|e] [bw f1]]; [| done]. simpl.
  destruct (b x (bw, f1)) as [[y|e] [bw2 f2]]; done.
Qed.

(** Writing, flushing and syncing the scratch buffer. *)
Lemma write_phase name l bs w st r w' st' :
  wal_writer w = mk_bufwriter name [] → bs ≠ [] →
  fs_files st !! name = Some (mk_file l []) →
  (_ ← on_writer (bw_write_all bs); _ ← on_writer bw_flush; on_fs (sync name)) (w, st)
    = (r, (w', st')) →
  ∃ f' x, fs_files st' = <[name := f']> (fs_files st) ∧ grown l bs f' ∧ w' = set_writer x w ∧
    (r = Ok tt → f' = mk_file (l ++ bs) [] ∧ x = mk_bufwriter name []) ∧
    (fs_faults st = [] → r = Ok tt ∧ fs_faults st' = []).
Proof.
  intros Hw Hne Hf. rewrite on_writer_bind.
  destruct (bw_write_flush name bs st Hne) as [buf Hb].
  unfold on_writer at 1, m_zoom at 1, mbind at 1, m_bind at 1. rewrite Hw, Hb.
  destruct (write_file name bs st) as [r1 st1] eqn:E1.
  destruct (write_file_inv _ _ _ _ _ _ Hf E1) as (n & Hs1 & Hok1). simpl in Hs1.
  assert (fs_faults st = [] → r1 = Ok tt ∧ fs_faults st1 = []) as Hq1.
  { intros Hq. destruct (write_file_quiet _ bs _ _ Hf Hq) as (? & E & ?).
    split; congruence. }
  destruct r1 as [[]|e].
  2:{ intros [= <- <- <-]. eexists _, _. split; [exact Hs1 |]. split; [| split; [done |]].
      - exists 0%nat, n. unfold contents. simpl. rewrite app_nil_r. auto with lia.
      - split; [done |]. intros [? ?]%Hq1. done. }
  specialize (Hok1 eq_refl). rewrite Hok1 in Hs1. clear Hok1 n.
  unfold on_fs, m_zoom. cbn [snd fst].
  destruct (sync name st1) as [r2 st2] eqn:E2. intros [= <- <- <-].
  assert (fs_files st1 !! name = Some (mk_file l bs)) as Hf1
    by (rewrite Hs1; apply lookup_insert_eq).
  destruct (sync_inv _ _ _ _ _ Hf1 E2) as (f' & Hs2 & Hc & Hor & Hok2).
  unfold contents in Hc, Hor, Hok2. simpl in Hc, Hor, Hok2.
  exists f', (mk_bufwriter name []). rewrite Hs2, Hs1, insert_insert_eq.
  split; [done |]. split; [| split; [done |]; split; [auto |]].
  - destruct Hor as [-> | ->].
    + exists 0%nat, (length bs). unfold contents. simpl. rewrite firstn_all, app_nil_r. auto with lia.
    + exists (length bs), (length bs). unfold contents. simpl. rewrite firstn_all, app_nil_r. auto.
  - intros Hq. destruct (Hq1 Hq) as [_ Hq']. destruct (sync_quiet _ _ _ Hf1 Hq') as (? & E & ?).
    split; congruence.
Qed.

Lemma scratch_loop rs w st :
  m_iter (λ r, upd (λ w, set_scratch (encode crc32_hash r (wal_scratch w)) w)) rs (w, st)
  = (Ok tt, (set_scratch (wal_scratch w ++ frames rs) w, st)).
Proof.
  revert w. induction rs as [|r rs IH]; intros w; simpl.
  - unfold mret, m_ret. do 3 f_equal. destruct w. unfold set_scratch. simpl.
    f_equal. unfold frames. simpl. by rewrite app_nil_r.
  - unfold mbind, m_bind, upd, m_modify at 1. rewrite IH.
    unfold set_scratch. simpl. by rewrite encode_frame, frames_cons, app_assoc.
Qed.

Lemma disk_segs_snoc m l s :
  disk_segs m l → is_u64 s → (∀ s', s' ∈ l.*1.*1 → s' < s) →
  m !! segment_name s = None ∧
  disk_segs (<[segment_name s := mk_file [] []]> m) (l ++ [(s, [], [])]).
Proof.
  intros D Hu Hlt. split.
  { destruct (m !! segment_name s) eqn:E; [| done]. exfalso.
    destruct (ds_only _ _ D _ _ _ E (segment_start_name s Hu)) as (? & ? & Hin & _).
    apply elem_of_starts, Hlt in Hin. lia. }
  split.
  - rewrite !fmap_app. simpl. pose proof (ds_sorted _ _ D) as Hs. revert Hs Hlt.
    generalize (l.*1.*1). clear. intros l Hs. induction Hs as [|x l Hl IH Hx]; simpl; intros Hlt.
    + repeat constructor.
    + constructor; [apply IH; intros; apply Hlt; by right |].
      apply Forall_app. split; [done |]. repeat constructor. apply Hlt. by left.
  - intros s' rs t Hin. apply elem_of_app in Hin as [Hin|Hin].
    + destruct (ds_file _ _ D _ _ _ Hin) as (Hu' & Hr & Ht & Hf).
      apply elem_of_starts, Hlt in Hin. split_and!; try done.
      rewrite lookup_insert_ne by (intros E; apply segment_name_inj in E; [lia | done..]). done.
    + apply list_elem_of_singleton in Hin as [= -> -> ->]. rewrite lookup_insert_eq.
      split_and!; [done | constructor | apply torn_nil | done].
  - intros name f s' Hname Hstart. destruct (decide (name = segment_name s)) as [->|Hne].
    + rewrite segment_start_name in Hstart by done. injection Hstart as <-.
      exists [], []. split; [apply elem_of_app; right; by left | done].
    + rewrite lookup_insert_ne in Hname by done.
      destruct (ds_only _ _ D _ _ _ Hname Hstart) as (rs & t & Hin & ->).
      exists rs, t. split; [apply elem_of_app; by left | done].
Qed.

Lemma wal_inv_file m w logs s rs :
  wal_inv m w logs s rs →
  is_u64 s ∧ Forall record_fits rs ∧ m !! segment_name s = Some (mk_file (frames rs) []).
Proof.
  intros I. destruct (ds_file _ _ (wi_disk _ _ _ _ _ I) s rs []) as (Hu & Hr & _ & Hf).
  { rewrite clean_app. apply elem_of_app. right. by left. }
  by rewrite app_nil_r in Hf.
Qed.

Lemma wal_inv_starts m w logs s rs n :
  wal_inv m w logs s rs → s < n → ∀ s', s' ∈ (clean (logs ++ [(s, rs)])).*1.*1 → s' < n.
Proof.
  intros I Hn. pose proof (ds_sorted _ _ (wi_disk _ _ _ _ _ I)) as Hs. revert Hs.
  rewrite clean_starts, fmap_app. simpl. generalize (logs.*1). clear -Hn.
  intros l Hs s' Hin. apply elem_of_app in Hin as [Hin|Hin];
    [| apply list_elem_of_singleton in Hin; lia].
  assert (s' < s); [| lia]. induction l as [|x l IH]; [by apply elem_of_nil in Hin |].
  simpl in Hs. apply StronglySorted_inv in Hs as [Hs Hall]. rewrite Forall_forall in Hall.
  apply elem_of_cons in Hin as [->|Hin]; [| by apply IH].
  apply Hall, elem_of_app. right. by left.
Qed.

Lemma sync_nothing name st l r st' :
  fs_files st !! name = Some (mk_file l []) → sync name st = (r, st') →
  fs_files st' = fs_files st.
Proof.
  intros Hf H. apply sync_inv with (f := mk_file l []) in H as (f' & -> & _ & Hor & _); [| done].
  assert (f' = mk_file l []) as ->.
  { unfold contents in Hor. simpl in Hor. rewrite app_nil_r in Hor. by destruct Hor. }
  by apply insert_id.
Qed.

Lemma rotate_spec m w logs s rs st n r w' st' :
  wal_inv m w logs s rs → fs_files st = m → is_u64 n → s < n →
  rotate n (w, st) = (r, (w', st')) →
  (wal_segment_max_bytes w' = wal_segment_max_bytes w ∧
   (r = Ok tt → wal_sealed w' = wal_sealed w ++ [wal_active w])) ∧
  (fs_faults st = [] → r = Ok tt ∧ fs_faults st' = []) ∧
  (r = Ok tt ∧ wal_inv (fs_files st') w' (logs ++ [(s, rs)]) n [] ∨
   (∃ e, r = Err e) ∧ fs_files st' = m).
Proof.
  intros I Hst Hu Hn. destruct (wal_inv_file _ _ _ _ _ I) as (_ & _ & Hf).
  unfold rotate. rewrite (bind_ok _ _ (w, st) tt (w, st)).
  2:{ unfold on_writer, m_zoom, bw_flush, flush_buf. rewrite (wi_writer _ _ _ _ _ I). cbn.
      destruct w as [? wr ? ? ? ?]. pose proof (wi_writer _ _ _ _ _ I) as E. simpl in E.
      by rewrite E. }
  rewrite (bind_ok _ _ (w, st) w (w, st)) by done. rewrite (wi_writer _ _ _ _ _ I).
  cbn [bw_file]. unfold mbind at 1, m_bind at 1, on_fs at 1, m_zoom at 1. cbn [snd fst].
  destruct (sync (segment_name s) st) as [r1 st1] eqn:E1. rewrite <- Hst in Hf.
  pose proof (sync_nothing _ _ _ _ _ Hf E1) as Hst1.
  assert (fs_faults st = [] → r1 = Ok tt ∧ fs_faults st1 = []) as Hq1.
  { intros Hq. destruct (sync_quiet _ _ _ Hf Hq) as (? & E & ?). split; congruence. }
  destruct r1 as [[]|e].
  2:{ intros [= <- <- <-]. split; [done |]. split; [intros [? ?]%Hq1; done |].
      right. split; [by eexists | congruence]. }
  unfold mbind at 1, m_bind at 1, on_fs at 1, m_zoom at 1. cbn [snd fst].
  destruct (open_append (segment_name n) st1) as [r2 st2] eqn:E2.
  assert (fs_faults st = [] → r2 = Ok tt ∧ fs_faults st2 = []) as Hq2.
  { intros Hq. destruct (Hq1 Hq) as [_ Hq']. destruct (open_append_quiet (segment_name n) _ Hq')
      as (? & E & ?). split; congruence. }
  destruct (disk_segs_snoc m _ n (wi_disk _ _ _ _ _ I) Hu (wal_inv_starts _ _ _ _ _ _ I Hn))
    as [Hfresh D'].
  apply open_append_inv in E2. rewrite Hst1, Hst in E2.
  destruct E2 as [[Hst2 Hr2]|(_ & Hst2 & ->)].
  { destruct r2 as [[]|e]; [destruct (Hr2 eq_refl); congruence |].
    intros [= <- <- <-]. split; [done |]. split; [intros [? ?]%Hq2; done |].
    right. split; [by eexists | done]. }
  intros [= <- <- <-]. split; [done |]. split; [auto |]. left. split; [done |]. split.
  - rewrite Hst2. rewrite clean_app. exact D'.
  - destruct (wi_sealed _ _ _ _ _ I) as (kept & Hk & ->). exists (kept ++ [(s, rs)]).
    rewrite (wi_active _ _ _ _ _ I), fmap_app. split; [| done].
    by apply sublist_app.
  - done.
  - done.
  - done.
Qed.

(** The rest of [append], after the segment to write to is chosen. *)
Lemma append_body m w logs s rs st recs r w' st' :
  wal_inv m w logs s rs → fs_files st = m → Forall record_fits recs → recs ≠ [] →
  (_ ← upd (set_scratch []);
   _ ← m_iter (λ r, upd (λ w, set_scratch (encode crc32_hash r (wal_scratch w)) w)) recs;
   w ← self;
   _ ← on_writer (bw_write_all (wal_scratch w));
   _ ← on_writer bw_flush;
   _ ← on_fs (sync (bw_file (wal_writer w)));
   w ← self;
   _ ← upd (set_active_bytes (wal_active_bytes w + zlen (wal_scratch w)));
   upd (λ w, set_active
     (set_seg_max (seg_max_lsn (wal_active w) `max` max_lsn_of recs) (wal_active w)) w))
    (w, st) = (r, (w', st')) →
  (wal_segment_max_bytes w' = wal_segment_max_bytes w ∧ wal_sealed w' = wal_sealed w) ∧
  (fs_faults st = [] → r = Ok tt ∧ fs_faults st' = []) ∧
  ∃ f', fs_files st' = <[segment_name s := f']> m ∧ grown (frames rs) (frames recs) f' ∧
    (r = Ok tt → f' = mk_file (frames (rs ++ recs)) [] ∧
      wal_inv (fs_files st') w' logs s (rs ++ recs)).
Proof.
  intros I Hst Hfit Hne. destruct (wal_inv_file _ _ _ _ _ I) as (Hu & Hrs & Hf).
  assert (frames recs ≠ []) as Hfne.
  { destruct recs as [|r0 recs]; [done |]. rewrite frames_cons. pose proof (frame_pos r0).
    destruct (frame_of r0); simpl in *; [lia | done]. }
  rewrite (bind_ok _ _ (w, st) tt (set_scratch [] w, st)) by done.
  rewrite (bind_ok _ _ _ _ _ (scratch_loop recs (set_scratch [] w) st)). simpl app.
  set (w1 := set_scratch (frames recs) (set_scratch [] w)).
  rewrite (bind_ok _ _ (w1, st) w1 (w1, st)) by done.
  change (wal_scratch w1) with (frames recs). change (wal_writer w1) with (wal_writer w).
  rewrite (wi_writer _ _ _ _ _ I). cbn [bw_file].
  destruct ((_ ← on_writer (bw_write_all (frames recs)); _ ← on_writer bw_flush;
    on_fs (sync (segment_name s))) (w1, st)) as [r1 [w2 st2]] eqn:E.
  pose proof E as E'. rewrite <- Hst in Hf.
  apply (write_phase _ (frames rs)) in E' as (f' & x & Hs2 & Hg & Hw2 & Hok & Hq);
    [| by rewrite <- (wi_writer _ _ _ _ _ I) | done | done].
  intros Hrun.
  assert (match r1 with
    | Ok _ => (r, (w', st')) = (Ok tt, (set_active (set_seg_max
        (seg_max_lsn (wal_active w2) `max` max_lsn_of recs) (wal_active w2))
        (set_active_bytes (wal_active_bytes w2 + zlen (wal_scratch w2)) w2), st2))
    | Err e => (r, (w', st')) = (Err e, (w2, st2)) end) as Hres.
  { rewrite <- Hrun. clear Hrun. revert E. unfold mbind, m_bind.
    destruct (on_writer (bw_write_all (frames recs)) (w1, st)) as [[u1|e1] p1]; [| by intros [= <- <-]].
    destruct (on_writer bw_flush p1) as [[u2|e2] p2]; [| by intros [= <- <-]].
    destruct (on_fs (sync (segment_name s)) p2) as [[u3|e3] p3]; by intros [= <- ->]. }
  clear Hrun E. destruct r1 as [[]|e]; injection Hres as -> -> ->.
  - subst w2. destruct (Hok eq_refl) as [-> ->].
    split; [done |]. split; [naive_solver |].
    exists (mk_file (frames (rs ++ recs)) []). rewrite frames_app, Hs2, Hst.
    split; [done |]. split; [done |]. intros _. split; [done |].
    split; simpl.
    + pose proof (wi_disk _ _ _ _ _ I) as D. rewrite clean_app in D.
      rewrite clean_app, <- frames_app, <- (app_nil_r (frames _)).
      apply (disk_segs_set m (clean logs) [] s rs [] (rs ++ recs) []); [done | by apply Forall_app | apply torn_nil].
    + apply (wi_sealed _ _ _ _ _ I).
    + rewrite (wi_active _ _ _ _ _ I). unfold set_seg_max, seg_of. simpl.
      by rewrite max_lsn_of_app.
    + rewrite (wi_bytes _ _ _ _ _ I), frames_app, zlen_app. done.
    + done.
  - subst w2. split; [done |]. split; [naive_solver |].
    exists f'. rewrite Hs2, Hst. done.
Qed.

(** Appending a batch under any faults: the batch goes to the last segment, the
    one that was active or a new one; some prefix of its bytes is written, and on
    success all of them are, and are synced. *)
Lemma append_spec m w logs s rs st r0 recs r w' st' :
  wal_inv m w logs s rs → fs_files st = m → Forall record_fits (r0 :: recs) →
  (wal_segment_max_bytes w ≤ wal_active_bytes w → s < lsn r0) →
  append crc32_hash (r0 :: recs) (w, st) = (r, (w', st')) →
  (wal_segment_max_bytes w' = wal_segment_max_bytes w ∧
   (r = Ok tt → wal_sealed w' = wal_sealed w ++
      if wal_segment_max_bytes w <=? wal_active_bytes w then [wal_active w] else [])) ∧
  (fs_faults st = [] → r = Ok tt ∧ fs_faults st' = []) ∧
  ∃ logs' s' rs' m1 f',
    (logs' = logs ∧ s' = s ∧ rs' = rs ∧
       (r = Ok tt → wal_active_bytes w < wal_segment_max_bytes w) ∨
     logs' = logs ++ [(s, rs)] ∧ s' = lsn r0 ∧ rs' = [] ∧
       wal_segment_max_bytes w ≤ wal_active_bytes w) ∧
    disk_segs m1 (clean (logs' ++ [(s', rs')])) ∧
    fs_files st' = <[segment_name s' := f']> m1 ∧
    grown (frames rs') (frames (r0 :: recs)) f' ∧
    (r = Ok tt → f' = mk_file (frames (rs' ++ r0 :: recs)) [] ∧
      wal_inv (fs_files st') w' logs' s' (rs' ++ r0 :: recs)).
Proof.
  intros I Hst Hfit Hlt Hrun. destruct (wal_inv_file _ _ _ _ _ I) as (Hu & Hrs & Hf).
  assert (is_u64 (lsn r0)) as Hu0 by (by apply Forall_cons in Hfit as [[? _] _]).
  unfold append in Hrun. rewrite (bind_ok _ _ (w, st) w (w, st)) in Hrun by done.
  destruct (_ <=? _) eqn:Hfull; zbool.
  2:{ rewrite app_nil_r. rewrite (bind_ok _ _ (w, st) tt (w, st)) in Hrun by done.
      destruct (append_body _ _ _ _ _ _ _ _ _ _ I Hst Hfit ltac:(done) Hrun)
        as ([? ?] & ? & f' & ? & ? & ?).
      split; [done |]. split_and!; [done.. |]. exists logs, s, rs, m, f'. split_and!; try done; [by left |].
      apply I. }
  specialize (Hlt Hfull). apply bind_inv in Hrun as [([] & [w1 st1] & E1 & Hrun)|(e & E1 & ->)];
    destruct (rotate_spec _ _ _ _ _ _ _ _ _ _ I Hst Hu0 Hlt E1) as ([Hb Hsl] & Hq & Hcase).
  - destruct Hcase as [[_ I1]|[[? ?] _]]; [| done].
    destruct (append_body _ _ _ _ _ _ _ _ _ _ I1 eq_refl Hfit ltac:(done) Hrun)
      as ([Hb' Hsl'] & Hq' & f' & Hs' & Hg & Hok).
    split; [split; [congruence | intros _; rewrite Hsl'; by apply Hsl] |]. split; [intros Hno; by apply Hq', Hq |].
    exists (logs ++ [(s, rs)]), (lsn r0), [], (fs_files st1), f'.
    split_and!; try done; [by right | apply I1].
  - destruct Hcase as [[? _]|[_ Hm]]; [done |].
    split; [done |]. split; [intros Hno; by destruct (Hq Hno) |].
    exists logs, s, rs, m, (mk_file (frames rs) []).
    split_and!; try done; [by left | apply I | by rewrite Hm, insert_id | apply grown_start].
Qed.

(** Either way the log's records are the old ones. *)
Lemma append_records (logs logs' : list (Lsn * list record)) s s' rs rs' n (P Q : Prop) :
  (logs' = logs ∧ s' = s ∧ rs' = rs ∧ P ∨ logs' = logs ++ [(s, rs)] ∧ s' = n ∧ rs' = [] ∧ Q) →
  log_records (logs' ++ [(s', rs')]) = log_records (logs ++ [(s, rs)]).
Proof.
  intros [(-> & -> & -> & _)|(-> & -> & -> & _)]; [done |].
  by rewrite log_records_app, log_records_one, app_nil_r.
Qed.

Lemma log_records_snoc logs s rs recs :
  log_records (logs ++ [(s, rs ++ recs)]) = log_records (logs ++ [(s, rs)]) ++ recs.
Proof. by rewrite !log_records_app, !log_records_one, app_assoc. Qed.

(** * Crashing *)

Lemma disk_segs_agree m m' l :
  (∀ name, is_Some (segment_start name) → m' !! name = m !! name) →
  disk_segs m l → disk_segs m' l.
Proof.
  intros Hag D. split.
  - apply (ds_sorted _ _ D).
  - intros s rs t Hin. destruct (ds_file _ _ D _ _ _ Hin) as (Hu & Hr & Ht & Hf).
    rewrite Hag; [done |]. rewrite segment_start_name by done. by eexists.
  - intros name f s Hname Hs. rewrite Hag in Hname by (by eexists).
    by apply (ds_only _ _ D name f).
Qed.

(** What is synced survives, and the segment being written keeps a prefix of the
    records of the batch, whole or cut once. *)
Lemma crash_grown m1 logs s rs recs f' st st2 :
  disk_segs m1 (clean (logs ++ [(s, rs)])) → Forall record_fits recs →
  fs_files st = <[segment_name s := f']> m1 → grown (frames rs) (frames recs) f' →
  crash st st2 →
  ∃ j t, disk_segs (fs_files st2) (clean logs ++ [(s, rs ++ take j recs, t)]) ∧
    (f' = mk_file (frames (rs ++ recs)) [] → take j recs = recs).
Proof.
  intros D Hfit Hst Hg Hcr.
  destruct (ds_file _ _ D s rs []) as (Hu & Hr & _ & Hf).
  { rewrite clean_app. apply elem_of_app. right. by left. }
  pose proof Hcr as [Hkeep Hnone].
  destruct (Hkeep (segment_name s) f') as (f2 & Hf2 & Hc2); [by rewrite Hst, lookup_insert_eq |].
  destruct (grown_crash _ _ _ _ Hg Hc2) as [n Hn].
  destruct (take_frames n recs Hfit) as (j & t & Ej & Ht & Hall).
  exists j, t. split.
  - rewrite clean_app in D.
    assert (Forall record_fits (rs ++ take j recs)) as Hr'.
    { apply Forall_app. split; [done |]. by apply Forall_take. }
    pose proof (disk_segs_set _ _ [] s rs [] (rs ++ take j recs) t D Hr' Ht) as D'.
    refine (disk_segs_agree _ _ _ _ D'). intros name [s0 Hs0].
    destruct (decide (name = segment_name s)) as [->|Hne].
    { rewrite lookup_insert_eq, Hf2, Hn, Ej, frames_app, <- app_assoc. done. }
    rewrite lookup_insert_ne by done. destruct (m1 !! name) as [f|] eqn:E.
    + destruct (Hkeep name f) as (f3 & -> & Hc3); [by rewrite Hst, lookup_insert_ne |].
      f_equal. apply crash_clean; [| done].
      destruct (ds_only _ _ D _ _ _ E Hs0) as (rs0 & t0 & Hin & ->).
      apply (ds_file _ _ D) in Hin as (_ & _ & _ & E'). rewrite E in E'. by injection E' as ->.
    + apply Hnone. by rewrite Hst, lookup_insert_ne.
  - intros ->. destruct Hc2 as [k ->]. simpl in Hn. rewrite take_nil, app_nil_r in Hn.
    injection Hn as Hn. rewrite frames_app in Hn. apply app_inv_head in Hn.
    apply Hall. apply (f_equal length) in Hn. rewrite length_take in Hn. lia.
Qed.

Lemma grown_nothing l f' : f' = mk_file l [] → grown l [] f'.
Proof. intros ->. apply grown_start. Qed.

(** A crash between operations loses nothing. *)
Lemma crash_idle m w logs s rs st st2 :
  wal_inv m w logs s rs → fs_files st = m → crash st st2 →
  disk_segs (fs_files st2) (clean (logs ++ [(s, rs)])).
Proof.
  intros I Hst Hcr. pose proof (wi_disk _ _ _ _ _ I) as D.
  refine (disk_segs_agree _ _ _ _ D). intros name [s0 Hs0]. rewrite <- Hst.
  destruct Hcr as [Hkeep Hnone]. destruct (fs_files st !! name) as [f|] eqn:E.
  - destruct (Hkeep _ _ E) as (f2 & -> & Hc). f_equal. apply crash_clean; [| done].
    rewrite Hst in E. destruct (ds_only _ _ D _ _ _ E Hs0) as (rs0 & t0 & Hin & ->).
    apply (ds_file _ _ D) in Hin as (_ & _ & _ & E'). rewrite E in E'. by injection E' as ->.
  - by apply Hnone.
Qed.

(** * Truncating *)

Lemma seg_names_differ m l1 l2 s rs t s0 rs0 t0 :
  disk_segs m (l1 ++ (s, rs, t) :: l2) → (s0, rs0, t0) ∈ l1 ++ l2 →
  segment_name s0 ≠ segment_name s.
Proof.
  intros D Hin E. pose proof (starts_other _ _ _ _ _ _ _ _ (ds_sorted _ _ D) Hin) as Hne.
  destruct (ds_file _ _ D s0 rs0 t0) as (Hu0 & _); [apply elem_of_middle; by right |].
  destruct (ds_file _ _ D s rs t) as (Hu & _); [apply elem_of_middle; by left |].
  by apply segment_name_inj in E.
Qed.

Lemma sorted_remove (l1 l2 : list Z) x :
  StronglySorted Z.lt (l1 ++ x :: l2) → StronglySorted Z.lt (l1 ++ l2).
Proof.
  induction l1 as [|y l1 IH]; simpl; intros H; apply StronglySorted_inv in H as [H Hall];
    [done |].
  constructor; [by apply IH |]. rewrite Forall_forall in *. intros z Hz. apply Hall.
  apply elem_of_middle. by right.
Qed.

Lemma disk_segs_delete m l1 l2 s rs t :
  disk_segs m (l1 ++ (s, rs, t) :: l2) → disk_segs (base.delete (segment_name s) m) (l1 ++ l2).
Proof.
  intros D. split.
  - pose proof (ds_sorted _ _ D) as Hs. rewrite !fmap_app in *. simpl in Hs.
    by apply sorted_remove in Hs.
  - intros s0 rs0 t0 Hin. pose proof (seg_names_differ _ _ _ _ _ _ _ _ _ D Hin).
    rewrite lookup_delete_ne by done.
    apply (ds_file _ _ D). apply elem_of_middle. by right.
  - intros name f s0 Hname Hs0. apply lookup_delete_Some in Hname as [Hne Hname].
    destruct (ds_only _ _ D _ _ _ Hname Hs0) as (rs0 & t0 & Hin & ->).
    exists rs0, t0. split; [| done]. apply elem_of_middle in Hin as [[= -> -> ->]|Hin]; done.
Qed.

Lemma wal_inv_remove m w l1 l2 x s rs :
  wal_inv m w (l1 ++ x :: l2) s rs →
  seg_of x ∉ wal_sealed w →
  wal_inv (base.delete (segment_name x.1) m) w (l1 ++ l2) s rs.
Proof.
  intros I Hx. destruct x as [sx rsx]. split; try apply I.
  - pose proof (wi_disk _ _ _ _ _ I) as D. rewrite !clean_app in *. simpl in D.
    rewrite <- app_assoc in *. simpl in D. by apply disk_segs_delete in D.
  - destruct (wi_sealed _ _ _ _ _ I) as (kept & Hk & E). exists kept. split; [| done].
    assert ((sx, rsx) ∉ kept) as Hx' by (intros Hin; apply Hx; rewrite E; by apply list_elem_of_fmap_2).
    clear E I Hx.
    apply sublist_app_r in Hk as (k1 & k2 & -> & H1 & H2). apply sublist_app; [done |].
    apply sublist_cons_r in H2 as [H2|(k2' & -> & H2)]; [done |].
    exfalso. apply Hx', elem_of_app. right. by left.
Qed.

Lemma wal_inv_NoDup m w logs s rs : wal_inv m w logs s rs → NoDup (logs ++ [(s, rs)]).*1.
Proof.
  intros I. apply sorted_lt_NoDup. rewrite <- clean_starts. apply (wi_disk _ _ _ _ _ I).
Qed.

Lemma wal_inv_seg_file m w logs s rs x :
  wal_inv m w logs s rs → x ∈ logs → m !! segment_name x.1 = Some (mk_file (frames x.2) []).
Proof.
  intros I Hx. destruct x as [sx rsx].
  destruct (ds_file _ _ (wi_disk _ _ _ _ _ I) sx rsx []) as (_ & _ & _ & Hf).
  { apply elem_of_clean. split; [done |]. apply elem_of_app. by left. }
  by rewrite app_nil_r in Hf.
Qed.

Lemma NoDup_middle_fst {A B} (l1 l2 l3 : list (A * B)) x :
  NoDup ((l1 ++ x :: l2) ++ l3).*1 → x.1 ∉ (l1 ++ l2).*1.
Proof.
  rewrite !fmap_app. simpl. intros H. apply NoDup_app in H as [H _].
  rewrite NoDup_app, NoDup_cons in H. rewrite elem_of_app. destruct H as (_ & H1 & H2 & _).
  intros [?|?]; [| done]. apply (H1 x.1); [done | by left].
Qed.

Lemma remove_loop todo : ∀ w st logs s rs r w' st',
  wal_inv (fs_files st) w logs s rs → NoDup todo →
  (∀ g, g ∈ todo → ¬ g ∈ wal_sealed w ∧ (∃ x, x ∈ logs ∧ g = seg_of x)) →
  m_iter (λ seg, on_fs (remove_file (seg_path seg))) todo (w, st) = (r, (w', st')) →
  w' = w ∧ (fs_faults st = [] → r = Ok tt ∧ fs_faults st' = []) ∧
  ∃ logs', wal_inv (fs_files st') w logs' s rs ∧ sublist logs' logs ∧
    (∀ x, x ∈ logs → x ∈ logs' ∨ seg_of x ∈ todo) ∧
    (r = Ok tt → ∀ x, x ∈ logs' → seg_of x ∉ todo).
Proof.
  induction todo as [|g todo IH]; intros w st logs s rs r w' st' I Hnd Hin.
  { intros [= <- <- <-]. split; [done |]. split; [done |]. exists logs.
    split; [done |]. split; [done |]. split; [by left |]. intros _ x _ Hx.
    by apply elem_of_nil in Hx. }
  apply NoDup_cons in Hnd as [Hg Hnd].
  destruct (Hin g) as (Hsealed & x & Hx & ->); [by left |].
  cbn [m_iter]. unfold mbind at 1, m_bind at 1, on_fs at 1, m_zoom at 1. cbn [snd fst].
  cbn [seg_path seg_of].
  destruct (remove_file (segment_name x.1) st) as [r1 st1] eqn:E1.
  pose proof (wal_inv_seg_file _ _ _ _ _ _ I Hx) as Hf.
  assert (fs_faults st = [] → r1 = Ok tt ∧ fs_faults st1 = []) as Hq1.
  { intros Hq. destruct (remove_file_quiet _ _ _ Hf Hq) as (? & E & ?). split; congruence. }
  apply list_elem_of_split in Hx as (l1 & l2 & ->).
  pose proof (wal_inv_NoDup _ _ _ _ _ I) as HND.
  apply remove_file_inv in E1.
  destruct E1 as [[Hst1 [e ->]]|[Hst1 ->]].
  { intros [= <- <- <-]. split; [done |]. split; [by intros [? ?]%Hq1 |].
    exists (l1 ++ x :: l2). rewrite Hst1. split; [done |]. split; [done |].
    split; [by left | done]. }
  intros Hrun. assert (x.1 ∉ (l1 ++ l2).*1) as Hxl by (by eapply NoDup_middle_fst).
  apply (IH w st1 (l1 ++ l2) s rs) in Hrun as (-> & Hq & logs' & I' & Hsub & Hor & Hok).
  - split; [done |]. split; [by intros [_ ?%Hq]%Hq1 |]. exists logs'. split; [done |].
    split; [| split].
    + etrans; [done |]. apply sublist_app; [done |]. by apply sublist_cons.
    + intros y Hy. rewrite elem_of_cons. apply elem_of_middle in Hy as [->|Hy]; [auto |].
      destruct (Hor y Hy); auto.
    + intros Hr y Hy. rewrite not_elem_of_cons. split; [| by apply Hok].
      intros E. apply Hxl. apply (f_equal seg_start_lsn) in E. simpl in E. rewrite <- E.
      apply list_elem_of_fmap_2. by apply (elem_of_sublist logs').
  - rewrite Hst1. by apply wal_inv_remove.
  - done.
  - intros g Hg'. destruct (Hin g) as (Hns & y & Hy & ->); [by right |].
    split; [done |]. exists y. split; [| done]. apply elem_of_middle in Hy as [->|Hy]; done.
Qed.
(** [covered_by] on a segment of the invariant. *)
Definition covered (watermark : Lsn) (x : Lsn * list record) : Prop :=
  covered_by watermark (seg_of x) = true.

#[local] Instance covered_dec watermark x : Decision (covered watermark x).
Proof. unfold covered. apply _. Defined.

(** A covered segment holds no record above the watermark. *)
Lemma covered_below watermark x :
  covered watermark x → base.filter (λ r, watermark < lsn r) x.2 = [].
Proof.
  unfold covered, covered_by. simpl. intros H. zbool.
  apply filter_none. intros r Hr%max_lsn_of_elem. lia.
Qed.

Lemma log_records_above watermark logs' logs :
  sublist logs' logs → NoDup logs → (∀ x, x ∈ logs → x ∈ logs' ∨ covered watermark x) →
  base.filter (λ r, watermark < lsn r) (log_records logs') =
  base.filter (λ r, watermark < lsn r) (log_records logs).
Proof.
  induction 1 as [|x l1 l2 Hsub IH|x l1 l2 Hsub IH]; intros Hnd Hor; [done |..];
    apply NoDup_cons in Hnd as [Hx Hnd]; rewrite !log_records_cons, !filter_app.
  - rewrite IH; [done.. |]. intros y Hy. destruct (Hor y) as [Hin|?]; [by right | | by right].
    left. apply elem_of_cons in Hin as [->|?]; done.
  - rewrite (covered_below _ x); [apply IH; [done |] |].
    + intros y Hy. apply Hor. by right.
    + destruct (Hor x) as [Hin|?]; [by left | | done].
      exfalso. apply Hx. by eapply elem_of_sublist.
Qed.

Lemma sublist_filter_eq {A} (P : A → Prop) `{!∀ x, Decision (P x)} l' l :
  sublist l' l → NoDup l → (∀ x, x ∈ l → x ∈ l' ↔ P x) → l' = base.filter P l.
Proof.
  induction 1 as [|x l1 l2 Hsub IH|x l1 l2 Hsub IH]; intros Hnd Hiff; [done |..];
    apply NoDup_cons in Hnd as [Hx Hnd]; rewrite filter_cons.
  - rewrite decide_True by (apply Hiff; left). f_equal. apply IH; [done |].
    intros y Hy. rewrite <- Hiff by (by right). rewrite elem_of_cons.
    split; [by right | intros [->|?]; done].
  - rewrite decide_False.
    + apply IH; [done |]. intros y Hy. apply Hiff. by right.
    + rewrite <- Hiff by left. intros Hin. by eapply Hx, elem_of_sublist.
Qed.

(** Truncation under any faults: only covered segments go, and when it works all
    covered segments the struct knows are gone. *)
Lemma truncate_spec watermark w st logs s rs r w' st' :
  wal_inv (fs_files st) w logs s rs →
  truncate_through watermark (w, st) = (r, (w', st')) →
  wal_segment_max_bytes w' = wal_segment_max_bytes w ∧
  (fs_faults st = [] → r = Ok tt ∧ fs_faults st' = []) ∧
  ∃ logs', wal_inv (fs_files st') w' logs' s rs ∧ sublist logs' logs ∧
    (∀ x, x ∈ logs → x ∈ logs' ∨ covered watermark x) ∧
    (r = Ok tt → wal_sealed w = seg_of <$> logs →
      logs' = base.filter (λ x, ¬ covered watermark x) logs ∧ wal_sealed w' = seg_of <$> logs').
Proof.
  intros I. destruct (wi_sealed _ _ _ _ _ I) as (kept & Hsub & Hk).
  pose proof (wal_inv_NoDup _ _ _ _ _ I) as Hnd.
  apply NoDup_fmap_1, NoDup_app in Hnd as [Hnd _].
  assert (∀ x y, seg_of x = seg_of y → x ∈ logs → y ∈ logs → x = y) as Hinj.
  { intros x y E Hx Hy. apply (f_equal seg_start_lsn) in E. simpl in E.
    destruct x as [sx rx], y as [sy ry]. simpl in E. subst sy.
    destruct (disk_segs_starts_inj _ _ sx rx [] ry [] (wi_disk _ _ _ _ _ I)) as [-> _];
      [apply elem_of_clean; split; [done | apply elem_of_app; by left].. | done]. }
  assert (NoDup (wal_sealed w)) as Hnds.
  { rewrite Hk. apply NoDup_fmap_2_strong.
    - intros x y Hx Hy E. apply Hinj; [done | by eapply elem_of_sublist..].
    - eapply sublist_NoDup; eauto. }
  unfold truncate_through. rewrite (bind_ok _ _ (w, st) w (w, st)) by done.
  set (keep := base.filter (λ s, covered_by watermark s = false) (wal_sealed w)).
  rewrite (bind_ok _ _ (w, st) tt (set_sealed keep w, st)) by reflexivity. intros Hrun.
  apply (remove_loop _ _ _ logs s rs) in Hrun as (-> & Hq & logs' & I' & Hsub' & Hor & Hok).
  - split; [done |]. split; [done |]. exists logs'. split; [done |]. split; [done |]. split.
    + intros x Hx. destruct (Hor x Hx) as [?|Hc]; [by left | right].
      by apply list_elem_of_filter in Hc as [? _].
    + intros Hr Hall.
      assert (logs' = base.filter (λ x, ¬ covered watermark x) logs) as Hlogs'.
      { apply sublist_filter_eq; [done.. |]. intros x Hx. split.
        - intros Hx' Hc. apply (Hok Hr x Hx'). apply list_elem_of_filter. split; [done |].
          rewrite Hall. by apply list_elem_of_fmap_2.
        - intros Hc. destruct (Hor x Hx) as [?|Hc']; [done |].
          by apply list_elem_of_filter in Hc' as [? _]. }
      split; [done |]. simpl. unfold keep. rewrite Hall, Hlogs', filter_fmap'. f_equal.
      apply list_filter_iff. intros x. unfold covered. by rewrite not_true_iff_false.
  - split; simpl; try apply I. unfold keep. rewrite Hk, filter_fmap'. eexists. split; [| reflexivity].
    etrans; [apply sublist_filter | done].
  - by apply NoDup_filter.
  - simpl. intros g Hg. apply list_elem_of_filter in Hg as [Hc Hg]. split.
    + unfold keep. rewrite list_elem_of_filter. intros [? _]. congruence.
    + rewrite Hk in Hg. apply list_elem_of_fmap in Hg as (x & -> & Hx). exists x.
      split; [by eapply elem_of_sublist | done].
Qed.

Lemma wal_inv_logs_NoDup m w logs s rs : wal_inv m w logs s rs → NoDup logs.
Proof.
  intros I. pose proof (wal_inv_NoDup _ _ _ _ _ I) as H. apply NoDup_fmap_1, NoDup_app in H.
  by destruct H.
Qed.

(** A segment of the old log that is not in the new one is not on the disk. *)
Lemma removed_segment m w logs s rs m' w' logs' x :
  wal_inv m w logs s rs → wal_inv m' w' logs' s rs → sublist logs' logs →
  x ∈ logs → x ∉ logs' → m' !! segment_name x.1 = None.
Proof.
  intros I I' Hsub Hx Hx'. destruct (m' !! segment_name x.1) eqn:E; [| done]. exfalso.
  pose proof (wal_inv_NoDup _ _ _ _ _ I) as Hnd. destruct x as [sx rsx].
  pose proof (wi_disk _ _ _ _ _ I) as D. pose proof (wi_disk _ _ _ _ _ I') as D'.
  assert ((sx, rsx, []) ∈ clean (logs ++ [(s, rs)])) as Hc.
  { apply elem_of_clean. split; [done |]. apply elem_of_app. by left. }
  destruct (ds_file _ _ D _ _ _ Hc) as (Hu & _).
  destruct (ds_only _ _ D' _ _ _ E (segment_start_name sx Hu)) as (rs0 & t0 & Hin & _).
  apply elem_of_clean in Hin as [-> Hin]. rewrite fmap_app in Hnd. simpl in Hnd.
  apply NoDup_app in Hnd as (_ & Hd & _).
  apply elem_of_app in Hin as [Hin|Hin].
  - assert ((sx, rs0) ∈ logs) as Hl by (by eapply elem_of_sublist).
    destruct (disk_segs_starts_inj _ _ sx rsx [] rs0 [] D Hc) as [-> _]; [| done].
    apply elem_of_clean. split; [done |]. apply elem_of_app. by left.
  - apply list_elem_of_singleton in Hin as [= -> ->]. apply (Hd s).
    + by apply (list_elem_of_fmap_2 fst) in Hx.
    + by left.
Qed.

Lemma clean_fst l : (clean l).*1 = l.
Proof. induction l as [|[s rs] l IH]; simpl; [done | by f_equal]. Qed.
Lemma logs_or_new_snoc l (x : Lsn * list record) : logs_or_new (l ++ [x]) = l ++ [x].
Proof. by destruct l. Qed.
Lemma log_records_or_new l : log_records (logs_or_new l) = log_records l.
Proof. by destruct l. Qed.

(** [size_bytes] is the total length of the segment files. *)
Lemma size_loop_ok m logs total :
  (∀ x, x ∈ logs → m !! segment_name x.1 = Some (mk_file (frames x.2) [])) →
  size_loop (seg_of <$> logs) total (mk_fs m []) =
    (Ok (total + zlen (frames (log_records logs))), mk_fs m []).
Proof.
  revert total. induction logs as [|x logs IH]; intros total Hf; simpl.
  - unfold mret, m_ret. do 3 f_equal. change (frames (log_records [])) with (@nil byte). lens.
  - rewrite (bind_ok _ _ _ _ _ (metadata_len_ok _ _ _ (Hf x ltac:(by left)))).
    rewrite IH by (intros; apply Hf; by right). rewrite log_records_cons, frames_app.
    unfold contents. simpl. rewrite app_nil_r, zlen_app, Z.add_assoc. done.
Qed.
End scan.

Lemma disk_segs_empty crc32_hash : disk_segs crc32_hash ∅ [].
Proof.
  split; [constructor | intros s rs t Hin; by apply elem_of_nil in Hin |].
  intros name f s H. by rewrite lookup_empty in H.
Qed.
