(* ===== verification/WalRecover.v ===== *)
(** Opening a log when any call may fail ([src/src/wal.rs], [Wal::open]): whatever
    happens the directory still holds the same segments with the same records, perhaps
    with torn tails cut off, and an [open] that returns [Ok] has replayed all of them. *)

From S2P Require Import Prelude RecordModel Fs Wal WalLemmas.

(** * Calls that may fail *)

(** A call that leaves the file as it is. *)
Lemma file_call_reads {A} name (k : file → result A * file) e s r s' f r0 :
  fs_files s !! name = Some f → k f = (r0, f) → (∀ n, e n f = f) →
  file_call name k e s = (r, s') →
  fs_files s' = fs_files s ∧ (r = r0 ∨ r = Err io_error) ∧
  (fs_faults s = [] → r = r0 ∧ fs_faults s' = []).
Proof.
  intros Hf Hk He. unfold file_call, mbind, m_bind, action, next_fault.
  destruct (fs_faults s) as [|[|n] q] eqn:E; simpl; rewrite Hf, ?Hk; intros [= <- <-]; simpl;
    rewrite ?He, insert_id by done; (split; [done |]; split; [auto | intros Hq; split; congruence]).
Qed.

Lemma open_existing_any name s r s' f :
  fs_files s !! name = Some f → open_existing name s = (r, s') →
  fs_files s' = fs_files s ∧ (r = Ok tt ∨ r = Err io_error) ∧
  (fs_faults s = [] → r = Ok tt ∧ fs_faults s' = []).
Proof. intros Hf. by apply file_call_reads with (f := f). Qed.

Lemma read_to_end_any name s r s' f :
  fs_files s !! name = Some f → read_to_end name s = (r, s') →
  fs_files s' = fs_files s ∧ (r = Ok (contents f) ∨ r = Err io_error) ∧
  (fs_faults s = [] → r = Ok (contents f) ∧ fs_faults s' = []).
Proof. intros Hf. by apply file_call_reads with (f := f). Qed.

Lemma metadata_len_any name s r s' f :
  fs_files s !! name = Some f → metadata_len name s = (r, s') →
  fs_files s' = fs_files s ∧ (r = Ok (zlen (contents f)) ∨ r = Err io_error) ∧
  (fs_faults s = [] → r = Ok (zlen (contents f)) ∧ fs_faults s' = []).
Proof. intros Hf. by apply file_call_reads with (f := f). Qed.

Lemma dir_call_files s r s' :
  dir_call s = (r, s') → fs_files s' = fs_files s ∧ (fs_faults s = [] → r = Ok tt ∧ s' = s).
Proof.
  unfold dir_call, mbind, m_bind, next_fault. destruct (fs_faults s) as [|[|n] q] eqn:E;
    intros [= <- <-]; rewrite ?E; split; done.
Qed.

(** Cutting a synced file back to its first part: done, or nothing changed. *)
Lemma set_len_cut name s r s' l t :
  fs_files s !! name = Some (mk_file (l ++ t) []) → set_len name (zlen l) s = (r, s') →
  (r = Ok tt ∧ fs_files s' = <[name := mk_file l []]> (fs_files s) ∨
   is_ok r = false ∧ fs_files s' = fs_files s) ∧
  (fs_faults s = [] → r = Ok tt ∧ fs_faults s' = []).
Proof.
  intros Hf Hrun. unfold set_len in Hrun.
  assert (mk_file (take (length l) (l ++ t)) (take (length l - length (l ++ t)) [] ++
    replicate (length l - length (contents (mk_file (l ++ t) []))) Byte.x00) = mk_file l []) as Hcut.
  { unfold contents. simpl. rewrite take_nil, app_nil_r, length_app, take_app_length.
    by replace (length l - (length l + length t))%nat with 0%nat by lia. }
  revert Hrun. unfold file_call, mbind, m_bind, action, next_fault.
  destruct (fs_faults s) as [|[|n] q] eqn:E; simpl; rewrite Hf; simpl; unfold zlen; rewrite ?Nat2Z.id;
    intros [= <- <-]; simpl; rewrite ?Hcut, ?insert_id by done; (split; [auto | intros Hq; split; congruence]).
Qed.

Section recover.
Context (crc32_hash : bytes → Z) (crc_u32 : ∀ l, is_u32 (crc32_hash l)).
Context (read_dir : gmap string file → list string).
Context (read_dir_perm : ∀ m, read_dir m ≡ₚ (map_to_list m).*1).

Abbreviation frames := (frames crc32_hash).
Abbreviation torn := (torn crc32_hash).
Abbreviation disk_segs := (disk_segs crc32_hash).
Abbreviation wal_inv := (wal_inv crc32_hash).

(** * Crashes *)

(** A directory of segments is synced: a crash leaves it as it is. *)
Lemma disk_segs_crash st st2 l :
  disk_segs (fs_files st) l → crash st st2 → disk_segs (fs_files st2) l.
Proof.
  intros D [Hkeep Hnone]. refine (disk_segs_agree _ _ _ _ _ D). intros name [s0 Hs0].
  destruct (fs_files st !! name) as [f|] eqn:E; [| by apply Hnone].
  destruct (Hkeep _ _ E) as (f2 & -> & Hc). f_equal. apply crash_clean; [| done].
  destruct (ds_only _ _ _ D _ _ _ E Hs0) as (rs0 & t0 & Hin & ->).
  apply (ds_file _ _ _ D) in Hin as (_ & _ & _ & E'). rewrite E in E'. by injection E' as ->.
Qed.

(** * One segment *)

Lemma replay_segment_any st name rs t r st' :
  fs_files st !! name = Some (mk_file (frames rs ++ t) []) → Forall record_fits rs → torn t →
  replay_segment crc32_hash name st = (r, st') →
  fs_files st' = fs_files st ∧ (r = Ok (rs, max_lsn_of rs, zlen (frames rs)) ∨ is_ok r = false).
Proof.
  intros Hf Hr Ht Hrun. unfold replay_segment in Hrun.
  apply bind_inv in Hrun as [([] & s1 & E1 & Hrun)|(e & E1 & ->)];
    destruct (open_existing_any _ _ _ _ _ Hf E1) as (Es1 & _ & _);
    [| by split; [| right]].
  rewrite <- Es1 in Hf |- *.
  apply bind_inv in Hrun as [(buf & s2 & E2 & Hrun)|(e & E2 & ->)];
    destruct (read_to_end_any _ _ _ _ _ Hf E2) as (Es2 & Hc2 & _);
    [| by split; [| right]].
  destruct Hc2 as [[= ->]|]; [| done]. unfold m_lift in Hrun. injection Hrun as <- <-.
  split; [done |]. left. unfold contents. simpl. rewrite app_nil_r. by apply replay_frames.
Qed.

(** Opening a segment cuts its torn tail or fails, and does not touch its records. *)
Lemma open_segment_any from_lsn st l1 l2 s rs t r st' :
  disk_segs (fs_files st) (l1 ++ (s, rs, t) :: l2) →
  open_segment crc32_hash from_lsn (mk_segment (segment_name s) s 0) st = (r, st') →
  ∃ t', disk_segs (fs_files st') (l1 ++ (s, rs, t') :: l2) ∧
    (r = Ok (seg_of (s, rs), base.filter (λ r, from_lsn < lsn r) rs, max_lsn_of rs) ∧ t' = [] ∨
     is_ok r = false).
Proof.
  intros D Hrun. pose proof (disk_segs_cut _ _ _ _ _ _ _ D) as D'.
  pose proof (ds_file _ _ _ D s rs t) as (Hu & Hr & Ht & Hf); [apply elem_of_middle; by left |].
  unfold open_segment in Hrun. cbn [seg_path] in Hrun.
  apply bind_inv in Hrun as [([[recs mx] good] & s1 & E1 & Hrun)|(e & E1 & ->)];
    destruct (replay_segment_any _ _ _ _ _ _ Hf Hr Ht E1) as [Es1 Hc1];
    [| exists t; rewrite Es1; split; [done | by right]].
  destruct Hc1 as [[= -> -> ->]|]; [| done]. rewrite <- Es1 in Hf, D, D'.
  apply bind_inv in Hrun as [(len & s2 & E2 & Hrun)|(e & E2 & ->)];
    destruct (metadata_len_any _ _ _ _ _ Hf E2) as (Es2 & Hc2 & _);
    [| exists t; rewrite Es2; split; [done | by right]].
  destruct Hc2 as [[= ->]|]; [| done]. rewrite <- Es2 in Hf, D, D'.
  unfold contents in Hrun. cbn [f_synced f_pending] in Hrun. rewrite app_nil_r, zlen_app in Hrun.
  destruct (zlen (frames rs) <? _) eqn:E; zbool.
  2:{ assert (t = []) as -> by (apply zlen_zero_inv; lens).
      injection Hrun as <- <-. exists []. split; [done | by left]. }
  apply bind_inv in Hrun as [([] & s6 & E6 & [= <- <-])|(e & E6 & ->)].
  - apply bind_inv in E6 as [([] & s3 & E3 & E6)|(e & E3 & [=])].
    destruct (open_existing_any _ _ _ _ _ Hf E3) as (Es3 & _ & _).
    rewrite <- Es3 in Hf, D, D'.
    apply bind_inv in E6 as [([] & s4 & E4 & E6)|(e & E4 & [=])].
    destruct (set_len_cut _ _ _ _ _ _ Hf E4) as [[[_ Es4]|[? _]] _]; [| done].
    apply (sync_nothing _ _ (frames rs)) in E6; [| by rewrite Es4, lookup_insert_eq].
    exists []. rewrite E6, Es4. split; [done | by left].
  - assert (∃ t', disk_segs (fs_files st') (l1 ++ (s, rs, t') :: l2)) as [t' ?].
    { apply bind_inv in E6 as [([] & s3 & E3 & E6)|(e' & E3 & [= <-])];
        destruct (open_existing_any _ _ _ _ _ Hf E3) as (Es3 & _ & _);
        [| exists t; by rewrite Es3].
      rewrite <- Es3 in Hf, D, D'.
      apply bind_inv in E6 as [([] & s4 & E4 & E6)|(e' & E4 & [= <-])];
        destruct (set_len_cut _ _ _ _ _ _ Hf E4) as [[[Hx Es4]|[Hx Es4]] _]; try done.
      - apply (sync_nothing _ _ (frames rs)) in E6; [| by rewrite Es4, lookup_insert_eq].
        exists []. by rewrite E6, Es4.
      - exists t. by rewrite Es4. }
    exists t'. split; [done | by right].
Qed.

(** * The directory *)

Lemma open_segments_any from_lsn todo : ∀ st l1 segs recs mx r st',
  disk_segs (fs_files st) (l1 ++ todo) → 0 ≤ mx →
  open_segments crc32_hash from_lsn (listed todo) segs recs mx st = (r, st') →
  ∃ l', l'.*1 = todo.*1 ∧ disk_segs (fs_files st') (l1 ++ l') ∧
    (l' = clean todo.*1 ∧
     r = Ok (segs ++ (seg_of <$> todo.*1),
             recs ++ base.filter (λ r, from_lsn < lsn r) (log_records todo.*1),
             mx `max` max_lsn_of (log_records todo.*1)) ∨
     is_ok r = false).
Proof.
  induction todo as [|[[s rs] t] todo IH]; intros st l1 segs recs mx r st' D Hmx Hrun.
  { injection Hrun as <- <-. exists []. split; [done |]. split; [done |]. left. split; [done |].
    simpl. by rewrite !app_nil_r, Z.max_l. }
  cbn [listed fmap list_fmap open_segments] in Hrun.
  apply bind_inv in Hrun as [([[seg rs'] smx] & s1 & E1 & Hrun)|(e & E1 & ->)];
    destruct (open_segment_any _ _ _ _ _ _ _ _ _ D E1) as (t' & D1 & Hc).
  2:{ exists ((s, rs, t') :: todo). split; [done |]. split; [done | by right]. }
  destruct Hc as [[[= -> -> ->] ->]|]; [| done].
  rewrite cons_middle, app_assoc in D1.
  assert (0 ≤ mx `max` max_lsn_of rs) as Hmx' by lia.
  destruct (IH _ _ _ _ _ _ _ D1 Hmx' Hrun) as (l' & El & D2 & Hc).
  exists ((s, rs, []) :: l'). split; [by rewrite !fmap_cons, El |].
  split; [by rewrite <- app_assoc in D2 |].
  destruct Hc as [[-> ->]|Hc]; [left | by right]. split; [done |].
  unfold log_records. simpl. by rewrite filter_app, max_lsn_of_app, <- !app_assoc, Z.max_assoc.
Qed.

Lemma list_segments_any st l r st' :
  disk_segs (fs_files st) l → list_segments read_dir st = (r, st') →
  fs_files st' = fs_files st ∧ (r = Ok (listed l) ∨ is_ok r = false).
Proof.
  intros D Hrun. pose proof (list_segments_ok _ _ read_dir_perm _ _ D) as Hok.
  unfold list_segments in *.
  apply bind_inv in Hrun as [([] & s1 & E1 & Hrun)|(e & E1 & ->)];
    destruct (dir_call_files _ _ _ E1) as [Es1 _]; [| by split; [| right]].
  rewrite (bind_ok _ _ _ _ _ (dir_call_ok (fs_files st))) in Hok.
  unfold mbind, m_bind, m_get, mret, m_ret in Hrun, Hok. injection Hok as Hok.
  injection Hrun as <- <-. rewrite Es1. simpl in Hok. split; [done |]. left. by rewrite Hok.
Qed.

(** What a log on the disk is worth: its segments and their records. *)
Definition same_log (l l' : list (Lsn * list record * bytes)) : Prop :=
  l'.*1 = l.*1 ∨ l'.*1 = logs_or_new l.*1.

Lemma snoc_cases {A} (l : list A) : l = [] ∨ ∃ k x, l = k ++ [x].
Proof. destruct l as [|x k _] using rev_ind; [by left | right; eauto]. Qed.

(** [Wal::open] under any faults. *)
Lemma open_any max_bytes from_lsn st l r st' :
  disk_segs (fs_files st) l → open crc32_hash read_dir max_bytes from_lsn st = (r, st') →
  ∃ l', same_log l l' ∧ disk_segs (fs_files st') l' ∧
    ∀ w replay, r = Ok (w, replay) →
      replay = mk_replay (base.filter (λ r, from_lsn < lsn r) (log_records l.*1))
                         (max_lsn_of (log_records l.*1)) ∧
      wal_segment_max_bytes w = max_bytes ∧
      ∃ logs s rs, wal_inv (fs_files st') w logs s rs ∧ logs ++ [(s, rs)] = logs_or_new l.*1.
Proof.
  intros D Hrun. unfold open in Hrun.
  apply bind_inv in Hrun as [([] & s1 & E1 & Hrun)|(e & E1 & ->)];
    destruct (dir_call_files _ _ _ E1) as [Es1 _]; rewrite <- Es1 in D;
    [| by exists l; split; [left |]].
  apply bind_inv in Hrun as [(segs & s2 & E2 & Hrun)|(e & E2 & ->)];
    destruct (list_segments_any _ _ _ _ D E2) as [Es2 Hc2]; rewrite <- Es2 in D;
    [| by exists l; split; [left |]].
  destruct Hc2 as [[= ->]|]; [| done].
  apply bind_inv in Hrun as [([[segs recs] mx] & s3 & E3 & Hrun)|(e & E3 & ->)];
    destruct (open_segments_any from_lsn l _ [] _ _ 0 _ _ D (Z.le_refl 0) E3) as (l' & El & D3 & Hc3);
    [| by exists l'; split; [left |]].
  destruct Hc3 as [[-> [= -> -> ->]]|]; [| done]. simpl app in *.
  rewrite Z.max_r in Hrun by auto with hg.
  destruct (snoc_cases l.*1) as [El0|(logs & [s rs] & El0)]; rewrite El0 in *.
  - apply bind_inv in Hrun as [(x & s3' & [= <- <-] & Hrun)|(e & [=] & _)].
    apply bind_inv in Hrun as [([] & s4 & E4 & Hrun)|(e & E4 & ->)];
      destruct (open_append_inv _ _ _ _ E4) as [[Es4 Hc4]|(_ & Es4 & Hr4)]; try discriminate Hr4.
    + apply segment_zero_fresh in D3. destruct (Hc4 eq_refl) as [? ?]. cbn in *. congruence.
    + injection Hrun as <- <-. exists (clean [(0, [])]). cbn [seg_path] in Es4. rewrite Es4.
      pose proof (disk_segs_new _ _ D3) as Dn.
      split; [right; by rewrite El0 |]. split; [done |]. intros w rep [= <- <-].
      split; [done |]. split; [done |]. exists [], 0, []. split; [| done].
      split; try done. by exists [].
    + exists []. split; [left; by rewrite El0 |]. rewrite Es4. by split.
  - rewrite fmap_app in Hrun. simpl (seg_of <$> [_]) in Hrun.
    destruct (last_removelast (seg_of <$> logs) (seg_of (s, rs))) as [E5 E6].
    rewrite E5, E6 in Hrun. clear E5 E6.
    destruct (ds_file _ _ _ D3 s rs []) as (Hu & Hr & _ & Hf).
    { rewrite clean_app. apply elem_of_app. right. by left. }
    assert (same_log l (clean (logs ++ [(s, rs)]))) as Hsame by (left; by rewrite clean_fst, El0).
    apply bind_inv in Hrun as [([[act len] sealed] & s4 & E4 & Hrun)|(e & E4 & ->)].
    2:{ apply bind_inv in E4 as [(n & s5 & E5 & [=])|(e' & E5 & _)].
        destruct (metadata_len_any _ _ _ _ _ Hf E5) as (Es4 & _ & _).
        exists (clean (logs ++ [(s, rs)])). by rewrite Es4. }
    apply bind_inv in E4 as [(n & s5 & E5 & [= <- <- <- <-])|(e' & E5 & [=])].
    destruct (metadata_len_any _ _ _ _ _ Hf E5) as (Es4 & Hc5 & _).
    rewrite <- Es4 in Hf, D3.
    apply bind_inv in Hrun as [([] & s6 & E6 & Hrun)|(e & E6 & ->)];
      apply open_append_inv in E6 as [[Es6 _]|(Hnone & _)];
      cbn [seg_path seg_of fst] in *; try congruence; rewrite <- Es6 in D3.
    + injection Hrun as <- <-. exists (clean (logs ++ [(s, rs)])).
      split; [done |]. split; [done |]. intros w rep [= <- <-].
      split; [done |]. split; [done |]. exists logs, s, rs. split; [| by destruct logs].
      split; try done; [by exists logs |]. simpl. destruct Hc5 as [[= ->]|]; [| done].
      unfold contents. simpl. by rewrite !app_nil_r.
    + by exists (clean (logs ++ [(s, rs)])).
Qed.
End recover.
