(* ===== verification/WalProps.v ===== *)
(** The properties of the write-ahead log ([src/src/wal.rs]), proved from
    [WalLemmas.v], with the concrete runs that show their hypotheses can hold. *)

From S2P Require Import Prelude Fs Instances RecordModel Wal WalLemmas.

Section properties.
Context (crc32_hash : bytes → Z).
Context (read_dir : gmap string file → list string).

Abbreviation append := (append crc32_hash).
Abbreviation open := (open crc32_hash read_dir).
Abbreviation wal_inv := (wal_inv crc32_hash).
Abbreviation disk_segs := (disk_segs crc32_hash).

(** Opening a directory in the state a crash left. *)
Lemma crash_open st2 l max_bytes from_lsn :
  (∀ x, is_u32 (crc32_hash x)) → (∀ m, read_dir m ≡ₚ (map_to_list m).*1) →
  fs_faults st2 = [] → disk_segs (fs_files st2) l →
  ∃ w m' logs s rs,
    open max_bytes from_lsn st2 =
      (Ok (w, mk_replay (base.filter (λ r, from_lsn < lsn r) (log_records l.*1))
                        (max_lsn_of (log_records l.*1))), mk_fs m' [])
    ∧ wal_inv m' w logs s rs ∧ logs ++ [(s, rs)] = logs_or_new l.*1
    ∧ wal_segment_max_bytes w = max_bytes ∧ wal_sealed w = seg_of <$> logs.
Proof.
  intros Hc Hr Hq D. destruct st2 as [m2 q]. simpl in Hq. subst q. by apply open_ok.
Qed.

(** C13: durability of the log under any I/O faults and a crash at the end. From an
    open log, append a batch (whose first LSN is above the one a full active segment is
    named after), die, and open again: the log opens, every record
    that was in it is still there, of the batch a prefix of whole records is there,
    and if [append] returned [Ok] the whole batch is; without faults it does return
    [Ok]. What [open] replays is what is above the watermark, in log order, and the
    highest LSN reported counts every record. *)
Theorem append_crash_open m w logs s rs st r0 recs res w' st' st2 max_bytes from_lsn
  (crc_u32 : ∀ l, is_u32 (crc32_hash l))
  (read_dir_perm : ∀ m, read_dir m ≡ₚ (map_to_list m).*1) :
  wal_inv m w logs s rs → fs_files st = m → Forall record_fits (r0 :: recs) →
  (wal_segment_max_bytes w ≤ wal_active_bytes w → s < lsn r0) →
  append (r0 :: recs) (w, st) = (res, (w', st')) →
  crash st' st2 → fs_faults st2 = [] →
  (fs_faults st = [] → res = Ok tt) ∧
  ∃ kept, kept `prefix_of` (r0 :: recs) ∧ (res = Ok tt → kept = r0 :: recs) ∧
    let all := log_records (logs ++ [(s, rs)]) ++ kept in
    ∃ w2 m2 logs2 s2 rs2,
      open max_bytes from_lsn st2 =
        (Ok (w2, mk_replay (base.filter (λ r, from_lsn < lsn r) all) (max_lsn_of all)),
         mk_fs m2 []) ∧
      wal_inv m2 w2 logs2 s2 rs2 ∧ log_records (logs2 ++ [(s2, rs2)]) = all.
Proof.
  intros I Hst Hfit Hlt Hrun Hcr Hq2.
  destruct (append_spec _ _ _ _ _ _ _ _ _ _ _ _ I Hst Hfit Hlt Hrun)
    as (_ & Hq & logs' & s' & rs' & m1 & f' & Hcase & D & Hs' & Hg & Hok).
  split; [intros Hno; by apply Hq |].
  destruct (crash_grown _ crc_u32 _ _ _ _ _ _ _ _ D Hfit Hs' Hg Hcr) as (j & t & D2 & Hall).
  exists (take j (r0 :: recs)). split; [by eexists; rewrite take_drop |].
  split; [intros Hr; apply Hall; by apply Hok |]. intros all.
  destruct (crash_open _ _ max_bytes from_lsn crc_u32 read_dir_perm Hq2 D2)
    as (w2 & m2 & logs2 & s2 & rs2 & E & I2 & El & _).
  assert (log_records (clean logs' ++ [(s', rs' ++ take j (r0 :: recs), t)]).*1 = all) as Ha.
  { rewrite fmap_app, clean_fst. simpl. rewrite log_records_snoc. unfold all. f_equal.
    by eapply append_records. }
  rewrite Ha in E. exists w2, m2, logs2, s2, rs2. split; [done |]. split; [done |].
  rewrite El, <- Ha. by apply log_records_or_new.
Qed.

(** C14: truncation never loses a record above the watermark. Whatever faults hit
    it and wherever it dies, the log opens again and replays above the watermark
    exactly the records it held there, and the active segment is kept whole. Without
    faults it removes every sealed segment that is non-empty and below the watermark. *)
Theorem truncate_crash_open watermark w st logs s rs res w' st' st2 max_bytes
  (crc_u32 : ∀ l, is_u32 (crc32_hash l))
  (read_dir_perm : ∀ m, read_dir m ≡ₚ (map_to_list m).*1) :
  wal_inv (fs_files st) w logs s rs → wal_sealed w = seg_of <$> logs →
  truncate_through watermark (w, st) = (res, (w', st')) →
  crash st' st2 → fs_faults st2 = [] →
  (∃ w2 m2 logs2 max_lsn,
    open max_bytes watermark st2 =
      (Ok (w2, mk_replay (base.filter (λ r, watermark < lsn r)
                            (log_records (logs ++ [(s, rs)]))) max_lsn), mk_fs m2 []) ∧
    wal_inv m2 w2 logs2 s rs) ∧
  (fs_faults st = [] → res = Ok tt ∧
    ∀ x, x ∈ logs → fs_files st' !! segment_name x.1 =
      if covered_by watermark (seg_of x) then None else fs_files st !! segment_name x.1).
Proof.
  intros I Hsealed Hrun Hcr Hq2.
  destruct (truncate_spec _ _ _ _ _ _ _ _ _ _ I Hrun)
    as (_ & Hq & logs' & I' & Hsub & Hor & Hall).
  split.
  - pose proof (crash_idle _ _ _ _ _ _ _ _ I' eq_refl Hcr) as D2.
    destruct (crash_open _ _ max_bytes watermark crc_u32 read_dir_perm Hq2 D2)
      as (w2 & m2 & logs2 & s2 & rs2 & E & I2 & El & _).
    rewrite clean_fst in *. rewrite logs_or_new_snoc in El.
    apply app_inj_tail in El as [-> [= -> ->]].
    exists w2, m2, logs', (max_lsn_of (log_records (logs' ++ [(s, rs)]))).
    split; [| done]. rewrite E. do 4 f_equal.
    rewrite !log_records_app, !filter_app. f_equal.
    eapply log_records_above; [done | by eapply wal_inv_logs_NoDup | done].
  - intros Hno. destruct (Hq Hno) as [Hres _]. split; [done |]. intros x Hx.
    destruct (Hall Hres Hsealed) as [-> _]. destruct (covered_by watermark (seg_of x)) eqn:Hc.
    + eapply removed_segment; [exact I | exact I' | done | done |].
      rewrite list_elem_of_filter. unfold covered. naive_solver.
    + rewrite (wal_inv_seg_file _ _ _ _ _ _ _ I Hx). eapply wal_inv_seg_file; [exact I' |].
      apply list_elem_of_filter. unfold covered. split; [congruence | done].
Qed.

(** C16: appending without faults keeps the log open and whole, where a full active
    segment is named after a lower LSN than the batch's first (with one writer it always
    is): the batch is at the end of the log, in the active segment while that one is below
    its size limit, else in a new segment named after the batch's first LSN, the old one
    sealed unchanged. (A late writer can break the condition; the segment is then sealed
    and active at once, [late_rotation_reuses_segment] in [Concurrent.v].) *)
Theorem append_ok m w logs s rs r0 recs :
  wal_inv m w logs s rs → Forall record_fits (r0 :: recs) →
  (wal_segment_max_bytes w ≤ wal_active_bytes w → s < lsn r0) →
  ∃ w' m' logs' s' rs',
    append (r0 :: recs) (w, mk_fs m []) = (Ok tt, (w', mk_fs m' [])) ∧
    wal_inv m' w' logs' s' rs' ∧
    if wal_active_bytes w <? wal_segment_max_bytes w
    then logs' = logs ∧ s' = s ∧ rs' = rs ++ r0 :: recs
    else logs' = logs ++ [(s, rs)] ∧ s' = lsn r0 ∧ rs' = r0 :: recs.
Proof.
  intros I Hfit Hlt. destruct (append (r0 :: recs) (w, mk_fs m [])) as [r [w' st']] eqn:E.
  destruct (append_spec _ _ _ _ _ _ (mk_fs m []) _ _ _ _ _ I eq_refl Hfit Hlt E)
    as (_ & Hq & logs' & s' & rs' & m1 & f' & Hcase & _ & _ & _ & Hok).
  destruct (Hq eq_refl) as [-> Hq']. destruct (Hok eq_refl) as [_ I'].
  exists w', (fs_files st'), logs', s', (rs' ++ r0 :: recs).
  split; [rewrite <- Hq'; by rewrite fs_eta |]. split; [done |].
  destruct Hcase as [(-> & -> & -> & Hlow)|(-> & -> & -> & Hfull)].
  - by rewrite (proj2 (Z.ltb_lt _ _) (Hlow eq_refl)).
  - by rewrite (proj2 (Z.ltb_ge _ _) Hfull).
Qed.

(** C15: opening any directory of segments whose tails are torn succeeds, replays
    every whole record above the watermark in segment order, and cuts the torn
    tails for good: dying and opening again gives the same log and replay. *)
Theorem open_torn_directory m l max_bytes from_lsn st2
  (crc_u32 : ∀ l, is_u32 (crc32_hash l))
  (read_dir_perm : ∀ m, read_dir m ≡ₚ (map_to_list m).*1) :
  disk_segs m l → fs_faults st2 = [] →
  ∃ w m' logs s rs replay,
    open max_bytes from_lsn (mk_fs m []) = (Ok (w, replay), mk_fs m' []) ∧
    replay_records replay = base.filter (λ r, from_lsn < lsn r) (log_records l.*1) ∧
    (∀ r, r ∈ log_records l.*1 → lsn r ≤ replay_max_lsn replay) ∧
    wal_inv m' w logs s rs ∧
    (crash (mk_fs m' []) st2 → ∃ w2 m2,
      open max_bytes from_lsn st2 = (Ok (w2, replay), mk_fs m2 []) ∧ wal_inv m2 w2 logs s rs).
Proof.
  intros D Hq2. destruct (open_ok _ crc_u32 _ read_dir_perm max_bytes from_lsn _ _ D)
    as (w & m' & logs & s & rs & E & I & El & Hb & Hs).
  exists w, m', logs, s, rs. eexists. split; [exact E |]. split; [done |].
  split; [intros r; apply max_lsn_of_elem |]. split; [done |]. intros Hcr.
  pose proof (crash_idle _ _ _ _ _ _ (mk_fs m' []) _ I eq_refl Hcr) as D2.
  destruct (crash_open _ _ max_bytes from_lsn crc_u32 read_dir_perm Hq2 D2)
    as (w2 & m2 & logs2 & s2 & rs2 & E2 & I2 & El2 & Hb2 & Hs2).
  rewrite clean_fst, El in *. rewrite log_records_or_new in E2.
  assert (logs_or_new (logs_or_new l.*1) = logs_or_new l.*1) as Hl by (by destruct l.*1).
  rewrite Hl, <- El in El2. apply app_inj_tail in El2 as [-> [= -> ->]].
  exists w2, m2. by rewrite E2.
Qed.

(** C34: the replay loop always runs to the end of the log: it stops only where
    [decode] asks for more bytes, so no whole frame is left behind the offset it
    reports, and with an error only where [decode] has one. *)
Theorem replay_loop_total buf name :
  match replay_loop crc32_hash (S (length buf)) buf name [] 0 0 with
  | Ok (_, _, off) => 0 ≤ off ∧ decode crc32_hash (drop (Z.to_nat off) buf) name off = Ok None
  | Err e => ∃ off, decode crc32_hash (drop (Z.to_nat off) buf) name off = Err e
  end.
Proof.
  destruct (replay_loop _ _ _ _ _ _ _) as [[[recs mx] off]|e] eqn:E.
  - eapply replay_loop_complete; [| | exact E]; [lia | unfold zlen; lia].
  - by eapply replay_loop_err.
Qed.

(** On an open log [size_bytes] is the number of bytes of the whole log. *)
Theorem size_bytes_total m w logs s rs :
  wal_inv m w logs s rs → wal_sealed w = seg_of <$> logs →
  size_bytes w (mk_fs m []) =
    (Ok (zlen (frames crc32_hash (log_records (logs ++ [(s, rs)])))), mk_fs m []).
Proof.
  intros I Hs. unfold size_bytes. rewrite Hs.
  rewrite (size_loop_ok crc32_hash) by (intros; by eapply wal_inv_seg_file).
  do 3 f_equal. rewrite (wi_bytes _ _ _ _ _ _ I), log_records_app, log_records_one, frames_app. lens.
Qed.
End properties.

(** * Examples *)

(** A log just opened in an empty directory. *)
Definition fresh_dir : gmap string file := {[segment_name 0 := mk_file [] []]}.
Definition fresh_wal : wal :=
  mk_wal 1024 (mk_bufwriter (segment_name 0) []) (mk_segment (segment_name 0) 0 0) 0 [] [].

Lemma fresh_inv : wal_inv crc32_ieee fresh_dir fresh_wal [] 0 [].
Proof.
  split; try done.
  - apply (disk_segs_new crc32_ieee ∅), disk_segs_empty.
  - by exists [].
Qed.

(** A log with one sealed segment: two appends, the second into a new segment. *)
Definition small_wal : wal :=
  mk_wal 10 (mk_bufwriter (segment_name 0) []) (mk_segment (segment_name 0) 0 0) 0 [] [].
Definition rec_a : record := put [Byte.x61] 1 [Byte.x31].
Definition rec_b : record := put [Byte.x62] 2 [Byte.x32].

Lemma recs_fit : Forall record_fits [rec_a; rec_b].
Proof. repeat constructor; by vm_compute. Qed.
Lemma rec_a_fits : Forall record_fits [rec_a].
Proof. repeat constructor; by vm_compute. Qed.
Lemma rec_b_fits : Forall record_fits [rec_b].
Proof. repeat constructor; by vm_compute. Qed.

Lemma small_inv : wal_inv crc32_ieee fresh_dir small_wal [] 0 [].
Proof. split; [apply fresh_inv | by exists [] | done..]. Qed.

Definition outcome {A} (x : result A * (wal * fs)) : result A := x.1.
Definition run_a : result unit * (wal * fs) :=
  append crc32_ieee [rec_a] (small_wal, mk_fs fresh_dir []).
Definition run_ab : result unit * (wal * fs) := append crc32_ieee [rec_b] run_a.2.

Lemma run_eta {A} (x : result A * (wal * fs)) : x = (x.1, (x.2.1, x.2.2)).
Proof. by destruct x as [? []]. Qed.

Lemma small_lt : 10 ≤ 0 → 0 < 1.
Proof. done. Qed.
Lemma small_lt' : wal_segment_max_bytes run_a.2.1 ≤ wal_active_bytes run_a.2.1 → 0 < 2.
Proof. done. Qed.

(** The invariant of a run computed by [vm_compute]. *)
Lemma two_segments_inv :
  wal_inv crc32_ieee (fs_files run_ab.2.2) run_ab.2.1 [(0, [rec_a])] 2 [rec_b] ∧
  wal_sealed run_ab.2.1 = seg_of <$> [(0, [rec_a])] ∧ fs_faults run_ab.2.2 = [].
Proof.
  pose proof (run_eta run_a) as Ea. pose proof (run_eta run_ab) as Eb.
  unfold run_a in Ea at 1. unfold run_ab in Eb at 1. rewrite (surjective_pairing run_a.2) in Eb.
  assert (fs_faults run_a.2.2 = []) as Hq by (vm_compute; reflexivity).
  destruct (append_spec crc32_ieee fresh_dir small_wal [] 0 [] (mk_fs fresh_dir []) rec_a [] run_a.1
    run_a.2.1 run_a.2.2 small_inv eq_refl rec_a_fits small_lt Ea) as (_ & _ & l1 & s1 & r1 & m1 & f1 & C1 & _ & _ & _ & Hok1).
  destruct (Hok1 ltac:(vm_compute; reflexivity)) as [_ I1].
  destruct C1 as [(-> & -> & -> & _)|(_ & _ & _ & C1)];
    [| destruct (C1 eq_refl)].
  destruct (append_spec crc32_ieee _ _ _ _ _ run_a.2.2 rec_b [] run_ab.1 run_ab.2.1 run_ab.2.2
    I1 eq_refl rec_b_fits small_lt' Eb) as (_ & _ & l2 & s2 & r2 & m2 & f2 & C2 & _ & _ & _ & Hok2).
  assert (run_ab.1 = Ok tt) as Hr by (vm_compute; reflexivity).
  destruct (Hok2 Hr) as [_ I2].
  destruct C2 as [(_ & _ & _ & C2)|(-> & -> & -> & _)].
  - assert (wal_active_bytes run_a.2.1 = 27) as Hb by (vm_compute; reflexivity).
    assert (wal_segment_max_bytes run_a.2.1 = 10) as Hm by (vm_compute; reflexivity).
    specialize (C2 Hr). lia.
  - split; [exact I2 |]. split; vm_compute; reflexivity.
Qed.

(** The disk fails after forty bytes of the batch; thirty-five survive the crash. *)
Definition run_fail : result unit * (wal * fs) :=
  append crc32_ieee [rec_a; rec_b] (fresh_wal, mk_fs fresh_dir [Fails 40]).

Lemma run_fail_eta :
  append crc32_ieee [rec_a; rec_b] (fresh_wal, mk_fs fresh_dir [Fails 40]) =
    (run_fail.1, (run_fail.2.1, run_fail.2.2)).
Proof. exact (run_eta run_fail). Qed.
Lemma fresh_lt : wal_segment_max_bytes fresh_wal ≤ wal_active_bytes fresh_wal → 0 < lsn rec_a.
Proof. done. Qed.

Lemma append_crash_open_witness :
  run_fail.1 = Err io_error ∧
  ∃ kept w2 m2 mx, kept `prefix_of` [rec_a; rec_b] ∧
    open crc32_ieee read_dir_keys 1024 0 (crash_at (λ _, 35%nat) run_fail.2.2) =
      (Ok (w2, mk_replay (base.filter (λ r, 0 < lsn r) kept) mx), mk_fs m2 []).
Proof.
  split; [vm_compute; reflexivity |].
  pose proof (append_crash_open crc32_ieee read_dir_keys fresh_dir fresh_wal [] 0 []
    (mk_fs fresh_dir [Fails 40]) rec_a [rec_b] run_fail.1 run_fail.2.1 run_fail.2.2
    (crash_at (λ _, 35%nat) run_fail.2.2) 1024 0
    crc32_ieee_u32 read_dir_keys_perm fresh_inv eq_refl recs_fit fresh_lt
    run_fail_eta (crash_at_crash _ _) eq_refl) as H.
  destruct H as [_ (kept & Hpre & _ & w2 & m2 & l2 & s2 & r2 & E & _)].
  exists kept, w2, m2. eexists. split; [exact Hpre | exact E].
Defined.

Definition run_cut : result unit * (wal * fs) := truncate_through 1 run_ab.2.

Lemma run_cut_eta :
  truncate_through 1 (run_ab.2.1, run_ab.2.2) = (run_cut.1, (run_cut.2.1, run_cut.2.2)).
Proof. rewrite <- surjective_pairing. exact (run_eta run_cut). Qed.

Lemma truncate_crash_open_witness :
  (run_cut.1 = Ok tt ∧ fs_files run_cut.2.2 !! segment_name 0 = None) ∧
  ∃ w2 m2 mx, open crc32_ieee read_dir_keys 10 1 (crash_at (λ _, 0%nat) run_cut.2.2) =
    (Ok (w2, mk_replay [rec_b] mx), mk_fs m2 []).
Proof.
  destruct two_segments_inv as (I & Hs & Hq).
  pose proof (truncate_crash_open crc32_ieee read_dir_keys 1 run_ab.2.1 run_ab.2.2
    [(0, [rec_a])] 2 [rec_b] run_cut.1 run_cut.2.1 run_cut.2.2
    (crash_at (λ _, 0%nat) run_cut.2.2) 10
    crc32_ieee_u32 read_dir_keys_perm I Hs run_cut_eta (crash_at_crash _ _) eq_refl) as H.
  destruct H as [(w2 & m2 & l2 & mx & E & _) Hok]. split.
  - destruct (Hok Hq) as [Hr Hx]. split; [exact Hr |].
    exact (Hx (0, [rec_a]) (proj2 (list_elem_of_singleton _ _) eq_refl)).
  - exists w2, m2, mx. exact E.
Defined.

Lemma append_ok_witness :
  ∃ w' m', append crc32_ieee [rec_a] (fresh_wal, mk_fs fresh_dir []) = (Ok tt, (w', mk_fs m' [])).
Proof.
  destruct (append_ok crc32_ieee fresh_dir fresh_wal [] 0 [] rec_a [] fresh_inv rec_a_fits
    fresh_lt) as (w' & m' & _ & _ & _ & E & _).
  exists w', m'. exact E.
Defined.

(** A segment whose last frame is cut. *)
Definition torn_dir : gmap string file :=
  {[segment_name 0 := mk_file (encode crc32_ieee rec_a [] ++ take 11 (encode crc32_ieee rec_b [])) []]}.

Lemma torn_dir_segs :
  disk_segs crc32_ieee torn_dir [(0, [rec_a], take 11 (encode crc32_ieee rec_b []))].
Proof.
  pose proof (disk_segs_new crc32_ieee ∅ (disk_segs_empty _)) as D.
  apply (disk_segs_set crc32_ieee _ [] [] 0 [] [] [rec_a] (take 11 (encode crc32_ieee rec_b []))) in D;
    [| exact rec_a_fits |].
  - unfold torn_dir. by rewrite insert_insert_eq in D.
  - intros segment offset. rewrite encode_frame. apply decode_frame_cut.
    + exact crc32_ieee_u32.
    + apply (Forall_inv rec_b_fits).
    + by vm_compute.
Qed.

Lemma open_torn_directory_witness :
  ∃ w m' mx, open crc32_ieee read_dir_keys 1024 0 (mk_fs torn_dir []) =
    (Ok (w, mk_replay [rec_a] mx), mk_fs m' []).
Proof.
  destruct (open_torn_directory crc32_ieee read_dir_keys torn_dir _ 1024 0 (mk_fs ∅ [])
    crc32_ieee_u32 read_dir_keys_perm torn_dir_segs eq_refl)
    as (w & m' & _ & _ & _ & [recs mx] & E & Hrecs & _).
  exists w, m', mx. rewrite E. simpl in Hrecs. rewrite Hrecs. reflexivity.
Defined.

Lemma size_bytes_total_witness :
  size_bytes run_ab.2.1 (mk_fs (fs_files run_ab.2.2) []) =
    (Ok (zlen (frames crc32_ieee [rec_a; rec_b])), mk_fs (fs_files run_ab.2.2) []).
Proof.
  destruct two_segments_inv as (I & Hs & _).
  exact (size_bytes_total crc32_ieee _ _ _ _ _ I Hs).
Defined.

Definition big_rec : record := put [Byte.x61] 1 (replicate (Z.to_nat BUF_CAPACITY) Byte.x00).

(** What [append] does not promise. A batch of at least the writer's buffer
    size goes to the file directly; when that write fails part way, as on a full
    disk, the bytes already out stay in the middle of the segment. The next
    [append] returns [Ok], and its record is lost: [replay_segment] stops at the
    torn frame, and [open] then cuts the acknowledged record off the file. *)
Theorem torn_append_loses_next :
  let run1 := append crc32_ieee [big_rec] (fresh_wal, mk_fs fresh_dir [Fails 100]) in
  let run2 := append crc32_ieee [rec_b] run1.2 in
  let run3 := open crc32_ieee read_dir_keys 1024 0 run2.2.2 in
  run1.1 = Err io_error ∧ run2.1 = Ok tt ∧
  (replay_records ∘ snd <$> run3.1) = Ok [] ∧
  contents <$> (fs_files run3.2 !! segment_name 0) = Some [].
Proof. vm_compute. done. Qed.
