(* ===== verification/Memtable.v ===== *)
(** [src/src/memtable.rs]: the row tier's memory.

    The ordered map under a memtable is [crossbeam_skiplist::SkipMap], third-party
    code: the class [SkipMap] lists the methods the memtable calls, [SkipMapLaws]
    what their documentation promises, and every definition and theorem is about
    any implementation. [insert] and [freeze] hold the lock of the set, so a run
    is a sequence of whole calls. An [Arc] is a number, its address: [retire]
    compares addresses, not contents. *)

From S2P Require Import Prelude RecordModel.

(** * Data *)

Record Entry : Type := mk_entry { e_lsn : Lsn; e_op : Op; e_value : bytes }.

Inductive Lookup : Type :=
| Found (value : bytes)
| Deleted
| Missing.

#[export] Instance Entry_eq_dec : EqDecision Entry.
Proof. solve_decision. Defined.
#[export] Instance Lookup_eq_dec : EqDecision Lookup.
Proof. solve_decision. Defined.

(** * The ordered map *)

Class SkipMap (T : Type) : Type := {
  sm_new : T;
  sm_get : bytes → T → option Entry;
  sm_compare_insert : bytes → Entry → (Entry → bool) → T → T;
  sm_iter : T → list (bytes * Entry);
  sm_len : T → Z;
  sm_is_empty : T → bool;
}.

(** [compare_insert] replaces an entry that is there only when the test on it
    says so; iteration is in key order, each key once. *)
Class SkipMapLaws (T : Type) `{SkipMap T} : Prop := {
  sm_get_new k : sm_get k sm_new = None;
  sm_get_insert_eq k e cmp m :
    sm_get k (sm_compare_insert k e cmp m) =
      match sm_get k m with
      | Some e0 => Some (if cmp e0 then e else e0)
      | None => Some e
      end;
  sm_get_insert_ne k k' e cmp m :
    k ≠ k' → sm_get k' (sm_compare_insert k e cmp m) = sm_get k' m;
  sm_iter_sorted m : StronglySorted bytes_lt (sm_iter m).*1;
  sm_iter_get k e m : (k, e) ∈ sm_iter m ↔ sm_get k m = Some e;
  sm_len_iter m : sm_len m = zlen (sm_iter m);
  sm_is_empty_iter m : sm_is_empty m = true ↔ sm_iter m = [];
}.

Section memtable.
Context {T : Type} `{SkipMap T}.

(** * [Memtable] *)

Record Memtable : Type := mk_memtable {
  mt_map : T;
  mt_approx_bytes : Z;
  mt_max_lsn : Lsn;
}.

Definition mt_new : Memtable := mk_memtable sm_new 0 0.

Definition mt_insert (rec : record) (m : Memtable) : Memtable :=
  let size := heap_size rec in
  let l := lsn rec in
  {| mt_map := sm_compare_insert (key rec) (mk_entry l (op rec) (value rec))
                 (λ existing, e_lsn existing <? l) (mt_map m);
     mt_approx_bytes := as_u64 (mt_approx_bytes m + size);
     mt_max_lsn := mt_max_lsn m `max` l |}.

Definition mt_get (k : bytes) (m : Memtable) : Lookup :=
  match sm_get k (mt_map m) with
  | None => Missing
  | Some e => match e_op e with
              | Put => Found (e_value e)
              | Delete => Deleted
              end
  end.

Definition mt_len (m : Memtable) : Z := sm_len (mt_map m).
Definition mt_is_empty (m : Memtable) : bool := sm_is_empty (mt_map m).
Definition mt_iter (m : Memtable) : list (bytes * Entry) := sm_iter (mt_map m).

(** * [MemtableSet] *)

(** [Arc<Memtable>]. *)
Record arc : Type := mk_arc { arc_ptr : nat; arc_mt : Memtable }.

(** [inner] with the limits; [ms_fresh] is the allocator: addresses from it on
    are not in use. *)
Record MemtableSet : Type := mk_set {
  ms_active : arc;
  ms_frozen : list arc;
  ms_max_bytes : Z;
  ms_max_frozen : Z;
  ms_fresh : nat;
}.

(** [MemtableSet::new]; [None] is the panic of its [assert!]. *)
Definition ms_new (max_bytes max_frozen : Z) : option MemtableSet :=
  if 0 <? max_frozen
  then Some (mk_set (mk_arc 0 mt_new) [] max_bytes max_frozen 1)
  else None.

Definition ms_insert (rec : record) (s : MemtableSet) : MemtableSet :=
  mk_set (mk_arc (arc_ptr (ms_active s)) (mt_insert rec (arc_mt (ms_active s))))
    (ms_frozen s) (ms_max_bytes s) (ms_max_frozen s) (ms_fresh s).

(** The loop over the frozen memtables, newest first. *)
Fixpoint get_frozen (k : bytes) (l : list arc) : Lookup :=
  match l with
  | [] => Missing
  | a :: l => match mt_get k (arc_mt a) with
              | Missing => get_frozen k l
              | hit => hit
              end
  end.

Definition ms_get (k : bytes) (s : MemtableSet) : Lookup :=
  match mt_get k (arc_mt (ms_active s)) with
  | Missing => get_frozen k (reverse (ms_frozen s))
  | hit => hit
  end.

Definition ms_should_freeze (s : MemtableSet) : bool :=
  ms_max_bytes s <=? mt_approx_bytes (arc_mt (ms_active s)).

Definition ms_stalled (s : MemtableSet) : bool := ms_max_frozen s <=? zlen (ms_frozen s).

Definition ms_freeze : M MemtableSet (option arc) := λ s,
  if ms_max_frozen s <=? zlen (ms_frozen s)
  then (Err (WriteStalled (zlen (ms_frozen s))), s)
  else if mt_is_empty (arc_mt (ms_active s)) then (Ok None, s)
  else
    let frozen := ms_active s in
    (Ok (Some frozen),
     mk_set (mk_arc (ms_fresh s) mt_new) (ms_frozen s ++ [frozen])
       (ms_max_bytes s) (ms_max_frozen s) (S (ms_fresh s))).

Definition ms_retire (flushed : arc) (s : MemtableSet) : MemtableSet :=
  mk_set (ms_active s) (base.filter (λ a, arc_ptr a ≠ arc_ptr flushed) (ms_frozen s))
    (ms_max_bytes s) (ms_max_frozen s) (ms_fresh s).

Definition ms_frozen_count (s : MemtableSet) : Z := zlen (ms_frozen s).

Definition ms_approx_bytes (s : MemtableSet) : Z :=
  as_u64 (mt_approx_bytes (arc_mt (ms_active s)) +
          fold_left (λ n a, as_u64 (n + mt_approx_bytes (arc_mt a))) (ms_frozen s) 0).
End memtable.

Arguments Memtable T : clear implicits.
Arguments arc T : clear implicits.
Arguments MemtableSet T : clear implicits.

(** * The newest record of a key *)

(** What a log of records says about a key: the record with the highest LSN, the
    first of them if an LSN occurs twice. This is the specification of the tier. *)
Fixpoint newest_from (best : option record) (k : bytes) (rs : list record) : option record :=
  match rs with
  | [] => best
  | r :: rs =>
    newest_from
      (if decide (key r = k)
       then match best with
            | Some b => if lsn b <? lsn r then Some r else best
            | None => Some r
            end
       else best) k rs
  end.
Definition newest : bytes → list record → option record := newest_from None.

Definition entry_of (r : record) : Entry := mk_entry (lsn r) (op r) (value r).

Definition answer (r : option record) : Lookup :=
  match r with
  | None => Missing
  | Some r => match op r with Put => Found (value r) | Delete => Deleted end
  end.

(** [r] is the record of key [k] with the highest LSN. *)
Definition is_newest (k : bytes) (rs : list record) (r : record) : Prop :=
  r ∈ rs ∧ key r = k ∧ ∀ r', r' ∈ rs → key r' = k → lsn r' ≤ lsn r.

Definition newer (a b : option record) : option record :=
  match a, b with
  | Some a, Some b => if lsn a <? lsn b then Some b else Some a
  | None, b => b
  | a, None => a
  end.

Lemma newer_assoc a b c : newer (newer a b) c = newer a (newer b c).
Proof.
  destruct a as [a|], b as [b|], c as [c|]; simpl; try done;
    repeat (case_match; simpl); simplify_eq; zbool; done || lia.
Qed.

Lemma newest_from_newer best k rs : newest_from best k rs = newer best (newest k rs).
Proof.
  unfold newest. revert best. induction rs as [|r rs IH]; intros best; simpl.
  { by destruct best. }
  rewrite IH, (IH (if decide (key r = k) then Some r else None)), <- newer_assoc.
  f_equal. case_decide; by destruct best.
Qed.

Lemma newest_app k rs1 rs2 : newest k (rs1 ++ rs2) = newer (newest k rs1) (newest k rs2).
Proof.
  rewrite <- newest_from_newer. unfold newest. generalize (@None record).
  induction rs1 as [|r rs1 IH]; intros best; simpl; [done |]. apply IH.
Qed.

Lemma newest_cons k r rs :
  newest k (r :: rs) = newer (if decide (key r = k) then Some r else None) (newest k rs).
Proof.
  change (r :: rs) with ([r] ++ rs). rewrite newest_app. done.
Qed.

Lemma is_newest_keep k rs r b :
  is_newest k rs b → (key r = k → lsn r ≤ lsn b) → is_newest k (r :: rs) b.
Proof.
  intros (Hb & Hk & Hmax) Hr. split; [by right |]. split; [done |].
  intros r' Hr' ?. apply elem_of_cons in Hr' as [->|Hr']; auto.
Qed.

Lemma is_newest_take r rs :
  (∀ r', r' ∈ rs → key r' = key r → lsn r' ≤ lsn r) → is_newest (key r) (r :: rs) r.
Proof.
  intros Hmax. split; [by left |]. split; [done |].
  intros r' Hr' ?. apply elem_of_cons in Hr' as [->|Hr']; [lia | auto].
Qed.

Lemma newest_spec k rs :
  match newest k rs with
  | Some r => is_newest k rs r
  | None => ∀ r, r ∈ rs → key r ≠ k
  end.
Proof.
  induction rs as [|r rs IH]; [intros r Hr; by apply elem_of_nil in Hr |].
  rewrite newest_cons. destruct (newest k rs) as [b|]; case_decide as Hk; simpl.
  - destruct (lsn r <? lsn b) eqn:E; zbool; [by apply is_newest_keep; [| lia] |].
    subst k. apply is_newest_take. intros r' Hr' Hk'.
    destruct IH as (_ & _ & Hmax). specialize (Hmax r' Hr' Hk'). lia.
  - by apply is_newest_keep.
  - subst k. apply is_newest_take. intros r' Hr' Hk'. by apply IH in Hr'.
  - intros r' Hr'. apply elem_of_cons in Hr' as [->|Hr']; auto.
Qed.

Lemma newest_elem k rs r : newest k rs = Some r → is_newest k rs r.
Proof. intros E. pose proof (newest_spec k rs) as H. by rewrite E in H. Qed.

Lemma newest_None k rs : newest k rs = None ↔ ∀ r, r ∈ rs → key r ≠ k.
Proof.
  pose proof (newest_spec k rs) as H. split; [by intros E; rewrite E in H |].
  intros Hn. destruct (newest k rs) as [r|]; [| done]. destruct H as (Hr & Hk & _).
  by apply Hn in Hr.
Qed.

(** With one record per LSN the newest record is determined by the set of records. *)
Lemma newest_unique k rs r :
  (∀ r1 r2, r1 ∈ rs → r2 ∈ rs → key r1 = key r2 → lsn r1 = lsn r2 → r1 = r2) →
  is_newest k rs r → newest k rs = Some r.
Proof.
  intros Hu (Hr & Hk & Hmax). pose proof (newest_spec k rs) as H.
  destruct (newest k rs) as [b|]; [| by apply H in Hr].
  destruct H as (Hb & Hkb & Hmaxb). f_equal. apply Hu; [done | done | congruence |].
  specialize (Hmax b Hb Hkb). specialize (Hmaxb r Hr Hk). lia.
Qed.

Lemma newest_perm k rs rs' :
  rs ≡ₚ rs' → NoDup (lsn <$> rs) → newest k rs = newest k rs'.
Proof.
  intros Hp Hnd.
  assert (∀ r1 r2, r1 ∈ rs' → r2 ∈ rs' → key r1 = key r2 → lsn r1 = lsn r2 → r1 = r2) as Hu.
  { intros r1 r2. rewrite <- Hp. intros H1 H2 _ E. by apply (NoDup_fmap_elem lsn rs). }
  destruct (newest k rs) as [r|] eqn:E.
  - apply newest_elem in E as (Hr & Hk & Hmax). symmetry. apply newest_unique; [done |].
    split; [by rewrite <- Hp |]. split; [done |]. intros r'. rewrite <- Hp. apply Hmax.
  - symmetry. rewrite newest_None in *. intros r. rewrite <- Hp. apply E.
Qed.

(** * Lemmas *)

Section lemmas.
Context {T : Type} `{SkipMapLaws T}.
Implicit Types (m : Memtable T) (s : MemtableSet T).

(** [m] holds the records [rs], inserted in this order. *)
Definition mt_holds m (rs : list record) : Prop :=
  (∀ k, sm_get k (mt_map m) = entry_of <$> newest k rs) ∧ mt_max_lsn m = max_lsn_of rs.

Lemma mt_new_holds : mt_holds mt_new [].
Proof. split; [apply sm_get_new | done]. Qed.

Lemma mt_insert_holds m rs r : mt_holds m rs → mt_holds (mt_insert r m) (rs ++ [r]).
Proof.
  intros [Hg Hm]. split; simpl.
  - intros k. rewrite newest_app, newest_cons. change (newest k []) with (@None record).
    case_decide as Hk.
    + subst k. rewrite sm_get_insert_eq, Hg. destruct (newest (key r) rs) as [b|]; [| done].
      simpl. by destruct (lsn b <? lsn r).
    + rewrite sm_get_insert_ne, Hg by done. by destruct (newest k rs).
  - rewrite max_lsn_of_app, Hm. simpl. pose proof (max_lsn_of_nonneg rs). lia.
Qed.

Lemma mt_get_holds m rs k : mt_holds m rs → mt_get k m = answer (newest k rs).
Proof.
  intros [Hg _]. unfold mt_get. rewrite Hg. destruct (newest k rs) as [r|]; simpl; [| done].
  by destruct (op r).
Qed.

Lemma mt_is_empty_holds m rs : mt_holds m rs → mt_is_empty m = true ↔ rs = [].
Proof.
  intros [Hg _]. unfold mt_is_empty. rewrite sm_is_empty_iter. split.
  - intros E. destruct rs as [|r rs]; [done |]. exfalso.
    destruct (newest (key r) (r :: rs)) as [b|] eqn:Hn.
    + assert ((key r, entry_of b) ∈ sm_iter (mt_map m)) as Hin
        by (apply sm_iter_get; rewrite Hg, Hn; done).
      rewrite E in Hin. by apply elem_of_nil in Hin.
    + rewrite newest_None in Hn. by apply (Hn r); [left |].
  - intros ->. destruct (sm_iter (mt_map m)) as [|[k e] l] eqn:E; [done |].
    assert ((k, e) ∈ sm_iter (mt_map m)) as Hin by (rewrite E; left).
    apply sm_iter_get in Hin. by rewrite Hg in Hin.
Qed.

Lemma mt_iter_holds m rs k e :
  mt_holds m rs → (k, e) ∈ mt_iter m ↔ ∃ r, newest k rs = Some r ∧ e = entry_of r.
Proof.
  intros [Hg _]. unfold mt_iter. rewrite sm_iter_get, Hg, fmap_Some. done.
Qed.

Lemma mt_run_holds rs m rs0 :
  mt_holds m rs0 → mt_holds (fold_left (λ m r, mt_insert r m) rs m) (rs0 ++ rs).
Proof.
  revert m rs0. induction rs as [|r rs IH]; intros m rs0 Hm; simpl.
  - by rewrite app_nil_r.
  - rewrite cons_middle, app_assoc. apply IH. by apply mt_insert_holds.
Qed.

(** A set of memtables: [act] is in the active one, [fro] in the frozen ones,
    oldest first. Addresses are unique and the frozen queue is within its bound. *)
Record ms_holds s (fro : list (list record)) (act : list record) : Prop := {
  mh_active : mt_holds (arc_mt (ms_active s)) act;
  mh_frozen : Forall2 (λ a rs, mt_holds (arc_mt a) rs) (ms_frozen s) fro;
  mh_ptrs : NoDup (arc_ptr <$> ms_active s :: ms_frozen s);
  mh_fresh : Forall (λ a, (arc_ptr a < ms_fresh s)%nat) (ms_active s :: ms_frozen s);
  mh_bound : zlen (ms_frozen s) ≤ ms_max_frozen s;
}.

Lemma ms_new_holds max_bytes max_frozen s :
  ms_new max_bytes max_frozen = Some s → ms_holds s [] [] ∧ ms_max_bytes s = max_bytes ∧
    ms_max_frozen s = max_frozen ∧ 0 < max_frozen.
Proof.
  unfold ms_new. case_match; [| done]. intros [= <-]. zbool. split; [| done].
  split; simpl; [apply mt_new_holds | constructor | | | rewrite zlen_nil; lia].
  - apply NoDup_singleton.
  - repeat constructor.
Qed.

Lemma ms_insert_holds s fro act r :
  ms_holds s fro act → ms_holds (ms_insert r s) fro (act ++ [r]).
Proof.
  intros [Ha Hf Hp Hn Hb]. split; simpl; try done.
  - by apply mt_insert_holds.
  - apply Forall_cons in Hn as [? ?]. by constructor.
Qed.

(** The order of the inserts does not show. *)
Lemma mt_holds_perm m rs rs' : rs ≡ₚ rs' → NoDup (lsn <$> rs) → mt_holds m rs → mt_holds m rs'.
Proof.
  intros Hp Hnd [Hg Hm]. split.
  - intros k. by rewrite Hg, (newest_perm k rs rs').
  - by rewrite Hm, (max_lsn_of_perm rs rs').
Qed.

Lemma ms_holds_perm s fro act act' :
  act ≡ₚ act' → NoDup (lsn <$> act) → ms_holds s fro act → ms_holds s fro act'.
Proof. intros Hp Hnd [Ha Hf Hpt Hn Hb]. split; try done. by eapply mt_holds_perm. Qed.

(** The answer of the layers, newest first: the first that is not [Missing]. *)
Fixpoint first_hit (k : bytes) (layers : list (list record)) : option record :=
  match layers with
  | [] => None
  | rs :: layers => match newest k rs with Some r => Some r | None => first_hit k layers end
  end.

Lemma answer_match o l :
  match answer o with Missing => l | hit => hit end =
  match o with Some r => answer (Some r) | None => l end.
Proof. destruct o as [r|]; simpl; [by destruct (op r) | done]. Qed.

Lemma get_frozen_holds k l fro :
  Forall2 (λ a rs, mt_holds (arc_mt a) rs) l fro → get_frozen k l = answer (first_hit k fro).
Proof.
  induction 1 as [|a rs l fro Ha Hl IH]; simpl; [done |].
  rewrite (mt_get_holds _ _ _ Ha), answer_match, IH. by destruct (newest k rs).
Qed.

Lemma ms_get_holds s fro act k :
  ms_holds s fro act → ms_get k s = answer (first_hit k (act :: reverse fro)).
Proof.
  intros [Ha Hf _ _ _]. unfold ms_get.
  rewrite (mt_get_holds _ _ _ Ha), answer_match. simpl.
  rewrite (get_frozen_holds k _ (reverse fro)) by (by apply Forall2_reverse).
  by destruct (newest k act).
Qed.

(** Every record of an older layer is older than the records of its key in the
    newer layers. *)
Definition layers_ordered (layers : list (list record)) : Prop :=
  StronglySorted (λ older newer, ∀ r r',
    r ∈ older → r' ∈ newer → key r = key r' → lsn r < lsn r') layers.

Lemma newest_layer k rs1 rs2 :
  (∀ r r', r ∈ rs1 → r' ∈ rs2 → key r = key r' → lsn r < lsn r') →
  newest k (rs1 ++ rs2) = match newest k rs2 with Some r => Some r | None => newest k rs1 end.
Proof.
  intros Hlt. rewrite newest_app. destruct (newest k rs1) as [a|] eqn:Ea;
    destruct (newest k rs2) as [b|] eqn:Eb; simpl; try done.
  apply newest_elem in Ea as (Ha & Hka & _). apply newest_elem in Eb as (Hb & Hkb & _).
  by rewrite (proj2 (Z.ltb_lt _ _)) by (apply Hlt; congruence).
Qed.

Lemma first_hit_app k l1 l2 :
  first_hit k (l1 ++ l2) =
    match first_hit k l1 with Some r => Some r | None => first_hit k l2 end.
Proof. induction l1 as [|rs l1 IH]; simpl; [done |]. rewrite IH. by destruct (newest k rs). Qed.

Lemma first_hit_newest k layers :
  layers_ordered layers → first_hit k (reverse layers) = newest k (concat layers).
Proof.
  induction 1 as [|rs layers Hl IH Hall]; [done |].
  rewrite reverse_cons, first_hit_app, IH. simpl. rewrite newest_layer.
  - destruct (newest k (concat layers)); [done |]. by destruct (newest k rs).
  - rewrite Forall_forall in Hall. intros r r' Hr Hr'.
    apply elem_of_concat in Hr' as (l & Hin & Hr'). by apply (Hall l).
Qed.

Lemma ms_freeze_holds s fro act :
  ms_holds s fro act →
  match ms_freeze s with
  | (Err e, s') => e = WriteStalled (zlen fro) ∧ ms_stalled s = true ∧ s' = s
  | (Ok None, s') => act = [] ∧ ms_stalled s = false ∧ s' = s
  | (Ok (Some a), s') =>
    act ≠ [] ∧ ms_stalled s = false ∧ a = ms_active s ∧ mt_holds (arc_mt a) act ∧
    ms_frozen s' = ms_frozen s ++ [a] ∧ ms_holds s' (fro ++ [act]) [] ∧
    ms_max_bytes s' = ms_max_bytes s ∧ ms_max_frozen s' = ms_max_frozen s
  end.
Proof.
  intros I. pose proof I as [Ha Hf Hp Hn Hb]. unfold ms_freeze, ms_stalled.
  assert (zlen (ms_frozen s) = zlen fro) as Hlen
    by (unfold zlen; by rewrite (Forall2_length _ _ _ Hf)).
  destruct (_ <=? _) eqn:E; [by rewrite Hlen |]. zbool.
  destruct (mt_is_empty _) eqn:Ee.
  { split; [by apply (mt_is_empty_holds _ _ Ha) | done]. }
  split; [intros ->; by rewrite (proj2 (mt_is_empty_holds _ _ Ha)) in Ee |].
  split_and!; try done. split; simpl.
  - apply mt_new_holds.
  - apply Forall2_app; [done |]. constructor; [done | constructor].
  - rewrite fmap_cons, NoDup_cons in Hp. destruct Hp as [Hp1 Hp2].
    rewrite Forall_cons in Hn. destruct Hn as [Hn1 Hn2].
    constructor.
    + rewrite fmap_app, elem_of_app. simpl. rewrite list_elem_of_singleton.
      intros [Hin|Heq]; [| lia]. apply list_elem_of_fmap in Hin as (x & Hx & Hin).
      rewrite Forall_forall in Hn2. apply Hn2 in Hin. lia.
    + rewrite fmap_app. apply NoDup_app. split; [done |]. simpl.
      split; [| apply NoDup_singleton]. intros x Hx Hx'.
      apply list_elem_of_singleton in Hx' as ->. done.
  - constructor; simpl; [lia |]. rewrite Forall_cons in Hn. destruct Hn as [Hn1 Hn2].
    apply Forall_app. split; [| repeat constructor; lia].
    eapply Forall_impl; [done |]. simpl. lia.
  - rewrite zlen_app, zlen_cons, zlen_nil. lia.
Qed.

Lemma retire_keeps (a : arc T) (l : list (arc T)) :
  arc_ptr a ∉ (arc_ptr <$> l) → base.filter (λ x, arc_ptr x ≠ arc_ptr a) l = l.
Proof.
  intros Ha. apply filter_all. intros x Hx E. apply Ha. rewrite <- E.
  by apply list_elem_of_fmap_2.
Qed.

(** Retiring a frozen memtable takes it, and nothing else, out of the queue. *)
Lemma ms_retire_holds s l1 a l2 fro1 rs fro2 act :
  ms_holds s (fro1 ++ rs :: fro2) act → ms_frozen s = l1 ++ a :: l2 → length l1 = length fro1 →
  ms_holds (ms_retire a s) (fro1 ++ fro2) act ∧ ms_frozen (ms_retire a s) = l1 ++ l2.
Proof.
  intros [Ha Hf Hp Hn Hb] El Hlen. rewrite El in *.
  assert (ms_frozen (ms_retire a s) = l1 ++ l2) as Er.
  { simpl. rewrite El, filter_app, filter_cons, decide_False by auto.
    rewrite fmap_cons, fmap_app, fmap_cons, NoDup_cons, NoDup_app, NoDup_cons in Hp.
    destruct Hp as (_ & _ & H1 & H2 & _).
    rewrite !retire_keeps; [done | done |]. intros Hin. apply (H1 _ Hin). by left. }
  split; [| done]. split; rewrite ?Er; simpl; [done | | | |].
  - apply Forall2_app_inv in Hf as [H1 H2]; [| done]. apply Forall2_app; [done |].
    by inv H2.
  - rewrite fmap_cons, !fmap_app, fmap_cons in *. rewrite NoDup_cons in *.
    rewrite NoDup_app, NoDup_cons in *. rewrite elem_of_app, elem_of_cons in Hp.
    rewrite elem_of_app. destruct Hp as (Hp0 & H1 & H2 & H3 & H4).
    split; [tauto |]. split; [done |]. split; [| done].
    intros x Hx Hx'. apply (H2 x Hx). by right.
  - rewrite Forall_cons, !Forall_app, Forall_cons in *. tauto.
  - autorewrite with hg_len in *. lia.
Qed.
End lemmas.
