(* ===== verification/MemtableProps.v ===== *)
(** The properties of the memtables ([src/src/memtable.rs]), and an ordered map on
    [gmap] that satisfies the laws of [SkipMap], for the examples. *)

From S2P Require Import Prelude RecordModel Memtable.

(** * An implementation of the ordered map *)

Definition key_leb (a b : bytes * Entry) : bool := bytes_leb a.1 b.1.

#[export] Instance gmap_skipmap : SkipMap (gmap bytes Entry) := {
  sm_new := ∅;
  sm_get k m := m !! k;
  sm_compare_insert k e cmp m :=
    match m !! k with
    | Some e0 => if cmp e0 then <[k := e]> m else m
    | None => <[k := e]> m
    end;
  sm_iter m := sort_by key_leb (map_to_list m);
  sm_len m := zlen (map_to_list m);
  sm_is_empty m := match map_to_list m with [] => true | _ => false end;
}.

Lemma key_leb_total a b : key_leb a b = true ∨ key_leb b a = true.
Proof.
  unfold key_leb. rewrite !bytes_leb_le. unfold bytes_le. rewrite (bytes_cmp_opp a.1 b.1).
  destruct (bytes_cmp a.1 b.1); naive_solver.
Qed.
Lemma key_leb_trans a b c : key_leb a b = true → key_leb b c = true → key_leb a c = true.
Proof. unfold key_leb. rewrite !bytes_leb_le. apply bytes_le_trans. Qed.

Lemma key_sorted_strict (l : list (bytes * Entry)) :
  leb_sorted key_leb l → NoDup l.*1 → StronglySorted bytes_lt l.*1.
Proof.
  induction 1 as [|x l Hl IH Hall]; simpl; [constructor |]. rewrite NoDup_cons.
  intros [Hx Hnd]. constructor; [by apply IH |]. apply Forall_forall. intros k Hk.
  apply list_elem_of_fmap in Hk as (y & -> & Hy). rewrite Forall_forall in Hall.
  specialize (Hall y Hy). unfold key_leb in Hall. rewrite bytes_leb_le, bytes_le_lt_eq in Hall.
  destruct Hall as [?|E]; [done |]. rewrite E in Hx. by destruct Hx; apply list_elem_of_fmap_2.
Qed.

#[export] Instance gmap_skipmap_laws : SkipMapLaws (gmap bytes Entry).
Proof.
  split; unfold sm_get, sm_new, sm_compare_insert, sm_iter, sm_len, sm_is_empty, gmap_skipmap.
  - intros k. apply lookup_empty.
  - intros k e cmp m. destruct (m !! k) as [e0|] eqn:E; [| apply lookup_insert_eq].
    destruct (cmp e0); [apply lookup_insert_eq | done].
  - intros k k' e cmp m Hne. destruct (m !! k) as [e0|]; [| by apply lookup_insert_ne].
    destruct (cmp e0); [by apply lookup_insert_ne | done].
  - intros m. apply key_sorted_strict.
    + apply sort_by_sorted; [apply key_leb_total | apply key_leb_trans].
    + rewrite sort_by_perm. apply NoDup_fst_map_to_list.
  - intros k e m. rewrite sort_by_perm. apply elem_of_map_to_list.
  - intros m. unfold zlen. by rewrite (sort_by_perm key_leb).
  - intros m. destruct (map_to_list m) as [|x l] eqn:E; [done |]. split; [done |].
    intros Hs. pose proof (sort_by_perm key_leb (x :: l)) as Hp. rewrite Hs in Hp.
    by apply Permutation_nil_cons in Hp.
Qed.

(** * Properties *)

Section properties.
Context {T : Type} `{SkipMapLaws T}.
Implicit Types (m : Memtable T) (s : MemtableSet T).

Definition mt_run (rs : list record) : Memtable T := fold_left (λ m r, mt_insert r m) rs mt_new.

(** A memtable is the map from keys to their newest records. After any
    sequence of inserts a key's answer is that of the record with the highest LSN,
    a tombstone answering [Deleted] and never [Missing], and [max_lsn] is the
    highest LSN of all records, those that lost included. *)
Theorem memtable_newest rs k :
  mt_get k (mt_run rs) = answer (newest k rs) ∧
  mt_max_lsn (mt_run rs) = max_lsn_of rs ∧
  (mt_get k (mt_run rs) = Missing ↔ ∀ r, r ∈ rs → key r ≠ k).
Proof.
  pose proof (mt_run_holds rs mt_new [] mt_new_holds) as Hm. simpl in Hm.
  split; [by apply mt_get_holds |]. split; [apply Hm |].
  rewrite (mt_get_holds _ _ _ Hm), <- newest_None. unfold answer.
  destruct (newest k rs) as [r|]; [| done]. by destruct (op r).
Qed.

(** LSN order decides, not arrival order: records with distinct LSNs inserted
    in any order give the same answers, the same rows for the flush and the same
    watermark. *)
Theorem memtable_order_irrelevant rs rs' k :
  rs ≡ₚ rs' → NoDup (lsn <$> rs) →
  mt_get k (mt_run rs) = mt_get k (mt_run rs') ∧
  mt_iter (mt_run rs) = mt_iter (mt_run rs') ∧
  mt_max_lsn (mt_run rs) = mt_max_lsn (mt_run rs').
Proof.
  intros Hp Hnd.
  pose proof (mt_run_holds rs mt_new [] mt_new_holds) as Hm. simpl in Hm.
  pose proof (mt_run_holds rs' mt_new [] mt_new_holds) as Hm'. simpl in Hm'.
  assert (∀ k, newest k rs = newest k rs') as Hn by (intros; by apply newest_perm).
  split; [by rewrite (mt_get_holds _ _ _ Hm), (mt_get_holds _ _ _ Hm'), Hn |]. split.
  - apply (sorted_assoc_unique bytes_lt); [apply sm_iter_sorted.. |].
    intros k' e. rewrite (mt_iter_holds _ _ _ _ Hm), (mt_iter_holds _ _ _ _ Hm'). by rewrite Hn.
  - destruct Hm as [_ Hx]. destruct Hm' as [_ Hx']. unfold mt_run. rewrite Hx, Hx'.
    by apply max_lsn_of_perm.
Qed.

(** The flush order. Iteration gives each key once, in strictly increasing
    key order, and exactly the newest record of every key, tombstones included. *)
Theorem memtable_iter_sorted rs :
  StronglySorted bytes_lt (mt_iter (mt_run rs)).*1 ∧
  (∀ k e, (k, e) ∈ mt_iter (mt_run rs) ↔ ∃ r, newest k rs = Some r ∧ e = entry_of r) ∧
  mt_len (mt_run rs) = zlen (mt_iter (mt_run rs)) ∧
  (mt_is_empty (mt_run rs) = true ↔ rs = []).
Proof.
  pose proof (mt_run_holds rs mt_new [] mt_new_holds) as Hm. simpl in Hm.
  split; [apply sm_iter_sorted |]. split; [intros; by apply mt_iter_holds |].
  split; [apply sm_len_iter | by apply mt_is_empty_holds].
Qed.

(** C27: a read of the whole row tier. When the records of a key in a newer
    memtable are newer than those in an older one, as under one writer, the set
    answers with the newest record of all memtables. *)
Theorem set_get_newest s fro act k :
  ms_holds s fro act → layers_ordered (fro ++ [act]) →
  ms_get k s = answer (newest k (concat (fro ++ [act]))).
Proof.
  intros I Ho. rewrite (ms_get_holds _ _ _ _ I), <- (first_hit_newest _ _ Ho).
  by rewrite reverse_app.
Qed.

(** [freeze] on every branch. A full queue refuses with the queue's length
    and changes nothing; an empty active memtable gives nothing; else the active
    memtable goes to the end of the queue under its own address and a fresh empty
    one takes its place. No answer changes, and the queue stays within its bound. *)
Theorem freeze_outcomes s fro act :
  ms_holds s fro act →
  let '(r, s') := ms_freeze s in
  (∀ k, ms_get k s' = ms_get k s) ∧ ms_frozen_count s' ≤ ms_max_frozen s ∧
  match r with
  | Err e => e = WriteStalled (ms_frozen_count s) ∧ ms_stalled s = true ∧ s' = s
  | Ok None => act = [] ∧ ms_stalled s = false ∧ s' = s
  | Ok (Some a) => act ≠ [] ∧ ms_stalled s = false ∧ a = ms_active s ∧
      ms_holds s' (fro ++ [act]) []
  end.
Proof.
  intros I. pose proof (ms_freeze_holds _ _ _ I) as Hf.
  pose proof (mh_bound _ _ _ I) as Hb. unfold ms_frozen_count.
  assert (zlen fro = zlen (ms_frozen s)) as Hlen.
  { unfold zlen. by rewrite (Forall2_length _ _ _ (mh_frozen _ _ _ I)). }
  destruct (ms_freeze s) as [[[a|]|e] s'].
  - destruct Hf as (Hne & Hst & -> & Ha & Hs' & I' & _ & Hmf).
    split; [| split; [rewrite <- Hmf; apply I' | done]].
    intros k. rewrite (ms_get_holds _ _ _ _ I), (ms_get_holds _ _ _ _ I').
    by rewrite reverse_app.
  - by destruct Hf as (-> & ? & ->).
  - destruct Hf as (-> & ? & ->). by rewrite Hlen.
Qed.

(** [retire] drops exactly the memtable at the given address: the others keep
    their order and the set answers from what is left. *)
Theorem retire_exact s l1 a l2 fro1 rs fro2 act k :
  ms_holds s (fro1 ++ rs :: fro2) act → ms_frozen s = l1 ++ a :: l2 → length l1 = length fro1 →
  ms_holds (ms_retire a s) (fro1 ++ fro2) act ∧
  ms_frozen (ms_retire a s) = l1 ++ l2 ∧
  ms_get k (ms_retire a s) = answer (first_hit k (act :: reverse (fro1 ++ fro2))).
Proof.
  intros I El Hlen. destruct (ms_retire_holds _ _ _ _ _ _ _ _ I El Hlen) as [I' Hf].
  split; [done |]. split; [done |]. by apply ms_get_holds.
Qed.
End properties.

(** * Examples *)

Definition k1 : bytes := [Byte.x61].
Definition k2 : bytes := [Byte.x62].
Definition v1 : bytes := [Byte.x31].
Definition v2 : bytes := [Byte.x32].

Abbreviation set0 := (mk_set (mk_arc 0 (mt_new (T := gmap bytes Entry))) [] 1000 2 1).
Definition set1 : MemtableSet (gmap bytes Entry) := ms_insert (put k1 1 v1) set0.
Definition set2 : MemtableSet (gmap bytes Entry) := (ms_freeze set1).2.
Definition set3 : MemtableSet (gmap bytes Entry) := ms_insert (delete k1 2) set2.

Lemma set1_holds : ms_holds set1 [] [put k1 1 v1].
Proof.
  apply (ms_insert_holds _ [] []). by apply (ms_new_holds 1000 2).
Qed.
Lemma set2_holds : ms_holds set2 [[put k1 1 v1]] [].
Proof.
  pose proof (ms_freeze_holds _ _ _ set1_holds) as H. unfold set2.
  assert ((ms_freeze set1).1 = Ok (Some (ms_active set1))) as E.
  { assert (mt_is_empty (arc_mt (ms_active set1)) = false) as Hne by (vm_compute; reflexivity).
    unfold ms_freeze. rewrite Hne. reflexivity. }
  destruct (ms_freeze set1) as [r s']. cbn [fst] in E. rewrite E in H.
  destruct H as (_ & _ & _ & _ & _ & I & _). exact I.
Qed.
Lemma set3_holds : ms_holds set3 [[put k1 1 v1]] [delete k1 2].
Proof. apply (ms_insert_holds _ _ [] _ set2_holds). Qed.

Lemma memtable_order_irrelevant_witness :
  mt_get k1 (mt_run (T := gmap bytes Entry) [put k1 1 v1; delete k1 3; put k1 2 v2]) =
  mt_get k1 (mt_run (T := gmap bytes Entry) [delete k1 3; put k1 2 v2; put k1 1 v1]).
Proof.
  apply (memtable_order_irrelevant (T := gmap bytes Entry)
    [put k1 1 v1; delete k1 3; put k1 2 v2] [delete k1 3; put k1 2 v2; put k1 1 v1] k1).
  - exact (Permutation_cons_append [delete k1 3; put k1 2 v2] (put k1 1 v1)).
  - apply (bool_decide_unpack _). vm_compute. exact I.
Defined.

Lemma memtable_newest_witness :
  mt_get k1 (mt_run (T := gmap bytes Entry) [put k1 3 v1; put k1 2 v2]) = Found v1.
Proof. exact (proj1 (memtable_newest (T := gmap bytes Entry) [put k1 3 v1; put k1 2 v2] k1)). Defined.

Lemma memtable_iter_sorted_witness :
  StronglySorted bytes_lt
    (mt_iter (mt_run (T := gmap bytes Entry) [put k2 1 v1; put k1 2 v2; delete k2 3])).*1.
Proof.
  exact (proj1 (memtable_iter_sorted (T := gmap bytes Entry)
    [put k2 1 v1; put k1 2 v2; delete k2 3])).
Defined.

(** The tombstone of the active memtable hides the value in the frozen one. *)
Lemma set_get_newest_witness : ms_get k1 set3 = Deleted.
Proof.
  apply (set_get_newest set3 [[put k1 1 v1]] [delete k1 2] k1 set3_holds).
  constructor; [constructor; [constructor | constructor] |].
  constructor; [| constructor]. intros r r' Hr Hr' _.
  apply list_elem_of_singleton in Hr as ->. apply list_elem_of_singleton in Hr' as ->.
  reflexivity.
Defined.

Lemma freeze_outcomes_witness :
  (∀ k, ms_get k set2 = ms_get k set1) ∧ ms_frozen_count set2 ≤ 2.
Proof.
  pose proof (freeze_outcomes set1 [] [put k1 1 v1] set1_holds) as H.
  unfold set2. destruct (ms_freeze set1) as [r s'].
  split; [exact (proj1 H) | exact (proj1 (proj2 H))].
Defined.

Lemma retire_exact_witness :
  ms_frozen (ms_retire (ms_active set1) set3) = [] ∧
  ms_get k1 (ms_retire (ms_active set1) set3) = Deleted.
Proof.
  destruct (retire_exact set3 [] (ms_active set1) [] [] [put k1 1 v1] [] [delete k1 2] k1
    set3_holds eq_refl eq_refl) as (_ & Hf & Hg).
  split; [exact Hf | exact Hg].
Defined.

(** What [MemtableSet] does not promise. Writers take their LSN before the
    WAL lock, so a freeze can fall between two records of a key that arrive in
    the opposite order of their LSNs: the older value then sits in the newer
    memtable, and a read returns it although the newer write was acknowledged. *)
Theorem late_lsn_shadows_newer :
  let s := ms_insert (put k1 2 v2) set0 in
  let '(_, s) := ms_freeze s in
  let s := ms_insert (put k1 1 v1) s in
  ms_get k1 s = Found v1 ∧
  answer (newest k1 [put k1 2 v2; put k1 1 v1]) = Found v2.
Proof. vm_compute. done. Qed.
