(* ===== verification/Flush.v ===== *)
(** [src/src/flush.rs] and [src/src/schema.rs]: what a flush decides, the rows it
    stages and the SQL script it publishes them with.

    Arrow's builders are lists of cells. The Parquet encoding of the staging file
    ([AsyncArrowWriter]) and the DuckDB binary are third-party code; they are
    parameters where they are used. *)

From S2P Require Import Prelude RecordModel Fs Memtable.

(** * [config.rs]: the settings of the flush *)

Record S3Config : Type := mk_s3 {
  s3_endpoint : string; s3_bucket : string; s3_access_key : string;
  s3_secret_key : string; s3_region : string;
}.
Record CatalogConfig : Type := mk_catalog_config {
  pg_conn : string; cat_schema : string; cat_table : string; data_path : string;
}.
Record DuckDbConfig : Type := mk_duckdb {
  duck_binary : string; row_group_size : Z; catalog_blooms : bool;
}.

(** * [schema.rs] *)

Definition FIELD_ID_PK : Z := 1.
Definition FIELD_ID_LSN : Z := 2.
Definition FIELD_ID_OP : Z := 3.
Definition FIELD_ID_VALUE : Z := 4.

Definition EXPECTED_COLUMNS : list (Z * string * string) :=
  [(FIELD_ID_PK, "pk", "blob"); (FIELD_ID_LSN, "lsn", "int64");
   (FIELD_ID_OP, "op", "int32"); (FIELD_ID_VALUE, "value", "blob")]%string.

Inductive DataType : Type := LargeBinary | Int64 | Int32.
Record Field : Type := mk_field {
  field_name : string; field_type : DataType; field_nullable : bool; field_id : string;
}.
Definition arrow_schema : list Field :=
  [mk_field "pk" LargeBinary false (show_i64 FIELD_ID_PK);
   mk_field "lsn" Int64 false (show_i64 FIELD_ID_LSN);
   mk_field "op" Int32 false (show_i64 FIELD_ID_OP);
   mk_field "value" LargeBinary true (show_i64 FIELD_ID_VALUE)].

(** * Decisions *)

Inductive Flushed : Type :=
| Flushed_Committed (watermark : Lsn) (files : Z)
| Flushed_AlreadyPublished (watermark : Lsn)
| Flushed_Empty.

Definition flushed_watermark (f : Flushed) : option Lsn :=
  match f with
  | Flushed_Committed w _ | Flushed_AlreadyPublished w => Some w
  | Flushed_Empty => None
  end.

Inductive Plan : Type :=
| Plan_Write (watermark : Lsn)
| Plan_AlreadyPublished (watermark : Lsn)
| Plan_Empty.

(** * Batches *)

Definition BATCH_ROWS : Z := 8192.

(** A [RecordBatch] of the staging schema: one list of cells per column. *)
Record RecordBatch : Type := mk_batch {
  col_pk : list bytes; col_lsn : list Z; col_op : list Z; col_value : list (option bytes);
}.

(** The builders, [Vec]s and the row counter of [batches]. *)
Record builders : Type := mk_builders {
  pks : list bytes; lsns : list Z; ops : list Z; values : list (option bytes); rows : Z;
}.

Definition no_rows : builders := mk_builders [] [] [] [] 0.

(** [finish]: the builders are emptied into a batch. *)
Definition finish (b : builders) : RecordBatch * builders :=
  (mk_batch (pks b) (lsns b) (ops b) (values b), mk_builders [] [] [] [] (rows b)).

Definition reset_rows (b : builders) : builders :=
  mk_builders (pks b) (lsns b) (ops b) (values b) 0.

(** The body of the loop of [batches]. *)
Definition batch_step (st : list RecordBatch * builders) (x : bytes * Entry) :
    list RecordBatch * builders :=
  let '(out, b) := st in
  let '(key, entry) := x in
  let b := mk_builders (pks b ++ [key]) (lsns b ++ [as_i64 (e_lsn entry)])
    (ops b ++ [op_code (e_op entry)])
    (values b ++ [match e_op entry with Put => Some (e_value entry) | Delete => None end])
    (rows b + 1) in
  if rows b =? BATCH_ROWS
  then let '(batch, b) := finish b in (out ++ [batch], reset_rows b)
  else (out, b).

(** * Rows *)

(** One row of a staged file. *)
Record row : Type := mk_row { r_pk : bytes; r_lsn : Z; r_op : Z; r_value : option bytes }.

#[export] Instance row_eq_dec : EqDecision row.
Proof. solve_decision. Defined.

Definition row_of (x : bytes * Entry) : row :=
  mk_row x.1 (as_i64 (e_lsn x.2)) (op_code (e_op x.2))
    (match e_op x.2 with Put => Some (e_value x.2) | Delete => None end).

(** The rows of a batch, read across its columns. *)
Definition batch_rows (b : RecordBatch) : list row :=
  zip_with (λ '(k, l) '(o, v), mk_row k l o v)
    (zip (col_pk b) (col_lsn b)) (zip (col_op b) (col_value b)).

Definition columns_agree (b : RecordBatch) : Prop :=
  length (col_lsn b) = length (col_pk b) ∧ length (col_op b) = length (col_pk b) ∧
  length (col_value b) = length (col_pk b).

Section flush.
Context {T : Type} `{SkipMap T}.

Definition plan (published : Lsn) (memtable : Memtable T) : Plan :=
  if mt_is_empty memtable then Plan_Empty else
  let watermark := mt_max_lsn memtable in
  if watermark <=? published then Plan_AlreadyPublished watermark else Plan_Write watermark.

Definition batches (memtable : Memtable T) : list RecordBatch :=
  let '(out, b) := fold_left batch_step (mt_iter memtable) ([], no_rows) in
  if 0 <? rows b then let '(batch, _) := finish b in out ++ [batch] else out.
End flush.

(** * The staging file *)

Definition staging_name (watermark : Lsn) : string :=
  "hg-stage-" +:+ fmt_020 watermark +:+ ".parquet".
(** [dir.join(name)] of a relative name. *)
Definition staging_path (dir : string) (watermark : Lsn) : string :=
  dir +:+ "/" +:+ staging_name watermark.

(** [tokio::fs::File::create]: open for writing, cut to nothing. *)
Definition create_file (name : string) : M fs unit :=
  x ← next_fault;
  action (λ s, match x with
               | Fails _ => (Err io_error, s)
               | Works => (Ok tt, set_file name (mk_file [] []) s)
               end).

Section stage.
Context {T : Type} `{SkipMap T}.
(** [AsyncArrowWriter]: the bytes each call puts out. *)
Context (parquet_head : list Field → bytes).
Context (parquet_batch : RecordBatch → bytes).
Context (parquet_footer : list RecordBatch → bytes).

Definition stage (memtable : Memtable T) (path : string) : M fs unit :=
  let schema := arrow_schema in
  _ ← create_file path;
  _ ← write_file path (parquet_head schema);
  _ ← m_iter (λ batch, write_file path (parquet_batch batch)) (batches memtable);
  write_file path (parquet_footer (batches memtable)).
End stage.

(** * The scripts *)

Definition attach_preamble (catalog : CatalogConfig) (s3 : S3Config) : string :=
  let endpoint := trim_start_matches "https://" (trim_start_matches "http://" (s3_endpoint s3)) in
  let use_ssl := match strip_prefix "https://" (s3_endpoint s3) with
                 | Some _ => "true" | None => "false" end in
  ("ATTACH 'ducklake:postgres:" +:+ pg_conn catalog +:+ "' AS lake (DATA_PATH '" +:+
   data_path catalog +:+ "', DATA_INLINING_ROW_LIMIT 0);" +:+ nl +:+
   "SET s3_endpoint='" +:+ endpoint +:+ "'; SET s3_access_key_id='" +:+ s3_access_key s3 +:+
   "'; SET s3_secret_access_key='" +:+ s3_secret_key s3 +:+ "';" +:+ nl +:+
   "SET s3_url_style='path'; SET s3_use_ssl=" +:+ use_ssl +:+ "; SET s3_region='" +:+
   s3_region s3 +:+ "';" +:+ nl +:+
   "SET httpfs_client_implementation='httplib';" +:+ nl)%string.

Definition publish_script (catalog : CatalogConfig) (s3 : S3Config) (staging : string) : string :=
  (attach_preamble catalog s3 +:+
   "INSERT INTO lake." +:+ cat_schema catalog +:+ "." +:+ cat_table catalog +:+
   " SELECT pk, lsn, op, value FROM read_parquet('" +:+ staging +:+ "');" +:+ nl)%string.

(** What running the binary comes to: it could not be started or fed, or it ran
    to an exit status. *)
Inductive process : Type :=
| Spawn_failed (msg : string)
| Exited (code : option Z) (stderr : string).

Definition run_duckdb (child : process) : result unit :=
  match child with
  | Spawn_failed msg => Err (Io msg)
  | Exited (Some 0) _ => Ok tt
  | Exited code stderr => Err (DuckDbExec (default (-1) code) stderr)
  end.
