(* ===== verification/FlushProps.v ===== *)
(** The properties of the flush's decisions, batches and names
    ([src/src/flush.rs], [src/src/schema.rs]). *)

From S2P Require Import Prelude RecordModel Fs Memtable MemtableProps Flush.

Definition builders_of (xs : list (bytes * Entry)) : builders :=
  mk_builders (r_pk ∘ row_of <$> xs) (r_lsn ∘ row_of <$> xs) (r_op ∘ row_of <$> xs)
    (r_value ∘ row_of <$> xs) (zlen xs).
Definition batch_of (xs : list (bytes * Entry)) : RecordBatch := (finish (builders_of xs)).1.

Lemma batch_rows_of xs : batch_rows (batch_of xs) = row_of <$> xs.
Proof.
  unfold batch_rows. simpl. induction xs as [|x xs IH]; simpl; [done |]. f_equal. exact IH.
Qed.
Lemma batch_of_agree xs : columns_agree (batch_of xs).
Proof. unfold columns_agree, batch_of. simpl. by rewrite !length_fmap. Qed.

Lemma builders_snoc xs x :
  builders_of (xs ++ [x]) =
    let b := builders_of xs in
    mk_builders (pks b ++ [x.1]) (lsns b ++ [as_i64 (e_lsn x.2)])
      (ops b ++ [op_code (e_op x.2)])
      (values b ++ [match e_op x.2 with Put => Some (e_value x.2) | Delete => None end])
      (rows b + 1).
Proof. unfold builders_of. rewrite !fmap_app. simpl. f_equal. lens. Qed.

Lemma batch_loop l : ∀ out xs, zlen xs < BATCH_ROWS →
  ∃ chunks rest,
    fold_left batch_step l (out, builders_of xs) =
      (out ++ (batch_of <$> chunks), builders_of rest) ∧
    xs ++ l = concat chunks ++ rest ∧
    Forall (λ c, zlen c = BATCH_ROWS) chunks ∧ zlen rest < BATCH_ROWS.
Proof.
  induction l as [|x l IH]; intros out xs Hxs.
  - exists [], xs. simpl. rewrite !app_nil_r. split_and!; [done.. | constructor | done].
  - cbn [fold_left]. destruct x as [k e].
    assert (batch_step (out, builders_of xs) (k, e) =
      (if zlen (xs ++ [(k, e)]) =? BATCH_ROWS
       then (out ++ [batch_of (xs ++ [(k, e)])], builders_of [])
       else (out, builders_of (xs ++ [(k, e)])))) as ->.
    { unfold batch_of. rewrite builders_snoc. unfold batch_step. cbn [rows fst snd].
      replace (rows (builders_of xs)) with (zlen xs) by done.
      replace (zlen (xs ++ [(k, e)])) with (zlen xs + 1) by lens.
      by destruct (zlen xs + 1 =? BATCH_ROWS). }
    destruct (_ =? _) eqn:E; zbool.
    + destruct (IH (out ++ [batch_of (xs ++ [(k, e)])]) []) as (chunks & rest & -> & Hc & Hf & Hr);
        [done |].
      exists ((xs ++ [(k, e)]) :: chunks), rest. split_and!; [| | by constructor | done].
      * by rewrite fmap_cons, <- app_assoc.
      * simpl. rewrite <- !app_assoc, <- Hc. done.
    + destruct (IH out (xs ++ [(k, e)])) as (chunks & rest & -> & Hc & Hf & Hr).
      { autorewrite with hg_len in *. lia. }
      exists chunks, rest. split_and!; [done | | done..]. by rewrite <- Hc, <- app_assoc.
Qed.

Lemma concat_fmap_fmap {A B} (f : A → B) (ls : list (list A)) :
  concat ((λ l : list A, f <$> l) <$> ls) = f <$> concat ls.
Proof. induction ls as [|l ls IH]; simpl; [done |]. by rewrite fmap_app, <- IH. Qed.

Section properties.
Context {T : Type} `{SkipMapLaws T}.
Implicit Types m : Memtable T.

Lemma batches_parts m :
  ∃ chunks rest, batches m = batch_of <$> chunks ++ (if 0 <? zlen rest then [rest] else []) ∧
    mt_iter m = concat (chunks ++ (if 0 <? zlen rest then [rest] else [])) ∧
    Forall (λ c, zlen c = BATCH_ROWS) chunks ∧ zlen rest < BATCH_ROWS.
Proof.
  destruct (batch_loop (mt_iter m) [] []) as (chunks & rest & E & Hc & Hf & Hr); [done |].
  change (builders_of []) with no_rows in E. simpl in Hc.
  exists chunks, rest. split_and!; [| | done..].
  - unfold batches. rewrite E, fmap_app. simpl.
    replace (rows (builders_of rest)) with (zlen rest) by done.
    destruct (0 <? zlen rest); [done |]. by rewrite app_nil_r.
  - rewrite Hc, concat_app. f_equal.
    destruct (0 <? zlen rest) eqn:Ez; [symmetry; apply app_nil_r |]. zbool.
    apply zlen_zero_inv. pose proof (zlen_nonneg rest). lia.
Qed.

Lemma batches_rows m :
  concat (batch_rows <$> batches m) = row_of <$> mt_iter m ∧ Forall columns_agree (batches m).
Proof.
  destruct (batches_parts m) as (chunks & rest & -> & -> & _ & _). split.
  - rewrite <- list_fmap_compose.
    rewrite (list_fmap_ext _ (λ l : list _, row_of <$> l)) by (intros; apply batch_rows_of).
    apply concat_fmap_fmap.
  - apply Forall_fmap, Forall_true. apply batch_of_agree.
Qed.

(** Staging loses nothing. The batches are the memtable's rows in key order,
    cut into full batches of [BATCH_ROWS] and one shorter last one, none empty; the
    four columns of a batch have the same length, so building it cannot panic. *)
Theorem batches_complete m :
  ∃ parts, batches m = batch_of <$> parts ∧
    concat (batch_rows <$> batches m) = row_of <$> mt_iter m ∧
    Forall columns_agree (batches m) ∧
    Forall (λ p, 0 < zlen p ≤ BATCH_ROWS) parts ∧
    ∀ full last, parts = full ++ [last] → Forall (λ p, zlen p = BATCH_ROWS) full.
Proof.
  destruct (batches_rows m) as [Hrows Hagree].
  destruct (batches_parts m) as (chunks & rest & Hb & _ & Hf & Hr).
  eexists. split; [exact Hb |]. split; [done |]. split; [done |]. split.
  - apply Forall_app. split; [eapply Forall_impl; [exact Hf |]; simpl; unfold BATCH_ROWS; lia |].
    destruct (0 <? zlen rest) eqn:Ez; repeat constructor; zbool; lia.
  - intros full lst Ep. destruct (0 <? zlen rest) eqn:Ez.
    + by apply app_inj_tail in Ep as [-> _].
    + rewrite app_nil_r in Ep. rewrite Ep, Forall_app in Hf. apply Hf.
Qed.

Lemma plan_write m rs published :
  mt_holds m rs → rs ≠ [] → published < max_lsn_of rs → plan published m = Plan_Write (max_lsn_of rs).
Proof.
  intros Hm Hne Hp. unfold plan. destruct (mt_is_empty m) eqn:E.
  { by apply (mt_is_empty_holds _ _ Hm) in E. }
  destruct Hm as [_ ->]. by rewrite (proj2 (Z.leb_gt _ _)).
Qed.

(** A row carries its entry. The LSN column keeps any LSN below 2^63, a
    tombstone is a row with a null value and the delete code, and a put is a row
    with its value, so nothing else is null. *)
Theorem row_faithful k e :
  0 ≤ e_lsn e < 2 ^ 63 →
  let r := row_of (k, e) in
  r_pk r = k ∧ r_lsn r = e_lsn e ∧ as_u64 (r_lsn r) = e_lsn e ∧
  (r_op r = op_code Delete ↔ e_op e = Delete) ∧
  r_value r = (match e_op e with Put => Some (e_value e) | Delete => None end).
Proof.
  intros Hl r. subst r. unfold row_of, as_i64, as_u64. simpl.
  rewrite !(Z.mod_small (e_lsn e + 2 ^ 63)) by lia.
  replace (e_lsn e + 2 ^ 63 - 2 ^ 63) with (e_lsn e) by lia.
  rewrite Z.mod_small by lia. split_and!; try done. by destruct (e_op e).
Qed.

(** C26: the plan of a flush, on every branch: nothing for an empty memtable,
    nothing to write exactly when the published watermark is at or above every LSN
    the memtable holds, else a write whose watermark is the highest of them. Once
    that watermark is published, planning the same memtable again writes nothing. *)
Theorem plan_outcomes published m rs :
  mt_holds m rs →
  match plan published m with
  | Plan_Empty => rs = []
  | Plan_AlreadyPublished w => rs ≠ [] ∧ w = max_lsn_of rs ∧ ∀ r, r ∈ rs → lsn r ≤ published
  | Plan_Write w =>
    rs ≠ [] ∧ w = max_lsn_of rs ∧ published < w ∧ (∀ r, r ∈ rs → lsn r ≤ w) ∧
    plan w m = Plan_AlreadyPublished w
  end.
Proof.
  intros Hm. pose proof (mt_is_empty_holds _ _ Hm) as Hemp. destruct Hm as [_ Hmax].
  unfold plan. rewrite Hmax. destruct (mt_is_empty m); [by apply Hemp |].
  assert (rs ≠ []) as Hne by (intros E; by apply Hemp in E).
  destruct (_ <=? published) eqn:E; zbool; split_and!; try done.
  - intros r Hr%max_lsn_of_elem. lia.
  - intros r. apply max_lsn_of_elem.
  - by rewrite Z.leb_refl.
Qed.
End properties.

(** Staging names. Two watermarks have two names, and names sort as texts in
    watermark order. *)
Theorem staging_path_ordered dir w1 w2 :
  is_u64 w1 → is_u64 w2 →
  String.compare (staging_path dir w1) (staging_path dir w2) = (w1 ?= w2) ∧
  (staging_path dir w1 = staging_path dir w2 → w1 = w2).
Proof.
  intros H1 H2.
  assert (String.compare (staging_path dir w1) (staging_path dir w2) = (w1 ?= w2)) as Hc.
  { unfold staging_path. rewrite !compare_app_same. by apply compare_padded. }
  split; [done |]. intros E. rewrite E, compare_refl_str in Hc. symmetry in Hc.
  by apply Z.compare_eq_iff in Hc.
Qed.

(** * Examples *)

Lemma row_faithful_witness :
  r_value (row_of (k1, mk_entry 7 Delete [])) = None ∧
  as_u64 (r_lsn (row_of (k1, mk_entry 7 Delete []))) = 7.
Proof.
  assert (0 ≤ e_lsn (mk_entry 7 Delete []) < 2 ^ 63) as H by (cbn [e_lsn]; lia).
  pose proof (row_faithful k1 (mk_entry 7 Delete []) H) as (_ & _ & Hl & _ & Hv).
  split; [exact Hv | exact Hl].
Defined.

Lemma batches_complete_witness :
  let m := mt_run (T := gmap bytes Entry) [put k2 1 v1; delete k1 2] in
  concat (batch_rows <$> batches m) = row_of <$> mt_iter m ∧ Forall columns_agree (batches m).
Proof.
  destruct (batches_complete (mt_run (T := gmap bytes Entry) [put k2 1 v1; delete k1 2]))
    as (parts & _ & Hr & Ha & _).
  split; [exact Hr | exact Ha].
Defined.

Lemma mt_two_holds :
  mt_holds (mt_run (T := gmap bytes Entry) [put k1 1 v1; delete k1 2]) [put k1 1 v1; delete k1 2].
Proof. exact (mt_run_holds [put k1 1 v1; delete k1 2] mt_new [] mt_new_holds). Qed.

Lemma plan_outcomes_witness :
  plan 0 (mt_run (T := gmap bytes Entry) [put k1 1 v1; delete k1 2]) = Plan_Write 2 ∧
  plan 2 (mt_run (T := gmap bytes Entry) [put k1 1 v1; delete k1 2]) = Plan_AlreadyPublished 2.
Proof.
  assert (plan 0 (mt_run (T := gmap bytes Entry) [put k1 1 v1; delete k1 2]) = Plan_Write 2)
    as E by (vm_compute; reflexivity).
  pose proof (plan_outcomes 0 _ _ mt_two_holds) as H. rewrite E in H.
  destruct H as (_ & _ & _ & _ & Hp). split; [exact E | exact Hp].
Defined.

Lemma staging_path_ordered_witness :
  String.compare (staging_path "d" 9) (staging_path "d" 10) = Lt.
Proof.
  apply (staging_path_ordered "d" 9 10); split; vm_compute; done.
Defined.
