(* ===== verification/Columnar.v ===== *)
(** The interface between the engine and the columnar level.

    [Columnar L I] lists what [engine.rs] calls of [catalog.rs], [index.rs],
    [read.rs] and [flush.rs]: [L] is the state behind them, the Postgres catalog and
    the object store with whatever makes calls fail; [I] is the in-memory file
    index. [ColumnarLaws] is the contract the engine is verified against, in terms
    of the list of live files, oldest first, each the list of its rows. *)

From S2P Require Import Prelude RecordModel Memtable Flush.

(** * What files hold *)

(** What a matching row answers ([scan_row_group]): a null value reads as empty. *)
Definition row_lookup (r : row) : Lookup :=
  if r_op r =? op_code Delete then Deleted else Found (default [] (r_value r)).

(** The first row with the key. *)
Fixpoint rows_get (k : bytes) (rows : list row) : Lookup :=
  match rows with
  | [] => Missing
  | r :: rows => if decide (r_pk r = k) then row_lookup r else rows_get k rows
  end.

(** The first file, of a list newest first, with an opinion on the key. *)
Fixpoint files_get (k : bytes) (files : list (list row)) : Lookup :=
  match files with
  | [] => Missing
  | rows :: files => match rows_get k rows with
                     | Missing => files_get k files
                     | hit => hit
                     end
  end.

(** The [MAX(lsn)] of a file and of all files, 0 for none. *)
Definition rows_max (rows : list row) : Lsn := foldr (λ r n, r_lsn r `max` n) 0 rows.
Definition files_max (files : list (list row)) : Lsn :=
  foldr (λ rows n, rows_max rows `max` n) 0 files.

(** Rows DuckDB may be handed: in strict key order, LSNs above all published ones
    and within the [BIGINT] column. *)
Definition publishable (files : list (list row)) (rows : list row) : Prop :=
  rows ≠ [] ∧ StronglySorted bytes_lt (r_pk <$> rows) ∧
  Forall (λ r, files_max files < r_lsn r < 2 ^ 63) rows.

(** * The interface *)

Class Columnar (L I : Type) : Type := {
  (** [DuckLake::connect] *)
  co_connect : M L unit;
  (** [DuckLake::published_watermark] *)
  co_published_watermark : M L Lsn;
  (** [FileIndex::load] *)
  co_load : M L I;
  (** [FileIndex::watermark] *)
  co_watermark : I → Lsn;
  (** [FileIndex::len] *)
  co_file_count : I → Z;
  (** [ColumnarReader::get] *)
  co_get : I → bytes → M L Lookup;
  (** [flush::publish] of the staging file at a path, which holds these bytes *)
  co_publish : string → bytes → M L unit;
}.

(** Files are never changed or removed: an index stays true of the files it was loaded
    for, whatever else is called and published, so a reader may use an old one. *)
Class ColumnarLaws (L I : Type) `{Columnar L I} (read_parquet : bytes → option (list row)) : Type := {
  (** the live files of the lake, oldest first *)
  co_files : L → list (list row) → Prop;
  (** in the lake, the index describes these files *)
  co_index : L → I → list (list row) → Prop;
  (** no call of the lake fails *)
  co_quiet : L → Prop;

  co_connect_law l files r l' :
    co_files l files → co_connect l = (r, l') →
    co_files l' files ∧ (co_quiet l → r = Ok tt ∧ co_quiet l');
  co_published_watermark_law l files r l' :
    co_files l files → co_published_watermark l = (r, l') →
    co_files l' files ∧ (∀ i fs, co_index l i fs → co_index l' i fs) ∧
    (∀ w, r = Ok w → w = files_max files) ∧ (co_quiet l → is_ok r = true ∧ co_quiet l');
  co_load_law l files r l' :
    co_files l files → co_load l = (r, l') →
    co_files l' files ∧ (∀ i fs, co_index l i fs → co_index l' i fs) ∧
    (∀ i, r = Ok i → co_index l' i files) ∧ (co_quiet l → is_ok r = true ∧ co_quiet l');
  co_watermark_law l i fs : co_index l i fs → co_watermark i = files_max fs;
  co_file_count_law l i fs : co_index l i fs → co_file_count i = zlen fs;
  co_get_law l files i fs k r l' :
    co_files l files → co_index l i fs → co_get i k l = (r, l') →
    co_files l' files ∧ (∀ j fs, co_index l j fs → co_index l' j fs) ∧
    (∀ x, r = Ok x → x = files_get k (reverse fs)) ∧ (co_quiet l → is_ok r = true ∧ co_quiet l');
  (** the transaction of the publish is atomic; a failure may be reported for a
      transaction that did commit *)
  co_publish_law l files staging bs rows r l' :
    co_files l files → read_parquet bs = Some rows → publishable files rows →
    co_publish staging bs l = (r, l') →
    (∀ i fs, co_index l i fs → co_index l' i fs) ∧
    (co_files l' files ∧ r ≠ Ok tt ∨ co_files l' (files ++ [rows])) ∧
    (co_quiet l → r = Ok tt ∧ co_quiet l');
}.
