(* ===== verification/Latency.v ===== *)
(** [src/src/store/latency.rs], the latency of one operation: what a profile is, how it
    is fitted, and a draw from it.

    A [Duration] is its nanoseconds. [f64] is the Standard Library's IEEE binary64.
    [None] is a panic. The uniform draws and
    the transcendental functions are parameters: [rand] is third-party, and Rust leaves
    the precision of [ln], [exp] and [cos] open. *)

From Stdlib Require Import SpecFloat.
From S2P Require Import Prelude.

(** * Floats *)

Definition f64 : Type := spec_float.
Definition f_zero : f64 := S754_zero false.
Definition f_one : f64 := S754_finite false (2 ^ 52) (-52).
Definition f_tau : f64 := S754_finite false 7074237752028440 (-50).
(** [f64::MIN_POSITIVE] *)
Definition f_min_positive : f64 := S754_finite false (2 ^ 52) (-1074).
Definition f_mul : f64 → f64 → f64 := SFmul 53 1024.
Definition f_div : f64 → f64 → f64 := SFdiv 53 1024.
Definition f_add : f64 → f64 → f64 := SFadd 53 1024.
Definition f_sqrt : f64 → f64 := SFsqrt 53 1024.
(** [n as f64] *)
Definition f_of_Z (n : Z) : f64 := binary_normalize 53 1024 n 0 false.

(** * Durations *)

Definition NANOS_PER_SEC : Z := 10 ^ 9.
Definition from_millis (ms : Z) : Z := ms * 10 ^ 6.
Definition from_micros (us : Z) : Z := us * 1000.
Definition as_micros (d : Z) : Z := d / 1000.
Definition as_secs_f64 (d : Z) : f64 :=
  f_add (f_of_Z (d / NANOS_PER_SEC)) (f_div (f_of_Z (d mod NANOS_PER_SEC)) (f_of_Z NANOS_PER_SEC)).

(** The nearest whole number to [n / d], ties to even. *)
Definition div_nearest_even (n d : Z) : Z :=
  let q := n / d in
  match 2 * (n mod d) ?= d with
  | Lt => q
  | Gt => q + 1
  | Eq => if Z.even q then q else q + 1
  end.

(** [Duration::from_secs_f64]: it panics on a negative number, on one of 2^64 seconds
    or more and on a NaN. *)
Definition from_secs_f64 (x : f64) : option Z :=
  match x with
  | S754_zero _ => Some 0
  | S754_finite false m e =>
    if 0 <=? e
    then if Z.shiftl (Z.pos m) e <? 2 ^ 64 then Some (Z.shiftl (Z.pos m) e * NANOS_PER_SEC) else None
    else Some (div_nearest_even (Z.pos m * NANOS_PER_SEC) (2 ^ (- e)))
  | _ => None
  end.
Definition mul_f64 (d : Z) (x : f64) : option Z := from_secs_f64 (f_mul x (as_secs_f64 d)).

Definition duration_max : Z := 2 ^ 64 * NANOS_PER_SEC - 1.
(** [a += b] of two durations *)
Definition duration_add (a b : Z) : option Z :=
  if a + b <=? duration_max then Some (a + b) else None.

(** * Runs that may panic *)

Definition Run (S A : Type) : Type := S → option (A * S).
#[export] Instance run_ret {S} : MRet (Run S) := λ A a s, Some (a, s).
#[export] Instance run_bind {S} : MBind (Run S) := λ A B f m s,
  match m s with Some (a, s') => f a s' | None => None end.
Definition run_lift {S A} (o : option A) : Run S A := λ s, (λ a, (a, s)) <$> o.

(** * Latency of one class of operation *)

(** 2.326347874040841, both operands being exact *)
Definition Z99 : f64 := f_div (f_of_Z 2326347874040841) (f_of_Z (10 ^ 15)).

Record OpLatency : Type := mk_op_latency { median : Z; sigma : f64 }.

Definition op_zero : OpLatency := mk_op_latency 0 f_zero.
Definition op_fixed (d : Z) : OpLatency := mk_op_latency d f_zero.
Definition op_is_zero (op : OpLatency) : bool := median op =? 0.

Record LatencyProfile : Type := mk_profile {
  lp_get : OpLatency; lp_put : OpLatency; lp_list : OpLatency; lp_delete : OpLatency;
}.

Definition profile_none : LatencyProfile := mk_profile op_zero op_zero op_zero op_zero.
Definition profile_is_zero (p : LatencyProfile) : bool :=
  op_is_zero (lp_get p) && op_is_zero (lp_put p) && op_is_zero (lp_list p) && op_is_zero (lp_delete p).

Section fit.
Context (ln : f64 → f64).

Definition from_p50_p99 (p50 p99 : Z) : OpLatency :=
  if p50 =? 0 then op_zero
  else
    let ratio := f_div (as_secs_f64 p99) (as_secs_f64 p50) in
    let sigma := if SFltb f_one ratio then f_div (ln ratio) Z99 else f_zero in
    mk_op_latency p50 sigma.

Definition s3_same_region : LatencyProfile := mk_profile
  (from_p50_p99 (from_millis 26) (from_millis 86))
  (from_p50_p99 (from_millis 70) (from_millis 137))
  (from_p50_p99 (from_millis 40) (from_millis 120))
  (from_p50_p99 (from_millis 50) (from_millis 100)).

Definition s3_express : LatencyProfile := mk_profile
  (from_p50_p99 (from_millis 3) (from_millis 15))
  (from_p50_p99 (from_millis 5) (from_millis 20))
  (from_p50_p99 (from_millis 5) (from_millis 20))
  (from_p50_p99 (from_millis 5) (from_millis 20)).
End fit.

(** * Draws *)

Section draw.
Context {R : Type} (random_range : f64 → f64 → R → f64 * R).
Context (ln exp cos : f64 → f64).

Definition random (lo hi : f64) : Run R f64 := λ r, Some (random_range lo hi r).

Definition standard_normal : Run R f64 :=
  u1 ← random f_min_positive f_one;
  u2 ← random f_zero f_one;
  mret (f_mul (f_sqrt (f_mul (f_of_Z (-2)) (ln u1))) (cos (f_mul f_tau u2))).

Definition draw (op : OpLatency) : Run R Z :=
  if median op =? 0 then mret 0
  else if SFeqb (sigma op) f_zero then mret (median op)
  else z ← standard_normal; run_lift (mul_f64 (median op) (exp (f_mul (sigma op) z))).

(** [for _ in 0..n { total += op.draw() }] *)
Fixpoint draw_times (op : OpLatency) (n : nat) (total : Z) : Run R Z :=
  match n with
  | O => mret total
  | S n => d ← draw op; total ← run_lift (duration_add total d); draw_times op n total
  end.

Definition charge_for (p : LatencyProfile) (puts gets : Z) : Run R Z :=
  total ← draw_times (lp_put p) (Z.to_nat puts) 0;
  draw_times (lp_get p) (Z.to_nat gets) total.
End draw.
