(* ===== verification/Tests.v ===== *)
(** What the tests of the source are written with: a test is a run that ends in [Some tt],
    or in [None] when an assertion or an [unwrap] panics. [WalTests.v], [RowTests.v] and
    [ColumnTests.v] are the [tests] modules under [src/src/], assertion by assertion. *)

From Stdlib Require Import Ascii String.
From S2P Require Import Latency.
From S2P Require Import Prelude.

(** * Assertions *)

(** [assert!(b)] *)
Definition assert {S} (b : bool) : Run S unit := λ s, if b then Some (tt, s) else None.
(** [assert_eq!(x, y)] *)
Definition assert_eq {S A} `{EqDecision A} (x y : A) : Run S unit := assert (bool_decide (x = y)).
(** [m.unwrap()] *)
Definition unwrap {S A} (m : M S A) : Run S A := λ s,
  match m s with (Ok a, s) => Some (a, s) | (Err _, _) => None end.
Definition passes {S} (test : Run S unit) (s : S) : Prop := is_Some (test s).

(** A byte string literal. *)
Definition lit (s : string) : bytes := String.list_byte_of_string s.
(** [format!("{n:0w$}")] *)
Definition padded (w : nat) (n : Z) : string :=
  let s := show_u64 n in str_of_list (replicate (w - String.length s) "0"%char) +:+ s.
(** [lo..hi] *)
Definition range (lo hi : Z) : list Z := seqZ lo (hi - lo).

(** [s.contains(p)] and [s.ends_with(p)] *)
Definition contains (p s : string) : bool :=
  match String.index 0 p s with Some _ => true | None => false end.
Definition ends_with (p s : string) : bool :=
  match strip_suffix p s with Some _ => true | None => false end.

(** * Passing *)

(** A passing assertion goes away. *)
Lemma assert_then {S A} b (k : Run S A) s : b = true → (_ ← assert b; k) s = k s.
Proof. by intros ->. Qed.
Lemma assert_eq_then {S A B} `{EqDecision A} (x y : A) (k : Run S B) s :
  x = y → (_ ← assert_eq x y; k) s = k s.
Proof. intros H. apply assert_then. by apply bool_decide_eq_true_2. Qed.
Lemma passes_assert {S} b (s : S) : b = true → passes (assert b) s.
Proof. intros ->. by eexists. Qed.
Lemma passes_eq {S A} `{EqDecision A} (x y : A) (s : S) : x = y → passes (assert_eq x y) s.
Proof. intros H. apply passes_assert. by apply bool_decide_eq_true_2. Qed.
Lemma run_bind_ok {S A B} (m : Run S A) (f : A → Run S B) s a s' :
  m s = Some (a, s') → (m ≫= f) s = f a s'.
Proof. unfold mbind, run_bind. by intros ->. Qed.
Lemma passes_bind {S A} (m : Run S A) (f : A → Run S unit) s a s' :
  m s = Some (a, s') → passes (f a) s' → passes (m ≫= f) s.
Proof. unfold passes. by intros ->%(run_bind_ok _ f). Qed.

(** The next call of a test, by the equation of its outcome. *)
Tactic Notation "calls" constr(E) := eapply passes_bind; [exact E |]; cbn beta iota.

(** * Numbers in keys *)

Lemma digit_value d : 0 ≤ d < 10 → ascii_digit (digit_ascii d) = Some d.
Proof.
  intros H. assert (d ∈ seqZ 0 10) as Hd by (apply elem_of_seqZ; lia). revert d Hd H.
  assert (Forall (λ d, ascii_digit (digit_ascii d) = Some d) (seqZ 0 10)) as Ha
    by (repeat constructor). intros d Hd _. by rewrite Forall_forall in Ha; apply Ha.
Qed.

Lemma dec_step_digit a d : 0 ≤ d < 10 → dec_step (Some a) (digit_ascii d) = Some (10 * a + d).
Proof. intros H. unfold dec_step. by rewrite digit_value. Qed.

Lemma dec_fuel_value n z acc :
  0 ≤ z < 10 ^ Z.of_nat n → (0 < n)%nat → dec_value (dec_fuel n z acc) = fold_left dec_step acc (Some z).
Proof.
  revert z acc. induction n as [|n IH]; intros z acc Hz Hn; [lia |]. cbn [dec_fuel].
  pose proof (Z.mod_pos_bound z 10 ltac:(lia)) as Hm.
  destruct (z <? 10) eqn:E; zbool.
  - unfold dec_value. cbn [fold_left]. rewrite Z.mod_small by lia. by rewrite dec_step_digit by lia.
  - rewrite Nat2Z.inj_succ, Z.pow_succ_r in Hz by lia. destruct n as [|n]; [simpl in Hz; lia |].
    rewrite IH; [| split; [apply Z.div_pos; lia | apply Z.div_lt_upper_bound; lia] | lia].
    cbn [fold_left]. rewrite dec_step_digit by lia. do 2 f_equal. pose proof (Z.div_mod z 10). lia.
Qed.

Lemma padded_inj w i j : 0 ≤ i < 10 ^ 20 → 0 ≤ j < 10 ^ 20 → padded w i = padded w j → i = j.
Proof.
  assert (∀ i, 0 ≤ i < 10 ^ 20 → dec_value (list_of_str (padded w i)) = Some i) as Hv.
  { intros k Hk. unfold padded, show_u64. rewrite list_of_str_app, !list_of_str_of.
    generalize (w - String.length (str_of_list (dec_fuel 20 k [])))%nat. intros n.
    induction n as [|n IH]; [| exact IH]. change (dec_value (dec_fuel 20 k []) = Some k).
    rewrite dec_fuel_value by lia. done. }
  intros Hi%Hv Hj%Hv E. rewrite E, Hj in Hi. by injection Hi.
Qed.
Lemma lit_inj s t : lit s = lit t → s = t.
Proof.
  intros E. by rewrite <- (String.string_of_list_byte_of_string s), <- (String.string_of_list_byte_of_string t);
    unfold lit in E; rewrite E.
Qed.
