(* ===== verification/WalTests.v ===== *)
(** The unit tests of the log as definitions: the [tests] module of [src/src/wal.rs],
    assertion by assertion ([Tests.v] says what a test is). A temporary directory is a file
    system with no files, and no call of it fails. The tests link one checksum and list the
    directory in one order; here both are parameters, and the tests pass with any. *)

From Stdlib Require Import Ascii String.
From S2P Require Import Latency.
From S2P Require Import Prelude Fs Instances RecordModel Wal WalLemmas Tests.

(** [path.exists()] *)
Definition path_exists (name : string) : Run fs bool := λ s,
  Some (match fs_files s !! name with Some _ => true | None => false end, s).

(** * The tests *)

Section wal_tests.
Context (crc32_hash : bytes → Z) (read_dir : gmap string file → list string).
Abbreviation wal_open := (Wal.open crc32_hash read_dir).
Abbreviation wal_append := (Wal.append crc32_hash).

Definition SEG : Z := 4096.
Definition test_record (i : Z) : record := put (lit ("key" +:+ padded 4 i)) i (replicate 32 Byte.x76).
Definition recs (lo hi : Z) : list record := test_record <$> range lo hi.

(** A method of the log in a variable. Dropping the log writes out what its buffer holds,
    which is nothing after an [append]. *)
Definition on_log {A} (m : M (wal * fs) A) (w : wal) : Run fs (A * wal) := λ s,
  match m (w, s) with (Ok a, (w, s)) => Some ((a, w), s) | (Err _, _) => None end.

Definition append_then_replay : Run fs unit :=
  '(wal, replay) ← unwrap (wal_open SEG 0);
  _ ← assert (match replay_records replay with [] => true | _ => false end);
  '(_, _) ← on_log (wal_append (recs 1 50)) wal;
  '(_, replay) ← unwrap (wal_open SEG 0);
  _ ← assert_eq (zlen (replay_records replay)) 49;
  _ ← assert_eq (replay_max_lsn replay) 49;
  r ← run_lift (replay_records replay !! 0%nat);
  assert_eq (lsn r) 1.

Definition replay_skips_records_below_watermark : Run fs unit :=
  '(wal, _) ← unwrap (wal_open SEG 0);
  '(_, _) ← on_log (wal_append (recs 1 101)) wal;
  '(_, replay) ← unwrap (wal_open SEG 60);
  _ ← assert_eq (zlen (replay_records replay)) 40;
  r ← run_lift (replay_records replay !! 0%nat);
  _ ← assert_eq (lsn r) 61;
  assert_eq (replay_max_lsn replay) 100.

Definition a_torn_tail_loses_only_the_torn_frame : Run fs unit :=
  '(wal, _) ← unwrap (wal_open SEG 0);
  '(_, wal) ← on_log (wal_append (recs 1 21)) wal;
  let path := seg_path (wal_active wal) in
  len ← unwrap (metadata_len path);
  _ ← unwrap (open_existing path);
  _ ← unwrap (set_len path (len - 5));
  '(wal, replay) ← unwrap (wal_open SEG 0);
  _ ← assert_eq (zlen (replay_records replay)) 19;
  _ ← assert_eq (replay_max_lsn replay) 19;
  '(_, _) ← on_log (wal_append (recs 20 25)) wal;
  '(_, replay) ← unwrap (wal_open SEG 0);
  _ ← assert_eq (zlen (replay_records replay)) 24;
  assert_eq (replay_max_lsn replay) 24.

(** [for i in 0..20 { wal.append(..) }], from [i] on. *)
Fixpoint append_batches (n : nat) (i : Z) (w : wal) : Run fs wal :=
  match n with
  | O => mret w
  | S n => '(_, w) ← on_log (wal_append (recs (i * 10 + 1) (i * 10 + 11))) w; append_batches n (i + 1) w
  end.
Definition rotation_and_truncation : Run fs unit :=
  '(wal, _) ← unwrap (wal_open 1024 0);
  wal ← append_batches 20 0 wal;
  _ ← assert (negb (match wal_sealed wal with [] => true | _ => false end));
  first ← run_lift (wal_sealed wal !! 0%nat);
  let watermark := seg_max_lsn first in
  '(_, _) ← on_log (truncate_through watermark) wal;
  '(_, replay) ← unwrap (wal_open 1024 watermark);
  _ ← assert_eq (replay_max_lsn replay) 200;
  assert (forallb (λ r, watermark <? lsn r) (replay_records replay)).

Definition truncation_never_drops_the_active_segment : Run fs unit :=
  '(wal, _) ← unwrap (wal_open SEG 0);
  '(_, wal) ← on_log (wal_append (recs 1 10)) wal;
  '(_, wal) ← on_log (truncate_through 1000000) wal;
  there ← path_exists (seg_path (wal_active wal));
  assert there.

(** * They pass *)

Context (crc_u32 : ∀ l, is_u32 (crc32_hash l)).
Context (read_dir_perm : ∀ m, read_dir m ≡ₚ (map_to_list m).*1).
Abbreviation wal_inv := (wal_inv crc32_hash).
Abbreviation frames := (frames crc32_hash).

(** A log that the test holds: the invariant, and the struct knows every segment. *)
Definition held (m : gmap string file) (w : wal) (logs : list (Lsn * list record)) (s : Lsn)
    (rs : list record) (limit : Z) : Prop :=
  wal_inv m w logs s rs ∧ wal_sealed w = seg_of <$> logs ∧ wal_segment_max_bytes w = limit.

Lemma opens limit from_lsn m l :
  disk_segs crc32_hash m l →
  ∃ w m' logs s rs,
    unwrap (wal_open limit from_lsn) (mk_fs m []) =
      Some ((w, mk_replay (base.filter (λ r, from_lsn < lsn r) (log_records l.*1))
                          (max_lsn_of (log_records l.*1))), mk_fs m' []) ∧
    held m' w logs s rs limit ∧ logs ++ [(s, rs)] = logs_or_new l.*1.
Proof.
  intros D. destruct (open_ok _ crc_u32 _ read_dir_perm limit from_lsn _ _ D)
    as (w & m' & logs & s & rs & E & I & El & Hl & Hs).
  exists w, m', logs, s, rs. unfold unwrap. by rewrite E.
Qed.

(** In an empty directory. *)
Lemma opens_empty limit :
  ∃ w m', unwrap (wal_open limit 0) (mk_fs ∅ []) = Some ((w, mk_replay [] 0), mk_fs m' []) ∧
    held m' w [] 0 [] limit.
Proof.
  destruct (opens limit 0 ∅ [] (disk_segs_empty _)) as (w & m' & logs & s & rs & E & H & El).
  exists w, m'. split; [exact E |]. by destruct logs as [|? [|? ?]]; simpl in El; simplify_eq.
Qed.

(** After a log that was held. *)
Lemma reopens limit from_lsn m w logs s rs limit' :
  held m w logs s rs limit' →
  ∃ w' m', unwrap (wal_open limit from_lsn) (mk_fs m []) =
      Some ((w', mk_replay (base.filter (λ r, from_lsn < lsn r) (log_records (logs ++ [(s, rs)])))
                           (max_lsn_of (log_records (logs ++ [(s, rs)])))), mk_fs m' []) ∧
    held m' w' logs s rs limit.
Proof.
  intros (I & _ & _). destruct (opens limit from_lsn m _ (wi_disk _ _ _ _ _ _ I))
    as (w' & m' & logs' & s' & rs' & E & H & El).
  rewrite clean_fst in *. rewrite logs_or_new_snoc in El. apply app_inj_tail in El as [-> [= -> ->]].
  by exists w', m'.
Qed.

Lemma appends m w logs s rs limit rs0 :
  held m w logs s rs limit → Forall record_fits rs0 → rs0 ≠ [] →
  (limit ≤ zlen (frames rs) → ∀ r, head rs0 = Some r → s < lsn r) →
  ∃ w' m' logs' s' rs',
    on_log (wal_append rs0) w (mk_fs m []) = Some ((tt, w'), mk_fs m' []) ∧
    held m' w' logs' s' rs' limit ∧
    if limit <=? zlen (frames rs)
    then logs' = logs ++ [(s, rs)] ∧ Some s' = lsn <$> head rs0 ∧ rs' = rs0
    else logs' = logs ∧ s' = s ∧ rs' = rs ++ rs0.
Proof.
  intros (I & Hsl & <-) Hfit Hne Hlt. destruct rs0 as [|r0 rs0]; [done |].
  rewrite <- (wi_bytes _ _ _ _ _ _ I) in *.
  destruct (wal_append (r0 :: rs0) (w, mk_fs m [])) as [r [w' st']] eqn:E.
  destruct (append_spec _ _ _ _ _ _ (mk_fs m []) _ _ _ _ _ I eq_refl Hfit (λ H, Hlt H _ eq_refl) E)
    as ([Hmax Hsl'] & Hq & logs' & s' & rs' & m1 & f' & Hcase & _ & _ & _ & Hok).
  destruct (Hq eq_refl) as [-> Hq']. destruct (Hok eq_refl) as [_ I'].
  exists w', (fs_files st'), logs', s', (rs' ++ r0 :: rs0). unfold on_log. rewrite E.
  split; [rewrite <- Hq'; by rewrite fs_eta |].
  rewrite Hsl in Hsl'. specialize (Hsl' eq_refl).
  destruct Hcase as [(-> & -> & -> & Hlow)|(-> & -> & -> & Hfull)].
  - rewrite (proj2 (Z.leb_gt _ _) (Hlow eq_refl)) in *. split; [| done]. split; [done |].
    by rewrite app_nil_r in Hsl'.
  - rewrite (proj2 (Z.leb_le _ _) Hfull) in *. split; [| done]. split; [done |]. split; [| done].
    by rewrite Hsl', (wi_active _ _ _ _ _ _ I), fmap_app.
Qed.

Lemma truncates watermark m w logs s rs limit :
  held m w logs s rs limit →
  ∃ w' m' logs', on_log (truncate_through watermark) w (mk_fs m []) = Some ((tt, w'), mk_fs m' []) ∧
    held m' w' logs' s rs limit ∧ sublist logs' logs.
Proof.
  intros (I & Hsl & <-). destruct (truncate_through watermark (w, mk_fs m [])) as [r [w' st']] eqn:E.
  destruct (truncate_spec _ watermark w (mk_fs m []) _ _ _ _ _ _ I E)
    as (Hmax & Hq & logs' & I' & Hsub & _ & Hs'). destruct (Hq eq_refl) as [-> Hq'].
  exists w', (fs_files st'), logs'. unfold on_log. rewrite E.
  split; [rewrite <- Hq'; by rewrite fs_eta |]. split; [| done].
  split; [done |]. split; [| done]. by destruct (Hs' eq_refl Hsl).
Qed.

(** The records of the tests. *)
Lemma test_record_ok i : 1 ≤ i < 201 →
  record_fits (test_record i) ∧ 25 + zlen (key (test_record i)) + zlen (value (test_record i)) = 64.
Proof.
  intros Hi. assert (zlen (key (test_record i)) = 7) as Hk.
  { assert (Forall (λ i, zlen (key (test_record i)) = 7) (range 1 201)) as H
      by (apply (bool_decide_eq_true_1 _); vm_compute; reflexivity).
    rewrite Forall_forall in H. apply H, elem_of_seqZ. lia. }
  assert (zlen (value (test_record i)) = 32) as Hv by done. rewrite Hk, Hv. split; [| done].
  split; [unfold is_u64; simpl; lia |]. rewrite Hk, Hv. done.
Qed.

Lemma elem_of_range lo hi i : i ∈ range lo hi → lo ≤ i < hi.
Proof. intros H%elem_of_seqZ. lia. Qed.

Lemma test_records_fit lo hi : 1 ≤ lo → hi ≤ 201 → Forall record_fits (recs lo hi).
Proof.
  intros Hlo Hhi. apply Forall_fmap, Forall_forall. intros i Hi%elem_of_range. simpl.
  apply test_record_ok. lia.
Qed.
Lemma zlen_frames_recs lo hi :
  1 ≤ lo → lo ≤ hi → hi ≤ 201 → zlen (frames (recs lo hi)) = 64 * (hi - lo).
Proof.
  intros Hlo Hle Hhi. assert (Forall (λ i, 1 ≤ i < 201) (range lo hi)) as H
    by (apply Forall_forall; intros i Hi%elem_of_range; lia).
  replace (hi - lo) with (zlen (range lo hi)) by (unfold zlen, range; rewrite length_seqZ; lia).
  unfold recs. induction H as [|i l Hi _ IH]; [done |].
  rewrite fmap_cons, frames_cons, zlen_app, zlen_cons, IH, zlen_frame.
  destruct (test_record_ok i Hi) as [_ ->]. lia.
Qed.

Lemma log_records_held (x : Lsn * list record) : log_records ([] ++ [x]) = x.2.
Proof. destruct x. apply log_records_one. Qed.

Lemma append_then_replay_passes : passes append_then_replay (mk_fs ∅ []).
Proof.
  destruct (opens_empty SEG) as (w & m & E & H). unfold append_then_replay. calls E.
  unfold passes. rewrite assert_then by done.
  destruct (appends _ _ _ _ _ _ (recs 1 50) H) as (w1 & m1 & ? & ? & ? & E1 & H1 & -> & -> & ->);
    [by apply test_records_fit | done | done |]. calls E1.
  destruct (reopens SEG 0 _ _ _ _ _ _ H1) as (w2 & m2 & E2 & _). calls E2.
  rewrite log_records_held. vm_compute. by eexists.
Qed.

Lemma replay_skips_records_below_watermark_passes :
  passes replay_skips_records_below_watermark (mk_fs ∅ []).
Proof.
  destruct (opens_empty SEG) as (w & m & E & H). unfold replay_skips_records_below_watermark. calls E.
  destruct (appends _ _ _ _ _ _ (recs 1 101) H) as (w1 & m1 & ? & ? & ? & E1 & H1 & -> & -> & ->);
    [by apply test_records_fit | done | done |]. calls E1.
  destruct (reopens SEG 60 _ _ _ _ _ _ H1) as (w2 & m2 & E2 & _). calls E2.
  rewrite log_records_held. vm_compute. by eexists.
Qed.

Lemma truncation_never_drops_the_active_segment_passes :
  passes truncation_never_drops_the_active_segment (mk_fs ∅ []).
Proof.
  destruct (opens_empty SEG) as (w & m & E & H). unfold truncation_never_drops_the_active_segment. calls E.
  destruct (appends _ _ _ _ _ _ (recs 1 10) H) as (w1 & m1 & ? & ? & ? & E1 & H1 & -> & -> & ->);
    [by apply test_records_fit | done | done |]. calls E1.
  destruct (truncates 1000000 _ _ _ _ _ _ H1) as (w2 & m2 & logs2 & E2 & H2 & _). calls E2.
  destruct H2 as [I2 _]. destruct (wal_inv_file _ _ _ _ _ _ I2) as (_ & _ & Hf).
  unfold path_exists. rewrite (wi_active _ _ _ _ _ _ I2). simpl.
  eapply passes_bind; [done |]. simpl. rewrite Hf. by apply passes_assert.
Qed.

(** A file cut short in its last frame. *)
Lemma cut_last m rs r n :
  disk_segs crc32_hash m [(0, rs ++ [r], [])] → Forall record_fits (rs ++ [r]) →
  0 < n < 64 → zlen (frame_of crc32_hash r) = 64 →
  ∃ len m', unwrap (metadata_len (segment_name 0)) (mk_fs m []) = Some (len, mk_fs m []) ∧
    unwrap (open_existing (segment_name 0)) (mk_fs m []) = Some (tt, mk_fs m []) ∧
    unwrap (set_len (segment_name 0) (len - n)) (mk_fs m []) = Some (tt, mk_fs m' []) ∧
    ∃ t, disk_segs crc32_hash m' [(0, rs, t)].
Proof.
  intros D Hfit Hn Hz. apply Forall_app in Hfit as [Hfit Hr]. rewrite Forall_singleton in Hr.
  destruct (ds_file _ _ _ D 0 (rs ++ [r]) []) as (_ & _ & _ & Hf); [by left |].
  rewrite app_nil_r, frames_app in Hf.
  set (l := frames rs ++ take (Z.to_nat (64 - n)) (frame_of crc32_hash r)).
  assert (frames rs ++ frames [r] = l ++ drop (Z.to_nat (64 - n)) (frame_of crc32_hash r)) as El.
  { unfold l. rewrite <- app_assoc, take_drop. by rewrite frames_cons, app_nil_r. }
  rewrite El in Hf. exists (zlen l + n), (<[segment_name 0 := mk_file l []]> m).
  split.
  { unfold unwrap. rewrite (metadata_len_ok _ _ _ Hf). unfold contents. simpl. rewrite app_nil_r.
    do 2 f_equal. rewrite zlen_app, zlen_drop. unfold zlen at 2. unfold zlen in Hz. lia. }
  split; [unfold unwrap; by rewrite (open_existing_ok _ _ _ Hf) |]. split.
  { unfold unwrap. replace (zlen l + n - n) with (zlen l) by lia. by rewrite (set_len_cut_ok _ _ _ _ Hf). }
  exists (take (Z.to_nat (64 - n)) (frame_of crc32_hash r)).
  apply (disk_segs_set _ m [] [] 0 (rs ++ [r]) []); [exact D | done |].
  intros seg off. apply decode_frame_cut; [exact crc_u32 | exact Hr |]. lia.
Qed.

Lemma a_torn_tail_loses_only_the_torn_frame_passes :
  passes a_torn_tail_loses_only_the_torn_frame (mk_fs ∅ []).
Proof.
  destruct (opens_empty SEG) as (w & m & E & H). unfold a_torn_tail_loses_only_the_torn_frame. calls E.
  assert (recs 1 21 = recs 1 20 ++ [test_record 20]) as Hlast by reflexivity.
  destruct (appends _ _ _ _ _ _ (recs 1 21) H) as (w1 & m1 & ? & ? & ? & E1 & H1 & -> & -> & ->);
    [by apply test_records_fit | done | done |]. calls E1. destruct H1 as [I1 _].
  rewrite (wi_active _ _ _ _ _ _ I1). cbn [seg_path seg_of fst].
  destruct (cut_last m1 (recs 1 20) (test_record 20) 5) as (len & m2 & E2 & E3 & E4 & t & D).
  { rewrite <- Hlast. apply (wi_disk _ _ _ _ _ _ I1). }
  { rewrite <- Hlast. by apply test_records_fit. }
  { done. }
  { rewrite zlen_frame. by apply test_record_ok. }
  calls E2. calls E3. calls E4. destruct (opens SEG 0 _ _ D) as (w5 & m5 & logs & s & rs & E5 & H5 & El).
  calls E5. apply (app_inj_tail logs []) in El as [-> [= -> ->]].
  change (log_records (fst <$> [(0, recs 1 20, t)])) with (log_records ([] ++ [(0, recs 1 20)])).
  rewrite log_records_held. unfold passes. do 2 (rewrite assert_eq_then by (vm_compute; reflexivity)).
  destruct (appends _ _ _ _ _ _ (recs 20 25) H5) as (w6 & m6 & ? & ? & ? & E6 & H6 & Hcase);
    [by apply test_records_fit | done | by intros _ r [= <-] |].
  rewrite (zlen_frames_recs 1 20) in Hcase by done. destruct Hcase as (-> & -> & ->). calls E6.
  destruct (reopens SEG 0 _ _ _ _ _ _ H6) as (w7 & m7 & E7 & _). calls E7.
  rewrite log_records_held. vm_compute. by eexists.
Qed.

Lemma recs_app lo mid hi : lo ≤ mid → mid ≤ hi → recs lo hi = recs lo mid ++ recs mid hi.
Proof.
  intros H1 H2. unfold recs, range. rewrite <- fmap_app. f_equal.
  replace (hi - lo) with ((mid - lo) + (hi - mid)) by lia. rewrite seqZ_app by lia.
  by replace (lo + (mid - lo)) with mid by lia.
Qed.
Lemma elem_of_recs lo hi r : r ∈ recs lo hi → lo ≤ lsn r < hi.
Proof. by intros (i & -> & Hi%elem_of_range)%list_elem_of_fmap. Qed.

(** Twenty batches: each is in the active segment when it is in, and no segment gets
    much larger than its limit. *)
Lemma append_batches_held n : ∀ i m w logs s rs,
  held m w logs s rs 1024 → 0 ≤ i → i + Z.of_nat n ≤ 20 → s ≤ i * 10 →
  log_records (logs ++ [(s, rs)]) = recs 1 (i * 10 + 1) → zlen (frames rs) < 1664 →
  (0 < i → test_record (i * 10) ∈ rs) →
  ∃ w' m' logs' s' rs', append_batches n i w (mk_fs m []) = Some (w', mk_fs m' []) ∧
    held m' w' logs' s' rs' 1024 ∧ zlen (frames rs') < 1664 ∧
    log_records (logs' ++ [(s', rs')]) = recs 1 ((i + Z.of_nat n) * 10 + 1) ∧
    (0 < i + Z.of_nat n → test_record ((i + Z.of_nat n) * 10) ∈ rs').
Proof.
  induction n as [|n IH]; intros i m w logs s rs H Hi Hn Hs Hl Hz Hin.
  { exists w, m, logs, s, rs. rewrite Z.add_0_r. by split_and!. }
  set (b := recs (i * 10 + 1) (i * 10 + 11)).
  assert (zlen (frames b) = 640) as Hb by (unfold b; rewrite zlen_frames_recs by lia; lia).
  assert (test_record ((i + 1) * 10) ∈ b) as Hlast.
  { apply list_elem_of_fmap_2, elem_of_seqZ. lia. }
  assert (head b = Some (test_record (i * 10 + 1))) as Hhead.
  { unfold b, recs, range. by replace (i * 10 + 11 - (i * 10 + 1)) with (Z.succ 9) by lia. }
  destruct (appends m w logs s rs 1024 b H) as (w1 & m1 & logs1 & s1 & rs1 & E1 & H1 & Hcase).
  { apply test_records_fit; lia. }
  { intros E. by rewrite E in Hhead. }
  { rewrite Hhead. intros _ r [= <-]. simpl. lia. }
  assert (log_records (logs1 ++ [(s1, rs1)]) = recs 1 ((i + 1) * 10 + 1) ∧ s1 ≤ (i + 1) * 10 ∧
    zlen (frames rs1) < 1664 ∧ test_record ((i + 1) * 10) ∈ rs1) as (Hl1 & Hs1 & Hz1 & Hin1).
  { rewrite (recs_app 1 (i * 10 + 1)) by lia. replace ((i + 1) * 10 + 1) with (i * 10 + 11) by lia.
    fold b. rewrite Hhead in Hcase. destruct (1024 <=? zlen (frames rs)) eqn:Ez; zbool.
    - destruct Hcase as (-> & [= ->] & ->). rewrite log_records_app, log_records_one, Hl. simpl.
      split_and!; [done | lia | lia | done].
    - destruct Hcase as (-> & -> & ->). rewrite log_records_snoc, Hl, frames_app, zlen_app.
      split_and!; [done | lia | lia |]. apply elem_of_app. by right. }
  destruct (IH (i + 1) m1 w1 logs1 s1 rs1 H1) as (w2 & m2 & logs2 & s2 & rs2 & E2 & H2 & Hz2 & Hl2 & Hin2);
    [lia | lia | lia | done | done | done |].
  exists w2, m2, logs2, s2, rs2. cbn [append_batches]. rewrite (run_bind_ok _ _ _ _ _ E1). cbn beta iota.
  replace (i + Z.of_nat (S n)) with (i + 1 + Z.of_nat n) by lia. by split_and!.
Qed.

Lemma rotation_and_truncation_passes : passes rotation_and_truncation (mk_fs ∅ []).
Proof.
  destruct (opens_empty 1024) as (w & m & E & H). unfold rotation_and_truncation. calls E.
  destruct (append_batches_held 20 0 _ _ _ _ _ H) as (w1 & m1 & logs & s & rs & E1 & H1 & Hz & Hl & Hin);
    [lia | lia | lia | reflexivity | reflexivity | lia |]. change ((0 + Z.of_nat 20) * 10) with 200 in *. specialize (Hin ltac:(done)). calls E1.
  destruct logs as [|x logs].
  { rewrite log_records_held in Hl. simpl in Hl. rewrite Hl, zlen_frames_recs in Hz by done. lia. }
  pose proof H1 as (_ & Hsl & _). rewrite Hsl. unfold passes. rewrite assert_then by done. fold (passes (S := fs)).
  cbn [fmap list_fmap list_lookup lookup]. eapply passes_bind; [done |]. cbv zeta.
  set (watermark := seg_max_lsn (seg_of x)).
  destruct (truncates watermark _ _ _ _ _ _ H1) as (w2 & m2 & logs2 & E2 & H2 & Hsub). calls E2.
  destruct (reopens 1024 watermark _ _ _ _ _ _ H2) as (w3 & m3 & E3 & _). calls E3.
  assert (max_lsn_of (log_records (logs2 ++ [(s, rs)])) = 200) as Hmax.
  { apply Z.le_antisymm.
    - apply max_lsn_of_le; [done |]. intros r Hr. assert (r ∈ recs 1 201) as Hr'.
      { change (recs 1 201) with (recs 1 (200 + 1)). rewrite <- Hl, log_records_app in *.
        apply elem_of_app in Hr as [Hr|Hr]; apply elem_of_app; [left | by right].
        apply elem_of_concat in Hr as (l & Hr & Hin'). apply elem_of_concat. exists l.
        split; [eapply elem_of_sublist; [exact Hr | by apply (fmap_sublist snd)] | done]. }
      apply elem_of_recs in Hr'. lia.
    - change 200 with (lsn (test_record 200)). apply max_lsn_of_elem.
      rewrite log_records_app, log_records_one. apply elem_of_app. by right. }
  unfold passes. rewrite assert_eq_then by exact Hmax. apply passes_assert. apply forallb_forall.
  intros r Hr%list_elem_of_In. apply list_elem_of_filter in Hr as [Hr _]. apply Z.ltb_lt. exact Hr.
Qed.

(** The tests of the log pass, whatever the checksum, as long as it is a 32-bit number,
    and in whatever order the directory is listed. *)
Theorem wal_tests_pass :
  passes append_then_replay (mk_fs ∅ []) ∧
  passes replay_skips_records_below_watermark (mk_fs ∅ []) ∧
  passes a_torn_tail_loses_only_the_torn_frame (mk_fs ∅ []) ∧
  passes rotation_and_truncation (mk_fs ∅ []) ∧
  passes truncation_never_drops_the_active_segment (mk_fs ∅ []).
Proof.
  auto using append_then_replay_passes, replay_skips_records_below_watermark_passes,
    a_torn_tail_loses_only_the_torn_frame_passes, rotation_and_truncation_passes,
    truncation_never_drops_the_active_segment_passes.
Qed.
End wal_tests.

(** With the checksum of the crate. *)
Example wal_tests_pass_ieee :
  passes (rotation_and_truncation crc32_ieee read_dir_keys) (mk_fs ∅ []).
Proof.
  destruct (wal_tests_pass crc32_ieee read_dir_keys crc32_ieee_u32 read_dir_keys_perm) as (_ & _ & _ & H & _).
  exact H.
Qed.
