(* ===== verification/RowTests.v ===== *)
(** The unit tests of the records, the memtables and the flush as definitions: the [tests]
    modules of [record.rs], [memtable.rs], [flush.rs] and [schema.rs] under [src/src/],
    assertion by assertion ([Tests.v] says what a test is). The tests link one skip list;
    here it is a parameter, and they pass with any that keeps its laws. *)

From Stdlib Require Import Ascii String.
From S2P Require Import Latency.
From S2P Require Import Prelude Fs Instances RecordModel Memtable MemtableProps Flush FlushProps Tests.

(** Tests that keep everything in variables. *)
Abbreviation test := (Run unit unit).

(** * [record.rs] *)

Section record_tests.
Context (crc32_hash : bytes → Z).

Definition three_records : list record :=
  [put (lit "alpha") 1 (lit "one"); delete (lit "beta") 2; put (lit "") 3 (lit "")].

(** [while let Some((rec, n)) = decode(..).unwrap()]: a frame is at least a byte long. *)
Fixpoint decode_all (fuel : nat) (buf : bytes) (off : Z) (out : list record) : option (list record * Z) :=
  match fuel with
  | O => None
  | S fuel =>
    match decode crc32_hash (drop (Z.to_nat off) buf) "test" off with
    | Err _ => None
    | Ok None => Some (out, off)
    | Ok (Some (rec, n)) => decode_all fuel buf (off + n) (out ++ [rec])
    end
  end.

Definition roundtrip : test :=
  let recs := three_records in
  let buf := fold_left (λ buf r, encode crc32_hash r buf) recs [] in
  '(out, off) ← run_lift (decode_all (S (length buf)) buf 0 []);
  _ ← assert_eq off (zlen buf);
  assert_eq recs out.

Definition is_torn (buf : bytes) : Run unit bool :=
  run_lift (match decode crc32_hash buf "test" 0 with
            | Ok None => Some true | Ok (Some _) => Some false | Err _ => None end).

Definition torn_tail_is_not_an_error : test :=
  let buf := encode crc32_hash (put (lit "k") 1 (lit "v")) [] in
  let buf := take (length buf - 1) buf in
  none ← is_torn buf;
  assert none.

(** [buf[last] ^= 0xff] *)
Definition flip_last (buf : bytes) : bytes :=
  let last := (length buf - 1)%nat in
  alter (λ b, byte_of (Z.lxor (byte_val b) 0xff)) last buf.
Definition bit_flip_in_payload_is_a_torn_tail_not_a_bad_record : test :=
  let buf := encode crc32_hash (put (lit "k") 1 (lit "v")) [] in
  none ← is_torn (flip_last buf);
  assert none.
End record_tests.

(** * [memtable.rs] *)

Section memtable_tests.
Context {T : Type} `{SkipMap T}.
Abbreviation mt_new := (mt_new (T := T)).

Definition put_get_overwrite : test :=
  let mt := mt_insert (put (lit "a") 1 (lit "v1")) mt_new in
  _ ← assert_eq (mt_get (lit "a") mt) (Found (lit "v1"));
  let mt := mt_insert (put (lit "a") 2 (lit "v2")) mt in
  _ ← assert_eq (mt_get (lit "a") mt) (Found (lit "v2"));
  _ ← assert_eq (mt_len mt) 1;
  assert_eq (mt_max_lsn mt) 2.

Definition an_out_of_order_arrival_does_not_beat_a_newer_lsn : test :=
  let mt := mt_insert (put (lit "a") 2 (lit "new")) mt_new in
  let mt := mt_insert (put (lit "a") 1 (lit "old")) mt in
  _ ← assert_eq (mt_get (lit "a") mt) (Found (lit "new"));
  _ ← assert_eq (mt_max_lsn mt) 2;
  let mt := mt_insert (delete (lit "a") 0) mt in
  assert_eq (mt_get (lit "a") mt) (Found (lit "new")).

Definition delete_leaves_a_tombstone_not_a_hole : test :=
  let mt := mt_insert (put (lit "a") 1 (lit "v1")) mt_new in
  let mt := mt_insert (delete (lit "a") 2) mt in
  _ ← assert_eq (mt_get (lit "a") mt) Deleted;
  assert_eq (mt_len mt) 1.

Definition iteration_is_pk_sorted : test :=
  let mt := fold_left (λ mt k, mt_insert (put (lit k) 1 (lit "v")) mt)
              ["delta"; "alpha"; "charlie"; "bravo"]%string mt_new in
  assert_eq (mt_iter mt).*1 [lit "alpha"; lit "bravo"; lit "charlie"; lit "delta"].

(** [set.freeze().unwrap().unwrap()] *)
Definition froze (set : MemtableSet T) : Run unit (arc T * MemtableSet T) :=
  run_lift (match ms_freeze set with (Ok (Some a), set) => Some (a, set) | _ => None end).

Definition newer_memtable_shadows_older : test :=
  set ← run_lift (ms_new (Z.shiftl 1 20) 4);
  let set := ms_insert (put (lit "a") 1 (lit "old")) set in
  '(_, set) ← froze set;
  let set := ms_insert (put (lit "a") 2 (lit "new")) set in
  _ ← assert_eq (ms_get (lit "a") set) (Found (lit "new"));
  let set := ms_insert (delete (lit "a") 3) set in
  assert_eq (ms_get (lit "a") set) Deleted.

Definition frozen_memtable_still_serves_reads : test :=
  set ← run_lift (ms_new (Z.shiftl 1 20) 4);
  let set := ms_insert (put (lit "a") 1 (lit "v")) set in
  '(frozen, set) ← froze set;
  _ ← assert_eq (ms_get (lit "a") set) (Found (lit "v"));
  let set := ms_retire frozen set in
  assert_eq (ms_get (lit "a") set) Missing.

Definition freeze_threshold_tracks_bytes : test :=
  set ← run_lift (ms_new 512 4);
  _ ← assert (negb (ms_should_freeze set));
  let set := fold_left (λ set i, ms_insert (put (lit ("k" +:+ show_u64 i)) i (replicate 16 Byte.x00)) set)
               (range 0 8) set in
  assert (ms_should_freeze set).

(** The loop of the next test. *)
Fixpoint freeze_each (keys : list Z) (set : MemtableSet T) : Run unit (MemtableSet T) :=
  match keys with
  | [] => mret set
  | i :: keys =>
    '(_, set) ← froze (ms_insert (put (lit ("k" +:+ show_u64 i)) i (lit "v")) set);
    freeze_each keys set
  end.
Definition frozen_queue_backpressures_instead_of_growing : test :=
  set ← run_lift (ms_new 64 2);
  set ← freeze_each (range 0 2) set;
  _ ← assert (ms_stalled set);
  let set := ms_insert (put (lit "x") 9 (lit "v")) set in
  assert (match (ms_freeze set).1 with Err (WriteStalled n) => n =? 2 | _ => false end).

Definition freezing_an_empty_memtable_is_a_no_op : test :=
  set ← run_lift (ms_new 64 2);
  let '(r, set) := ms_freeze set in
  none ← run_lift (match r with Ok None => Some true | Ok (Some _) => Some false | Err _ => None end);
  _ ← assert none;
  assert_eq (ms_frozen_count set) 0.
End memtable_tests.

(** * [flush.rs] *)

#[local] Instance Plan_eq_dec : EqDecision Plan.
Proof. solve_decision. Defined.

Section flush_tests.
Context {T : Type} `{SkipMap T}.
Abbreviation mt_new := (mt_new (T := T)).

Definition staging_path_is_a_function_of_the_watermark : test :=
  let dir := "/tmp"%string in
  _ ← assert_eq (staging_path dir 42) (staging_path dir 42);
  _ ← assert (negb (bool_decide (staging_path dir 42 = staging_path dir 43)));
  assert (ends_with "hg-stage-00000000000000000042.parquet" (staging_path dir 42)).

Definition plan_skips_a_flush_already_covered_by_the_watermark : test :=
  let mt := mt_insert (put (lit "a") 5 (lit "one")) mt_new in
  _ ← assert_eq (plan 5 mt) (Plan_AlreadyPublished 5);
  assert_eq (plan 4 mt) (Plan_Write 5).

Definition plan_on_empty_memtable_is_empty : test := assert_eq (plan 0 mt_new) Plan_Empty.

Definition attach_preamble_strips_the_endpoint_scheme_and_disables_inlining : test :=
  let cat := mk_catalog_config "host=127.0.0.1 dbname=holy_grail" "main" "kv" "s3://warehouse/hg/" in
  let s3 := mk_s3 "http://localhost:9000" "warehouse" "admin" "password" "us-east-1" in
  let sql := attach_preamble cat s3 in
  _ ← assert (contains "s3_endpoint='localhost:9000'" sql);
  _ ← assert (contains "s3_use_ssl=false" sql);
  _ ← assert (contains "DATA_INLINING_ROW_LIMIT 0" sql);
  assert (contains "ducklake:postgres:host=127.0.0.1 dbname=holy_grail" sql).

(** [value(i)] and [is_null(i)] of a column panic past its end. *)
Definition batches_are_pk_sorted_and_keep_tombstones : test :=
  let mt := mt_insert (put (lit "c") 1 (lit "three")) mt_new in
  let mt := mt_insert (put (lit "a") 2 (lit "one")) mt in
  let mt := mt_insert (delete (lit "b") 3) mt in
  let bs := batches mt in
  _ ← assert_eq (zlen bs) 1;
  b ← run_lift (bs !! 0%nat);
  _ ← assert_eq (zlen (batch_rows b)) 3;
  pk ← run_lift (col_pk b !! 0%nat); _ ← assert_eq pk (lit "a");
  pk ← run_lift (col_pk b !! 1%nat); _ ← assert_eq pk (lit "b");
  pk ← run_lift (col_pk b !! 2%nat); _ ← assert_eq pk (lit "c");
  value ← run_lift (col_value b !! 1%nat); _ ← assert (bool_decide (value = None));
  op ← run_lift (col_op b !! 1%nat); assert_eq op (op_code Delete).

Definition a_batch_boundary_does_not_lose_rows : test :=
  let mt := fold_left (λ mt i, mt_insert (put (lit ("k" +:+ padded 8 i)) i (lit "v")) mt)
              (range 0 (BATCH_ROWS + 5)) mt_new in
  let bs := batches mt in
  _ ← assert_eq (zlen bs) 2;
  let total := foldr (λ b n, zlen (batch_rows b) + n) 0 bs in
  assert_eq total (BATCH_ROWS + 5).
End flush_tests.

(** * [schema.rs] *)

(** [str::parse::<i32>] *)
Definition parse_i32 (s : string) : option Z :=
  n ← (match list_of_str s with
       | "-"%char :: "+"%char :: _ => None
       | "-"%char :: l => Z.opp <$> parse_u64 (str_of_list l)
       | _ => parse_u64 s
       end);
  if (- 2 ^ 31 <=? n) && (n <? 2 ^ 31) then Some n else None.

Fixpoint fields_agree (fields : list Field) (expected : list (Z * string * string)) : test :=
  match fields, expected with
  | f :: fields, (id, name, _) :: expected =>
    got ← run_lift (parse_i32 (field_id f));
    _ ← assert_eq got id;
    _ ← assert_eq (field_name f) name;
    fields_agree fields expected
  | _, _ => mret tt
  end.
Definition arrow_field_ids_match_expected_columns : test :=
  _ ← assert_eq (zlen arrow_schema) (zlen EXPECTED_COLUMNS);
  fields_agree arrow_schema EXPECTED_COLUMNS.

Definition pk_is_the_first_column : test :=
  e ← run_lift (EXPECTED_COLUMNS !! 0%nat);
  _ ← assert_eq e.1.1 FIELD_ID_PK;
  f ← run_lift (arrow_schema !! 0%nat);
  assert_eq (field_name f) "pk"%string.

(** * They pass *)

(** With the checksum of the crate. *)
Lemma record_tests_pass :
  passes (roundtrip crc32_ieee) tt ∧ passes (torn_tail_is_not_an_error crc32_ieee) tt ∧
  passes (bit_flip_in_payload_is_a_torn_tail_not_a_bad_record crc32_ieee) tt.
Proof. unfold passes. split_and!; vm_compute; by eexists. Qed.

Lemma schema_tests_pass :
  passes arrow_field_ids_match_expected_columns tt ∧ passes pk_is_the_first_column tt.
Proof. unfold passes. split_and!; vm_compute; by eexists. Qed.

Section pass.
Context {T : Type} `{SkipMapLaws T}.

Lemma StronglySorted_NoDup_bytes l : StronglySorted bytes_lt l → NoDup l.
Proof.
  induction 1 as [|x l Hl IH Hall]; constructor; [| done]. rewrite Forall_forall in Hall.
  intros Hin. by apply (bytes_lt_irrefl x), Hall.
Qed.

(** What a memtable of a test holds, and what it answers then. *)
Ltac holds := first [apply mt_new_holds | eapply mt_insert_holds; holds].
Ltac answers := erewrite mt_get_holds; [vm_compute; reflexivity | holds].

Lemma iter_sorted_list (m : Memtable T) rs l :
  mt_holds m rs → StronglySorted bytes_lt l.*1 →
  (∀ k e, (k, e) ∈ l ↔ ∃ r, newest k rs = Some r ∧ e = entry_of r) → mt_iter m = l.
Proof.
  intros Hm Hs Hl. apply (sorted_assoc_unique bytes_lt); [apply sm_iter_sorted | done |].
  intros k e. by rewrite (mt_iter_holds _ _ _ _ Hm), Hl.
Qed.

(** When all records have one key there is one entry. *)
Lemma iter_one (m : Memtable T) rs k r :
  mt_holds m rs → Forall (λ r, key r = k) rs → newest k rs = Some r → mt_iter m = [(k, entry_of r)].
Proof.
  intros Hm Hk Hr. eapply iter_sorted_list; [exact Hm | repeat constructor |]. intros k' e.
  rewrite list_elem_of_singleton. split; [intros [= -> ->]; eauto |].
  intros (r' & Hr' & ->). pose proof (newest_elem _ _ _ Hr') as (Hin & Hk' & _).
  rewrite Forall_forall in Hk. rewrite (Hk _ Hin) in Hk'. subst k'. by rewrite Hr in Hr'; injection Hr' as <-.
Qed.

(** When all keys differ nothing is replaced. *)
Lemma iter_distinct (m : Memtable T) rs :
  mt_holds m rs → NoDup (key <$> rs) → mt_iter m ≡ₚ (λ r, (key r, entry_of r)) <$> rs.
Proof.
  intros Hm Hnd. assert (∀ r, r ∈ rs → newest (key r) rs = Some r) as Hnew.
  { intros r Hr. destruct (newest (key r) rs) as [b|] eqn:E.
    - apply newest_elem in E as (Hb & Hk & _). f_equal. by apply (NoDup_fmap_elem key rs).
    - rewrite newest_None in E. by apply E in Hr. }
  apply NoDup_Permutation.
  - apply (NoDup_fmap_1 fst), StronglySorted_NoDup_bytes, sm_iter_sorted.
  - apply (NoDup_fmap_1 fst). by rewrite <- list_fmap_compose.
  - intros [k e]. rewrite (mt_iter_holds _ _ _ _ Hm), list_elem_of_fmap. split.
    + intros (r & Hr & ->). apply newest_elem in Hr as (Hr & <- & _). by exists r.
    + intros (r & [= -> ->] & Hr). exists r. split; [by apply Hnew | done].
Qed.

Lemma iter_distinct_sorted (m : Memtable T) rs l :
  mt_holds m rs → NoDup (key <$> rs) → StronglySorted bytes_lt l.*1 →
  l ≡ₚ (λ r, (key r, entry_of r)) <$> rs → mt_iter m = l.
Proof.
  intros Hm Hnd Hs Hp. apply (sorted_assoc_unique bytes_lt); [apply sm_iter_sorted | done |].
  intros k e. by rewrite (iter_distinct _ _ Hm Hnd), Hp.
Qed.

Lemma len_one (m : Memtable T) rs k r :
  mt_holds m rs → Forall (λ r, key r = k) rs → newest k rs = Some r → mt_len m = 1.
Proof. intros Hm Hk Hr. unfold mt_len. rewrite sm_len_iter. change (zlen (mt_iter m) = 1). by erewrite (iter_one m). Qed.
Lemma max_holds (m : Memtable T) rs n : mt_holds m rs → max_lsn_of rs = n → mt_max_lsn m = n.
Proof. by intros [_ ->] <-. Qed.

(** One assertion of a test on a memtable. *)
Ltac fact :=
  first
  [ erewrite mt_get_holds by holds; vm_compute; reflexivity
  | eapply max_holds; [holds | vm_compute; reflexivity]
  | eapply len_one; [holds | repeat (constructor; [vm_compute; reflexivity |]); constructor
                    | vm_compute; reflexivity] ].
Ltac facts :=
  cbv zeta; repeat (unfold passes; rewrite assert_eq_then by fact); apply passes_eq; fact.

Lemma put_get_overwrite_passes : passes (put_get_overwrite (T := T)) tt.
Proof. unfold put_get_overwrite. facts. Qed.
Lemma an_out_of_order_arrival_passes : passes (an_out_of_order_arrival_does_not_beat_a_newer_lsn (T := T)) tt.
Proof. unfold an_out_of_order_arrival_does_not_beat_a_newer_lsn. facts. Qed.
Lemma delete_leaves_a_tombstone_passes : passes (delete_leaves_a_tombstone_not_a_hole (T := T)) tt.
Proof. unfold delete_leaves_a_tombstone_not_a_hole. facts. Qed.

Lemma iteration_is_pk_sorted_passes : passes (iteration_is_pk_sorted (T := T)) tt.
Proof.
  unfold iteration_is_pk_sorted. apply passes_eq.
  assert (mt_iter (fold_left (λ mt k, mt_insert (put (lit k) 1 (lit "v")) mt)
      ["delta"; "alpha"; "charlie"; "bravo"]%string (mt_new (T := T))) =
    (λ k, (lit k, mk_entry 1 Put (lit "v"))) <$> ["alpha"; "bravo"; "charlie"; "delta"]%string) as ->; [| done].
  eapply iter_distinct_sorted; [cbn [fold_left]; holds | | |].
  - apply (bool_decide_eq_true_1 _). vm_compute. reflexivity.
  - repeat (constructor; [| repeat (constructor; [vm_compute; reflexivity |]); constructor]). constructor.
  - apply (bool_decide_eq_true_1 _). vm_compute. reflexivity.
Qed.

(** A new set, and a freeze that is not refused. *)
Lemma new_set max_bytes max_frozen : 0 < max_frozen →
  ∃ s : MemtableSet T, run_lift (ms_new max_bytes max_frozen) tt = Some (s, tt) ∧ ms_holds s [] [] ∧
    ms_max_frozen s = max_frozen ∧ ms_max_bytes s = max_bytes ∧ ms_frozen s = [] ∧
    mt_approx_bytes (arc_mt (ms_active s)) = 0.
Proof.
  intros Hm. destruct (ms_new max_bytes max_frozen) as [s|] eqn:E.
  - destruct (ms_new_holds _ _ _ E) as (Hs & Hb & Hf & _). exists s. split; [done |].
    unfold ms_new in E. case_match; [| done]. by injection E as <-.
  - unfold ms_new in E. case_match; [done |]. zbool. lia.
Qed.

Lemma froze_holds (s : MemtableSet T) fro act :
  ms_holds s fro act → act ≠ [] → zlen fro < ms_max_frozen s →
  ∃ s', froze s tt = Some ((ms_active s, s'), tt) ∧ ms_holds s' (fro ++ [act]) [] ∧
    ms_frozen s' = ms_frozen s ++ [ms_active s] ∧ ms_max_frozen s' = ms_max_frozen s.
Proof.
  intros Hs Hne Hlt. pose proof (ms_freeze_holds _ _ _ Hs) as Hf. unfold froze, run_lift.
  destruct (ms_freeze s) as [[[a|]|e] s'].
  - destruct Hf as (_ & _ & -> & _ & Hfr & Hs' & _ & Hmax). by exists s'.
  - by destruct Hf as (-> & _).
  - destruct Hf as (_ & Hst & _). unfold ms_stalled in Hst. zbool.
    pose proof (Forall2_length _ _ _ (mh_frozen _ _ _ Hs)) as Hl. unfold zlen in *. lia.
Qed.

Ltac set_holds :=
  first [eassumption | eapply ms_insert_holds; set_holds].
Ltac set_fact := erewrite ms_get_holds by set_holds; vm_compute; reflexivity.

(** An insert and a freeze. *)
Lemma froze_insert (s : MemtableSet T) fro act r :
  ms_holds s fro act → zlen fro < ms_max_frozen s →
  ∃ s', froze (ms_insert r s) tt = Some ((ms_active (ms_insert r s), s'), tt) ∧
    ms_holds s' (fro ++ [act ++ [r]]) [] ∧
    ms_frozen s' = ms_frozen s ++ [ms_active (ms_insert r s)] ∧ ms_max_frozen s' = ms_max_frozen s.
Proof.
  intros Hs Hlt. apply (froze_holds (ms_insert r s)); [by apply ms_insert_holds | | done].
  by destruct act.
Qed.

Lemma newer_memtable_shadows_older_passes : passes (newer_memtable_shadows_older (T := T)) tt.
Proof.
  unfold newer_memtable_shadows_older. destruct (new_set (Z.shiftl 1 20) 4) as (s & E & Hs & Hm & _); [done |].
  calls E. cbv zeta. destruct (froze_insert s [] [] (put (lit "a") 1 (lit "old")) Hs) as (s' & E' & Hs' & _);
    [by rewrite Hm |]. calls E'.
  unfold passes. rewrite assert_eq_then by set_fact. apply passes_eq. set_fact.
Qed.

Lemma frozen_memtable_still_serves_reads_passes : passes (frozen_memtable_still_serves_reads (T := T)) tt.
Proof.
  unfold frozen_memtable_still_serves_reads.
  destruct (new_set (Z.shiftl 1 20) 4) as (s & E & Hs & Hm & _ & Hfr & _); [done |].
  calls E. cbv zeta. destruct (froze_insert s [] [] (put (lit "a") 1 (lit "v")) Hs) as (s' & E' & Hs' & Hfr' & _);
    [by rewrite Hm |]. calls E'.
  unfold passes. rewrite assert_eq_then by set_fact. apply passes_eq. rewrite Hfr in Hfr'.
  destruct (ms_retire_holds s' [] _ [] [] [put (lit "a") 1 (lit "v")] [] [] Hs' Hfr' eq_refl) as [Hr _].
  by rewrite (ms_get_holds _ _ _ _ Hr).
Qed.

Lemma freeze_threshold_tracks_bytes_passes : passes (freeze_threshold_tracks_bytes (T := T)) tt.
Proof.
  unfold freeze_threshold_tracks_bytes. destruct (new_set 512 4) as (s & E & _ & _ & Hb & _ & Ha); [done |].
  calls E. unfold passes, ms_should_freeze. rewrite Hb, Ha, assert_then by done. apply passes_assert.
  change (range 0 8) with [0; 1; 2; 3; 4; 5; 6; 7]. cbn [fold_left ms_insert ms_max_bytes ms_active arc_mt mt_insert mt_approx_bytes].
  rewrite Hb, Ha. vm_compute. reflexivity.
Qed.

Lemma frozen_queue_backpressures_passes : passes (frozen_queue_backpressures_instead_of_growing (T := T)) tt.
Proof.
  unfold frozen_queue_backpressures_instead_of_growing.
  destruct (new_set 64 2) as (s & E & Hs & Hm & _); [done |]. calls E.
  change (range 0 2) with [0; 1]. cbn [freeze_each].
  destruct (froze_insert s [] [] (put (lit ("k" +:+ show_u64 0)) 0 (lit "v")) Hs) as (s1 & E1 & Hs1 & _ & Hm1);
    [by rewrite Hm |]. rewrite Hm in Hm1.
  destruct (froze_insert s1 _ [] (put (lit ("k" +:+ show_u64 1)) 1 (lit "v")) Hs1) as (s2 & E2 & Hs2 & _ & Hm2);
    [by rewrite Hm1 |]. rewrite Hm1 in Hm2.
  eapply passes_bind; [rewrite (run_bind_ok _ _ _ _ _ E1); cbn beta iota; rewrite (run_bind_ok _ _ _ _ _ E2); reflexivity |].
  pose proof (Forall2_length _ _ _ (mh_frozen _ _ _ Hs2)) as Hl. simpl in Hl.
  assert (zlen (ms_frozen s2) = 2) as Hz by (unfold zlen; by rewrite Hl).
  unfold passes, ms_stalled. rewrite Hm2, Hz, assert_then by done. apply passes_assert.
  unfold ms_freeze. cbn [ms_insert ms_max_frozen ms_frozen]. by rewrite Hm2, Hz.
Qed.

Lemma freezing_an_empty_memtable_is_a_no_op_passes : passes (freezing_an_empty_memtable_is_a_no_op (T := T)) tt.
Proof.
  unfold freezing_an_empty_memtable_is_a_no_op. destruct (new_set 64 2) as (s & E & Hs & Hm & _ & Hfr & _); [done |].
  calls E. pose proof (ms_freeze_holds _ _ _ Hs) as Hf. destruct (ms_freeze s) as [[[a|]|e] s'].
  - by destruct Hf as [? _].
  - destruct Hf as (_ & _ & ->). unfold ms_frozen_count. rewrite Hfr. by eexists.
  - destruct Hf as (_ & Hst & _). unfold ms_stalled in Hst. by rewrite Hm, Hfr in Hst.
Qed.

Lemma memtable_tests_pass :
  passes (put_get_overwrite (T := T)) tt ∧
  passes (an_out_of_order_arrival_does_not_beat_a_newer_lsn (T := T)) tt ∧
  passes (delete_leaves_a_tombstone_not_a_hole (T := T)) tt ∧
  passes (iteration_is_pk_sorted (T := T)) tt ∧
  passes (newer_memtable_shadows_older (T := T)) tt ∧
  passes (frozen_memtable_still_serves_reads (T := T)) tt ∧
  passes (freeze_threshold_tracks_bytes (T := T)) tt ∧
  passes (frozen_queue_backpressures_instead_of_growing (T := T)) tt ∧
  passes (freezing_an_empty_memtable_is_a_no_op (T := T)) tt.
Proof.
  split_and!; auto using put_get_overwrite_passes, an_out_of_order_arrival_passes,
    delete_leaves_a_tombstone_passes, iteration_is_pk_sorted_passes, newer_memtable_shadows_older_passes,
    frozen_memtable_still_serves_reads_passes, freeze_threshold_tracks_bytes_passes,
    frozen_queue_backpressures_passes, freezing_an_empty_memtable_is_a_no_op_passes.
Qed.

(** The tests of the flush. *)
Lemma staging_path_passes : passes staging_path_is_a_function_of_the_watermark tt.
Proof. unfold passes. vm_compute. by eexists. Qed.
Lemma attach_preamble_passes :
  passes attach_preamble_strips_the_endpoint_scheme_and_disables_inlining tt.
Proof. unfold passes. vm_compute. by eexists. Qed.

Lemma plan_skips_passes : passes (plan_skips_a_flush_already_covered_by_the_watermark (T := T)) tt.
Proof.
  unfold plan_skips_a_flush_already_covered_by_the_watermark. cbv zeta.
  assert (mt_holds (mt_insert (put (lit "a") 5 (lit "one")) (mt_new (T := T))) [put (lit "a") 5 (lit "one")]) as Hm
    by (apply (mt_insert_holds _ []), mt_new_holds).
  pose proof (mt_is_empty_holds _ _ Hm) as He.
  assert (mt_is_empty (mt_insert (put (lit "a") 5 (lit "one")) (mt_new (T := T))) = false) as Ee
    by (destruct (mt_is_empty _); [by assert (False) by (by discriminate (proj1 He eq_refl)) | done]).
  unfold plan. rewrite Ee. destruct Hm as [_ ->]. by eexists.
Qed.

Lemma plan_on_empty_passes : passes (plan_on_empty_memtable_is_empty (T := T)) tt.
Proof.
  apply passes_eq. unfold plan. by rewrite (proj2 (mt_is_empty_holds _ _ (mt_new_holds (T := T))) eq_refl).
Qed.

Lemma batches_are_pk_sorted_passes : passes (batches_are_pk_sorted_and_keep_tombstones (T := T)) tt.
Proof.
  unfold batches_are_pk_sorted_and_keep_tombstones. cbv zeta.
  set (m := mt_insert (delete (lit "b") 3) _).
  assert (mt_iter m = [(lit "a", mk_entry 2 Put (lit "one")); (lit "b", mk_entry 3 Delete []);
                       (lit "c", mk_entry 1 Put (lit "three"))]) as E.
  { eapply iter_distinct_sorted; [subst m; holds | | |].
    - apply (bool_decide_eq_true_1 _). vm_compute. reflexivity.
    - repeat (constructor; [| repeat (constructor; [vm_compute; reflexivity |]); constructor]). constructor.
    - apply (bool_decide_eq_true_1 _). vm_compute. reflexivity. }
  unfold batches. rewrite E. unfold passes. vm_compute. by eexists.
Qed.

Lemma insert_each_holds {A} (f : A → record) l (m : Memtable T) rs :
  mt_holds m rs → mt_holds (fold_left (λ mt i, mt_insert (f i) mt) l m) (rs ++ (f <$> l)).
Proof.
  revert m rs. induction l as [|x l IH]; intros m rs Hm; simpl; [by rewrite app_nil_r |].
  rewrite (cons_middle (f x)), app_assoc. by apply IH, mt_insert_holds.
Qed.

(** A little more than one full batch is two batches. *)
Lemma two_batches (m : Memtable T) n :
  zlen (mt_iter m) = BATCH_ROWS + n → 0 < n < BATCH_ROWS →
  ∃ b1 b2, batches m = [b1; b2] ∧ zlen (batch_rows b1) + (zlen (batch_rows b2) + 0) = BATCH_ROWS + n.
Proof.
  intros Hn Hb. destruct (batches_parts m) as (chunks & rest & -> & Ei & Hf & Hr).
  rewrite Ei in Hn. pose proof (zlen_nonneg rest).
  destruct chunks as [|c1 [|c2 chunks]]; simpl in Hn |- *.
  - destruct (0 <? zlen rest); simpl in Hn; autorewrite with hg_len in Hn; lia.
  - inversion_clear Hf as [|? ? Hc _]. destruct (0 <? zlen rest) eqn:Ez; zbool; simpl in Hn;
      autorewrite with hg_len in Hn; [| lia].
    exists (batch_of c1), (batch_of rest). split; [done |]. rewrite !batch_rows_of. unfold zlen in *. rewrite !length_fmap. lia.
  - inversion_clear Hf as [|? ? Hc Hf']. inversion_clear Hf' as [|? ? Hc2 _].
    autorewrite with hg_len in Hn. pose proof (zlen_nonneg (concat (chunks ++ (if 0 <? zlen rest then [rest] else [])))).
    lia.
Qed.

Lemma zlen_range lo hi : lo ≤ hi → zlen (range lo hi) = hi - lo.
Proof. intros Hlh. unfold zlen, range. rewrite length_seqZ. lia. Qed.

(** The keys of the last test. *)
Lemma padded_keys_iter n (m : Memtable T) :
  0 ≤ n < 10 ^ 20 →
  mt_holds m ((λ i, put (lit ("k" +:+ padded 8 i)) i (lit "v")) <$> range 0 n) → zlen (mt_iter m) = n.
Proof.
  intros Hn Hm.
  assert (NoDup (key <$> ((λ i, put (lit ("k" +:+ padded 8 i)) i (lit "v")) <$> range 0 n))) as Hnd.
  { rewrite <- list_fmap_compose. apply (NoDup_fmap_2_strong _ _); [| apply NoDup_seqZ].
    intros i j Hi%elem_of_seqZ Hj%elem_of_seqZ Ek%lit_inj.
    apply (padded_inj 8); [lia.. |]. by injection Ek. }
  pose proof (Permutation_length (iter_distinct _ _ Hm Hnd)) as Hl. rewrite !length_fmap in Hl.
  unfold zlen at 1. rewrite Hl. change (zlen (range 0 n) = n). rewrite zlen_range; lia.
Qed.

Lemma a_batch_boundary_passes : passes (a_batch_boundary_does_not_lose_rows (T := T)) tt.
Proof.
  unfold a_batch_boundary_does_not_lose_rows. cbv zeta.
  pose proof (insert_each_holds (λ i, put (lit ("k" +:+ padded 8 i)) i (lit "v")) (range 0 (BATCH_ROWS + 5)) _ _
                (mt_new_holds (T := T))) as Hm.
  rewrite app_nil_l in Hm. revert Hm. generalize (fold_left (λ mt i, mt_insert (put (lit ("k" +:+ padded 8 i)) i (lit "v")) mt)
    (range 0 (BATCH_ROWS + 5)) (mt_new (T := T))). intros m Hm.
  apply padded_keys_iter in Hm; [| unfold BATCH_ROWS; lia].
  apply two_batches in Hm as (b1 & b2 & Eb & Hrows); [| unfold BATCH_ROWS; lia].
  rewrite Eb.
  unfold passes. rewrite assert_eq_then by reflexivity. apply passes_eq. exact Hrows.
Qed.

Lemma flush_tests_pass :
  passes staging_path_is_a_function_of_the_watermark tt ∧
  passes (plan_skips_a_flush_already_covered_by_the_watermark (T := T)) tt ∧
  passes (plan_on_empty_memtable_is_empty (T := T)) tt ∧
  passes attach_preamble_strips_the_endpoint_scheme_and_disables_inlining tt ∧
  passes (batches_are_pk_sorted_and_keep_tombstones (T := T)) tt ∧
  passes (a_batch_boundary_does_not_lose_rows (T := T)) tt.
Proof.
  split_and!; auto using staging_path_passes, plan_skips_passes, plan_on_empty_passes,
    attach_preamble_passes, batches_are_pk_sorted_passes, a_batch_boundary_passes.
Qed.
End pass.

(** With the finite maps of stdpp as the skip list. *)
Example flush_tests_pass_gmap : passes (a_batch_boundary_does_not_lose_rows (T := gmap bytes Entry)) tt.
Proof. destruct (flush_tests_pass (T := gmap bytes Entry)) as (_ & _ & _ & _ & _ & H). exact H. Qed.
