(* ===== verification/Engine.v ===== *)
(** [src/src/engine.rs]: the write path, the read path, the flush and recovery.

    An engine is its in-memory state; the [world] is what outlives it: the WAL
    directory, the staging directory and the lake. Methods run on the pair. Each
    [await]ed call is one step and the methods below run one at a time; every [?]
    is a bind, so a failure leaves the engine and the world where they were.
    The object-store latency ([charge]) and the caches of the reader change no
    answer and are not part of this state: [Node.v] adds them. [Concurrent.v] interleaves
    the steps. *)

From S2P Require Import Latency.
From S2P Require Import Prelude RecordModel Fs Wal Memtable Flush Columnar.

Inductive CrashAt : Type := BeforeWrite | AfterWrite | AfterCommit | AfterTruncate.

#[export] Instance CrashAt_eq_dec : EqDecision CrashAt.
Proof. solve_decision. Defined.

Record Config : Type := mk_config {
  wal_dir : string;
  wal_segment_bytes : Z;
  memtable_max_bytes : Z;
  max_frozen_memtables : Z;
  cfg_s3 : S3Config;
  cfg_catalog : CatalogConfig;
  cfg_duckdb : DuckDbConfig;
  latency : LatencyProfile;
  cache_bytes : Z;
}.

(** [cfg.wal_dir.join("staging")]. *)
Definition staging_dir (cfg : Config) : string := wal_dir cfg +:+ "/staging".

Section engine.
Context {T : Type} `{SkipMap T} {L I : Type} `{Columnar L I}.
Context (crc32_hash : bytes → Z).
Context (read_dir : gmap string file → list string).
Context (parquet_head : list Field → bytes) (parquet_batch : RecordBatch → bytes).
Context (parquet_footer : list RecordBatch → bytes).
Context (cfg : Config).

Record engine : Type := mk_engine {
  en_index : I;
  en_memtables : MemtableSet T;
  en_wal : wal;
  en_next_lsn : Lsn;
}.

Record world : Type := mk_world {
  w_wal : fs;
  w_staging : fs;
  w_lake : L;
}.

Definition set_w_wal (x : fs) (w : world) : world := mk_world x (w_staging w) (w_lake w).
Definition set_w_staging (x : fs) (w : world) : world := mk_world (w_wal w) x (w_lake w).
Definition set_w_lake (x : L) (w : world) : world := mk_world (w_wal w) (w_staging w) x.
Definition set_en_index (x : I) (e : engine) : engine :=
  mk_engine x (en_memtables e) (en_wal e) (en_next_lsn e).
Definition set_en_memtables (x : MemtableSet T) (e : engine) : engine :=
  mk_engine (en_index e) x (en_wal e) (en_next_lsn e).
Definition set_en_wal (x : wal) (e : engine) : engine :=
  mk_engine (en_index e) (en_memtables e) x (en_next_lsn e).
Definition set_en_next_lsn (x : Lsn) (e : engine) : engine :=
  mk_engine (en_index e) (en_memtables e) (en_wal e) x.

(** * Recovery *)

(** [Engine::open], from the first call that reaches the catalog; building the
    object-store client before it touches no state. [Ok None] is the panic of
    [MemtableSet::new]. *)
Definition open : M world (option engine) :=
  _ ← m_zoom w_lake set_w_lake co_connect;
  watermark ← m_zoom w_lake set_w_lake co_published_watermark;
  index ← m_zoom w_lake set_w_lake co_load;
  '(w, replay) ← m_zoom w_wal set_w_wal
    (Wal.open crc32_hash read_dir (wal_segment_bytes cfg) watermark);
  match ms_new (memtable_max_bytes cfg) (max_frozen_memtables cfg) with
  | None => mret None
  | Some memtables =>
    let memtables := fold_left (λ s rec, ms_insert rec s) (replay_records replay) memtables in
    let next_lsn := as_u64 (replay_max_lsn replay `max` watermark + 1) in
    _ ← m_zoom w_staging set_w_staging dir_call;
    mret (Some (mk_engine index memtables w next_lsn))
  end.

(** * Methods on an open engine *)

Definition self : M (engine * world) engine := '(e, _) ← m_get; mret e.
Definition upd (f : engine → engine) : M (engine * world) unit :=
  m_modify (λ '(e, w), (f e, w)).
Definition on_world {A} (m : M world A) : M (engine * world) A :=
  m_zoom snd (λ w st, (fst st, w)) m.
Definition on_lake {A} (m : M L A) : M (engine * world) A :=
  on_world (m_zoom w_lake set_w_lake m).
Definition on_staging {A} (m : M fs A) : M (engine * world) A :=
  on_world (m_zoom w_staging set_w_staging m).
Definition on_wal {A} (m : M (wal * fs) A) : M (engine * world) A :=
  m_zoom (λ '(e, w), (en_wal e, w_wal w))
    (λ '(x, f) '(e, w), (set_en_wal x e, set_w_wal f w)) m.
Definition on_memtables {A} (m : M (MemtableSet T) A) : M (engine * world) A :=
  m_zoom (λ '(e, _), en_memtables e) (λ x '(e, w), (set_en_memtables x e, w)) m.

Definition truncate_wal (watermark : Lsn) : M (engine * world) unit :=
  on_wal (truncate_through watermark).

Definition publish_index : M (engine * world) unit :=
  index ← on_lake co_load;
  upd (set_en_index index).

Definition retire (frozen : arc T) : M (engine * world) unit :=
  upd (λ e, set_en_memtables (ms_retire frozen (en_memtables e)) e).

(** [flush::publish]: DuckDB reads the staging file, if it is there. *)
Definition publish (staging : string) : M (engine * world) unit :=
  '(_, w) ← m_get;
  match fs_files (w_staging w) !! staging with
  | Some f => on_lake (co_publish staging (contents f))
  | None => m_err (DuckDbExec 1 "no such file")
  end.

(** What [flush_inner] does once the plan is to write. *)
Definition flush_write (crash : option CrashAt) (frozen : arc T) (watermark : Lsn) :
    M (engine * world) Flushed :=
  let staging := staging_path (staging_dir cfg) watermark in
  _ ← on_staging (stage parquet_head parquet_batch parquet_footer (arc_mt frozen) staging);
  if decide (crash = Some AfterWrite) then mret Flushed_Empty else
  _ ← publish staging;
  _ ← publish_index;
  if decide (crash = Some AfterCommit) then mret (Flushed_Committed watermark 1) else
  _ ← truncate_wal watermark;
  if decide (crash = Some AfterTruncate) then mret (Flushed_Committed watermark 1) else
  _ ← retire frozen;
  (* the result of [remove_file] is dropped *)
  _ ← action (λ s, match on_staging (remove_file staging) s with (_, s') => (Ok tt, s') end);
  mret (Flushed_Committed watermark 1).

(** What [flush_inner] does with the memtable it froze. *)
Definition flush_frozen (crash : option CrashAt) (frozen : arc T) : M (engine * world) Flushed :=
  if decide (crash = Some BeforeWrite) then mret Flushed_Empty else
  published ← on_lake co_published_watermark;
  match plan published (arc_mt frozen) with
  | Plan_Empty => _ ← retire frozen; mret Flushed_Empty
  | Plan_AlreadyPublished watermark =>
    _ ← truncate_wal watermark;
    _ ← retire frozen;
    mret (Flushed_AlreadyPublished watermark)
  | Plan_Write watermark => flush_write crash frozen watermark
  end.

Definition flush_inner (crash : option CrashAt) : M (engine * world) Flushed :=
  frozen ← on_memtables ms_freeze;
  match frozen with
  | None => mret Flushed_Empty
  | Some frozen => flush_frozen crash frozen
  end.

Definition flush : M (engine * world) Flushed := flush_inner None.

Definition append (rec : record) : M (engine * world) unit :=
  _ ← on_wal (Wal.append crc32_hash [rec]);
  _ ← upd (λ e, set_en_memtables (ms_insert rec (en_memtables e)) e);
  e ← self;
  if ms_should_freeze (en_memtables e) then _ ← flush; mret tt else mret tt.

(** [next_lsn.fetch_add(1)]. *)
Definition fetch_add_lsn : M (engine * world) Lsn :=
  e ← self;
  _ ← upd (set_en_next_lsn (as_u64 (en_next_lsn e + 1)));
  mret (en_next_lsn e).

Definition put (k v : bytes) : M (engine * world) Lsn :=
  lsn ← fetch_add_lsn;
  _ ← append (RecordModel.put k lsn v);
  mret lsn.

Definition delete (k : bytes) : M (engine * world) Lsn :=
  lsn ← fetch_add_lsn;
  _ ← append (RecordModel.delete k lsn);
  mret lsn.

Definition get (k : bytes) : M (engine * world) (option bytes) :=
  e ← self;
  match ms_get k (en_memtables e) with
  | Found v => mret (Some v)
  | Deleted => mret None
  | Missing =>
    l ← on_lake (co_get (en_index e) k);
    mret (match l with Found v => Some v | Deleted | Missing => None end)
  end.

Definition watermark (e : engine) : Lsn := co_watermark (en_index e).
End engine.
