(* ===== verification/Settings.v ===== *)
(** [src/src/config.rs]: the settings, read from the environment with defaults.

    The environment is the variables that are set to valid Unicode, which is what
    [std::env::var] reports as [Ok]. [usize] is 64 bits. [None] is a panic. *)

From S2P Require Import Latency.
From S2P Require Import Prelude Memtable MemtableProps Flush Engine.

Section settings.
Context (ln : f64 → f64).
Context (vars : gmap string string).

Definition env (key dflt : string) : string := default dflt (vars !! key).
Definition env_opt (key : string) : option string := vars !! key.
(** Every number the settings read is a [u64] or a [usize]. *)
Definition env_parse (key : string) : option Z := v ← env_opt key; parse_u64 v.

Definition s3_default : S3Config :=
  mk_s3 (env "HG_S3_ENDPOINT" "http://localhost:9000") (env "HG_S3_BUCKET" "warehouse")
    (env "HG_S3_ACCESS_KEY" "admin") (env "HG_S3_SECRET_KEY" "password")
    (env "HG_S3_REGION" "us-east-1").

Definition catalog_default : CatalogConfig :=
  mk_catalog_config (env "HG_PG_CONN" "host=127.0.0.1 dbname=holy_grail")
    (env "HG_SCHEMA" "main") (env "HG_TABLE" "kv") (env "HG_DATA_PATH" "s3://warehouse/hg/").

Definition duckdb_default : DuckDbConfig :=
  mk_duckdb (env "HG_DUCKDB_BIN" "/Users/kriti/Projects/ducklake/build/release/duckdb") 8192 true.

Definition config_default : Config :=
  mk_config "./data/wal" (64 * 1024 * 1024) (64 * 1024 * 1024) 2 s3_default catalog_default
    duckdb_default profile_none (256 * 1024 * 1024).

(** [if let Some(v) = o { cfg.field = v; }] *)
Definition override {A} (o : option A) (old : A) : A := default old o.

(** The profile [HG_LATENCY] names; [None] is the panic. *)
Definition base_latency : option LatencyProfile :=
  let v := env "HG_LATENCY" "none" in
  if decide (v = "s3"%string) then Some (s3_same_region ln)
  else if decide (v = "express"%string) then Some (s3_express ln)
  else if decide (v = "none"%string) then Some profile_none
  else None.

(** A measured pair: both or neither. *)
Definition env_pair (p50 p99 : string) : option OpLatency :=
  p50 ← env_parse p50; p99 ← env_parse p99;
  Some (from_p50_p99 ln (from_millis p50) (from_millis p99)).

Definition from_env : option Config :=
  let cfg := config_default in
  let wal_dir := override (env_opt "HG_WAL_DIR") (wal_dir cfg) in
  let memtable_max_bytes := override (env_parse "HG_MEMTABLE_MAX_BYTES") (memtable_max_bytes cfg) in
  let max_frozen_memtables := override (env_parse "HG_MAX_FROZEN") (max_frozen_memtables cfg) in
  let cache_bytes := override (env_parse "HG_CACHE_BYTES") (cache_bytes cfg) in
  base ← base_latency;
  let get := override (env_pair "HG_LATENCY_GET_P50_MS" "HG_LATENCY_GET_P99_MS") (lp_get base) in
  let put := override (env_pair "HG_LATENCY_PUT_P50_MS" "HG_LATENCY_PUT_P99_MS") (lp_put base) in
  Some (mk_config wal_dir (wal_segment_bytes cfg) memtable_max_bytes max_frozen_memtables
    (cfg_s3 cfg) (cfg_catalog cfg) (cfg_duckdb cfg)
    (mk_profile get put (lp_list base) (lp_delete base)) cache_bytes).
End settings.

(** * Properties *)

Section properties.
Context (ln : f64 → f64) {T : Type} {SM : SkipMap T}.

Lemma env_parse_u64 vars key n : env_parse vars key = Some n → is_u64 n.
Proof. unfold env_parse. intros (v & _ & H)%bind_Some. by eapply parse_u64_range. Qed.

Lemma override_u64 vars key old : is_u64 old → is_u64 (override (env_parse vars key) old).
Proof. destruct (env_parse vars key) as [n|] eqn:E; [by apply env_parse_u64 in E | done]. Qed.

Lemma env_pair_spec vars p50 p99 old :
  override (env_pair ln vars p50 p99) old =
  match vars !! p50 ≫= parse_u64, vars !! p99 ≫= parse_u64 with
  | Some a, Some b => from_p50_p99 ln (from_millis a) (from_millis b)
  | _, _ => old
  end.
Proof.
  unfold env_pair, env_parse, env_opt. simpl.
  by destruct (vars !! p50 ≫= parse_u64), (vars !! p99 ≫= parse_u64).
Qed.

Lemma base_latency_word vars base :
  base_latency ln vars = Some base →
  (vars !! "HG_LATENCY"%string, base) ∈
    [(None, profile_none); (Some "none", profile_none); (Some "s3", s3_same_region ln);
     (Some "express", s3_express ln)]%string.
Proof.
  unfold base_latency, env. rewrite !elem_of_cons.
  destruct (vars !! "HG_LATENCY"%string) as [w|]; simpl; repeat case_decide; intros [= <-]; subst; tauto.
Qed.

Lemma base_latency_none vars :
  base_latency ln vars = None ↔
    ∃ w, vars !! "HG_LATENCY"%string = Some w ∧ w ∉ ["s3"; "express"; "none"]%string.
Proof.
  unfold base_latency, env. destruct (vars !! "HG_LATENCY"%string) as [w|]; simpl.
  - split.
    + intros H. exists w. split; [done |]. rewrite !not_elem_of_cons.
      repeat case_decide; try done. split_and!; try done. apply not_elem_of_nil.
    + intros (? & [= <-] & H). rewrite !not_elem_of_cons in H. repeat case_decide; naive_solver.
  - split; [done |]. by intros (? & ? & _).
Qed.

Lemma ms_new_none bytes frozen : ms_new (T := T) bytes frozen = None ↔ ¬ 0 < frozen.
Proof. unfold ms_new. destruct (Z.ltb_spec 0 frozen); naive_solver lia. Qed.

(** What a variable says: its number, if it is set to the text of one. *)
Definition number_of (vars : gmap string string) (key : string) : option Z := vars !! key ≫= parse_u64.

(** C35: what the environment does to the settings, each of them. Only a word in
    [HG_LATENCY] that names no profile stops the process. The three numbers that can be
    set are those of their variables where these parse, and the defaults where a
    variable is not set or does not parse; every text is its variable's or its default;
    the rest is fixed. The latency profile is the named one, none if no word is set; its
    class of gets and its class of puts are each fitted to their two percentiles when
    both variables parse, and are the profile's otherwise; the other two are the
    profile's. So every number is in the range of its type, the log has room for a
    record, and [MemtableSet::new] accepts the settings unless [HG_MAX_FROZEN] is zero. *)
Theorem from_env_admissible vars :
  (from_env ln vars = None ↔
     ∃ w, vars !! "HG_LATENCY"%string = Some w ∧ w ∉ ["s3"; "express"; "none"]%string) ∧
  ∀ cfg, from_env ln vars = Some cfg →
    Forall (λ '(x, key, dflt), x = match number_of vars key with Some n => n | None => dflt end)
      [(memtable_max_bytes cfg, "HG_MEMTABLE_MAX_BYTES", 67108864);
       (max_frozen_memtables cfg, "HG_MAX_FROZEN", 2);
       (cache_bytes cfg, "HG_CACHE_BYTES", 268435456)]%string ∧
    Forall (λ '(x, key, dflt), x = match vars !! key with Some v => v | None => dflt end)
      [(wal_dir cfg, "HG_WAL_DIR", "./data/wal");
       (s3_endpoint (cfg_s3 cfg), "HG_S3_ENDPOINT", "http://localhost:9000");
       (s3_bucket (cfg_s3 cfg), "HG_S3_BUCKET", "warehouse");
       (s3_access_key (cfg_s3 cfg), "HG_S3_ACCESS_KEY", "admin");
       (s3_secret_key (cfg_s3 cfg), "HG_S3_SECRET_KEY", "password");
       (s3_region (cfg_s3 cfg), "HG_S3_REGION", "us-east-1");
       (pg_conn (cfg_catalog cfg), "HG_PG_CONN", "host=127.0.0.1 dbname=holy_grail");
       (cat_schema (cfg_catalog cfg), "HG_SCHEMA", "main");
       (cat_table (cfg_catalog cfg), "HG_TABLE", "kv");
       (data_path (cfg_catalog cfg), "HG_DATA_PATH", "s3://warehouse/hg/");
       (duck_binary (cfg_duckdb cfg), "HG_DUCKDB_BIN", "/Users/kriti/Projects/ducklake/build/release/duckdb")]%string ∧
    wal_segment_bytes cfg = 67108864 ∧ row_group_size (cfg_duckdb cfg) = 8192 ∧
    catalog_blooms (cfg_duckdb cfg) = true ∧
    (∃ base,
      (vars !! "HG_LATENCY"%string, base) ∈
        [(None, profile_none); (Some "none", profile_none); (Some "s3", s3_same_region ln);
         (Some "express", s3_express ln)]%string ∧
      lp_get (latency cfg) =
        match number_of vars "HG_LATENCY_GET_P50_MS", number_of vars "HG_LATENCY_GET_P99_MS" with
        | Some p50, Some p99 => from_p50_p99 ln (from_millis p50) (from_millis p99)
        | _, _ => lp_get base
        end ∧
      lp_put (latency cfg) =
        match number_of vars "HG_LATENCY_PUT_P50_MS", number_of vars "HG_LATENCY_PUT_P99_MS" with
        | Some p50, Some p99 => from_p50_p99 ln (from_millis p50) (from_millis p99)
        | _, _ => lp_put base
        end ∧
      lp_list (latency cfg) = lp_list base ∧ lp_delete (latency cfg) = lp_delete base) ∧
    (is_u64 (wal_segment_bytes cfg) ∧ is_u64 (memtable_max_bytes cfg) ∧
     is_u64 (max_frozen_memtables cfg) ∧ is_u64 (cache_bytes cfg)) ∧
    0 < wal_segment_bytes cfg ∧
    (ms_new (T := T) (memtable_max_bytes cfg) (max_frozen_memtables cfg) = None ↔
       number_of vars "HG_MAX_FROZEN" = Some 0).
Proof.
  pose proof (base_latency_none vars) as Hb. pose proof (base_latency_word vars) as Hw. unfold from_env.
  destruct (base_latency ln vars) as [base|]; simpl; [| by split; [split; [intros _; by apply Hb | done] | done]].
  split; [split; [done | intros H; by apply Hb in H] |]. intros cfg [= <-]. cbn -[default].
  split; [by repeat constructor |]. split; [by repeat constructor |].
  split; [done |]. split; [done |]. split; [done |]. split; [| split; [| split; [done |]]].
  - exists base. split; [by apply Hw |]. by rewrite !env_pair_spec.
  - by split_and!; try apply override_u64.
  - rewrite ms_new_none. unfold override, number_of. change (vars !! ?k ≫= parse_u64) with (env_parse vars k).
    destruct (env_parse vars "HG_MAX_FROZEN") as [n|] eqn:E.
    + apply env_parse_u64 in E as [? _]. simpl. split; [intros ?; f_equal; lia | intros [= ->]; done].
    + simpl. split; [intros []; lia | done].
Qed.
End properties.

(** A zero queue, a number that does not parse, a pair, and half a pair. *)
Lemma from_env_admissible_witness :
  let vars : gmap string string :=
    list_to_map [("HG_MAX_FROZEN", "0"); ("HG_CACHE_BYTES", "lots"); ("HG_LATENCY", "s3");
      ("HG_LATENCY_GET_P50_MS", "5"); ("HG_LATENCY_GET_P99_MS", "9");
      ("HG_LATENCY_PUT_P50_MS", "5")]%string in
  from_env id vars ≠ None ∧
  ∀ cfg, from_env id vars = Some cfg →
    ms_new (T := gmap bytes Entry) (memtable_max_bytes cfg) (max_frozen_memtables cfg) = None ∧
    cache_bytes cfg = 268435456 ∧ median (lp_get (latency cfg)) = from_millis 5 ∧
    lp_put (latency cfg) = lp_put (s3_same_region id).
Proof.
  intros vars. destruct (from_env_admissible id (T := gmap bytes Entry) vars) as [Hn Hs]. split.
  - intros (w & Hw & Hbad)%Hn. vm_compute in Hw. injection Hw as <-. apply Hbad. left.
  - intros cfg E. destruct (Hs cfg E) as (Hnum & _ & _ & _ & _ & (base & Hb & Hg & Hp & _) & _ & _ & Hm).
    apply Forall_cons in Hnum as [_ Hnum]. apply Forall_cons in Hnum as [_ Hnum].
    apply Forall_cons in Hnum as [Hc _].
    split; [by apply Hm; vm_compute |]. split; [rewrite Hc; by vm_compute |].
    split; [rewrite Hg; by vm_compute |]. rewrite Hp.
    assert (base = s3_same_region id) as ->; [| by vm_compute].
    assert (vars !! "HG_LATENCY"%string = Some "s3"%string) as Ew by (vm_compute; reflexivity).
    rewrite Ew, !elem_of_cons in Hb. destruct Hb as [Hb|[Hb|[Hb|[Hb|Hb]]]]; try discriminate Hb.
    + by injection Hb.
    + by apply not_elem_of_nil in Hb.
Defined.
