(* ===== verification/EngineLemmas.v ===== *)
(** The invariants of the engine and the lemmas its theorems rest on. A history is
    the list of records written so far, in LSN order; [tiers] says how the log and
    the files of the lake hold a history, [durable] is the state a crash can leave,
    [live] the state of a running engine. *)

From S2P Require Import Prelude RecordModel Fs Wal WalLemmas WalRecover Memtable Flush FlushProps Columnar Engine.

(** * Histories *)

Definition increasing (hist : list record) : Prop :=
  StronglySorted (λ a b, lsn a < lsn b) hist.

(** The specification: a map, changed by each record in turn. *)
Definition apply_rec (m : gmap bytes bytes) (r : record) : gmap bytes bytes :=
  match op r with
  | Put => <[key r := value r]> m
  | Delete => base.delete (key r) m
  end.
Definition kv_of (hist : list record) : gmap bytes bytes := fold_left apply_rec hist ∅.

Definition found (l : Lookup) : option bytes := match l with Found v => Some v | _ => None end.

Lemma increasing_app h1 h2 :
  increasing (h1 ++ h2) ↔
  increasing h1 ∧ increasing h2 ∧ ∀ a b, a ∈ h1 → b ∈ h2 → lsn a < lsn b.
Proof.
  unfold increasing. induction h1 as [|r h1 IH]; simpl.
  - split; [| by intros (_ & ? & _)]. intros. split; [constructor |]. split; [done |].
    intros a b Ha. by apply elem_of_nil in Ha.
  - split.
    + intros Hs. apply StronglySorted_inv in Hs as [Hs Hall].
      apply IH in Hs as (H1 & H2 & H12). rewrite Forall_app, !Forall_forall in Hall.
      destruct Hall as [Ha Hb]. split; [constructor; [done | by apply Forall_forall] |].
      split; [done |]. intros a b Hin. apply elem_of_cons in Hin as [->|Hin]; auto.
    + intros (H1 & H2 & H12). apply StronglySorted_inv in H1 as [H1 Hall]. constructor.
      * apply IH. split_and!; [done.. |]. intros a b Ha. apply H12. by right.
      * apply Forall_app. split; [done |]. apply Forall_forall. intros b. apply H12. by left.
Qed.

Lemma increasing_newest_snoc k h r :
  increasing (h ++ [r]) →
  newest k (h ++ [r]) = if decide (key r = k) then Some r else newest k h.
Proof.
  intros Hi. apply increasing_app in Hi as (_ & _ & Hlt). rewrite newest_layer.
  - rewrite newest_cons. change (newest k []) with (@None record). by case_decide.
  - intros a b Ha Hb _. by apply Hlt.
Qed.

Lemma sublist_increasing h' h : sublist h' h → increasing h → increasing h'.
Proof. apply StronglySorted_sublist. Qed.

(** The newest record of each key is the map. *)
Lemma kv_of_newest hist k : increasing hist → kv_of hist !! k = found (answer (newest k hist)).
Proof.
  induction hist as [|r hist IH] using rev_ind; intros Hi; [apply lookup_empty |].
  rewrite (increasing_newest_snoc _ _ _ Hi). unfold kv_of. rewrite fold_left_app. simpl.
  fold (kv_of hist). apply increasing_app in Hi as (Hi & _ & _). specialize (IH Hi).
  unfold apply_rec. case_decide as Hk; [subst k |].
  - simpl. destruct (op r); simpl; [apply lookup_insert_eq | apply lookup_delete_eq].
  - rewrite <- IH. destruct (op r); [by apply lookup_insert_ne | by apply lookup_delete_ne].
Qed.

Lemma max_lsn_of_increasing_snoc h r : increasing (h ++ [r]) → 0 ≤ lsn r → max_lsn_of (h ++ [r]) = lsn r.
Proof.
  intros Hi Hr. apply increasing_app in Hi as (_ & _ & Hlt).
  rewrite max_lsn_of_app. simpl. assert (max_lsn_of h ≤ lsn r); [| lia].
  apply max_lsn_of_le; [done |]. intros a Ha. apply Z.lt_le_incl, Hlt; [done | by left].
Qed.

(** * Files and records *)

(** A file's rows answer as these records do, and its watermark is theirs. *)
Definition file_holds (rows : list row) (rs : list record) : Prop :=
  (∀ k, rows_get k rows = answer (newest k rs)) ∧ rows_max rows = max_lsn_of rs.

Lemma files_get_holds k files frs :
  Forall2 file_holds files frs → files_get k files = answer (first_hit k frs).
Proof.
  induction 1 as [|rows rs files frs [Hg _] Hl IH]; simpl; [done |].
  rewrite Hg, answer_match, IH. by destruct (newest k rs).
Qed.

Lemma files_max_holds files frs :
  Forall2 file_holds files frs → files_max files = max_lsn_of (concat frs).
Proof.
  induction 1 as [|rows rs files frs [_ Hm] Hl IH]; simpl; [done |].
  by rewrite max_lsn_of_app, Hm, IH.
Qed.

Lemma files_max_app f1 f2 : files_max (f1 ++ f2) = files_max f1 `max` files_max f2.
Proof.
  induction f1 as [|rows f1 IH]; simpl.
  - assert (0 ≤ files_max f2); [| lia]. induction f2; simpl; lia.
  - rewrite IH. lia.
Qed.

(** The rows of a memtable's iteration. *)
Lemma rows_get_iter k (l : list (bytes * Entry)) (o : option record) :
  NoDup l.*1 → (∀ e, (k, e) ∈ l ↔ ∃ r, o = Some r ∧ e = entry_of r) →
  rows_get k (row_of <$> l) = answer o.
Proof.
  induction l as [|[k0 e0] l IH]; simpl; intros Hnd Hiff.
  - destruct o as [r|]; [| done]. exfalso. apply (not_elem_of_nil (k, entry_of r)).
    apply Hiff. eauto.
  - apply NoDup_cons in Hnd as [Hk0 Hnd]. case_decide as Hk.
    + subst k0. destruct (proj1 (Hiff e0)) as (r & -> & ->); [by left |].
      unfold row_lookup. simpl. by destruct (op r).
    + apply IH; [done |]. intros e. rewrite <- Hiff, elem_of_cons.
      split; [by right |]. intros [[= ? ?]|?]; done.
Qed.

Lemma rows_max_elem r rows : r ∈ rows → r_lsn r ≤ rows_max rows.
Proof. induction 1; simpl; lia. Qed.
Lemma rows_max_le rows n : 0 ≤ n → (∀ r, r ∈ rows → r_lsn r ≤ n) → rows_max rows ≤ n.
Proof.
  intros Hn. induction rows as [|r rows IH]; simpl; intros Hr; [done |].
  apply Z.max_lub; [apply Hr; left | apply IH; intros; apply Hr; by right].
Qed.

Lemma max_lsn_of_attained rs : rs ≠ [] → (∀ r, r ∈ rs → 0 < lsn r) →
  ∃ r, r ∈ rs ∧ lsn r = max_lsn_of rs.
Proof.
  induction rs as [|r rs IH]; intros Hne Hpos; [done |]. simpl.
  destruct (decide (rs = [])) as [->|Hrs].
  - exists r. split; [by left |]. simpl. specialize (Hpos r ltac:(by left)). lia.
  - destruct IH as (b & Hb & Hm); [done | intros; apply Hpos; by right |].
    destruct (Z.max_spec (lsn r) (max_lsn_of rs)) as [[? ->]|[? ->]].
    + exists b. split; [by right | done].
    + exists r. split; [by left | done].
Qed.

Lemma as_i64_small z : 0 ≤ z < 2 ^ 63 → as_i64 z = z.
Proof. intros. unfold as_i64. rewrite Z.mod_small by lia. lia. Qed.

Section file_of_memtable.
Context {T : Type} `{SkipMapLaws T}.

(** Flushing a memtable gives a file that holds its records. *)
Lemma flushed_file_holds (m : Memtable T) rs :
  mt_holds m rs → (∀ r, r ∈ rs → 0 < lsn r < 2 ^ 63) →
  file_holds (row_of <$> mt_iter m) rs.
Proof.
  intros Hm Hb. split.
  - intros k. apply rows_get_iter.
    + pose proof (sm_iter_sorted (mt_map m)) as Hs. unfold mt_iter.
      induction Hs as [|x l Hl IH Hall]; constructor; [| done].
      rewrite Forall_forall in Hall. intros Hin. apply Hall in Hin. by apply bytes_lt_irrefl in Hin.
    + intros e. by apply mt_iter_holds.
  - apply Z.le_antisymm.
    + apply rows_max_le; [auto with hg |]. intros r Hr.
      apply list_elem_of_fmap in Hr as ([k e] & -> & Hin).
      apply (mt_iter_holds _ _ _ _ Hm) in Hin as (r & Hn & ->).
      apply newest_elem in Hn as (Hr & _ & _). simpl. rewrite as_i64_small.
      * by apply max_lsn_of_elem.
      * specialize (Hb r Hr). lia.
    + destruct (decide (rs = [])) as [->|Hne].
      { simpl. clear. induction (row_of <$> mt_iter m); simpl; lia. }
      destruct (max_lsn_of_attained rs Hne) as (r & Hr & <-); [intros; by apply Hb |].
      destruct (newest (key r) rs) as [b|] eqn:Hn.
      2:{ rewrite newest_None in Hn. by apply Hn in Hr. }
      pose proof (newest_elem _ _ _ Hn) as (Hbin & _ & Hmax).
      specialize (Hmax r Hr eq_refl). etrans; [exact Hmax |].
      rewrite <- (as_i64_small (lsn b)) by (specialize (Hb b Hbin); lia).
      apply (rows_max_elem (row_of (key r, entry_of b))), list_elem_of_fmap_2.
      apply (mt_iter_holds _ _ _ _ Hm). eauto.
Qed.

Lemma flushed_publishable (m : Memtable T) rs files :
  mt_holds m rs → rs ≠ [] → (∀ r, r ∈ rs → files_max files < lsn r < 2 ^ 63) →
  (∀ r, r ∈ rs → 0 < lsn r) → publishable files (row_of <$> mt_iter m).
Proof.
  intros Hm Hne Hb Hpos. split_and!.
  - intros E. apply fmap_nil_inv in E. apply Hne, (mt_is_empty_holds _ _ Hm).
    unfold mt_is_empty. by apply sm_is_empty_iter.
  - rewrite <- list_fmap_compose. apply sm_iter_sorted.
  - apply Forall_fmap, Forall_forall. intros [k e] Hin.
    apply (mt_iter_holds _ _ _ _ Hm) in Hin as (r & Hn & ->).
    apply newest_elem in Hn as (Hr & _ & _). simpl. specialize (Hb r Hr). specialize (Hpos r Hr).
    rewrite as_i64_small by lia. lia.
Qed.
End file_of_memtable.

(** * The two tiers *)

(** The log [log] and the files hold the history: the files hold its first part,
    what is above their watermark in the log is the rest, in whatever order writers
    got there. *)
Record tiers (log : list record) (files : list (list row)) (frs : list (list record))
    (act hist : list record) : Prop := {
  ti_rows : Forall2 file_holds files frs;
  ti_hist : hist = concat frs ++ act;
  ti_suffix : base.filter (λ r, files_max files < lsn r) log ≡ₚ act;
  ti_incr : increasing hist;
  ti_pos : Forall (λ r, 0 < lsn r) hist;
  ti_log : Forall (λ r, lsn r ≤ max_lsn_of hist) log;
}.

Section tiers.
Implicit Types (log act hist : list record) (files : list (list row)) (frs : list (list record)).

Lemma tiers_files_max log files frs act hist :
  tiers log files frs act hist → files_max files = max_lsn_of (concat frs).
Proof. intros H. by apply files_max_holds, H. Qed.

Lemma tiers_above log files frs act hist r :
  tiers log files frs act hist → r ∈ act → files_max files < lsn r ∧ r ∈ log ∧ r ∈ hist.
Proof.
  intros H Hr. pose proof Hr as Hr'. rewrite <- (ti_suffix _ _ _ _ _ H) in Hr'.
  apply list_elem_of_filter in Hr' as [? ?]. split_and!; [done.. |].
  rewrite (ti_hist _ _ _ _ _ H). apply elem_of_app. by right.
Qed.

(** The highest LSN of the history is that of the log or of the files. *)
Lemma tiers_max log files frs act hist :
  tiers log files frs act hist → max_lsn_of log `max` files_max files = max_lsn_of hist.
Proof.
  intros H. rewrite (tiers_files_max _ _ _ _ _ H). apply Z.le_antisymm.
  - apply Z.max_lub.
    + apply max_lsn_of_le; [auto with hg |]. intros r Hr.
      pose proof (ti_log _ _ _ _ _ H) as Hl. rewrite Forall_forall in Hl. by apply Hl.
    + rewrite (ti_hist _ _ _ _ _ H), max_lsn_of_app. lia.
  - rewrite (ti_hist _ _ _ _ _ H) at 1. rewrite max_lsn_of_app.
    assert (max_lsn_of act ≤ max_lsn_of log); [| lia].
    apply max_lsn_of_le; [auto with hg |]. intros r Hr. apply max_lsn_of_elem.
    by apply (tiers_above _ _ _ _ _ _ H).
Qed.

Lemma increasing_layers layers : increasing (concat layers) → layers_ordered layers.
Proof.
  unfold layers_ordered. induction layers as [|rs layers IH]; intros Hi; [constructor |].
  simpl in Hi. apply increasing_app in Hi as (_ & Hi & Hlt).
  constructor; [by apply IH |]. apply Forall_forall. intros rs' Hin r r' Hr Hr' _.
  apply Hlt; [done |]. apply elem_of_concat. eauto.
Qed.

(** Reading layers, the newest first. *)
Lemma first_hit_layers k layers :
  increasing (concat layers) → first_hit k (reverse layers) = newest k (concat layers).
Proof. intros Hi. by apply first_hit_newest, increasing_layers. Qed.

Lemma concat_snoc {A} (ls : list (list A)) l : concat (ls ++ [l]) = concat ls ++ l.
Proof. rewrite concat_app. simpl. by rewrite app_nil_r. Qed.

(** Reading: the memtable's answer, else the files'. *)
Lemma tiers_get log files frs act hist k :
  tiers log files frs act hist →
  match answer (newest k act) with Missing => files_get k (reverse files) | hit => hit end =
    answer (newest k hist).
Proof.
  intros H. rewrite answer_match.
  rewrite (files_get_holds k _ (reverse frs)) by (apply Forall2_reverse, H).
  rewrite (ti_hist _ _ _ _ _ H).
  rewrite <- concat_snoc, <- first_hit_layers, reverse_app
    by (rewrite concat_snoc, <- (ti_hist _ _ _ _ _ H); apply H). simpl. by destruct (newest k act).
Qed.

Lemma tiers_append log files frs act hist r :
  tiers log files frs act hist → max_lsn_of hist < lsn r →
  tiers (log ++ [r]) files frs (act ++ [r]) (hist ++ [r]).
Proof.
  intros H Hr. pose proof (max_lsn_of_nonneg hist) as Hnn. split.
  - apply H.
  - rewrite app_assoc. f_equal. apply H.
  - rewrite filter_app, (ti_suffix _ _ _ _ _ H), filter_all; [done |].
    intros x Hx. apply list_elem_of_singleton in Hx as ->.
    pose proof (tiers_max _ _ _ _ _ H). lia.
  - apply increasing_app. split; [apply H |]. split; [by repeat constructor |].
    intros a b Ha Hb. apply list_elem_of_singleton in Hb as ->.
    apply max_lsn_of_elem in Ha. lia.
  - apply Forall_app. split; [apply H |]. constructor; [lia | constructor].
  - rewrite max_lsn_of_app. apply Forall_app. split.
    + eapply Forall_impl; [apply H |]. simpl. intros. lia.
    + constructor; [simpl; lia | constructor].
Qed.

(** A record that was numbered before others of the log and gets there after them. *)
Lemma tiers_insert log files frs a1 a2 hist r :
  tiers log files frs (a1 ++ a2) hist → increasing (concat frs ++ a1 ++ r :: a2) →
  files_max files < lsn r → 0 < lsn r →
  tiers (log ++ [r]) files frs (a1 ++ r :: a2) (concat frs ++ a1 ++ r :: a2) ∧
  max_lsn_of (concat frs ++ a1 ++ r :: a2) = max_lsn_of hist `max` lsn r.
Proof.
  intros H Hi Hf Hr. pose proof (ti_hist _ _ _ _ _ H) as Eh.
  assert (max_lsn_of (concat frs ++ a1 ++ r :: a2) = max_lsn_of hist `max` lsn r) as Hm.
  { rewrite Eh, !max_lsn_of_app. simpl. lia. }
  split; [| done]. split.
  - apply H.
  - done.
  - rewrite filter_app, (ti_suffix _ _ _ _ _ H), filter_all.
    + rewrite <- app_assoc. apply Permutation_app_head. by rewrite Permutation_app_comm.
    + by intros x ->%list_elem_of_singleton.
  - done.
  - pose proof (ti_pos _ _ _ _ _ H) as Hp. rewrite Eh in Hp.
    rewrite !Forall_app, ?Forall_cons in *. naive_solver.
  - rewrite Hm. apply Forall_app. split; [| constructor; [simpl; lia | constructor]].
    eapply Forall_impl; [apply H |]. simpl. intros. lia.
Qed.

(** What the tiers hold when only some of the log has been put in the memtable. *)
Lemma tiers_sub log files frs act hist act' :
  tiers log files frs act hist → sublist act' act →
  tiers act' files frs act' (concat frs ++ act').
Proof.
  intros H Hs. pose proof (ti_hist _ _ _ _ _ H) as Eh.
  assert (∀ r, r ∈ act' → r ∈ act) as Hin by (intros r Hr; by eapply elem_of_sublist).
  split; [apply H | done | | | |].
  - rewrite filter_all; [done |]. intros r Hr. by apply (tiers_above _ _ _ _ _ _ H), Hin.
  - pose proof (ti_incr _ _ _ _ _ H) as Hi. rewrite Eh in Hi.
    eapply sublist_increasing; [| exact Hi]. by apply sublist_app.
  - pose proof (ti_pos _ _ _ _ _ H) as Hp. rewrite Eh, !Forall_app in *. destruct Hp as [Hp1 Hp2].
    split; [done |]. rewrite !Forall_forall in *. auto.
  - apply Forall_forall. intros r Hr. rewrite max_lsn_of_app. apply max_lsn_of_elem in Hr. lia.
Qed.

(** The first part of what is only in the log becomes a file. *)
Lemma tiers_publish_part log files frs act1 act2 hist rows :
  tiers log files frs (act1 ++ act2) hist → act1 ≠ [] → file_holds rows act1 →
  tiers log (files ++ [rows]) (frs ++ [act1]) act2 hist ∧ files_max (files ++ [rows]) = max_lsn_of act1.
Proof.
  intros H Hne Hrows. pose proof (ti_hist _ _ _ _ _ H) as Eh.
  destruct (max_lsn_of_attained act1 Hne) as (r1 & Hr1 & E1).
  { intros r Hr. pose proof (ti_pos _ _ _ _ _ H) as Hp. rewrite Forall_forall in Hp.
    apply Hp. rewrite Eh, !elem_of_app. auto. }
  assert (files_max files < lsn r1) as Hlt.
  { apply (tiers_above _ _ _ _ _ r1 H). apply elem_of_app. by left. }
  assert (files_max (files ++ [rows]) = max_lsn_of act1) as Hm.
  { rewrite files_max_app. simpl. destruct Hrows as [_ ->]. pose proof (max_lsn_of_nonneg act1). lia. }
  assert (∀ r, r ∈ act2 → max_lsn_of act1 < lsn r) as H2.
  { intros r Hr. rewrite <- E1. pose proof (ti_incr _ _ _ _ _ H) as Hi. rewrite Eh in Hi.
    apply increasing_app in Hi as (_ & Hi & _). apply increasing_app in Hi as (_ & _ & Hi). by apply Hi. }
  split; [| done]. split; try apply H.
  - apply Forall2_app; [apply H |]. constructor; [done | constructor].
  - rewrite concat_app. simpl. by rewrite app_nil_r, <- app_assoc.
  - rewrite Hm. assert (base.filter (λ r, max_lsn_of act1 < lsn r) log =
      base.filter (λ r, max_lsn_of act1 < lsn r) (base.filter (λ r, files_max files < lsn r) log)) as ->.
    { rewrite list_filter_filter. apply list_filter_iff. intros r. lia. }
    rewrite (ti_suffix _ _ _ _ _ H), filter_app, filter_none, filter_all; [done | auto |].
    intros r Hr%max_lsn_of_elem. lia.
Qed.

Lemma tiers_publish log files frs act hist rows :
  tiers log files frs act hist → act ≠ [] → file_holds rows act →
  tiers log (files ++ [rows]) (frs ++ [act]) [] hist ∧ files_max (files ++ [rows]) = max_lsn_of act.
Proof. intros H. apply tiers_publish_part. by rewrite app_nil_r. Qed.

(** Any log with the same records above the watermark, and no others above the
    history, will do. *)
Lemma tiers_log log log' files frs act hist :
  tiers log files frs act hist →
  base.filter (λ r, files_max files < lsn r) log' = base.filter (λ r, files_max files < lsn r) log →
  (∀ r, r ∈ log' → r ∈ log) → tiers log' files frs act hist.
Proof.
  intros H E Hsub. split; try apply H.
  - rewrite E. apply H.
  - pose proof (ti_log _ _ _ _ _ H) as Hl. rewrite Forall_forall in *. auto.
Qed.

(** One record per LSN above the watermark. *)
Lemma increasing_NoDup rs : increasing rs → NoDup (lsn <$> rs).
Proof.
  induction 1 as [|r rs Hrs IH Hr]; [constructor |]. rewrite fmap_cons. constructor; [| done].
  intros (x & E & Hx)%list_elem_of_fmap. rewrite Forall_forall in Hr. specialize (Hr x Hx). lia.
Qed.

Lemma tiers_NoDup log files frs act hist :
  tiers log files frs act hist →
  NoDup (lsn <$> base.filter (λ r, files_max files < lsn r) log).
Proof.
  intros H. rewrite (ti_suffix _ _ _ _ _ H). apply increasing_NoDup.
  pose proof (ti_incr _ _ _ _ _ H) as Hi. rewrite (ti_hist _ _ _ _ _ H) in Hi.
  by apply increasing_app in Hi as (_ & ? & _).
Qed.

Lemma tiers_empty : tiers [] [] [] [] [].
Proof. split; try done; constructor. Qed.
End tiers.

(** * The state of the engine *)

Section state.
Context {T : Type} {SM : SkipMap T} {SML : SkipMapLaws T}.
Context {L I : Type} {CO : Columnar L I} {read_parquet : bytes → option (list row)}.
Context {COL : ColumnarLaws L I read_parquet}.
Context (crc32_hash : bytes → Z) (crc_u32 : ∀ l, is_u32 (crc32_hash l)).
Context (read_dir : gmap string file → list string).
Context (read_dir_perm : ∀ m, read_dir m ≡ₚ (map_to_list m).*1).
Context (parquet_head : list Field → bytes) (parquet_batch : RecordBatch → bytes).
Context (parquet_footer : list RecordBatch → bytes).
(** The bytes [stage] writes, and that DuckDB reads the rows back from them. *)
Definition staged_bytes (bs : list RecordBatch) : bytes :=
  parquet_head arrow_schema ++ concat (parquet_batch <$> bs) ++ parquet_footer bs.
Context (parquet_roundtrip : ∀ bs, Forall columns_agree bs →
  read_parquet (staged_bytes bs) = Some (concat (batch_rows <$> bs))).
Context (cfg : Config).
Context (cfg_segment : 0 < wal_segment_bytes cfg) (cfg_frozen : 0 < max_frozen_memtables cfg).

Abbreviation engine := (engine (T := T) (I := I)).
Abbreviation world := (world (L := L)).

(** Where the segments may start: not above the next LSN, and below it once they
    hold a record. *)
Definition starts_ok (hist : list record) (x : Lsn * list record) : Prop :=
  x.1 ≤ max_lsn_of hist + 1 ∧ (x.2 ≠ [] → x.1 ≤ max_lsn_of hist).

(** The world holds the history, as an open log knows it. *)
Record stored (x : wal) (w : world) (logs : list (Lsn * list record)) (s : Lsn)
    (rs : list record) (files : list (list row)) (frs : list (list record))
    (act hist : list record) : Prop := {
  st_wal : wal_inv crc32_hash (fs_files (w_wal w)) x logs s rs;
  st_segment : wal_segment_max_bytes x = wal_segment_bytes cfg;
  st_files : co_files (w_lake w) files;
  st_tiers : tiers (log_records (logs ++ [(s, rs)])) files frs act hist;
  st_starts : Forall (starts_ok hist) (logs ++ [(s, rs)]);
  st_bound : max_lsn_of hist < 2 ^ 63;
}.

(** The world holds the history, as a crash leaves it. *)
Definition durable (w : world) (hist : list record) : Prop :=
  ∃ l files frs act,
    disk_segs crc32_hash (fs_files (w_wal w)) l ∧ co_files (w_lake w) files ∧
    tiers (log_records l.*1) files frs act hist ∧ Forall (starts_ok hist) l.*1 ∧
    max_lsn_of hist < 2 ^ 63.

(** A running engine: nothing is frozen, the active memtable is the log's part
    above the watermark, the index knows the files. *)
Definition live (e : engine) (w : world) (hist : list record) : Prop :=
  ∃ logs s rs files frs act,
    stored (en_wal e) w logs s rs files frs act hist ∧
    ms_holds (en_memtables e) [] act ∧
    ms_max_frozen (en_memtables e) = max_frozen_memtables cfg ∧
    co_index (w_lake w) (en_index e) files.

Definition quiet (w : world) : Prop :=
  fs_faults (w_wal w) = [] ∧ fs_faults (w_staging w) = [] ∧ co_quiet (w_lake w).

(** A crash of the process or the machine: the log loses what was not synced, the
    staging directory is anything, the lake keeps its files. *)
Definition wcrash (w w' : world) : Prop :=
  crash (w_wal w) (w_wal w') ∧ ∀ files, co_files (w_lake w) files → co_files (w_lake w') files.

Lemma stored_crash x w w2 logs s rs files frs act hist :
  stored x w logs s rs files frs act hist → wcrash w w2 → durable w2 hist.
Proof.
  intros S [Hc Hl]. exists (clean (logs ++ [(s, rs)])), files, frs, act. rewrite clean_fst.
  split; [eapply crash_idle; [apply S | done | done] |].
  split; [apply Hl, S |]. split; [apply S |]. split; apply S.
Qed.

(** * Recovery *)

Lemma fold_insert_holds rs (s : MemtableSet T) fro act :
  ms_holds s fro act →
  ms_holds (fold_left (λ s rec, ms_insert rec s) rs s) fro (act ++ rs) ∧
  ms_max_frozen (fold_left (λ s rec, ms_insert rec s) rs s) = ms_max_frozen s.
Proof.
  revert s act. induction rs as [|r rs IH]; intros s act Hs; simpl.
  - by rewrite app_nil_r.
  - destruct (IH (ms_insert r s) (act ++ [r])) as [H1 H2]; [by apply ms_insert_holds |].
    rewrite <- app_assoc in H1. split; [exact H1 | by rewrite H2].
Qed.

Lemma starts_ok_or_new hist logs :
  Forall (starts_ok hist) logs → Forall (starts_ok hist) (logs_or_new logs).
Proof.
  intros H. destruct logs; [| exact H]. apply Forall_singleton.
  unfold starts_ok. simpl. pose proof (max_lsn_of_nonneg hist). split; [lia | done].
Qed.

Lemma open_recovers w hist :
  durable w hist → quiet w →
  ∃ e w', open (T := T) crc32_hash read_dir cfg w = (Ok (Some e), w') ∧
    live e w' hist ∧ en_next_lsn e = max_lsn_of hist + 1 ∧ quiet w'.
Proof.
  intros (l & files & frs & act & D & F & Ti & Hs & Hb) (Q1 & Q2 & Q3).
  destruct (co_connect (w_lake w)) as [r1 l1] eqn:E1.
  destruct (co_connect_law _ _ _ _ F E1) as [F1 H1]. destruct (H1 Q3) as [-> Q31].
  destruct (co_published_watermark l1) as [r2 l2] eqn:E2.
  destruct (co_published_watermark_law _ _ _ _ F1 E2) as (F2 & _ & W2 & H2).
  destruct (H2 Q31) as [Hok2 Q32]. destruct r2 as [wm|]; [| done].
  specialize (W2 wm eq_refl). subst wm.
  destruct (co_load l2) as [r3 l3] eqn:E3.
  destruct (co_load_law _ _ _ _ F2 E3) as (F3 & _ & W3 & H3).
  destruct (H3 Q32) as [Hok3 Q33]. destruct r3 as [i|]; [| done].
  destruct (open_ok _ crc_u32 _ read_dir_perm (wal_segment_bytes cfg) (files_max files) _ _ D)
    as (x & m' & logs & s & rs & Eo & Iw & El & Hseg & _).
  replace (mk_fs (fs_files (w_wal w)) []) with (w_wal w) in Eo
    by (destruct (w_wal w); simpl in Q1; by subst).
  pose proof (ti_suffix _ _ _ _ _ Ti) as Hp.
  set (above := base.filter (λ r, files_max files < lsn r) (log_records l.*1)) in *.
  destruct (ms_new (memtable_max_bytes cfg) (max_frozen_memtables cfg)) as [ms|] eqn:Em.
  2:{ unfold ms_new in Em. by rewrite (proj2 (Z.ltb_lt _ _) cfg_frozen) in Em. }
  destruct (ms_new_holds _ _ _ Em) as (Hms & _ & Hmf & _).
  destruct (fold_insert_holds above ms [] [] Hms) as [Hh Hf].
  apply (ms_holds_perm _ _ _ act Hp) in Hh; [| by eapply tiers_NoDup].
  exists (mk_engine i (fold_left (λ s rec, ms_insert rec s) above ms) x
    (as_u64 (max_lsn_of (log_records l.*1) `max` files_max files + 1))),
    (mk_world (mk_fs m' []) (w_staging w) l3).
  split; [| split; [| split]].
  - unfold open. rewrite (bind_ok _ _ _ _ _ (zoom_ok _ _ _ _ _ _ E1)).
    rewrite (bind_ok _ _ _ _ _ (zoom_ok w_lake set_w_lake _ (set_w_lake l1 w) _ _ E2)).
    rewrite (bind_ok _ _ _ _ _ (zoom_ok w_lake set_w_lake _ (set_w_lake l2 (set_w_lake l1 w)) _ _ E3)).
    rewrite (bind_ok _ _ _ _ _ (zoom_ok w_wal set_w_wal _
      (set_w_lake l3 (set_w_lake l2 (set_w_lake l1 w))) _ _ Eo)).
    cbn beta iota. cbn [replay_records replay_max_lsn]. rewrite Em.
    rewrite (bind_ok _ _ _ _ _ (zoom_ok w_staging set_w_staging _
      (set_w_wal (mk_fs m' []) (set_w_lake l3 (set_w_lake l2 (set_w_lake l1 w)))) _ _
      (dir_call_quiet _ Q2))). done.
  - exists logs, s, rs, files, frs, act.
    split; [| split; [exact Hh | split; [by etrans; [exact Hf |] | by apply W3]]].
    split; [exact Iw | exact Hseg | exact F3 | | | exact Hb].
    + rewrite El, log_records_or_new. exact Ti.
    + rewrite El. by apply starts_ok_or_new.
  - cbn [en_next_lsn]. rewrite (tiers_max _ _ _ _ _ Ti).
    unfold as_u64. apply Z.mod_small. pose proof (max_lsn_of_nonneg hist). lia.
  - done.
Qed.

(** Every file of the log is synced: nothing is left for a crash to lose. *)
Lemma durable_crash w w2 hist : durable w hist → wcrash w w2 → durable w2 hist.
Proof.
  intros (l & files & frs & act & D & F & Ti & Hs & Hb) [Hc Hl].
  exists l, files, frs, act. split; [by eapply disk_segs_crash | split; [by apply Hl | done]].
Qed.

(** The same segments with the same records hold the same history. *)
Lemma same_log_durable w hist l l' files frs act :
  same_log l l' → disk_segs crc32_hash (fs_files (w_wal w)) l' → co_files (w_lake w) files →
  tiers (log_records l.*1) files frs act hist → Forall (starts_ok hist) l.*1 →
  max_lsn_of hist < 2 ^ 63 → durable w hist.
Proof.
  intros Hsame D F Ti Hs Hb. exists l', files, frs, act. split; [done |]. split; [done |].
  destruct Hsame as [->| ->]; [done |]. rewrite log_records_or_new. split; [done |].
  split; [by apply starts_ok_or_new | done].
Qed.

(** Recovery under any faults: it fails and the world holds the history, or the engine
    runs on it. *)
Lemma open_faulty w hist r w' :
  durable w hist → open (T := T) crc32_hash read_dir cfg w = (r, w') →
  durable w' hist ∧
  ∀ o, r = Ok o → ∃ e, o = Some e ∧ live e w' hist ∧ en_next_lsn e = max_lsn_of hist + 1.
Proof.
  intros (l & files & frs & act & D & F & Ti & Hs & Hb) Hrun. unfold open in Hrun.
  assert (∀ w, disk_segs crc32_hash (fs_files (w_wal w)) l → co_files (w_lake w) files →
    durable w hist) as Hd by (intros w0 D0 F0; by exists l, files, frs, act).
  apply bind_inv in Hrun as [([] & w1 & E1 & Hrun)|(e & E1 & ->)];
    apply zoom_inv in E1 as (l1 & E1 & ->); destruct (co_connect_law _ _ _ _ F E1) as [F1 _];
    [| by split; [apply Hd |]].
  apply bind_inv in Hrun as [(wm & w2 & E2 & Hrun)|(e & E2 & ->)];
    apply zoom_inv in E2 as (l2 & E2 & ->);
    destruct (co_published_watermark_law _ _ _ _ F1 E2) as (F2 & _ & W2 & _);
    [| by split; [apply Hd |]].
  specialize (W2 wm eq_refl). subst wm.
  apply bind_inv in Hrun as [(i & w3 & E3 & Hrun)|(e & E3 & ->)];
    apply zoom_inv in E3 as (l3 & E3 & ->); destruct (co_load_law _ _ _ _ F2 E3) as (F3 & _ & W3 & _);
    [| by split; [apply Hd |]].
  apply bind_inv in Hrun as [([x rep] & w4 & E4 & Hrun)|(e & E4 & ->)];
    apply zoom_inv in E4 as (f & E4 & ->);
    destruct (open_any _ crc_u32 _ read_dir_perm _ _ _ _ _ _ D E4) as (l' & Hsame & D' & Hok);
    [| split; [by eapply same_log_durable | done]].
  destruct (Hok _ _ eq_refl) as (-> & Hseg & logs & s & rs & Iw & El). clear Hok.
  cbn beta iota in Hrun. cbn [replay_records replay_max_lsn] in Hrun.
  set (w5 := set_w_wal f (set_w_lake l3 (set_w_lake l2 (set_w_lake l1 w)))) in *.
  assert (durable w5 hist) as Hd5 by (by eapply same_log_durable).
  destruct (ms_new (memtable_max_bytes cfg) (max_frozen_memtables cfg)) as [ms|] eqn:Em.
  2:{ unfold ms_new in Em. by rewrite (proj2 (Z.ltb_lt _ _) cfg_frozen) in Em. }
  apply bind_inv in Hrun as [([] & w6 & E6 & [= <- <-])|(e & E6 & ->)];
    apply zoom_inv in E6 as (g & E6 & ->); [| by split].
  split; [exact Hd5 |]. intros o [= <-]. eexists. split; [done |]. split.
  - destruct (ms_new_holds _ _ _ Em) as (Hms & _ & Hmf & _).
    destruct (fold_insert_holds (base.filter (λ r, files_max files < lsn r) (log_records l.*1))
      ms [] [] Hms) as [Hh Hf].
    apply (ms_holds_perm _ _ _ act (ti_suffix _ _ _ _ _ Ti)) in Hh; [| by eapply tiers_NoDup].
    exists logs, s, rs, files, frs, act.
    split; [| split; [exact Hh | split; [by etrans; [exact Hf |] | by apply W3]]].
    split; [exact Iw | exact Hseg | exact F3 | | | exact Hb].
    + rewrite El, log_records_or_new. exact Ti.
    + rewrite El. by apply starts_ok_or_new.
  - cbn [en_next_lsn]. rewrite (tiers_max _ _ _ _ _ Ti).
    unfold as_u64. apply Z.mod_small. pose proof (max_lsn_of_nonneg hist). lia.
Qed.

(** * Flushing *)

(** A state during an operation that started when [q] said the world is quiet. *)
Definition rest (q : Prop) (ms : MemtableSet T) (n : Lsn) (files : list (list row))
    (frs : list (list record)) (act hist : list record) (st : engine * world) : Prop :=
  ∃ logs s rs, stored (en_wal st.1) st.2 logs s rs files frs act hist ∧
    (q → quiet st.2) ∧ en_memtables st.1 = ms ∧ en_next_lsn st.1 = n.

(** Where a failure leaves the world: it still holds the history. *)
Definition kept (n : Lsn) (hist : list record) (st : engine * world) : Prop :=
  (∃ logs s rs files frs act, stored (en_wal st.1) st.2 logs s rs files frs act hist) ∧
  en_next_lsn st.1 = n.
Definition failed (q : Prop) (n : Lsn) (hist : list record) (st : engine * world) : Prop :=
  kept n hist st ∧ ¬ q.

Lemma kept_intro n logs s rs files frs act hist st :
  stored (en_wal st.1) st.2 logs s rs files frs act hist → en_next_lsn st.1 = n → kept n hist st.
Proof. intros S Hn. split; [by exists logs, s, rs, files, frs, act | done]. Qed.

Lemma rest_kept q ms n files frs act hist st :
  rest q ms n files frs act hist st → kept n hist st.
Proof. intros (logs & s & rs & S & _ & _ & Hn). by eapply kept_intro. Qed.

Lemma kept_crash n hist st w2 : kept n hist st → wcrash st.2 w2 → durable w2 hist.
Proof. intros [(? & ? & ? & ? & ? & ? & S) _] Hc. by eapply stored_crash. Qed.

(** [stored] looks at the log and the lake only. *)
Lemma stored_world x w w' logs s rs files frs act hist :
  stored x w logs s rs files frs act hist → w_wal w' = w_wal w → co_files (w_lake w') files →
  stored x w' logs s rs files frs act hist.
Proof. intros S Ew F. split; try apply S; [rewrite Ew; apply S | done]. Qed.

Lemma on_lake_inv {A} (m : M L A) (e : engine) (w : world) r st' :
  on_lake m (e, w) = (r, st') → ∃ l', m (w_lake w) = (r, l') ∧ st' = (e, set_w_lake l' w).
Proof.
  intros Hr. apply zoom_inv in Hr as (w1 & Hr & ->). apply zoom_inv in Hr as (l' & Hr & ->). eauto.
Qed.

Lemma on_staging_inv {A} (m : M fs A) (e : engine) (w : world) r st' :
  on_staging m (e, w) = (r, st') → ∃ f, m (w_staging w) = (r, f) ∧ st' = (e, set_w_staging f w).
Proof.
  intros Hr. apply zoom_inv in Hr as (w1 & Hr & ->). apply zoom_inv in Hr as (f & Hr & ->). eauto.
Qed.

Lemma on_wal_inv {A} (m : M (wal * fs) A) (e : engine) (w : world) r st' :
  on_wal m (e, w) = (r, st') →
  ∃ x f, m (en_wal e, w_wal w) = (r, (x, f)) ∧ st' = (set_en_wal x e, set_w_wal f w).
Proof. intros Hr. apply zoom_inv in Hr as ([x f] & Hr & ->). eauto. Qed.

Lemma published_watermark_rest q ms n files frs act hist :
  triple (rest q ms n files frs act hist) (on_lake co_published_watermark)
    (λ w st, w = files_max files ∧ rest q ms n files frs act hist st) (failed q n hist).
Proof.
  intros [e w] r st' (logs & s & rs & S & Hq & Hm & Hn) Hrun.
  apply on_lake_inv in Hrun as (l' & Hrun & ->).
  destruct (co_published_watermark_law _ _ _ _ (st_files _ _ _ _ _ _ _ _ _ S) Hrun)
    as (F & _ & Hw & Hok).
  assert (stored (en_wal e) (set_w_lake l' w) logs s rs files frs act hist) as S'
    by (by eapply stored_world).
  destruct r as [wm|err].
  - split; [by apply Hw |]. exists logs, s, rs. split_and!; try done.
    intros q'. destruct (Hq q') as (? & ? & Q). by destruct (Hok Q).
  - split; [by eapply kept_intro |].
    intros q'. destruct (Hq q') as (? & ? & Q). by destruct (Hok Q).
Qed.

Lemma load_rest q ms n files frs act hist :
  triple (rest q ms n files frs act hist) publish_index
    (λ _ st, co_index (w_lake st.2) (en_index st.1) files ∧ rest q ms n files frs act hist st)
    (failed q n hist).
Proof.
  eapply (triple_bind _ _ _ (λ i st, co_index (w_lake st.2) i files ∧ rest q ms n files frs act hist st)).
  - intros [e w] r st' (logs & s & rs & S & Hq & Hm & Hn) Hrun.
    apply on_lake_inv in Hrun as (l' & Hrun & ->).
    destruct (co_load_law _ _ _ _ (st_files _ _ _ _ _ _ _ _ _ S) Hrun) as (F & _ & Hw & Hok).
    assert (stored (en_wal e) (set_w_lake l' w) logs s rs files frs act hist) as S'
      by (by eapply stored_world).
    destruct r as [i|err].
    + split; [by apply Hw |]. exists logs, s, rs. split_and!; try done.
      intros q'. destruct (Hq q') as (? & ? & Q). by destruct (Hok Q).
    + split; [by eapply kept_intro |].
      intros q'. destruct (Hq q') as (? & ? & Q). by destruct (Hok Q).
  - intros i [e w] r st' [Hi (logs & s & rs & S & Hq & Hm & Hn)] [= <- <-].
    split; [done |]. exists logs, s, rs. done.
Qed.

(** ** Staging *)

Lemma write_loop path bs : ∀ (s : fs) f r s',
  fs_files s !! path = Some f →
  m_iter (λ b, write_file path (parquet_batch b)) bs s = (r, s') →
  (∃ f', fs_files s' !! path = Some f' ∧
    (r = Ok tt → contents f' = contents f ++ concat (parquet_batch <$> bs))) ∧
  (fs_faults s = [] → r = Ok tt ∧ fs_faults s' = []).
Proof.
  induction bs as [|b bs IH]; intros s f r s' Hf Hrun.
  - injection Hrun as <- <-. split; [| done]. exists f. split; [done |]. intros _.
    by rewrite app_nil_r.
  - cbn [m_iter] in Hrun. apply bind_inv in Hrun as [([] & s1 & E1 & E2)|(e & E1 & ->)].
    + destruct (write_file_inv _ _ _ _ _ _ Hf E1) as (n & Hs1 & Hn).
      specialize (Hn eq_refl). rewrite Hn in Hs1.
      destruct (IH s1 (mk_file (f_synced f) (f_pending f ++ parquet_batch b)) r s') as [H1 H2];
        [by rewrite Hs1, lookup_insert_eq | done |].
      split.
      * destruct H1 as (f' & ? & Hc). exists f'. split; [done |]. intros Hr. rewrite (Hc Hr).
        unfold contents. simpl. by rewrite <- !app_assoc.
      * intros Hq. destruct (write_file_quiet _ (parquet_batch b) _ _ Hf Hq) as (? & E & Hq').
        rewrite E1 in E. injection E as ->. by apply H2.
    + destruct (write_file_inv _ _ _ _ _ _ Hf E1) as (n & Hs1 & _). split.
      * eexists. split; [by rewrite Hs1, lookup_insert_eq | done].
      * intros Hq. destruct (write_file_quiet _ (parquet_batch b) _ _ Hf Hq) as (? & E & _).
        congruence.
Qed.

Lemma create_file_inv path s r s' :
  create_file path s = (r, s') →
  (r = Ok tt → fs_files s' !! path = Some (mk_file [] [])) ∧
  (fs_faults s = [] → r = Ok tt ∧ fs_faults s' = []).
Proof.
  unfold create_file, mbind, m_bind, next_fault, action.
  destruct (fs_faults s) as [|[|k] q] eqn:Hq; intros [= <- <-]; simpl; split;
    try (intros _; apply lookup_insert_eq); done.
Qed.

Lemma write_step path bs (s : fs) f r s' :
  fs_files s !! path = Some f → write_file path bs s = (r, s') →
  (r = Ok tt → ∃ f', fs_files s' !! path = Some f' ∧ contents f' = contents f ++ bs) ∧
  (fs_faults s = [] → r = Ok tt ∧ fs_faults s' = []).
Proof.
  intros Hf E1. split.
  - intros ->. destruct (write_file_inv _ _ _ _ _ _ Hf E1) as (n & Hs1 & Hn).
    rewrite (Hn eq_refl) in Hs1. eexists. split; [by rewrite Hs1, lookup_insert_eq |].
    unfold contents. simpl. by rewrite app_assoc.
  - intros Hq. destruct (write_file_quiet _ bs _ _ Hf Hq) as (? & E & ?). split; congruence.
Qed.

Lemma stage_spec (m : Memtable T) path s r s' :
  stage parquet_head parquet_batch parquet_footer m path s = (r, s') →
  (r = Ok tt → ∃ f, fs_files s' !! path = Some f ∧ contents f = staged_bytes (batches m)) ∧
  (fs_faults s = [] → r = Ok tt ∧ fs_faults s' = []).
Proof.
  intros Hrun. unfold stage in Hrun.
  apply bind_inv in Hrun as [([] & s1 & E1 & Hrun)|(e & E1 & ->)];
    destruct (create_file_inv _ _ _ _ E1) as [H1 Q1];
    [| split; [done | intros ?%Q1; naive_solver]].
  specialize (H1 eq_refl).
  apply bind_inv in Hrun as [([] & s2 & E2 & Hrun)|(e & E2 & ->)];
    destruct (write_step _ _ _ _ _ _ H1 E2) as [H2 Q2];
    [| split; [done | intros [_ ?%Q2]%Q1; naive_solver]].
  destruct (H2 eq_refl) as (f2 & Hf2 & Hc2).
  apply bind_inv in Hrun as [([] & s3 & E3 & Hrun)|(e & E3 & ->)];
    destruct (write_loop _ _ _ _ _ _ Hf2 E3) as [(f3 & Hf3 & Hc3) Q3];
    [| split; [done | intros [_ [_ ?%Q3]%Q2]%Q1; naive_solver]].
  destruct (write_step _ _ _ _ _ _ Hf3 Hrun) as [H4 Q4]. split.
  - intros Hr. destruct (H4 Hr) as (f4 & Hf4 & Hc4). exists f4. split; [done |].
    rewrite Hc4, (Hc3 eq_refl), Hc2. unfold staged_bytes. by rewrite <- !app_assoc.
  - intros [_ [_ [_ ?%Q4]%Q3]%Q2]%Q1. done.
Qed.

Lemma stage_rest q ms n files frs act hist (m : Memtable T) path :
  triple (rest q ms n files frs act hist)
    (on_staging (stage parquet_head parquet_batch parquet_footer m path))
    (λ _ st, rest q ms n files frs act hist st ∧
       ∃ f, fs_files (w_staging st.2) !! path = Some f ∧ contents f = staged_bytes (batches m))
    (failed q n hist).
Proof.
  intros [e w] r st' (logs & s & rs & S & Hq & Hm & Hn) Hrun.
  apply on_staging_inv in Hrun as (f' & Hrun & ->).
  destruct (stage_spec _ _ _ _ _ Hrun) as [Hok Hquiet].
  assert (stored (en_wal e) (set_w_staging f' w) logs s rs files frs act hist) as S'
    by (eapply stored_world; [exact S | done | apply S]).
  destruct r as [[]|err].
  - split; [| by apply Hok]. exists logs, s, rs. split_and!; try done.
    intros q'. destruct (Hq q') as (? & Q & ?). by destruct (Hquiet Q).
  - split; [by eapply kept_intro |].
    intros q'. destruct (Hq q') as (? & Q & ?). by destruct (Hquiet Q).
Qed.

(** The publish of a memtable that holds the first part of what is only in the log. *)
Lemma publish_stored (e : engine) (w : world) logs s rs files frs act1 act2 hist (m : Memtable T) path f r st' :
  stored (en_wal e) w logs s rs files frs (act1 ++ act2) hist → mt_holds m act1 → act1 ≠ [] →
  fs_files (w_staging w) !! path = Some f → contents f = staged_bytes (batches m) →
  publish path (e, w) = (r, st') →
  files_max (files ++ [row_of <$> mt_iter m]) = max_lsn_of act1 ∧
  ∃ l', st' = (e, set_w_lake l' w) ∧ (∀ i fs, co_index (w_lake w) i fs → co_index l' i fs) ∧
    (co_files l' files ∧ r ≠ Ok tt ∨
     stored (en_wal e) (set_w_lake l' w) logs s rs (files ++ [row_of <$> mt_iter m]) (frs ++ [act1]) act2 hist) ∧
    (co_quiet (w_lake w) → r = Ok tt ∧ co_quiet l').
Proof.
  intros S Hm Hne Hf Hc Hrun. pose proof (st_tiers _ _ _ _ _ _ _ _ _ S) as Ti.
  assert (∀ r, r ∈ act1 → files_max files < lsn r < 2 ^ 63 ∧ 0 < lsn r) as Hact.
  { intros r0 Hr0. destruct (tiers_above _ _ _ _ _ r0 Ti) as (? & _ & Hh); [apply elem_of_app; by left |].
    pose proof (max_lsn_of_elem _ _ Hh). pose proof (st_bound _ _ _ _ _ _ _ _ _ S).
    pose proof (ti_pos _ _ _ _ _ Ti) as Hp. rewrite Forall_forall in Hp.
    specialize (Hp _ Hh). lia. }
  assert (publishable files (row_of <$> mt_iter m)) as Hpub.
  { eapply flushed_publishable; [exact Hm | done | |]; intros; by apply Hact. }
  assert (file_holds (row_of <$> mt_iter m) act1) as Hfile.
  { apply flushed_file_holds; [done |]. intros r0 Hr0. specialize (Hact r0 Hr0). lia. }
  assert (read_parquet (contents f) = Some (row_of <$> mt_iter m)) as Hrp.
  { rewrite Hc. destruct (batches_rows m) as [<- Hag]. by apply parquet_roundtrip. }
  unfold publish in Hrun. rewrite (bind_ok _ _ (e, w) (e, w) (e, w)) in Hrun by done.
  cbn beta iota in Hrun. rewrite Hf in Hrun. apply on_lake_inv in Hrun as (l' & Hrun & ->).
  destruct (co_publish_law _ _ _ _ _ _ _ (st_files _ _ _ _ _ _ _ _ _ S) Hrp Hpub Hrun)
    as (Hidx & Hcase & Hok).
  split; [by apply (tiers_publish_part _ _ _ _ _ _ _ Ti Hne Hfile) |].
  exists l'. split; [done |]. split; [done |]. split; [| done].
  destruct Hcase as [?|F]; [by left | right]. split; try apply S; [done |].
  by apply (tiers_publish_part _ _ _ _ _ _ _ Ti Hne Hfile).
Qed.

Lemma publish_rest q ms n files frs act hist (m : Memtable T) path :
  mt_holds m act → act ≠ [] →
  triple (λ st, rest q ms n files frs act hist st ∧
      ∃ f, fs_files (w_staging st.2) !! path = Some f ∧ contents f = staged_bytes (batches m))
    (publish path)
    (λ _, rest q ms n (files ++ [row_of <$> mt_iter m]) (frs ++ [act]) [] hist)
    (failed q n hist).
Proof.
  intros Hm Hne [e w] r st' [(logs & s & rs & S & Hq & Hms & Hn) (f & Hf & Hc)] Hrun.
  rewrite <- (app_nil_r act) in S. cbn [fst snd] in *.
  destruct (publish_stored _ _ _ _ _ _ _ _ _ _ _ _ _ _ _ S Hm Hne Hf Hc Hrun)
    as (_ & l' & -> & _ & Hcase & Hok). rewrite app_nil_r in S.
  assert (q → r = Ok tt ∧ quiet (set_w_lake l' w)) as Hq'.
  { intros q'. destruct (Hq q') as (? & ? & Q). by destruct (Hok Q). }
  destruct r as [[]|err].
  - destruct Hcase as [[_ ?]|S']; [done |]. exists logs, s, rs. split; [exact S' |].
    split_and!; try done. intros q'. by apply Hq'.
  - split; [| intros q'; by destruct (Hq' q')].
    destruct Hcase as [[F _]|S']; eapply kept_intro; try done; eapply stored_world; done.
Qed.

Lemma starts_sublist hist l l' :
  sublist l' l → Forall (starts_ok hist) l → Forall (starts_ok hist) l'.
Proof. rewrite !Forall_forall. intros Hs Hl x Hx. apply Hl. by eapply elem_of_sublist. Qed.

Lemma log_records_sublist l l' r : sublist l' l → r ∈ log_records l' → r ∈ log_records l.
Proof.
  intros Hs. unfold log_records. rewrite !elem_of_concat. intros (rs & Hin & Hr).
  exists rs. split; [| done]. apply list_elem_of_fmap in Hin as (x & -> & Hx).
  apply list_elem_of_fmap_2. by eapply elem_of_sublist.
Qed.

Lemma truncate_stored x w logs s rs files frs act hist r x' f :
  stored x w logs s rs files frs act hist →
  truncate_through (files_max files) (x, w_wal w) = (r, (x', f)) →
  (fs_faults (w_wal w) = [] → r = Ok tt ∧ fs_faults f = []) ∧
  ∃ logs', stored x' (set_w_wal f w) logs' s rs files frs act hist.
Proof.
  intros S Hrun. pose proof (st_tiers _ _ _ _ _ _ _ _ _ S) as Ti.
  destruct (truncate_spec _ _ _ _ _ _ _ _ _ _ (st_wal _ _ _ _ _ _ _ _ _ S) Hrun)
    as (Hseg & Hok & logs' & Iw & Hsub & Hor & _).
  assert (sublist (logs' ++ [(s, rs)]) (logs ++ [(s, rs)])) as Hsub'
    by (by apply sublist_app).
  split; [done |]. exists logs'. split; try apply S; [done | by rewrite Hseg; apply S | |].
  - apply (tiers_log _ _ _ _ _ _ Ti).
    + rewrite !log_records_app, !filter_app. f_equal. eapply log_records_above; [done | | done].
      eapply wal_inv_logs_NoDup, S.
    + intros r0. by apply log_records_sublist.
  - eapply starts_sublist; [exact Hsub' | apply S].
Qed.

Lemma truncate_rest q ms n files frs act hist :
  triple (rest q ms n files frs act hist) (truncate_wal (files_max files))
    (λ _, rest q ms n files frs act hist) (failed q n hist).
Proof.
  intros [e w] r st' (logs & s & rs & S & Hq & Hms & Hn) Hrun.
  apply on_wal_inv in Hrun as (x & f & Hrun & ->). cbn [fst snd] in *.
  destruct (truncate_stored _ _ _ _ _ _ _ _ _ _ _ _ S Hrun) as [Hok [logs' S']].
  assert (q → r = Ok tt ∧ quiet (set_w_wal f w)) as Hq'.
  { intros q'. destruct (Hq q') as (Q & ? & ?). by destruct (Hok Q). }
  destruct r as [[]|err].
  - exists logs', s, rs. split; [exact S' |]. split_and!; try done. intros q'. by apply Hq'.
  - split; [by eapply kept_intro | intros q'; by destruct (Hq' q')].
Qed.

(** A live engine whose whole history is in the files. *)
Definition drained (e : engine) (w : world) (hist : list record) : Prop :=
  ∃ logs s rs files frs,
    stored (en_wal e) w logs s rs files frs [] hist ∧
    ms_holds (en_memtables e) [] [] ∧
    ms_max_frozen (en_memtables e) = max_frozen_memtables cfg ∧
    co_index (w_lake w) (en_index e) files.

Lemma drained_live e w hist : drained e w hist → live e w hist.
Proof. intros (logs & s & rs & files & frs & H). by exists logs, s, rs, files, frs, []. Qed.

Lemma drained_published e w hist :
  drained e w hist →
  mt_is_empty (arc_mt (ms_active (en_memtables e))) = true ∧ ms_frozen (en_memtables e) = [] ∧
  watermark e = max_lsn_of hist.
Proof.
  intros (logs & s & rs & files & frs & S & Hms & _ & Hi). split_and!.
  - by apply (mt_is_empty_holds _ []); [apply Hms |].
  - pose proof (mh_frozen _ _ _ Hms) as H2. by inv H2.
  - pose proof (st_tiers _ _ _ _ _ _ _ _ _ S) as Ti. unfold watermark.
    rewrite (co_watermark_law _ _ _ Hi), (tiers_files_max _ _ _ _ _ Ti), (ti_hist _ _ _ _ _ Ti).
    by rewrite app_nil_r.
Qed.

(** What a flush guarantees when it returns: the world holds the history, and the
    engine is drained unless the flush stopped at one of the crash points. *)
Definition flushed (q : Prop) (n : Lsn) (crash : option CrashAt) (hist : list record)
    (x : Flushed) (st : engine * world) : Prop :=
  kept n hist st ∧ (q → quiet st.2) ∧ (crash = None → drained st.1 st.2 hist).

Lemma rest_flushed q ms n files frs act hist crash x st :
  rest q ms n files frs act hist st → crash ≠ None → flushed q n crash hist x st.
Proof.
  intros R Hc. split; [by eapply rest_kept |]. split; [| done].
  by destruct R as (? & ? & ? & _ & Hq & _).
Qed.

Lemma remove_file_faults name s r s' :
  remove_file name s = (r, s') → fs_faults s = [] → fs_faults s' = [].
Proof.
  unfold remove_file, mbind, m_bind, action, next_fault. intros Hr Hq. rewrite Hq in Hr.
  simpl in Hr. destruct (fs_files s !! name); by injection Hr as <- <-.
Qed.

Lemma flush_write_rest q ms n files frs act hist crash (a : arc T) :
  ms_holds ms [act] [] → ms_frozen ms = [a] → mt_holds (arc_mt a) act → act ≠ [] →
  ms_max_frozen ms = max_frozen_memtables cfg →
  triple (rest q ms n files frs act hist)
    (flush_write parquet_head parquet_batch parquet_footer cfg crash a (max_lsn_of act))
    (flushed q n crash hist) (failed q n hist).
Proof.
  intros Hms Hfr Ha Hne Hmf st0 r0 st0' HP Hrun.
  assert (files_max (files ++ [row_of <$> mt_iter (arc_mt a)]) = max_lsn_of act) as Hmax.
  { destruct HP as (logs & s & rs & S & _).
    pose proof (st_tiers _ _ _ _ _ _ _ _ _ S) as Ti.
    apply (tiers_publish _ _ _ _ _ _ Ti Hne). apply flushed_file_holds; [done |].
    intros r Hr. destruct (tiers_above _ _ _ _ _ _ Ti Hr) as (_ & _ & Hh).
    pose proof (max_lsn_of_elem _ _ Hh). pose proof (st_bound _ _ _ _ _ _ _ _ _ S).
    pose proof (ti_pos _ _ _ _ _ Ti) as Hp. rewrite Forall_forall in Hp.
    specialize (Hp _ Hh). lia. }
  revert st0 r0 st0' HP Hrun. unfold flush_write.
  eapply triple_bind; [apply stage_rest | intros []].
  case_decide as Hc1.
  { apply triple_ret. intros st [R _]. eapply rest_flushed; [exact R | congruence]. }
  eapply triple_bind; [by apply publish_rest | intros []].
  eapply triple_bind; [apply load_rest | intros []].
  case_decide as Hc2.
  { apply triple_ret. intros st [_ R]. eapply rest_flushed; [exact R | congruence]. }
  rewrite <- Hmax.
  eapply (triple_bind _ _ _ (λ _ st, co_index (w_lake st.2) (en_index st.1) (files ++ [row_of <$> mt_iter (arc_mt a)]) ∧
    rest q ms n (files ++ [row_of <$> mt_iter (arc_mt a)]) (frs ++ [act]) [] hist st)).
  { intros [e w] r st' [Hi R] Hrun. pose proof (truncate_rest _ _ _ _ _ _ _ _ _ _ R Hrun) as Hr.
    destruct r; [| done]. split; [| done].
    apply on_wal_inv in Hrun as (x & f & _ & ->). done. }
  intros []. case_decide as Hc3.
  { apply triple_ret. intros st [_ R]. eapply rest_flushed; [exact R | congruence]. }
  intros [e w] r st' [Hi (logs & s & rs & S & Hq & Hm & Hn)] Hrun.
  unfold retire, upd in Hrun. rewrite (bind_ok _ _ (e, w) tt
    (set_en_memtables (ms_retire a (en_memtables e)) e, w)) in Hrun by done.
  unfold mbind, m_bind, action in Hrun.
  destruct (on_staging _ _) as [r1 st1] eqn:E1. injection Hrun as <- <-.
  apply on_staging_inv in E1 as (f' & E1 & ->).
  assert (stored (en_wal e) (set_w_staging f' w) logs s rs
    (files ++ [row_of <$> mt_iter (arc_mt a)]) (frs ++ [act]) [] hist) as S'
    by (eapply stored_world; [exact S | done | apply S]).
  split; [by eapply kept_intro |]. split.
  - intros q'. destruct (Hq q') as (? & Q & ?). split; [done |]. split; [| done].
    by apply (remove_file_faults _ _ _ _ E1).
  - intros _. cbn [fst snd] in Hm. rewrite Hm.
    destruct (ms_retire_holds ms [] a [] [] act [] [] Hms Hfr eq_refl) as [Hms' _].
    exists logs, s, rs, (files ++ [row_of <$> mt_iter (arc_mt a)]), (frs ++ [act]).
    split; [exact S' |]. split; [exact Hms' |]. done.
Qed.

Lemma flush_inner_live q n crash hist :
  triple (λ st, live st.1 st.2 hist ∧ (q → quiet st.2) ∧ en_next_lsn st.1 = n)
    (flush_inner parquet_head parquet_batch parquet_footer cfg crash)
    (flushed q n crash hist) (failed q n hist).
Proof.
  intros [e w] r st' [(logs & s & rs & files & frs & act & S & Hms & Hmf & Hi) [Hq Hn]] Hrun.
  cbn [fst snd] in *. unfold flush_inner, flush_frozen in Hrun.
  pose proof (ms_freeze_holds _ _ _ Hms) as Hf.
  destruct (ms_freeze (en_memtables e)) as [rf ms] eqn:Ef.
  assert (on_memtables ms_freeze (e, w) = (rf, (set_en_memtables ms e, w))) as Eo
    by (unfold on_memtables, m_zoom; by rewrite Ef).
  destruct rf as [[a|]|err].
  - destruct Hf as (Hne & _ & -> & Ha & Hfr & Hms' & _ & Hmf').
    rewrite (bind_ok _ _ _ _ _ Eo) in Hrun. cbn beta iota in Hrun.
    assert (ms_frozen ms = [ms_active (en_memtables e)]) as Hfr'.
    { rewrite Hfr. pose proof (mh_frozen _ _ _ Hms) as H2. by inv H2. }
    assert (rest q ms n files frs act hist (set_en_memtables ms e, w)) as R
      by (exists logs, s, rs; done).
    revert Hrun. case_decide as Hc0.
    { intros [= <- <-]. eapply rest_flushed; [exact R | congruence]. }
    revert R. generalize (set_en_memtables ms e, w). intros st0 R Hrun.
    revert st0 r st' R Hrun.
    eapply triple_bind; [apply published_watermark_rest | intros wm].
    intros st0 r st' [-> R] Hrun.
    rewrite (plan_write _ act) in Hrun.
    + by apply (flush_write_rest _ _ _ _ _ _ _ _ _ Hms' Hfr' Ha Hne ltac:(congruence) _ _ _ R) in Hrun.
    + done.
    + done.
    + pose proof (st_tiers _ _ _ _ _ _ _ _ _ S) as Ti. destruct act as [|r0 act]; [done |].
      destruct (tiers_above _ _ _ _ _ r0 Ti) as (? & _); [by left |].
      pose proof (max_lsn_of_elem r0 (r0 :: act) ltac:(by left)). lia.
  - rewrite (bind_ok _ _ _ _ _ Eo) in Hrun. injection Hrun as <- <-.
    destruct Hf as (-> & _ & ->).
    assert (set_en_memtables (en_memtables e) e = e) as -> by (by destruct e).
    split; [by eapply kept_intro |]. split; [done |]. intros _.
    by exists logs, s, rs, files, frs.
  - exfalso. destruct Hf as (_ & Hst & _). unfold ms_stalled in Hst. rewrite Hmf in Hst.
    pose proof (mh_frozen _ _ _ Hms) as H2. apply Forall2_length in H2.
    unfold zlen in Hst. rewrite H2 in Hst. simpl in Hst. zbool. lia.
Qed.

(** * Writing *)

Lemma starts_ok_mono hist hist' x :
  max_lsn_of hist ≤ max_lsn_of hist' → starts_ok hist x → starts_ok hist' x.
Proof. unfold starts_ok. intros Hm [? Hx]. split; [lia |]. intros ?%Hx. lia. Qed.

Lemma frames_nonempty rs : 0 < zlen (frames crc32_hash rs) → rs ≠ [].
Proof. intros Hz ->. by vm_compute in Hz. Qed.

(** The segments when a record of this LSN has been added to the last one. *)
Lemma starts_ok_grown hist hist' l s rs rec :
  Forall (starts_ok hist) (l ++ [(s, rs)]) → s ≤ lsn rec →
  max_lsn_of hist' = max_lsn_of hist `max` lsn rec →
  Forall (starts_ok hist') (l ++ [(s, rs ++ [rec])]).
Proof.
  intros H Hs Hm. apply Forall_app in H as [H1 H2]. apply Forall_inv in H2 as [H2 _].
  simpl in H2. apply Forall_app. split.
  - eapply Forall_impl; [exact H1 |]. intros. eapply starts_ok_mono; [| done]. lia.
  - apply Forall_singleton. split; simpl; [lia | intros _; lia].
Qed.

(** The log's part of a write, in whatever order writers get there, as long as a new
    segment starts in order. On success the record is in the history [hist']; whatever
    happens a crash leaves the history with or without it. *)
Lemma wal_append_stored x w logs s rs files frs act hist act' hist' rec r x' f :
  stored x w logs s rs files frs act hist → s ≤ lsn rec →
  (wal_segment_max_bytes x ≤ wal_active_bytes x → s < lsn rec ≤ max_lsn_of hist + 1) →
  tiers (log_records (logs ++ [(s, rs)]) ++ [rec]) files frs act' hist' →
  max_lsn_of hist' = max_lsn_of hist `max` lsn rec →
  record_fits rec → lsn rec < 2 ^ 63 →
  Wal.append crc32_hash [rec] (x, w_wal w) = (r, (x', f)) →
  (r = Ok tt → ∃ logs' s' rs',
    stored x' (set_w_wal f w) logs' s' rs' files frs act' hist' ∧
    (wal_active_bytes x < wal_segment_max_bytes x → s' = s) ∧ s' ≤ lsn rec) ∧
  (∀ w2, wcrash (set_w_wal f w) w2 → durable w2 hist ∨ durable w2 hist') ∧
  (fs_faults (w_wal w) = [] → r = Ok tt ∧ fs_faults f = []).
Proof.
  intros S Hle Hlt Ti Hmax Hfit Hb Hrun.
  pose proof (st_starts _ _ _ _ _ _ _ _ _ S) as Hst.
  assert (Forall record_fits [rec]) as Hfits by (by apply Forall_singleton).
  destruct (append_spec _ _ _ _ _ _ _ _ _ _ _ _ (st_wal _ _ _ _ _ _ _ _ _ S) eq_refl Hfits
    (λ H, proj1 (Hlt H)) Hrun) as ([Hseg _] & Hq & logs' & s' & rs' & m1 & f' & Hcase & D & Hs' & Hg & Hok).
  pose proof (append_records _ _ _ _ _ _ _ _ _ Hcase) as Hrec.
  assert (Forall (starts_ok hist) (logs' ++ [(s', rs')]) ∧ s' ≤ lsn rec) as [Hst' Hle'].
  { destruct Hcase as [(-> & -> & -> & _)|(-> & -> & -> & Hfull)]; [done |]. split; [| done].
    apply Forall_app. split; [done |]. constructor; [| constructor].
    unfold starts_ok. simpl. split; [by apply Hlt | done]. }
  pose proof (starts_ok_grown _ _ _ _ _ _ Hst' Hle' Hmax) as Hst2.
  assert (max_lsn_of hist' < 2 ^ 63) as Hb2.
  { rewrite Hmax. pose proof (st_bound _ _ _ _ _ _ _ _ _ S). lia. }
  split_and!.
  - intros Hr. destruct (Hok Hr) as [_ Iw]. exists logs', s', (rs' ++ [rec]).
    split; [split; [exact Iw | by rewrite Hseg; apply S | apply S | | exact Hst2 | exact Hb2] |].
    + by rewrite log_records_snoc, Hrec.
    + split; [| done]. intros Hroom. destruct Hcase as [(_ & -> & _)|(_ & _ & _ & ?)]; [done | lia].
  - intros w2 [Hc Hlake].
    destruct (crash_grown _ crc_u32 _ _ _ _ _ _ _ _ D Hfits Hs' Hg Hc) as (j & t & D2 & _).
    assert (co_files (w_lake w2) files) as F2 by (apply Hlake, S).
    assert ((clean logs' ++ [(s', rs' ++ take j [rec], t)]).*1 = logs' ++ [(s', rs' ++ take j [rec])])
      as E1 by (by rewrite fmap_app, clean_fst).
    destruct j as [|j].
    + left. exists (clean logs' ++ [(s', rs' ++ [], t)]), files, frs, act. simpl in E1, D2.
      rewrite E1, app_nil_r in *. split; [done |]. split; [done |].
      split; [rewrite Hrec; apply S | split; [done | apply S]].
    + right. exists (clean logs' ++ [(s', rs' ++ [rec], t)]), files, frs, act'.
      simpl in E1, D2. rewrite take_nil in E1, D2. rewrite E1.
      split; [done |]. split; [done |]. split; [| done]. by rewrite log_records_snoc, Hrec.
  - done.
Qed.

(** The same for one writer: the record is the newest of the history. *)
Lemma wal_append_next x w logs s rs files frs act hist rec r x' f :
  stored x w logs s rs files frs act hist → lsn rec = max_lsn_of hist + 1 →
  record_fits rec → lsn rec < 2 ^ 63 →
  Wal.append crc32_hash [rec] (x, w_wal w) = (r, (x', f)) →
  (r = Ok tt → ∃ logs' s' rs',
    stored x' (set_w_wal f w) logs' s' rs' files frs (act ++ [rec]) (hist ++ [rec])) ∧
  (∀ w2, wcrash (set_w_wal f w) w2 → durable w2 hist ∨ durable w2 (hist ++ [rec])) ∧
  (fs_faults (w_wal w) = [] → r = Ok tt ∧ fs_faults f = []).
Proof.
  intros S Hl Hfit Hb Hrun. pose proof (st_tiers _ _ _ _ _ _ _ _ _ S) as Ti.
  pose proof (max_lsn_of_nonneg hist) as Hnn.
  pose proof (st_starts _ _ _ _ _ _ _ _ _ S) as Hst.
  apply Forall_app in Hst as [_ Hst]. apply Forall_inv in Hst as [Hs Hs']. simpl in Hs, Hs'.
  assert (wal_segment_max_bytes x ≤ wal_active_bytes x → s < lsn rec ≤ max_lsn_of hist + 1) as Hlt.
  { rewrite (st_segment _ _ _ _ _ _ _ _ _ S), (wi_bytes _ _ _ _ _ _ (st_wal _ _ _ _ _ _ _ _ _ S)).
    intros Hfull. specialize (Hs' (frames_nonempty rs ltac:(lia))). lia. }
  assert (s ≤ lsn rec) as Hle by lia.
  assert (max_lsn_of (hist ++ [rec]) = max_lsn_of hist `max` lsn rec) as Hm
    by (rewrite max_lsn_of_app; simpl; lia).
  assert (max_lsn_of hist < lsn rec) as Hnew by lia.
  destruct (wal_append_stored _ _ _ _ _ _ _ _ _ _ _ _ _ _ _ S Hle Hlt
    (tiers_append _ _ _ _ _ _ Ti Hnew) Hm Hfit Hb Hrun) as (Hok & ? & ?).
  split_and!; try done. intros Hr. destruct (Hok Hr) as (? & ? & ? & ? & _). eauto.
Qed.

Lemma append_live e w hist rec r st' :
  live e w hist → lsn rec = max_lsn_of hist + 1 → record_fits rec → lsn rec < 2 ^ 63 →
  append crc32_hash parquet_head parquet_batch parquet_footer cfg rec (e, w) = (r, st') →
  en_next_lsn st'.1 = en_next_lsn e ∧
  (r = Ok tt → live st'.1 st'.2 (hist ++ [rec])) ∧
  (∀ w2, wcrash st'.2 w2 → durable w2 hist ∨ durable w2 (hist ++ [rec])) ∧
  (quiet w → r = Ok tt ∧ quiet st'.2).
Proof.
  intros (logs & s & rs & files & frs & act & S & Hms & Hmf & Hi) Hl Hfit Hb Hrun.
  unfold append in Hrun. apply bind_inv in Hrun as [([] & st1 & E1 & Hrun)|(err & E1 & ->)].
  2:{ apply on_wal_inv in E1 as (x & f & E1 & ->).
      destruct (wal_append_next _ _ _ _ _ _ _ _ _ _ _ _ _ S Hl Hfit Hb E1) as (_ & Hc & Hq).
      split; [done |]. split; [done |]. split; [exact Hc |].
      intros (Q & _). by destruct (Hq Q). }
  apply on_wal_inv in E1 as (x & f & E1 & ->).
  destruct (wal_append_next _ _ _ _ _ _ _ _ _ _ _ _ _ S Hl Hfit Hb E1) as (Hok & _ & Hq).
  destruct (Hok eq_refl) as (logs' & s' & rs' & S').
  set (e2 := set_en_memtables (ms_insert rec (en_memtables e)) (set_en_wal x e)).
  rewrite (bind_ok _ _ _ tt (e2, set_w_wal f w)) in Hrun by done.
  rewrite (bind_ok _ _ _ e2 (e2, set_w_wal f w)) in Hrun by done.
  assert (live e2 (set_w_wal f w) (hist ++ [rec])) as Hlive.
  { exists logs', s', rs', files, frs, (act ++ [rec]). split; [exact S' |].
    split; [by apply ms_insert_holds | done]. }
  assert (quiet w → quiet (set_w_wal f w)) as Hq2.
  { intros (Q1 & Q2 & Q3). by destruct (Hq Q1). }
  destruct (ms_should_freeze (en_memtables e2)).
  2:{ injection Hrun as <- <-. split; [done |]. split; [done |]. split; [| auto].
      intros w2 Hc. right. by eapply stored_crash. }
  pose proof (flush_inner_live (quiet w) (en_next_lsn e) None (hist ++ [rec])) as Hflush.
  apply bind_inv in Hrun as [(y & st1 & E2 & Hrun)|(err & E2 & ->)];
    specialize (Hflush (e2, set_w_wal f w) _ _ (conj Hlive (conj Hq2 eq_refl)) E2).
  - injection Hrun as <- <-. destruct Hflush as (Hk & Hq3 & Hl3).
    split; [apply Hk |]. split; [intros _; by apply drained_live, Hl3 |]. split; [| auto].
    intros w2 Hc. right. by eapply kept_crash.
  - destruct Hflush as [Hk Hnq]. split; [apply Hk |]. split; [done |]. split; [| done].
    intros w2 Hc. right. by eapply kept_crash.
Qed.

(** * Reading *)

(** What a reader finds: [vis] in the active memtable, and [base] in the frozen ones and
    in the files of its index together. A record may be in both, and the lake may have
    more files than the index. *)
Record view (e : engine) (w : world) (base vis : list record) : Prop := {
  vw_below : ∃ fro files frs,
    ms_holds (en_memtables e) fro vis ∧ co_index (w_lake w) (en_index e) files ∧
    Forall2 file_holds files frs ∧ ∀ k, first_hit k (reverse fro ++ reverse frs) = newest k base;
  vw_incr : increasing (base ++ vis);
}.

Lemma get_view (e : engine) (w : world) files base vis k r st' :
  view e w base vis → co_files (w_lake w) files → get k (e, w) = (r, st') →
  (∃ l', st' = (e, set_w_lake l' w) ∧ co_files l' files ∧
     (∀ i fs, co_index (w_lake w) i fs → co_index l' i fs)) ∧
  (∀ v, r = Ok v → v = kv_of (base ++ vis) !! k) ∧ (quiet w → is_ok r = true ∧ quiet st'.2).
Proof.
  intros [(fro & ifiles & frs & Hms & Hi & Hr & Hb) Hinc] Hf Hrun.
  rewrite (kv_of_newest _ _ Hinc), newest_layer.
  2:{ apply increasing_app in Hinc as (_ & _ & Hlt). intros; by apply Hlt. }
  rewrite <- Hb, first_hit_app.
  unfold get in Hrun. rewrite (bind_ok _ _ (e, w) e (e, w)) in Hrun by done.
  rewrite (ms_get_holds _ _ _ _ Hms) in Hrun. cbn [first_hit] in Hrun.
  assert (∀ r : record, answer (Some r) ≠ Missing) as Hans by (intros r0; simpl; by destruct (op r0)).
  set (mem := match newest k vis with Some r => Some r | None => first_hit k (reverse fro) end) in *.
  assert (match newest k vis with
          | Some r => Some r
          | None => match first_hit k (reverse fro) with Some r => Some r | None => first_hit k (reverse frs) end
          end = match mem with Some r => Some r | None => first_hit k (reverse frs) end) as ->.
  { unfold mem. by destruct (newest k vis). }
  assert (∃ l', (e, w) = (e, set_w_lake l' w) ∧ co_files l' files ∧
    (∀ i fs, co_index (w_lake w) i fs → co_index l' i fs)) as Hsame
    by (exists (w_lake w); by destruct w).
  destruct mem as [m|].
  { specialize (Hans m). destruct (answer (Some m)) as [v| |] eqn:Ea; [..| done];
      injection Hrun as <- <-; (split; [exact Hsame | split; [by intros v' [= <-] | done]]). }
  simpl in Hrun.
  apply bind_inv in Hrun as [(x & st1 & E1 & Hrun)|(err & E1 & ->)];
    apply on_lake_inv in E1 as (l' & E1 & ->);
    destruct (co_get_law _ _ _ _ _ _ _ Hf Hi E1) as (F & Hi' & Hx & Hq).
  - injection Hrun as <- <-. split; [by exists l' |]. split.
    + intros v [= <-]. rewrite (Hx x eq_refl), (files_get_holds k _ (reverse frs)) by (by apply Forall2_reverse).
      by destruct (answer (first_hit k (reverse frs))).
    + intros (Q1 & Q2 & Q3). by destruct (Hq Q3).
  - split; [by exists l' |]. split; [done |]. intros (Q1 & Q2 & Q3). by destruct (Hq Q3).
Qed.

(** The view of the tiers: nothing is frozen, and the index is up to date. *)
Lemma tiers_view log files frs act hist (e : engine) (w : world) :
  tiers log files frs act hist → ms_holds (en_memtables e) [] act →
  co_index (w_lake w) (en_index e) files → view e w (concat frs) act.
Proof.
  intros Ti Hms Hi. split; [| rewrite <- (ti_hist _ _ _ _ _ Ti); apply Ti].
  exists [], files, frs. split_and!; try done; [apply Ti |]. intros k. simpl. apply first_hit_layers.
  pose proof (ti_incr _ _ _ _ _ Ti) as Hinc. rewrite (ti_hist _ _ _ _ _ Ti) in Hinc.
  by apply increasing_app in Hinc as (? & _).
Qed.

Lemma get_live e w hist k r st' :
  live e w hist → get k (e, w) = (r, st') →
  st'.1 = e ∧ live e st'.2 hist ∧ (∀ v, r = Ok v → v = kv_of hist !! k) ∧
  (quiet w → is_ok r = true ∧ quiet st'.2).
Proof.
  intros (logs & s & rs & files & frs & act & S & Hms & Hmf & Hi) Hrun.
  pose proof (st_tiers _ _ _ _ _ _ _ _ _ S) as Ti.
  destruct (get_view _ _ _ _ _ _ _ _ (tiers_view _ _ _ _ _ _ _ Ti Hms Hi)
    (st_files _ _ _ _ _ _ _ _ _ S) Hrun) as ((l' & -> & F & Hi') & Hv & Hq).
  rewrite <- (ti_hist _ _ _ _ _ Ti) in Hv.
  split; [done |]. split; [| done].
  exists logs, s, rs, files, frs, act. split; [by eapply stored_world |].
  split_and!; [done | done | by apply Hi'].
Qed.
End state.
