(* ===== verification/LakeModel.v ===== *)
(** An executable lake for the examples: the files in a list, a schedule of
    failures, and a staging file format. It satisfies the laws of [Columnar.v], so
    what is proved of the engine can be run on it. *)

From S2P Require Import Prelude RecordModel Fs Memtable Flush Columnar.

(** * A staging file format *)

(** Rows as bytes, a digit of the code of the row list per byte. *)
Fixpoint bytes_of_pos (p : positive) : bytes :=
  match p with
  | xH => []
  | xO p => Byte.x00 :: bytes_of_pos p
  | xI p => Byte.x01 :: bytes_of_pos p
  end.
Fixpoint pos_of_bytes (l : bytes) : positive :=
  match l with
  | [] => xH
  | Byte.x00 :: l => xO (pos_of_bytes l)
  | _ :: l => xI (pos_of_bytes l)
  end.

Lemma pos_of_bytes_of p : pos_of_bytes (bytes_of_pos p) = p.
Proof. induction p; simpl; congruence. Qed.

Definition row_cells (r : row) : bytes * Z * Z * option bytes := (r_pk r, r_lsn r, r_op r, r_value r).
Definition cells_row (c : bytes * Z * Z * option bytes) : row :=
  let '(k, l, o, v) := c in mk_row k l o v.

Definition head_bytes (_ : list Field) : bytes := [].
Definition batch_bytes (_ : RecordBatch) : bytes := [].
Definition footer_bytes (bs : list RecordBatch) : bytes :=
  bytes_of_pos (countable.encode (row_cells <$> concat (batch_rows <$> bs))).
Definition read_rows (bs : bytes) : option (list row) :=
  (λ l : list (bytes * Z * Z * option bytes), cells_row <$> l) <$> countable.decode (pos_of_bytes bs).

Lemma concat_nils {A B} (l : list A) : concat ((λ _, @nil B) <$> l) = [].
Proof. by induction l. Qed.

Lemma read_rows_staged bs :
  read_rows (head_bytes arrow_schema ++ concat (batch_bytes <$> bs) ++ footer_bytes bs) =
    Some (concat (batch_rows <$> bs)).
Proof.
  unfold batch_bytes, head_bytes. rewrite concat_nils. simpl.
  unfold read_rows, footer_bytes. rewrite pos_of_bytes_of, countable.decode_encode. simpl. f_equal.
  rewrite <- list_fmap_compose. etrans; [| apply list_fmap_id].
  apply list_fmap_ext. by intros _ [] _.
Qed.

(** * The lake *)

(** What the next call meets: nothing, a failure, or, for a publish, a failure
    reported after the commit. *)
Inductive lake_fault : Type := Serves | Refuses | Commits_and_fails.

Record lake : Type := mk_lake { lk_files : list (list row); lk_faults : list lake_fault }.

Definition lake_error : Error := Postgres "connection lost".

Definition next_lake_fault : M lake lake_fault := λ l,
  match lk_faults l with
  | [] => (Ok Serves, l)
  | x :: q => (Ok x, mk_lake (lk_files l) q)
  end.

(** A call that only reads. *)
Definition lake_read {A} (f : list (list row) → A) : M lake A :=
  x ← next_lake_fault;
  action (λ l, match x with Serves => (Ok (f (lk_files l)), l) | _ => (Err lake_error, l) end).

Definition lake_publish (staging : string) (bs : bytes) : M lake unit :=
  x ← next_lake_fault;
  action (λ l,
    let l' := mk_lake (lk_files l ++ [default [] (read_rows bs)]) (lk_faults l) in
    match x with
    | Serves => (Ok tt, l')
    | Refuses => (Err (DuckDbExec 1 "failed"), l)
    | Commits_and_fails => (Err (DuckDbExec 1 "failed"), l')
    end).

#[export] Instance lake_columnar : Columnar lake (list (list row)) := {
  co_connect := lake_read (λ _, tt);
  co_published_watermark := lake_read files_max;
  co_load := lake_read id;
  co_watermark := files_max;
  co_file_count := zlen;
  co_get i k := lake_read (λ _, files_get k (reverse i));
  co_publish := lake_publish;
}.

Lemma lake_read_inv {A} (f : list (list row) → A) l r l' :
  lake_read f l = (r, l') →
  lk_files l' = lk_files l ∧ (∀ a, r = Ok a → a = f (lk_files l)) ∧
  (lk_faults l = [] → is_ok r = true ∧ lk_faults l' = []).
Proof.
  unfold lake_read, mbind, m_bind, next_lake_fault, action.
  destruct (lk_faults l) as [|[] q] eqn:E; intros [= <- <-]; simpl; naive_solver.
Qed.

#[export] Program Instance lake_columnar_laws : ColumnarLaws lake (list (list row)) read_rows := {
  co_files l files := lk_files l = files;
  co_index _ i files := i = files;
  co_quiet l := lk_faults l = [];
}.
Next Obligation.
  simpl. intros l files r l' <- Hr. apply lake_read_inv in Hr as (? & _ & Hq).
  split; [done |]. intros [H1 H2]%Hq. destruct r as [[]|]; done.
Qed.
Next Obligation. simpl. intros l files r l' <- Hr. by apply lake_read_inv in Hr as (? & ? & ?). Qed.
Next Obligation. simpl. intros l files r l' <- Hr. by apply lake_read_inv in Hr as (? & ? & ?). Qed.
Next Obligation. simpl. by intros _ i files ->. Qed.
Next Obligation. simpl. by intros _ i files ->. Qed.
Next Obligation.
  simpl. intros l files i fs k r l' <- -> Hr. by apply lake_read_inv in Hr as (? & ? & ?).
Qed.
Next Obligation.
  simpl. intros l files staging bs rows r l' <- Hp _. unfold lake_publish, mbind, m_bind, next_lake_fault, action.
  rewrite Hp. destruct (lk_faults l) as [|[] q] eqn:E; intros [= <- <-]; simpl; naive_solver.
Qed.
