(* ===== verification/EngineProps.v ===== *)
(** The properties of the engine ([src/src/engine.rs]): recovery, durability,
    reads, the crash windows of the flush, and the refinement of a plain map. *)

From S2P Require Import Latency.
From S2P Require Import Prelude RecordModel Fs Instances Wal WalLemmas Memtable MemtableProps.
From S2P Require Import Flush FlushProps Columnar Engine EngineLemmas LakeModel.

(** * The system and its specification *)

(** What a client sees of a run. *)
Inductive event : Type :=
| Acked (r : record)                        (* a write that returned [Ok] *)
| Unacked (r : record)                      (* a write that returned [Err], then a restart *)
| Read (k : bytes) (v : option bytes)       (* a read and its answer *)
| Silent.                                   (* a flush, a failed read, a crash, a recovery *)

(** The specification is a map. A write that was not acknowledged may or may not
    have taken effect; nothing else changes the map, and reads read it. *)
Inductive spec_step : gmap bytes bytes → event → gmap bytes bytes → Prop :=
| spec_acked m r : spec_step m (Acked r) (apply_rec m r)
| spec_unacked_lost m r : spec_step m (Unacked r) m
| spec_unacked_kept m r : spec_step m (Unacked r) (apply_rec m r)
| spec_read m k : spec_step m (Read k (m !! k)) m
| spec_silent m : spec_step m Silent m.

Inductive spec_run : gmap bytes bytes → list event → gmap bytes bytes → Prop :=
| spec_done m : spec_run m [] m
| spec_more m1 ev m2 evs m3 :
  spec_step m1 ev m2 → spec_run m2 evs m3 → spec_run m1 (ev :: evs) m3.

Section properties.
Context {T : Type} {SM : SkipMap T} {SML : SkipMapLaws T}.
Context {L I : Type} {CO : Columnar L I} {read_parquet : bytes → option (list row)}.
Context {COL : ColumnarLaws L I read_parquet}.
Context (crc32_hash : bytes → Z) (read_dir : gmap string file → list string).
Context (parquet_head : list Field → bytes) (parquet_batch : RecordBatch → bytes).
Context (parquet_footer : list RecordBatch → bytes).
Context (cfg : Config).

Abbreviation engine := (engine (T := T) (I := I)).
Abbreviation world := (world (L := L)).
Abbreviation live := (live (T := T) (COL := COL) crc32_hash cfg).
Abbreviation durable := (durable (COL := COL) crc32_hash).
Abbreviation put := (put (T := T) crc32_hash parquet_head parquet_batch parquet_footer cfg).
Abbreviation delete := (delete (T := T) crc32_hash parquet_head parquet_batch parquet_footer cfg).
Abbreviation flush_inner := (flush_inner (T := T) parquet_head parquet_batch parquet_footer cfg).
Abbreviation open := (open (T := T) crc32_hash read_dir cfg).

(** What the model's parameters are assumed to do: the checksum is a 32-bit
    number, a directory listing is complete, a staged file reads back, and the
    settings leave room for one record and one flush. *)
Record assumptions : Prop := {
  as_crc : ∀ l, is_u32 (crc32_hash l);
  as_dir : ∀ m, read_dir m ≡ₚ (map_to_list m).*1;
  as_parquet : ∀ bs, Forall columns_agree bs →
    read_parquet (staged_bytes parquet_head parquet_batch parquet_footer bs) =
      Some (concat (batch_rows <$> bs));
  as_segment : 0 < wal_segment_bytes cfg;
  as_frozen : 0 < max_frozen_memtables cfg;
}.

(** An engine that is up and its next LSN in order. *)
Definition running (e : engine) (w : world) (hist : list record) : Prop :=
  live e w hist ∧ en_next_lsn e = max_lsn_of hist + 1.

(** The write of a client, and that it is within the format's limits. *)
Definition write_fits (e : engine) (k v : bytes) : Prop :=
  17 + zlen k + zlen v < 2 ^ 32 ∧ en_next_lsn e < 2 ^ 63.

Lemma append_running (A : assumptions) e w hist k v o r st' :
  running e w hist → write_fits e k v →
  let rec := mk_record k (en_next_lsn e) o v in
  (lsn ← fetch_add_lsn;
   _ ← append crc32_hash parquet_head parquet_batch parquet_footer cfg (mk_record k lsn o v);
   mret lsn) (e, w) = (r, st') →
  (∀ n, r = Ok n → n = en_next_lsn e ∧ running st'.1 st'.2 (hist ++ [rec])) ∧
  (∀ w2, wcrash (COL := COL) st'.2 w2 → durable w2 hist ∨ durable w2 (hist ++ [rec])) ∧
  (quiet (COL := COL) w → is_ok r = true ∧ quiet (COL := COL) st'.2).
Proof.
  intros [Hlive Hn] [Hfit Hb] rec Hrun. destruct A as [A1 A2 A3 A4 A5].
  set (e1 := set_en_next_lsn (as_u64 (en_next_lsn e + 1)) e).
  rewrite (bind_ok _ _ (e, w) (en_next_lsn e) (e1, w)) in Hrun by done.
  assert (live e1 w hist) as Hlive1 by exact Hlive.
  pose proof (max_lsn_of_nonneg hist) as Hnn.
  assert (record_fits rec) as Hrec by (split; simpl; unfold is_u64; lia).
  assert (en_next_lsn e1 = max_lsn_of (hist ++ [rec]) + 1) as Hn1.
  { simpl. rewrite max_lsn_of_app. simpl. unfold as_u64. rewrite Z.mod_small by lia. lia. }
  apply bind_inv in Hrun as [([] & st1 & E1 & Hrun)|(err & E1 & ->)];
    destruct (append_live _ A1 _ _ _ A3 _ A4 A5 _ _ _ rec _ _ Hlive1 Hn Hrec Hb E1)
      as (Hn2 & Hok & Hc & Hq).
  - injection Hrun as <- <-. split; [| split; [exact Hc |]].
    + intros n [= <-]. split; [done |]. split; [by apply Hok | by rewrite Hn2].
    + intros Q. by destruct (Hq Q).
  - split; [done |]. split; [exact Hc |]. intros Q. by destruct (Hq Q).
Qed.

(** C7: recovery. From any state a crash can leave, an [open] without I/O errors
    gives an engine that runs on exactly the same history: it has the right next
    LSN, and every key reads as the history says. *)
Theorem open_restores (A : assumptions) w hist :
  durable w hist → quiet (COL := COL) w →
  ∃ e w', open w = (Ok (Some e), w') ∧ running e w' hist ∧
    ∀ k, ∃ w2, get k (e, w') = (Ok (kv_of hist !! k), (e, w2)).
Proof.
  intros D Q. destruct A as [A1 A2 A3 A4 A5].
  destruct (open_recovers _ A1 _ A2 _ A5 _ _ D Q) as (e & w' & E & Hl & Hn & Q').
  exists e, w'. split; [done |]. split; [done |]. intros k.
  destruct (get k (e, w')) as [r [e' w2]] eqn:Eg.
  destruct (get_live _ _ _ _ _ _ _ _ Hl Eg) as (He & _ & Hv & Hq). simpl in He. subst e'.
  destruct (Hq Q') as [Hok _]. destruct r as [v|]; [| done]. exists w2. by rewrite (Hv v eq_refl).
Qed.

(** C8: a write that is acknowledged is durable and visible. [put] under any
    faults: if it returns [Ok] the engine runs on with the record at the end of the
    history; whatever it returns, a crash right after leaves the history with or
    without the record and nothing else; without faults it returns [Ok]. *)
Theorem put_durable (A : assumptions) e w hist k v r st' :
  running e w hist → write_fits e k v → put k v (e, w) = (r, st') →
  let rec := RecordModel.put k (en_next_lsn e) v in
  (∀ n, r = Ok n → n = en_next_lsn e ∧ running st'.1 st'.2 (hist ++ [rec]) ∧
     kv_of (hist ++ [rec]) = <[k := v]> (kv_of hist) ∧
     ∀ w2, wcrash (COL := COL) st'.2 w2 → durable w2 (hist ++ [rec])) ∧
  (∀ w2, wcrash (COL := COL) st'.2 w2 → durable w2 hist ∨ durable w2 (hist ++ [rec])) ∧
  (quiet (COL := COL) w → is_ok r = true).
Proof.
  intros R F Hrun rec. destruct (append_running A e w hist k v Put r st' R F Hrun) as (Hok & Hc & Hq).
  split; [| split; [exact Hc | intros Q; by destruct (Hq Q)]].
  intros n Hr. destruct (Hok n Hr) as [-> R']. split_and!; try done.
  - unfold kv_of. by rewrite fold_left_app.
  - intros w2 Hc2. destruct R' as [(logs & s & rs & files & frs & act & S & _) _].
    by eapply stored_crash.
Qed.

(** The same for [delete]: an acknowledged delete is a durable tombstone, and
    the key is gone from the map. *)
Theorem delete_durable (A : assumptions) e w hist k r st' :
  running e w hist → write_fits e k [] → delete k (e, w) = (r, st') →
  let rec := RecordModel.delete k (en_next_lsn e) in
  (∀ n, r = Ok n → n = en_next_lsn e ∧ running st'.1 st'.2 (hist ++ [rec]) ∧
     kv_of (hist ++ [rec]) = base.delete k (kv_of hist) ∧
     ∀ w2, wcrash (COL := COL) st'.2 w2 → durable w2 (hist ++ [rec])) ∧
  (∀ w2, wcrash (COL := COL) st'.2 w2 → durable w2 hist ∨ durable w2 (hist ++ [rec])) ∧
  (quiet (COL := COL) w → is_ok r = true).
Proof.
  intros R F Hrun rec.
  destruct (append_running A e w hist k [] Delete r st' R F Hrun) as (Hok & Hc & Hq).
  split; [| split; [exact Hc | intros Q; by destruct (Hq Q)]].
  intros n Hr. destruct (Hok n Hr) as [-> R']. split_and!; try done.
  - unfold kv_of. by rewrite fold_left_app.
  - intros w2 Hc2. destruct R' as [(logs & s & rs & files & frs & act & S & _) _].
    by eapply stored_crash.
Qed.

(** C9: a read returns the value of the last write of the key in the history, or
    nothing if there is none or it was a delete, wherever the row is: active
    memtable or any file. A read that fails changes nothing. *)
Theorem get_latest e w hist k r st' :
  running e w hist → get k (e, w) = (r, st') →
  st'.1 = e ∧ running e st'.2 hist ∧
  match r with Ok v => v = kv_of hist !! k | Err _ => ¬ quiet (COL := COL) w end.
Proof.
  intros [Hl Hn] Hrun. destruct (get_live _ _ _ _ _ _ _ _ Hl Hrun) as (He & Hl' & Hv & Hq).
  split; [done |]. split; [done |]. destruct r as [v|err]; [by apply Hv |].
  intros Q. by destruct (Hq Q).
Qed.

(** C4: the flush protocol loses nothing in any of its crash windows. Stop
    [flush_inner] at any crash point, or let any call in it fail, a publish that
    committed but reported failure included: a crash leaves the whole history
    durable. A flush that returns [Ok] leaves the engine running on the same history,
    all of it published: the memtables are empty and the watermark is the last LSN.
    Without faults it does return [Ok]. *)
Theorem flush_crash_safe (A : assumptions) e w hist crash r st' :
  running e w hist → flush_inner crash (e, w) = (r, st') →
  (∀ w2, wcrash (COL := COL) st'.2 w2 → durable w2 hist) ∧
  (crash = None → ∀ x, r = Ok x →
    running st'.1 st'.2 hist ∧
    mt_is_empty (arc_mt (ms_active (en_memtables st'.1))) = true ∧
    ms_frozen (en_memtables st'.1) = [] ∧ watermark st'.1 = max_lsn_of hist) ∧
  (quiet (COL := COL) w → is_ok r = true).
Proof.
  intros [Hl Hn] Hrun. destruct A as [A1 A2 A3 A4 A5].
  pose proof (flush_inner_live crc32_hash _ _ _ A3 cfg A5 (quiet (COL := COL) w)
    (en_next_lsn e) crash hist (e, w) r st' (conj Hl (conj (λ q, q) eq_refl)) Hrun) as Hf.
  destruct r as [x|err].
  - destruct Hf as (Hk & _ & Hlive). split; [| split; [| done]].
    + intros w2. by eapply kept_crash.
    + intros Hc x' _. split; [| by eapply drained_published, Hlive].
      split; [by apply drained_live, Hlive |]. destruct Hk as [_ ->]. done.
  - destruct Hf as [Hk Hnq]. split; [| split; done]. intros w2. by eapply kept_crash.
Qed.

(** * Runs *)

(** The system: an engine that is up, or a world without one. *)
Inductive system : Type := Up (e : engine) (w : world) | Down (w : world).

(** One client at a time. A failed write or flush is followed by a restart. *)
Inductive step : system → event → system → Prop :=
| step_put e w k v n e' w' :
  write_fits e k v → put k v (e, w) = (Ok n, (e', w')) →
  step (Up e w) (Acked (RecordModel.put k n v)) (Up e' w')
| step_delete e w k n e' w' :
  write_fits e k [] → delete k (e, w) = (Ok n, (e', w')) →
  step (Up e w) (Acked (RecordModel.delete k n)) (Up e' w')
| step_put_failed e w k v err e' w' w2 :
  write_fits e k v → put k v (e, w) = (Err err, (e', w')) → wcrash (COL := COL) w' w2 →
  step (Up e w) (Unacked (RecordModel.put k (en_next_lsn e) v)) (Down w2)
| step_delete_failed e w k err e' w' w2 :
  write_fits e k [] → delete k (e, w) = (Err err, (e', w')) → wcrash (COL := COL) w' w2 →
  step (Up e w) (Unacked (RecordModel.delete k (en_next_lsn e))) (Down w2)
| step_get e w k v e' w' :
  get k (e, w) = (Ok v, (e', w')) → step (Up e w) (Read k v) (Up e' w')
| step_get_failed e w k err e' w' :
  get k (e, w) = (Err err, (e', w')) → step (Up e w) Silent (Up e' w')
| step_flush e w x e' w' :
  flush_inner None (e, w) = (Ok x, (e', w')) → step (Up e w) Silent (Up e' w')
| step_flush_crash e w crash r e' w' w2 :
  flush_inner crash (e, w) = (r, (e', w')) → wcrash (COL := COL) w' w2 →
  step (Up e w) Silent (Down w2)
| step_crash e w w2 : wcrash (COL := COL) w w2 → step (Up e w) Silent (Down w2)
| step_open w e w' :
  open w = (Ok (Some e), w') → step (Down w) Silent (Up e w')
| step_open_failed w r w' w2 :
  open w = (r, w') → wcrash (COL := COL) w' w2 → step (Down w) Silent (Down w2).

Inductive run : system → list event → system → Prop :=
| run_done s : run s [] s
| run_more s1 ev s2 evs s3 : step s1 ev s2 → run s2 evs s3 → run s1 (ev :: evs) s3.

(** A system and the map it stands for. *)
Definition represents (s : system) (m : gmap bytes bytes) : Prop :=
  ∃ hist, m = kv_of hist ∧
    match s with Up e w => running e w hist | Down w => durable w hist end.

Lemma kv_of_snoc hist r : kv_of (hist ++ [r]) = apply_rec (kv_of hist) r.
Proof. unfold kv_of. by rewrite fold_left_app. Qed.

Lemma acked_step (A : assumptions) e w hist k v o n e' w' :
  running e w hist → write_fits e k v →
  (lsn ← fetch_add_lsn;
   _ ← append crc32_hash parquet_head parquet_batch parquet_footer cfg (mk_record k lsn o v);
   mret lsn) (e, w) = (Ok n, (e', w')) →
  ∃ m', spec_step (kv_of hist) (Acked (mk_record k n o v)) m' ∧ represents (Up e' w') m'.
Proof.
  intros R F Hrun. destruct (append_running A _ _ _ _ _ _ _ _ R F Hrun) as (Hok & _ & _).
  destruct (Hok n eq_refl) as [-> R']. eexists. split; [constructor |].
  eexists. split; [symmetry; apply kv_of_snoc | exact R'].
Qed.

Lemma unacked_step (A : assumptions) e w hist k v o err e' w' w2 :
  running e w hist → write_fits e k v →
  (lsn ← fetch_add_lsn;
   _ ← append crc32_hash parquet_head parquet_batch parquet_footer cfg (mk_record k lsn o v);
   mret lsn) (e, w) = (Err err, (e', w')) → wcrash (COL := COL) w' w2 →
  ∃ m', spec_step (kv_of hist) (Unacked (mk_record k (en_next_lsn e) o v)) m' ∧
    represents (Down w2) m'.
Proof.
  intros R F Hrun Hc. destruct (append_running A _ _ _ _ _ _ _ _ R F Hrun) as (_ & Hd & _).
  destruct (Hd w2 Hc) as [D|D].
  - eexists. split; [apply spec_unacked_lost |]. by exists hist.
  - eexists. split; [apply spec_unacked_kept |]. eexists. split; [symmetry; apply kv_of_snoc |].
    exact D.
Qed.

Lemma flush_kept (A : assumptions) e w hist crash r st' :
  live e w hist → flush_inner crash (e, w) = (r, st') →
  kept crc32_hash cfg (en_next_lsn e) hist st' ∧
  (crash = None → ∀ x, r = Ok x → live st'.1 st'.2 hist).
Proof.
  intros Hl Hrun. destruct A as [A1 A2 A3 A4 A5].
  pose proof (flush_inner_live crc32_hash _ _ _ A3 cfg A5 (quiet (COL := COL) w)
    (en_next_lsn e) crash hist (e, w) r st' (conj Hl (conj (λ q, q) eq_refl)) Hrun) as Hf.
  destruct r as [x|err]; [| by destruct Hf]. destruct Hf as (Hk & _ & Hlive).
  split; [done |]. intros Hc x' _. by apply drained_live, Hlive.
Qed.

(** Every step of the system is a step of the map. *)
Lemma step_simulates (A : assumptions) s ev s' m :
  step s ev s' → represents s m → ∃ m', spec_step m ev m' ∧ represents s' m'.
Proof.
  intros Hs (hist & -> & R). destruct Hs;
    lazymatch goal with
    | H : put _ _ _ = (Ok _, _) |- _ => by eapply acked_step
    | H : delete _ _ = (Ok _, _) |- _ => by eapply acked_step
    | H : put _ _ _ = (Err _, _) |- _ => by eapply unacked_step
    | H : delete _ _ = (Err _, _) |- _ => by eapply unacked_step
    | H : get _ _ = _ |- _ =>
      destruct R as [Hl Hn];
      destruct (get_live _ _ _ _ _ _ _ _ Hl H) as (He & Hl' & Hv & _);
      simpl in He; subst
    | H : flush_inner _ _ = _ |- _ =>
      destruct R as [Hl Hn];
      pose proof (flush_kept A _ _ _ _ _ _ Hl H) as [Hk Hlive]
    | |- _ => idtac
    end.
  - rewrite (Hv v eq_refl). eexists. split; [constructor |]. by exists hist.
  - eexists. split; [constructor |]. by exists hist.
  - eexists. split; [constructor |]. exists hist.
    split; [done |]. split; [by eapply Hlive |]. destruct Hk as [_ Hk]. simpl in Hk.
    by rewrite Hk.
  - eexists. split; [constructor |]. exists hist. split; [done |].
    by eapply (kept_crash crc32_hash cfg _ _ (e', w')).
  - eexists. split; [constructor |]. exists hist. split; [done |].
    destruct R as [(logs & s & rs & files & frs & act & S & _) _]. by eapply stored_crash.
  - eexists. split; [constructor |]. exists hist. split; [done |].
    destruct (open_faulty _ (as_crc A) _ (as_dir A) _ (as_frozen A) _ _ _ _ R H) as [_ Ho].
    destruct (Ho _ eq_refl) as (e1 & [= <-] & Hl & Hn). by split.
  - eexists. split; [constructor |]. exists hist. split; [done |].
    destruct (open_faulty _ (as_crc A) _ (as_dir A) _ (as_frozen A) _ _ _ _ R H) as [D _].
    by eapply durable_crash.
Qed.

Lemma run_refines (A : assumptions) w hist evs s :
  durable w hist → run (Down w) evs s →
  ∃ m, spec_run (kv_of hist) evs m ∧ represents s m.
Proof.
  intros D Hrun.
  assert (represents (Down w) (kv_of hist)) as R by (by exists hist).
  clear D. revert R. generalize (kv_of hist).
  induction Hrun as [s|s1 ev s2 evs s3 Hstep Hrun IH]; intros m R.
  - exists m. split; [constructor | done].
  - destruct (step_simulates A _ _ _ _ Hstep R) as (m2 & H1 & R2).
    destruct (IH m2 R2) as (m3 & H2 & R3). exists m3. split; [by econstructor | done].
Qed.

(** C1: the engine refines a map. Take any run, from any durable state, of writes,
    reads, flushes, failures of any call, crashes in any window of the flush or
    between calls, and recoveries that may themselves fail or die, one client at a
    time, a failed write or flush followed by a restart: what the client sees is what a
    plain map does when every acknowledged write is applied, in order, and each
    unacknowledged one is applied or not. *)
Theorem engine_refines_map (A : assumptions) w hist evs s :
  durable w hist → run (Down w) evs s →
  ∃ m, spec_run (kv_of hist) evs m ∧ represents s m.
Proof. by apply run_refines. Qed.
(** * Liveness *)

(** What a client asks for. *)
Inductive command : Type :=
| Ask_put (k v : bytes)
| Ask_delete (k : bytes)
| Ask_get (k : bytes)
| Ask_flush.

(** The event is the command, done. *)
Inductive answered : command → event → Prop :=
| answered_put k v n : answered (Ask_put k v) (Acked (RecordModel.put k n v))
| answered_delete k n : answered (Ask_delete k) (Acked (RecordModel.delete k n))
| answered_get k v : answered (Ask_get k) (Read k v)
| answered_flush : answered Ask_flush Silent.

Definition command_fits (c : command) : Prop :=
  match c with
  | Ask_put k v => 17 + zlen k + zlen v < 2 ^ 32
  | Ask_delete k => 17 + zlen k + zlen (@nil byte) < 2 ^ 32
  | Ask_get _ | Ask_flush => True
  end.

Lemma write_served (A : assumptions) e w hist k v o :
  running e w hist → quiet (COL := COL) w → 17 + zlen k + zlen v < 2 ^ 32 →
  max_lsn_of hist + 1 < 2 ^ 63 →
  ∃ e' w', (lsn ← fetch_add_lsn;
     _ ← append crc32_hash parquet_head parquet_batch parquet_footer cfg (mk_record k lsn o v);
     mret lsn) (e, w) = (Ok (en_next_lsn e), (e', w')) ∧
    running e' w' (hist ++ [mk_record k (en_next_lsn e) o v]) ∧ quiet (COL := COL) w'.
Proof.
  intros R Q F Hb.
  assert (write_fits e k v) as WF by (split; [exact F | rewrite (proj2 R); exact Hb]).
  destruct ((lsn ← fetch_add_lsn;
     _ ← append crc32_hash parquet_head parquet_batch parquet_footer cfg (mk_record k lsn o v);
     mret lsn) (e, w)) as [r [e' w']] eqn:E.
  destruct (append_running A _ _ _ _ _ _ _ _ R WF E) as (Hok & _ & Hq).
  destruct (Hq Q) as [Hr Q']. destruct r as [n|]; [| done].
  destruct (Hok n eq_refl) as [-> R']. by exists e', w'.
Qed.

Lemma serve_one (A : assumptions) e w hist c :
  running e w hist → quiet (COL := COL) w → command_fits c → max_lsn_of hist + 1 < 2 ^ 63 →
  ∃ ev e' w' hist', step (Up e w) ev (Up e' w') ∧ answered c ev ∧ running e' w' hist' ∧
    quiet (COL := COL) w' ∧ max_lsn_of hist' ≤ max_lsn_of hist + 1.
Proof.
  intros R Q F Hb. pose proof R as [Hl Hn]. destruct c as [k v|k|k|].
  - destruct (write_served A e w hist k v Put R Q F Hb) as (e' & w' & E & R' & Q').
    eexists _, e', w', _. split_and!; [by eapply step_put; [split; [exact F | lia] |] | constructor | done | done |].
    rewrite max_lsn_of_app. simpl. pose proof (max_lsn_of_nonneg hist). lia.
  - destruct (write_served A e w hist k [] Delete R Q F Hb) as (e' & w' & E & R' & Q').
    eexists _, e', w', _. split_and!; [by eapply step_delete; [split; [exact F | lia] |] | constructor | done | done |].
    rewrite max_lsn_of_app. simpl. pose proof (max_lsn_of_nonneg hist). lia.
  - destruct (get k (e, w)) as [r [e' w']] eqn:E.
    destruct (get_live _ _ _ _ _ _ _ _ Hl E) as (He & Hl' & _ & Hq). simpl in He. subst e'.
    destruct (Hq Q) as [Hr Q']. destruct r as [v|]; [| done].
    exists (Read k v), e, w', hist. split_and!; [by apply step_get | constructor | done | done | lia].
  - destruct (flush_inner None (e, w)) as [r [e' w']] eqn:E. destruct A as [A1 A2 A3 A4 A5].
    pose proof (flush_inner_live crc32_hash _ _ _ A3 cfg A5 (quiet (COL := COL) w)
      (en_next_lsn e) None hist (e, w) r _ (conj Hl (conj (λ q, q) eq_refl)) E) as Hf.
    destruct r as [x|err]; [| by destruct Hf as [_ []]]. destruct Hf as ([_ Hk] & Hq & Hd).
    exists Silent, e', w', hist. split_and!; [by eapply step_flush | constructor | | by apply Hq | lia].
    split; [by apply drained_live, Hd | exact (eq_trans Hk Hn)].
Qed.

(** C10: the service is available. From any durable state, while no call fails, the
    engine recovers and then answers any list of commands, one after the other, every
    write acknowledged, every flush done and every read answered: no lock-up, no stall
    and no error, as long as LSNs stay below 2^63. *)
Theorem always_serves (A : assumptions) w hist cmds :
  durable w hist → quiet (COL := COL) w → Forall command_fits cmds →
  max_lsn_of hist + zlen cmds < 2 ^ 63 →
  ∃ evs e w', run (Down w) (Silent :: evs) (Up e w') ∧ Forall2 answered cmds evs.
Proof.
  intros D Q F Hb.
  destruct (open_recovers _ (as_crc A) _ (as_dir A) _ (as_frozen A) _ _ D Q)
    as (e & w1 & E & Hl & Hn & Q1).
  assert (∃ evs e' w', run (Up e w1) evs (Up e' w') ∧ Forall2 answered cmds evs) as (evs & e' & w' & H1 & H2).
  { assert (running e w1 hist) as R by done. clear D Q E Hl Hn. revert e w1 hist R Q1 Hb.
    induction F as [|c cmds Fc F IH]; intros e w1 hist R Q1 Hb.
    { exists [], e, w1. split; constructor. }
    rewrite zlen_cons in Hb. pose proof (zlen_nonneg cmds).
    destruct (serve_one A e w1 hist c R Q1 Fc) as (ev & e2 & w2 & h2 & Hs & Ha & R2 & Q2 & Hm); [lia |].
    destruct (IH e2 w2 h2 R2 Q2) as (evs & e' & w' & Hr & Hf); [lia |].
    exists (ev :: evs), e', w'. split; [by econstructor | by constructor]. }
  exists evs, e', w'. split; [| done]. eapply run_more; [by eapply step_open | exact H1].
Qed.
End properties.

(** * Examples *)

Abbreviation MT := (gmap bytes Entry).

Definition ex_cfg : Config :=
  mk_config "wal" 1024 1000 2
    (mk_s3 "http://localhost:9000" "warehouse" "admin" "password" "us-east-1")
    (mk_catalog_config "host=127.0.0.1 dbname=holy_grail" "main" "kv" "s3://warehouse/hg/")
    (mk_duckdb "duckdb" 8192 true) profile_none 4096.

Abbreviation ex_open := (open (T := MT) (L := lake) crc32_ieee read_dir_keys ex_cfg).
Abbreviation ex_put := (put (T := MT) (L := lake) crc32_ieee head_bytes batch_bytes footer_bytes ex_cfg).
Abbreviation ex_delete :=
  (delete (T := MT) (L := lake) crc32_ieee head_bytes batch_bytes footer_bytes ex_cfg).
Abbreviation ex_append :=
  (append (T := MT) (L := lake) crc32_ieee head_bytes batch_bytes footer_bytes ex_cfg).
Abbreviation ex_flush :=
  (flush_inner (T := MT) (L := lake) head_bytes batch_bytes footer_bytes ex_cfg).

Lemma ex_assumptions :
  assumptions (read_parquet := read_rows) crc32_ieee read_dir_keys head_bytes batch_bytes
    footer_bytes ex_cfg.
Proof.
  split; [apply crc32_ieee_u32 | apply read_dir_keys_perm | | done | done].
  intros bs _. apply read_rows_staged.
Qed.

(** An empty directory and an empty lake that meets these failures. *)
Definition world0 (faults : list lake_fault) : world (L := lake) :=
  mk_world (mk_fs ∅ []) (mk_fs ∅ []) (mk_lake [] faults).

Lemma world0_durable faults : durable crc32_ieee (world0 faults) [].
Proof.
  exists [], [], [], []. split_and!; [apply disk_segs_empty | done | apply tiers_empty | constructor | done].
Qed.

Lemma world0_quiet : quiet (world0 []).
Proof. done. Qed.

Definition blank : engine (T := MT) (I := list (list row)) :=
  mk_engine [] set0 (mk_wal 0 (mk_bufwriter empty_str []) (mk_segment empty_str 0 0) 0 [] []) 0.
Definition opened : result (option engine) * world := ex_open (world0 []).
Definition e0 : engine := match opened.1 with Ok (Some e) => e | _ => blank end.
Definition w0 : world := opened.2.

Lemma up0 : running crc32_ieee ex_cfg e0 w0 [].
Proof.
  destruct (open_recovers (T := MT) _ crc32_ieee_u32 _ read_dir_keys_perm ex_cfg
    (as_frozen _ _ _ _ _ _ ex_assumptions) _ _ (world0_durable []) world0_quiet)
    as (e & w' & E & Hl & Hn & _).
  unfold e0, w0, opened. rewrite E. split; [exact Hl | exact Hn].
Qed.

Lemma e0_fits k v : zlen k + zlen v ≤ 100 → write_fits e0 k v.
Proof.
  intros Hz. assert (en_next_lsn e0 = 1) as E by (vm_compute; reflexivity).
  unfold write_fits. rewrite E. lia.
Qed.
Lemma e0_fits_k1 : write_fits e0 k1 v1 ∧ write_fits e0 k1 [].
Proof. split; apply e0_fits; unfold zlen; simpl; lia. Qed.

Lemma open_restores_witness :
  ∃ e w', ex_open (world0 []) = (Ok (Some e), w') ∧
    ∃ w2, get k1 (e, w') = (Ok None, (e, w2)).
Proof.
  destruct (open_restores crc32_ieee read_dir_keys head_bytes batch_bytes footer_bytes ex_cfg
    ex_assumptions (world0 []) [] (world0_durable []) world0_quiet) as (e & w' & E & _ & Hg).
  exists e, w'. split; [exact E |]. exact (Hg k1).
Defined.

Definition put_run : result Lsn * (engine * world) := ex_put k1 v1 (e0, w0).

Lemma put_durable_witness :
  is_ok put_run.1 = true ∧
  ∀ w2, wcrash put_run.2.2 w2 →
    durable crc32_ieee w2 [] ∨ durable crc32_ieee w2 [RecordModel.put k1 (en_next_lsn e0) v1].
Proof.
  pose proof (put_durable crc32_ieee read_dir_keys head_bytes batch_bytes footer_bytes ex_cfg
    ex_assumptions e0 w0 [] k1 v1 put_run.1 put_run.2 up0 (proj1 e0_fits_k1)
    (surjective_pairing _)) as (_ & Hc & Hq).
  split; [| exact Hc]. apply Hq. split_and!; vm_compute; reflexivity.
Defined.

Definition delete_run : result Lsn * (engine * world) := ex_delete k1 (e0, w0).

Lemma delete_durable_witness :
  is_ok delete_run.1 = true ∧
  ∀ w2, wcrash delete_run.2.2 w2 →
    durable crc32_ieee w2 [] ∨ durable crc32_ieee w2 [RecordModel.delete k1 (en_next_lsn e0)].
Proof.
  pose proof (delete_durable crc32_ieee read_dir_keys head_bytes batch_bytes footer_bytes ex_cfg
    ex_assumptions e0 w0 [] k1 delete_run.1 delete_run.2 up0 (proj2 e0_fits_k1)
    (surjective_pairing _)) as (_ & Hc & Hq).
  split; [| exact Hc]. apply Hq. split_and!; vm_compute; reflexivity.
Defined.

(** An engine with one record in its memtable. *)
Lemma up1 : running crc32_ieee ex_cfg put_run.2.1 put_run.2.2 [RecordModel.put k1 1 v1].
Proof.
  pose proof (append_running crc32_ieee read_dir_keys head_bytes batch_bytes footer_bytes ex_cfg
    ex_assumptions e0 w0 [] k1 v1 Put put_run.1 put_run.2 up0 (proj1 e0_fits_k1)
    (surjective_pairing _)) as (Hok & _).
  assert (put_run.1 = Ok 1) as E by (vm_compute; reflexivity).
  destruct (Hok 1 E) as [<- R]. exact R.
Qed.

Definition get_run : result (option bytes) * (engine * world) := get k1 put_run.2.

Lemma get_run_eta : get k1 (put_run.2.1, put_run.2.2) = (get_run.1, get_run.2).
Proof. unfold get_run. rewrite <- (surjective_pairing put_run.2). apply surjective_pairing. Qed.

Lemma get_latest_witness : get_run.1 = Ok (Some v1) ∧ get_run.2.1 = put_run.2.1.
Proof.
  pose proof (get_latest crc32_ieee ex_cfg put_run.2.1 put_run.2.2 [RecordModel.put k1 1 v1] k1
    get_run.1 get_run.2 up1 get_run_eta) as (He & _ & Hv).
  split; [vm_compute; reflexivity | exact He].
Defined.

Definition flush_run : result Flushed * (engine * world) := ex_flush (Some AfterCommit) put_run.2.

Lemma flush_run_eta :
  ex_flush (Some AfterCommit) (put_run.2.1, put_run.2.2) = (flush_run.1, flush_run.2).
Proof. unfold flush_run. rewrite <- (surjective_pairing put_run.2). apply surjective_pairing. Qed.

Lemma flush_crash_safe_witness :
  flush_run.1 = Ok (Flushed_Committed 1 1) ∧
  durable crc32_ieee flush_run.2.2 [RecordModel.put k1 1 v1].
Proof.
  pose proof (flush_crash_safe crc32_ieee read_dir_keys head_bytes batch_bytes footer_bytes ex_cfg
    ex_assumptions put_run.2.1 put_run.2.2 [RecordModel.put k1 1 v1] (Some AfterCommit)
    flush_run.1 flush_run.2 up1 flush_run_eta) as (Hc & _).
  split; [vm_compute; reflexivity |]. apply Hc. split; [| done].
  assert (crash_at (λ _, 0%nat) (w_wal flush_run.2.2) = w_wal flush_run.2.2) as E
    by (vm_compute; reflexivity).
  rewrite <- E at 2. apply crash_at_crash.
Defined.

Lemma opened_eta : ex_open (world0 []) = (Ok (Some e0), w0).
Proof.
  assert (match opened.1 with Ok (Some _) => true | _ => false end = true) as H
    by (vm_compute; reflexivity).
  unfold e0, w0. change (ex_open (world0 [])) with opened.
  destruct opened as [[[e|]|err] w]; [reflexivity | discriminate H | discriminate H].
Qed.

Lemma put_run_eta : ex_put k1 v1 (e0, w0) = (Ok 1, (put_run.2.1, put_run.2.2)).
Proof.
  assert (put_run.1 = Ok 1) as <- by (vm_compute; reflexivity).
  rewrite <- (surjective_pairing put_run.2). apply surjective_pairing.
Qed.

Lemma get_run_ok :
  get k1 (put_run.2.1, put_run.2.2) = (Ok (Some v1), (get_run.2.1, get_run.2.2)).
Proof.
  assert (get_run.1 = Ok (Some v1)) as <- by (vm_compute; reflexivity).
  rewrite <- (surjective_pairing get_run.2). apply get_run_eta.
Qed.

(** Recover, write a key, read it back. *)
Lemma engine_refines_map_witness :
  ∃ m, spec_run ∅ [Silent; Acked (RecordModel.put k1 1 v1); Read k1 (Some v1)] m.
Proof.
  destruct (engine_refines_map crc32_ieee read_dir_keys head_bytes batch_bytes footer_bytes ex_cfg
    ex_assumptions (world0 []) [] [Silent; Acked (RecordModel.put k1 1 v1); Read k1 (Some v1)]
    (Up get_run.2.1 get_run.2.2) (world0_durable [])) as (m & Hm & _).
  - apply (run_more _ _ _ _ _ _ _ _ (Up e0 w0));
      [apply step_open; exact opened_eta |].
    apply (run_more _ _ _ _ _ _ _ _ (Up put_run.2.1 put_run.2.2));
      [apply step_put; [exact (proj1 e0_fits_k1) | exact put_run_eta] |].
    apply (run_more _ _ _ _ _ _ _ _ (Up get_run.2.1 get_run.2.2));
      [apply step_get; exact get_run_ok | apply run_done].
  - exists m. exact Hm.
Defined.

(** * What the engine does not promise *)

(** A crash and restart of the model's world: nothing is pending, so nothing is
    lost, and the failures are over. *)
Definition restarted (w : world (L := lake)) : world (L := lake) :=
  mk_world (crash_at (λ _, 0%nat) (w_wal w)) (mk_fs ∅ []) (mk_lake (lk_files (w_lake w)) []).

Definition reopen_get (k : bytes) (w : world (L := lake)) : result (option bytes) :=
  match ex_open (restarted w) with
  | (Ok (Some e), w') => (get k (e, w')).1
  | _ => Err lake_error
  end.

(** C22: an acknowledged write can be lost after a flush that failed. The first
    flush cannot reach the catalog and returns an error; its memtable stays frozen
    and nothing retries it. The next flush publishes only its own memtable, under a
    watermark above both. Reads still find the first write, in memory; after a
    restart it is gone, because replay starts above the watermark. *)
Theorem failed_flush_loses_acked :
  let '(_, w) := ex_open (world0 [Serves; Serves; Serves; Refuses]) in
  let '(r1, st) := ex_put k1 v1 (e0, w) in
  let '(r2, st) := ex_flush None st in
  let '(r3, st) := ex_put k2 v2 st in
  let '(r4, st) := ex_flush None st in
  let '(r5, st) := get k1 st in
  r1 = Ok 1 ∧ is_ok r2 = false ∧ r3 = Ok 2 ∧ r4 = Ok (Flushed_Committed 2 1) ∧
  r5 = Ok (Some v1) ∧
  reopen_get k1 st.2 = Ok None ∧ reopen_get k2 st.2 = Ok (Some v2).
Proof. vm_compute. repeat split. Qed.

(** C23: a write that is slower than a flush can be lost. A writer takes LSN 1 and
    is held up before the log's lock; another writes LSN 2 and a flush publishes
    watermark 2. The first writer's append then succeeds and is acknowledged, and
    its value is readable. The next flush takes LSN 1 for already published and
    retires the memtable without writing it: the value is gone, restart or not. *)
Theorem late_write_dropped_by_flush :
  let '(r0, st) := fetch_add_lsn (e0, w0) in
  let '(r1, st) := ex_put k2 v2 st in
  let '(r2, st) := ex_flush None st in
  let '(r3, st) := ex_append (RecordModel.put k1 1 v1) st in
  let '(r4, st) := get k1 st in
  let '(r5, st') := ex_flush None st in
  let '(r6, st') := get k1 st' in
  r0 = Ok 1 ∧ r1 = Ok 2 ∧ r2 = Ok (Flushed_Committed 2 1) ∧ r3 = Ok tt ∧ r4 = Ok (Some v1) ∧
  r5 = Ok (Flushed_AlreadyPublished 1) ∧ r6 = Ok None ∧ reopen_get k1 st.2 = Ok None.
Proof. vm_compute. repeat split. Qed.

(** Ten writes, a flush and a read of an empty store. *)
Lemma always_serves_witness :
  let cmds := repeat (Ask_put k1 v1) 10 ++ [Ask_flush; Ask_get k1] in
  ∃ evs e w', run (T := MT) crc32_ieee read_dir_keys head_bytes batch_bytes footer_bytes ex_cfg
    (Down (world0 [])) (Silent :: evs) (Up e w') ∧ Forall2 answered cmds evs.
Proof.
  apply (always_serves (T := MT) crc32_ieee read_dir_keys head_bytes batch_bytes footer_bytes ex_cfg
    ex_assumptions (world0 []) [] (repeat (Ask_put k1 v1) 10 ++ [Ask_flush; Ask_get k1])
    (world0_durable []) world0_quiet); [| reflexivity].
  repeat (constructor; [first [exact I | vm_compute; reflexivity] |]). constructor.
Defined.
