(* ===== verification/Concurrent.v ===== *)
(** Concurrent clients ([src/src/engine.rs]: [put], [delete], [append], [get], [flush]).
    A write is three atomic steps: it takes its LSN from the counter, it appends to the
    log under the log's lock, and it goes into the memtable, which acknowledges it. A flush
    is nine: freeze, plan, stage, publish, load the index, swap it, truncate the log, retire
    the memtable, remove the staging file; any of them may fail and end it. Steps of
    different writers, of a flush and of reads interleave in any order: records reach the
    log and the memtable out of LSN order, while the memtable they would have gone into is
    frozen, published and retired, and reads use an index older than the lake. A read is made
    at one moment or scans the files of an index it took earlier; [ConcurrentReads.v] puts
    the moments of one read together.

    Three things are left out of a run, each because the code goes wrong there. A flush
    freezes only when no write is on its way, or a slow write may be lost
    ([late_write_dropped_by_flush] in [EngineProps.v]). One flush runs at a time, and none
    after one that failed ([concurrent_flushes_lose_acked] below, and
    [failed_flush_loses_acked] in [EngineProps.v]). And a writer starts a new segment only
    when all lower numbers are in the log, or a later segment may take the name of one that
    is in use ([late_rotation_reuses_segment] below). *)

From S2P Require Import Latency.
From S2P Require Import Prelude RecordModel Fs Instances Wal WalLemmas Memtable MemtableProps.
From S2P Require Import Flush FlushProps Columnar Engine EngineLemmas LakeModel EngineProps.

(** * Writers *)

(** How far a write has come. *)
Inductive stage : Type := Numbered | Logged | Visible.

#[export] Instance stage_eq_dec : EqDecision stage.
Proof. solve_decision. Defined.

(** The writes so far, in the order of their numbers. *)
Abbreviation writes := (list (record * stage)).

Definition logged (ws : writes) : list record := (base.filter (λ x, x.2 ≠ Numbered) ws).*1.
Definition visible (ws : writes) : list record := (base.filter (λ x, x.2 = Visible) ws).*1.

Lemma logged_app ws1 ws2 : logged (ws1 ++ ws2) = logged ws1 ++ logged ws2.
Proof. unfold logged. by rewrite filter_app, fmap_app. Qed.
Lemma visible_app ws1 ws2 : visible (ws1 ++ ws2) = visible ws1 ++ visible ws2.
Proof. unfold visible. by rewrite filter_app, fmap_app. Qed.
Lemma logged_cons r st ws : logged ((r, st) :: ws) = if decide (st = Numbered) then logged ws else r :: logged ws.
Proof. unfold logged. rewrite filter_cons. simpl. by do 2 case_decide. Qed.
Lemma visible_cons r st ws : visible ((r, st) :: ws) = if decide (st = Visible) then r :: visible ws else visible ws.
Proof. unfold visible. rewrite filter_cons. simpl. by case_decide. Qed.

(** One write in the middle. *)
Lemma logged_mid_numbered ws1 rec ws2 : logged (ws1 ++ (rec, Numbered) :: ws2) = logged ws1 ++ logged ws2.
Proof. by rewrite logged_app, logged_cons. Qed.
Lemma logged_mid_logged ws1 rec ws2 : logged (ws1 ++ (rec, Logged) :: ws2) = logged ws1 ++ rec :: logged ws2.
Proof. by rewrite logged_app, logged_cons. Qed.
Lemma logged_mid_visible ws1 rec ws2 : logged (ws1 ++ (rec, Visible) :: ws2) = logged ws1 ++ rec :: logged ws2.
Proof. by rewrite logged_app, logged_cons. Qed.
Lemma visible_mid_numbered ws1 rec ws2 : visible (ws1 ++ (rec, Numbered) :: ws2) = visible ws1 ++ visible ws2.
Proof. by rewrite visible_app, visible_cons. Qed.
Lemma visible_mid_logged ws1 rec ws2 : visible (ws1 ++ (rec, Logged) :: ws2) = visible ws1 ++ visible ws2.
Proof. by rewrite visible_app, visible_cons. Qed.
Lemma visible_mid_visible ws1 rec ws2 : visible (ws1 ++ (rec, Visible) :: ws2) = visible ws1 ++ rec :: visible ws2.
Proof. by rewrite visible_app, visible_cons. Qed.
Create Rewrite HintDb hg_writes.
#[export] Hint Rewrite logged_mid_numbered logged_mid_logged logged_mid_visible
  visible_mid_numbered visible_mid_logged visible_mid_visible : hg_writes.

Lemma logged_sublist ws : sublist (logged ws) ws.*1.
Proof.
  induction ws as [|[r st] ws IH]; [done |]. rewrite logged_cons, fmap_cons.
  case_decide; [by apply sublist_cons | by apply sublist_skip].
Qed.
Lemma visible_sublist ws : sublist (visible ws) (logged ws).
Proof.
  induction ws as [|[r st] ws IH]; [done |]. rewrite logged_cons, visible_cons.
  destruct st; repeat case_decide; try done; [by apply sublist_cons | by apply sublist_skip].
Qed.

(** ** Flushes *)

(** How far the flush has come, if there is one: the next step is after this one. *)
Inductive flush_at {T I : Type} : Type :=
| NoFlush
| Frozen (a : arc T)
| Planned (a : arc T) (wm : Lsn)
| Staged (a : arc T) (wm : Lsn)
| Published (a : arc T) (wm : Lsn)
| Loaded (a : arc T) (wm : Lsn) (i : I)
| Indexed (a : arc T) (wm : Lsn)
| Truncated (a : arc T) (wm : Lsn)
| Retired (wm : Lsn)
| Broken.
Arguments flush_at : clear implicits.

Section concurrent.
Context {T : Type} {SM : SkipMap T} {SML : SkipMapLaws T}.
Context {L I : Type} {CO : Columnar L I} {read_parquet : bytes → option (list row)}.
Context {COL : ColumnarLaws L I read_parquet}.
Context (crc32_hash : bytes → Z) (read_dir : gmap string file → list string).
Context (parquet_head : list Field → bytes) (parquet_batch : RecordBatch → bytes).
Context (parquet_footer : list RecordBatch → bytes).
Context (cfg : Config).

Abbreviation engine := (engine (T := T) (I := I)).
Abbreviation world := (world (L := L)).
Abbreviation flush_at := (flush_at T I).
Abbreviation running := (running (T := T) (COL := COL) crc32_hash cfg).
Abbreviation stored := (stored (COL := COL) crc32_hash cfg).
Abbreviation durable := (durable (COL := COL) crc32_hash).
Abbreviation quiet := (quiet (COL := COL)).
Abbreviation append := (append (T := T) crc32_hash parquet_head parquet_batch parquet_footer cfg).
Abbreviation flush_inner := (flush_inner (T := T) (L := L) (I := I) parquet_head parquet_batch parquet_footer cfg).
Abbreviation assumptions := (assumptions (read_parquet := read_parquet) crc32_hash read_dir
  parquet_head parquet_batch parquet_footer cfg).

(** * The steps *)

(** The first half of [append], under the log's lock. *)
Definition log_record (rec : record) : M (engine * world) unit := on_wal (Wal.append crc32_hash [rec]).
(** The second half. *)
Definition show_record (rec : record) : M (engine * world) unit :=
  Engine.upd (λ e, set_en_memtables (ms_insert rec (en_memtables e)) e).

(** The rest of [get], once the memtables had no opinion: a read of the files of an index. *)
Definition read_files (k : bytes) (index : I) : M (engine * world) (option bytes) :=
  l ← on_lake (co_get index k);
  mret (match l with Found v => Some v | Deleted | Missing => None end).

(** One step of [flush_inner], without its crash points. *)
Definition flush_step (p : flush_at) : M (engine * world) flush_at :=
  match p with
  | NoFlush =>
    frozen ← on_memtables ms_freeze;
    mret (match frozen with None => NoFlush | Some a => Frozen a end)
  | Frozen a =>
    published ← on_lake co_published_watermark;
    match plan published (arc_mt a) with
    | Plan_Empty => _ ← retire a; mret NoFlush
    | Plan_AlreadyPublished wm => _ ← truncate_wal wm; _ ← retire a; mret NoFlush
    | Plan_Write wm => mret (Planned a wm)
    end
  | Planned a wm =>
    _ ← on_staging (Flush.stage parquet_head parquet_batch parquet_footer (arc_mt a)
          (staging_path (staging_dir cfg) wm));
    mret (Staged a wm)
  | Staged a wm => _ ← publish (staging_path (staging_dir cfg) wm); mret (Published a wm)
  | Published a wm => i ← on_lake co_load; mret (Loaded a wm i)
  | Loaded a wm i => _ ← Engine.upd (set_en_index i); mret (Indexed a wm)
  | Indexed a wm => _ ← truncate_wal wm; mret (Truncated a wm)
  | Truncated a wm => _ ← retire a; mret (Retired wm)
  | Retired wm =>
    _ ← action (λ s,
      match on_staging (remove_file (staging_path (staging_dir cfg) wm)) s with (_, s') => (Ok tt, s') end);
    mret NoFlush
  | Broken => mret Broken
  end.

Record state : Type := mk_state {
  c_engine : engine; c_world : world; c_writes : writes; c_flush : flush_at;
}.

(** The writer may put its record into the log now: there is room in the segment, or it
    starts a new one in its turn. *)
Definition in_turn (e : engine) (ws1 : writes) (rec : record) : Prop :=
  wal_active_bytes (en_wal e) < wal_segment_max_bytes (en_wal e) ∨
  Forall (λ x, x.2 ≠ Numbered) ws1 ∧ seg_start_lsn (wal_active (en_wal e)) < lsn rec.

Inductive cstep : state → state → Prop :=
| step_number k v o e w ws p n e' w' :
  17 + zlen k + zlen v < 2 ^ 32 → en_next_lsn e < 2 ^ 63 →
  fetch_add_lsn (e, w) = (Ok n, (e', w')) →
  cstep (mk_state e w ws p) (mk_state e' w' (ws ++ [(mk_record k n o v, Numbered)]) p)
| step_log e w ws1 rec ws2 p e' w' :
  in_turn e ws1 rec → log_record rec (e, w) = (Ok tt, (e', w')) →
  cstep (mk_state e w (ws1 ++ (rec, Numbered) :: ws2) p) (mk_state e' w' (ws1 ++ (rec, Logged) :: ws2) p)
| step_show e w ws1 rec ws2 p e' w' :
  show_record rec (e, w) = (Ok tt, (e', w')) →
  cstep (mk_state e w (ws1 ++ (rec, Logged) :: ws2) p) (mk_state e' w' (ws1 ++ (rec, Visible) :: ws2) p)
| step_read k r e w ws p e' w' :
  get k (e, w) = (r, (e', w')) → cstep (mk_state e w ws p) (mk_state e' w' ws p)
| step_scan k i fs r e w ws p e' w' :
  (* an index that some reader holds: it is true of files of the lake ([held_index]) *)
  co_index (w_lake w) i fs →
  read_files k i (e, w) = (r, (e', w')) → cstep (mk_state e w ws p) (mk_state e' w' ws p)
| step_flush e w ws p r e' w' :
  (p = NoFlush → Forall (λ x, x.2 = Visible) ws) → flush_step p (e, w) = (r, (e', w')) →
  cstep (mk_state e w ws p) (mk_state e' w' ws (match r with Ok p' => p' | Err _ => Broken end)).

(** A read of the engine, by itself, is a look at the memtables and then a scan. *)
Lemma get_is_steps k e w :
  get k (e, w) =
    match ms_get k (en_memtables e) with
    | Found v => (Ok (Some v), (e, w))
    | Deleted => (Ok None, (e, w))
    | Missing => read_files k (en_index e) (e, w)
    end.
Proof.
  unfold get. rewrite (bind_ok _ _ (e, w) e (e, w)) by done.
  by destruct (ms_get k (en_memtables e)).
Qed.

(** A write of the engine, by itself, is these steps in a row. *)
Lemma append_is_steps rec e w r st' :
  append rec (e, w) = (r, st') →
  match log_record rec (e, w) with
  | (Err err, st1) => r = Err err ∧ st' = st1
  | (Ok _, st1) =>
    match show_record rec st1 with
    | (_, st2) => ms_should_freeze (en_memtables st2.1) = false → r = Ok tt ∧ st' = st2
    end
  end.
Proof.
  unfold Engine.append. intros Hrun. fold (log_record rec) in Hrun.
  apply bind_inv in Hrun as [([] & st1 & E1 & Hrun)|(err & E1 & ->)]; rewrite E1; [| done].
  destruct st1 as [e1 w1]. intros Hf.
  set (e2 := set_en_memtables (ms_insert rec (en_memtables e1)) e1).
  rewrite (bind_ok _ _ _ tt (e2, w1)) in Hrun by done.
  rewrite (bind_ok _ _ _ e2 (e2, w1)) in Hrun by done.
  change (ms_should_freeze (en_memtables e2) = false) in Hf. rewrite Hf in Hrun. by injection Hrun as <- <-.
Qed.

(** And so is a flush, until it is done or fails. *)
Fixpoint flush_steps (n : nat) (p : flush_at) : M (engine * world) flush_at :=
  match n with
  | O => mret p
  | S n => p ← flush_step p; match p with NoFlush => mret NoFlush | _ => flush_steps n p end
  end.

Lemma flush_steps_S n p st :
  flush_steps (S n) p st =
    (p ← flush_step p; match p with NoFlush => mret NoFlush | _ => flush_steps n p end) st.
Proof. done. Qed.

Ltac next_step := rewrite flush_steps_S; unfold flush_step; unfold mbind, m_bind, mret, m_ret.

Lemma flush_is_steps st r st' :
  flush_inner None st = (r, st') →
  flush_steps 9 NoFlush st = (match r with Ok _ => Ok NoFlush | Err e => Err e end, st').
Proof.
  unfold Engine.flush_inner, flush_frozen, flush_write.
  unfold mbind, m_bind, mret, m_ret. next_step.
  destruct (on_memtables ms_freeze st) as [[[a|]|e] s1]; [| by intros [= <- <-]..].
  rewrite !decide_False by done. next_step.
  destruct (on_lake co_published_watermark s1) as [[pub|e] s2]; [| by intros [= <- <-]].
  destruct (plan pub (arc_mt a)) as [wm|wm|]; cycle 1.
  { destruct (truncate_wal wm s2) as [[[]|e] s3]; [| by intros [= <- <-]].
    destruct (retire a s3) as [[[]|e] s4]; by intros [= <- <-]. }
  { destruct (retire a s2) as [[[]|e] s3]; by intros [= <- <-]. }
  rewrite !decide_False by done. next_step.
  destruct (on_staging _ s2) as [[[]|e] s3]; [| by intros [= <- <-]]. next_step.
  destruct (publish _ s3) as [[[]|e] s4]; [| by intros [= <- <-]]. next_step.
  unfold publish_index, mbind, m_bind.
  destruct (on_lake co_load s4) as [[i|e] s5]; [| by intros [= <- <-]]. next_step.
  destruct (Engine.upd (set_en_index i) s5) as [[[]|e] s6]; [| by intros [= <- <-]].
  rewrite ?decide_False by done. next_step.
  destruct (truncate_wal wm s6) as [[[]|e] s7]; [| by intros [= <- <-]].
  rewrite ?decide_False by done. next_step.
  destruct (retire a s7) as [[[]|e] s8]; [| by intros [= <- <-]]. next_step.
  destruct (action _ s8) as [[[]|e] s9]; by intros [= <- <-].
Qed.

(** * The invariant *)

(** The memtables hold [fro], frozen, and [pre ++ vis], active; the index is one of these
    files, which hold [ifrs]. *)
Record memory (ms : MemtableSet T) (l : L) (i : I) (fro : list (list record)) (pre vis : list record)
    (ifiles : list (list row)) (ifrs : list (list record)) : Prop := {
  me_holds : ms_holds ms fro (pre ++ vis);
  me_max : ms_max_frozen ms = max_frozen_memtables cfg;
  me_index : co_index l i ifiles;
  me_rows : Forall2 file_holds ifiles ifrs;
}.

(** The staging file of the flush, complete. *)
Definition staged_file (sg : fs) (a : arc T) (wm : Lsn) : Prop :=
  ∃ f, fs_files sg !! staging_path (staging_dir cfg) wm = Some f ∧
    contents f = staged_bytes parquet_head parquet_batch parquet_footer (batches (arc_mt a)).

(** Where the records [act] that are in no file are, and which files the index has, at
    each point of the flush. From the publish to the retirement the flushed records are in
    the frozen memtable and in the newest file both. *)
Definition phase (fz : list (arc T)) (sg : fs) (l : L) (files : list (list row))
    (frs : list (list record)) (act : list record) (p : flush_at)
    (fro : list (list record)) (pre : list record) (ifiles : list (list row))
    (ifrs : list (list record)) : Prop :=
  let unpublished a := fz = [a] ∧ mt_holds (arc_mt a) act ∧ act ≠ [] ∧
    fro = [act] ∧ pre = [] ∧ ifiles = files ∧ ifrs = frs in
  let published a := fz = [a] ∧ act = [] ∧ pre = [] ∧ ∃ frs1 rs1, frs = frs1 ++ [rs1] ∧ fro = [rs1] in
  match p with
  | NoFlush | Retired _ => fro = [] ∧ pre = act ∧ ifiles = files ∧ ifrs = frs
  | Frozen a => unpublished a
  | Planned a wm => wm = max_lsn_of act ∧ unpublished a
  | Staged a wm => staged_file sg a wm ∧ wm = max_lsn_of act ∧ unpublished a
  | Published a wm => wm = files_max files ∧ published a
  | Loaded a wm i => co_index l i files ∧ wm = files_max files ∧ published a
  | Indexed a wm => wm = files_max files ∧ published a ∧ ifiles = files ∧ ifrs = frs
  | Truncated a wm => published a ∧ ifiles = files ∧ ifrs = frs
  | Broken => True
  end.

(** The writes [ws1] were all in when the last flush began, [ws2] are the later ones. *)
Record core (hist0 : list record) (e : engine) (w : world) (ws : writes) (p : flush_at)
    (ws1 ws2 : writes) (logs : list (Lsn * list record)) (s : Lsn) (rs : list record)
    (files : list (list row)) (frs : list (list record)) (act : list record)
    (fro : list (list record)) (base0 pre : list record) (ifiles : list (list row))
    (ifrs : list (list record)) : Prop := {
  co_writes : ws = ws1 ++ ws2;
  co_seen : Forall (λ x, x.2 = Visible) ws1;
  co_base : hist0 ++ ws1.*1 = concat frs ++ act;
  co_split : hist0 ++ ws1.*1 = base0 ++ pre;
  co_stored : stored (en_wal e) w logs s rs files frs (act ++ logged ws2) ((hist0 ++ ws1.*1) ++ logged ws2);
  co_start : s ≤ en_next_lsn e;
  co_starts : Forall (λ x, x.2 = Numbered → s ≤ lsn x.1) ws2;
  co_memory : memory (en_memtables e) (w_lake w) (en_index e) fro pre (visible ws2) ifiles ifrs;
  co_below : ∀ k, first_hit k (reverse fro ++ reverse ifrs) = newest k base0;
  co_phase : phase (ms_frozen (en_memtables e)) (w_staging w) (w_lake w) files frs act p fro pre ifiles ifrs;
}.

(** In full but for [ws1] and [ifrs], which a read in several steps follows: what the next
    index will hold, and what the present one holds. *)
Definition parts (hist0 : list record) (e : engine) (w : world) (ws : writes) (p : flush_at)
    (ws1 : writes) (ifrs : list (list record)) : Prop :=
  ∃ ws2 logs s rs files frs act fro base0 pre ifiles,
    core hist0 e w ws p ws1 ws2 logs s rs files frs act fro base0 pre ifiles ifrs.

(** From the history [hist0], these writes: numbered one after another, the log holds the
    logged ones in their place, a reader sees the visible ones. *)
Record cinv (hist0 : list record) (c : state) (ws1 : writes) (ifrs : list (list record)) : Prop := {
  ci_parts : parts hist0 (c_engine c) (c_world c) (c_writes c) (c_flush c) ws1 ifrs;
  ci_incr : increasing (hist0 ++ (c_writes c).*1);
  ci_consecutive : ∀ i r, (c_writes c).*1 !! i = Some r → lsn r = max_lsn_of hist0 + 1 + Z.of_nat i;
  ci_next : en_next_lsn (c_engine c) = max_lsn_of (hist0 ++ (c_writes c).*1) + 1;
  ci_bound : en_next_lsn (c_engine c) ≤ 2 ^ 63;
  ci_fit : Forall record_fits (c_writes c).*1;
}.

Lemma cinv_start e w hist0 : running e w hist0 → ∃ ws1 ifrs, cinv hist0 (mk_state e w [] NoFlush) ws1 ifrs.
Proof.
  intros [(logs & s & rs & files & frs & act & S & Hms & Hmf & Hi) Hn].
  pose proof (st_tiers _ _ _ _ _ _ _ _ _ _ _ S) as Ti. pose proof (ti_hist _ _ _ _ _ Ti) as Eh.
  pose proof (st_starts _ _ _ _ _ _ _ _ _ _ _ S) as Hst.
  apply Forall_app in Hst as [_ Hst]. apply Forall_inv in Hst as [Hs _]. simpl in Hs.
  pose proof (st_bound _ _ _ _ _ _ _ _ _ _ _ S).
  exists [], frs.
  split; cbn [c_engine c_world c_writes c_flush]; rewrite ?app_nil_r; try done; try lia; [| apply Ti].
  exists [], logs, s, rs, files, frs, act, [], (concat frs), act, files.
  split; rewrite ?app_nil_r; try done; [lia | |].
  - split; rewrite ?app_nil_r; try done. apply Ti.
  - intros k. simpl. apply first_hit_layers. pose proof (ti_incr _ _ _ _ _ Ti) as Hinc.
    rewrite Eh in Hinc. by apply increasing_app in Hinc as (? & _).
Qed.

Lemma fst_middle (ws1 ws2 : writes) rec st st' :
  (ws1 ++ (rec, st) :: ws2).*1 = (ws1 ++ (rec, st') :: ws2).*1.
Proof. by rewrite !fmap_app, !fmap_cons. Qed.

(** Logged and visible writes, when some or all are there. *)
Lemma logged_all ws : Forall (λ x, x.2 ≠ Numbered) ws → logged ws = ws.*1.
Proof.
  induction 1 as [|[r st] ws Hst _ IH]; [done |]. rewrite logged_cons, fmap_cons, IH. simpl in *.
  by rewrite decide_False.
Qed.
Lemma visible_all ws : Forall (λ x, x.2 = Visible) ws → visible ws = ws.*1.
Proof.
  induction 1 as [|[r st] ws Hst _ IH]; [done |]. rewrite visible_cons, fmap_cons, IH. simpl in *.
  by rewrite decide_True.
Qed.
Lemma seen_logged ws : Forall (λ x, x.2 = Visible) ws → logged ws = ws.*1.
Proof. intros H. apply logged_all. eapply Forall_impl; [exact H |]. by intros x ->. Qed.

(** A write that is not yet visible is after those of the last flush. *)
Lemma split_unseen (ws1 ws2 wsa wsb : writes) rec st :
  ws1 ++ ws2 = wsa ++ (rec, st) :: wsb → Forall (λ x, x.2 = Visible) ws1 → st ≠ Visible →
  ∃ wsc, wsa = ws1 ++ wsc ∧ ws2 = wsc ++ (rec, st) :: wsb.
Proof.
  intros E Hv Hst. apply app_eq_inv in E as [(k & E1 & E2)|(k & E1 & E2)]; [| by exists k].
  destruct k as [|x k]; simpl in E2.
  - exists []. rewrite !app_nil_r in *. by rewrite E1, <- E2.
  - injection E2 as <- _. rewrite E1 in Hv. apply Forall_app in Hv as [_ Hv]. by apply Forall_cons in Hv as [? _].
Qed.

(** What is known of each write. *)
Lemma cinv_write hist0 c seen ifrs rec st ws1 ws2 :
  cinv hist0 c seen ifrs → c_writes c = ws1 ++ (rec, st) :: ws2 →
  lsn rec = max_lsn_of hist0 + 1 + Z.of_nat (length ws1) ∧ lsn rec < en_next_lsn (c_engine c) ∧
  lsn rec < 2 ^ 63 ∧ record_fits rec.
Proof.
  intros [_ Hi Hc Hn Hb Hf] E. rewrite E in *.
  assert ((ws1 ++ (rec, st) :: ws2).*1 !! length ws1 = Some rec) as Hl.
  { rewrite fmap_app, lookup_app_r, length_fmap by (by rewrite length_fmap). by rewrite Nat.sub_diag. }
  pose proof (list_elem_of_lookup_2 _ _ _ Hl) as Hin. rewrite Forall_forall in Hf.
  assert (lsn rec ≤ max_lsn_of (hist0 ++ (ws1 ++ (rec, st) :: ws2).*1))
    by (apply max_lsn_of_elem, elem_of_app; by right).
  split; [by apply Hc |]. split; [lia |]. split; [lia | by apply Hf].
Qed.

(** Any selection of the writes is in LSN order after the history. *)
Lemma cinv_increasing hist0 c seen ifrs rs :
  cinv hist0 c seen ifrs → sublist rs (c_writes c).*1 → increasing (hist0 ++ rs).
Proof. intros CI Hs. eapply sublist_increasing; [| apply CI]. by apply sublist_app. Qed.

(** What a reader sees. *)
Lemma core_view hist0 e w ws p ws1 ws2 logs s rs files frs act fro base0 pre ifiles ifrs :
  core hist0 e w ws p ws1 ws2 logs s rs files frs act fro base0 pre ifiles ifrs →
  increasing (hist0 ++ ws.*1) →
  view (COL := COL) e w base0 (pre ++ visible ws2) ∧
  base0 ++ pre ++ visible ws2 = hist0 ++ visible ws ∧ increasing (hist0 ++ visible ws).
Proof.
  intros C Hinc.
  assert (base0 ++ pre ++ visible ws2 = hist0 ++ visible ws) as E.
  { rewrite (co_writes _ _ _ _ _ _ _ _ _ _ _ _ _ _ _ _ _ _ C), visible_app.
    rewrite (visible_all ws1) by apply C. rewrite !app_assoc. f_equal. symmetry. apply C. }
  assert (increasing (hist0 ++ visible ws)) as Hi.
  { eapply sublist_increasing; [| exact Hinc]. apply sublist_app; [done |].
    etrans; [apply visible_sublist | apply logged_sublist]. }
  split; [| done]. split; [| by rewrite E].
  exists fro, ifiles, ifrs. pose proof (co_memory _ _ _ _ _ _ _ _ _ _ _ _ _ _ _ _ _ _ C) as M.
  split; [apply M |]. split; [apply M |]. split; [apply M | apply C].
Qed.

(** * Writers keep it *)

Lemma cinv_number hist0 e w ws p k v o n e' w' ws1 ifrs :
  cinv hist0 (mk_state e w ws p) ws1 ifrs → 17 + zlen k + zlen v < 2 ^ 32 → en_next_lsn e < 2 ^ 63 →
  fetch_add_lsn (e, w) = (Ok n, (e', w')) →
  cinv hist0 (mk_state e' w' (ws ++ [(mk_record k n o v, Numbered)]) p) ws1 ifrs.
Proof.
  intros [Hp Hi Hc Hn Hb Hf] Hz Hlt [= <- <- <-]. cbn [c_engine c_world c_writes c_flush] in *.
  pose proof (max_lsn_of_nonneg hist0) as Hnn. pose proof (max_lsn_of_nonneg (hist0 ++ ws.*1)) as Hnn2.
  set (rec := mk_record k (en_next_lsn e) o v).
  assert (as_u64 (en_next_lsn e + 1) = en_next_lsn e + 1) as Hnext by (unfold as_u64; apply Z.mod_small; lia).
  assert (en_next_lsn e = max_lsn_of hist0 + 1 + Z.of_nat (length ws)) as Hlen.
  { destruct ws as [|x ws' _] using rev_ind; [by rewrite Hn, app_nil_r, Z.add_0_r |].
    assert ((ws' ++ [x]).*1 !! length ws' = Some x.1) as Hl.
    { rewrite fmap_app, lookup_app_r, length_fmap by (by rewrite length_fmap). by rewrite Nat.sub_diag. }
    rewrite Hn, fmap_app, app_assoc. change ([x].*1) with [x.1]. rewrite max_lsn_of_increasing_snoc.
    - rewrite (Hc _ _ Hl), length_app. simpl. lia.
    - change [x.1] with ([x].*1). by rewrite <- app_assoc, <- fmap_app.
    - rewrite (Hc _ _ Hl). lia. }
  split; cbn [c_engine c_world c_writes c_flush]; rewrite ?fmap_app.
  - destruct Hp as (ws2 & logs & s & rs & files & frs & act & fro & base0 & pre & ifiles & C).
    exists (ws2 ++ [(rec, Numbered)]), logs, s, rs, files, frs, act, fro, base0, pre, ifiles.
    destruct C as [E H1 H2 H3 H4 H5 H6 H7 H8 H9].
    split; rewrite ?logged_app, ?logged_cons, ?visible_app, ?visible_cons, ?app_nil_r; simpl;
      rewrite ?app_nil_r; try done.
    + by rewrite E, app_assoc.
    + rewrite Hnext. lia.
    + apply Forall_app. split; [done |]. by apply Forall_singleton.
  - rewrite app_assoc. apply increasing_app. split; [done |]. split; [by repeat constructor |].
    intros a b Ha%max_lsn_of_elem ->%list_elem_of_singleton. simpl. lia.
  - intros i r Hl. apply lookup_app_Some in Hl as [Hl|[Hge Hl]]; [by apply Hc |].
    rewrite length_fmap in *. destruct (i - length ws)%nat as [|j] eqn:Ei; [| by destruct j].
    injection Hl as <-. simpl. rewrite Hlen. lia.
  - rewrite app_assoc, max_lsn_of_app. simpl. rewrite Hnext. lia.
  - simpl. rewrite Hnext. lia.
  - apply Forall_app. split; [done |]. apply Forall_singleton.
    split; simpl; [unfold is_u64; lia | done].
Qed.

(** A writer in its turn: the log so far reaches up to its number. *)
Lemma cinv_reaches hist0 c seen ifrs rec st ws1 ws2 :
  cinv hist0 c seen ifrs → c_writes c = ws1 ++ (rec, st) :: ws2 → Forall (λ x, x.2 ≠ Numbered) ws1 →
  lsn rec ≤ max_lsn_of (hist0 ++ logged (c_writes c)) + 1.
Proof.
  intros CI E Hall. destruct (cinv_write _ _ _ _ _ _ _ _ CI E) as (Hl & _). rewrite Hl.
  rewrite E, logged_app, (logged_all ws1 Hall), app_assoc, max_lsn_of_app.
  destruct ws1 as [|x ws1 _] using rev_ind; [rewrite max_lsn_of_app; simpl; lia |].
  destruct x as [r' st']. rewrite <- app_assoc in E.
  destruct (cinv_write _ _ _ _ _ _ _ _ CI E) as (Hl' & _).
  assert (lsn r' ≤ max_lsn_of (hist0 ++ (ws1 ++ [(r', st')]).*1)).
  { apply max_lsn_of_elem. rewrite fmap_app, !elem_of_app. right. right. by left. }
  rewrite length_app. simpl. lia.
Qed.

Lemma cinv_log (A : assumptions) hist0 e w wsa rec wsb p r e' w' ws1 ifrs :
  cinv hist0 (mk_state e w (wsa ++ (rec, Numbered) :: wsb) p) ws1 ifrs → in_turn e wsa rec →
  log_record rec (e, w) = (r, (e', w')) →
  (r = Ok tt → cinv hist0 (mk_state e' w' (wsa ++ (rec, Logged) :: wsb) p) ws1 ifrs) ∧
  (∀ w2, wcrash (COL := COL) w' w2 →
     durable w2 (hist0 ++ logged wsa ++ logged wsb) ∨
     durable w2 (hist0 ++ logged wsa ++ rec :: logged wsb)).
Proof.
  intros CI Hturn Hrun. pose proof (cinv_write _ _ _ _ _ _ _ _ CI eq_refl) as (Hlsn & Hnext & Hb & Hfit).
  pose proof (cinv_reaches _ _ _ _ _ _ _ _ CI eq_refl) as Hreach.
  pose proof (cinv_increasing hist0 _ _ _ (logged (wsa ++ (rec, Logged) :: wsb)) CI) as Hinc.
  cbn [c_engine c_world c_writes c_flush] in *. rewrite (fst_middle _ _ _ _ Logged) in Hinc.
  specialize (Hinc (logged_sublist _)). autorewrite with hg_writes in Hreach, Hinc.
  pose proof CI as [(ws2 & logs & s & rs & files & frs & act & fro & base0 & pre & ifiles & C)
    Hincr Hcons Hn Hbn Hf].
  cbn [c_engine c_world c_writes c_flush] in *. destruct C as [E Hseen Hbase Hsplit S Hs Hss M Hbelow Hph].
  destruct (split_unseen _ _ _ _ _ _ (eq_sym E) Hseen ltac:(done)) as (wsc & -> & ->).
  rewrite (logged_app ws1), (seen_logged ws1 Hseen) in *. rewrite <- ?app_assoc in Hinc, Hreach.
  rewrite (app_assoc hist0) in Hinc, Hreach.
  autorewrite with hg_writes in *.
  apply on_wal_inv in Hrun as (x & f & E1 & [= -> ->]).
  pose proof (st_tiers _ _ _ _ _ _ _ _ _ _ _ S) as Ti. rewrite (app_assoc act) in Ti.
  pose proof (max_lsn_of_nonneg hist0) as Hnn.
  assert (files_max files < lsn rec) as Hfm.
  { rewrite (tiers_files_max _ _ _ _ _ Ti). apply increasing_app in Hinc as (_ & _ & Hlt).
    destruct (decide (concat frs = [])) as [->|Hne]; [simpl; lia |].
    destruct (max_lsn_of_attained (concat frs) Hne) as (r0 & Hr0 & <-).
    - intros r0 Hr0. pose proof (ti_pos _ _ _ _ _ Ti) as Hpos. rewrite Forall_forall in Hpos.
      apply Hpos. rewrite Hbase, !elem_of_app. auto.
    - apply Hlt; [rewrite Hbase; apply elem_of_app; by left | apply elem_of_app; right; by left]. }
  destruct (tiers_insert _ _ _ _ _ _ rec Ti) as [Ti' Hmax]; [| done | lia |].
  { by rewrite <- !app_assoc, (app_assoc (concat frs)), <- Hbase. }
  rewrite <- !app_assoc, (app_assoc (concat frs)), <- Hbase in Ti', Hmax.
  assert (s ≤ lsn rec) as Hle.
  { rewrite Forall_forall in Hss. apply (Hss (rec, Numbered)); [| done]. apply elem_of_app. right. by left. }
  assert (wal_segment_max_bytes (en_wal e) ≤ wal_active_bytes (en_wal e) →
    s < lsn rec ≤ max_lsn_of ((hist0 ++ ws1.*1) ++ logged wsc ++ logged wsb) + 1) as Hfull.
  { intros Hfull. destruct Hturn as [?|[Hall Hstart]]; [lia |]. split; [| by apply Hreach].
    by rewrite (wi_active _ _ _ _ _ _ (st_wal _ _ _ _ _ _ _ _ _ _ _ S)) in Hstart. }
  destruct (wal_append_stored _ (as_crc _ _ _ _ _ _ A) _ _ _ _ _ _ _ _ _ _ _ _ _ _ _ _ S Hle Hfull
    Ti' Hmax Hfit Hb E1) as (Hok & Hc & _).
  split; [| rewrite <- ?(app_assoc hist0) in Hc; rewrite <- !(app_assoc (ws1.*1)); exact Hc].
  intros Hr. destruct (Hok Hr) as (logs' & s' & rs' & S' & Hroom & Hs').
  split; cbn [c_engine c_world c_writes c_flush]; rewrite <- ?(fst_middle _ _ _ Numbered Logged); try done.
  exists (wsc ++ (rec, Logged) :: wsb), logs', s', rs', files, frs, act, fro, base0, pre, ifiles.
  split; try done; autorewrite with hg_writes; try done.
  - by rewrite <- app_assoc.
  - cbn [en_next_lsn set_en_wal]. lia.
  - assert (∀ x, x ∈ wsb → lsn rec < lsn x.1) as Hafter.
    { intros y Hy. rewrite fmap_app, fmap_cons, app_assoc in Hincr.
      apply increasing_app in Hincr as (_ & Hi & _). apply StronglySorted_inv in Hi as [_ Hi].
      rewrite Forall_forall in Hi. apply Hi. by apply list_elem_of_fmap_2. }
    rewrite Forall_app, Forall_cons in Hss |- *. destruct Hss as (Hss1 & _ & Hss2). split; [| split; [done |]].
    + destruct Hturn as [Hroom'|[Hall _]]; [by rewrite (Hroom Hroom') |].
      apply Forall_app in Hall as [_ Hall]. eapply Forall_impl; [exact Hall |]. by intros x0 ?.
    + apply Forall_forall. intros y Hy _. specialize (Hafter y Hy). lia.
Qed.

Lemma cinv_show hist0 e w wsa rec wsb p r e' w' ws1 ifrs :
  cinv hist0 (mk_state e w (wsa ++ (rec, Logged) :: wsb) p) ws1 ifrs →
  show_record rec (e, w) = (r, (e', w')) →
  cinv hist0 (mk_state e' w' (wsa ++ (rec, Visible) :: wsb) p) ws1 ifrs.
Proof.
  intros CI [= <- <- <-].
  pose proof (cinv_increasing hist0 _ _ _ (visible (wsa ++ (rec, Visible) :: wsb)) CI) as Hinc.
  cbn [c_engine c_world c_writes c_flush] in *. rewrite (fst_middle _ _ _ _ Visible) in Hinc.
  specialize (Hinc (transitivity (visible_sublist _) (logged_sublist _))).
  pose proof CI as [(ws2 & logs & s & rs & files & frs & act & fro & base0 & pre & ifiles & C)
    Hincr Hcons Hn Hbn Hf].
  cbn [c_engine c_world c_writes c_flush] in *.
  split; cbn [c_engine c_world c_writes c_flush]; rewrite <- ?(fst_middle _ _ _ Logged Visible); try done.
  destruct C as [E Hseen Hbase Hsplit S Hs Hss [Hms Hmx Hi Hr] Hbelow Hph].
  destruct (split_unseen _ _ _ _ _ _ (eq_sym E) Hseen ltac:(done)) as (wsc & -> & ->).
  exists (wsc ++ (rec, Visible) :: wsb), logs, s, rs, files, frs, act, fro, base0, pre, ifiles.
  rewrite <- (app_assoc ws1), visible_app, (visible_all ws1 Hseen), app_assoc, Hsplit, <- app_assoc in Hinc.
  apply increasing_app in Hinc as (_ & Hinc & _).
  autorewrite with hg_writes in *.
  assert (((pre ++ visible wsc ++ visible wsb) ++ [rec]) ≡ₚ pre ++ visible wsc ++ rec :: visible wsb) as Hp.
  { rewrite <- !app_assoc. do 2 apply Permutation_app_head. by rewrite Permutation_app_comm. }
  split; autorewrite with hg_writes; try done.
  - by rewrite <- app_assoc.
  - rewrite Forall_app, Forall_cons in Hss |- *. by destruct Hss as (? & _ & ?).
  - split; try done. autorewrite with hg_writes. eapply ms_holds_perm; [exact Hp | | by apply ms_insert_holds].
    rewrite Hp. by apply increasing_NoDup.
Qed.

(** * Calls of the lake *)

(** An index of the lake stays one. *)
Definition keeps_index (l l' : L) : Prop := ∀ i fs, co_index l i fs → co_index l' i fs.
#[local] Instance keeps_index_preorder : PreOrder keeps_index.
Proof. split; [by intros l i fs | intros l1 l2 l3 H1 H2 i fs H; by apply H2, H1]. Qed.

Lemma phase_lake fz sg l l' files frs act p fro pre ifiles ifrs :
  (∀ i fs, co_index l i fs → co_index l' i fs) →
  phase fz sg l files frs act p fro pre ifiles ifrs → phase fz sg l' files frs act p fro pre ifiles ifrs.
Proof. intros H. destruct p; try done. intros [Hi Hp]. by split; [apply H |]. Qed.

Lemma memory_lake ms l l' i fro pre vis ifiles ifrs :
  (∀ i fs, co_index l i fs → co_index l' i fs) →
  memory ms l i fro pre vis ifiles ifrs → memory ms l' i fro pre vis ifiles ifrs.
Proof. intros H [? ? ? ?]. split; auto. Qed.

Lemma core_lake hist0 e w ws p ws1 ws2 logs s rs files frs act fro base0 pre ifiles ifrs l' :
  (∀ i fs, co_index (w_lake w) i fs → co_index l' i fs) → co_files l' files →
  core hist0 e w ws p ws1 ws2 logs s rs files frs act fro base0 pre ifiles ifrs →
  core hist0 e (set_w_lake l' w) ws p ws1 ws2 logs s rs files frs act fro base0 pre ifiles ifrs.
Proof.
  intros Hi F [E Hseen Hbase Hsplit S Hs Hss M Hbelow Hph]. split; try done.
  - by eapply stored_world.
  - by apply (memory_lake _ (w_lake w)).
  - by apply (phase_lake _ _ (w_lake w)).
Qed.

(** A read. *)
Lemma cinv_get hist0 e w ws p k r e' w' ws1 ifrs :
  cinv hist0 (mk_state e w ws p) ws1 ifrs → get k (e, w) = (r, (e', w')) →
  cinv hist0 (mk_state e' w' ws p) ws1 ifrs ∧ keeps_index (w_lake w) (w_lake w') ∧
  (∀ v, r = Ok v → v = kv_of (hist0 ++ visible ws) !! k) ∧ (quiet w → is_ok r = true).
Proof.
  intros [(ws2 & logs & s & rs & files & frs & act & fro & base0 & pre & ifiles & C)
    Hincr Hcons Hn Hbn Hf] Hrun.
  cbn [c_engine c_world c_writes c_flush] in *.
  destruct (core_view _ _ _ _ _ _ _ _ _ _ _ _ _ _ _ _ _ _ C Hincr) as (V & Ev & _).
  destruct (get_view _ _ _ _ _ _ _ _ V (st_files _ _ _ _ _ _ _ _ _ _ _
    (co_stored _ _ _ _ _ _ _ _ _ _ _ _ _ _ _ _ _ _ C)) Hrun) as ((l' & [= -> ->] & F & Hi') & Hv & Hq).
  rewrite Ev in Hv. split; [| split; [exact Hi' | split; [exact Hv | intros Q; by apply Hq]]].
  split; try done. exists ws2, logs, s, rs, files, frs, act, fro, base0, pre, ifiles.
  by apply core_lake.
Qed.

(** A scan, with any index. *)
Lemma cinv_scan hist0 e w ws p k i fs r e' w' ws1 ifrs :
  cinv hist0 (mk_state e w ws p) ws1 ifrs → co_index (w_lake w) i fs →
  read_files k i (e, w) = (r, (e', w')) →
  cinv hist0 (mk_state e' w' ws p) ws1 ifrs ∧ keeps_index (w_lake w) (w_lake w') ∧
  (∀ v, r = Ok v → v = found (files_get k (reverse fs))) ∧
  (quiet w → is_ok r = true).
Proof.
  intros [(ws2 & logs & s & rs & files & frs & act & fro & base0 & pre & ifiles & C)
    Hincr Hcons Hn Hbn Hf] Hfs Hrun.
  cbn [c_engine c_world c_writes c_flush] in *.
  assert (∃ x l', co_get i k (w_lake w) = (x, l') ∧ e' = e ∧ w' = set_w_lake l' w ∧
    r = match x with Ok x => Ok (found x) | Err err => Err err end)
    as (x & l' & E & -> & -> & Hr).
  { apply bind_inv in Hrun as [(x & st1 & E1 & Hret)|(err & E1 & ->)];
      apply on_lake_inv in E1 as (l' & E1 & Est); [injection Hret as <- ->|];
      injection Est as -> ->; eexists _, l'; by split_and!. }
  destruct (co_get_law _ _ _ _ _ _ _ (st_files _ _ _ _ _ _ _ _ _ _ _
    (co_stored _ _ _ _ _ _ _ _ _ _ _ _ _ _ _ _ _ _ C)) Hfs E) as (F & Hi' & Hx & Hq).
  split; [| split; [exact Hi' | split]].
  - split; try done. exists ws2, logs, s, rs, files, frs, act, fro, base0, pre, ifiles. by apply core_lake.
  - intros v ->. destruct x as [x|]; [| done]. injection Hr as ->. by rewrite <- (Hx x eq_refl).
  - intros (_ & _ & Q). destruct (Hq Q) as [Hok _]. rewrite Hr. by destruct x.
Qed.

(** * The flush keeps it *)

(** What a step of the flush does to the parts. *)
Definition after (r : result flush_at) : flush_at := match r with Ok p => p | Err _ => Broken end.
(** When a flush begins, all writes are in, and they are what the next index will hold. A
    new index holds that. *)
Definition moves (hist0 : list record) (ws ws1 ws1' : writes) (ifrs ifrs' : list (list record)) : Prop :=
  (ws1' = ws1 ∨ ws1' = ws ∧ Forall (λ x, x.2 = Visible) ws) ∧
  (ifrs' = ifrs ∨ ∀ k, first_hit k (reverse ifrs') = newest k (hist0 ++ ws1.*1)).
Definition goes (hist0 : list record) (ws : writes) (e : engine) (w : world) (ws1 : writes)
    (ifrs : list (list record)) (r : result flush_at) (st' : engine * world) : Prop :=
  (∃ ws1' ifrs', parts hist0 st'.1 st'.2 ws (after r) ws1' ifrs' ∧ moves hist0 ws ws1 ws1' ifrs ifrs') ∧
  (en_next_lsn st'.1 = en_next_lsn e ∧ keeps_index (w_lake w) (w_lake st'.2)) ∧
  (quiet w → is_ok r = true ∧ quiet st'.2).

(** A step that leaves the index, and is not the first of a flush. *)
Lemma stays hist0 e w ws p ws1 ifrs :
  parts hist0 e w ws p ws1 ifrs →
  ∃ ws1' ifrs', parts hist0 e w ws p ws1' ifrs' ∧ moves hist0 ws ws1 ws1' ifrs ifrs'.
Proof. intros P. exists ws1, ifrs. split; [exact P | split; by left]. Qed.
(** The first one. *)
Lemma begins hist0 e w ws p ws1 ifrs :
  Forall (λ x, x.2 = Visible) ws → parts hist0 e w ws p ws ifrs →
  ∃ ws1' ifrs', parts hist0 e w ws p ws1' ifrs' ∧ moves hist0 ws ws1 ws1' ifrs ifrs'.
Proof. intros H P. exists ws, ifrs. split; [exact P | split; [by right | by left]]. Qed.

(** A step that fails where it stands. *)
Lemma core_broken hist0 e w ws p ws1 ws2 logs s rs files frs act fro base0 pre ifiles ifrs :
  core hist0 e w ws p ws1 ws2 logs s rs files frs act fro base0 pre ifiles ifrs →
  parts hist0 e w ws Broken ws1 ifrs.
Proof.
  intros [E Hseen Hbase Hsplit S Hs Hss M Hbelow Hph].
  by exists ws2, logs, s, rs, files, frs, act, fro, base0, pre, ifiles.
Qed.

Lemma freeze_goes (A : assumptions) hist0 e w ws ws1 ifrs r st' :
  parts hist0 e w ws NoFlush ws1 ifrs → increasing (hist0 ++ ws.*1) → Forall (λ x, x.2 = Visible) ws →
  flush_step NoFlush (e, w) = (r, st') → goes hist0 ws e w ws1 ifrs r st'.
Proof.
  intros (ws2 & logs & s & rs & files & frs & act & fro & base0 & pre & ifiles & C) Hinc Hall Hrun.
  destruct C as [-> Hseen Hbase Hsplit S Hs Hss [Hms Hmx Hi Hr] Hbelow (-> & -> & -> & ->)].
  assert (Forall (λ x, x.2 = Visible) ws2) as Hall2 by (by apply Forall_app in Hall as [_ ?]).
  rewrite (seen_logged _ Hall2) in S. rewrite (visible_all _ Hall2) in Hms.
  rewrite <- app_assoc, <- fmap_app in S.
  assert (hist0 ++ (ws1 ++ ws2).*1 = concat frs ++ act ++ ws2.*1) as Hbase'
    by (by rewrite fmap_app, app_assoc, Hbase, app_assoc).
  unfold flush_step in Hrun. pose proof (ms_freeze_holds _ _ _ Hms) as Hf.
  destruct (ms_freeze (en_memtables e)) as [rf ms] eqn:Ef.
  assert (on_memtables ms_freeze (e, w) = (rf, (set_en_memtables ms e, w))) as Eo
    by (unfold on_memtables, m_zoom; by rewrite Ef).
  assert (∀ e', en_wal e' = en_wal e → en_next_lsn e' = en_next_lsn e → ∀ p' fro' base0' pre',
    memory (en_memtables e') (w_lake w) (en_index e') fro' pre' [] files frs →
    hist0 ++ (ws1 ++ ws2).*1 = base0' ++ pre' →
    (∀ k, first_hit k (reverse fro' ++ reverse frs) = newest k base0') →
    phase (ms_frozen (en_memtables e')) (w_staging w) (w_lake w) files frs (act ++ ws2.*1) p' fro' pre' files frs →
    parts hist0 e' w (ws1 ++ ws2) p' (ws1 ++ ws2) frs) as Hgo.
  { intros e' Ew En p' fro' base0' pre' M' Hsplit' Hb' Hp'.
    exists [], logs, s, rs, files, frs, (act ++ ws2.*1), fro', base0', pre', files.
    split; rewrite ?app_nil_r, ?Ew, ?En; try done. }
  destruct rf as [[a|]|err].
  - rewrite (bind_ok _ _ _ _ _ Eo) in Hrun. injection Hrun as <- <-.
    destruct Hf as (Hne & _ & -> & Ha & Hfr & Hms' & _ & Hmf').
    assert (ms_frozen (en_memtables e) = []) as Hnone.
    { pose proof (mh_frozen _ _ _ Hms) as H2. by inv H2. }
    rewrite Hnone in Hfr. split; [apply begins; [done |] | split; [done | done]].
    apply (Hgo (set_en_memtables ms e) eq_refl eq_refl (Frozen (ms_active (en_memtables e))) [act ++ ws2.*1]
      (hist0 ++ (ws1 ++ ws2).*1) []); [| by rewrite app_nil_r | | by split_and!].
    + split; try done. by etrans.
    + intros k. rewrite Hbase', <- concat_snoc, <- first_hit_layers, reverse_app; [done |].
      by rewrite concat_snoc, <- Hbase'.
  - rewrite (bind_ok _ _ _ _ _ Eo) in Hrun. injection Hrun as <- <-.
    destruct Hf as (Ha & _ & ->).
    assert (set_en_memtables (en_memtables e) e = e) as -> by (by destruct e).
    split; [apply begins; [done |] | split; [done | done]].
    apply (Hgo e eq_refl eq_refl NoFlush [] base0 (act ++ ws2.*1)); try done;
      [| by rewrite fmap_app, app_assoc, Hsplit, app_assoc].
    split; try done. by rewrite app_nil_r.
  - exfalso. destruct Hf as (_ & Hst & _). unfold ms_stalled in Hst. rewrite Hmx in Hst.
    pose proof (mh_frozen _ _ _ Hms) as H2. apply Forall2_length in H2.
    unfold zlen in Hst. rewrite H2 in Hst. pose proof (as_frozen _ _ _ _ _ _ A). simpl in Hst. zbool. lia.
Qed.

(** The records of the frozen memtable are above what is published. *)
Lemma core_unpublished hist0 e w ws p ws1 ws2 logs s rs files frs act fro base0 pre ifiles ifrs :
  core hist0 e w ws p ws1 ws2 logs s rs files frs act fro base0 pre ifiles ifrs → act ≠ [] →
  files_max files < max_lsn_of act.
Proof.
  intros C Hne. pose proof (st_tiers _ _ _ _ _ _ _ _ _ _ _
    (co_stored _ _ _ _ _ _ _ _ _ _ _ _ _ _ _ _ _ _ C)) as Ti.
  destruct act as [|r0 act]; [done |].
  destruct (tiers_above _ _ _ _ _ r0 Ti) as (? & _); [by left |].
  pose proof (max_lsn_of_elem r0 (r0 :: act) ltac:(by left)). lia.
Qed.

Lemma plan_goes hist0 e w ws a ws1 ifrs r st' :
  parts hist0 e w ws (Frozen a) ws1 ifrs → flush_step (Frozen a) (e, w) = (r, st') → goes hist0 ws e w ws1 ifrs r st'.
Proof.
  intros (ws2 & logs & s & rs & files & frs & act & fro & base0 & pre & ifiles & C) Hrun.
  unfold flush_step in Hrun. pose proof C as [E Hseen Hbase Hsplit S Hs Hss M Hbelow Hph].
  destruct Hph as (Hfz & Ha & Hne & Hph).
  apply bind_inv in Hrun as [(wm & st1 & E1 & Hrun)|(err & E1 & ->)];
    apply on_lake_inv in E1 as (l' & E1 & ->);
    destruct (co_published_watermark_law _ _ _ _ (st_files _ _ _ _ _ _ _ _ _ _ _ S) E1) as (F & Hi & Hw & Hq);
    pose proof (core_lake _ _ _ _ _ _ _ _ _ _ _ _ _ _ _ _ _ _ _ Hi F C) as C'.
  - rewrite (Hw wm eq_refl), (plan_write _ act) in Hrun; [| done | done | by eapply core_unpublished].
    injection Hrun as <- <-. split; [| split; [done |]].
    + apply stays. exists ws2, logs, s, rs, files, frs, act, fro, base0, pre, ifiles.
      destruct C' as [? ? ? ? ? ? ? ? ? Hph']. split; try done; by split.
    + intros (? & ? & Q). by destruct (Hq Q).
  - split; [by eapply stays, core_broken | split; [done |]]. intros (? & ? & Q). by destruct (Hq Q).
Qed.

(** [core] looks at the log and the lake of the world, and at the staging file of a flush. *)
Lemma core_staging hist0 e w ws p p' ws1 ws2 logs s rs files frs act fro base0 pre ifiles ifrs sg :
  core hist0 e w ws p ws1 ws2 logs s rs files frs act fro base0 pre ifiles ifrs →
  phase (ms_frozen (en_memtables e)) sg (w_lake w) files frs act p' fro pre ifiles ifrs →
  core hist0 e (set_w_staging sg w) ws p' ws1 ws2 logs s rs files frs act fro base0 pre ifiles ifrs.
Proof.
  intros [E Hseen Hbase Hsplit S Hs Hss M Hbelow Hph] Hph'. split; try done.
  eapply stored_world; [exact S | done | apply S].
Qed.

Lemma stage_goes hist0 e w ws a wm ws1 ifrs r st' :
  parts hist0 e w ws (Planned a wm) ws1 ifrs → flush_step (Planned a wm) (e, w) = (r, st') → goes hist0 ws e w ws1 ifrs r st'.
Proof.
  intros (ws2 & logs & s & rs & files & frs & act & fro & base0 & pre & ifiles & C) Hrun.
  unfold flush_step in Hrun. pose proof (co_phase _ _ _ _ _ _ _ _ _ _ _ _ _ _ _ _ _ _ C) as [Hwm Hph].
  apply bind_inv in Hrun as [([] & st1 & E1 & [= <- <-])|(err & E1 & ->)];
    apply on_staging_inv in E1 as (sg & E1 & ->); destruct (stage_spec _ _ _ _ _ _ _ _ E1) as [Hok Hq].
  - split; [| split; [done |]].
    + apply stays. exists ws2, logs, s, rs, files, frs, act, fro, base0, pre, ifiles.
      eapply core_staging; [exact C |]. split; [| by split]. by apply Hok.
    + intros (? & Q & ?). by destruct (Hq Q).
  - split; [| split; [done |]].
    + eapply stays, core_broken, (core_staging _ _ _ _ _ Broken); [exact C | done].
    + intros (? & Q & ?). by destruct (Hq Q).
Qed.

Lemma publish_goes (A : assumptions) hist0 e w ws a wm ws1 ifrs r st' :
  parts hist0 e w ws (Staged a wm) ws1 ifrs → flush_step (Staged a wm) (e, w) = (r, st') → goes hist0 ws e w ws1 ifrs r st'.
Proof.
  intros (ws2 & logs & s & rs & files & frs & act & fro & base0 & pre & ifiles & C) Hrun.
  unfold flush_step in Hrun. pose proof C as [E Hseen Hbase Hsplit S Hs Hss M Hbelow Hph].
  destruct Hph as ((f & Hf & Hc) & -> & Hfz & Ha & Hne & -> & -> & -> & ->).
  assert (∃ r0, publish (staging_path (staging_dir cfg) (max_lsn_of act)) (e, w) = (r0, st') ∧
    r = match r0 with Ok _ => Ok (Published a (max_lsn_of act)) | Err err => Err err end) as (r0 & E1 & ->).
  { apply bind_inv in Hrun as [([] & st1 & E1 & [= <- <-])|(err & E1 & ->)]; [by exists (Ok tt) | by exists (Err err)]. }
  destruct (publish_stored _ _ _ _ (as_parquet _ _ _ _ _ _ A) _ _ _ _ _ _ _ _ _ _ _ _ _ _ _ _ S Ha Hne Hf Hc E1)
    as (Hmax & l' & -> & Hi & Hcase & Hq).
  assert (∀ p', phase (ms_frozen (en_memtables e)) (w_staging w) l' (files ++ [row_of <$> mt_iter (arc_mt a)])
      (frs ++ [act]) [] p' [act] [] files frs →
    stored (en_wal e) (set_w_lake l' w) logs s rs (files ++ [row_of <$> mt_iter (arc_mt a)]) (frs ++ [act])
      (logged ws2) ((hist0 ++ ws1.*1) ++ logged ws2) →
    parts hist0 e (set_w_lake l' w) ws p' ws1 frs) as Hnew.
  { intros p' Hp' S'. exists ws2, logs, s, rs, (files ++ [row_of <$> mt_iter (arc_mt a)]), (frs ++ [act]), [].
    exists [act], base0, [], files. split; try done; [by rewrite concat_snoc, app_nil_r |].
    by apply (memory_lake _ (w_lake w)). }
  split; [| split; [done |]].
  - destruct r0 as [[]|err].
    + destruct Hcase as [[_ ?]|S']; [done |]. apply stays, Hnew; [| done]. split; [done |].
      split_and!; try done. by exists frs, act.
    + destruct Hcase as [[F _]|S']; [| by apply stays, Hnew].
      eapply stays, core_broken. by apply (core_lake _ _ _ _ _ _ _ _ _ _ _ _ _ _ _ _ _ _ _ Hi F C).
  - intros (? & ? & Q). destruct (Hq Q) as [-> ?]. done.
Qed.

Lemma load_goes hist0 e w ws a wm ws1 ifrs r st' :
  parts hist0 e w ws (Published a wm) ws1 ifrs → flush_step (Published a wm) (e, w) = (r, st') → goes hist0 ws e w ws1 ifrs r st'.
Proof.
  intros (ws2 & logs & s & rs & files & frs & act & fro & base0 & pre & ifiles & C) Hrun.
  unfold flush_step in Hrun. pose proof C as [E Hseen Hbase Hsplit S Hs Hss M Hbelow Hph].
  apply bind_inv in Hrun as [(i & st1 & E1 & [= <- <-])|(err & E1 & ->)];
    apply on_lake_inv in E1 as (l' & E1 & ->);
    destruct (co_load_law _ _ _ _ (st_files _ _ _ _ _ _ _ _ _ _ _ S) E1) as (F & Hi & Hload & Hq);
    pose proof (core_lake _ _ _ _ _ _ _ _ _ _ _ _ _ _ _ _ _ _ _ Hi F C) as C'.
  - split; [| split; [done |]].
    + apply stays. exists ws2, logs, s, rs, files, frs, act, fro, base0, pre, ifiles.
      destruct C' as [? ? ? ? ? ? ? ? ? Hph']. split; try done. split; [by apply Hload | done].
    + intros (? & ? & Q). by destruct (Hq Q).
  - split; [by eapply stays, core_broken | split; [done |]]. intros (? & ? & Q). by destruct (Hq Q).
Qed.

(** The reads of a record that is in the frozen memtable and in the newest file. *)
Lemma below_published k hist base (frs1 : list (list record)) rs1 :
  base = concat (frs1 ++ [rs1]) → increasing (base ++ hist) →
  first_hit k (rs1 :: reverse (frs1 ++ [rs1])) = newest k base ∧
  first_hit k (reverse (frs1 ++ [rs1])) = newest k base.
Proof.
  intros -> Hinc. apply increasing_app in Hinc as (Hinc & _).
  pose proof (first_hit_layers k _ Hinc) as E. split; [| done]. rewrite <- E, reverse_snoc. simpl.
  by destruct (newest k rs1).
Qed.

Lemma swap_goes hist0 e w ws a wm i ws1 ifrs r st' :
  parts hist0 e w ws (Loaded a wm i) ws1 ifrs → increasing (hist0 ++ ws.*1) →
  flush_step (Loaded a wm i) (e, w) = (r, st') → goes hist0 ws e w ws1 ifrs r st'.
Proof.
  intros (ws2 & logs & s & rs & files & frs & act & fro & base0 & pre & ifiles & C) Hinc [= <- <-].
  destruct C as [-> Hseen Hbase Hsplit S Hs Hss [Hms Hmx Hi Hr] Hbelow
    (Hload & Hwm & Hfz & -> & -> & frs1 & rs1 & -> & ->)].
  rewrite app_nil_r in Hbase, Hsplit. rewrite fmap_app, app_assoc in Hinc. split; [| split; [done | done]].
  exists ws1, (frs1 ++ [rs1]). split; [| by split; [left | right; intros k; by apply (below_published k (ws2.*1))]].
  exists ws2, logs, s, rs, files, (frs1 ++ [rs1]), [], [rs1], base0, [], files.
  split; rewrite ?app_nil_r; try done.
  - split; try done. apply (st_tiers _ _ _ _ _ _ _ _ _ _ _ S).
  - intros k. rewrite <- Hsplit. by apply (below_published k (ws2.*1)).
  - split; [done |]. split; [| done]. split; [done |]. split; [done |]. split; [done |]. by exists frs1, rs1.
Qed.

Lemma truncate_goes hist0 e w ws a wm ws1 ifrs r st' :
  parts hist0 e w ws (Indexed a wm) ws1 ifrs → flush_step (Indexed a wm) (e, w) = (r, st') → goes hist0 ws e w ws1 ifrs r st'.
Proof.
  intros (ws2 & logs & s & rs & files & frs & act & fro & base0 & pre & ifiles & C) Hrun.
  unfold flush_step in Hrun. destruct C as [E Hseen Hbase Hsplit S Hs Hss M Hbelow (-> & Hph)].
  assert (∀ x f r0, truncate_through (files_max files) (en_wal e, w_wal w) = (r0, (x, f)) →
    (fs_faults (w_wal w) = [] → r0 = Ok tt ∧ fs_faults f = []) ∧
    ∀ p', phase (ms_frozen (en_memtables e)) (w_staging w) (w_lake w) files frs act p' fro pre ifiles ifrs →
      parts hist0 (set_en_wal x e) (set_w_wal f w) ws p' ws1 ifrs) as Hgo.
  { intros x f r0 E1. destruct (truncate_stored _ _ _ _ _ _ _ _ _ _ _ _ _ _ S E1) as [Hq [logs' S']].
    split; [done |]. intros p' Hp'.
    by exists ws2, logs', s, rs, files, frs, act, fro, base0, pre, ifiles. }
  apply bind_inv in Hrun as [([] & st1 & E1 & [= <- <-])|(err & E1 & ->)];
    apply on_wal_inv in E1 as (x & f & E1 & ->); destruct (Hgo _ _ _ E1) as [Hq Hp];
    (split; [by apply stays, Hp | split; [done |]]); intros (Q & ? & ?); by destruct (Hq Q).
Qed.

Lemma retire_goes hist0 e w ws a wm ws1 ifrs r st' :
  parts hist0 e w ws (Truncated a wm) ws1 ifrs → increasing (hist0 ++ ws.*1) →
  flush_step (Truncated a wm) (e, w) = (r, st') → goes hist0 ws e w ws1 ifrs r st'.
Proof.
  intros (ws2 & logs & s & rs & files & frs & act & fro & base0 & pre & ifiles & C) Hinc [= <- <-].
  destruct C as [-> Hseen Hbase Hsplit S Hs Hss [Hms Hmx Hi Hr] Hbelow
    ((Hfz & -> & -> & frs1 & rs1 & -> & ->) & -> & ->)].
  rewrite app_nil_r in Hbase, Hsplit. rewrite fmap_app, app_assoc in Hinc. split; [| split; [done | done]].
  destruct (ms_retire_holds (en_memtables e) [] a [] [] rs1 [] _ Hms Hfz eq_refl) as [Hms' _].
  apply stays. exists ws2, logs, s, rs, files, (frs1 ++ [rs1]), [], [], base0, [], files.
  split; rewrite ?app_nil_r; try done.
  intros k. rewrite <- Hsplit. by apply (below_published k (ws2.*1)).
Qed.

Lemma remove_goes hist0 e w ws wm ws1 ifrs r st' :
  parts hist0 e w ws (Retired wm) ws1 ifrs → flush_step (Retired wm) (e, w) = (r, st') → goes hist0 ws e w ws1 ifrs r st'.
Proof.
  intros (ws2 & logs & s & rs & files & frs & act & fro & base0 & pre & ifiles & C) Hrun.
  unfold flush_step, mbind, m_bind, action in Hrun. destruct (on_staging _ _) as [r1 st1] eqn:E1.
  injection Hrun as <- <-. apply on_staging_inv in E1 as (sg & E1 & ->).
  split; [| split; [done |]].
  - apply stays. exists ws2, logs, s, rs, files, frs, act, fro, base0, pre, ifiles.
    eapply core_staging; [exact C |]. by apply (co_phase _ _ _ _ _ _ _ _ _ _ _ _ _ _ _ _ _ _ C).
  - intros (? & Q & ?). split; [done |]. split; [done |]. split; [| done]. by apply (remove_file_faults _ _ _ _ E1).
Qed.

Lemma flush_goes (A : assumptions) hist0 e w ws p ws1 ifrs r st' :
  parts hist0 e w ws p ws1 ifrs → increasing (hist0 ++ ws.*1) → (p = NoFlush → Forall (λ x, x.2 = Visible) ws) →
  flush_step p (e, w) = (r, st') → goes hist0 ws e w ws1 ifrs r st'.
Proof.
  destruct p; intros P Hinc Hall Hrun.
  - by apply (freeze_goes A); [| | apply Hall |].
  - by eapply plan_goes.
  - by eapply stage_goes.
  - by eapply (publish_goes A).
  - by eapply load_goes.
  - by eapply swap_goes.
  - by eapply truncate_goes.
  - by eapply retire_goes.
  - by eapply remove_goes.
  - injection Hrun as <- <-. split; [by apply stays | done].
Qed.

(** * Reachable states *)

Lemma cinv_step (A : assumptions) hist0 c c' ws1 ifrs :
  cstep c c' → cinv hist0 c ws1 ifrs →
  ∃ ws1' ifrs', cinv hist0 c' ws1' ifrs' ∧ moves hist0 (c_writes c) ws1 ws1' ifrs ifrs' ∧
    keeps_index (w_lake (c_world c)) (w_lake (c_world c')).
Proof.
  assert (moves hist0 (c_writes c) ws1 ws1 ifrs ifrs) as Hno by (split; by left).
  destruct 1 as [k v o e w ws p n e' w' Hz Hb E|e w wsa rec wsb p e' w' Hturn E
    |e w wsa rec wsb p e' w' E|k r e w ws p e' w' E|k i fs r e w ws p e' w' Hfs E|e w ws p r e' w' Hall E]; intros CI;
    cbn [c_engine c_world c_writes c_flush] in *.
  - exists ws1, ifrs. split; [by eapply cinv_number | split; [done |]]. by injection E as _ _ <-.
  - exists ws1, ifrs. split; [by eapply (cinv_log A) | split; [done |]].
    by apply on_wal_inv in E as (x & f & _ & [= -> ->]).
  - exists ws1, ifrs. split; [by eapply cinv_show | split; [done |]]. by injection E as _ <-.
  - exists ws1, ifrs. by destruct (cinv_get _ _ _ _ _ _ _ _ _ _ _ CI E) as (CI' & Hk & _).
  - exists ws1, ifrs. by destruct (cinv_scan _ _ _ _ _ _ _ _ _ _ _ _ _ CI Hfs E) as (CI' & Hk & _).
  - destruct CI as [P Hincr Hcons Hn Hbn Hf]. cbn [c_engine c_world c_writes c_flush] in *.
    destruct (flush_goes A _ _ _ _ _ _ _ _ _ P Hincr Hall E) as ((ws1' & ifrs' & P' & M) & [En Hk] & _).
    exists ws1', ifrs'. split; [| by split]. simpl in P', En.
    split; cbn [c_engine c_world c_writes c_flush]; rewrite ?En; done.
Qed.

Lemma cinv_steps (A : assumptions) hist0 c c' ws1 ifrs :
  rtc cstep c c' → cinv hist0 c ws1 ifrs → ∃ ws1' ifrs', cinv hist0 c' ws1' ifrs'.
Proof.
  intros Hsteps. revert ws1 ifrs. induction Hsteps as [c|c1 c2 c3 Hs Hss IH]; intros ws1 ifrs CI; [by eauto |].
  destruct (cinv_step A _ _ _ _ _ Hs CI) as (ws1' & ifrs' & CI' & _). by eapply IH.
Qed.

Lemma cinv_reachable (A : assumptions) hist0 e w c :
  running e w hist0 → rtc cstep (mk_state e w [] NoFlush) c → ∃ ws1 ifrs, cinv hist0 c ws1 ifrs.
Proof. intros R Hsteps. apply cinv_start in R as (ws1 & ifrs & CI). by eapply (cinv_steps A). Qed.

(** * Properties *)

(** C3: concurrent clients are serializable, by number, in the interleavings of [cstep]:
    the steps of writers, of readers and of a flush in any order, except that a flush
    freezes only when every write so far is visible, that one flush runs at a time and
    none after one that failed, and that a writer starts a new segment only when all
    lower numbers are in the log. When every write is acknowledged and no flush is under
    way, the engine is in the state one client would have brought it to by making the
    writes one after the other in LSN order: everything proved of a running engine holds
    of it. The program does not keep to those three conditions by itself, and each is
    needed: [late_write_dropped_by_flush], [concurrent_flushes_lose_acked] and
    [late_rotation_reuses_segment] lose acknowledged writes without it. *)
Theorem concurrent_serializes (A : assumptions) hist0 e w c :
  running e w hist0 → rtc cstep (mk_state e w [] NoFlush) c →
  Forall (λ x, x.2 = Visible) (c_writes c) → c_flush c = NoFlush →
  running (c_engine c) (c_world c) (hist0 ++ (c_writes c).*1) ∧
  increasing (hist0 ++ (c_writes c).*1).
Proof.
  intros R Hsteps Hall Hno.
  destruct (cinv_reachable A _ _ _ _ R Hsteps) as (ws1 & ifrs &
    [(ws2 & logs & s & rs & files & frs & act & fro & base0 & pre & ifiles & C)
      Hincr Hcons Hn Hbn Hf]).
  split; [| done]. split; [| done]. rewrite Hno in C.
  destruct C as [E Hseen Hbase Hsplit S Hs Hss [Hms Hmx Hi Hr] Hbelow (-> & -> & -> & ->)].
  rewrite E in Hall |- *. apply Forall_app in Hall as [_ Hall].
  rewrite (seen_logged _ Hall), <- app_assoc, <- fmap_app in S. rewrite (visible_all _ Hall) in Hms.
  by exists logs, s, rs, files, frs, (act ++ ws2.*1).
Qed.

(** A read among concurrent writers and a flush. At any moment, with the flush at any
    point or failed, it returns what the history and the visible writes give, the highest
    LSN winning whatever the order of arrival and wherever the record has got to; so every
    acknowledged write counts, and no value is seen that is not yet in the log. *)
Theorem concurrent_reads (A : assumptions) hist0 e w c k r st' :
  running e w hist0 → rtc cstep (mk_state e w [] NoFlush) c →
  get k (c_engine c, c_world c) = (r, st') →
  (∀ v, r = Ok v → v = kv_of (hist0 ++ visible (c_writes c)) !! k) ∧
  sublist (visible (c_writes c)) (logged (c_writes c)) ∧
  (quiet (c_world c) → is_ok r = true).
Proof.
  intros R Hsteps Hrun. destruct (cinv_reachable A _ _ _ _ R Hsteps) as (ws1 & ifrs & CI).
  destruct c as [e1 w1 ws p]. destruct st' as [e2 w2].
  destruct (cinv_get _ _ _ _ _ _ _ _ _ _ _ CI Hrun) as (_ & _ & Hv & Hq).
  split; [exact Hv |]. split; [apply visible_sublist | exact Hq].
Qed.

(** C5: concurrent clients and crashes, in the interleavings of [cstep]: a flush freezes
    only when every write so far is visible, one flush runs at a time and none after one
    that failed, and a writer starts a new segment only when all lower numbers are in the
    log; apart from that the steps come in any order. A crash at any moment of such a run,
    with the flush at any point or failed, leaves the history and the logged writes, so
    every acknowledged one, and nothing else; a crash during an append, which may also
    fail, leaves that record's write in its place or not. Where the program leaves those
    conditions a crash can lose acknowledged writes ([late_write_dropped_by_flush],
    [concurrent_flushes_lose_acked], [late_rotation_reuses_segment]). *)
Theorem concurrent_crash_safe (A : assumptions) hist0 e w c :
  running e w hist0 → rtc cstep (mk_state e w [] NoFlush) c →
  (∀ w2, wcrash (COL := COL) (c_world c) w2 → durable w2 (hist0 ++ logged (c_writes c))) ∧
  ∀ ws1 rec ws2 r e' w' w2,
    c_writes c = ws1 ++ (rec, Numbered) :: ws2 → in_turn (c_engine c) ws1 rec →
    log_record rec (c_engine c, c_world c) = (r, (e', w')) → wcrash (COL := COL) w' w2 →
    durable w2 (hist0 ++ logged ws1 ++ logged ws2) ∨
    durable w2 (hist0 ++ logged ws1 ++ rec :: logged ws2).
Proof.
  intros R Hsteps. destruct (cinv_reachable A _ _ _ _ R Hsteps) as (seen & ifrs & CI). split.
  - intros w2 Hc.
    destruct CI as [(ws2 & logs & s & rs & files & frs & act & fro & base0 & pre & ifiles & C) _ _ _ _ _].
    destruct C as [-> Hseen _ _ S _ _ _ _ _]. rewrite logged_app, (seen_logged _ Hseen), app_assoc.
    by eapply stored_crash.
  - intros ws1 rec ws2 r e' w' w2 E Hturn Hrun Hc. destruct c as [e1 w1 ws p]. simpl in *. subst ws.
    destruct (cinv_log A _ _ _ _ _ _ _ _ _ _ _ _ CI Hturn Hrun) as [_ H]. by apply H.
Qed.

(** C6: a single flush that froze its memtable with no write on its way is never stopped
    by writers and readers. In the interleavings of [cstep] (a freeze only when every write
    so far is visible, one flush at a time and none after one that failed, a new segment
    only when all lower numbers are in the log) and while no call fails, each step of the
    flush succeeds whatever steps of writers and readers came in between, it is never
    stalled by the queue of frozen memtables, and never takes its memtable for empty or for
    already published: from the freeze it goes through publishing, swapping the index,
    truncating the log and retiring, to its end. A freeze with a write on its way, or a
    second flush, can end as already published and lose acknowledged writes
    ([late_write_dropped_by_flush], [concurrent_flushes_lose_acked]). *)
Theorem concurrent_flush_serves (A : assumptions) hist0 e w c r st' :
  running e w hist0 → rtc cstep (mk_state e w [] NoFlush) c → quiet (c_world c) →
  (c_flush c = NoFlush → Forall (λ x, x.2 = Visible) (c_writes c)) →
  flush_step (c_flush c) (c_engine c, c_world c) = (r, st') →
  quiet st'.2 ∧
  ∃ p', r = Ok p' ∧
    match c_flush c with
    | NoFlush => p' = NoFlush ∨ ∃ a, p' = Frozen a
    | Frozen a => ∃ wm, p' = Planned a wm
    | Planned a wm => p' = Staged a wm
    | Staged a wm => p' = Published a wm
    | Published a wm => ∃ i, p' = Loaded a wm i
    | Loaded a wm _ => p' = Indexed a wm
    | Indexed a wm => p' = Truncated a wm
    | Truncated a wm => p' = Retired wm
    | Retired _ => p' = NoFlush
    | Broken => p' = Broken
    end.
Proof.
  intros R Hsteps Q Hall Hrun.
  destruct (cinv_reachable A _ _ _ _ R Hsteps) as (ws1 & ifrs & [P Hincr _ _ _ _]).
  destruct (flush_goes A _ _ _ _ _ _ _ _ _ P Hincr Hall Hrun) as (_ & _ & Hq). destruct (Hq Q) as [Hok Q'].
  split; [done |]. destruct r as [p'|]; [| done]. exists p'. split; [done |].
  clear Hq Hok Q' R Hsteps. destruct c as [e1 w1 ws p]. cbn [c_engine c_world c_writes c_flush] in *.
  destruct p; cbn [flush_step] in Hrun;
    try (apply bind_inv in Hrun as [(x & st1 & _ & [= <- <-])|(? & _ & ?)]; [by eauto | done]).
  - apply bind_inv in Hrun as [(x & st1 & _ & [= <- <-])|(? & _ & ?)]; [destruct x; eauto | done].
  - apply bind_inv in Hrun as [(x & st1 & E1 & Hrun)|(? & _ & ?)]; [| done].
    destruct P as (ws2 & logs & s & rs & files & frs & act & fro & base0 & pre & ifiles & C).
    pose proof (co_phase _ _ _ _ _ _ _ _ _ _ _ _ _ _ _ _ _ _ C) as (_ & Ha & Hne & _).
    apply on_lake_inv in E1 as (l' & E1 & ->).
    destruct (co_published_watermark_law _ _ _ _ (st_files _ _ _ _ _ _ _ _ _ _ _
      (co_stored _ _ _ _ _ _ _ _ _ _ _ _ _ _ _ _ _ _ C)) E1) as (_ & _ & Hw & _).
    rewrite (Hw x eq_refl), (plan_write _ act) in Hrun; [| done | done | by eapply core_unpublished].
    injection Hrun as <- <-. by eexists.
  - by injection Hrun as <- <-.
Qed.
End concurrent.

(** * Examples *)

(** Two writers of one key. The second is logged and acknowledged first, and the first
    comes in with the lower LSN. A flush takes both; while it plans and stages, a third
    write of the key is numbered and logged, and the file is published. *)
Definition write1 : record := RecordModel.put k1 1 v1.
Definition write2 : record := RecordModel.put k1 2 v2.
Definition write3 : record := RecordModel.put k1 3 v1.
Abbreviation ex_log := (log_record (T := MT) (L := lake) (I := list (list row)) crc32_ieee).
Abbreviation ex_show := (show_record (T := MT) (L := lake) (I := list (list row))).
Abbreviation ex_flush_step :=
  (flush_step (T := MT) (L := lake) (I := list (list row)) head_bytes batch_bytes footer_bytes ex_cfg).
Abbreviation ex_step :=
  (cstep (T := MT) (L := lake) (I := list (list row)) crc32_ieee head_bytes batch_bytes footer_bytes ex_cfg).
Abbreviation ex_state := (mk_state (T := MT) (L := lake) (I := list (list row))).

Lemma ok_eta {A} (o : result A * (engine (T := MT) (I := list (list row)) * world (L := lake))) a :
  o.1 = Ok a → o = (Ok a, (o.2.1, o.2.2)).
Proof. intros <-. by destruct o as [r [x y]]. Qed.

(** The flush's next step, and where it has got to. *)
Definition flushes (p : flush_at MT (list (list row)))
    (st : engine (T := MT) (I := list (list row)) * world (L := lake)) :=
  (match (ex_flush_step p st).1 with Ok p => p | Err _ => Broken end, (ex_flush_step p st).2).

Lemma flushes_step p st o ws :
  o = flushes p st → (p = NoFlush → Forall (λ x, x.2 = Visible) ws) →
  ex_step (ex_state st.1 st.2 ws p) (ex_state o.2.1 o.2.2 ws o.1).
Proof.
  intros -> Hp. unfold flushes. destruct st as [e w].
  destruct (ex_flush_step p (e, w)) as [r [e' w']] eqn:E. simpl. by apply step_flush.
Qed.

Definition is_flush (p : flush_at MT (list (list row))) : bool := match p with NoFlush => false | _ => true end.
Lemma is_under_way p (P : Prop) : is_flush p = true → p = NoFlush → P.
Proof. by intros H ->. Qed.

Definition run_n1 := fetch_add_lsn (T := MT) (L := lake) (I := list (list row)) (e0, w0).
Definition run_n2 := fetch_add_lsn (T := MT) (L := lake) (I := list (list row)) run_n1.2.
Definition run_l2 := ex_log write2 run_n2.2.
Definition run_s2 := ex_show write2 run_l2.2.
Definition run_l1 := ex_log write1 run_s2.2.
Definition run_s1 := ex_show write1 run_l1.2.
Definition run_freeze := flushes NoFlush run_s1.2.
Definition run_n3 := fetch_add_lsn (T := MT) (L := lake) (I := list (list row)) run_freeze.2.
Definition run_plan := flushes run_freeze.1 run_n3.2.
Definition run_stage := flushes run_plan.1 run_plan.2.
Definition run_l3 := ex_log write3 run_stage.2.
Definition run_publish := flushes run_stage.1 run_l3.2.
Definition run_s3 := ex_show write3 run_publish.2.
Definition run_load := flushes run_publish.1 run_s3.2.
Definition run_swap := flushes run_load.1 run_load.2.
Definition run_truncate := flushes run_swap.1 run_swap.2.
Definition run_retire := flushes run_truncate.1 run_truncate.2.
Definition run_end := flushes run_retire.1 run_retire.2.

Abbreviation two_in := [(write1, Visible); (write2, Visible)].
Definition both : state := ex_state run_s1.2.1 run_s1.2.2 two_in NoFlush.
Definition busy : state :=
  ex_state run_publish.2.1 run_publish.2.2 (two_in ++ [(write3, Logged)]) run_publish.1.
Definition over : state := ex_state run_end.2.1 run_end.2.2 (two_in ++ [(write3, Visible)]) run_end.1.

Ltac ok_run := try rewrite <- surjective_pairing; apply ok_eta; vm_compute; reflexivity.
Ltac turn := left; vm_compute; reflexivity.
Tactic Notation "flushes_by" uconstr(p) constr(st) constr(o) := apply (flushes_step p st o); [by unfold o |].
Ltac under_way := apply is_under_way; vm_compute; reflexivity.

Lemma reach_both : rtc ex_step (ex_state e0 w0 [] NoFlush) both.
Proof.
  eapply rtc_l.
  { apply (step_number _ _ _ _ _ k1 v1 Put e0 w0 [] NoFlush 1 run_n1.2.1 run_n1.2.2);
      [vm_compute; reflexivity.. | ok_run]. }
  eapply rtc_l.
  { apply (step_number _ _ _ _ _ k1 v2 Put _ _ _ _ 2 run_n2.2.1 run_n2.2.2);
      [vm_compute; reflexivity.. | ok_run]. }
  eapply rtc_l.
  { apply (step_log _ _ _ _ _ _ _ [(write1, Numbered)] write2 [] _ run_l2.2.1 run_l2.2.2); [turn | ok_run]. }
  eapply rtc_l.
  { apply (step_show _ _ _ _ _ _ _ [(write1, Numbered)] write2 [] _ run_s2.2.1 run_s2.2.2); ok_run. }
  eapply rtc_l.
  { apply (step_log _ _ _ _ _ _ _ [] write1 [(write2, Visible)] _ run_l1.2.1 run_l1.2.2); [turn | ok_run]. }
  eapply rtc_l; [| apply rtc_refl].
  apply (step_show _ _ _ _ _ _ _ [] write1 [(write2, Visible)] _ run_s1.2.1 run_s1.2.2); ok_run.
Qed.

Lemma reach_busy : rtc ex_step (ex_state e0 w0 [] NoFlush) busy.
Proof.
  etrans; [exact reach_both |].
  eapply rtc_l; [flushes_by NoFlush run_s1.2 run_freeze; by repeat constructor |].
  eapply rtc_l.
  { apply (step_number _ _ _ _ _ k1 v1 Put run_freeze.2.1 run_freeze.2.2 two_in run_freeze.1
      3 run_n3.2.1 run_n3.2.2); [vm_compute; reflexivity.. | ok_run]. }
  eapply rtc_l; [flushes_by run_freeze.1 run_n3.2 run_plan; under_way |].
  eapply rtc_l; [flushes_by run_plan.1 run_plan.2 run_stage; under_way |].
  eapply rtc_l.
  { apply (step_log _ _ _ _ _ run_stage.2.1 run_stage.2.2 two_in write3 [] run_stage.1
      run_l3.2.1 run_l3.2.2); [turn | ok_run]. }
  eapply rtc_l; [| apply rtc_refl].
  flushes_by run_stage.1 run_l3.2 run_publish; under_way.
Qed.

Lemma reach_over : rtc ex_step (ex_state e0 w0 [] NoFlush) over.
Proof.
  etrans; [exact reach_busy |]. eapply rtc_l.
  { apply (step_show _ _ _ _ _ run_publish.2.1 run_publish.2.2 two_in write3 [] run_publish.1
      run_s3.2.1 run_s3.2.2); ok_run. }
  eapply rtc_l; [flushes_by run_publish.1 run_s3.2 run_load; under_way |].
  eapply rtc_l; [flushes_by run_load.1 run_load.2 run_swap; under_way |].
  eapply rtc_l; [flushes_by run_swap.1 run_swap.2 run_truncate; under_way |].
  eapply rtc_l; [flushes_by run_truncate.1 run_truncate.2 run_retire; under_way |].
  eapply rtc_l; [| apply rtc_refl].
  flushes_by run_retire.1 run_retire.2 run_end; under_way.
Qed.

Lemma concurrent_serializes_witness :
  running (COL := lake_columnar_laws) crc32_ieee ex_cfg run_end.2.1 run_end.2.2 [write1; write2; write3].
Proof.
  apply (concurrent_serializes crc32_ieee read_dir_keys head_bytes batch_bytes footer_bytes ex_cfg
    ex_assumptions [] e0 w0 over up0 reach_over); [by repeat constructor | vm_compute; reflexivity].
Defined.

(** The third write is logged and not yet in: the reader sees the second. *)
Definition run_r := get (T := MT) k1 run_publish.2.

Lemma concurrent_reads_witness : run_r.1 = Ok (Some v2) ∧ kv_of [write1; write2] !! k1 = Some v2.
Proof.
  assert (run_r.1 = Ok (Some v2)) as E by (vm_compute; reflexivity).
  split; [exact E |]. symmetry.
  apply (proj1 (concurrent_reads crc32_ieee read_dir_keys head_bytes batch_bytes footer_bytes ex_cfg
    ex_assumptions [] e0 w0 busy k1 (Ok (Some v2)) run_r.2 up0 reach_busy
    (eq_trans (f_equal (get k1) (eq_sym (surjective_pairing _)))
      (eq_trans (surjective_pairing run_r) (f_equal (λ r, (r, run_r.2)) E))))).
  reflexivity.
Defined.

(** And a crash keeps it. *)
Lemma concurrent_crash_safe_witness :
  durable (COL := lake_columnar_laws) crc32_ieee
    (mk_world (crash_at (λ _, 0%nat) (w_wal run_publish.2.2)) (mk_fs ∅ []) (w_lake run_publish.2.2))
    [write1; write2; write3].
Proof.
  apply (concurrent_crash_safe crc32_ieee read_dir_keys head_bytes batch_bytes footer_bytes ex_cfg
    ex_assumptions [] e0 w0 busy up0 reach_busy).
  split; [apply crash_at_crash | done].
Defined.

Lemma concurrent_flush_serves_witness :
  quiet (COL := lake_columnar_laws) (ex_flush_step run_publish.1 run_publish.2).2.2 ∧
  is_ok (ex_flush_step run_publish.1 run_publish.2).1 = true.
Proof.
  assert (ex_flush_step (c_flush busy) (c_engine busy, c_world busy)
    = ((ex_flush_step run_publish.1 run_publish.2).1, (ex_flush_step run_publish.1 run_publish.2).2)) as E.
  { unfold busy. cbn [c_flush c_engine c_world]. by rewrite <- !surjective_pairing. }
  destruct (concurrent_flush_serves crc32_ieee read_dir_keys head_bytes batch_bytes footer_bytes ex_cfg
    ex_assumptions [] e0 w0 busy _ _ up0 reach_busy ltac:(split_and!; vm_compute; reflexivity)
    ltac:(under_way) E) as (Q & p & -> & _).
  by split.
Defined.

(** * What is left out *)

(** Segments of 40 bytes: one of the long values fills one. *)
Definition small_cfg : Config :=
  mk_config (wal_dir ex_cfg) 40 (memtable_max_bytes ex_cfg) (max_frozen_memtables ex_cfg)
    (cfg_s3 ex_cfg) (cfg_catalog ex_cfg) (cfg_duckdb ex_cfg) (latency ex_cfg) (cache_bytes ex_cfg).
Abbreviation sm_open := (open (T := MT) (L := lake) crc32_ieee read_dir_keys small_cfg).
Abbreviation sm_put :=
  (put (T := MT) (L := lake) crc32_ieee head_bytes batch_bytes footer_bytes small_cfg).
Abbreviation sm_flush_write :=
  (flush_write (T := MT) (L := lake) head_bytes batch_bytes footer_bytes small_cfg).
Definition sm_start (w : world (L := lake)) : engine * world :=
  match sm_open (restarted w) with (Ok (Some e), w') => (e, w') | (_, w') => (blank, w') end.
(** The log's directory fails the third call from here: the write into a new segment. *)
Definition write_fails (st : engine (T := MT) (I := list (list row)) * world (L := lake)) :=
  (st.1, mk_world (mk_fs (fs_files (w_wal st.2)) [Works; Works; Fails 0]) (w_staging st.2) (w_lake st.2)).
Definition long : bytes := replicate 20 Byte.x41.
Definition k3 : bytes := [Byte.x63].

(** C25: a writer ahead of its turn can leave a segment whose name is used again. LSN 2
    is taken by a writer that is held up; the writer of LSN 3 starts segment 3 and fails,
    and the process restarts: segment 3 is empty, and the next LSN is 2 again. LSN 2 goes
    into segment 3 and fills it; a flush begins; LSN 3 starts a new segment, which is
    segment 3, sealed and active at once. The write is acknowledged, and readable. The
    flush, of LSN 2 only, deletes the sealed segment, and the acknowledged write with it. *)
Theorem late_rotation_reuses_segment :
  let '(r1, st) := sm_put k1 long (sm_start (world0 [])) in
  let '(r2, st) := fetch_add_lsn st in
  let '(r3, st) := fetch_add_lsn st in
  let '(r4, st) := ex_log (RecordModel.put k3 3 v2) (write_fails st) in
  let '(r5, st) := sm_put k2 long (sm_start st.2) in
  let '(r6, st) := on_memtables ms_freeze st in
  let '(r7, st) := sm_put k3 v2 st in
  match r6 with
  | Ok (Some frozen) =>
    let '(r8, st) := sm_flush_write None frozen 2 st in
    let '(r9, st) := get k3 st in
    r1 = Ok 1 ∧ r2 = Ok 2 ∧ r3 = Ok 3 ∧ is_ok r4 = false ∧ r5 = Ok 2 ∧ r7 = Ok 3 ∧
    r8 = Ok (Flushed_Committed 2 1) ∧ r9 = Ok (Some v2) ∧
    (get k3 (sm_start st.2)).1 = Ok None
  | _ => False
  end.
Proof. vm_compute. repeat split. Qed.

Abbreviation ex_flush_frozen :=
  (flush_frozen (T := MT) (L := lake) head_bytes batch_bytes footer_bytes ex_cfg).

(** C24: two flushes at once can lose an acknowledged write. Nothing orders them, and two
    memtables may be frozen: the flush of the younger one publishes first and truncates
    the log through its watermark; the flush of the older one then takes its memtable for
    already published and retires it unwritten. The write is gone from memory, files and
    log. *)
Theorem concurrent_flushes_lose_acked :
  let '(r1, st) := ex_put k1 v1 (e0, w0) in
  let '(f1, st) := on_memtables ms_freeze st in
  let '(r2, st) := ex_put k2 v2 st in
  let '(f2, st) := on_memtables ms_freeze st in
  match f1, f2 with
  | Ok (Some older), Ok (Some younger) =>
    let '(r3, st) := ex_flush_frozen None younger st in
    let '(r4, st) := get k1 st in
    let '(r5, st) := ex_flush_frozen None older st in
    let '(r6, st) := get k1 st in
    r1 = Ok 1 ∧ r2 = Ok 2 ∧ r3 = Ok (Flushed_Committed 2 1) ∧ r4 = Ok (Some v1) ∧
    r5 = Ok (Flushed_AlreadyPublished 1) ∧ r6 = Ok None ∧
    reopen_get k1 st.2 = Ok None ∧ reopen_get k2 st.2 = Ok (Some v2)
  | _, _ => False
  end.
Proof. vm_compute. repeat split. Qed.
