(* ===== verification/ConcurrentReads.v ===== *)
(** Reads that are not one step ([src/src/engine.rs]: [get]). A read looks at the memtables,
    takes the index of the moment, and reads the files of that index; writers, other readers
    and a flush go on between the three, and the flush may publish, swap the index and
    retire its memtable there. The answer is still the one of a single moment while the read
    was on its way, so what is proved of reads of one step holds of all. *)

From S2P Require Import Latency.
From S2P Require Import Prelude RecordModel Fs Instances Wal WalLemmas Memtable MemtableProps.
From S2P Require Import Flush FlushProps Columnar Engine EngineLemmas LakeModel EngineProps Concurrent.

Section reads.
Context {T : Type} {SM : SkipMap T} {SML : SkipMapLaws T}.
Context {L I : Type} {CO : Columnar L I} {read_parquet : bytes → option (list row)}.
Context {COL : ColumnarLaws L I read_parquet}.
Context (crc32_hash : bytes → Z) (read_dir : gmap string file → list string).
Context (parquet_head : list Field → bytes) (parquet_batch : RecordBatch → bytes).
Context (parquet_footer : list RecordBatch → bytes).
Context (cfg : Config).

Abbreviation state := (state (T := T) (L := L) (I := I)).
Abbreviation running := (running (T := T) (COL := COL) crc32_hash cfg).
Abbreviation quiet := (quiet (COL := COL)).
Abbreviation cstep := (cstep (T := T) (COL := COL) crc32_hash parquet_head parquet_batch parquet_footer cfg).
Abbreviation cinv := (cinv (T := T) (COL := COL) crc32_hash parquet_head parquet_batch parquet_footer cfg).
Abbreviation core := (core (T := T) (COL := COL) crc32_hash parquet_head parquet_batch parquet_footer cfg).
Abbreviation assumptions := (assumptions (read_parquet := read_parquet) crc32_hash read_dir
  parquet_head parquet_batch parquet_footer cfg).

(** * The read *)

(** [get] with its look at the memtables in [c1], its hold of the index in [c2] and its
    scan in [c3]. *)
Definition spread_get (k : bytes) (c1 c2 c3 : state) : result (option bytes) :=
  match ms_get k (en_memtables (c_engine c1)) with
  | Found v => Ok (Some v)
  | Deleted => Ok None
  | Missing => (read_files k (en_index (c_engine c2)) (c_engine c3, c_world c3)).1
  end.

(** All in one moment it is the read of [Engine.v]. *)
Lemma spread_get_at_once k c : spread_get k c c c = (get k (c_engine c, c_world c)).1.
Proof. unfold spread_get. rewrite get_is_steps. by destruct (ms_get k _). Qed.

(** * Indexes held *)

Lemma cinv_index hist0 c ws1 ifrs :
  cinv hist0 c ws1 ifrs → ∃ ifiles, co_index (w_lake (c_world c)) (en_index (c_engine c)) ifiles ∧
    Forall2 file_holds ifiles ifrs.
Proof.
  intros [(ws2 & logs & s & rs & files & frs & act & fro & base0 & pre & ifiles & C) _ _ _ _ _].
  destruct C as [_ _ _ _ _ _ _ [_ _ Hi Hr] _ _]. by exists ifiles.
Qed.

Lemma steps_keep_index (A : assumptions) hist0 c c' ws1 ifrs :
  cinv hist0 c ws1 ifrs → rtc cstep c c' → keeps_index (w_lake (c_world c)) (w_lake (c_world c')).
Proof.
  intros CI Hsteps. revert ws1 ifrs CI. induction Hsteps as [c|c1 c2 c3 Hs Hss IH]; intros ws1 ifrs CI.
  { by intros i fs. }
  destruct (cinv_step _ _ _ _ _ _ A _ _ _ _ _ Hs CI) as (ws1' & ifrs' & CI' & _ & Hk).
  intros i fs Hi. by apply (IH _ _ CI'), Hk.
Qed.

(** The index a reader took stays true of files of the lake, so it may be scanned at any
    later time: the condition of [step_scan] holds. *)
Lemma held_index (A : assumptions) hist0 e w c1 c2 :
  running e w hist0 → rtc cstep (mk_state e w [] NoFlush) c1 → rtc cstep c1 c2 →
  ∃ fs, co_index (w_lake (c_world c2)) (en_index (c_engine c1)) fs.
Proof.
  intros R H1 H2. destruct (cinv_reachable _ _ _ _ _ _ A _ _ _ _ R H1) as (ws1 & ifrs & CI).
  destruct (cinv_index _ _ _ _ CI) as (fs & Hi & _). exists fs. by apply (steps_keep_index A _ _ _ _ _ CI H2).
Qed.

(** * Moments *)

(** What a read of one step, of the memtables first, would have found of the key in some
    moment from [c1] to [c]. *)
Definition stood (hist0 : list record) (k : bytes) (c1 c : state) (o : option record) : Prop :=
  ∃ c', rtc cstep c1 c' ∧ rtc cstep c' c ∧ o = newest k (hist0 ++ visible (c_writes c')).

Lemma stood_later hist0 k c1 c c' o : rtc cstep c c' → stood hist0 k c1 c o → stood hist0 k c1 c' o.
Proof. intros H (c0 & H1 & H2 & ->). exists c0. split_and!; [done | by etrans | done]. Qed.
Lemma stood_now hist0 k c1 c : rtc cstep c1 c → stood hist0 k c1 c (newest k (hist0 ++ visible (c_writes c))).
Proof. intros H. by exists c. Qed.

(** When the memtables have no opinion, the key is where the index has it, and neither the
    frozen records nor the ones the next index adds have it. *)
Lemma missed hist0 c ws1 ifrs k :
  cinv hist0 c ws1 ifrs → ms_get k (en_memtables (c_engine c)) = Missing →
  newest k (hist0 ++ visible (c_writes c)) = first_hit k (reverse ifrs) ∧
  newest k (hist0 ++ ws1.*1) = first_hit k (reverse ifrs).
Proof.
  intros [(ws2 & logs & s & rs & files & frs & act & fro & base0 & pre & ifiles & C) Hincr _ _ _ _] Hm.
  pose proof C as [_ _ _ Hs _ _ _ [Hms _ _ _] Hb _]. specialize (Hb k).
  apply core_view in C as (_ & Ev & Hinc); [| done].
  rewrite (ms_get_holds _ _ _ _ Hms) in Hm. simpl in Hm.
  assert (newest k (pre ++ visible ws2) = None ∧ first_hit k (reverse fro) = None) as [Ha Hf].
  { destruct (newest k (pre ++ visible ws2)) as [r|]; [by simpl in Hm; destruct (op r) |].
    destruct (first_hit k (reverse fro)) as [r|]; [by simpl in Hm; destruct (op r) | done]. }
  rewrite first_hit_app, Hf in Hb. rewrite Hb, <- Ev, Hs, !newest_app, <- newest_app, Ha.
  rewrite newest_app in Ha. destruct (newest k pre), (newest k base0); try done;
    simpl in Ha; by destruct (newest k (visible ws2)) as [?|]; simpl in Ha; try case_match.
Qed.

(** What a reader who missed follows: the present index and the next one both answer with
    what stood at some moment since. *)
Lemma index_stood (A : assumptions) hist0 k c1 c2 ws1 ifrs :
  cinv hist0 c1 ws1 ifrs → ms_get k (en_memtables (c_engine c1)) = Missing → rtc cstep c1 c2 →
  ∃ ws1' ifrs', cinv hist0 c2 ws1' ifrs' ∧ stood hist0 k c1 c2 (newest k (hist0 ++ ws1'.*1)) ∧
    stood hist0 k c1 c2 (first_hit k (reverse ifrs')).
Proof.
  intros CI Hm Hsteps. destruct (missed _ _ _ _ _ CI Hm) as [E1 E2].
  revert c2 Hsteps. apply rtc_ind_r; [| intros c2 c3 Hsteps Hs (ws2 & ifrs2 & CI2 & S1 & S2)].
  - exists ws1, ifrs. split; [done |]. rewrite E2, <- E1. split; by apply stood_now.
  - destruct (cinv_step _ _ _ _ _ _ A _ _ _ _ _ Hs CI2) as (ws3 & ifrs3 & CI3 & [M1 M2] & _).
    assert (∀ o, stood hist0 k c1 c2 o → stood hist0 k c1 c3 o) as Hup
      by (intros o; apply stood_later; by apply rtc_once).
    exists ws3, ifrs3. split; [done |]. split.
    + destruct M1 as [->|[-> Hall]]; [by apply Hup |]. rewrite <- (visible_all _ Hall).
      apply Hup. by apply stood_now.
    + destruct M2 as [->|M2]; [by apply Hup |]. rewrite M2. by apply Hup.
Qed.

(** What was visible stays visible. *)
Lemma visible_step c c' : cstep c c' → sublist (visible (c_writes c)) (visible (c_writes c')).
Proof.
  destruct 1; cbn [c_writes]; rewrite ?visible_app, ?visible_cons; simpl; try done.
  - by apply sublist_inserts_r.
  - apply sublist_app; [done | by apply sublist_cons].
Qed.
Lemma visible_steps c c' : rtc cstep c c' → sublist (visible (c_writes c)) (visible (c_writes c')).
Proof. induction 1 as [|c1 c2 c3 Hs Hss IH]; [done |]. etrans; [by apply visible_step | done]. Qed.

(** * The property *)

(** C12: reads among concurrent writers and a flush are linearizable, in the interleavings
    of [cstep]: a flush freezes only when every write so far is visible, one flush runs at
    a time and none after one that failed, and a writer starts a new segment only when all
    lower numbers are in the log. (Otherwise acknowledged writes can be shadowed or gone:
    [late_lsn_shadows_newer], [late_write_dropped_by_flush],
    [concurrent_flushes_lose_acked].) A read looks at the memtables, takes the index and
    scans its files at three moments, with any such steps of writers, of other readers and
    of the flush in between. What it returns is what the writes
    visible at one moment between the first two give, the highest LSN winning: every write
    acknowledged before the read began counts, and no unlogged one does. That moment can be
    before the flush published what the read went on to find in a file, or after the flush
    retired what the read did not find in a memtable. While no call fails it returns. *)
Theorem spread_reads_linearize (A : assumptions) hist0 e w c1 c2 c3 k :
  running e w hist0 → rtc cstep (mk_state e w [] NoFlush) c1 → rtc cstep c1 c2 → rtc cstep c2 c3 →
  (∀ v, spread_get k c1 c2 c3 = Ok v →
    ∃ c, rtc cstep c1 c ∧ rtc cstep c c2 ∧ v = kv_of (hist0 ++ visible (c_writes c)) !! k ∧
      sublist (visible (c_writes c1)) (visible (c_writes c)) ∧
      sublist (visible (c_writes c)) (logged (c_writes c))) ∧
  (quiet (c_world c3) → is_ok (spread_get k c1 c2 c3) = true).
Proof.
  intros R H1 H2 H3. destruct (cinv_reachable _ _ _ _ _ _ A _ _ _ _ R H1) as (ws1 & ifrs & CI).
  assert (∀ c v, rtc cstep c1 c → rtc cstep c c2 → v = kv_of (hist0 ++ visible (c_writes c)) !! k →
    ∃ c, rtc cstep c1 c ∧ rtc cstep c c2 ∧ v = kv_of (hist0 ++ visible (c_writes c)) !! k ∧
      sublist (visible (c_writes c1)) (visible (c_writes c)) ∧
      sublist (visible (c_writes c)) (logged (c_writes c))) as Hat.
  { intros c v Ha Hb ->. exists c. split_and!; [done.. | by apply visible_steps | apply visible_sublist]. }
  assert (∀ v, spread_get k c1 c1 c1 = Ok v → v = kv_of (hist0 ++ visible (c_writes c1)) !! k) as Hnow.
  { intros v. rewrite spread_get_at_once. destruct c1 as [e1 w1 wr1 p1].
    destruct (get k (e1, w1)) as [r [e' w']] eqn:E. cbn [c_engine c_world fst]. rewrite E.
    eapply cinv_get in E as (_ & _ & Hv & _); [exact (Hv v) | exact CI]. }
  unfold spread_get in *. destruct (ms_get k (en_memtables (c_engine c1))) as [v0| |] eqn:Em; cycle 2.
  - destruct (index_stood A _ _ _ _ _ _ CI Em H2) as (ws2 & ifrs2 & CI2 & _ & c & Ha & Hb & Hc).
    destruct (cinv_index _ _ _ _ CI2) as (fs & Hi & Hr).
    apply (steps_keep_index A _ _ _ _ _ CI2 H3) in Hi.
    destruct (cinv_steps _ _ _ _ _ _ A _ _ _ _ _ H3 CI2) as (ws3 & ifrs3 & CI3).
    destruct (read_files k _ (c_engine c3, c_world c3)) as [r [e' w']] eqn:E. destruct c3 as [e3 w3 wr3 p3].
    eapply cinv_scan in E as (_ & _ & Hv & Hq); [| exact CI3 | exact Hi].
    split; [| exact Hq]. intros v Ev. apply (Hat c); [done.. |].
    rewrite (Hv v Ev), (files_get_holds k _ (reverse ifrs2)), Hc by (by apply Forall2_reverse).
    symmetry. apply kv_of_newest.
    destruct (cinv_steps _ _ _ _ _ _ A _ _ _ _ _ Ha CI) as (? & ? & CIc).
    eapply cinv_increasing; [exact CIc |]. etrans; [apply visible_sublist | apply logged_sublist].
  - split; [| done]. intros v [= <-]. by apply (Hat c1), Hnow.
  - split; [| done]. intros v [= <-]. by apply (Hat c1), Hnow.
Qed.
End reads.

(** * Example *)

(** The run of [Concurrent.v], with a reader of the key who looks at the memtables before
    it, and takes the index and scans after it. The reader finds the value of the second
    write, in the file of the flush: none was there when the read began, and the third
    write is there when it ends. *)
Definition begun : Concurrent.state := ex_state e0 w0 [] NoFlush.

Example spread_get_in_between :
  spread_get k1 begun begun begun = Ok None ∧ spread_get k1 begun over over = Ok (Some v2) ∧
  spread_get k1 over over over = Ok (Some v1).
Proof. vm_compute. by split_and!. Qed.

Lemma spread_reads_linearize_witness :
  ∃ c, rtc ex_step begun c ∧ rtc ex_step c over ∧ Some v2 = kv_of ([] ++ visible (c_writes c)) !! k1.
Proof.
  destruct (proj1 (spread_reads_linearize crc32_ieee read_dir_keys head_bytes batch_bytes footer_bytes ex_cfg
    ex_assumptions [] e0 w0 begun over over k1 up0 (rtc_refl _ _) reach_over (rtc_refl _ _))
    (Some v2)) as (c & Ha & Hb & Hv & _).
  - vm_compute. reflexivity.
  - exists c. split; [exact Ha | split; [exact Hb | exact Hv]].
Defined.
