(* ===== verification/Sbbf.v ===== *)
(** The published algorithms that [src/src/bloom.rs] ports, written down apart from the
    port: MurmurHash3_x86_32 (A. Appleby) and the split-block bloom filter of the Apache
    Parquet format. They are arithmetic on natural numbers modulo powers of two, with the
    published constants; nothing here is taken from [Bloom.v]. *)

From S2P Require Import Prelude Fs Instances.

(** * MurmurHash3_x86_32 *)

Definition mod32 (x : Z) : Z := x mod 2 ^ 32.

(** A 32-bit word turned left by [r] bits. *)
Definition rotl32 (x r : Z) : Z := mod32 (x * 2 ^ r) + x / 2 ^ (32 - r).

Definition mur_scramble (k : Z) : Z :=
  mod32 (rotl32 (mod32 (k * 0xcc9e2d51)) 15 * 0x1b873593).

(** The body, four bytes at a time, and what is left of the key. *)
Fixpoint mur_body (h : Z) (key : bytes) : Z * bytes :=
  match key with
  | a :: b :: c :: d :: key =>
    let k := byte_val a + 2 ^ 8 * byte_val b + 2 ^ 16 * byte_val c + 2 ^ 24 * byte_val d in
    mur_body (mod32 (rotl32 (Z.lxor h (mur_scramble k)) 13 * 5 + 0xe6546b64)) key
  | tail => (h, tail)
  end.

(** The last bytes, fewer than four. *)
Definition mur_tail (h : Z) (tail : bytes) : Z :=
  match tail with
  | [] => h
  | _ => Z.lxor h (mur_scramble (from_le tail))
  end.

(** The finalisation mix. *)
Definition mur_fmix (h : Z) : Z :=
  let h := mod32 (Z.lxor h (h / 2 ^ 16) * 0x85ebca6b) in
  let h := mod32 (Z.lxor h (h / 2 ^ 13) * 0xc2b2ae35) in
  Z.lxor h (h / 2 ^ 16).

Definition murmur3 (key : bytes) (seed : Z) : Z :=
  let '(h, tail) := mur_body seed key in
  mur_fmix (Z.lxor (mur_tail h tail) (mod32 (zlen key))).

(** Published hashes of texts, the two seeds of the port among them. *)
Example murmur3_published :
  (λ '(s, seed), murmur3 (str_bytes s) seed) <$>
    [("", 0); ("", 1); ("", 0xffffffff); ("test", 0); ("Hello, world!", 0);
     ("The quick brown fox jumps over the lazy dog", 0);
     ("", 0x9747b28c); ("test", 0x9747b28c); ("Hello, world!", 0x9747b28c);
     ("The quick brown fox jumps over the lazy dog", 0x9747b28c)]%string =
    [0; 0x514e28b7; 0x81f16f39; 0xba6bd213; 0xc0363e43; 0x2e4ff723;
     0xebb6c228; 0x704b81dc; 0x24884cba; 0x2fa826cd].
Proof. vm_compute. reflexivity. Qed.

(** * The split-block filter *)

(** Eight salts, one for each word of a block. *)
Definition sbbf_salts : list Z :=
  [0x47b6137b; 0x44974d91; 0x8824ad5b; 0xa2b7289d; 0x705495c7; 0x2df1424c; 0x9efc4947; 0x5c6bfb31].

(** The block of a hash among [n], from its upper half: a product of 64 bits. *)
Definition sbbf_block (hi n : Z) : Z := (hi * n) mod 2 ^ 64 / 2 ^ 32.
(** The bit of a hash in a word, from its lower half: the top five bits of a product. *)
Definition sbbf_bit (lo salt : Z) : Z := mod32 (lo * salt) / 2 ^ 27.

(** All eight bits of a key are set. The halves of its hash are two hashes with the seeds
    of the catalog's filters. *)
Definition sbbf_contains (words : list Z) (n : Z) (key : bytes) : bool :=
  let block := sbbf_block (murmur3 key 0) n in
  let lo := murmur3 key 0x9747b28c in
  forallb (λ '(i, salt),
      match words !! Z.to_nat (8 * block + i) with
      | Some w => Z.testbit w (sbbf_bit lo salt)
      | None => false
      end)
    (zip [0; 1; 2; 3; 4; 5; 6; 7] sbbf_salts).
