(* ===== verification/Bloom.v ===== *)
(** [src/src/bloom.rs]: the catalog's bloom filter, probed in memory.

    A word is a [Z] below 2^32 with the wrap-around of [u32] and [u64] written
    out. Indexing the words can panic: [might_contain] is [None] where it would.
    [base64] is third-party code and a parameter. [Sbbf.v] has the published hash and
    filter, which this is proved to be. *)

From S2P Require Import Prelude Fs Instances Sbbf.

Definition SBBF_SALT : list Z :=
  [0x47b6137b; 0x44974d91; 0x8824ad5b; 0xa2b7289d; 0x705495c7; 0x2df1424c; 0x9efc4947; 0x5c6bfb31].

Definition WORDS_PER_BLOCK : Z := 8.
Definition BYTES_PER_BLOCK : Z := WORDS_PER_BLOCK * 4.

Record CatalogBloom : Type := mk_bloom { words : list Z; num_blocks : Z }.

#[export] Instance CatalogBloom_eq_dec : EqDecision CatalogBloom.
Proof. solve_decision. Defined.

(** * Words *)

Definition wrapping_mul (a b : Z) : Z := as_u32 (a * b).
Definition wrapping_add (a b : Z) : Z := as_u32 (a + b).
Definition rotate_left (x n : Z) : Z := Z.lor (as_u32 (Z.shiftl x n)) (Z.shiftr x (32 - n)).

(** * Hashing *)

Definition C1 : Z := 0xcc9e2d51.
Definition C2 : Z := 0x1b873593.

Definition mix_k1 (k1 : Z) : Z :=
  let k1 := wrapping_mul k1 C1 in
  let k1 := rotate_left k1 15 in
  wrapping_mul k1 C2.

(** The loop over whole words: [n] of them are left. *)
Fixpoint murmur3_blocks (n : nat) (data : bytes) (h1 : Z) : Z :=
  match n with
  | O => h1
  | S n =>
    let k1 := mix_k1 (from_le (take 4 data)) in
    let h1 := Z.lxor h1 k1 in
    let h1 := rotate_left h1 13 in
    let h1 := wrapping_add (wrapping_mul h1 5) 0xe6546b64 in
    murmur3_blocks n (drop 4 data) h1
  end.

Definition tail_byte (tail : bytes) (i : nat) : Z := byte_val (default Byte.x00 (tail !! i)).

Definition murmur3_x86_32 (data : bytes) (seed : Z) : Z :=
  let nblocks := zlen data / 4 in
  let h1 := murmur3_blocks (Z.to_nat nblocks) data seed in
  let tail := drop (Z.to_nat (nblocks * 4)) data in
  let rem := Z.land (zlen data) 3 in
  let k1 := 0 in
  let k1 := if rem =? 3 then Z.lxor k1 (Z.shiftl (tail_byte tail 2) 16) else k1 in
  let k1 := if 2 <=? rem then Z.lxor k1 (Z.shiftl (tail_byte tail 1) 8) else k1 in
  let h1 := if 1 <=? rem then Z.lxor h1 (mix_k1 (Z.lxor k1 (tail_byte tail 0))) else h1 in
  let h1 := Z.lxor h1 (as_u32 (zlen data)) in
  let h1 := Z.lxor h1 (Z.shiftr h1 16) in
  let h1 := wrapping_mul h1 0x85ebca6b in
  let h1 := Z.lxor h1 (Z.shiftr h1 13) in
  let h1 := wrapping_mul h1 0xc2b2ae35 in
  Z.lxor h1 (Z.shiftr h1 16).

Definition hash64 (key : bytes) : Z :=
  let hi := murmur3_x86_32 key 0 in
  let lo := murmur3_x86_32 key 0x9747b28c in
  Z.lor (as_u64 (Z.shiftl hi 32)) lo.

Definition block_index (hash n : Z) : Z := Z.shiftr (as_u64 (Z.shiftr hash 32 * n)) 32.

Definition mask_word (key salt : Z) : Z := as_u32 (Z.shiftl 1 (Z.shiftr (wrapping_mul key salt) 27)).
Definition compute_mask (key : Z) : list Z := mask_word key <$> SBBF_SALT.

(** * Probing *)

(** The loop of [might_contain] over the words from [base] on. *)
Fixpoint probe (ws : list Z) (base : nat) (mask : list Z) : option bool :=
  match mask with
  | [] => Some true
  | m :: mask =>
    match ws !! base with
    | None => None
    | Some w => if Z.land w m =? m then probe ws (S base) mask else Some false
    end
  end.

Definition might_contain (b : CatalogBloom) (key : bytes) : option bool :=
  let hash := hash64 key in
  let block := block_index hash (num_blocks b) in
  let mask := compute_mask (as_u32 hash) in
  probe (words b) (Z.to_nat (block * WORDS_PER_BLOCK)) mask.

(** * Parsing *)

(** [chunks_exact(4)] as little-endian words. *)
Fixpoint le_words (n : nat) (l : bytes) : list Z :=
  match n with
  | O => []
  | S n => from_le (take 4 l) :: le_words n (drop 4 l)
  end.

Section parse.
Context (base64_decode : string → option bytes).

Definition from_base64 (b64 : string) : option CatalogBloom :=
  match base64_decode b64 with
  | None => None
  | Some bs =>
    if (zlen bs =? 0) || negb (zlen bs mod BYTES_PER_BLOCK =? 0) then None
    else Some (mk_bloom (le_words (Z.to_nat (zlen bs / 4)) bs) (zlen bs / BYTES_PER_BLOCK))
  end.
End parse.

(** Every block is there. *)
Definition bloom_wf (b : CatalogBloom) : Prop :=
  0 < num_blocks b ∧ zlen (words b) = num_blocks b * WORDS_PER_BLOCK.

#[global] Arguments hash64 : simpl never.
#[global] Arguments block_index : simpl never.
#[global] Arguments compute_mask : simpl never.

(** * Lemmas *)

Lemma lxor_u32 a b : is_u32 a → is_u32 b → is_u32 (Z.lxor a b).
Proof.
  unfold is_u32. intros Ha Hb. split; [apply Z.lxor_nonneg; split; lia |].
  destruct (Z.eq_dec (Z.lxor a b) 0) as [->|Hne]; [lia |].
  apply Z.log2_lt_pow2; [pose proof (proj2 (Z.lxor_nonneg a b)); lia |].
  pose proof (Z.log2_lxor a b ltac:(lia) ltac:(lia)).
  assert (∀ x, 0 ≤ x < 2 ^ 32 → Z.log2 x < 32) as Hl.
  { intros x Hx. destruct (Z.eq_dec x 0) as [->|]; [done |]. apply Z.log2_lt_pow2; lia. }
  specialize (Hl a Ha) as La. specialize (Hl b Hb) as Lb. lia.
Qed.

Lemma lor_bound n a b : 0 < n → 0 ≤ a < 2 ^ n → 0 ≤ b < 2 ^ n → 0 ≤ Z.lor a b < 2 ^ n.
Proof.
  intros Hn Ha Hb. split; [apply Z.lor_nonneg; split; lia |].
  destruct (Z.eq_dec (Z.lor a b) 0) as [->|Hne]; [lia |].
  apply Z.log2_lt_pow2; [pose proof (proj2 (Z.lor_nonneg a b)); lia |].
  rewrite Z.log2_lor by lia.
  assert (∀ x, 0 ≤ x < 2 ^ n → Z.log2 x < n) as Hl.
  { intros x Hx. destruct (Z.eq_dec x 0) as [->|]; [done |]. apply Z.log2_lt_pow2; lia. }
  specialize (Hl a Ha) as La. specialize (Hl b Hb) as Lb. lia.
Qed.

Lemma as_u32_u32 z : is_u32 (as_u32 z).
Proof. apply Z.mod_pos_bound. lia. Qed.

Lemma shiftr_u32 z n : 0 ≤ n → is_u32 z → is_u32 (Z.shiftr z n).
Proof.
  unfold is_u32. intros Hn Hz. rewrite Z.shiftr_div_pow2 by done.
  assert (0 < 2 ^ n) by (apply Z.pow_pos_nonneg; lia).
  split; [apply Z.div_pos; lia |]. apply Z.div_lt_upper_bound; nia.
Qed.

Lemma murmur3_u32 data seed : is_u32 (murmur3_x86_32 data seed).
Proof.
  unfold murmur3_x86_32. apply lxor_u32; [apply as_u32_u32 |].
  apply shiftr_u32; [lia | apply as_u32_u32].
Qed.

Lemma hash64_u64 key : is_u64 (hash64 key).
Proof.
  unfold hash64, is_u64. apply lor_bound; [lia | apply Z.mod_pos_bound; lia |].
  pose proof (murmur3_u32 key 0x9747b28c) as [? ?]. lia.
Qed.

(** The block is one of the filter's, also where the product wraps. *)
Lemma block_index_range hash n : is_u64 hash → 0 < n → 0 ≤ block_index hash n < n.
Proof.
  unfold is_u64, block_index, as_u64. intros Hh Hn.
  rewrite !Z.shiftr_div_pow2 by lia. set (h := hash / 2 ^ 32).
  assert (0 ≤ h < 2 ^ 32) as Hr.
  { unfold h. split; [apply Z.div_pos; lia | apply Z.div_lt_upper_bound; lia]. }
  pose proof (Z.mod_pos_bound (h * n) (2 ^ 64) ltac:(lia)) as Hm.
  split; [apply Z.div_pos; lia |].
  destruct (Z_lt_le_dec n (2 ^ 32)) as [Hlt|Hge].
  - rewrite Z.mod_small by nia. apply Z.div_lt_upper_bound; nia.
  - apply Z.lt_le_trans with (2 ^ 32); [| lia]. apply Z.div_lt_upper_bound; lia.
Qed.

Lemma length_mask key : length (compute_mask key) = 8%nat.
Proof. done. Qed.

Lemma probe_total ws base mask :
  (base + length mask ≤ length ws)%nat → ∃ r, probe ws base mask = Some r.
Proof.
  revert base. induction mask as [|m mask IH]; intros base Hlen; simpl in *; [eauto |].
  destruct (lookup_lt_is_Some_2 ws base) as [w ->]; [lia |].
  destruct (Z.land w m =? m); [| eauto]. apply IH. lia.
Qed.

Lemma block_in_bounds b key :
  bloom_wf b →
  (Z.to_nat (block_index (hash64 key) (num_blocks b) * WORDS_PER_BLOCK) + 8 ≤ length (words b))%nat.
Proof.
  intros [Hn Hlen]. pose proof (block_index_range _ _ (hash64_u64 key) Hn).
  unfold zlen, WORDS_PER_BLOCK in *. lia.
Qed.

(** ** The port's words against plain arithmetic *)

Lemma land_apart a b n : 0 ≤ n → 0 ≤ b < 2 ^ n → Z.land (a * 2 ^ n) b = 0.
Proof.
  intros Hn Hb. apply Z.bits_inj'. intros i Hi. rewrite Z.land_spec, Z.bits_0.
  destruct (Z_lt_le_dec i n) as [Hlt|Hge].
  - by rewrite Z.mul_pow2_bits_low.
  - by rewrite (proj1 (Z.bounded_iff_bits_nonneg' n b Hn ltac:(lia)) Hb i Hge), andb_false_r.
Qed.

(** Shifted words do not overlap: [^], [|] and [+] agree on them. *)
Lemma lxor_apart a b n : 0 ≤ n → 0 ≤ b < 2 ^ n → Z.lxor (Z.shiftl a n) b = b + 2 ^ n * a.
Proof.
  intros Hn Hb. pose proof (land_apart a b n Hn Hb) as E.
  rewrite Z.shiftl_mul_pow2 by done. rewrite Z.lxor_lor, <- Z.add_nocarry_lor by done. lia.
Qed.
Lemma lor_apart a b n : 0 ≤ n → 0 ≤ b < 2 ^ n → Z.lor (a * 2 ^ n) b = a * 2 ^ n + b.
Proof.
  intros Hn Hb. by rewrite <- Z.add_nocarry_lor by by apply land_apart.
Qed.

Lemma mod32_shift x n : 0 ≤ n ≤ 32 → (x * 2 ^ n) mod 2 ^ 32 = x mod 2 ^ (32 - n) * 2 ^ n.
Proof.
  intros Hn. rewrite Z.mul_comm.
  replace (2 ^ 32) with (2 ^ n * 2 ^ (32 - n)) by (rewrite <- Z.pow_add_r; [f_equal; lia | lia | lia]).
  rewrite Z.mul_mod_distr_l; [lia | |]; apply Z.pow_nonzero; lia.
Qed.

Lemma rotate_left_rotl x n : is_u32 x → 0 ≤ n ≤ 32 → rotate_left x n = rotl32 x n.
Proof.
  intros [Hx0 Hx] Hn. unfold rotate_left, rotl32, as_u32, mod32.
  rewrite Z.shiftl_mul_pow2, Z.shiftr_div_pow2 by lia.
  rewrite mod32_shift by done. apply lor_apart; [lia |].
  assert (0 < 2 ^ (32 - n)) by (apply Z.pow_pos_nonneg; lia).
  split; [apply Z.div_pos; lia |]. apply Z.div_lt_upper_bound; [done |].
  rewrite <- Z.pow_add_r by lia. by replace (32 - n + n) with 32 by lia.
Qed.

Lemma mix_k1_scramble k : mix_k1 k = mur_scramble k.
Proof.
  unfold mix_k1, mur_scramble. by rewrite rotate_left_rotl by (apply as_u32_u32 || lia).
Qed.
Lemma mix_k1_u32 k : is_u32 (mix_k1 k).
Proof. apply as_u32_u32. Qed.

(** ** The hash *)

Lemma blocks_body n : ∀ key h,
  is_u32 h → (length key / 4 = n)%nat →
  mur_body h key = (murmur3_blocks n key h, drop (n * 4) key).
Proof.
  induction n as [|n IH]; intros key h Hh Hn.
  - assert (length key < 4)%nat as Hl by (apply Nat.div_small_iff in Hn; lia).
    destruct key as [|? [|? [|? [|]]]]; simpl in Hl; (done || lia).
  - assert (4 <= length key)%nat as Hl.
    { destruct (le_lt_dec 4 (length key)) as [|Hlt]; [done |].
      apply Nat.div_small in Hlt. lia. }
    destruct key as [|a [|b [|c [|d key]]]]; simpl in Hl; try lia.
    assert (length key / 4 = n)%nat as Hk.
    { change (length (a :: b :: c :: d :: key)) with (1 * 4 + length key)%nat in Hn.
      rewrite Nat.div_add_l in Hn by lia. lia. }
    cbn [mur_body murmur3_blocks Nat.mul Nat.add drop take].
    assert (from_le [a; b; c; d] = byte_val a + 2 ^ 8 * byte_val b + 2 ^ 16 * byte_val c + 2 ^ 24 * byte_val d)
      as <- by (unfold from_le; lia).
    rewrite <- mix_k1_scramble. unfold mod32.
    rewrite <- rotate_left_rotl; [| apply lxor_u32; [done | apply mix_k1_u32] | lia].
    rewrite IH; [| apply as_u32_u32 | exact Hk].
    unfold wrapping_add, wrapping_mul, as_u32. by rewrite Z.add_mod_idemp_l.
Qed.

Lemma tail_mixed h tail :
  (length tail < 4)%nat →
  (let rem := zlen tail in
   let k1 := 0 in
   let k1 := if rem =? 3 then Z.lxor k1 (Z.shiftl (tail_byte tail 2) 16) else k1 in
   let k1 := if 2 <=? rem then Z.lxor k1 (Z.shiftl (tail_byte tail 1) 8) else k1 in
   if 1 <=? rem then Z.lxor h (mix_k1 (Z.lxor k1 (tail_byte tail 0))) else h) = mur_tail h tail.
Proof.
  intros Hl. destruct tail as [|a [|b [|c [|]]]]; simpl in Hl; [done | | | | lia];
    cbv zeta; unfold mur_tail; rewrite <- mix_k1_scramble; unfold tail_byte; simpl; do 2 f_equal;
    unfold from_le; rewrite Z.lxor_0_l; pose proof (byte_val_range a).
  - lia.
  - pose proof (byte_val_range b). rewrite lxor_apart; lia.
  - pose proof (byte_val_range b). pose proof (byte_val_range c).
    rewrite Z.lxor_assoc, (lxor_apart (byte_val b)), lxor_apart; lia.
Qed.

Lemma murmur3_reference key seed : is_u32 seed → murmur3_x86_32 key seed = murmur3 key seed.
Proof.
  intros Hs. unfold murmur3_x86_32, murmur3, mur_fmix.
  assert (zlen key / 4 = Z.of_nat (length key / 4)) as Eq by (unfold zlen; by rewrite Nat2Z.inj_div).
  assert (Z.to_nat (zlen key / 4) = length key / 4)%nat as En by lia.
  assert (Z.to_nat (zlen key / 4 * 4) = length key / 4 * 4)%nat as Ed by lia.
  set (tail := drop (length key / 4 * 4) key).
  assert (zlen tail = Z.land (zlen key) 3 ∧ (length tail < 4)%nat) as [Er Hl].
  { change 3 with (Z.ones 2). rewrite Z.land_ones by lia. change (2 ^ 2) with 4.
    pose proof (Z.div_mod (zlen key) 4 ltac:(lia)). pose proof (Z.mod_pos_bound (zlen key) 4 ltac:(lia)).
    assert (zlen tail = zlen key mod 4) as E.
    { unfold tail. rewrite zlen_drop, Nat2Z.inj_mul, <- Eq. lia. }
    split; [exact E |]. unfold zlen in *. lia. }
  rewrite En, Ed, (blocks_body _ key seed Hs eq_refl). fold tail. rewrite <- Er.
  rewrite <- (tail_mixed _ tail Hl). cbv zeta. unfold wrapping_mul, mod32, as_u32.
  by rewrite !Z.shiftr_div_pow2 by lia.
Qed.

Lemma hash64_halves key :
  Z.shiftr (hash64 key) 32 = murmur3 key 0 ∧ as_u32 (hash64 key) = murmur3 key 0x9747b28c.
Proof.
  unfold hash64. rewrite !murmur3_reference by (split; [done | reflexivity]).
  pose proof (murmur3_u32 key 0) as Hi. pose proof (murmur3_u32 key 0x9747b28c) as Lo.
  rewrite !murmur3_reference in * by (split; [done | reflexivity]).
  unfold is_u32, as_u32, as_u64 in *. rewrite Z.shiftl_mul_pow2, Z.shiftr_div_pow2 by lia.
  rewrite Z.mod_small by lia. rewrite lor_apart by lia.
  split; [rewrite Z.div_add_l by lia; rewrite Z.div_small by lia; lia |].
  rewrite Z.add_comm, Z.mod_add by lia. by apply Z.mod_small.
Qed.

(** ** The probe *)

Lemma sbbf_bit_range lo salt : 0 ≤ sbbf_bit lo salt < 32.
Proof.
  unfold sbbf_bit, mod32. pose proof (Z.mod_pos_bound (lo * salt) (2 ^ 32) ltac:(lia)).
  split; [apply Z.div_pos; lia | apply Z.div_lt_upper_bound; lia].
Qed.

Lemma mask_word_bit lo salt : mask_word lo salt = 2 ^ sbbf_bit lo salt.
Proof.
  pose proof (sbbf_bit_range lo salt) as [Hb0 Hb]. unfold mask_word, as_u32, wrapping_mul.
  rewrite Z.shiftr_div_pow2 by lia. change ((as_u32 (lo * salt)) / 2 ^ 27) with (sbbf_bit lo salt).
  rewrite Z.shiftl_mul_pow2, Z.mul_1_l by done. apply Z.mod_small.
  split; [apply Z.pow_nonneg; lia | by apply Z.pow_lt_mono_r].
Qed.

(** [w & mask != mask] tests one bit. *)
Lemma land_bit w k : 0 ≤ k → (Z.land w (2 ^ k) =? 2 ^ k) = Z.testbit w k.
Proof.
  intros Hk. assert (Z.land w (2 ^ k) = if Z.testbit w k then 2 ^ k else 0) as ->.
  { apply Z.bits_inj'. intros i _. rewrite Z.land_spec, Z.pow2_bits_eqb by done.
    destruct (Z.eqb_spec k i) as [->|Hne].
    - destruct (Z.testbit w i); [by rewrite Z.pow2_bits_true | by rewrite Z.bits_0].
    - rewrite andb_false_r. by destruct (Z.testbit w k); rewrite ?Z.pow2_bits_false, ?Z.bits_0. }
  assert (0 < 2 ^ k) by (apply Z.pow_pos_nonneg; lia).
  destruct (Z.testbit w k); [apply Z.eqb_refl | apply Z.eqb_neq; lia].
Qed.

Lemma probe_bits ws lo B salts : ∀ j,
  0 ≤ B → 0 ≤ j → (Z.to_nat (B + j) + length salts ≤ length ws)%nat →
  probe ws (Z.to_nat (B + j)) (mask_word lo <$> salts) =
    Some (forallb (λ '(i, salt),
            match ws !! Z.to_nat (B + i) with
            | Some w => Z.testbit w (sbbf_bit lo salt)
            | None => false
            end) (zip (seqZ j (zlen salts)) salts)).
Proof.
  induction salts as [|salt salts IH]; intros j HB Hj Hlen; [done |]. simpl in Hlen.
  assert (seqZ j (zlen (salt :: salts)) = j :: seqZ (Z.succ j) (zlen salts)) as ->.
  { rewrite seqZ_cons by (unfold zlen; simpl; lia). do 2 f_equal. unfold zlen. simpl. lia. }
  cbn [fmap list_fmap probe zip forallb].
  destruct (lookup_lt_is_Some_2 ws (Z.to_nat (B + j))) as [w Hw]; [lia |]. simpl. rewrite Hw.
  rewrite mask_word_bit, land_bit by apply sbbf_bit_range.
  destruct (Z.testbit w _); [| done]. simpl.
  replace (S (Z.to_nat (B + j))) with (Z.to_nat (B + Z.succ j)) by lia.
  apply IH; lia.
Qed.

Lemma might_contain_sbbf b key :
  bloom_wf b → might_contain b key = Some (sbbf_contains (words b) (num_blocks b) key).
Proof.
  intros Hb. pose proof (block_in_bounds b key Hb) as Hin.
  destruct (hash64_halves key) as [Ehi Elo].
  pose proof (block_index_range _ _ (hash64_u64 key) (proj1 Hb)) as Hr.
  unfold might_contain, sbbf_contains. rewrite <- Ehi, <- Elo.
  assert (sbbf_block (Z.shiftr (hash64 key) 32) (num_blocks b) = block_index (hash64 key) (num_blocks b))
    as -> by (unfold block_index, as_u64, sbbf_block; by rewrite (Z.shiftr_div_pow2 (_ mod _)) by lia).
  set (base := block_index _ _) in *. unfold WORDS_PER_BLOCK in *. rewrite (Z.mul_comm base 8).
  unfold compute_mask. rewrite <- (Z.add_0_r (8 * base)) at 1.
  rewrite (probe_bits (words b) (as_u32 (hash64 key)) (8 * base) SBBF_SALT 0); [done | lia | lia |].
  rewrite Z.add_0_r, (Z.mul_comm 8). exact Hin.
Qed.

Lemma length_le_words n l : length (le_words n l) = n.
Proof. revert l. induction n; intros; simpl; [done |]. by rewrite IHn. Qed.

Lemma from_base64_wf base64_decode s b : from_base64 base64_decode s = Some b → bloom_wf b.
Proof.
  unfold from_base64. destruct (base64_decode s) as [bs|]; [| done].
  destruct (_ || _) eqn:E; [done |]. intros [= <-]. apply orb_false_iff in E as [E1 E2].
  apply negb_false_iff in E2. zbool. pose proof (zlen_nonneg bs) as Hz.
  unfold BYTES_PER_BLOCK, WORDS_PER_BLOCK in *. change (8 * 4) with 32 in *.
  pose proof (Z.div_mod (zlen bs) 32 ltac:(lia)) as Hd.
  split; simpl; [lia |]. unfold zlen at 1. rewrite length_le_words. unfold WORDS_PER_BLOCK.
  change (8 * 4) with 32.
  assert (zlen bs / 4 = zlen bs / 32 * 8) as ->; [| rewrite Z2Nat.id; lia].
  symmetry. apply (Z.div_unique _ _ _ 0); lia.
Qed.

Lemma parsed_probe base64_decode s b key :
  from_base64 base64_decode s = Some b → ∃ answer, might_contain b key = Some answer.
Proof.
  intros Hb%from_base64_wf. apply probe_total. rewrite length_mask. by apply block_in_bounds.
Qed.

(** * Properties *)

(** C26: a filter that parses can be probed for any key: the words indexed are
    there, so the probe does not panic, also where the block product wraps. *)
Theorem probe_never_panics base64_decode s b key :
  from_base64 base64_decode s = Some b → ∃ answer, might_contain b key = Some answer.
Proof. apply parsed_probe. Qed.

(** C28: the port is the published filter. On every filter of whole blocks and every
    key, [might_contain] answers what the split-block filter of the Parquet format
    answers with MurmurHash3_x86_32 as its hash, both written down independently in
    [Sbbf.v]: the same block, the same eight bits, the same hash for keys of every
    length. So a key whose bits the writer set is never dismissed. *)
Theorem probe_reference b key :
  bloom_wf b → might_contain b key = Some (sbbf_contains (words b) (num_blocks b) key).
Proof. apply might_contain_sbbf. Qed.

(** * Examples *)

(** The blob of the source's test, written by the DuckLake fork for the keys k1 to
    k100. *)
Definition FORK_BLOB : string := "Nnn6cNXytKRuV6bgWYZPLIshG5s5hjmq3LyWWSp/syXHTLa/r4Y72DeHHRsUtcXOlHN+8trY8uc/prMqtLPI+71l3dz4vf1sa357MjIX1Xw4xdbev/khnOmmlunb2MPLRnbGb925l03TboOqozd8Ng9nN0/5b5KTNTZvKUwrnmc=".

Definition test_key (i : Z) : bytes := str_bytes ("k" +:+ show_u64 i).
Definition test_keys (from : Z) (n : nat) : list bytes :=
  (λ i, test_key (from + Z.of_nat i)) <$> seq 0 n.

Definition fork_bloom : CatalogBloom :=
  default (mk_bloom [] 0) (from_base64 base64_standard FORK_BLOB).

(** The port agrees with the writer: the blob the fork wrote for k1 to k100
    parses to four blocks, every one of the hundred keys probes present, and of a
    thousand keys it never saw at least 950 are dismissed. Malformed blobs are no
    filter. *)
Theorem fork_blob_probes :
  num_blocks fork_bloom = 4 ∧ zlen (words fork_bloom) = 32 ∧
  forallb (λ k, bool_decide (might_contain fork_bloom k = Some true)) (test_keys 1 100) = true ∧
  950 < zlen (base.filter (λ k, might_contain fork_bloom k = Some false)
                (test_keys 100000 1000)) ∧
  from_base64 base64_standard "not valid base64 !!!" = None ∧
  from_base64 base64_standard "YWJj" = None.
Proof. vm_compute. repeat split. Qed.

Lemma probe_never_panics_witness : ∃ answer, might_contain fork_bloom (test_key 7) = Some answer.
Proof.
  apply (probe_never_panics base64_standard FORK_BLOB fork_bloom (test_key 7)).
  vm_compute. reflexivity.
Defined.

Lemma probe_reference_witness :
  bloom_wf fork_bloom ∧ sbbf_contains (words fork_bloom) (num_blocks fork_bloom) (test_key 7) = true ∧
  might_contain fork_bloom (test_key 7) = Some true.
Proof.
  assert (bloom_wf fork_bloom) as Hb by (split; vm_compute; reflexivity).
  split; [exact Hb |]. split; [vm_compute; reflexivity |].
  rewrite (probe_reference fork_bloom (test_key 7) Hb). vm_compute. reflexivity.
Defined.
