(* ===== verification/Catalog.v ===== *)
(** [src/src/catalog.rs]: the DuckLake catalog as the engine reads it.

    The tables of the catalog are lists of rows; the order of a list stands for
    the order Postgres returns rows in, so a theorem about every catalog is one
    about every order. A query can fail: a schedule says which ones do. The cast
    [::BIGINT] of a text is Postgres's and a parameter. *)

From S2P Require Import Prelude RecordModel Fs Memtable Flush.

(** * Tables *)

Record table_row : Type := mk_table_row {
  t_id : Z; t_schema_id : Z; t_name : string; t_path : string; t_end : option Z;
}.
Record schema_row : Type := mk_schema_row {
  sc_id : Z; sc_name : string; sc_path : string; sc_end : option Z;
}.
Record column_row : Type := mk_column_row {
  c_id : Z; c_table : Z; c_name : string; c_type : string; c_order : Z; c_end : option Z;
}.
Record file_row : Type := mk_file_row {
  f_id : Z; f_table : Z; f_path : string; f_size : Z; f_count : Z; f_end : option Z;
}.
Record stats_row : Type := mk_stats_row {
  s_file : Z; s_table : Z; s_column : Z; s_min : option string; s_max : option string;
}.
Record bloom_row : Type := mk_bloom_row { b_file : Z; b_column : Z; b_bloom : option string }.

Record catalog : Type := mk_catalog {
  ducklake_table : list table_row;
  ducklake_schema : list schema_row;
  ducklake_column : list column_row;
  ducklake_data_file : list file_row;
  ducklake_file_column_stats : list stats_row;
  ducklake_file_column_blooms : list bloom_row;
}.

(** The database: the catalog, and for each of the next queries whether it fails. *)
Record pg : Type := mk_pg { pg_catalog : catalog; pg_faults : list bool }.

Definition pg_error : Error := Postgres "query failed".

(** [client.query(...)]: [f] is the query on the catalog. *)
Definition query {A} (f : catalog → result A) : M pg A := λ d,
  match pg_faults d with
  | true :: q => (Err pg_error, mk_pg (pg_catalog d) q)
  | false :: q => (f (pg_catalog d), mk_pg (pg_catalog d) q)
  | [] => (f (pg_catalog d), d)
  end.

(** * [DuckLake] *)

Record DuckLake : Type := mk_ducklake { table_id : Z; bucket : string; key_prefix : string }.

Definition is_live (e : option Z) : bool := match e with None => true | Some _ => false end.

(** The rows of the join of [resolve_table]. *)
Definition table_rows (schema table : string) (c : catalog) : list (Z * string * string) :=
  t ← ducklake_table c;
  s ← base.filter (λ s, sc_id s = t_schema_id t) (ducklake_schema c);
  if bool_decide (t_name t = table) && bool_decide (sc_name s = schema) &&
     is_live (t_end t) && is_live (sc_end s)
  then [(t_id t, sc_path s, t_path t)] else [].

(** [query_opt]: at most one row, or an error. *)
Definition at_most_one {A} (rows : list A) : result (option A) :=
  match rows with [] => Ok None | [r] => Ok (Some r) | _ => Err pg_error end.

Definition resolve_table (schema table : string) : M pg (option (Z * string * string)) :=
  query (λ c, at_most_one (table_rows schema table c)).

Definition split_data_path (data_path : string) : result (string * string) :=
  match strip_prefix "s3://" data_path with
  | None => Err (Config ("DATA_PATH must be an s3:// URL, got " +:+ debug_str data_path))
  | Some rest => Ok (default (rest, empty_str) (split_once slash rest))
  end.

Definition column_rows (table : Z) (c : catalog) : list (Z * string * string) :=
  (λ r, (c_id r, c_name r, c_type r)) <$>
    sort_by (λ a b, c_order a <=? c_order b)
      (base.filter (λ r, c_table r = table ∧ is_live (c_end r) = true) (ducklake_column c)).

(** The loop of [verify_columns] over the rows zipped with the expected columns. *)
Fixpoint check_columns (rows expected : list (Z * string * string)) : result unit :=
  match rows, expected with
  | (got_id, got_name, got_ty) :: rows, (id, name, ty) :: expected =>
    if bool_decide (got_id = id) && bool_decide (got_name = name) && bool_decide (got_ty = ty)
    then check_columns rows expected
    else Err (Config ("column mismatch: catalog has (" +:+ show_i64 got_id +:+ ", " +:+ got_name +:+
      ", " +:+ got_ty +:+ "), engine expects (" +:+ show_i64 id +:+ ", " +:+ name +:+ ", " +:+ ty +:+ ")"))
  | _, _ => Ok tt
  end.

Definition verify_columns (lake : DuckLake) : M pg unit :=
  rows ← query (λ c, Ok (column_rows (table_id lake) c));
  if negb (zlen rows =? zlen EXPECTED_COLUMNS)
  then m_err (Config ("catalog has " +:+ show_u64 (zlen rows) +:+ " columns, engine expects " +:+
         show_u64 (zlen EXPECTED_COLUMNS)))
  else m_lift (check_columns rows EXPECTED_COLUMNS).

Definition table_missing (cfg : CatalogConfig) : Error :=
  Config ("table " +:+ cat_schema cfg +:+ "." +:+ cat_table cfg +:+
    " not found in the DuckLake catalog — bootstrap it with the forked duckdb binary first").

(** [connect], the connection itself included: it is the first call that can fail. *)
Definition connect (cfg : CatalogConfig) : M pg DuckLake :=
  _ ← query (λ _, Ok tt);
  row ← resolve_table (cat_schema cfg) (cat_table cfg);
  '(table_id, schema_sub, table_sub) ← m_lift (ok_or row (table_missing cfg));
  '(bucket, data_prefix) ← m_lift (split_data_path (data_path cfg));
  let lake := mk_ducklake table_id bucket (data_prefix +:+ schema_sub +:+ table_sub) in
  _ ← verify_columns lake;
  mret lake.

(** [bootstrap]'s script. *)
Definition bootstrap_script (duckdb : DuckDbConfig) (cfg : CatalogConfig) (s3 : S3Config) : string :=
  attach_preamble cfg s3 +:+
  "CREATE TABLE IF NOT EXISTS lake." +:+ cat_schema cfg +:+ "." +:+ cat_table cfg +:+
  "(pk BLOB, lsn BIGINT, op INTEGER, value BLOB);" +:+ nl +:+
  "CALL lake.set_option('parquet_row_group_size', '" +:+ show_u64 (row_group_size duckdb) +:+
  "', table_name => '" +:+ cat_table cfg +:+ "');" +:+ nl +:+
  (if catalog_blooms duckdb
   then "CALL lake.set_option('bloom_filter_columns', 'pk', table_name => '" +:+
        cat_table cfg +:+ "');" +:+ nl
   else empty_str).

Section watermark.
Context (pg_bigint : string → option Z).

(** The rows of the query of [published_watermark]. *)
Definition lsn_stats (lake : DuckLake) (c : catalog) : list stats_row :=
  s ← base.filter (λ s, s_table s = table_id lake ∧ s_column s = FIELD_ID_LSN)
        (ducklake_file_column_stats c);
  f ← base.filter (λ f, f_id f = s_file s ∧ is_live (f_end f) = true) (ducklake_data_file c);
  [s].

(** [MAX(x::BIGINT)]: NULLs are skipped, a text that is no number fails the query. *)
Fixpoint max_bigint (xs : list (option string)) : result (option Z) :=
  match xs with
  | [] => Ok None
  | None :: xs => max_bigint xs
  | Some x :: xs =>
    n ← ok_or (pg_bigint x) pg_error;
    m ← max_bigint xs;
    mret (Some (match m with Some m => n `max` m | None => n end))
  end.

Definition published_watermark (lake : DuckLake) : M pg Lsn :=
  watermark ← query (λ c, default 0 <$> max_bigint (s_max <$> lsn_stats lake c));
  mret (as_u64 watermark).
End watermark.
