(* ===== verification/Index.v ===== *)
(** [src/src/index.rs]: the file index, the in-memory table of contents of the
    columnar level.

    [hex::decode], [base64] and [object_store::path::Path::from] are third-party
    code and parameters. Reading a NULL statistic as a [String] panics: that is
    [None] below. *)

From S2P Require Import Prelude RecordModel Fs Memtable Flush Catalog Bloom.

Record FileEntry : Type := mk_file_entry {
  location : string;
  fe_watermark : Lsn;
  pk_min : bytes;
  pk_max : bytes;
  file_size : Z;
  record_count : Z;
  bloom : option CatalogBloom;
}.

#[export] Instance FileEntry_eq_dec : EqDecision FileEntry.
Proof. solve_decision. Defined.

Definition may_contain (e : FileEntry) (key : bytes) : bool :=
  bytes_leb (pk_min e) key && bytes_leb key (pk_max e).

(** [None] is a panic of the probe. *)
Definition bloom_may_contain (e : FileEntry) (key : bytes) : option bool :=
  match bloom e with None => Some true | Some b => might_contain b key end.

Definition object_path {P} (path_from : string → P) (e : FileEntry) (bucket : string) : P :=
  let prefix := "s3://" +:+ bucket +:+ "/" in
  path_from (trim_start_matches "/" (default (location e) (strip_prefix prefix (location e)))).

(** [FileIndex] is its entries. *)
Definition FileIndex : Type := list FileEntry.

Definition candidates (index : FileIndex) (key : bytes) : list FileEntry :=
  base.filter (λ e, may_contain e key = true) index.

Definition index_watermark (index : FileIndex) : Lsn :=
  match index with [] => 0 | e :: _ => fe_watermark e end.

(** [len] and [is_empty]. *)
Definition index_len (index : FileIndex) : Z := zlen index.
Definition index_is_empty (index : FileIndex) : bool := match index with [] => true | _ :: _ => false end.

Section load.
(** [hex::decode]: the bytes, or the text of its error. *)
Context (hex_decode : string → bytes + string) (base64_decode : string → option bytes).

Definition decode_hex (s what : string) : result bytes :=
  match hex_decode s with
  | inl bs => Ok bs
  | inr e => Err (Config (what +:+ " is not valid hex (" +:+ debug_str s +:+ "): " +:+ e))
  end.

(** The rows of the query of [load]: a live file of the table with its [pk] and
    [lsn] statistics and its bloom, if it has one. *)
Definition index_rows (lake : DuckLake) (c : catalog) :
    list (file_row * stats_row * stats_row * option string) :=
  f ← base.filter (λ f, f_table f = table_id lake ∧ is_live (f_end f) = true) (ducklake_data_file c);
  pk ← base.filter (λ s, s_file s = f_id f ∧ s_column s = FIELD_ID_PK) (ducklake_file_column_stats c);
  l ← base.filter (λ s, s_file s = f_id f ∧ s_column s = FIELD_ID_LSN) (ducklake_file_column_stats c);
  b ← (match base.filter (λ b, b_file b = f_id f ∧ b_column b = FIELD_ID_PK)
               (ducklake_file_column_blooms c) with
       | [] => [None]
       | bs => b_bloom <$> bs
       end);
  [(f, pk, l, b)].

(** One turn of the loop of [load]. *)
Definition load_row (lake : DuckLake) (x : file_row * stats_row * stats_row * option string) :
    option (result FileEntry) :=
  let '(f, pk, l, bloom_b64) := x in
  pk_min_hex ← s_min pk;
  pk_max_hex ← s_max pk;
  lsn_max_str ← s_max l;
  Some (
    pk_min ← decode_hex pk_min_hex "pk min";
    pk_max ← decode_hex pk_max_hex "pk max";
    watermark ← ok_or (parse_u64 lsn_max_str)
                  (Config ("lsn max stat is not an integer: " +:+ debug_str lsn_max_str));
    mret (mk_file_entry (key_prefix lake +:+ f_path f) watermark pk_min pk_max
            (as_u64 (f_size f)) (as_u64 (f_count f))
            (match bloom_b64 with Some b => from_base64 base64_decode b | None => None end))).

Fixpoint load_rows (lake : DuckLake) (rows : list (file_row * stats_row * stats_row * option string)) :
    option (result (list FileEntry)) :=
  match rows with
  | [] => Some (Ok [])
  | x :: rows =>
    match load_row lake x with
    | None => None
    | Some (Err e) => Some (Err e)
    | Some (Ok e) =>
      match load_rows lake rows with
      | Some (Ok es) => Some (Ok (e :: es))
      | other => other
      end
    end
  end.

(** Newest first. *)
Definition newest_first (a b : FileEntry) : bool := fe_watermark b <=? fe_watermark a.

Definition load (lake : DuckLake) : M pg (option FileIndex) :=
  rows ← query (λ c, Ok (index_rows lake c));
  match load_rows lake rows with
  | None => mret None
  | Some (Err e) => m_err e
  | Some (Ok entries) => mret (Some (sort_by newest_first entries))
  end.
End load.
