(* ===== verification/IndexProps.v ===== *)
(** The properties of the file index ([src/src/index.rs]) and of the watermark query
    ([src/src/catalog.rs]): two readings of one catalog that have to agree. *)

From Stdlib Require Import Ascii.
From S2P Require Import Prelude RecordModel Fs Instances Memtable Flush Catalog Bloom Index.

(** * The largest of a list of LSNs *)

Definition max_of (l : list Z) : Z := foldr Z.max 0 l.

Lemma max_of_ge l x : x ∈ l → x ≤ max_of l.
Proof. induction 1; simpl; lia. Qed.

Lemma max_of_elem l : max_of l = 0 ∨ max_of l ∈ l.
Proof.
  induction l as [|x l IH]; simpl; [by left |]. rewrite elem_of_cons.
  destruct (Z.max_spec x (max_of l)) as [[_ ->]|[_ ->]]; [| by right; left].
  destruct IH as [IH|IH]; auto.
Qed.

Lemma max_of_nonneg l : 0 ≤ max_of l.
Proof. induction l; simpl; lia. Qed.

Lemma max_of_least l m : 0 ≤ m → (∀ x, x ∈ l → x ≤ m) → max_of l ≤ m.
Proof. intros Hm H. destruct (max_of_elem l) as [->|Hin]; [done | by apply H]. Qed.

(** The maximum of a list depends on its elements only. *)
Lemma max_of_ext l k : (∀ x, x ∈ l ↔ x ∈ k) → max_of l = max_of k.
Proof.
  intros H. apply Z.le_antisymm; (apply max_of_least; [apply max_of_nonneg |]);
    intros x Hx; apply max_of_ge, H, Hx.
Qed.

(** * Sorting *)

Lemma newest_first_total a b : newest_first a b = true ∨ newest_first b a = true.
Proof. unfold newest_first. lia. Qed.

Lemma newest_first_trans a b c :
  newest_first a b = true → newest_first b c = true → newest_first a c = true.
Proof. unfold newest_first. lia. Qed.

Definition sorted_newest_first (index : FileIndex) : Prop :=
  StronglySorted (λ a b, fe_watermark b ≤ fe_watermark a) index.

Lemma sort_newest_first es : sorted_newest_first (sort_by newest_first es).
Proof.
  pose proof (sort_by_sorted newest_first newest_first_total newest_first_trans es) as H.
  induction H as [|x l H IH Hx]; constructor; [done |].
  eapply Forall_impl; [exact Hx |]. unfold newest_first. lia.
Qed.

Lemma index_watermark_max es :
  Forall (λ e, 0 ≤ fe_watermark e) es →
  index_watermark (sort_by newest_first es) = max_of (fe_watermark <$> es).
Proof.
  intros H0. rewrite (max_of_ext _ (fe_watermark <$> sort_by newest_first es)).
  2: { intros x. by rewrite (sort_by_perm newest_first es). }
  rewrite <- (sort_by_perm newest_first es) in H0.
  destruct (sort_newest_first es) as [|e l Hl He]; [done |]. simpl.
  apply Forall_cons in H0 as [He0 _].
  rewrite Z.max_l; [done |]. apply max_of_least; [done |].
  intros x (e' & -> & He')%list_elem_of_fmap. rewrite Forall_forall in He. by apply He.
Qed.

(** * The rows *)

Lemma Forall2_elem_l {A B} (R : A → B → Prop) l k x :
  Forall2 R l k → x ∈ l → ∃ y, y ∈ k ∧ R x y.
Proof.
  intros H Hx. apply list_elem_of_lookup in Hx as [i Hx].
  destruct (Forall2_lookup_l _ _ _ _ _ H Hx) as (y & Hy & HR).
  exists y. split; [by eapply list_elem_of_lookup_2 | done].
Qed.

Lemma Forall2_elem_r {A B} (R : A → B → Prop) l k y :
  Forall2 R l k → y ∈ k → ∃ x, x ∈ l ∧ R x y.
Proof. intros H%Forall2_flip. by apply (Forall2_elem_l (flip R)). Qed.

Section load.
Context (hex_decode : string → bytes + string) (base64_decode : string → option bytes).
Context (pg_bigint : string → option Z) (lake : DuckLake) (c : catalog).

Abbreviation load_row := (load_row hex_decode base64_decode lake).
Abbreviation load_rows := (load_rows hex_decode base64_decode lake).

(** Postgres reads a decimal text in the range of [BIGINT] as the engine does. *)
Definition bigint_decimal : Prop :=
  ∀ x n, parse_u64 x = Some n → n < 2 ^ 63 → pg_bigint x = Some n.

(** What DuckLake keeps of the statistics of live files: they carry the file's table
    id, a file of the table that has statistics of [lsn] has those of [pk], and an
    [lsn] is in the range of its column. *)
Record catalog_wf : Prop := {
  wf_table f s : f ∈ ducklake_data_file c → s ∈ ducklake_file_column_stats c →
    is_live (f_end f) = true → s_file s = f_id f → s_table s = f_table f;
  wf_pk f s : f ∈ ducklake_data_file c → s ∈ ducklake_file_column_stats c →
    f_table f = table_id lake → is_live (f_end f) = true → s_file s = f_id f →
    s_column s = FIELD_ID_LSN →
    ∃ s', s' ∈ ducklake_file_column_stats c ∧ s_file s' = f_id f ∧ s_column s' = FIELD_ID_PK;
  wf_lsn s x n : s ∈ ducklake_file_column_stats c → s_table s = table_id lake →
    s_column s = FIELD_ID_LSN → s_max s = Some x → parse_u64 x = Some n → n < 2 ^ 63;
}.

(** The columns of every row are there and are what the loader expects. *)
Definition rows_loadable : Prop :=
  Forall (λ x, ∃ e, load_row x = Some (Ok e)) (index_rows lake c).

Lemma load_rows_ok rows :
  Forall (λ x, ∃ e, load_row x = Some (Ok e)) rows →
  ∃ es, load_rows rows = Some (Ok es) ∧ Forall2 (λ x e, load_row x = Some (Ok e)) rows es.
Proof.
  induction 1 as [|x rows [e He] _ (es & Hes & H2)]; simpl; [by exists [] |].
  rewrite He, Hes. exists (e :: es). by repeat constructor.
Qed.

Lemma load_row_watermark f pk l b e :
  load_row (f, pk, l, b) = Some (Ok e) →
  ∃ x, s_max l = Some x ∧ parse_u64 x = Some (fe_watermark e).
Proof.
  unfold Index.load_row. intros H.
  destruct (s_min pk); [| done]. destruct (s_max pk); [| done]. simpl in H.
  destruct (s_max l) as [x|]; [| done]. simpl in H. exists x. split; [done |].
  injection H as H. destruct (decode_hex hex_decode _ "pk min"); [| done]. simpl in H.
  destruct (decode_hex hex_decode _ "pk max"); [| done]. simpl in H.
  destruct (parse_u64 x); [| done]. by injection H as <-.
Qed.

Lemma index_row_elem f pk l b :
  (f, pk, l, b) ∈ index_rows lake c →
  f ∈ ducklake_data_file c ∧ f_table f = table_id lake ∧ is_live (f_end f) = true ∧
  l ∈ ducklake_file_column_stats c ∧ s_file l = f_id f ∧ s_column l = FIELD_ID_LSN.
Proof.
  unfold index_rows. intros H.
  apply list_elem_of_bind in H as (f' & H & [[Ht Hlive] Hf]%list_elem_of_filter).
  apply list_elem_of_bind in H as (pk' & H & _).
  apply list_elem_of_bind in H as (l' & H & [[Hfile Hcol] Hl]%list_elem_of_filter).
  apply list_elem_of_bind in H as (b' & H & _).
  by apply list_elem_of_singleton in H as [= -> -> -> ->].
Qed.

(** A row of [lsn] statistics the watermark query reads is in a row of the index. *)
Lemma lsn_stats_index s :
  catalog_wf → s ∈ lsn_stats lake c → ∃ f pk b, (f, pk, s, b) ∈ index_rows lake c.
Proof.
  intros Hwf H. unfold lsn_stats in H.
  apply list_elem_of_bind in H as (s' & H & [[Ht Hcol] Hs]%list_elem_of_filter).
  apply list_elem_of_bind in H as (f & H & [[Hfile Hlive] Hf]%list_elem_of_filter).
  apply list_elem_of_singleton in H as ->.
  pose proof (wf_table Hwf f s' Hf Hs Hlive (eq_sym Hfile)) as Htab.
  destruct (wf_pk Hwf f s') as (pk & Hpk & Hpf & Hpc); try done; [congruence |].
  set (bs := base.filter (λ b, b_file b = f_id f ∧ b_column b = FIELD_ID_PK)
               (ducklake_file_column_blooms c)).
  assert (∃ b, b ∈ match bs with [] => [None] | b :: l => b_bloom <$> b :: l end) as [b Hb].
  { destruct bs as [|b bs]; eexists; left. }
  exists f, pk, b. unfold index_rows.
  apply list_elem_of_bind. exists f. split; [| apply list_elem_of_filter; split; [split; congruence | done]].
  apply list_elem_of_bind. exists pk. split; [| by apply list_elem_of_filter].
  apply list_elem_of_bind. exists s'. split; [| by apply list_elem_of_filter].
  apply list_elem_of_bind. exists b. split; [by apply list_elem_of_singleton | exact Hb].
Qed.

Lemma index_lsn_stats f pk l b :
  catalog_wf → (f, pk, l, b) ∈ index_rows lake c → l ∈ lsn_stats lake c.
Proof.
  intros Hwf (Hf & Ht & Hlive & Hl & Hfile & Hcol)%index_row_elem.
  pose proof (wf_table Hwf f l Hf Hl Hlive Hfile) as Htab.
  unfold lsn_stats. apply list_elem_of_bind. exists l.
  split; [| apply list_elem_of_filter; split; [split; congruence | done]].
  apply list_elem_of_bind. exists f. split; [by left |]. by apply list_elem_of_filter.
Qed.

(** [MAX] over statistics that are all decimals in range. *)
Lemma max_bigint_ok (ss : list stats_row) ns :
  Forall2 (λ s n, ∃ x, s_max s = Some x ∧ pg_bigint x = Some n ∧ 0 ≤ n) ss ns →
  ∃ m, max_bigint pg_bigint (s_max <$> ss) = Ok m ∧ default 0 m = max_of ns ∧
       (∀ n, m = Some n → 0 ≤ n).
Proof.
  induction 1 as [|s n ss ns (x & Hx & Hn & H0) _ (m & Hm & Hd & Hp)]; [by eexists |].
  rewrite fmap_cons, Hx. cbn [max_bigint]. rewrite Hn, Hm. simpl.
  eexists. split; [done |]. rewrite <- Hd. destruct m as [m|]; simpl.
  - split; [done |]. intros ? [= <-]. lia.
  - split; [lia |]. intros ? [= <-]. lia.
Qed.

Lemma lsn_stats_values :
  catalog_wf → bigint_decimal → rows_loadable →
  ∃ ns, Forall2 (λ s n, ∃ x, s_max s = Some x ∧ pg_bigint x = Some n ∧ 0 ≤ n) (lsn_stats lake c) ns ∧
        Forall2 (λ s n, (s_max s ≫= parse_u64) = Some n ∧ n < 2 ^ 63) (lsn_stats lake c) ns.
Proof.
  intros Hwf Hbig Hload.
  assert (∀ s, s ∈ lsn_stats lake c → ∃ x n, s_max s = Some x ∧ parse_u64 x = Some n ∧ n < 2 ^ 63) as H.
  { intros s Hs. destruct (lsn_stats_index s Hwf Hs) as (f & pk & b & Hin).
    unfold rows_loadable in Hload. rewrite Forall_forall in Hload.
    destruct (Hload _ Hin) as [e (x & Hx & Hp)%load_row_watermark].
    apply index_row_elem in Hin as (Hf & Ht & Hlive & Hs' & Hfile & Hcol).
    exists x, (fe_watermark e). split_and!; [done | done |].
    eapply (wf_lsn Hwf s x); [done | | done..]. by rewrite (wf_table Hwf f s). }
  induction (lsn_stats lake c) as [|s ss IH]; [by exists [] |].
  destruct IH as (ns & H1 & H2); [by intros s' ?; apply H; right |].
  destruct (H s) as (x & n & Hx & Hp & Hn); [by left |].
  exists (n :: ns). split; constructor; try done.
  - exists x. split_and!; [done | by apply Hbig | by eapply parse_u64_nonneg].
  - by rewrite Hx.
Qed.

(** The LSNs the index holds are those the statistics hold. *)
Lemma watermarks_agree es ns :
  catalog_wf →
  Forall2 (λ x e, load_row x = Some (Ok e)) (index_rows lake c) es →
  Forall2 (λ s n, (s_max s ≫= parse_u64) = Some n ∧ n < 2 ^ 63) (lsn_stats lake c) ns →
  ∀ n, n ∈ fe_watermark <$> es ↔ n ∈ ns.
Proof.
  intros Hwf Hes Hns n. split.
  - intros (e & -> & He)%list_elem_of_fmap.
    destruct (Forall2_elem_r _ _ _ _ Hes He) as ([[[f pk] l] b] & Hin & Hrow).
    apply load_row_watermark in Hrow as (x & Hx & Hp).
    apply (index_lsn_stats _ _ _ _ Hwf) in Hin.
    destruct (Forall2_elem_l _ _ _ _ Hns Hin) as (n & Hn & Hv & _).
    rewrite Hx in Hv. simpl in Hv. rewrite Hp in Hv. by injection Hv as ->.
  - intros Hn. destruct (Forall2_elem_r _ _ _ _ Hns Hn) as (s & Hs & Hv & _).
    destruct (lsn_stats_index s Hwf Hs) as (f & pk & b & Hin).
    destruct (Forall2_elem_l _ _ _ _ Hes Hin) as (e & He & Hrow).
    apply load_row_watermark in Hrow as (x & Hx & Hp). rewrite Hx in Hv. simpl in Hv.
    apply list_elem_of_fmap. exists e. split; [congruence | done].
Qed.

Lemma es_nonneg rows es :
  Forall2 (λ x e, load_row x = Some (Ok e)) rows es → Forall (λ e, 0 ≤ fe_watermark e) es.
Proof.
  induction 1 as [|[[[f pk] l] b] e rows es Hr _ IH]; constructor; [| done].
  apply load_row_watermark in Hr as (x & _ & Hp). by eapply parse_u64_nonneg.
Qed.

Lemma ns_bounded (ss : list stats_row) ns :
  Forall2 (λ s n, (s_max s ≫= parse_u64) = Some n ∧ n < 2 ^ 63) ss ns → max_of ns < 2 ^ 63.
Proof. induction 1 as [|s n ss ns [_ Hn] _ IH]; simpl; lia. Qed.

(** The index and the watermark query agree. On a well-formed catalog whose rows
    decode, [load] returns an index that holds exactly the entries of the live files'
    rows, newest first, and the watermark of that index is the one
    [published_watermark] returns: the boundary the recovery filters the log by and
    the boundary the read path serves from are the same LSN. *)
Theorem load_newest_first :
  catalog_wf → bigint_decimal → rows_loadable →
  ∃ index, load hex_decode base64_decode lake (mk_pg c []) = (Ok (Some index), mk_pg c []) ∧
    sorted_newest_first index ∧
    (∀ e, e ∈ index ↔ ∃ x, x ∈ index_rows lake c ∧ load_row x = Some (Ok e)) ∧
    published_watermark pg_bigint lake (mk_pg c []) = (Ok (index_watermark index), mk_pg c []).
Proof.
  intros Hwf Hbig Hload. destruct (load_rows_ok _ Hload) as (es & Hes & H2).
  exists (sort_by newest_first es). split_and!.
  - unfold load, mbind, m_bind, query. cbn -[index_rows Index.load_rows]. by rewrite Hes.
  - apply sort_newest_first.
  - intros e. rewrite (sort_by_perm newest_first es). split.
    + intros He. destruct (Forall2_elem_r _ _ _ _ H2 He) as (x & ? & ?); eauto.
    + intros (x & Hx & Hr). destruct (Forall2_elem_l _ _ _ _ H2 Hx) as (e' & He' & Hr').
      rewrite Hr in Hr'. by injection Hr' as ->.
  - destruct (lsn_stats_values Hwf Hbig Hload) as (ns & Hn1 & Hn2).
    destruct (max_bigint_ok _ _ Hn1) as (m & Hm & Hd & _).
    unfold published_watermark, mbind, m_bind, query. cbn -[lsn_stats max_bigint fmap list_fmap].
    rewrite Hm. cbn -[as_u64]. rewrite Hd.
    rewrite index_watermark_max; [| by eapply es_nonneg].
    rewrite (max_of_ext (fe_watermark <$> es) ns) by (by apply watermarks_agree).
    unfold mret, m_ret, as_u64. do 2 f_equal. apply Z.mod_small.
    split; [apply max_of_nonneg |]. apply Z.lt_le_trans with (2 ^ 63); [| done].
    by eapply ns_bounded.
Qed.
End load.

(** * Example: two live files, one that was replaced *)

(** [hex::decode]: pairs of hex digits of either case. *)
Definition hex_digit (c : ascii) : option Z :=
  let n := Z.of_N (N_of_ascii c) in
  if (48 <=? n) && (n <=? 57) then Some (n - 48)
  else if (97 <=? n) && (n <=? 102) then Some (n - 87)
  else if (65 <=? n) && (n <=? 70) then Some (n - 55)
  else None.
Fixpoint hex_pairs (l : list ascii) : option bytes :=
  match l with
  | [] => Some []
  | [_] => None
  | a :: b :: l =>
    x ← hex_digit a; y ← hex_digit b; bs ← hex_pairs l; Some (byte_of (16 * x + y) :: bs)
  end.
Definition hex_std (s : string) : bytes + string :=
  match hex_pairs (list_of_str s) with Some bs => inl bs | None => inr "invalid hex" end.

Definition lake1 : DuckLake := mk_ducklake 1 "b" "data/".

Definition catalog1 : catalog :=
  mk_catalog [] [] []
    [mk_file_row 10 1 "f10" 100 3 None; mk_file_row 11 1 "f11" 200 2 (Some 4);
     mk_file_row 12 1 "f12" 300 5 None]
    [mk_stats_row 10 1 1 (Some "61") (Some "6D"); mk_stats_row 10 1 2 (Some "1") (Some "3");
     mk_stats_row 11 1 1 (Some "61") (Some "7a"); mk_stats_row 11 1 2 (Some "2") (Some "99");
     mk_stats_row 12 1 1 (Some "70") (Some "7a"); mk_stats_row 12 1 2 (Some "4") (Some "8")]
    [mk_bloom_row 12 1 None].

Lemma catalog1_wf : catalog_wf lake1 catalog1.
Proof.
  split.
  - intros f s Hf Hs _ _.
    assert (Forall (λ f, f_table f = 1) (ducklake_data_file catalog1)) as H1 by by repeat constructor.
    assert (Forall (λ s, s_table s = 1) (ducklake_file_column_stats catalog1)) as H2
      by by repeat constructor.
    rewrite Forall_forall in H1. rewrite Forall_forall in H2. by rewrite (H1 f Hf), (H2 s Hs).
  - intros f s Hf _ _ _ _ _.
    assert (Forall (λ f, ∃ s', s' ∈ ducklake_file_column_stats catalog1 ∧ s_file s' = f_id f ∧
              s_column s' = FIELD_ID_PK) (ducklake_data_file catalog1)) as H.
    { repeat constructor.
      - exists (mk_stats_row 10 1 1 (Some "61") (Some "6D")). split; [| done]. by left.
      - exists (mk_stats_row 11 1 1 (Some "61") (Some "7a")). split; [| done]. do 2 right. by left.
      - exists (mk_stats_row 12 1 1 (Some "70") (Some "7a")). split; [| done]. do 4 right. by left. }
    rewrite Forall_forall in H. by apply H.
  - intros s x n Hs _ _ Hx Hn.
    assert (Forall (λ s, match s_max s ≫= parse_u64 with Some n => n < 2 ^ 63 | None => True end)
              (ducklake_file_column_stats catalog1)) as H by by repeat constructor.
    rewrite Forall_forall in H. specialize (H s Hs). rewrite Hx in H. simpl in H. by rewrite Hn in H.
Qed.

Lemma load_newest_first_witness :
  (load hex_std base64_standard lake1 (mk_pg catalog1 [])).1 =
    Ok (Some [mk_file_entry "data/f12" 8 [Byte.x70] [Byte.x7a] 300 5 None;
              mk_file_entry "data/f10" 3 [Byte.x61] [Byte.x6d] 100 3 None]) ∧
  ∃ index, load hex_std base64_standard lake1 (mk_pg catalog1 []) = (Ok (Some index), mk_pg catalog1 []) ∧
    sorted_newest_first index ∧
    (∀ e, e ∈ index ↔ ∃ x, x ∈ index_rows lake1 catalog1 ∧
       load_row hex_std base64_standard lake1 x = Some (Ok e)) ∧
    published_watermark parse_u64 lake1 (mk_pg catalog1 []) =
      (Ok (index_watermark index), mk_pg catalog1 []).
Proof.
  split; [vm_compute; reflexivity |].
  apply (load_newest_first hex_std base64_standard parse_u64 lake1 catalog1 catalog1_wf).
  - intros x n Hp _. exact Hp.
  - repeat (constructor; [eexists; vm_compute; reflexivity |]). constructor.
Defined.
