(* ===== verification/Cache.v ===== *)
(** [src/src/cache.rs]: the bytes-bounded LRU over ranges of Parquet objects, the
    footer cache and the range fetcher in front of the object store.

    The [HashMap] and the [BTreeMap] of the source are finite maps; the first key
    of the [BTreeMap] is the least. Each method holds the cache's lock, so it is
    one step. The object store is a parameter. *)

From S2P Require Import Prelude.

Record Key : Type := mk_key { k_path : string; k_start : Z; k_end : Z }.

#[export] Instance Key_eq_dec : EqDecision Key.
Proof. solve_decision. Defined.
#[export] Program Instance Key_countable : Countable Key :=
  inj_countable' (λ k, (k_path k, k_start k, k_end k)) (λ '(p, s, e), mk_key p s e) _.
Next Obligation. by intros []. Qed.

Record CacheStats : Type := mk_stats {
  hits : Z; misses : Z; bytes_fetched : Z; evictions : Z;
}.

(** [ByteCache] with its [Inner]. *)
Record ByteCache : Type := mk_cache {
  entries : gmap Key (bytes * Z);
  by_recency : gmap Z Key;
  resident : Z;
  tick : Z;
  max_bytes : Z;
  stats : CacheStats;
}.

Definition count_hit (s : CacheStats) : CacheStats :=
  mk_stats (as_u64 (hits s + 1)) (misses s) (bytes_fetched s) (evictions s).
Definition count_miss (s : CacheStats) : CacheStats :=
  mk_stats (hits s) (as_u64 (misses s + 1)) (bytes_fetched s) (evictions s).
Definition count_fetched (n : Z) (s : CacheStats) : CacheStats :=
  mk_stats (hits s) (misses s) (as_u64 (bytes_fetched s + n)) (evictions s).
Definition count_eviction (s : CacheStats) : CacheStats :=
  mk_stats (hits s) (misses s) (bytes_fetched s) (as_u64 (evictions s + 1)).

Definition set_stats (s : CacheStats) (c : ByteCache) : ByteCache :=
  mk_cache (entries c) (by_recency c) (resident c) (tick c) (max_bytes c) s.

Definition cache_new (max_bytes : Z) : ByteCache :=
  mk_cache ∅ ∅ 0 0 max_bytes (mk_stats 0 0 0 0).

Definition cache_get (key : Key) (c : ByteCache) : option bytes * ByteCache :=
  match entries c !! key with
  | None => (None, c)
  | Some (bs, old_tick) =>
    let recency := delete old_tick (by_recency c) in
    let tick := as_u64 (tick c + 1) in
    (Some bs,
     mk_cache (<[key := (bs, tick)]> (entries c)) (<[tick := key]> recency)
       (resident c) tick (max_bytes c) (count_hit (stats c)))
  end.

(** [BTreeMap::pop_first]. *)
Definition first_tick (m : gmap Z Key) : option Z :=
  foldr (λ t o, match o with None => Some t | Some u => Some (t `min` u) end) None
    (map_to_list m).*1.
Definition pop_first (m : gmap Z Key) : option (Z * Key * gmap Z Key) :=
  t ← first_tick m; k ← m !! t; Some (t, k, delete t m).

(** The eviction loop of [insert]. Each turn takes an entry off the recency map, so
    the size of that map bounds the turns. *)
Fixpoint evict (fuel : nat) (size : Z) (c : ByteCache) : ByteCache :=
  match fuel with
  | O => c
  | S fuel =>
    if max_bytes c <? as_u64 (resident c + size) then
      match pop_first (by_recency c) with
      | None => c
      | Some (_, victim, recency) =>
        match entries c !! victim with
        | Some (evicted, _) =>
          evict fuel size
            (mk_cache (delete victim (entries c)) recency
               (resident c - (zlen evicted `min` resident c)) (tick c) (max_bytes c)
               (count_eviction (stats c)))
        | None =>
          evict fuel size
            (mk_cache (entries c) recency (resident c) (tick c) (max_bytes c) (stats c))
        end
      end
    else c
  end.

(** The entry already under the key, if any, goes first. *)
Definition forget (key : Key) (size : Z) (c : ByteCache) : ByteCache :=
  match entries c !! key with
  | Some (_, old_tick) =>
    mk_cache (delete key (entries c)) (delete old_tick (by_recency c))
      (resident c - (size `min` resident c)) (tick c) (max_bytes c) (stats c)
  | None => c
  end.

Definition cache_insert (key : Key) (bs : bytes) (c : ByteCache) : ByteCache :=
  let size := zlen bs in
  if max_bytes c <? size then c else
  let c := forget key size c in
  let c := evict (S (base.size (by_recency c))) size c in
  let tick := as_u64 (tick c + 1) in
  mk_cache (<[key := (bs, tick)]> (entries c)) (<[tick := key]> (by_recency c))
    (as_u64 (resident c + size)) tick (max_bytes c) (stats c).

(** [stats()] and [reset_stats()]. *)
Record CacheStatsSnapshot : Type := mk_snapshot {
  sn_hits : Z; sn_misses : Z; sn_bytes_fetched : Z; sn_evictions : Z; sn_bytes_resident : Z;
}.
Definition cache_stats (c : ByteCache) : CacheStatsSnapshot :=
  mk_snapshot (hits (stats c)) (misses (stats c)) (bytes_fetched (stats c))
    (evictions (stats c)) (resident c).
Definition reset_stats (c : ByteCache) : ByteCache := set_stats (mk_stats 0 0 0 0) c.

(** * Fetching *)

Section fetch.
(** The object store: [get_range] of [object_store::ObjectStore]. *)
Context {St : Type} (get_range : string → Z → Z → M St bytes).

Definition on_cache {A} (f : ByteCache → A * ByteCache) : M (ByteCache * St) A := λ '(c, s),
  let '(a, c) := f c in (Ok a, (c, s)).
Definition on_store {A} (m : M St A) : M (ByteCache * St) A :=
  m_zoom snd (λ s st, (fst st, s)) m.
Definition upd_cache (f : ByteCache → ByteCache) : M (ByteCache * St) unit :=
  m_modify (λ '(c, s), (f c, s)).

Definition fetch_range (path : string) (start end_ : Z) : M (ByteCache * St) bytes :=
  let key := mk_key path start end_ in
  hit ← on_cache (cache_get key);
  match hit with
  | Some bs => mret bs
  | None =>
    _ ← upd_cache (λ c, set_stats (count_miss (stats c)) c);
    bs ← on_store (get_range path start end_);
    _ ← upd_cache (λ c, set_stats (count_fetched (zlen bs) (stats c)) c);
    _ ← upd_cache (cache_insert key bs);
    mret bs
  end.

(** [get_byte_ranges]. The source starts the fetches together and joins them; here
    each runs to its end before the next, one of the schedules of that join; [Fetch.v] has them all. *)
Fixpoint get_byte_ranges (path : string) (ranges : list (Z * Z)) : M (ByteCache * St) (list bytes) :=
  match ranges with
  | [] => mret []
  | (s, e) :: ranges =>
    bs ← fetch_range path s e;
    rest ← get_byte_ranges path ranges;
    mret (bs :: rest)
  end.

(** [get_metadata]: parsed footers, remembered per path. [load] is
    [ParquetMetaDataReader::load_and_finish], which reads through the fetcher. *)
Context {Meta : Type}.
Context (load : (Z → Z → M (ByteCache * St) bytes) → Z → M (ByteCache * St) Meta).

(** [MetadataCache]: its map. It is never emptied. *)
Definition MetadataCache : Type := gmap string Meta.
Definition metadata_new : MetadataCache := ∅.
Definition metadata_get (path : string) (metas : MetadataCache) : option Meta := metas !! path.
Definition metadata_insert (path : string) (meta : Meta) (metas : MetadataCache) : MetadataCache :=
  <[path := meta]> metas.

(** [RangeFetcher] and [CachedReader]. The store and the two caches behind their
    [Arc]s are shared: they are the state. *)
Record RangeFetcher : Type := mk_fetcher { rf_path : string }.
Record CachedReader : Type := mk_reader { fetcher : RangeFetcher; cr_file_size : Z }.

Definition reader_new (path : string) (file_size : Z) : CachedReader :=
  mk_reader (mk_fetcher path) file_size.

(** [CachedReader::fetch], [get_bytes] and [MetadataFetch::fetch] are this call. *)
Definition fetch (f : RangeFetcher) (start end_ : Z) : M (ByteCache * St) bytes :=
  fetch_range (rf_path f) start end_.

Definition get_metadata (reader : CachedReader) : M (MetadataCache * (ByteCache * St)) Meta :=
  let path := rf_path (fetcher reader) in
  '(metas, _) ← m_get;
  match metadata_get path metas with
  | Some meta => mret meta
  | None =>
    meta ← m_zoom snd (λ x st, (fst st, x)) (load (fetch (fetcher reader)) (cr_file_size reader));
    _ ← m_modify (λ '(metas, x), (metadata_insert path meta metas, x));
    mret meta
  end.
End fetch.

(** * The invariant *)

(** The bytes of all entries. *)
Definition entries_size (m : gmap Key (bytes * Z)) : Z :=
  foldr (λ x n, zlen x.2.1 + n) 0 (map_to_list m).

Record cache_inv (c : ByteCache) : Prop := {
  ci_entry k bs t : entries c !! k = Some (bs, t) → by_recency c !! t = Some k ∧ 0 < t ≤ tick c;
  ci_recency t k : by_recency c !! t = Some k → ∃ bs, entries c !! k = Some (bs, t);
  ci_resident : resident c = entries_size (entries c);
  ci_bound : resident c ≤ max_bytes c < 2 ^ 63;
  ci_tick : 0 ≤ tick c;
}.

Lemma foldr_size_perm l1 l2 :
  l1 ≡ₚ l2 →
  foldr (λ (x : Key * (bytes * Z)) n, zlen x.2.1 + n) 0 l1 =
  foldr (λ (x : Key * (bytes * Z)) n, zlen x.2.1 + n) 0 l2.
Proof. induction 1; simpl; lia. Qed.

Lemma entries_size_delete m k bs t :
  m !! k = Some (bs, t) → entries_size m = zlen bs + entries_size (delete k m).
Proof.
  intros Hk. unfold entries_size.
  rewrite <- (foldr_size_perm _ _ (map_to_list_delete m k (bs, t) Hk)). done.
Qed.
Lemma entries_size_insert m k bs t :
  m !! k = None → entries_size (<[k := (bs, t)]> m) = zlen bs + entries_size m.
Proof.
  intros Hk. unfold entries_size. rewrite (foldr_size_perm _ _ (map_to_list_insert m k (bs, t) Hk)).
  done.
Qed.
Lemma entries_size_nonneg m : 0 ≤ entries_size m.
Proof.
  unfold entries_size. induction (map_to_list m) as [|x l IH]; simpl; [lia |].
  pose proof (zlen_nonneg x.2.1). lia.
Qed.
Lemma entries_size_replace m k bs t t' :
  m !! k = Some (bs, t) → entries_size (<[k := (bs, t')]> m) = entries_size m.
Proof.
  intros Hk. rewrite <- insert_delete_eq, entries_size_insert by apply lookup_delete_eq.
  by rewrite <- (entries_size_delete m k bs t).
Qed.

Lemma first_tick_spec m :
  match first_tick m with
  | Some t => is_Some (m !! t) ∧ ∀ u, is_Some (m !! u) → t ≤ u
  | None => m = ∅
  end.
Proof.
  assert (∀ l : list Z, match foldr (λ t o, match o with None => Some t | Some u => Some (t `min` u) end) None l with
    | Some t => t ∈ l ∧ ∀ u, u ∈ l → t ≤ u | None => l = [] end) as Hl.
  { induction l as [|x l IH]; simpl; [done |].
    destruct (foldr _ None l) as [u|].
    - destruct IH as [Hu Hmin]. split.
      + destruct (Z.min_spec x u) as [[_ ->]|[_ ->]]; [by left | by right].
      + intros v Hv. apply elem_of_cons in Hv as [->|Hv]; [lia |]. specialize (Hmin v Hv). lia.
    - subst l. split; [by left |]. intros v Hv. apply list_elem_of_singleton in Hv as ->. lia. }
  specialize (Hl (map_to_list m).*1). unfold first_tick.
  assert (∀ t, t ∈ (map_to_list m).*1 ↔ is_Some (m !! t)) as Hiff.
  { intros t. rewrite list_elem_of_fmap. split.
    - intros ([t' k] & -> & Hin). apply elem_of_map_to_list in Hin. eauto.
    - intros [k Hk]. exists (t, k). by rewrite elem_of_map_to_list. }
  destruct (foldr _ None _) as [t|].
  - destruct Hl as [Ht Hmin]. rewrite Hiff in Ht. split; [done |]. intros u. rewrite <- Hiff. apply Hmin.
  - apply fmap_nil_inv in Hl. by apply map_to_list_empty_iff.
Qed.

(** * What the operations do *)

Lemma cache_new_inv n : 0 ≤ n < 2 ^ 63 → cache_inv (cache_new n).
Proof.
  intros Hn. split; simpl; try done; lia.
Qed.

Lemma as_u64_succ t : 0 ≤ t < u64_max → as_u64 (t + 1) = t + 1.
Proof. unfold u64_max, as_u64. intros. apply Z.mod_small. lia. Qed.

Lemma cache_get_inv key c :
  cache_inv c → tick c < u64_max → cache_inv (cache_get key c).2.
Proof.
  intros I Ht. unfold cache_get. destruct (entries c !! key) as [[bs old]|] eqn:E; [| done].
  pose proof (ci_tick _ I) as Htick. simpl. rewrite as_u64_succ by lia.
  destruct (ci_entry _ I _ _ _ E) as [Er Hold].
  split; simpl.
  - intros k b t Hk. destruct (decide (k = key)) as [->|Hne].
    + rewrite lookup_insert_eq in Hk. injection Hk as <- <-. rewrite lookup_insert_eq.
      split; [done | lia].
    + rewrite lookup_insert_ne in Hk by done. destruct (ci_entry _ I _ _ _ Hk) as [Hr Hb].
      rewrite lookup_insert_ne by lia. rewrite lookup_delete_ne; [split; [done | lia] |].
      intros <-. congruence.
  - intros t k Hk. destruct (decide (t = tick c + 1)) as [->|Hne].
    + rewrite lookup_insert_eq in Hk. injection Hk as <-. exists bs. by rewrite lookup_insert_eq.
    + rewrite lookup_insert_ne in Hk by done. apply lookup_delete_Some in Hk as [Hne' Hk].
      destruct (ci_recency _ I _ _ Hk) as [b Hb]. exists b.
      rewrite lookup_insert_ne; [done |]. intros <-. congruence.
  - rewrite (entries_size_replace _ _ _ _ _ E). apply I.
  - apply I.
  - lia.
Qed.

(** Taking one entry out of both maps. *)
Lemma remove_entry_inv c k bs t s :
  cache_inv c → entries c !! k = Some (bs, t) →
  cache_inv (mk_cache (delete k (entries c)) (delete t (by_recency c))
    (resident c - (zlen bs `min` resident c)) (tick c) (max_bytes c) s) ∧
  resident c - (zlen bs `min` resident c) = resident c - zlen bs.
Proof.
  intros I E. pose proof (entries_size_delete _ _ _ _ E) as Hs.
  pose proof (entries_size_nonneg (delete k (entries c))) as Hnn.
  pose proof (ci_resident _ I) as Hr. pose proof (ci_bound _ I) as Hb.
  pose proof (zlen_nonneg bs) as Hz. destruct (ci_entry _ I _ _ _ E) as [Er _].
  split; [| lia]. split; simpl.
  - intros k' b' t' Hk. apply lookup_delete_Some in Hk as [Hne Hk].
    destruct (ci_entry _ I _ _ _ Hk) as [Hr' Ht']. split; [| done].
    apply lookup_delete_Some. split; [| done]. intros <-. congruence.
  - intros t' k' Hk. apply lookup_delete_Some in Hk as [Hne Hk].
    destruct (ci_recency _ I _ _ Hk) as [b Hb']. exists b.
    apply lookup_delete_Some. split; [| done]. intros <-. congruence.
  - lia.
  - lia.
  - apply I.
Qed.

Lemma pop_first_inv c :
  cache_inv c →
  match pop_first (by_recency c) with
  | None => entries c = ∅
  | Some (t, k, m) =>
    m = delete t (by_recency c) ∧ by_recency c !! t = Some k ∧
    (∃ bs, entries c !! k = Some (bs, t)) ∧
    (∀ k' b' t', entries c !! k' = Some (b', t') → k' ≠ k → t < t') ∧
    S (base.size m) = base.size (by_recency c)
  end.
Proof.
  intros I. unfold pop_first. pose proof (first_tick_spec (by_recency c)) as Hf.
  destruct (first_tick (by_recency c)) as [t|]; simpl.
  - destruct Hf as [[k Hk] Hmin]. rewrite Hk. simpl.
    split; [done |]. split; [done |]. split; [by apply (ci_recency _ I) |]. split.
    + intros k' b' t' Hk' Hne. destruct (ci_entry _ I _ _ _ Hk') as [Hr _].
      specialize (Hmin t' ltac:(by eexists)). assert (t ≠ t') by congruence. lia.
    + rewrite map_size_delete, Hk. simpl.
      assert (base.size (by_recency c) ≠ 0%nat); [| lia].
      intros E. apply map_size_empty_inv in E. rewrite E in Hk. by rewrite lookup_empty in Hk.
  - apply map_eq. intros k. rewrite lookup_empty.
    destruct (entries c !! k) as [[bs t]|] eqn:E; [| done].
    destruct (ci_entry _ I _ _ _ E) as [Hr _]. rewrite Hf in Hr. by rewrite lookup_empty in Hr.
Qed.

(** The eviction loop ends with room for the newcomer; it takes the least recent
    entries and leaves the others as they are. *)
Lemma evict_spec fuel : ∀ c size,
  cache_inv c → 0 ≤ size ≤ max_bytes c → (base.size (by_recency c) < fuel)%nat →
  let c' := evict fuel size c in
  cache_inv c' ∧ resident c' + size ≤ max_bytes c ∧
  tick c' = tick c ∧ max_bytes c' = max_bytes c ∧
  (∀ k x, entries c' !! k = Some x → entries c !! k = Some x) ∧
  (∀ k b t k' b' t', entries c !! k = Some (b, t) → entries c' !! k = None →
     entries c' !! k' = Some (b', t') → t < t').
Proof.
  induction fuel as [|fuel IH]; intros c size I Hsize Hfuel; [lia |]. simpl.
  pose proof (ci_bound _ I) as Hb. pose proof (entries_size_nonneg (entries c)) as Hnn.
  pose proof (ci_resident _ I) as Hres.
  assert (as_u64 (resident c + size) = resident c + size) as ->
    by (unfold as_u64; apply Z.mod_small; lia).
  destruct (max_bytes c <? resident c + size) eqn:Efull; zbool.
  2:{ split; [done |]. split; [lia |]. split; [done |]. split; [done |]. split; [done |].
      intros. congruence. }
  pose proof (pop_first_inv c I) as Hp.
  destruct (pop_first (by_recency c)) as [[[t k] m]|].
  2:{ exfalso. rewrite Hp in Hres. change (entries_size ∅) with 0 in Hres. lia. }
  destruct Hp as (-> & Hk & (bs & E) & Hlru & Hsz). rewrite E.
  destruct (remove_entry_inv c k bs t (count_eviction (stats c)) I E) as [I' _].
  destruct (IH _ size I') as (I2 & H2 & H3 & H4 & H5 & H6); [done | simpl; lia |].
  simpl in *. split; [done |]. split; [done |]. split; [done |]. split; [done |]. split.
  - intros k' x Hk'. apply H5 in Hk'. by apply lookup_delete_Some in Hk' as [_ ?].
  - intros k1 b1 t1 k2 b2 t2 E1 E1' E2. pose proof (H5 _ _ E2) as E2'.
    apply lookup_delete_Some in E2' as [Hne2 E2'].
    destruct (decide (k1 = k)) as [->|Hne1].
    + assert (t1 = t) as -> by congruence. by apply (Hlru k2 b2).
    + apply (H6 k1 b1 t1 k2 b2 t2); [| done | done]. by rewrite lookup_delete_ne.
Qed.

(** The bytes of the entries used at [t] or later. *)
Definition used_since (t : Z) (m : gmap Key (bytes * Z)) : Z :=
  entries_size (base.filter (λ x, t ≤ x.2.2) m).

(** The eviction loop takes no more than it has to: with an entry it took, and those
    used after it, there was no room. *)
Lemma evict_needed fuel : ∀ c size k b t,
  cache_inv c → 0 ≤ size ≤ max_bytes c →
  entries c !! k = Some (b, t) → entries (evict fuel size c) !! k = None →
  max_bytes c < used_since t (entries c) + size.
Proof.
  induction fuel as [|fuel IH]; intros c size k b t I Hsize Ek; simpl; [congruence |].
  pose proof (ci_bound _ I) as Hb. pose proof (entries_size_nonneg (entries c)) as Hnn.
  pose proof (ci_resident _ I) as Hres.
  assert (as_u64 (resident c + size) = resident c + size) as ->
    by (unfold as_u64; apply Z.mod_small; lia).
  destruct (max_bytes c <? resident c + size) eqn:Efull; zbool; [| congruence].
  pose proof (pop_first_inv c I) as Hp.
  destruct (pop_first (by_recency c)) as [[[u v] m]|]; [| congruence].
  destruct Hp as (-> & Hv & (bs & E) & Hlru & _). rewrite E. intros Hgone.
  destruct (remove_entry_inv c v bs u (count_eviction (stats c)) I E) as [I' _].
  destruct (decide (k = v)) as [->|Hne].
  - assert (t = u) as -> by congruence. unfold used_since. rewrite map_filter_id; [lia |].
    intros k' [b' t'] Hk'. simpl. destruct (decide (k' = v)) as [->|Hne']; [rewrite E in Hk'; injection Hk' as _ <-; lia |].
    specialize (Hlru _ _ _ Hk' Hne'). lia.
  - pose proof (Hlru _ _ _ Ek Hne) as Hut.
    eapply (IH _ size k b t) in I'; [| done | | exact Hgone].
    + simpl in I'. unfold used_since in *. rewrite map_filter_delete_not in I'; [done |].
      intros [b' t'] Hv'. rewrite E in Hv'. injection Hv' as _ <-. simpl. lia.
    + simpl. by rewrite lookup_delete_ne.
Qed.

Lemma forget_inv c key (bs : bytes) :
  cache_inv c → (∀ old t, entries c !! key = Some (old, t) → zlen old = zlen bs) →
  let c' := forget key (zlen bs) c in
  cache_inv c' ∧ entries c' = delete key (entries c) ∧
  tick c' = tick c ∧ max_bytes c' = max_bytes c.
Proof.
  intros I Hlen. unfold forget. destruct (entries c !! key) as [[old t]|] eqn:E.
  - rewrite <- (Hlen old t eq_refl).
    destruct (remove_entry_inv c key old t (stats c) I E) as [I' _]. done.
  - simpl. split; [done |]. split; [by rewrite delete_id | done].
Qed.

Lemma cache_insert_spec c key bs :
  cache_inv c → tick c < u64_max → zlen bs ≤ max_bytes c →
  (∀ old t, entries c !! key = Some (old, t) → zlen old = zlen bs) →
  let c' := cache_insert key bs c in
  cache_inv c' ∧ max_bytes c' = max_bytes c ∧ tick c' = tick c + 1 ∧
  entries c' !! key = Some (bs, tick c + 1) ∧
  (∀ k x, k ≠ key → entries c' !! k = Some x → entries c !! k = Some x) ∧
  (∀ k b t k' b' t', k ≠ key → k' ≠ key → entries c !! k = Some (b, t) →
     entries c' !! k = None → entries c' !! k' = Some (b', t') → t < t').
Proof.
  intros I Ht Hsize Hlen. unfold cache_insert. rewrite (proj2 (Z.ltb_ge _ _)) by done.
  destruct (forget_inv c key bs I Hlen) as (I1 & E1 & T1 & M1).
  set (c1 := forget key (zlen bs) c) in *. pose proof (zlen_nonneg bs) as Hz.
  destruct (evict_spec (S (base.size (by_recency c1))) c1 (zlen bs) I1) as (I2 & R2 & T2 & M2 & H5 & H6);
    [lia | lia |].
  set (c2 := evict _ _ c1) in *. cbn zeta. cbn [entries by_recency resident tick max_bytes].
  pose proof (ci_tick _ I) as Htick. rewrite T2, T1, as_u64_succ by lia.
  assert (entries c2 !! key = None) as Hnone.
  { destruct (entries c2 !! key) as [x|] eqn:E; [| done]. apply H5 in E. rewrite E1 in E.
    by rewrite lookup_delete_eq in E. }
  pose proof (ci_bound _ I2) as B2. pose proof (entries_size_nonneg (entries c2)) as Hnn.
  pose proof (ci_resident _ I2) as Hr2. pose proof (ci_bound _ I) as B.
  assert (as_u64 (resident c2 + zlen bs) = resident c2 + zlen bs) as ->
    by (unfold as_u64; apply Z.mod_small; lia).
  split; [| split_and!].
  - split; simpl.
    + intros k b t Hk. destruct (decide (k = key)) as [->|Hne].
      * rewrite lookup_insert_eq in Hk. injection Hk as <- <-. rewrite lookup_insert_eq.
        split; [done | lia].
      * rewrite lookup_insert_ne in Hk by done. destruct (ci_entry _ I2 _ _ _ Hk) as [Hr Hb].
        rewrite lookup_insert_ne by lia. split; [done | lia].
    + intros t k Hk. destruct (decide (t = tick c + 1)) as [->|Hne].
      * rewrite lookup_insert_eq in Hk. injection Hk as <-. exists bs. by rewrite lookup_insert_eq.
      * rewrite lookup_insert_ne in Hk by done. destruct (ci_recency _ I2 _ _ Hk) as [b Hb].
        exists b. rewrite lookup_insert_ne; [done |]. intros <-. congruence.
    + rewrite entries_size_insert by done. lia.
    + lia.
    + lia.
  - lia.
  - done.
  - apply lookup_insert_eq.
  - intros k x Hne Hk. rewrite lookup_insert_ne in Hk by done. apply H5 in Hk. rewrite E1 in Hk.
    by apply lookup_delete_Some in Hk as [_ ?].
  - intros k b t k' b' t' Hne Hne' Hk Hk1 Hk2. rewrite lookup_insert_ne in Hk1, Hk2 by done.
    apply (H6 k b t k' b' t'); [| done | done]. rewrite E1. by rewrite lookup_delete_ne.
Qed.

(** An insert under a new key evicts only what there is no room for. *)
Lemma cache_insert_needed c key bs k b t :
  cache_inv c → zlen bs ≤ max_bytes c → entries c !! key = None → k ≠ key →
  entries c !! k = Some (b, t) → entries (cache_insert key bs c) !! k = None →
  max_bytes c < used_since t (entries c) + zlen bs.
Proof.
  intros I Hsize Enew Hne Ek. unfold cache_insert. rewrite (proj2 (Z.ltb_ge _ _)) by done.
  assert (forget key (zlen bs) c = c) as -> by (unfold forget; by rewrite Enew).
  cbn zeta. cbn [entries]. rewrite lookup_insert_ne by done.
  pose proof (zlen_nonneg bs). intros Hgone. by eapply evict_needed.
Qed.

Lemma cache_get_entries key c k :
  fst <$> entries (cache_get key c).2 !! k = fst <$> entries c !! k.
Proof.
  unfold cache_get. destruct (entries c !! key) as [[bs t]|] eqn:E; [| done]. simpl.
  destruct (decide (k = key)) as [->|Hne]; [by rewrite lookup_insert_eq, E |].
  by rewrite lookup_insert_ne.
Qed.

Lemma cache_get_tick key c :
  0 ≤ tick c < u64_max → tick c ≤ tick (cache_get key c).2 ≤ tick c + 1 ∧
  max_bytes (cache_get key c).2 = max_bytes c.
Proof.
  intros Ht. unfold cache_get. destruct (entries c !! key) as [[bs t]|]; simpl; [| lia].
  rewrite as_u64_succ by done. lia.
Qed.

(** What the operations count. *)
Lemma evict_counts fuel size : ∀ c,
  hits (stats (evict fuel size c)) = hits (stats c) ∧ misses (stats (evict fuel size c)) = misses (stats c).
Proof.
  induction fuel as [|fuel IH]; intros c; simpl; [done |].
  repeat split_match; try done; (edestruct IH as [H1 H2]; split; [exact H1 | exact H2]).
Qed.

Lemma cache_insert_counts k bs c :
  hits (stats (cache_insert k bs c)) = hits (stats c) ∧
  misses (stats (cache_insert k bs c)) = misses (stats c).
Proof.
  unfold cache_insert. case_match; [done |]. cbn zeta. cbn [stats].
  destruct (evict_counts (S (base.size (by_recency (forget k (zlen bs) c)))) (zlen bs) (forget k (zlen bs) c))
    as [-> ->].
  unfold forget. by repeat case_match.
Qed.

Lemma cache_get_counts k c :
  stats (cache_get k c).2 = match (cache_get k c).1 with Some _ => count_hit (stats c) | None => stats c end.
Proof. unfold cache_get. by repeat case_match. Qed.

(** * Properties *)

(** A run of the cache. *)
Inductive cache_op : Type := Get (k : Key) | Insert (k : Key) (bs : bytes).
Definition cache_do (c : ByteCache) (o : cache_op) : ByteCache :=
  match o with Get k => (cache_get k c).2 | Insert k bs => cache_insert k bs c end.

(** Objects do not change: a range always has the same length. *)
Definition same_lengths (len : Key → Z) (o : cache_op) : Prop :=
  match o with Get _ => True | Insert k bs => zlen bs = len k end.

Definition entries_len (len : Key → Z) (c : ByteCache) : Prop :=
  ∀ k bs t, entries c !! k = Some (bs, t) → zlen bs = len k.

Lemma cache_do_inv len c o :
  cache_inv c → entries_len len c → tick c < u64_max → same_lengths len o →
  cache_inv (cache_do c o) ∧ entries_len len (cache_do c o) ∧
  tick (cache_do c o) ≤ tick c + 1 ∧ max_bytes (cache_do c o) = max_bytes c.
Proof.
  intros I Hlen Ht Ho. pose proof (ci_tick _ I). destruct o as [k|k bs]; simpl in *.
  - split; [by apply cache_get_inv |]. destruct (cache_get_tick k c) as [Hk Hm]; [lia |].
    split; [| split; [lia | done]]. intros k' b t Hk'.
    pose proof (cache_get_entries k c k') as He. rewrite Hk' in He. simpl in He.
    destruct (entries c !! k') as [[b' t']|] eqn:E; [| done]. injection He as ->. by eapply Hlen.
  - destruct (Z_lt_le_dec (max_bytes c) (zlen bs)) as [Hbig|Hsmall].
    { unfold cache_insert. rewrite (proj2 (Z.ltb_lt _ _)) by done.
      split_and!; [done | done | lia | done]. }
    destruct (cache_insert_spec c k bs I Ht Hsmall) as (I' & M' & T' & Hk & Hsub & _).
    { intros old t E. rewrite Ho. by eapply Hlen. }
    split; [done |]. split; [| split; [lia | done]].
    intros k' b t Hk'. destruct (decide (k' = k)) as [->|Hne].
    + rewrite Hk in Hk'. by injection Hk' as <- <-.
    + apply (Hsub _ _ Hne) in Hk'. by eapply Hlen.
Qed.

(** C29: the cache is bounded and its accounting is exact, for ranges of objects that
    do not change: a key is inserted with the same number of bytes each time
    ([same_lengths]). After any run of fewer than 2^64 gets and such inserts on a new
    cache, the bytes it says are resident are the bytes of its entries, they are within
    the limit, and each entry is in the recency order exactly once. (A key inserted again
    with another number of bytes breaks this: [resized_reinsert_miscounts].) *)
Theorem cache_bounded len n ops :
  0 ≤ n < 2 ^ 63 → Forall (same_lengths len) ops → zlen ops < u64_max →
  let c := fold_left cache_do ops (cache_new n) in
  cache_inv c ∧ sn_bytes_resident (cache_stats c) = entries_size (entries c) ∧
  entries_size (entries c) ≤ n.
Proof.
  intros Hn Hops Hlen.
  assert (∀ c, cache_inv c → entries_len len c → tick c + zlen ops < u64_max → max_bytes c = n →
    cache_inv (fold_left cache_do ops c) ∧ max_bytes (fold_left cache_do ops c) = n) as Hgen.
  { clear Hlen. induction ops as [|o ops IH]; intros c I Hl Ht Hm; simpl; [done |].
    rewrite zlen_cons in Ht. pose proof (zlen_nonneg ops). apply Forall_cons in Hops as [Ho Hops].
    destruct (cache_do_inv len c o I Hl ltac:(lia) Ho) as (I' & Hl' & Ht' & Hm').
    apply IH; [done | done | done | lia | congruence]. }
  destruct (Hgen (cache_new n)) as [I Hm].
  - by apply cache_new_inv.
  - done.
  - done.
  - done.
  - split; [done |]. unfold cache_stats. simpl. rewrite <- (ci_resident _ I).
    pose proof (ci_bound _ I). lia.
Qed.

(** What an insert does. A range larger than the cache is refused and changes
    nothing. Any other range is there afterwards and is found by the next get; no
    other entry is added or changed; and what was evicted to make room was used less
    recently than everything that stayed. *)
Theorem insert_lru c key bs :
  cache_inv c → tick c < u64_max →
  (∀ old t, entries c !! key = Some (old, t) → zlen old = zlen bs) →
  let c' := cache_insert key bs c in
  cache_inv c' ∧
  if max_bytes c <? zlen bs then c' = c else
  (cache_get key c').1 = Some bs ∧
  (∀ k x, k ≠ key → entries c' !! k = Some x → entries c !! k = Some x) ∧
  (∀ k b t k' b' t', k ≠ key → k' ≠ key → entries c !! k = Some (b, t) →
     entries c' !! k = None → entries c' !! k' = Some (b', t') → t < t').
Proof.
  intros I Ht Hlen. destruct (max_bytes c <? zlen bs) eqn:E.
  - unfold cache_insert. rewrite E. done.
  - zbool. destruct (cache_insert_spec c key bs I Ht E Hlen) as (I' & _ & _ & Hk & Hsub & Hlru).
    split; [done |]. split; [| done]. unfold cache_get. by rewrite Hk.
Qed.

Section transparent.
Context {St : Type} (get_range : string → Z → Z → M St bytes).
(** The objects: what the store returns for a range, when it returns. *)
Context (content : string → Z → Z → bytes).

Definition content_of (k : Key) : bytes := content (k_path k) (k_start k) (k_end k).

Definition coherent (c : ByteCache) : Prop :=
  ∀ k bs t, entries c !! k = Some (bs, t) → bs = content_of k.

Lemma cache_get_coherent key c : coherent c → coherent (cache_get key c).2.
Proof.
  intros Hco k b t Hk. pose proof (cache_get_entries key c k) as He. rewrite Hk in He. simpl in He.
  destruct (entries c !! k) as [[b' t']|] eqn:E; [| done]. injection He as ->. by eapply Hco.
Qed.

Lemma cache_insert_coherent key c :
  cache_inv c → coherent c → tick c < u64_max →
  let c' := cache_insert key (content_of key) c in
  cache_inv c' ∧ coherent c' ∧ tick c ≤ tick c' ≤ tick c + 1 ∧ max_bytes c' = max_bytes c.
Proof.
  intros I Hco Ht. destruct (Z_lt_le_dec (max_bytes c) (zlen (content_of key))) as [Hbig|Hsmall].
  { unfold cache_insert. rewrite (proj2 (Z.ltb_lt _ _)) by done. cbn zeta. split_and!; try done; lia. }
  destruct (cache_insert_spec c key (content_of key) I Ht Hsmall) as (I' & M' & T' & Hk & Hsub & _).
  { intros old t E. by rewrite (Hco _ _ _ E). }
  cbn zeta. split_and!; try done; [| lia..].
  intros k b t Hk'. destruct (decide (k = key)) as [->|Hne].
  - rewrite Hk in Hk'. by injection Hk' as <- <-.
  - apply (Hsub _ _ Hne) in Hk'. by apply (Hco _ _ _ Hk').
Qed.

(** Counting does not touch what the invariants speak of. *)
Lemma set_stats_inv s c : cache_inv c → cache_inv (set_stats s c).
Proof. intros I. split; apply I. Qed.

Lemma cache_get_miss key c : entries c !! key = None → cache_get key c = (None, c).
Proof. unfold cache_get. by intros ->. Qed.
Lemma cache_get_hit key c bs t : entries c !! key = Some (bs, t) → (cache_get key c).1 = Some bs.
Proof. unfold cache_get. by intros ->. Qed.

(** The two ways of a fetch. *)
Lemma fetch_range_cases path start end_ c s r c' s' :
  let key := mk_key path start end_ in
  fetch_range get_range path start end_ (c, s) = (r, (c', s')) →
  (∃ bs t, entries c !! key = Some (bs, t) ∧ r = Ok bs ∧ c' = (cache_get key c).2 ∧ s' = s) ∨
  entries c !! key = None ∧
  match get_range path start end_ s with
  | (Ok x, s1) => r = Ok x ∧ s' = s1 ∧
      c' = cache_insert key x (set_stats (count_fetched (zlen x) (count_miss (stats c))) c)
  | (Err e, s1) => r = Err e ∧ s' = s1 ∧ c' = set_stats (count_miss (stats c)) c
  end.
Proof.
  intros key. unfold fetch_range. fold key. unfold mbind at 1, m_bind at 1, on_cache at 1.
  destruct (entries c !! key) as [[bs0 t0]|] eqn:E.
  - pose proof (cache_get_hit _ _ _ _ E) as Hg. destruct (cache_get key c) as [g c1]. simpl in Hg. subst g.
    intros [= <- <- <-]. left. by exists bs0, t0.
  - rewrite (cache_get_miss _ _ E). unfold mbind, m_bind, upd_cache, m_modify, on_store, m_zoom. cbn [fst snd].
    destruct (get_range path start end_ s) as [[x|e] s1]; intros [= <- <- <-]; by right.
Qed.

(** The cache is transparent. Through a coherent cache [fetch_range] returns
    the object's bytes or the store's error, never anything else; on a hit the store
    is not asked; and the cache stays coherent, bounded and exact. *)
Theorem fetch_transparent path start end_ c s r c' s' :
  (∀ p a b st x st', get_range p a b st = (Ok x, st') → x = content p a b) →
  cache_inv c → coherent c → tick c + 1 < u64_max →
  fetch_range get_range path start end_ (c, s) = (r, (c', s')) →
  cache_inv c' ∧ coherent c' ∧
  match r with
  | Ok bs => bs = content path start end_
  | Err e => entries c !! mk_key path start end_ = None ∧ entries c' = entries c ∧
             get_range path start end_ s = (Err e, s')
  end ∧
  (is_Some (entries c !! mk_key path start end_) → s' = s).
Proof.
  intros Hstore I Hco Ht [(bs & t & E & -> & -> & ->)|[E Hrun]]%fetch_range_cases.
  - split; [apply cache_get_inv; [done | lia] |]. split; [by apply cache_get_coherent |].
    split; [by apply (Hco _ _ _ E) | done].
  - rewrite E. destruct (get_range path start end_ s) as [[x|e] s1] eqn:Es; destruct Hrun as (-> & -> & ->).
    + pose proof (Hstore _ _ _ _ _ _ Es) as Hx. set (key := mk_key path start end_).
      change x with (id x). rewrite Hx. change (id (content path start end_)) with (content_of key).
      destruct (cache_insert_coherent key (set_stats (count_fetched (zlen (content_of key))
        (count_miss (stats c))) c)) as (? & ? & _); [by apply set_stats_inv | exact Hco | simpl; lia |].
      by split_and!.
    + split; [by apply set_stats_inv |]. by split_and!.
Qed.
End transparent.

(** * Examples *)

Definition key_a : Key := mk_key "f" 0 2.
Definition key_b : Key := mk_key "f" 2 4.
Definition key_c : Key := mk_key "f" 4 6.
Definition two : bytes := [Byte.x01; Byte.x02].

Lemma cache_bounded_witness :
  let c := fold_left cache_do [Insert key_a two; Insert key_b two; Get key_a; Insert key_c two]
             (cache_new 4) in
  sn_bytes_resident (cache_stats c) = entries_size (entries c) ∧
  entries_size (entries c) ≤ 4 ∧
  entries c !! key_b = None.
Proof.
  intros c. rewrite (and_assoc (sn_bytes_resident _ = _)). split; [| vm_compute; reflexivity].
  apply (cache_bounded (λ _, 2) 4 [Insert key_a two; Insert key_b two; Get key_a; Insert key_c two]).
  - split; vm_compute; done.
  - repeat constructor.
  - vm_compute. reflexivity.
Defined.

Lemma new_cache_inv : cache_inv (cache_new 4).
Proof. apply cache_new_inv. lia. Qed.

Lemma insert_lru_witness : (cache_get key_a (cache_insert key_a two (cache_new 4))).1 = Some two.
Proof.
  apply (insert_lru (cache_new 4) key_a two new_cache_inv).
  - vm_compute. reflexivity.
  - intros old t E. vm_compute in E. discriminate E.
Defined.

Lemma fetch_transparent_witness :
  let run := fetch_range (λ _ _ _ (s : unit), (Ok two, s)) "f" 0 2 (cache_new 4, tt) in
  cache_inv run.2.1 ∧ run.1 = Ok two.
Proof.
  intros run. split; [| vm_compute; reflexivity].
  assert (∀ k bs t, entries (cache_new 4) !! k = Some (bs, t) → bs = two) as Hc.
  { intros k bs t E. by simpl in E. }
  apply (fetch_transparent (λ _ _ _ (s : unit), (Ok two, s)) (λ _ _ _, two) "f" 0 2
    (cache_new 4) tt run.1 run.2.1 run.2.2).
  - intros p a b st x st' E. injection E as <- <-. reflexivity.
  - exact new_cache_inv.
  - exact Hc.
  - vm_compute. reflexivity.
  - vm_compute. reflexivity.
Defined.

Definition one : bytes := [Byte.x01].

(** The accounting of an insert under a key that is there with other bytes: the new
    size is taken off, not the old one. With fewer bytes the cache counts a byte it
    does not have; with more it holds a byte over its limit. The store's ranges of
    unchanging objects keep a caller from this. *)
Theorem resized_reinsert_miscounts :
  (let c := fold_left cache_do [Insert key_a two; Insert key_a one] (cache_new 4) in
   sn_bytes_resident (cache_stats c) = 2 ∧ entries_size (entries c) = 1) ∧
  (let c := fold_left cache_do [Insert key_a one; Insert key_b two; Insert key_a two; Insert key_c one]
              (cache_new 4) in
   sn_bytes_resident (cache_stats c) = 4 ∧ entries_size (entries c) = 5).
Proof. vm_compute. done. Qed.
