(* ===== verification/ColumnTests.v ===== *)
(** The unit tests of the read side as definitions: the [tests] modules of [bloom.rs],
    [cache.rs], [catalog.rs] and [index.rs] under [src/src/], assertion by assertion
    ([Tests.v] says what a test is). They pass with the decoders of [Instances.v] and
    [IndexProps.v]. *)

From Stdlib Require Import Ascii String.
From S2P Require Import Latency.
From S2P Require Import Prelude Fs Instances RecordModel Tests.
From S2P Require Import Flush Catalog Bloom Index IndexProps Cache.

(** Tests that keep everything in variables. *)
Abbreviation test := (Run unit unit).

(** * [bloom.rs] *)

Section bloom_tests.
Context (base64_decode : string → option bytes).

Definition fork_filter : Run unit CatalogBloom := run_lift (from_base64 base64_decode FORK_BLOB).

Definition blob_parses_to_whole_blocks : test :=
  b ← fork_filter;
  _ ← assert_eq (num_blocks b) 4;
  assert_eq (zlen (words b)) (4 * WORDS_PER_BLOCK).

(** [for key in ..], an assertion per key. *)
Fixpoint all_present (b : CatalogBloom) (ks : list Z) : test :=
  match ks with
  | [] => mret tt
  | i :: ks =>
    let key := lit ("k" +:+ show_u64 i) in
    there ← run_lift (might_contain b key);
    _ ← assert there;
    all_present b ks
  end.
Definition probes_match_a_blob_the_fork_wrote : test :=
  b ← fork_filter; all_present b (range 1 101).

Fixpoint count_rejected (b : CatalogBloom) (ks : list Z) (rejected : Z) : Run unit Z :=
  match ks with
  | [] => mret rejected
  | i :: ks =>
    there ← run_lift (might_contain b (lit ("k" +:+ show_u64 i)));
    count_rejected b ks (if negb there then rejected + 1 else rejected)
  end.
Definition absent_keys_are_mostly_rejected : test :=
  b ← fork_filter;
  rejected ← count_rejected b (range 100000 101000) 0;
  assert (950 <? rejected).

Definition a_malformed_blob_is_none_not_a_panic : test :=
  _ ← assert (bool_decide (from_base64 base64_decode "not valid base64 !!!" = None));
  assert (bool_decide (from_base64 base64_decode "YWJj" = None)).
End bloom_tests.

(** The keys are those of [fork_blob_probes]. *)
Lemma lit_str_bytes s : lit s = str_bytes s.
Proof.
  unfold lit, str_bytes. induction s as [|c s IH]; [done |].
  change (byte_of_ascii c :: String.list_byte_of_string s =
          byte_of (Z.of_N (N_of_ascii c)) :: ((λ c, byte_of (Z.of_N (N_of_ascii c))) <$> list_of_str s)).
  rewrite IH. f_equal. by destruct c as [[] [] [] [] [] [] [] []].
Qed.
Lemma range_keys lo n : (λ i, lit ("k" +:+ show_u64 i)) <$> range lo (lo + Z.of_nat n) = test_keys lo n.
Proof.
  unfold range, test_keys, test_key. rewrite Z.add_simpl_l. unfold seqZ. rewrite Nat2Z.id, <- list_fmap_compose.
  apply list_fmap_ext. intros j i _. cbv beta. unfold compose. rewrite lit_str_bytes.
  by replace (Z.of_nat i + lo) with (lo + Z.of_nat i) by lia.
Qed.

Lemma all_present_passes b ks s :
  forallb (λ k, bool_decide (might_contain b k = Some true)) ((λ i, lit ("k" +:+ show_u64 i)) <$> ks) = true →
  all_present b ks s = Some (tt, s).
Proof.
  induction ks as [|i ks IH]; [done |]. rewrite fmap_cons. cbn [forallb all_present].
  intros [E%bool_decide_eq_true_1 Hks]%andb_true_iff. cbv zeta.
  unfold mbind, run_bind, run_lift. rewrite E. cbn. by apply IH.
Qed.

Lemma count_rejected_filter b ks n s :
  bloom_wf b → count_rejected b ks n s =
    Some (n + zlen (base.filter (λ k, might_contain b k = Some false) ((λ i, lit ("k" +:+ show_u64 i)) <$> ks)), s).
Proof.
  intros Hb. revert n. induction ks as [|i ks IH]; intros n; [by rewrite Z.add_0_r |].
  rewrite fmap_cons. cbn [count_rejected]. unfold mbind at 1, run_bind at 1, run_lift.
  destruct (probe_total (words b) _ (compute_mask (as_u32 (hash64 (lit ("k" +:+ show_u64 i)))))
    (block_in_bounds b (lit ("k" +:+ show_u64 i)) Hb)) as [r Hr].
  change (might_contain b (lit ("k" +:+ show_u64 i)) = Some r) in Hr.
  rewrite filter_cons, Hr. cbn [fmap option_fmap option_map]. rewrite IH. do 2 f_equal.
  destruct r; case_decide; try done. cbn [negb]. rewrite zlen_cons. lia.
Qed.

Lemma bloom_tests_pass :
  passes (blob_parses_to_whole_blocks base64_standard) tt ∧
  passes (probes_match_a_blob_the_fork_wrote base64_standard) tt ∧
  passes (absent_keys_are_mostly_rejected base64_standard) tt ∧
  passes (a_malformed_blob_is_none_not_a_panic base64_standard) tt.
Proof.
  destruct fork_blob_probes as (Hn & Hw & Hin & Hout & Hbad & Hshort).
  assert (from_base64 base64_standard FORK_BLOB = Some fork_bloom) as E by (vm_compute; reflexivity).
  pose proof (from_base64_wf _ _ _ E) as Hwf.
  assert (fork_filter base64_standard tt = Some (fork_bloom, tt)) as Ef by (unfold fork_filter; by rewrite E).
  split_and!.
  - calls Ef. unfold passes. rewrite assert_eq_then by exact Hn. apply passes_eq. exact Hw.
  - calls Ef. unfold passes. rewrite all_present_passes; [by eexists |].
    change 101 with (1 + Z.of_nat 100). rewrite range_keys. exact Hin.
  - calls Ef. eapply passes_bind; [apply count_rejected_filter, Hwf |]. apply passes_assert, Z.ltb_lt.
    change 101000 with (100000 + Z.of_nat 1000). rewrite range_keys. exact Hout.
  - unfold passes, a_malformed_blob_is_none_not_a_panic.
    rewrite assert_then by (by apply bool_decide_eq_true_2). apply passes_assert. by apply bool_decide_eq_true_2.
Qed.

(** * [cache.rs] *)

Definition key (name : string) (start end_ : Z) : Key := mk_key name start end_.
Definition zeros (n : Z) : bytes := replicate (Z.to_nat n) Byte.x00.

(** A test of the cache in a variable. *)
Abbreviation cached := (Run ByteCache).
Definition get (k : Key) : cached (option bytes) := λ c, Some (cache_get k c).
Definition insert (k : Key) (bs : bytes) : cached unit := λ c, Some (tt, cache_insert k bs c).
Definition stats : cached CacheStatsSnapshot := λ c, Some (cache_stats c, c).
Definition is_some {A} (o : option A) : bool := match o with Some _ => true | None => false end.

Definition hits_and_misses_are_counted : cached unit :=
  hit ← get (key "a" 0 10);
  _ ← assert (negb (is_some hit));
  _ ← insert (key "a" 0 10) (zeros 10);
  hit ← get (key "a" 0 10);
  bs ← run_lift hit;
  _ ← assert_eq (zlen bs) 10;
  s ← stats;
  _ ← assert_eq (sn_hits s) 1;
  assert_eq (sn_bytes_resident s) 10.

Definition eviction_is_least_recently_used : cached unit :=
  _ ← insert (key "a" 0 10) (zeros 10);
  _ ← insert (key "b" 0 10) (zeros 10);
  _ ← insert (key "c" 0 10) (zeros 10);
  hit ← get (key "a" 0 10); _ ← assert (is_some hit);
  _ ← insert (key "d" 0 10) (zeros 10);
  hit ← get (key "b" 0 10); _ ← assert (negb (is_some hit));
  hit ← get (key "a" 0 10); _ ← assert (is_some hit);
  hit ← get (key "c" 0 10); _ ← assert (is_some hit);
  hit ← get (key "d" 0 10); _ ← assert (is_some hit);
  s ← stats; assert_eq (sn_evictions s) 1.

Fixpoint insert_each (ks : list Z) : cached unit :=
  match ks with
  | [] => mret tt
  | i :: ks =>
    _ ← insert (key "f" (i * 10) (i * 10 + 10)) (zeros 10);
    s ← stats;
    _ ← assert (sn_bytes_resident s <=? 100);
    insert_each ks
  end.
Definition stays_within_its_byte_budget : cached unit :=
  _ ← insert_each (range 0 50);
  s ← stats; assert_eq (sn_bytes_resident s) 100.

Definition a_range_bigger_than_the_cache_is_not_admitted : cached unit :=
  _ ← insert (key "a" 0 10) (zeros 10);
  _ ← insert (key "big" 0 100) (zeros 100);
  hit ← get (key "big" 0 100); _ ← assert (negb (is_some hit));
  hit ← get (key "a" 0 10); assert (is_some hit).

Definition reinserting_the_same_range_does_not_double_count : cached unit :=
  _ ← insert (key "a" 0 10) (zeros 10);
  _ ← insert (key "a" 0 10) (zeros 10);
  s ← stats; assert_eq (sn_bytes_resident s) 10.

(** Each starts from a new cache. *)
Lemma cache_tests_pass :
  passes hits_and_misses_are_counted (cache_new 1024) ∧
  passes eviction_is_least_recently_used (cache_new 30) ∧
  passes stays_within_its_byte_budget (cache_new 100) ∧
  passes a_range_bigger_than_the_cache_is_not_admitted (cache_new 50) ∧
  passes reinserting_the_same_range_does_not_double_count (cache_new 100).
Proof. unfold passes. split_and!; vm_compute; by eexists. Qed.

(** * [catalog.rs] *)

Definition split_path (s : string) : Run unit (string * string) :=
  run_lift (match split_data_path s with Ok x => Some x | Err _ => None end).

Definition data_path_splits_into_bucket_and_prefix : test :=
  '(bucket, prefix) ← split_path "s3://warehouse/hg/";
  _ ← assert_eq bucket "warehouse"%string;
  assert_eq prefix "hg/"%string.
Definition data_path_without_prefix : test :=
  '(bucket, prefix) ← split_path "s3://warehouse/";
  _ ← assert_eq bucket "warehouse"%string;
  assert_eq prefix empty_str.
Definition non_s3_data_path_is_rejected : test :=
  assert (match split_data_path "/local/path" with Err _ => true | Ok _ => false end).

Lemma catalog_tests_pass :
  passes data_path_splits_into_bucket_and_prefix tt ∧ passes data_path_without_prefix tt ∧
  passes non_s3_data_path_is_rejected tt.
Proof. unfold passes. split_and!; vm_compute; by eexists. Qed.

(** * [index.rs] *)

Section index_tests.
(** [hex::decode]; [object_store::path::Path::from] and [as_ref]. *)
Context (hex_decode : string → bytes + string).
Context {P : Type} (path_from : string → P) (as_ref : P → string).

Definition entry (watermark : Lsn) (lo hi : string) : FileEntry :=
  mk_file_entry ("hg/main/kv/" +:+ show_u64 watermark +:+ ".parquet") watermark (lit lo) (lit hi) 1024 10 None.

Definition a_missing_bloom_cannot_prune : test :=
  let e := entry 1 "a" "z" in
  maybe ← run_lift (bloom_may_contain e (lit "anything"));
  assert maybe.

Definition interval_pruning_is_inclusive_at_both_ends : test :=
  let e := entry 1 "b" "d" in
  _ ← assert (may_contain e (lit "b"));
  _ ← assert (may_contain e (lit "d"));
  _ ← assert (may_contain e (lit "c"));
  _ ← assert (negb (may_contain e (lit "a")));
  assert (negb (may_contain e (lit "e"))).

Definition candidates_come_back_newest_first : test :=
  let index := sort_by newest_first [entry 10 "a" "z"; entry 30 "a" "z"; entry 20 "a" "z"] in
  let got := fe_watermark <$> candidates index (lit "m") in
  assert_eq got [30; 20; 10].

Definition candidates_skip_files_whose_range_excludes_the_key : test :=
  let index := [entry 30 "m" "z"; entry 20 "a" "f"; entry 10 "a" "z"] in
  let got := fe_watermark <$> candidates index (lit "c") in
  assert_eq got [20; 10].

Definition object_path_is_the_bucket_relative_key : test :=
  let base := entry 42 "a" "z" in
  let e := mk_file_entry "hg/main/kv/ducklake-42.parquet" (fe_watermark base) (pk_min base) (pk_max base)
             (file_size base) (record_count base) (bloom base) in
  assert_eq (as_ref (object_path path_from e "warehouse")) "hg/main/kv/ducklake-42.parquet"%string.

Definition unwrap_hex (s : string) : Run unit bytes :=
  run_lift (match decode_hex hex_decode s "pk" with Ok bs => Some bs | Err _ => None end).
Definition hex_bounds_decode_to_raw_bytes : test :=
  bs ← unwrap_hex "6B31"; _ ← assert_eq bs (lit "k1");
  bs ← unwrap_hex "6B393939"; assert_eq bs (lit "k999").
End index_tests.

Lemma index_tests_pass :
  passes a_missing_bloom_cannot_prune tt ∧ passes interval_pruning_is_inclusive_at_both_ends tt ∧
  passes candidates_come_back_newest_first tt ∧
  passes candidates_skip_files_whose_range_excludes_the_key tt ∧
  passes (hex_bounds_decode_to_raw_bytes hex_std) tt.
Proof. unfold passes. split_and!; vm_compute; by eexists. Qed.

(** [Path::from] keeps that path as it is. *)
Lemma object_path_test_passes {P} (path_from : string → P) (as_ref : P → string) :
  as_ref (path_from "hg/main/kv/ducklake-42.parquet"%string) = "hg/main/kv/ducklake-42.parquet"%string →
  passes (object_path_is_the_bucket_relative_key path_from as_ref) tt.
Proof.
  intros Hp. apply passes_eq. etransitivity; [| exact Hp]. unfold object_path. do 2 f_equal.
Qed.
