(* ===== verification/Fetch.v ===== *)
(** Concurrent fetches ([src/src/cache.rs]: [get_byte_ranges] and every reader that
    shares the cache). A fetch is a sequence of atomic steps: the lookup, the count of
    the miss, the answer of the store, the count of its bytes, the insertion. Steps of
    different fetches interleave in any order, and a fetch may be dropped where it
    waits: [try_join_all] drops the others when one fails. *)

From S2P Require Import Prelude Cache.

(** * Steps *)

Inductive progress : Type :=
| Asked
| Missed
| Waiting
| Received (bs : bytes)
| Counted (bs : bytes)
| Returned (bs : bytes)
| Refused (e : Error)
| Unstarted
| Dropped.

(** [Go i]: task [i] runs to its next atomic step. [Drop i]: it is dropped, before it
    has started or while it waits for the store. *)
Inductive move : Type := Go (i : nat) | Drop (i : nat).

Abbreviation task := (Key * progress)%type.

Section join.
Context {St : Type} (get_range : string → Z → Z → M St bytes).

Record join : Type := mk_join { j_cache : ByteCache; j_store : St; j_tasks : list task }.

(** The next step of a fetch, in the order of [fetch_range]. *)
Definition advance (k : Key) (p : progress) (c : ByteCache) (s : St) :
    option (progress * (ByteCache * St)) :=
  match p with
  | Asked =>
    match cache_get k c with
    | (Some bs, c) => Some (Returned bs, (c, s))
    | (None, c) => Some (Missed, (c, s))
    end
  | Missed => Some (Waiting, (set_stats (count_miss (stats c)) c, s))
  | Waiting =>
    match get_range (k_path k) (k_start k) (k_end k) s with
    | (Ok bs, s) => Some (Received bs, (c, s))
    | (Err e, s) => Some (Refused e, (c, s))
    end
  | Received bs => Some (Counted bs, (set_stats (count_fetched (zlen bs) (stats c)) c, s))
  | Counted bs => Some (Returned bs, (cache_insert k bs c, s))
  | _ => None
  end.

Definition step (m : move) (j : join) : option join :=
  match m with
  | Go i =>
    '(k, p) ← j_tasks j !! i;
    '(p, (c, s)) ← advance k p (j_cache j) (j_store j);
    Some (mk_join c s (<[i := (k, p)]> (j_tasks j)))
  | Drop i =>
    '(k, p) ← j_tasks j !! i;
    match p with
    | Asked => Some (mk_join (j_cache j) (j_store j) (<[i := (k, Unstarted)]> (j_tasks j)))
    | Waiting => Some (mk_join (j_cache j) (j_store j) (<[i := (k, Dropped)]> (j_tasks j)))
    | _ => None
    end
  end.

Fixpoint run (ms : list move) (j : join) : option join :=
  match ms with
  | [] => Some j
  | m :: ms => j ← step m j; run ms j
  end.

(** [ranges.into_iter().map(|r| self.fetcher.fetch_range(r))] *)
Definition fetches (path : string) (ranges : list (Z * Z)) : list task :=
  (λ '(s, e), (mk_key path s e, Asked)) <$> ranges.

(** [try_join_all]: the first error there is, else all values in the order of the
    fetches, once all are there. *)
Definition refusal (x : task) : option Error := match x.2 with Refused e => Some e | _ => None end.
Definition value_of (x : task) : option bytes := match x.2 with Returned bs => Some bs | _ => None end.
Definition joined (l : list task) : option (result (list bytes)) :=
  match omap refusal l with
  | e :: _ => Some (Err e)
  | [] => Ok <$> mapM value_of l
  end.

(** * One fetch by itself *)

(** What a finished fetch returned. *)
Definition outcome (p : progress) : option (result bytes) :=
  match p with Returned bs => Some (Ok bs) | Refused e => Some (Err e) | _ => None end.

(** A fetch that nothing interleaves with is [fetch_range]. *)
Lemma fetch_range_steps path start end_ c s r c' s' :
  fetch_range get_range path start end_ (c, s) = (r, (c', s')) →
  ∃ ms p, run ms (mk_join c s [(mk_key path start end_, Asked)]) =
            Some (mk_join c' s' [(mk_key path start end_, p)]) ∧ outcome p = Some r.
Proof.
  intros [(bs & t & E & -> & -> & ->)|[E Hrun]]%fetch_range_cases.
  - exists [Go 0], (Returned bs). split; [| done]. simpl.
    pose proof (cache_get_hit _ _ _ _ E) as Hg. destruct (cache_get _ c) as [g c1]. simpl in Hg. by subst g.
  - destruct (get_range path start end_ s) as [[x|e] s1] eqn:Es; destruct Hrun as (-> & -> & ->).
    + exists [Go 0; Go 0; Go 0; Go 0; Go 0], (Returned x). split; [| done].
      simpl. rewrite (cache_get_miss _ _ E). simpl. by rewrite Es.
    + exists [Go 0; Go 0; Go 0], (Refused e). split; [| done].
      simpl. rewrite (cache_get_miss _ _ E). simpl. by rewrite Es.
Qed.

(** * Termination *)

(** The sum of a number per task. *)
Definition tally (f : progress → nat) (l : list task) : nat := sum_list ((λ x, f x.2) <$> l).

Lemma tally_cons f x l : tally f (x :: l) = (f x.2 + tally f l)%nat.
Proof. done. Qed.

Lemma tally_insert f l i (x y : task) :
  l !! i = Some x → (tally f (<[i := y]> l) + f x.2 = tally f l + f y.2)%nat.
Proof.
  revert i. induction l as [|z l IH]; intros [|i] Hi; try done.
  - injection Hi as ->. change (<[O := y]> (x :: l)) with (y :: l). rewrite !tally_cons. lia.
  - specialize (IH i Hi). change (<[S i := y]> (z :: l)) with (z :: <[i := y]> l).
    rewrite !tally_cons. lia.
Qed.

Lemma tally_elem f l i x : l !! i = Some x → (f x.2 ≤ tally f l)%nat.
Proof.
  revert i. induction l as [|z l IH]; intros [|i] Hi; try done; rewrite tally_cons.
  - injection Hi as ->. lia.
  - specialize (IH i Hi). lia.
Qed.

Lemma tally_fetches f path ranges : tally f (fetches path ranges) = (f Asked * length ranges)%nat.
Proof.
  induction ranges as [|[a b] ranges IH]; [unfold tally; simpl; lia |].
  change (fetches path ((a, b) :: ranges)) with ((mk_key path a b, Asked) :: fetches path ranges).
  rewrite tally_cons, IH. cbn [fst snd length]. lia.
Qed.

Definition work (p : progress) : nat :=
  match p with Asked => 5 | Missed => 4 | Waiting => 3 | Received _ => 2 | Counted _ => 1 | _ => 0 end.
Abbreviation work_left := (tally work).

Lemma advance_work k p c s p' cs : advance k p c s = Some (p', cs) → (work p' < work p)%nat.
Proof.
  destruct p; simpl; try done; try (intros [= <- _]; simpl; lia).
  - destruct (cache_get k c) as [[bs|] c1]; intros [= <- _]; simpl; lia.
  - destruct (get_range _ _ _ s) as [[bs|e] s1]; intros [= <- _]; simpl; lia.
Qed.

Lemma advance_some k p c s : work p ≠ 0%nat → is_Some (advance k p c s).
Proof.
  destruct p; simpl; try done; intros _.
  - by destruct (cache_get k c) as [[bs|] c1].
  - by destruct (get_range _ _ _ s) as [[bs|e] s1].
Qed.

(** What a step does to the tasks. *)
Lemma step_inv m j j' :
  step m j = Some j' →
  ∃ i k p p', j_tasks j !! i = Some (k, p) ∧ j_tasks j' = <[i := (k, p')]> (j_tasks j) ∧
    (work p' < work p)%nat ∧
    (m = Go i ∧ advance k p (j_cache j) (j_store j) = Some (p', (j_cache j', j_store j')) ∨
     m = Drop i ∧ (p = Asked ∧ p' = Unstarted ∨ p = Waiting ∧ p' = Dropped) ∧
       j_cache j' = j_cache j ∧ j_store j' = j_store j).
Proof.
  destruct m as [i|i]; simpl; intros ([k p] & Ei & Hs)%bind_Some.
  - apply bind_Some in Hs as ([p' [c s]] & Ea & [= <-]).
    exists i, k, p, p'. split; [done |]. split; [done |]. split; [by eapply advance_work | by left].
  - destruct p; try discriminate Hs; injection Hs as <-.
    + exists i, k, Asked, Unstarted. split; [done |]. split; [done |]. split; [simpl; lia | right]. naive_solver.
    + exists i, k, Waiting, Dropped. split; [done |]. split; [done |]. split; [simpl; lia | right]. naive_solver.
Qed.

Lemma step_work m j j' : step m j = Some j' → (work_left (j_tasks j') < work_left (j_tasks j))%nat.
Proof.
  intros (i & k & p & p' & Hi & -> & Hw & _)%step_inv.
  pose proof (tally_insert work _ _ _ (k, p') Hi). simpl in *. lia.
Qed.

Lemma run_work ms j j' :
  run ms j = Some j' → (length ms + work_left (j_tasks j') ≤ work_left (j_tasks j))%nat.
Proof.
  revert j. induction ms as [|m ms IH]; intros j; simpl.
  - intros [= <-]. lia.
  - intros (j1 & H1%step_work & H2%IH)%bind_Some. lia.
Qed.

Lemma tally_zero l : work_left l = 0%nat ↔ Forall (λ x, work x.2 = 0%nat) l.
Proof.
  induction l as [|x l IH]; [done |]. rewrite tally_cons, Forall_cons, <- IH. lia.
Qed.

(** Some task can go on as long as one is not done. *)
Lemma can_go j : work_left (j_tasks j) ≠ 0%nat → ∃ i j', step (Go i) j = Some j'.
Proof.
  intros Hw. destruct (decide (Forall (λ x : task, work x.2 = 0%nat) (j_tasks j))) as [Hall|Hex].
  { by apply tally_zero in Hall. }
  apply not_Forall_Exists in Hex; [| apply _].
  apply Exists_exists in Hex as ([k p] & Hin & Hp).
  apply list_elem_of_lookup in Hin as [i Hi]. simpl in Hp.
  destruct (advance_some k p (j_cache j) (j_store j) Hp) as [[p' [c s]] Ha].
  exists i, (mk_join c s (<[i := (k, p')]> (j_tasks j))). simpl. rewrite Hi. simpl. by rewrite Ha.
Qed.

Lemma run_app ms1 ms2 j : run (ms1 ++ ms2) j = (j ← run ms1 j; run ms2 j).
Proof. revert j. induction ms1 as [|m ms1 IH]; intros j; simpl; [done |]. destruct (step m j); [apply IH | done]. Qed.

Lemma can_finish j :
  ∃ ms j', Forall (λ m, ∃ i, m = Go i) ms ∧ run ms j = Some j' ∧ work_left (j_tasks j') = 0%nat.
Proof.
  remember (work_left (j_tasks j)) as n eqn:Hn. revert j Hn.
  induction n as [n IH] using lt_wf_ind; intros j ->.
  destruct (decide (work_left (j_tasks j) = 0%nat)) as [E|E]; [by exists [], j |].
  destruct (can_go j E) as (i & j1 & H1).
  destruct (IH _ (step_work _ _ _ H1) j1 eq_refl) as (ms & j' & Hg & Hr & Hw).
  exists (Go i :: ms), j'. split; [constructor; [by eexists | done] |]. split; [| done].
  cbn [run]. by rewrite H1.
Qed.
End join.
Abbreviation work_left := (tally work).

(** * Counts *)

(** Whether a task may still move the clock of the cache, and whether it has been
    counted as a hit or a miss. *)
Definition pending (p : progress) : nat := match work p with O => 0 | _ => 1 end.
Definition settled (p : progress) : nat := match p with Asked | Missed | Unstarted => 0 | _ => 1 end.

Definition counted (c : ByteCache) (n : Z) : Prop :=
  0 ≤ hits (stats c) ∧ 0 ≤ misses (stats c) ∧ hits (stats c) + misses (stats c) = n.

Lemma as_u64_next z n : 0 ≤ z ≤ n → n + 1 < 2 ^ 64 → as_u64 (z + 1) = z + 1.
Proof. intros. unfold as_u64. apply Z.mod_small. lia. Qed.

Section safe.
Context {St : Type} (get_range : string → Z → Z → M St bytes).
Context (content : string → Z → Z → bytes).
Context (store_serves : ∀ p a b st x st', get_range p a b st = (Ok x, st') → x = content p a b).

Abbreviation advance := (advance get_range).
Abbreviation step := (step get_range).
Abbreviation run := (run get_range).
Abbreviation join := (join (St := St)).
Abbreviation content_of := (content_of content).
Abbreviation coherent := (coherent content).

Lemma advance_counted k p c s p' c' s' n :
  advance k p c s = Some (p', (c', s')) → counted c n → n + 1 < 2 ^ 64 →
  counted c' (n + Z.of_nat (settled p') - Z.of_nat (settled p)).
Proof.
  intros Ha (Hh & Hm & Hn) Hb. unfold counted in *.
  destruct p; simpl in Ha; try discriminate Ha.
  - pose proof (cache_get_counts k c) as Hc. destruct (cache_get k c) as [[bs|] c1]; injection Ha as <- <- <-;
      simpl in Hc; rewrite Hc; simpl; [rewrite (as_u64_next _ n) by lia |]; lia.
  - injection Ha as <- <- <-. simpl. rewrite (as_u64_next _ n) by lia. lia.
  - destruct (get_range _ _ _ s) as [[bs|e] s1]; injection Ha as <- <- <-; simpl; lia.
  - injection Ha as <- <- <-. simpl. lia.
  - injection Ha as <- <- <-. destruct (cache_insert_counts k bs c) as [-> ->]. simpl. lia.
Qed.

(** What a task holds. *)
Definition task_ok (x : task) : Prop :=
  match x.2 with
  | Received bs | Counted bs | Returned bs => bs = content_of x.1
  | Refused e => ∃ s s', get_range (k_path x.1) (k_start x.1) (k_end x.1) s = (Err e, s')
  | _ => True
  end.

Lemma advance_safe k p c s p' c' s' :
  advance k p c s = Some (p', (c', s')) → cache_inv c → coherent c → task_ok (k, p) →
  tick c + Z.of_nat (pending p) ≤ u64_max →
  cache_inv c' ∧ coherent c' ∧ task_ok (k, p') ∧
  tick c' + Z.of_nat (pending p') ≤ tick c + Z.of_nat (pending p).
Proof.
  intros Ha I Hco Hok Ht. pose proof (ci_tick _ I) as Htick.
  destruct p; simpl in Ha; try discriminate Ha; unfold pending in *; simpl in Ht.
  - pose proof (cache_get_inv k c I ltac:(lia)) as I'. pose proof (cache_get_coherent content k c Hco) as Hco'.
    destruct (cache_get_tick k c ltac:(lia)) as [Ht' _].
    destruct (entries c !! k) as [[b t]|] eqn:E.
    + pose proof (cache_get_hit _ _ _ _ E) as Hg. destruct (cache_get k c) as [g c1]. simpl in *. subst g.
      injection Ha as <- <- <-. split_and!; try done; [by apply (Hco _ _ _ E) | simpl; lia].
    + rewrite (cache_get_miss _ _ E) in Ha. injection Ha as <- <- <-. by split_and!.
  - injection Ha as <- <- <-. split; [by apply set_stats_inv | done].
  - destruct (get_range _ _ _ s) as [[bs|e] s1] eqn:Es; injection Ha as <- <- <-; (split; [done |]).
    + split_and!; try done; simpl. by eapply store_serves.
    + split_and!; try done; simpl; [by eexists _, _ | lia].
  - injection Ha as <- <- <-. split; [by apply set_stats_inv | done].
  - injection Ha as <- <- <-. assert (bs = content_of k) as -> by exact Hok.
    destruct (cache_insert_coherent content k c I Hco ltac:(lia)) as (? & ? & ? & _).
    split_and!; try done. simpl. lia.
Qed.

(** The invariant of a join of fetches of the keys; [n] requests have been counted
    before it. *)
Record jinv (keys : list Key) (n : Z) (j : join) : Prop := {
  ji_cache : cache_inv (j_cache j);
  ji_coherent : coherent (j_cache j);
  ji_tasks : Forall task_ok (j_tasks j);
  ji_keys : (j_tasks j).*1 = keys;
  ji_tick : tick (j_cache j) + Z.of_nat (tally pending (j_tasks j)) ≤ u64_max;
  ji_counted : counted (j_cache j) (n + Z.of_nat (tally settled (j_tasks j)));
}.

Lemma tally_le f l : (∀ p, f p ≤ 1)%nat → (tally f l ≤ length l)%nat.
Proof.
  intros Hf. induction l as [|x l IH]; [done |]. rewrite tally_cons. specialize (Hf x.2). simpl. lia.
Qed.
Lemma settled_le p : (settled p ≤ 1)%nat.
Proof. destruct p; simpl; lia. Qed.

Lemma jinv_step keys n m j j' :
  n + zlen keys + 1 < 2 ^ 64 → step m j = Some j' → jinv keys n j → jinv keys n j'.
Proof.
  intros Hn (i & k & p & p' & Hi & Hl & Hw & Hcase)%step_inv [I Hco Hok Hk Ht Hc].
  pose proof (tally_insert pending _ _ _ (k, p') Hi) as Hp.
  pose proof (tally_insert settled _ _ _ (k, p') Hi) as Hs. simpl in Hp, Hs.
  assert ((<[i := (k, p')]> (j_tasks j)).*1 = keys) as Hk'.
  { rewrite list_fmap_insert, Hk. apply list_insert_id. by rewrite <- Hk, list_lookup_fmap, Hi. }
  assert (task_ok (k, p)) as Hokp by (by eapply (Forall_lookup_1 _ _ _ _ Hok)).
  assert (n + Z.of_nat (tally settled (j_tasks j)) + 1 < 2 ^ 64) as Hb.
  { pose proof (tally_le settled (j_tasks j) settled_le) as Hle.
    apply (f_equal length) in Hk. rewrite length_fmap in Hk. unfold zlen in Hn. lia. }
  destruct Hcase as [[-> Ha]|(-> & Hd & Ec & Es)].
  - destruct (advance_safe _ _ _ _ _ _ _ Ha I Hco Hokp) as (I' & Hco' & Hok' & Ht').
    { pose proof (tally_elem pending _ _ _ Hi). simpl in *. lia. }
    split; rewrite ?Hl; try done; [by apply Forall_insert | lia |].
    replace (n + Z.of_nat (tally settled (<[i:=(k, p')]> (j_tasks j)))) with
      (n + Z.of_nat (tally settled (j_tasks j)) + Z.of_nat (settled p') - Z.of_nat (settled p)) by lia.
    by eapply advance_counted.
  - split; rewrite ?Hl, ?Ec; try done.
    + apply Forall_insert; [done |]. by destruct Hd as [[_ ->]|[_ ->]].
    + destruct Hd as [[-> ->]|[-> ->]]; unfold pending in *; simpl in *; lia.
    + destruct Hd as [[-> ->]|[-> ->]]; simpl in Hs;
        by replace (tally settled (<[i:=_]> (j_tasks j))) with (tally settled (j_tasks j)) by lia.
Qed.
Lemma jinv_run keys n ms j j' :
  n + zlen keys + 1 < 2 ^ 64 → run ms j = Some j' → jinv keys n j → jinv keys n j'.
Proof.
  intros Hn. revert j. induction ms as [|m ms IH]; intros j; cbn [Fetch.run].
  - by intros [= <-].
  - intros (j1 & H1 & H2)%bind_Some I. eapply IH; [exact H2 |]. by eapply jinv_step.
Qed.

(** The keys of the ranges of an object. *)
Definition keys_of (path : string) (ranges : list (Z * Z)) : list Key :=
  (λ '(s, e), mk_key path s e) <$> ranges.
Definition contents_of (path : string) (ranges : list (Z * Z)) : list bytes :=
  (λ '(s, e), content path s e) <$> ranges.

Lemma jinv_start path ranges c s n :
  cache_inv c → coherent c → tick c + zlen ranges ≤ u64_max → counted c n →
  jinv (keys_of path ranges) n (mk_join c s (fetches path ranges)).
Proof.
  intros I Hco Ht Hc. split; try done; cbn [j_cache j_tasks].
  - unfold fetches. apply Forall_fmap, Forall_true. by intros [a b].
  - unfold fetches, keys_of. rewrite <- list_fmap_compose. apply list_fmap_ext. by intros _ [a b] _.
  - rewrite tally_fetches. unfold pending, work, zlen in *. lia.
  - rewrite tally_fetches. by replace (n + Z.of_nat (settled Asked * length ranges)) with n by (simpl; lia).
Qed.

(** The joined values are the contents. *)
Lemma joined_contents (l : list task) bss :
  Forall task_ok l → joined l = Some (Ok bss) → bss = content_of <$> l.*1.
Proof.
  unfold joined. destruct (omap refusal l); [| done]. intros Hok H.
  destruct (mapM value_of l) as [bss'|] eqn:E; [| done]. injection H as <-.
  apply mapM_Some_1 in E. induction E as [|[k p] bs l bss Hv E IH]; [done |].
  apply Forall_cons in Hok as [Hk Hok]. rewrite IH by done. rewrite !fmap_cons. f_equal.
  unfold value_of in Hv. simpl in Hv. destruct p; try discriminate Hv. by injection Hv as <-.
Qed.

Lemma joined_refused (l : list task) e :
  Forall task_ok l → joined l = Some (Err e) →
  ∃ k s s', k ∈ l.*1 ∧ get_range (k_path k) (k_start k) (k_end k) s = (Err e, s').
Proof.
  unfold joined. destruct (omap refusal l) as [|e' es] eqn:E.
  - by destruct (mapM value_of l).
  - intros Hok [= <-]. assert (e' ∈ omap refusal l) as Hin by (rewrite E; by left).
    apply list_elem_of_omap in Hin as ([k p] & Hin & Hr). rewrite Forall_forall in Hok.
    specialize (Hok _ Hin). unfold refusal in Hr. simpl in Hr. destruct p; try discriminate Hr.
    injection Hr as ->. destruct Hok as (st & st' & Hg). exists k, st, st'. split; [| done].
    by apply (list_elem_of_fmap_2 fst _ (k, Refused e')).
Qed.

(** The fetches one after another. *)
Lemma get_byte_ranges_contents path ranges : ∀ c s r c' s',
  cache_inv c → coherent c → tick c + zlen ranges < u64_max →
  get_byte_ranges get_range path ranges (c, s) = (Ok r, (c', s')) → r = contents_of path ranges.
Proof.
  induction ranges as [|[a b] ranges IH]; intros c s r c' s' I Hco Ht.
  { by intros [= <- _ _]. }
  rewrite zlen_cons in Ht. pose proof (zlen_nonneg ranges). pose proof (ci_tick _ I). simpl.
  intros [(bs & [c1 s1] & E1 & H2)|(e & _ & ?)]%bind_inv; [| done].
  apply bind_inv in H2 as [(rest & [c2 s2] & E2 & [= <- _ _])|(e & _ & ?)]; [| done].
  assert (bs = content path a b ∧ cache_inv c1 ∧ coherent c1 ∧ tick c1 ≤ tick c + 1) as (-> & I1 & Hco1 & Ht1).
  { apply fetch_range_cases in E1 as [(x & t & E & [= ->] & -> & ->)|[E Hr]].
    - split; [by apply (Hco _ _ _ E) |]. split; [apply cache_get_inv; [done | lia] |].
      split; [by apply cache_get_coherent |]. destruct (cache_get_tick (mk_key path a b) c); lia.
    - destruct (get_range path a b s) as [[x|e] s3] eqn:Es; destruct Hr as ([= ->] & -> & ->).
      rewrite (store_serves _ _ _ _ _ _ Es).
      destruct (cache_insert_coherent content (mk_key path a b) (set_stats (count_fetched
        (zlen (content path a b)) (count_miss (stats c))) c)) as (? & ? & [_ Htick] & _);
        [by apply set_stats_inv | exact Hco | simpl; lia |]. by split_and!. }
  rewrite (IH c1 s1 rest c2 s2); [done.. | lia | done].
Qed.

(** C21: concurrent fetches answer as sequential ones. Whatever the schedule of the
    fetches of [get_byte_ranges], and whichever of them are dropped: when the join
    returns values they are the bytes of the object's ranges, in the order of the
    ranges, as when each fetch runs to its end before the next; when it returns an
    error the store refused one of the ranges; and the cache they share stays bounded,
    exact and coherent at every moment. *)
Theorem fetches_agree path ranges ms c s j :
  cache_inv c → coherent c → tick c + zlen ranges < u64_max →
  0 ≤ hits (stats c) → 0 ≤ misses (stats c) →
  hits (stats c) + misses (stats c) + zlen ranges + 1 < 2 ^ 64 →
  run ms (mk_join c s (fetches path ranges)) = Some j →
  cache_inv (j_cache j) ∧ coherent (j_cache j) ∧
  (∀ bss, joined (j_tasks j) = Some (Ok bss) →
    bss = contents_of path ranges ∧
    ∀ r c' s', get_byte_ranges get_range path ranges (c, s) = (Ok r, (c', s')) → r = bss) ∧
  (∀ e, joined (j_tasks j) = Some (Err e) →
    ∃ k st st', k ∈ keys_of path ranges ∧ get_range (k_path k) (k_start k) (k_end k) st = (Err e, st')).
Proof.
  intros I Hco Ht Hh Hm Hb Hrun.
  assert (jinv (keys_of path ranges) (hits (stats c) + misses (stats c)) j) as [I' Hco' Hok Hk _ _].
  { eapply jinv_run; [| exact Hrun | apply jinv_start; [done | done | lia | done]].
    unfold keys_of, zlen in *. rewrite length_fmap. lia. }
  split; [done |]. split; [done |]. split.
  - intros bss Hj. assert (bss = contents_of path ranges) as ->.
    { rewrite (joined_contents _ _ Hok Hj), Hk. unfold keys_of, contents_of. rewrite <- list_fmap_compose.
      apply list_fmap_ext. by intros _ [a b] _. }
    split; [done |]. intros r c' s' Hseq. by apply (get_byte_ranges_contents path ranges c s r c' s').
  - intros e Hj. rewrite <- Hk. by apply joined_refused.
Qed.

(** C30: every lookup is counted once. Over any interleaving the hits and misses have
    grown by the number of fetches that have been looked up and counted, so once all are
    done by the number of fetches: no count is lost or doubled, and the hit rate is one
    of the lookups. *)
Theorem fetches_accounted path ranges ms c s j n :
  cache_inv c → coherent c → tick c + zlen ranges < u64_max → counted c n →
  n + zlen ranges + 1 < 2 ^ 64 →
  run ms (mk_join c s (fetches path ranges)) = Some j →
  counted (j_cache j) (n + Z.of_nat (tally settled (j_tasks j))) ∧
  (Forall (λ x, is_Some (value_of x)) (j_tasks j) → counted (j_cache j) (n + zlen ranges)).
Proof.
  intros I Hco Ht Hc Hn Hrun.
  assert (jinv (keys_of path ranges) n j) as [_ _ _ Hk _ Hc'].
  { eapply jinv_run; [| exact Hrun | apply jinv_start; [done | done | lia | done]].
    unfold keys_of, zlen in *. rewrite length_fmap. lia. }
  split; [done |]. intros Hall.
  assert (tally settled (j_tasks j) = length ranges) as E.
  { apply (f_equal length) in Hk. unfold keys_of in Hk. rewrite !length_fmap in Hk. rewrite <- Hk.
    clear - Hall. induction Hall as [|[k p] l [v Hv] _ IH]; [done |]. rewrite tally_cons, IH.
    unfold value_of in Hv. simpl in *. by destruct p. }
  by rewrite E in Hc'.
Qed.
End safe.

(** * Every join ends *)

Section ends.
Context {St : Type} (get_range : string → Z → Z → M St bytes).

(** Neither refused nor dropped. *)
Definition serving (x : task) : Prop :=
  match x.2 with Refused _ | Unstarted | Dropped => False | _ => True end.

Lemma serving_run ms j j' :
  (∀ p a b st, is_ok (get_range p a b st).1 = true) → Forall (λ m, ∃ i, m = Go i) ms →
  run get_range ms j = Some j' → Forall serving (j_tasks j) → Forall serving (j_tasks j').
Proof.
  intros Hs Hgo. revert j. induction Hgo as [|m ms [i ->] _ IH]; intros j; cbn [run].
  - by intros [= <-].
  - intros (j1 & H1 & H2)%bind_Some Hok. apply (IH j1 H2).
    apply step_inv in H1 as (i' & k & p & p' & Hi & -> & _ & [[_ Ha]|[? _]]); [| done].
    apply Forall_insert; [done |]. pose proof (Forall_lookup_1 _ _ _ _ Hok Hi) as Hp.
    destruct p; simpl in Ha; try discriminate Ha; try (by injection Ha as <- _ _).
    + destruct (cache_get k (j_cache j)) as [[bs|] c1]; by injection Ha as <- _ _.
    + specialize (Hs (k_path k) (k_start k) (k_end k) (j_store j)).
      destruct (get_range _ _ _ (j_store j)) as [[bs|e] s1]; [by injection Ha as <- _ _ | done].
Qed.

Lemma joined_done (l : list task) :
  Forall serving l → work_left l = 0%nat → ∃ bss, joined l = Some (Ok bss).
Proof.
  intros Hs Hw. apply tally_zero in Hw. unfold joined.
  assert (omap refusal l = [] ∧ is_Some (mapM value_of l)) as [-> [bss ->]]; [| by eexists].
  induction l as [|[k p] l IH]; [by split |].
  apply Forall_cons in Hs as [Hs1 Hs], Hw as [Hw1 Hw]. destruct (IH Hs Hw) as [E [bss E']].
  destruct p; try done. simpl in *. rewrite E'. split; [done | by eexists].
Qed.

(** A join of fetches ends. No schedule makes more than five steps per range, from
    wherever it stands the rest can be finished, and when the store serves every request
    and nothing is dropped the join returns all values. *)
Theorem fetches_terminate path ranges ms c s j :
  run get_range ms (mk_join c s (fetches path ranges)) = Some j →
  (length ms ≤ 5 * length ranges)%nat ∧
  ∃ ms' j', Forall (λ m, ∃ i, m = Go i) ms' ∧ run get_range ms' j = Some j' ∧
    work_left (j_tasks j') = 0%nat ∧
    ((∀ p a b st, is_ok (get_range p a b st).1 = true) → Forall (λ m, ∃ i, m = Go i) ms →
     ∃ bss, joined (j_tasks j') = Some (Ok bss)).
Proof.
  intros Hrun. pose proof (run_work _ _ _ _ Hrun) as Hw. cbn [j_tasks] in Hw.
  rewrite tally_fetches in Hw. split; [simpl in Hw; lia |].
  destruct (can_finish get_range j) as (ms' & j' & Hgo' & Hrun' & Hw'). exists ms', j'.
  split_and!; try done. intros Hs Hgo. apply joined_done; [| done].
  apply (serving_run ms' j j' Hs Hgo' Hrun'), (serving_run ms _ j Hs Hgo Hrun).
  apply Forall_fmap, Forall_true. by intros [a b].
Qed.
End ends.

(** * Examples *)

(** Two fetches of one range and one of another, all started together: both of the
    first miss, the store is asked twice, and the second answer replaces the first. *)
Definition ex_content (path : string) (a b : Z) : bytes := replicate (Z.to_nat (b - a)) Byte.x2a.
Definition ex_range (path : string) (a b : Z) : M nat bytes := λ n, (Ok (ex_content path a b), S n).
Definition ex_ranges : list (Z * Z) := [(0, 2); (0, 2); (2, 4)].
Definition ex_moves : list move :=
  [Go 0; Go 1; Go 2; Go 0; Go 1; Go 2; Go 1; Go 0; Go 2; Go 0; Go 0; Go 1; Go 1; Go 2; Go 2].
Definition ex_start : join := mk_join (cache_new 8) 0%nat (fetches "f" ex_ranges).
Definition ex_end : join := default ex_start (run ex_range ex_moves ex_start).

Lemma ex_run : run ex_range ex_moves ex_start = Some ex_end.
Proof.
  unfold ex_end. destruct (run ex_range ex_moves ex_start) as [j|] eqn:E; [done |].
  assert (bool_decide (is_Some (run ex_range ex_moves ex_start)) = true) as H by (vm_compute; reflexivity).
  rewrite E in H. by apply bool_decide_eq_true in H as [? ?].
Qed.

Lemma ex_new_inv : cache_inv (cache_new 8).
Proof. apply cache_new_inv. lia. Qed.
Lemma ex_new_coherent : coherent ex_content (cache_new 8).
Proof. intros k bs t E. by simpl in E. Qed.
Lemma ex_serves p a b st x st' : ex_range p a b st = (Ok x, st') → x = ex_content p a b.
Proof. by intros [= <- _]. Qed.

Lemma fetches_agree_witness :
  joined (j_tasks ex_end) = Some (Ok (contents_of ex_content "f" ex_ranges)) ∧
  j_store ex_end = 3%nat ∧ cache_inv (j_cache ex_end) ∧ resident (j_cache ex_end) = 4.
Proof.
  split; [vm_compute; reflexivity |]. split; [vm_compute; reflexivity |].
  split; [| vm_compute; reflexivity].
  apply (fetches_agree ex_range ex_content ex_serves "f" ex_ranges ex_moves (cache_new 8) 0%nat ex_end
    ex_new_inv ex_new_coherent); [vm_compute; done.. | exact ex_run].
Defined.

Lemma fetches_accounted_witness : counted (j_cache ex_end) 3 ∧ misses (stats (j_cache ex_end)) = 3.
Proof.
  split; [| vm_compute; reflexivity].
  apply (fetches_accounted ex_range ex_content ex_serves "f" ex_ranges ex_moves (cache_new 8) 0%nat ex_end 0
    ex_new_inv ex_new_coherent); [vm_compute; done | by split_and! | vm_compute; done | exact ex_run |].
  repeat constructor; by eexists.
Defined.

Lemma fetches_terminate_witness : (length ex_moves ≤ 15)%nat ∧ work_left (j_tasks ex_end) = 0%nat.
Proof.
  split; [| vm_compute; reflexivity].
  apply (fetches_terminate ex_range "f" ex_ranges ex_moves (cache_new 8) 0%nat ex_end ex_run).
Defined.
