(* ===== verification/WorkingSet.v ===== *)
(** What a sequence of reads does to the byte cache ([src/src/cache.rs]), whose size
    [src/src/bin/bench.rs] sweeps. A cache with room for all that is read keeps it and
    never misses again. In a cache of any size a fetch hits exactly when the range and
    all that was fetched since its last fetch fit together ([hits_by_reuse]); so a cycle
    over distinct ranges that do not all fit never hits. *)

From S2P Require Import Prelude Cache.

(** Fetches of whole keys, one after another. *)
Section fetch_keys.
Context {St : Type} (get_range : string → Z → Z → M St bytes).

Definition fetch_key (k : Key) : M (ByteCache * St) unit :=
  _ ← fetch_range get_range (k_path k) (k_start k) (k_end k); mret tt.
Definition fetch_keys (ks : list Key) : M (ByteCache * St) unit := m_iter fetch_key ks.

Lemma key_eta k : mk_key (k_path k) (k_start k) (k_end k) = k.
Proof. by destruct k. Qed.

Lemma fetch_key_hit k bs t c s :
  entries c !! k = Some (bs, t) → fetch_key k (c, s) = (Ok tt, ((cache_get k c).2, s)).
Proof.
  intros E. unfold fetch_key.
  destruct (fetch_range get_range (k_path k) (k_start k) (k_end k) (c, s)) as [r [c' s']] eqn:F.
  pose proof (fetch_range_cases _ _ _ _ _ _ _ _ _ F) as H. rewrite key_eta in H.
  destruct H as [(x & u & Ex & -> & -> & ->)|[Ex _]]; [| congruence].
  by rewrite (bind_ok _ _ _ _ _ F).
Qed.

Lemma fetch_key_miss k c s c' s' :
  entries c !! k = None → fetch_key k (c, s) = (Ok tt, (c', s')) →
  ∃ x, get_range (k_path k) (k_start k) (k_end k) s = (Ok x, s') ∧
    c' = cache_insert k x (set_stats (count_fetched (zlen x) (count_miss (stats c))) c).
Proof.
  intros E. unfold fetch_key. intros [(x & [c1 s1] & F & [= <- <-])|(e & _ & ?)]%bind_inv; [| done].
  pose proof (fetch_range_cases _ _ _ _ _ _ _ _ _ F) as H. rewrite key_eta in H.
  destruct H as [(y & u & Ex & _)|[_ H]]; [congruence |].
  destruct (get_range _ _ _ s) as [[y|e] s2]; destruct H as ([= ->] & -> & ->). by exists y.
Qed.

Lemma fetch_keys_inv k ks c s r st' :
  fetch_keys (k :: ks) (c, s) = (r, st') →
  (∃ c1 s1, fetch_key k (c, s) = (Ok tt, (c1, s1)) ∧ fetch_keys ks (c1, s1) = (r, st')) ∨
  ∃ e, fetch_key k (c, s) = (Err e, st') ∧ r = Err e.
Proof.
  intros [([] & [c1 s1] & F & H)|(e & F & ->)]%bind_inv; [left; by exists c1, s1 | right; by exists e].
Qed.
End fetch_keys.

(** * Room for everything *)

Section room.
Context (content : string → Z → Z → bytes).
Abbreviation content_of := (content_of content).
Abbreviation coherent := (coherent content).

(** The bytes of a set of ranges. *)
Definition weight (K : gset Key) : Z := foldr (λ k n, zlen (content_of k) + n) 0 (elements K).

Lemma foldr_weight_perm l1 l2 :
  l1 ≡ₚ l2 → foldr (λ k n, zlen (content_of k) + n) 0 l1 = foldr (λ k n, zlen (content_of k) + n) 0 l2.
Proof. induction 1; simpl; lia. Qed.
Lemma foldr_weight_app l1 l2 :
  foldr (λ k n, zlen (content_of k) + n) 0 (l1 ++ l2) =
  foldr (λ k n, zlen (content_of k) + n) 0 l1 + foldr (λ k n, zlen (content_of k) + n) 0 l2.
Proof. induction l1; simpl; lia. Qed.

Lemma weight_disj_union K1 K2 : K1 ## K2 → weight (K1 ∪ K2) = weight K1 + weight K2.
Proof.
  intros Hd. unfold weight. rewrite <- foldr_weight_app. by apply foldr_weight_perm, elements_disj_union.
Qed.
Lemma weight_nonneg K : 0 ≤ weight K.
Proof.
  unfold weight. induction (elements K) as [|k l IH]; simpl; [lia |].
  pose proof (zlen_nonneg (content_of k)). lia.
Qed.
Lemma weight_singleton k : weight {[k]} = zlen (content_of k).
Proof. unfold weight. rewrite elements_singleton. simpl. lia. Qed.
Lemma weight_mono K1 K2 : K1 ⊆ K2 → weight K1 ≤ weight K2.
Proof.
  intros Hsub. rewrite (union_difference_L K1 K2 Hsub), weight_disj_union by set_solver.
  pose proof (weight_nonneg (K2 ∖ K1)). lia.
Qed.

Lemma entries_weight (m : gmap Key (bytes * Z)) :
  (∀ k bs t, m !! k = Some (bs, t) → bs = content_of k) → entries_size m = weight (dom m).
Proof.
  induction m as [|k [bs t] m Hk IH] using map_ind; intros Hm.
  { rewrite dom_empty_L. unfold weight. by rewrite elements_empty. }
  rewrite entries_size_insert, dom_insert_L, weight_disj_union, weight_singleton by
    (done || (apply not_elem_of_dom in Hk; set_solver)).
  rewrite IH, (Hm k bs t) by (apply lookup_insert_eq ||
    (intros k' bs' t' Hk'; apply (Hm k' bs' t'); rewrite lookup_insert_ne by congruence; exact Hk')).
  done.
Qed.

(** An insertion there is room for evicts nothing. *)
Lemma cache_insert_room k bs c :
  cache_inv c → entries c !! k = None → resident c + zlen bs ≤ max_bytes c → tick c < u64_max →
  cache_insert k bs c =
    mk_cache (<[k := (bs, tick c + 1)]> (entries c)) (<[tick c + 1 := k]> (by_recency c))
      (resident c + zlen bs) (tick c + 1) (max_bytes c) (stats c).
Proof.
  intros I E Hroom Ht. pose proof (ci_bound _ I). pose proof (ci_resident _ I).
  pose proof (entries_size_nonneg (entries c)). pose proof (zlen_nonneg bs). pose proof (ci_tick _ I).
  unfold cache_insert. rewrite (proj2 (Z.ltb_ge _ _)) by lia.
  assert (forget k (zlen bs) c = c) as -> by (unfold forget; by rewrite E).
  cbn [evict]. assert (as_u64 (resident c + zlen bs) = resident c + zlen bs) as Hr
    by (unfold as_u64; apply Z.mod_small; lia).
  rewrite Hr, (proj2 (Z.ltb_ge _ _)) by lia. cbn zeta. by rewrite Hr, as_u64_succ.
Qed.

(** A cache that has fetched this set, all of it there. *)
Record holds_set (n : Z) (K : gset Key) (c : ByteCache) : Prop := {
  hs_inv : cache_inv c;
  hs_coherent : coherent c;
  hs_dom : dom (entries c) = K;
  hs_max : max_bytes c = n;
}.

Lemma holds_resident n K c : holds_set n K c → resident c = weight K.
Proof. intros H. by rewrite (ci_resident _ (hs_inv _ _ _ H)), entries_weight, (hs_dom _ _ _ H) by apply H. Qed.

Lemma holds_get n K k c :
  holds_set n K c → k ∈ K → tick c < u64_max →
  holds_set n K (cache_get k c).2 ∧ stats (cache_get k c).2 = count_hit (stats c) ∧
  tick (cache_get k c).2 ≤ tick c + 1.
Proof.
  intros [I Hco Hd Hm] Hk Ht. pose proof (ci_tick _ I).
  assert (is_Some (entries c !! k)) as [[bs t] E] by (apply elem_of_dom; by rewrite Hd).
  destruct (cache_get_tick k c ltac:(lia)) as [Ht' Hm'].
  split; [| split; [unfold cache_get; by rewrite E | lia]].
  split; [by apply cache_get_inv | by apply cache_get_coherent | | congruence].
  unfold cache_get. rewrite E. simpl. rewrite dom_insert_L, Hd. set_solver.
Qed.

Section serves.
Context {St : Type} (get_range : string → Z → Z → M St bytes).
Context (store_serves : ∀ p a b st x st', get_range p a b st = (Ok x, st') → x = content p a b).

(** Fetching more of the set. *)
Lemma warm_fetch n K k c s c' s' :
  holds_set n K c → weight ({[k]} ∪ K) ≤ n → tick c < u64_max →
  fetch_key get_range k (c, s) = (Ok tt, (c', s')) →
  holds_set n ({[k]} ∪ K) c' ∧ evictions (stats c') = evictions (stats c) ∧ tick c' ≤ tick c + 1.
Proof.
  intros H Hw Ht Hrun. pose proof H as [I Hco Hd Hm].
  destruct (entries c !! k) as [[bs t]|] eqn:E.
  - rewrite (fetch_key_hit _ _ _ _ _ _ E) in Hrun. injection Hrun as <- <-.
    assert (k ∈ K) as Hk by (rewrite <- Hd; by apply elem_of_dom_2 in E).
    destruct (holds_get n K k c H Hk Ht) as (H' & -> & Ht'). split; [| split; [done | lia]].
    by replace ({[k]} ∪ K) with K by set_solver.
  - assert (k ∉ K) as Hk by (rewrite <- Hd; by apply not_elem_of_dom).
    apply fetch_key_miss in Hrun as (x & Es & ->); [| done]. apply store_serves in Es.
    assert (x = content_of k) as -> by exact Es. clear Es.
    rewrite weight_disj_union, weight_singleton in Hw by set_solver.
    set (c1 := set_stats _ c). assert (cache_inv c1) as I1 by (by apply set_stats_inv).
    assert (resident c1 = weight K) as Hr by (by apply (holds_resident n)).
    assert (resident c1 + zlen (content_of k) ≤ max_bytes c1) as Hroom
      by (change (max_bytes c1) with (max_bytes c); lia).
    destruct (cache_insert_coherent content k c1 I1 Hco Ht) as (I2 & Hco2 & Htk & Hm2).
    change (content_of k) with (content (k_path k) (k_start k) (k_end k)) in *.
    rewrite (cache_insert_room k _ c1 I1 E Hroom Ht) in *. cbn [tick] in Htk.
    split; [split; [done | done | | done] | done].
    cbn [entries]. change (entries c1) with (entries c). by rewrite dom_insert_L, (hs_dom _ _ _ H).
Qed.

Lemma warm_fetches n ks : ∀ K c s c' s',
  holds_set n K c → weight (list_to_set ks ∪ K) ≤ n → tick c + zlen ks < u64_max →
  fetch_keys get_range ks (c, s) = (Ok tt, (c', s')) →
  holds_set n (list_to_set ks ∪ K) c' ∧ evictions (stats c') = evictions (stats c) ∧
  tick c' ≤ tick c + zlen ks.
Proof.
  induction ks as [|k ks IH]; intros K c s c' s' H Hw Ht.
  { intros [= <- <-]. split; [| split; [done | rewrite zlen_nil; lia]]. by replace (list_to_set [] ∪ K) with K by set_solver. }
  rewrite zlen_cons in *. pose proof (zlen_nonneg ks).
  intros [(c1 & s1 & E1 & E2)|(e & _ & ?)]%fetch_keys_inv; [| done].
  destruct (warm_fetch n K k c s c1 s1 H) as (H1 & Hv1 & Ht1); [| lia | done |].
  { etrans; [| exact Hw]. apply weight_mono. set_solver. }
  destruct (IH ({[k]} ∪ K) c1 s1 c' s' H1) as (H2 & Hv2 & Ht2); [| lia | done |].
  { etrans; [| exact Hw]. apply weight_mono. set_solver. }
  split; [| split; [congruence | lia]].
  by replace (list_to_set (k :: ks) ∪ K) with (list_to_set ks ∪ ({[k]} ∪ K)) by set_solver.
Qed.

Lemma iter_count_hit j st :
  0 ≤ hits st → hits st + Z.of_nat j < 2 ^ 64 →
  hits (Nat.iter j count_hit st) = hits st + Z.of_nat j ∧ misses (Nat.iter j count_hit st) = misses st.
Proof.
  intros Hh. induction j as [|j IH]; intros Hb; simpl; [split; [lia | done] |].
  destruct IH as [-> ->]; [lia |]. split; [unfold as_u64; rewrite Z.mod_small; lia | done].
Qed.

(** Reading the set again. *)
Lemma hot_fetches n K ks : ∀ c s,
  holds_set n K c → Forall (λ k, k ∈ K) ks → tick c + zlen ks < u64_max →
  ∃ c', fetch_keys get_range ks (c, s) = (Ok tt, (c', s)) ∧ holds_set n K c' ∧
    stats c' = Nat.iter (length ks) count_hit (stats c).
Proof.
  induction ks as [|k ks IH]; intros c s H Hks Ht; [by exists c |].
  rewrite zlen_cons in Ht. pose proof (zlen_nonneg ks). apply Forall_cons in Hks as [Hk Hks].
  destruct (holds_get n K k c H Hk ltac:(lia)) as (H1 & E1 & T1).
  assert (is_Some (entries c !! k)) as [[bs t] E] by (apply elem_of_dom; by rewrite (hs_dom _ _ _ H)).
  destruct (IH (cache_get k c).2 s H1 Hks) as (c' & Hrun & H' & Es); [lia |].
  exists c'. split; [| split; [done |]].
  - unfold fetch_keys. cbn [m_iter]. by rewrite (bind_ok _ _ _ _ _ (fetch_key_hit get_range k bs t c s E)).
  - by rewrite Es, E1, <- Nat.iter_succ_r.
Qed.

(** A cache with room for the working set never misses again. After every range of
    the set has been fetched once into a new cache, the resident bytes are exactly those
    of the set, which is how the benchmark measures it; nothing was evicted; and from then
    on any reads of the set are hits, every one, whatever the store would say. *)
Theorem warm_cache_never_misses n ks qs s c1 s1 :
  0 ≤ n < 2 ^ 63 → weight (list_to_set ks) ≤ n → zlen ks + zlen qs < u64_max →
  Forall (λ k, k ∈ ks) qs → fetch_keys get_range ks (cache_new n, s) = (Ok tt, (c1, s1)) →
  sn_bytes_resident (cache_stats c1) = weight (list_to_set ks) ∧ sn_evictions (cache_stats c1) = 0 ∧
  ∃ c2, fetch_keys get_range qs (reset_stats c1, s1) = (Ok tt, (c2, s1)) ∧
    sn_hits (cache_stats c2) = zlen qs ∧ sn_misses (cache_stats c2) = 0 ∧
    sn_bytes_resident (cache_stats c2) = weight (list_to_set ks).
Proof.
  intros Hn Hw Ht Hqs Hrun. pose proof (zlen_nonneg ks). pose proof (zlen_nonneg qs).
  assert (holds_set n ∅ (cache_new n)) as Hnew.
  { split; [by apply cache_new_inv | | apply dom_empty_L | done]. intros k bs t E. by simpl in E. }
  destruct (warm_fetches n ks ∅ (cache_new n) s c1 s1 Hnew) as (H1 & Hv & Ht1); [by rewrite union_empty_r_L | simpl; lia | exact Hrun |].
  rewrite union_empty_r_L in H1. simpl in Hv, Ht1.
  destruct (hot_fetches n (list_to_set ks) qs (reset_stats c1) s1) as (c2 & Hrun2 & H2 & Es).
  { destruct H1. split; [by apply set_stats_inv | done..]. }
  { eapply Forall_impl; [exact Hqs |]. intros k. by rewrite elem_of_list_to_set. }
  { simpl. lia. }
  unfold cache_stats. cbn [sn_bytes_resident sn_evictions sn_hits sn_misses].
  split; [by apply (holds_resident n) |]. split; [done |].
  exists c2. split; [done |]. rewrite Es. cbn [stats reset_stats set_stats].
  rewrite (proj1 (iter_count_hit (length qs) (mk_stats 0 0 0 0) ltac:(done) ltac:(unfold zlen in *; simpl; unfold u64_max in *; lia))).
  rewrite (proj2 (iter_count_hit (length qs) (mk_stats 0 0 0 0) ltac:(done) ltac:(unfold zlen in *; simpl; unfold u64_max in *; lia))).
  split; [done |]. split; [done |]. by apply (holds_resident n).
Qed.
End serves.
End room.

(** * Any size, any reads *)

(** The ranges fetched since [k] was last, [k] with them; [q] is what was fetched
    before, the latest first. *)
Fixpoint since (k : Key) (q : list Key) : option (gset Key) :=
  match q with
  | [] => None
  | x :: q => if decide (x = k) then Some {[k]} else (λ K, {[x]} ∪ K) <$> since k q
  end.

Lemma since_self k q K : since k q = Some K → k ∈ K.
Proof.
  revert K. induction q as [|x q IH]; intros K; simpl; [done |]. case_decide as E.
  - intros [= <-]. set_solver.
  - destruct (since k q) as [K1|]; [| done]. intros [= <-]. specialize (IH K1 eq_refl). set_solver.
Qed.

(** What was fetched since [k] was fetched again since then, or has a later last fetch. *)
Lemma since_nest k q K x :
  since k q = Some K → x ∈ K → ∃ K', since x q = Some K' ∧ K' ⊆ K.
Proof.
  revert K. induction q as [|y q IH]; intros K; simpl; [done |]. case_decide as Ey.
  - intros [= <-] ->%elem_of_singleton. subst y. rewrite decide_True by done. eauto.
  - destruct (since k q) as [K1|]; [| done]. intros [= <-] Hx. case_decide as Ex.
    + subst y. exists {[x]}. split; [done | set_solver].
    + destruct (IH K1 eq_refl) as (K' & -> & Hsub); [set_solver |]. exists ({[y]} ∪ K'). split; [done | set_solver].
Qed.

Lemma since_total k q K k' K' :
  since k q = Some K → since k' q = Some K' → k ∉ K' → K' ⊆ K.
Proof.
  revert K K'. induction q as [|y q IH]; intros K K'; simpl; [done |].
  case_decide as E1; case_decide as E2.
  - intros [= <-] [= <-]. subst. set_solver.
  - destruct (since k' q); [| done]. intros [= <-] [= <-]. set_solver.
  - destruct (since k q); [| done]. intros [= <-] [= <-]. subst. intros _.
    apply singleton_subseteq_l. set_solver.
  - destruct (since k q) as [K1|], (since k' q) as [K1'|]; try done. intros [= <-] [= <-] Hk.
    assert (K1' ⊆ K1) by (apply IH; [done | done | set_solver]). set_solver.
Qed.

Lemma since_after l k q : k ∉ l → since k (l ++ k :: q) = Some (list_to_set l ∪ {[k]}).
Proof.
  induction l as [|x l IH]; intros Hk; simpl.
  - rewrite decide_True by done. f_equal. set_solver.
  - apply not_elem_of_cons in Hk as [Hne Hk]. rewrite decide_False, IH by done. simpl. f_equal. set_solver.
Qed.
Lemma since_never k q : k ∉ q → since k q = None.
Proof.
  induction q as [|x q IH]; intros Hk; simpl; [done |]. apply not_elem_of_cons in Hk as [Hne Hk].
  by rewrite decide_False, IH.
Qed.

Section lru.
Context {St : Type} (get_range : string → Z → Z → M St bytes).
Context (content : string → Z → Z → bytes).
Context (store_serves : ∀ p a b st x st', get_range p a b st = (Ok x, st') → x = content p a b).
(** The size of the cache. *)
Context (n : Z).

Abbreviation content_of := (content_of content).
Abbreviation weight := (weight content).
Abbreviation fetch_key := (fetch_key get_range).
Abbreviation fetch_keys := (fetch_keys get_range).

(** What a cache of [n] bytes that forgets the least recently used answers, told from
    the fetches alone: [k] is there if it and all that was fetched since fit together. *)
Definition remembered (q : list Key) (k : Key) : bool :=
  match since k q with Some K => weight K <=? n | None => false end.
(** A range larger than the cache is not kept and moves nothing out. *)
Definition seen (q : list Key) (k : Key) : list Key :=
  if zlen (content_of k) <=? n then k :: q else q.
Fixpoint missed (q ks : list Key) : list Key :=
  match ks with
  | [] => []
  | k :: ks => if remembered q k then missed (seen q k) ks else k :: missed (seen q k) ks
  end.

(** The fetches of [ks] from the store itself. *)
Definition ask (k : Key) : M St unit := _ ← get_range (k_path k) (k_start k) (k_end k); mret tt.

(** The cache after the fetches [q]. *)
Record follows (q : list Key) (c : ByteCache) : Prop := {
  fo_inv : cache_inv c;
  fo_coherent : coherent content c;
  fo_max : max_bytes c = n;
  fo_held k : is_Some (entries c !! k) ↔ remembered q k = true;
  fo_order k b t k' b' t' K : entries c !! k = Some (b, t) → entries c !! k' = Some (b', t') →
    since k' q = Some K → t' ≤ t ↔ k ∈ K;
}.

Lemma remembered_true q k : remembered q k = true ↔ ∃ K, since k q = Some K ∧ weight K ≤ n.
Proof.
  unfold remembered. destruct (since k q) as [K|].
  - rewrite Z.leb_le. split; [by exists K | by intros (? & [= ->] & ?)].
  - split; [done | by intros (? & ? & _)].
Qed.

Lemma remembered_fits q k : remembered q k = true → zlen (content_of k) ≤ n.
Proof.
  intros (K & Hs & Hw)%remembered_true. rewrite <- (weight_singleton content). etrans; [| exact Hw].
  apply weight_mono. apply since_self in Hs. set_solver.
Qed.

(** What was fetched since a range that is there is there as well. *)
Lemma remembered_nest q k x K :
  since k q = Some K → weight K ≤ n → x ∈ K → remembered q x = true.
Proof.
  intros Hs Hw Hx. destruct (since_nest _ _ _ _ Hs Hx) as (K' & Hs' & Hsub).
  apply remembered_true. exists K'. split; [done |]. etrans; [by apply weight_mono | done].
Qed.

(** The entries as old as [k]'s or younger are ranges fetched since. *)
Lemma used_since_weight q c k b t K :
  follows q c → entries c !! k = Some (b, t) → since k q = Some K →
  ∃ K', used_since t (entries c) = weight K' ∧ K' ⊆ K ∩ dom (entries c).
Proof.
  intros F Ek Hs. set (m := base.filter (λ x : Key * (bytes * Z), t ≤ x.2.2) (entries c)).
  assert (∀ k' bs u, m !! k' = Some (bs, u) → entries c !! k' = Some (bs, u) ∧ t ≤ u) as Hm.
  { unfold m. intros k' bs u. by rewrite map_lookup_filter_Some. }
  exists (dom m). split.
  - apply (entries_weight content). intros k' bs u Hk'. apply Hm in Hk' as [Hk' _].
    by apply (fo_coherent _ _ F _ _ _ Hk').
  - intros k' [[bs u] Hk']%elem_of_dom. apply Hm in Hk' as [Hk' Hle]. apply elem_of_intersection.
    split; [by apply (fo_order _ _ F _ _ _ _ _ _ _ Hk' Ek Hs) | by apply elem_of_dom_2 in Hk'].
Qed.

(** The order after [k] was put on top with a new tick. *)
Lemma order_top q (m m' : gmap Key (bytes * Z)) (k : Key) (top : Z) x :
  (∀ k' b t, m !! k' = Some (b, t) → t < top) →
  (∀ k1 b t k2 b' t' K, m !! k1 = Some (b, t) → m !! k2 = Some (b', t') → since k2 q = Some K →
     t' ≤ t ↔ k1 ∈ K) →
  m' !! k = Some (x, top) → (∀ k' y, k' ≠ k → m' !! k' = Some y → m !! k' = Some y) →
  ∀ k1 b t k2 b' t' K, m' !! k1 = Some (b, t) → m' !! k2 = Some (b', t') →
    since k2 (k :: q) = Some K → t' ≤ t ↔ k1 ∈ K.
Proof.
  intros Htop Hord Hk Hsub k1 b t k2 b' t' K E1 E2. simpl.
  destruct (decide (k = k2)) as [<-|Hne2].
  - intros [= <-]. rewrite Hk in E2. injection E2 as _ <-. rewrite elem_of_singleton.
    destruct (decide (k1 = k)) as [->|Hne1]; [rewrite Hk in E1; injection E1 as _ <-; split; [done | lia] |].
    specialize (Hsub _ _ Hne1 E1). specialize (Htop _ _ _ Hsub). split; [lia | done].
  - destruct (since k2 q) as [K2|] eqn:Es; [| done]. intros [= <-]. apply Hsub in E2; [| done].
    rewrite elem_of_union, elem_of_singleton. destruct (decide (k1 = k)) as [->|Hne1].
    + rewrite Hk in E1. injection E1 as _ <-. specialize (Htop _ _ _ E2). split; [by left | lia].
    + apply Hsub in E1; [| done]. rewrite (Hord _ _ _ _ _ _ _ E1 E2 Es). tauto.
Qed.

Lemma seen_fits q k : zlen (content_of k) ≤ n → seen q k = k :: q.
Proof. intros H. unfold seen. by rewrite (proj2 (Z.leb_le _ _) H). Qed.

Lemma remembered_top q k : zlen (content_of k) ≤ n → remembered (k :: q) k = true.
Proof.
  intros H. apply remembered_true. exists {[k]}. simpl. rewrite decide_True by done.
  split; [done |]. by rewrite weight_singleton.
Qed.

(** A fetch of a range that is there moves no other out. *)
Lemma remembered_touch q k k' : remembered q k = true → k' ≠ k → remembered (k :: q) k' = remembered q k'.
Proof.
  intros (K & Hs & Hw)%remembered_true Hne. unfold remembered. simpl. rewrite decide_False by done.
  destruct (since k' q) as [K'|] eqn:Es; [| done]. simpl.
  destruct (decide (k ∈ K')) as [Hin|Hout]; [by replace ({[k]} ∪ K') with K' by set_solver |].
  pose proof (since_total _ _ _ _ _ Hs Es Hout) as Hsub. pose proof (since_self _ _ _ Hs).
  pose proof (weight_mono content ({[k]} ∪ K') K ltac:(set_solver)).
  pose proof (weight_mono content K' K Hsub). rewrite !(proj2 (Z.leb_le _ _)); [done | lia..].
Qed.

Lemma follows_hit q c k bs t :
  follows q c → entries c !! k = Some (bs, t) → tick c < u64_max →
  follows (seen q k) (cache_get k c).2 ∧ stats (cache_get k c).2 = count_hit (stats c) ∧
  tick (cache_get k c).2 ≤ tick c + 1.
Proof.
  intros F E Ht. pose proof F as [I Hco Hm Hh Ho]. pose proof (ci_tick _ I) as H0.
  assert (remembered q k = true) as Hr by (apply Hh; eauto).
  pose proof (remembered_fits _ _ Hr) as Hfit. rewrite (seen_fits _ _ Hfit).
  destruct (cache_get_tick k c ltac:(lia)) as [Ht' Hm'].
  split; [| split; [unfold cache_get; by rewrite E | lia]].
  assert (∀ k', is_Some (entries (cache_get k c).2 !! k') ↔ is_Some (entries c !! k')) as Hsame.
  { intros k'. pose proof (cache_get_entries k c k') as He. rewrite <- !not_eq_None_Some.
    destruct (entries (cache_get k c).2 !! k'), (entries c !! k'); done. }
  split; [by apply cache_get_inv | by apply cache_get_coherent | congruence | |].
  - intros k'. rewrite Hsame, Hh. destruct (decide (k' = k)) as [->|Hne].
    + rewrite Hr, remembered_top by done. done.
    + by rewrite remembered_touch.
  - apply (order_top q (entries c) _ k (tick c + 1) bs).
    + intros k' b t' E'. destruct (ci_entry _ I _ _ _ E'). lia.
    + exact Ho.
    + unfold cache_get. rewrite E. simpl. by rewrite lookup_insert_eq, as_u64_succ by lia.
    + intros k' y Hne. unfold cache_get. rewrite E. simpl. by rewrite lookup_insert_ne.
Qed.

Lemma follows_insert q c k :
  follows q c → entries c !! k = None → tick c < u64_max → zlen (content_of k) ≤ n →
  follows (k :: q) (cache_insert k (content_of k) c) ∧ tick (cache_insert k (content_of k) c) ≤ tick c + 1.
Proof.
  intros F E Ht Hfit. pose proof F as [I Hco Hm Hh Ho]. rewrite <- Hm in Hfit.
  destruct (cache_insert_spec c k (content_of k) I Ht Hfit) as (I' & M' & T' & Ek & Hsub & Hlru).
  { intros old t Eo. congruence. }
  destruct (cache_insert_coherent content k c I Hco Ht) as (_ & Hco' & _ & _).
  set (c' := cache_insert k (content_of k) c) in *. split; [| lia].
  assert (∀ k', k' ≠ k → is_Some (entries c' !! k') ↔ remembered (k :: q) k' = true) as Hheld.
  { intros k' Hne. rewrite remembered_true. simpl. rewrite decide_False by done. split.
    - (* what stays has everything since with it *)
      intros [[b' t'] E1']. pose proof (Hsub _ _ Hne E1') as E1.
      assert (remembered q k' = true) as (K & Es & Hw)%remembered_true by (apply Hh; eauto).
      rewrite Es. exists ({[k]} ∪ K). split; [done |].
      rewrite <- M' in Hm. rewrite <- Hm. pose proof (ci_bound _ I') as [Hb _]. etrans; [| exact Hb].
      rewrite (ci_resident _ I'), (entries_weight content) by exact Hco'.
      apply weight_mono. intros x. rewrite elem_of_union, elem_of_singleton, elem_of_dom.
      destruct (decide (x = k)) as [->|Hx]; [rewrite Ek; eauto |]. intros [->|Hin]; [done |].
      assert (is_Some (entries c !! x)) as [[b t] Ex] by (apply Hh; by eapply remembered_nest).
      destruct (entries c' !! x) as [y|] eqn:Ex'; [eauto |]. exfalso.
      pose proof (Hlru _ _ _ _ _ _ Hx Hne Ex Ex' E1') as Hlt.
      apply (Ho _ _ _ _ _ _ _ Ex E1 Es) in Hin. lia.
    - (* what goes had no room *)
      intros (K' & Es' & Hw). destruct (since k' q) as [K|] eqn:Es; [| done]. injection Es' as <-.
      assert (weight K ≤ weight ({[k]} ∪ K)) as HwK by (apply weight_mono; set_solver).
      assert (is_Some (entries c !! k')) as [[b t] E1].
      { apply Hh, remembered_true. exists K. split; [done | lia]. }
      destruct (entries c' !! k') as [y|] eqn:E1'; [eauto |]. exfalso.
      pose proof (cache_insert_needed c k _ k' b t I Hfit E Hne E1 E1') as Hneed.
      destruct (used_since_weight q c k' b t K F E1 Es) as (K1 & Eu & HK1). rewrite Eu, Hm in Hneed.
      assert (k ∉ K1) as Hk by (intros Hin; apply HK1, elem_of_intersection in Hin as [_ Hin];
        apply elem_of_dom in Hin as [? Hin]; congruence).
      assert (weight ({[k]} ∪ K1) ≤ weight ({[k]} ∪ K)) as Hle by (apply weight_mono; set_solver).
      rewrite weight_disj_union, weight_singleton in Hle by set_solver. lia. }
  split; [done | done | congruence | |].
  - intros k'. destruct (decide (k' = k)) as [->|Hne]; [| by apply Hheld].
    rewrite remembered_top by lia. split; [done | rewrite Ek; eauto].
  - apply (order_top q (entries c) _ k (tick c + 1) (content_of k)); [| exact Ho | exact Ek | exact Hsub].
    intros k' b t E'. destruct (ci_entry _ I _ _ _ E'). lia.
Qed.

(** A fetch of a range that is not there. *)
Lemma follows_miss q c k s c' s' :
  follows q c → entries c !! k = None → tick c < u64_max → fetch_key k (c, s) = (Ok tt, (c', s')) →
  follows (seen q k) c' ∧ tick c' ≤ tick c + 1 ∧ ask k s = (Ok tt, s') ∧
  hits (stats c') = hits (stats c) ∧ misses (stats c') = as_u64 (misses (stats c) + 1).
Proof.
  intros F E Ht Hrun. apply fetch_key_miss in Hrun as (x & Es & ->); [| done].
  assert (x = content_of k) as -> by (by apply store_serves in Es).
  set (c1 := set_stats (count_fetched (zlen (content_of k)) (count_miss (stats c))) c).
  assert (follows q c1) as F1 by (destruct F; split; try done; by apply set_stats_inv).
  destruct (cache_insert_counts k (content_of k) c1) as [Eh Em].
  assert (ask k s = (Ok tt, s')) as Ea by (unfold ask; by rewrite (bind_ok _ _ _ _ _ Es)).
  destruct (Z_le_gt_dec (zlen (content_of k)) n) as [Hfit|Hbig].
  - rewrite (seen_fits _ _ Hfit). destruct (follows_insert q c1 k F1 E Ht Hfit) as [F2 Ht2]. done.
  - unfold seen. rewrite (proj2 (Z.leb_gt _ _)) by lia.
    assert (cache_insert k (content_of k) c1 = c1) as Ec.
    { unfold cache_insert. rewrite (proj2 (Z.ltb_lt _ _)); [done |]. rewrite (fo_max _ _ F1). lia. }
    rewrite Ec in *. split; [done |]. split; [simpl; lia | done].
Qed.

Lemma follows_fetches ks : ∀ q c s c' s',
  follows q c → tick c + zlen ks < u64_max → 0 ≤ hits (stats c) → 0 ≤ misses (stats c) →
  hits (stats c) + zlen ks < 2 ^ 64 → misses (stats c) + zlen ks < 2 ^ 64 →
  fetch_keys ks (c, s) = (Ok tt, (c', s')) →
  follows (fold_left seen ks q) c' ∧ tick c' ≤ tick c + zlen ks ∧
  m_iter ask (missed q ks) s = (Ok tt, s') ∧
  misses (stats c') = misses (stats c) + zlen (missed q ks) ∧
  hits (stats c') = hits (stats c) + (zlen ks - zlen (missed q ks)).
Proof.
  induction ks as [|k ks IH]; intros q c s c' s' F Ht H0 H1 Hb0 Hb1.
  { intros [= <- <-]. simpl. rewrite zlen_nil. split; [done |]. split; [lia | split; [done | lia]]. }
  rewrite zlen_cons in *. pose proof (zlen_nonneg ks).
  intros [(c1 & s1 & E1 & E2)|(e & _ & ?)]%fetch_keys_inv; [| done]. cbn [missed fold_left].
  destruct (entries c !! k) as [[bs t]|] eqn:E.
  - rewrite (fetch_key_hit _ _ _ _ _ _ E) in E1. injection E1 as <- <-.
    assert (remembered q k = true) as -> by (apply (fo_held _ _ F); eauto).
    destruct (follows_hit q c k bs t F E ltac:(lia)) as (F1 & Es & Ht1).
    assert (hits (stats (cache_get k c).2) = hits (stats c) + 1) as Eh
      by (rewrite Es; simpl; unfold as_u64; apply Z.mod_small; lia).
    assert (misses (stats (cache_get k c).2) = misses (stats c)) as Em by (by rewrite Es).
    destruct (IH (seen q k) _ s c' s' F1) as (F' & Ht' & Ea & Em' & Eh'); [lia.. | done |].
    split; [done |]. split; [lia |]. split; [done | lia].
  - assert (remembered q k = false) as ->.
    { apply not_true_iff_false. rewrite <- (fo_held _ _ F), E. by intros [? ?]. }
    destruct (follows_miss q c k s c1 s1 F E ltac:(lia) E1) as (F1 & Ht1 & Ea1 & Eh & Em).
    assert (as_u64 (misses (stats c) + 1) = misses (stats c) + 1) as Ew
      by (unfold as_u64; apply Z.mod_small; lia). rewrite Ew in Em.
    destruct (IH (seen q k) c1 s1 c' s' F1) as (F' & Ht' & Ea & Em' & Eh'); [lia.. | done |].
    rewrite zlen_cons. split; [done |]. split; [lia |]. split; [| lia].
    cbn [m_iter]. by rewrite (bind_ok _ _ _ _ _ Ea1).
Qed.

Lemma follows_new : 0 ≤ n < 2 ^ 63 → follows [] (cache_new n).
Proof.
  intros Hn. split; [by apply cache_new_inv | | done | | ].
  - intros k bs t E. by simpl in E.
  - intros k. simpl. rewrite lookup_empty. split; [by intros [? ?] | done].
  - intros k b t k' b' t' K E. by simpl in E.
Qed.

(** C31: what the cache hits and misses, exactly. From a new cache of [n] bytes, for
    any sequence of fewer than 2^64 range fetches, one after another, of any sizes and in
    any order, of objects that do not change and with no fetch failing: a fetch is a hit if
    the range was fetched before and, together with all the distinct ranges of at most
    [n] bytes fetched since, fits in [n] bytes; otherwise it is a miss. (A range larger
    than the cache is never kept and pushes nothing out.) The counters count them so, the
    store is asked for the missed ranges, in order, and for nothing else, and what is
    left in the cache is what would be hit next. *)
Theorem hits_by_reuse ks s c' s' :
  0 ≤ n < 2 ^ 63 → zlen ks < u64_max → fetch_keys ks (cache_new n, s) = (Ok tt, (c', s')) →
  m_iter ask (missed [] ks) s = (Ok tt, s') ∧
  sn_misses (cache_stats c') = zlen (missed [] ks) ∧
  sn_hits (cache_stats c') = zlen ks - zlen (missed [] ks) ∧
  ∀ k, is_Some (entries c' !! k) ↔ remembered (fold_left seen ks []) k = true.
Proof.
  intros Hn Ht Hrun. assert (u64_max = 2 ^ 64 - 1) as Hmax by done. pose proof (zlen_nonneg ks).
  destruct (follows_fetches ks [] _ s c' s' (follows_new Hn)) as (F & _ & Ea & Em & Eh); [simpl; lia.. | done |].
  simpl in Em, Eh. unfold cache_stats. cbn [sn_hits sn_misses].
  split; [done |]. split; [lia |]. split; [lia |]. apply (fo_held _ _ F).
Qed.

(** ** A cycle *)

Lemma seen_all ks : ∀ q, Forall (λ k, zlen (content_of k) ≤ n) ks → fold_left seen ks q = reverse ks ++ q.
Proof.
  induction ks as [|k ks IH]; intros q; [done |]. intros [Hk Hks]%Forall_cons. simpl.
  by rewrite seen_fits, IH, reverse_cons, <- app_assoc by done.
Qed.

Lemma missed_app q l1 l2 : missed q (l1 ++ l2) = missed q l1 ++ missed (fold_left seen l1 q) l2.
Proof.
  revert q. induction l1 as [|k l1 IH]; intros q; simpl; [done |]. rewrite IH. by case_match.
Qed.

Section cycle.
Context (U : list Key) (U_distinct : NoDup U) (U_fits : Forall (λ k, zlen (content_of k) ≤ n) U).
Context (U_larger : n < weight (list_to_set U)).

(** From a range of the cycle on, when the pass before was over all of it. *)
Lemma pass_missed suf : ∀ pre q,
  pre ++ suf = U → missed (reverse pre ++ reverse U ++ q) suf = suf.
Proof.
  induction suf as [|k suf IH]; intros pre q E; [done |]. simpl.
  assert (NoDup (pre ++ k :: suf)) as Hnd by (by rewrite E).
  apply NoDup_app in Hnd as (_ & Hd & [Hk _]%NoDup_cons).
  assert (reverse pre ++ reverse U ++ q = (reverse pre ++ reverse suf) ++ k :: reverse pre ++ q) as Eq
    by (rewrite <- E, reverse_app, reverse_cons, <- !app_assoc; done).
  assert (remembered (reverse pre ++ reverse U ++ q) k = false) as ->.
  { unfold remembered. rewrite Eq, since_after.
    - apply Z.leb_gt. replace (list_to_set (reverse pre ++ reverse suf) ∪ {[k]}) with (list_to_set U : gset Key); [done |].
      rewrite <- E. rewrite !list_to_set_app_L, list_to_set_cons.
      apply leibniz_equiv. intros x. rewrite !elem_of_union, !elem_of_list_to_set, !elem_of_reverse, elem_of_singleton. tauto.
    - rewrite elem_of_app, !elem_of_reverse. intros [Hin|Hin]; [| done]. apply (Hd k Hin). by left. }
  assert (zlen (content_of k) ≤ n) as Hfit.
  { rewrite Forall_forall in U_fits. apply U_fits. rewrite <- E. apply elem_of_app. right. by left. }
  f_equal. rewrite (seen_fits _ _ Hfit).
  change (k :: reverse pre ++ reverse U ++ q) with ((k :: reverse pre) ++ reverse U ++ q).
  rewrite <- (reverse_snoc pre k). apply IH. by rewrite <- app_assoc.
Qed.

Lemma cycles_missed r q : missed (reverse U ++ q) (concat (replicate r U)) = concat (replicate r U).
Proof.
  revert q. induction r as [|r IH]; intros q; simpl; [done |].
  assert (missed (reverse U ++ q) U = U) as E by exact (pass_missed U [] q eq_refl).
  rewrite missed_app, E, seen_all by done. f_equal. apply IH.
Qed.

Lemma missed_take q l j : missed q l = l → missed q (take j l) = take j l.
Proof.
  revert q j. induction l as [|k l IH]; intros q [|j]; simpl; try done.
  assert (∀ q, zlen (missed q l) ≤ zlen l) as Hle.
  { clear. induction l as [|k l IH]; intros q; simpl; [done |]. specialize (IH (seen q k)).
    case_match; rewrite ?zlen_cons; lia. }
  case_match.
  - intros E. specialize (Hle (seen q k)). rewrite E, zlen_cons in Hle. lia.
  - intros [= E]. f_equal. by apply IH.
Qed.

(** Distinct ranges that do not all fit, fetched round and round: after a full pass
    every fetch is a miss, however little is missing. (The reads of the benchmark's hot
    keys share row groups, so their ranges come round sooner than the keys do.) *)
Theorem cyclic_reads_never_hit r reads s c1 s1 c2 s2 :
  0 ≤ n < 2 ^ 63 →
  let measured := take reads (concat (replicate r U)) in
  zlen U + zlen measured < u64_max →
  fetch_keys U (cache_new n, s) = (Ok tt, (c1, s1)) →
  fetch_keys measured (reset_stats c1, s1) = (Ok tt, (c2, s2)) →
  sn_hits (cache_stats c2) = 0 ∧ sn_misses (cache_stats c2) = zlen measured.
Proof.
  intros Hn measured Ht Hrun1 Hrun2. pose proof (zlen_nonneg U). pose proof (zlen_nonneg measured).
  assert (u64_max = 2 ^ 64 - 1) as Hmax by done.
  destruct (follows_fetches U [] _ s c1 s1 (follows_new Hn)) as (F1 & Ht1 & _); [simpl; lia.. | done |].
  rewrite seen_all in F1 by done. simpl in Ht1.
  destruct (follows_fetches measured (reverse U ++ []) (reset_stats c1) s1 c2 s2) as (_ & _ & _ & Em & Eh);
    [by destruct F1; split; try done; apply set_stats_inv | simpl; lia.. | done |].
  unfold measured in Em, Eh. rewrite missed_take in Em, Eh by apply cycles_missed. fold measured in Em, Eh.
  unfold cache_stats. cbn [sn_hits sn_misses]. simpl in Em, Eh. lia.
Qed.
End cycle.
End lru.

(** * Examples *)

Definition four (path : string) (a b : Z) : bytes := replicate 4 Byte.x2a.
Definition four_range (path : string) (a b : Z) : M nat bytes := λ n, (Ok (four path a b), S n).
Definition cyc3 : list Key := [mk_key "f" 0 4; mk_key "f" 4 8; mk_key "f" 8 12].
Lemma four_serves p a b st x st' : four_range p a b st = (Ok x, st') → x = four p a b.
Proof. by intros [= <- _]. Qed.

Definition warmed (n : Z) := fetch_keys four_range cyc3 (cache_new n, 0%nat).
Lemma warmed_eta n : (warmed n).1 = Ok tt → warmed n = (Ok tt, ((warmed n).2.1, (warmed n).2.2)).
Proof. intros <-. by destruct (warmed n) as [r [c s]]. Qed.

(** With 12 bytes for 12 every later read hits, with 11 none does. *)
Lemma warm_cache_never_misses_witness :
  sn_bytes_resident (cache_stats (warmed 12).2.1) = 12 ∧
  ∃ c2, fetch_keys four_range (cyc3 ++ cyc3) (reset_stats (warmed 12).2.1, (warmed 12).2.2) =
          (Ok tt, (c2, (warmed 12).2.2)) ∧ sn_hits (cache_stats c2) = 6.
Proof.
  destruct (warm_cache_never_misses four four_range four_serves 12 cyc3 (cyc3 ++ cyc3) 0%nat
    (warmed 12).2.1 (warmed 12).2.2) as (E & _ & c2 & H & Hh & _).
  - lia.
  - vm_compute. done.
  - vm_compute. done.
  - apply Forall_forall. intros k Hk. apply elem_of_app in Hk. by destruct Hk.
  - apply (warmed_eta 12). vm_compute. reflexivity.
  - split; [vm_compute; reflexivity |]. exists c2. split; [exact H | exact Hh].
Defined.

Definition again (n : Z) :=
  fetch_keys four_range (take 5 (concat (replicate 2 cyc3))) (reset_stats (warmed n).2.1, (warmed n).2.2).
Lemma again_eta n : (again n).1 = Ok tt → again n = (Ok tt, ((again n).2.1, (again n).2.2)).
Proof. intros <-. by destruct (again n) as [r [c s]]. Qed.

Lemma cyclic_reads_never_hit_witness :
  sn_hits (cache_stats (again 11).2.1) = 0 ∧ sn_misses (cache_stats (again 11).2.1) = 5.
Proof.
  apply (cyclic_reads_never_hit four_range four four_serves 11 cyc3) with (r := 2%nat) (reads := 5%nat)
    (s := 0%nat) (c1 := (warmed 11).2.1) (s1 := (warmed 11).2.2) (s2 := (again 11).2.2).
  - apply (bool_decide_unpack (NoDup cyc3)). vm_compute. done.
  - repeat constructor; vm_compute; done.
  - vm_compute. reflexivity.
  - lia.
  - vm_compute. reflexivity.
  - apply (warmed_eta 11). vm_compute. reflexivity.
  - apply (again_eta 11). vm_compute. reflexivity.
Defined.

(** Ranges of 4, 8, 2 and 20 bytes, and a cache of 12. The second fetch of [w4]
    follows [w8] only and is a hit, as is that of [w8]; the third of [w4] follows 10
    bytes of others and is a miss; the large range is never kept and pushes nothing out. *)
Definition sized (path : string) (a b : Z) : bytes := replicate (Z.to_nat (b - a)) Byte.x2a.
Definition sized_range (path : string) (a b : Z) : M nat bytes := λ n, (Ok (sized path a b), S n).
Lemma sized_serves p a b st x st' : sized_range p a b st = (Ok x, st') → x = sized p a b.
Proof. by intros [= <- _]. Qed.
Definition w4 : Key := mk_key "f" 0 4.
Definition w8 : Key := mk_key "f" 4 12.
Definition w2 : Key := mk_key "f" 12 14.
Definition w20 : Key := mk_key "f" 14 34.
Definition mixed : list Key := [w4; w8; w4; w20; w8; w2; w4; w20; w2].
Definition mixed_run := fetch_keys sized_range mixed (cache_new 12, 0%nat).

Lemma hits_by_reuse_witness :
  missed sized 12 [] mixed = [w4; w8; w20; w2; w4; w20] ∧
  sn_hits (cache_stats mixed_run.2.1) = 3 ∧ mixed_run.2.2 = 6%nat ∧
  is_Some (entries mixed_run.2.1 !! w4) ∧ entries mixed_run.2.1 !! w8 = None.
Proof.
  destruct (hits_by_reuse sized_range sized sized_serves 12 mixed 0%nat mixed_run.2.1 mixed_run.2.2)
    as (_ & _ & Eh & Hk).
  - lia.
  - vm_compute. reflexivity.
  - vm_compute. reflexivity.
  - split; [vm_compute; reflexivity |]. split; [rewrite Eh; vm_compute; reflexivity |].
    split; [vm_compute; reflexivity |]. split; [apply Hk; vm_compute; reflexivity | vm_compute; reflexivity].
Defined.
