(* ===== verification/Read.v ===== *)
(** [src/src/read.rs]: the point read against the columnar level.

    A Parquet file is what the reader sees of it: per row group the statistics of
    the [pk] column and the rows of the projected columns, in batches. Opening the
    file and reading a row group are calls of the Parquet library through the
    cache ([Cache.v]) and are parameters that can fail. [None] is a panic. *)

From S2P Require Import Prelude RecordModel Fs Memtable Flush Catalog Bloom Index.

Definition PK_COL : nat := 0.

(** [ColumnChunkMetaData::statistics] of the [pk] column: none, or a minimum and
    a maximum that may each be missing. *)
Definition pk_stats : Type := option (option bytes * option bytes).

Definition row_group_may_contain (stats : pk_stats) (key : bytes) : bool :=
  match stats with
  | None => true
  | Some (Some min, Some max) => bytes_leb min key && bytes_leb key max
  | Some _ => true
  end.

(** A row of the projection: [pk], [op], [value]; a null value reads as empty. *)
Record prow : Type := mk_prow { p_pk : bytes; p_op : Z; p_value : option bytes }.

Fixpoint scan_rows (key : bytes) (rows : list prow) : option Lookup :=
  match rows with
  | [] => None
  | r :: rows =>
    if bool_decide (p_pk r = key) then
      Some (if p_op r =? op_code Delete then Deleted else Found (default [] (p_value r)))
    else scan_rows key rows
  end.
Fixpoint scan_batches (key : bytes) (batches : list (list prow)) : Lookup :=
  match batches with
  | [] => Missing
  | b :: batches => match scan_rows key b with Some l => l | None => scan_batches key batches end
  end.

Section read.
Context {St P : Type}.
Context (path_from : string → P).
(** [ArrowReaderMetadata::load_async]: the row groups' [pk] statistics. *)
Context (load_meta : P → Z → M St (list pk_stats)).
(** The stream over one row group. *)
Context (read_group : P → Z → nat → M St (list (list prow))).
Context (bucket : string).

Definition scan_row_group (path : P) (size : Z) (rg_idx : nat) (key : bytes) : M St Lookup :=
  batches ← read_group path size rg_idx;
  mret (scan_batches key batches).

(** The loop over the row groups, from [rg_idx] on. *)
Fixpoint row_groups (path : P) (size : Z) (key : bytes) (groups : list pk_stats) (rg_idx : nat) :
    M St Lookup :=
  match groups with
  | [] => mret Missing
  | stats :: groups =>
    if negb (row_group_may_contain stats key) then row_groups path size key groups (S rg_idx)
    else scan_row_group path size rg_idx key
  end.

Definition get_from_file (e : FileEntry) (key : bytes) : M St Lookup :=
  let path := object_path path_from e bucket in
  meta ← load_meta path (file_size e);
  row_groups path (file_size e) key meta 0.

(** The loop of [get] over the candidates. *)
Fixpoint get_loop (entries : list FileEntry) (key : bytes) : M St (option Lookup) :=
  match entries with
  | [] => mret (Some Missing)
  | e :: entries =>
    match bloom_may_contain e key with
    | None => mret None
    | Some false => get_loop entries key
    | Some true =>
      l ← get_from_file e key;
      match l with
      | Missing => get_loop entries key
      | hit => mret (Some hit)
      end
    end
  end.

Definition get (index : FileIndex) (key : bytes) : M St (option Lookup) :=
  get_loop (candidates index key) key.
End read.
