(* ===== verification/ReadProps.v ===== *)
(** The properties of the point read ([src/src/read.rs]): pruning by key range, by
    bloom and by row group never changes an answer. *)

From S2P Require Import Prelude RecordModel Fs Instances Memtable Flush Catalog Sbbf Bloom Index Read.

(** * Files in order *)

Definition group_rows (g : pk_stats * list (list prow)) : list prow := concat g.2.

(** A row group whose statistics are there and bound its keys. *)
Definition group_bounded (g : pk_stats * list (list prow)) : Prop :=
  ∃ lo hi, g.1 = Some (Some lo, Some hi) ∧
    ∀ r, r ∈ group_rows g → bytes_le lo (p_pk r) ∧ bytes_le (p_pk r) hi.

(** The file is in key order across row groups: what a group's maximum covers is
    not in a later group. *)
Definition groups_separated (gs : list (pk_stats * list (list prow))) : Prop :=
  StronglySorted (λ g g', ∀ lo hi r,
    g.1 = Some (Some lo, Some hi) → r ∈ group_rows g' → bytes_lt hi (p_pk r)) gs.

Lemma scan_rows_None key rows : scan_rows key rows = None ↔ ∀ r, r ∈ rows → p_pk r ≠ key.
Proof.
  induction rows as [|r rows IH]; simpl.
  - split; [intros _ r Hr; by apply elem_of_nil in Hr | done].
  - case_bool_decide as Hk.
    + split; [done |]. intros H. by destruct (H r); [left |].
    + rewrite IH. split; intros H r'; rewrite ?elem_of_cons; [intros [->|?]; auto |].
      intros Hr'. apply H. by right.
Qed.

Lemma scan_rows_app key l k :
  scan_rows key (l ++ k) = match scan_rows key l with Some x => Some x | None => scan_rows key k end.
Proof. induction l as [|r l IH]; simpl; [done |]. by case_bool_decide. Qed.

Lemma scan_batches_concat key bs :
  scan_batches key bs = default Missing (scan_rows key (concat bs)).
Proof.
  induction bs as [|b bs IH]; simpl; [done |]. rewrite scan_rows_app, IH.
  by destruct (scan_rows key b).
Qed.

Lemma candidates_cons e index key :
  candidates (e :: index) key =
    if may_contain e key then e :: candidates index key else candidates index key.
Proof.
  unfold candidates. etrans; [apply (filter_cons (A := FileEntry)) |].
  case_decide as Hm; [by rewrite Hm | by apply not_true_is_false in Hm as ->].
Qed.

Section properties.
Context {St P : Type} (path_from : string → P).
Context (load_meta : P → Z → M St (list pk_stats)).
Context (read_group : P → Z → nat → M St (list (list prow))).
Context (bucket : string).
(** The objects: the row groups behind a path. *)
Context (content : P → list (pk_stats * list (list prow))).
(** The states of the store in which the objects are these. *)
Context (Inv : St → Prop).

(** The Parquet library returns what is in the file, or fails; it changes no file. *)
Definition reads_content : Prop :=
  (∀ p n st r st', Inv st → load_meta p n st = (r, st') →
     Inv st' ∧ ∀ m, r = Ok m → m = (content p).*1) ∧
  (∀ p n i st r st', Inv st → read_group p n i st = (r, st') →
     Inv st' ∧ ∀ b, r = Ok b → (content p).*2 !! i = Some b).

(** The error is one the Parquet library returned for some call. *)
Definition io_error (e : Prelude.Error) : Prop :=
  (∃ p n st st', Inv st ∧ load_meta p n st = (Err e, st')) ∨
  (∃ p n i st st', Inv st ∧ is_Some (content p !! i) ∧ read_group p n i st = (Err e, st')).

(** The outcome of a read whose answer is [l]: that answer, or a library error. *)
Definition answers {A} (r : result A) (l : A) : Prop :=
  match r with Ok x => x = l | Err e => io_error e end.

Abbreviation get_from_file := (get_from_file path_from load_meta read_group bucket).
Abbreviation get := (get path_from load_meta read_group bucket).

Definition file_rows (e : FileEntry) : list prow :=
  concat (group_rows <$> content (object_path path_from e bucket)).

Lemma may_contain_false stats key lo hi :
  stats = Some (Some lo, Some hi) → row_group_may_contain stats key = false →
  ∀ k, bytes_le lo k → bytes_le k hi → k ≠ key.
Proof.
  intros -> Hm k Hlo Hhi ->. simpl in Hm. apply bytes_leb_le in Hlo, Hhi.
  by rewrite Hlo, Hhi in Hm.
Qed.

Lemma row_groups_scan p n key all : ∀ gs i st r st',
  reads_content → Inv st → content p = all → drop i all = gs →
  Forall group_bounded gs → groups_separated gs →
  row_groups read_group p n key gs.*1 i st = (r, st') →
  Inv st' ∧ answers r (default Missing (scan_rows key (concat (group_rows <$> gs)))).
Proof.
  induction gs as [|g gs IH]; intros i st r st' Hrd HI Hall Hdrop Hb Hs Hrun; simpl in *.
  { by injection Hrun as <- <-. }
  apply Forall_cons in Hb as [(lo & hi & Hst & Hin) Hb].
  apply StronglySorted_inv in Hs as [Hs Hsep]. rewrite scan_rows_app.
  assert (all !! i = Some g) as Hg.
  { rewrite <- (Nat.add_0_r i), <- lookup_drop, Hdrop. done. }
  destruct (row_group_may_contain g.1 key) eqn:Em; simpl in Hrun.
  - unfold scan_row_group in Hrun.
    apply bind_inv in Hrun as [(bs & st1 & E1 & Hrun)|(e & E1 & ->)];
      destruct (proj2 Hrd _ _ _ _ _ _ HI E1) as [HI' Hc];
      [| split; [done | right; exists p, n, i, st, st'; rewrite Hall; by eauto]].
    injection Hrun as <- <-. split; [done |].
    specialize (Hc _ eq_refl). rename Hc into E2. rewrite Hall, list_lookup_fmap, Hg in E2. injection E2 as <-.
    rewrite scan_batches_concat. unfold group_rows at 1.
    destruct (scan_rows key (concat g.2)) as [x|] eqn:Ex; [done |]. simpl.
    rewrite (proj2 (scan_rows_None key _)); [done |]. intros x Hx Hk. subst key.
    apply elem_of_concat in Hx as (rows & Hrows & Hx).
    apply list_elem_of_fmap in Hrows as (g' & -> & Hg').
    rewrite Forall_forall in Hsep. specialize (Hsep g' Hg' lo hi x Hst Hx).
    rewrite Hst in Em. simpl in Em. apply andb_prop in Em as [_ Em]. apply bytes_leb_le in Em.
    by apply (bytes_lt_irrefl hi), (bytes_lt_le_trans _ (p_pk x)).
  - rewrite (proj2 (scan_rows_None key (group_rows g))).
    + eapply (IH (S i)); [done | done | done | | done | done | exact Hrun].
      by rewrite (drop_S _ _ _ Hg) in Hdrop; injection Hdrop.
    + intros x Hx. destruct (Hin x Hx). by eapply may_contain_false.
Qed.

Definition file_ordered (e : FileEntry) : Prop :=
  let gs := content (object_path path_from e bucket) in
  Forall group_bounded gs ∧ groups_separated gs.

Lemma get_from_file_scan e key st r st' :
  reads_content → Inv st → file_ordered e → get_from_file e key st = (r, st') →
  Inv st' ∧ answers r (default Missing (scan_rows key (file_rows e))).
Proof.
  intros Hrd HI [Hb Hs] Hrun. unfold Read.get_from_file in Hrun.
  apply bind_inv in Hrun as [(m & st1 & E1 & Hrun)|(err & E1 & ->)];
    destruct (proj1 Hrd _ _ _ _ _ HI E1) as [HI' Hc]; [| split; [done | left; eauto 10]].
  rewrite (Hc _ eq_refl) in Hrun. by eapply (row_groups_scan _ _ _ _ _ 0%nat).
Qed.

(** Reading one file. In a file whose row groups are in key order and carry
    statistics, the first row group that may hold the key decides: the read returns
    what scanning the whole file returns; it fails only with an error of the Parquet
    library. *)
Theorem get_from_file_complete e key st r st' :
  reads_content → Inv st → file_ordered e → get_from_file e key st = (r, st') →
  Inv st' ∧ answers r (default Missing (scan_rows key (file_rows e))).
Proof. apply get_from_file_scan. Qed.

(** What an entry says of its file. *)
Definition entry_sound (e : FileEntry) : Prop :=
  file_ordered e ∧
  (∀ r, r ∈ file_rows e → bytes_le (pk_min e) (p_pk r) ∧ bytes_le (p_pk r) (pk_max e)) ∧
  match bloom e with
  | Some b => bloom_wf b ∧ ∀ r, r ∈ file_rows e → sbbf_contains (words b) (num_blocks b) (p_pk r) = true
  | None => True
  end.

Lemma bloom_answers e : entry_sound e →
  (∀ key, bloom_may_contain e key ≠ None) ∧
  ∀ r, r ∈ file_rows e → bloom_may_contain e (p_pk r) = Some true.
Proof.
  intros (_ & _ & Hb). unfold bloom_may_contain. destruct (bloom e) as [b|]; [| done].
  destruct Hb as [Hwf Hin]. split; [| intros r Hr; by rewrite (might_contain_sbbf b _ Hwf), Hin].
  intros key. by rewrite (might_contain_sbbf b key Hwf).
Qed.

(** The answer without any pruning: scan every file, newest first. *)
Fixpoint scan_files (key : bytes) (entries : list FileEntry) : Lookup :=
  match entries with
  | [] => Missing
  | e :: entries =>
    match scan_rows key (file_rows e) with Some l => l | None => scan_files key entries end
  end.

Lemma scan_rows_hit key rows : scan_rows key rows ≠ Some Missing.
Proof.
  induction rows as [|r rows IH]; simpl; [done |]. case_bool_decide; [| done].
  by case_match.
Qed.

Lemma get_scan index key st r st' :
  reads_content → Inv st → Forall entry_sound index → get index key st = (r, st') →
  Inv st' ∧ answers r (Some (scan_files key index)).
Proof.
  intros Hrd. unfold Read.get. revert st r st'.
  induction index as [|e index IH]; intros st r st' HI Hs Hrun.
  { by injection Hrun as <- <-. }
  simpl scan_files. apply Forall_cons in Hs as [He Hs].
  destruct (bloom_answers e He) as [Hnp Hbloom]. destruct He as (Ho & Hrange & _).
  rewrite candidates_cons in Hrun. destruct (may_contain e key) eqn:Hm.
  - simpl in Hrun. destruct (bloom_may_contain e key) as [[]|] eqn:Eb; [| | by destruct (Hnp key)].
    + apply bind_inv in Hrun as [(l & st1 & E1 & Hrun)|(err & E1 & ->)];
        destruct (get_from_file_scan _ _ _ _ _ Hrd HI Ho E1) as [HI1 Hl]; [| done].
      pose proof (scan_rows_hit key (file_rows e)) as Hh.
      destruct (scan_rows key (file_rows e)) as [x|]; simpl in Hl; subst l.
      * destruct x; [by injection Hrun as <- <-.. | done].
      * by apply IH in Hrun.
    + rewrite (proj2 (scan_rows_None key (file_rows e))); [by apply IH in Hrun |].
      intros x Hx <-. rewrite (Hbloom x Hx) in Eb. done.
  - rewrite (proj2 (scan_rows_None key (file_rows e))); [by apply IH in Hrun |].
    intros x Hx <-. destruct (Hrange x Hx) as [H1 H2]. unfold may_contain in Hm.
    by rewrite (proj2 (bytes_leb_le _ _) H1), (proj2 (bytes_leb_le _ _) H2) in Hm.
Qed.

(** C17: pruning never changes an answer, where the files are what the publish writes.
    The files: every row group carries its key bounds, and the row groups of a file are
    in key order. The index: an entry's range holds its file's keys, and its bloom, if
    it has one, is a filter of whole blocks with the bits of every key of the file, by
    the published filter of [Sbbf.v]. And the Parquet library returns the row groups the
    file has, or fails. Then [get], which skips files by range and by bloom and row groups
    by statistics, returns what a scan of all files newest first returns, or fails with an
    error of the Parquet library; it does not panic. (Without statistics in every row
    group it can miss a key: [missing_stats_hide_later_groups].) *)
Theorem get_pruning_sound index key st r st' :
  reads_content → Inv st → Forall entry_sound index → get index key st = (r, st') →
  Inv st' ∧ answers r (Some (scan_files key index)).
Proof. apply get_scan. Qed.
End properties.

(** * Examples *)

Definition row_a : prow := mk_prow [Byte.x61] 0 (Some [Byte.x31]).
Definition row_m : prow := mk_prow [Byte.x6d] 1 None.
Definition row_z : prow := mk_prow [Byte.x7a] 0 (Some [Byte.x33]).

Definition entry_az : FileEntry := mk_file_entry "f" 9 [Byte.x61] [Byte.x7a] 100 3 None.

(** A store with one file, and its reader; the state is a unit. *)
Definition meta_of (gs : list (pk_stats * list (list prow))) (p : string) (n : Z) : M unit (list pk_stats) :=
  mret gs.*1.
Definition group_of (gs : list (pk_stats * list (list prow))) (p : string) (n : Z) (i : nat) :
    M unit (list (list prow)) :=
  m_lift (ok_or (gs.*2 !! i) (Parquet "no such row group")).

Definition any_state (_ : unit) : Prop := True.

Lemma one_file_reads gs : reads_content (meta_of gs) (group_of gs) (λ _, gs) any_state.
Proof.
  split.
  - intros p n st r st' _ [= <- <-]. split; [done |]. by intros m [= <-].
  - intros p n i st r st' _ E. split; [done |]. intros b ->. unfold group_of, m_lift in E.
    destruct (gs.*2 !! i); [| done]. by injection E as <- <-.
Qed.

Definition good_groups : list (pk_stats * list (list prow)) :=
  [(Some (Some [Byte.x61], Some [Byte.x6d]), [[row_a]; [row_m]]);
   (Some (Some [Byte.x7a], Some [Byte.x7a]), [[row_z]])].

Lemma rows_bounded lo hi rows :
  forallb (λ r, bytes_leb lo (p_pk r) && bytes_leb (p_pk r) hi) rows = true →
  ∀ r, r ∈ rows → bytes_le lo (p_pk r) ∧ bytes_le (p_pk r) hi.
Proof.
  intros H r Hr. apply list_elem_of_In in Hr. pose proof (proj1 (forallb_forall _ _) H r Hr) as Hb.
  apply andb_prop in Hb as [H1 H2]. split; by apply bytes_leb_le.
Qed.

Lemma group_bounded_by lo hi bs :
  forallb (λ r, bytes_leb lo (p_pk r) && bytes_leb (p_pk r) hi) (concat bs) = true →
  group_bounded (Some (Some lo, Some hi), bs).
Proof. intros H. exists lo, hi. split; [done |]. by apply rows_bounded. Qed.

Lemma good_ordered : file_ordered id "b" (λ _, good_groups) entry_az.
Proof.
  split; unfold good_groups.
  - constructor; [apply group_bounded_by; reflexivity |].
    constructor; [apply group_bounded_by; reflexivity | constructor].
  - constructor; [constructor; constructor |]. constructor; [| constructor].
    intros lo hi r [= <- <-] Hr. apply list_elem_of_singleton in Hr as ->. reflexivity.
Qed.

(** The one-file reader never fails on a group it has. *)
Lemma get_from_file_complete_witness :
  let run := get_from_file id (meta_of good_groups) (group_of good_groups) "b" entry_az [Byte.x6d] tt in
  run.1 = Ok Deleted ∧
  answers (meta_of good_groups) (group_of good_groups) (λ _, good_groups) any_state run.1
    (default Missing (scan_rows [Byte.x6d] (file_rows id "b" (λ _, good_groups) entry_az))).
Proof.
  split; [vm_compute; reflexivity |].
  refine (proj2 (get_from_file_complete id (meta_of good_groups) (group_of good_groups) "b"
    (λ _, good_groups) any_state entry_az [Byte.x6d] tt _ _ (one_file_reads good_groups) I
    good_ordered (surjective_pairing _))).
Defined.

Lemma az_sound : Forall (entry_sound id "b" (λ _, good_groups)) [entry_az].
Proof.
  apply Forall_singleton. split; [exact good_ordered |]. split; [| done].
  apply rows_bounded. reflexivity.
Qed.

Lemma get_pruning_sound_witness :
  let run := get id (meta_of good_groups) (group_of good_groups) "b" [entry_az] [Byte.x7a] tt in
  run.1 = Ok (Some (Found [Byte.x33])) ∧
  answers (meta_of good_groups) (group_of good_groups) (λ _, good_groups) any_state run.1
    (Some (scan_files id "b" (λ _, good_groups) [Byte.x7a] [entry_az])).
Proof.
  split; [vm_compute; reflexivity |].
  refine (proj2 (get_pruning_sound id (meta_of good_groups) (group_of good_groups) "b"
    (λ _, good_groups) any_state [entry_az] [Byte.x7a] tt _ _ (one_file_reads good_groups) I
    az_sound (surjective_pairing _))).
Defined.

Definition blind_groups : list (pk_stats * list (list prow)) :=
  [(None, [[row_a]]); (Some (Some [Byte.x7a], Some [Byte.x7a]), [[row_z]])].

(** What the read does not promise. A row group without statistics is taken to
    hold the key, and its answer is final for the file: a key of a later row group
    is then reported missing although the file has it. *)
Theorem missing_stats_hide_later_groups :
  (get_from_file id (meta_of blind_groups) (group_of blind_groups) "b" entry_az [Byte.x7a] tt).1 =
    Ok Missing ∧
  scan_rows [Byte.x7a] (file_rows id "b" (λ _, blind_groups) entry_az) = Some (Found [Byte.x33]).
Proof. vm_compute. done. Qed.
