(* ===== verification/Store.v ===== *)
(** [src/src/store/latency.rs] and [src/src/store/mod.rs]: the store wrapper that
    injects latency and counts round trips. The crate's trait is a class, over the
    crate's types; the wrapper is an instance. What a call sleeps is recorded, in
    order; a listing is what its consumer meets. *)

From S2P Require Import Prelude Flush Latency.

(** A run on the second half of the state. *)
Definition on_snd {S1 S2 A} (m : Run S2 A) : Run (S1 * S2) A := λ '(s1, s2),
  (λ '(a, s2'), (a, (s1, s2'))) <$> m s2.
Definition modify_fst {S1 S2} (f : S1 → S1) : Run (S1 * S2) unit := λ '(s1, s2),
  Some (tt, (f s1, s2)).

(** * Counters *)

Record Stats : Type := mk_stats {
  st_gets : Z; st_puts : Z; st_lists : Z; st_deletes : Z; injected_micros : Z;
}.
Definition stats_default : Stats := mk_stats 0 0 0 0 0.

Record StatsSnapshot : Type := mk_snapshot {
  sn_gets : Z; sn_puts : Z; sn_lists : Z; sn_deletes : Z; sn_injected : Z;
}.
Definition snapshot (s : Stats) : StatsSnapshot :=
  mk_snapshot (st_gets s) (st_puts s) (st_lists s) (st_deletes s) (from_micros (injected_micros s)).

(** Which counter [charge] is given. *)
Inductive counter : Type := Gets | Puts | Lists | Deletes.

#[export] Instance counter_eq_dec : EqDecision counter.
Proof. solve_decision. Defined.

Definition count_of (c : counter) (s : Stats) : Z :=
  match c with Gets => st_gets s | Puts => st_puts s | Lists => st_lists s | Deletes => st_deletes s end.

(** [counter.fetch_add(1)] *)
Definition bump (c : counter) (s : Stats) : Stats :=
  match c with
  | Gets => mk_stats (as_u64 (st_gets s + 1)) (st_puts s) (st_lists s) (st_deletes s) (injected_micros s)
  | Puts => mk_stats (st_gets s) (as_u64 (st_puts s + 1)) (st_lists s) (st_deletes s) (injected_micros s)
  | Lists => mk_stats (st_gets s) (st_puts s) (as_u64 (st_lists s + 1)) (st_deletes s) (injected_micros s)
  | Deletes => mk_stats (st_gets s) (st_puts s) (st_lists s) (as_u64 (st_deletes s + 1)) (injected_micros s)
  end.
Definition inject (d : Z) (s : Stats) : Stats :=
  mk_stats (st_gets s) (st_puts s) (st_lists s) (st_deletes s)
    (as_u64 (injected_micros s + as_u64 (as_micros d))).

Definition charge (c : counter) (d : Z) (s : Stats) : Stats := inject d (bump c s).

(** * The trait *)

(** The types of the [object_store] crate. *)
Class ObjectTypes := {
  Path : Type; PutPayload : Type; PutOptions : Type; PutResult : Type;
  PutMultipartOptions : Type; MultipartUpload : Type; GetOptions : Type; GetResult : Type;
  Range : Type; Bytes : Type; ObjectMeta : Type; ListResult : Type; StoreError : Type;
}.

(** What a consumer of a stream meets, in order: its waits and its items. *)
Inductive stream (A : Type) : Type :=
| Ended
| Sleeps (d : Z) (s : stream A)
| Item (a : A) (s : stream A).
Arguments Ended {A}.
Arguments Sleeps {A}.
Arguments Item {A}.

Fixpoint items {A} (s : stream A) : list A :=
  match s with Ended => [] | Sleeps _ s => items s | Item a s => a :: items s end.
(** The time before the first item, or the end. *)
Fixpoint first_wait {A} (s : stream A) : Z :=
  match s with Sleeps d s => d + first_wait s | _ => 0 end.

(** All its waits. *)
Fixpoint waits {A} (s : stream A) : list Z :=
  match s with Ended => [] | Sleeps d s => d :: waits s | Item _ s => waits s end.

Definition res {O : ObjectTypes} (A : Type) : Type := A + StoreError.

Class ObjectStore {O : ObjectTypes} (S : Type) := {
  put_opts : Path → PutPayload → PutOptions → Run S (res PutResult);
  put_multipart_opts : Path → PutMultipartOptions → Run S (res MultipartUpload);
  get_opts : Path → GetOptions → Run S (res GetResult);
  get_ranges : Path → list Range → Run S (res (list Bytes));
  head : Path → Run S (res ObjectMeta);
  delete : Path → Run S (res unit);
  list_objects : option Path → Run S (stream (res ObjectMeta));
  list_with_delimiter : option Path → Run S (res ListResult);
  copy : Path → Path → Run S (res unit);
  copy_if_not_exists : Path → Path → Run S (res unit);
}.

(** * The wrapper *)

Section shim.
Context {O : ObjectTypes} {S : Type} `{!ObjectStore S}.
Context {R : Type} (random_range : f64 → f64 → R → f64 * R).
Context (ln exp cos : f64 → f64).

Record LatencyStore : Type := mk_latency_store { inner : S; profile : LatencyProfile; stats : Stats }.

Definition latency_store_new (s : S) (p : LatencyProfile) : LatencyStore :=
  mk_latency_store s p stats_default.

(** The thread's generator, and the sleeps so far. *)
Record machine : Type := mk_machine { rng : R; slept : list Z }.

Abbreviation shim := (Run (LatencyStore * machine)).

Definition on_rng {A} (m : Run R A) : Run machine A := λ w,
  (λ '(a, r), (a, mk_machine r (slept w))) <$> m (rng w).
Definition draw_of (op : OpLatency) : shim Z := on_snd (on_rng (draw random_range ln exp cos op)).
Definition charge_stats (c : counter) (d : Z) : shim unit := modify_fst (λ s,
  mk_latency_store (inner s) (profile s) (charge c d (stats s))).
Definition sleep (d : Z) : shim unit := on_snd (λ w,
  Some (tt, mk_machine (rng w) (slept w ++ [d]))).
Definition on_inner {A} (m : Run S A) : shim A := λ '(s, w),
  (λ '(a, i), (a, (mk_latency_store i (profile s) (stats s), w))) <$> m (inner s).
Definition ask_profile : shim LatencyProfile := λ '(s, w), Some (profile s, (s, w)).

(** [flush::charge]: the round trips DuckDB makes, which the wrapper cannot see. It only
    sleeps; no counter knows of it. *)
Definition flush_charge (p : LatencyProfile) (puts gets : Z) : Run machine unit :=
  total ← on_rng (charge_for random_range ln exp cos p puts gets);
  if total =? 0 then mret tt else λ w, Some (tt, mk_machine (rng w) (slept w ++ [total])).

Definition delay (op : OpLatency) (c : counter) : shim unit :=
  d ← draw_of op;
  _ ← charge_stats c d;
  if negb (d =? 0) then sleep d else mret tt.

Definition on_get : shim unit := p ← ask_profile; delay (lp_get p) Gets.
Definition on_put : shim unit := p ← ask_profile; delay (lp_put p) Puts.

Definition shim_put_opts (location : Path) (payload : PutPayload) (opts : PutOptions) :
    shim (res PutResult) :=
  _ ← on_put; on_inner (put_opts location payload opts).
Definition shim_put_multipart_opts (location : Path) (opts : PutMultipartOptions) :
    shim (res MultipartUpload) :=
  _ ← on_put; on_inner (put_multipart_opts location opts).
Definition shim_get_opts (location : Path) (options : GetOptions) : shim (res GetResult) :=
  _ ← on_get; on_inner (get_opts location options).
Definition shim_get_ranges (location : Path) (ranges : list Range) : shim (res (list Bytes)) :=
  _ ← on_get; on_inner (get_ranges location ranges).
Definition shim_head (location : Path) : shim (res ObjectMeta) :=
  _ ← on_get; on_inner (head location).
Definition shim_delete (location : Path) : shim (res unit) :=
  p ← ask_profile; _ ← delay (lp_delete p) Deletes; on_inner (delete location).
Definition shim_list (prefix : option Path) : shim (stream (res ObjectMeta)) :=
  i ← on_inner (list_objects prefix);
  p ← ask_profile;
  d ← draw_of (lp_list p);
  _ ← charge_stats Lists d;
  mret (Sleeps d i).
Definition shim_list_with_delimiter (prefix : option Path) : shim (res ListResult) :=
  p ← ask_profile; _ ← delay (lp_list p) Lists; on_inner (list_with_delimiter prefix).
Definition shim_copy (src dst : Path) : shim (res unit) :=
  _ ← on_put; on_inner (copy src dst).
Definition shim_copy_if_not_exists (src dst : Path) : shim (res unit) :=
  _ ← on_put; on_inner (copy_if_not_exists src dst).

#[export] Instance latency_object_store : ObjectStore (LatencyStore * machine) := {
  put_opts := shim_put_opts;
  put_multipart_opts := shim_put_multipart_opts;
  get_opts := shim_get_opts;
  get_ranges := shim_get_ranges;
  head := shim_head;
  delete := shim_delete;
  list_objects := shim_list;
  list_with_delimiter := shim_list_with_delimiter;
  copy := shim_copy;
  copy_if_not_exists := shim_copy_if_not_exists;
}.

(** [store::build]. The S3 client's builder is given the endpoint, the bucket, the two
    keys, the region, whether requests are virtual-hosted and whether http is allowed. *)
Definition build
    (amazon_s3 : string → string → string → string → string → bool → bool → result S)
    (cfg : S3Config) (p : LatencyProfile) : result LatencyStore :=
  s3 ← amazon_s3 (s3_endpoint cfg) (s3_bucket cfg) (s3_access_key cfg) (s3_secret_key cfg)
    (s3_region cfg) false true;
  Ok (latency_store_new s3 p).
End shim.

Arguments LatencyStore S : clear implicits.
Arguments machine R : clear implicits.
