(* ===== verification/StoreProps.v ===== *)
(** The properties of the store wrapper ([src/src/store/latency.rs]): it is transparent,
    it counts every request, and what it says it injected is what it slept. *)

From S2P Require Import Prelude Flush Latency Store.

(** * A client of the store *)

(** The calls of the trait. *)
Inductive request {O : ObjectTypes} : Type :=
| Put_opts (location : Path) (payload : PutPayload) (opts : PutOptions)
| Put_multipart_opts (location : Path) (opts : PutMultipartOptions)
| Get_opts (location : Path) (options : GetOptions)
| Get_ranges (location : Path) (ranges : list Range)
| Head (location : Path)
| Delete (location : Path)
| List (prefix : option Path)
| List_with_delimiter (prefix : option Path)
| Copy (src dst : Path)
| Copy_if_not_exists (src dst : Path).

(** What they return. *)
Inductive response {O : ObjectTypes} : Type :=
| R_put (r : res PutResult)
| R_multipart (r : res MultipartUpload)
| R_get (r : res GetResult)
| R_ranges (r : res (list Bytes))
| R_meta (r : res ObjectMeta)
| R_unit (r : res unit)
| R_stream (r : stream (res ObjectMeta))
| R_listed (r : res ListResult).

Definition as_response {O : ObjectTypes} {S A} (c : A → response) (m : Run S A) : Run S response :=
  a ← m; mret (c a).

Definition serve {O : ObjectTypes} {S} `{!ObjectStore S} (q : request) : Run S response :=
  match q with
  | Put_opts l p o => as_response R_put (put_opts l p o)
  | Put_multipart_opts l o => as_response R_multipart (put_multipart_opts l o)
  | Get_opts l o => as_response R_get (get_opts l o)
  | Get_ranges l rs => as_response R_ranges (get_ranges l rs)
  | Head l => as_response R_meta (head l)
  | Delete l => as_response R_unit (delete l)
  | List p => as_response R_stream (list_objects p)
  | List_with_delimiter p => as_response R_listed (list_with_delimiter p)
  | Copy s d => as_response R_unit (copy s d)
  | Copy_if_not_exists s d => as_response R_unit (copy_if_not_exists s d)
  end.

Fixpoint serve_all {O : ObjectTypes} {S} `{!ObjectStore S} (qs : list request) :
    Run S (list response) :=
  match qs with
  | [] => mret []
  | q :: qs => a ← serve q; rest ← serve_all qs; mret (a :: rest)
  end.

(** The class a request is charged to: reads and metadata as GET, copies as PUT. *)
Definition counter_of {O : ObjectTypes} (q : request) : counter :=
  match q with
  | Put_opts _ _ _ | Put_multipart_opts _ _ | Copy _ _ | Copy_if_not_exists _ _ => Puts
  | Get_opts _ _ | Get_ranges _ _ | Head _ => Gets
  | Delete _ => Deletes
  | List _ | List_with_delimiter _ => Lists
  end.
Definition class_of (c : counter) (p : LatencyProfile) : OpLatency :=
  match c with Gets => lp_get p | Puts => lp_put p | Lists => lp_list p | Deletes => lp_delete p end.

(** A listing is served after a wait of [d]; everything else is as it was. *)
Definition delayed {O : ObjectTypes} (d : Z) (a : response) : response :=
  match a with R_stream s => R_stream (Sleeps d s) | _ => a end.
(** What the request itself sleeps. *)
Definition sleeps {O : ObjectTypes} (q : request) (d : Z) : list Z :=
  match q with List _ => [] | _ => if d =? 0 then [] else [d] end.

(** * Runs *)

Lemma Run_bind {S A B} (m : Run S A) (f : A → Run S B) s :
  (m ≫= f) s = match m s with Some (a, s') => f a s' | None => None end.
Proof. reflexivity. Qed.

Lemma Run_bind_inv {S A B} (m : Run S A) (f : A → Run S B) s b s2 :
  (m ≫= f) s = Some (b, s2) → ∃ a s1, m s = Some (a, s1) ∧ f a s1 = Some (b, s2).
Proof. rewrite Run_bind. destruct (m s) as [[a s1]|]; [by eauto | done]. Qed.

Definition sum (l : list Z) : Z := foldr Z.add 0 l.

Lemma sum_cons x l : sum (x :: l) = x + sum l.
Proof. done. Qed.
Lemma sum_app l k : sum (l ++ k) = sum l + sum k.
Proof. induction l; simpl in *; lia. Qed.

Definition sleep_all {O : ObjectTypes} (qs : list request) (ds : list Z) : list Z :=
  concat (zip_with sleeps qs ds).

Section times.
Context {O : ObjectTypes} {S : Type} `{!ObjectStore S}.

Lemma serve_all_length qs (i : S) out i' : serve_all qs i = Some (out, i') → length out = length qs.
Proof.
  revert i out. induction qs as [|q qs IH]; intros i out; cbn [serve_all]; [by intros [= <- <-] |].
  intros (a & i1 & _ & (rest & i2 & H & [= <- <-])%Run_bind_inv)%Run_bind_inv.
  simpl. f_equal. by eapply IH.
Qed.

(** What the consumer of a response waits: all the waits of a listing. *)
Definition waited (a : response) : Z :=
  match a with R_stream s => sum (waits s) | _ => 0 end.

(** The store behind answers a listing with a stream, and nothing else with one. *)
Lemma serve_stream q (i : S) a i' :
  serve q i = Some (a, i') →
  match q, a with List _, R_stream _ => True | List _, _ => False | _, R_stream _ => False | _, _ => True end.
Proof. by destruct q; cbn [serve]; intros (x & s1 & _ & [= <- <-])%Run_bind_inv. Qed.

(** Where the time of a draw goes: slept before the request, or in its listing. *)
Lemma delayed_time q d (i : S) a i' :
  serve q i = Some (a, i') → sum (sleeps q d) + waited (delayed d a) = d + waited a.
Proof.
  intros E%serve_stream. destruct q, a; try done; unfold sum; simpl; try destruct (Z.eqb_spec d 0); simpl; lia.
Qed.

Lemma delayed_times qs ds (i : S) out i' :
  length ds = length qs → serve_all qs i = Some (out, i') →
  sum (sleep_all qs ds) + sum (waited <$> zip_with delayed ds out) = sum ds + sum (waited <$> out).
Proof.
  revert ds i out. induction qs as [|q qs IH]; intros [|d ds] i out [=] E; [by injection E as <- _ |].
  cbn [serve_all] in E. apply Run_bind_inv in E as (a & i1 & E1 & E).
  apply Run_bind_inv in E as (rest & i2 & E2 & [= <- <-]).
  specialize (IH ds i1 rest ltac:(done) E2). pose proof (delayed_time q d _ _ _ E1) as Hd.
  unfold sleep_all in *. cbn [zip_with concat]. rewrite !fmap_cons, sum_app, !sum_cons. lia.
Qed.
End times.

(** A draw that is a constant. *)
Definition constant (op : OpLatency) : Prop := sigma op = f_zero.

Section draws.
Context {R : Type} (random_range : f64 → f64 → R → f64 * R) (ln exp cos : f64 → f64).
Abbreviation draw := (draw random_range ln exp cos).

Lemma draw_constant op r : constant op → draw op r = Some (median op, r).
Proof. unfold constant, Latency.draw. intros ->. by destruct (Z.eqb_spec (median op) 0) as [->|_]. Qed.

Lemma draw_times_constant op n total r :
  constant op → 0 ≤ median op → total ≤ duration_max →
  draw_times random_range ln exp cos op n total r =
    if total + Z.of_nat n * median op <=? duration_max
    then Some (total + Z.of_nat n * median op, r) else None.
Proof.
  intros Hc Hm. revert total. induction n as [|n IH]; intros total Ht.
  { rewrite Z.mul_0_l, Z.add_0_r. by rewrite (proj2 (Z.leb_le _ _) Ht). }
  cbn [draw_times]. rewrite Run_bind, draw_constant by done. rewrite Run_bind.
  unfold run_lift, duration_add. destruct (Z.leb_spec (total + median op) duration_max); simpl.
  - rewrite IH by done. replace (total + median op + Z.of_nat n * median op)
      with (total + Z.of_nat (S n) * median op) by lia. done.
  - destruct (Z.leb_spec (total + Z.of_nat (S n) * median op) duration_max); [nia | done].
Qed.

(** The charge for round trips the wrapper cannot see, when nothing spreads: their sum,
    or the overflow's panic. *)
Lemma charge_for_constant p puts gets r :
  constant (lp_put p) → constant (lp_get p) → 0 ≤ median (lp_put p) → 0 ≤ median (lp_get p) →
  0 ≤ puts → 0 ≤ gets →
  let total := puts * median (lp_put p) + gets * median (lp_get p) in
  charge_for random_range ln exp cos p puts gets r =
    if total <=? duration_max then Some (total, r) else None.
Proof.
  intros H1 H2 M1 M2 Hp Hg total. unfold charge_for, total.
  rewrite Run_bind, draw_times_constant by done. rewrite !Z2Nat.id, Z.add_0_l by done.
  destruct (Z.leb_spec (puts * median (lp_put p)) duration_max).
  - rewrite draw_times_constant by done. by rewrite Z2Nat.id.
  - destruct (Z.leb_spec (puts * median (lp_put p) + gets * median (lp_get p)) duration_max);
      [nia | done].
Qed.
End draws.

(** * One request *)

Section shim.
Context {O : ObjectTypes} {S : Type} `{!ObjectStore S}.
Context {R : Type} (random_range : f64 → f64 → R → f64 * R) (ln exp cos : f64 → f64).

Abbreviation draw := (draw random_range ln exp cos).
#[local] Instance shim : ObjectStore (LatencyStore S * machine R) :=
  latency_object_store random_range ln exp cos.

(** The state of the wrapper, by its parts. *)
Definition shim_state (i : S) (p : LatencyProfile) (s : Stats) (r : R) (z : list Z) :
    LatencyStore S * machine R := (mk_latency_store i p s, mk_machine r z).

Lemma delay_spec op c i p s r z :
  delay random_range ln exp cos op c (shim_state i p s r z) =
    match draw op r with
    | Some (d, r') => Some (tt, shim_state i p (charge c d s) r' (z ++ if d =? 0 then [] else [d]))
    | None => None
    end.
Proof.
  unfold delay, draw_of. rewrite Run_bind. unfold on_snd, on_rng, shim_state. simpl.
  destruct (draw op r) as [[d r']|]; [| done]. simpl. rewrite Run_bind. simpl.
  by destruct (d =? 0); [rewrite app_nil_r |].
Qed.

(** Everything a request does, from what the store behind it does and from the draw. *)
Lemma serve_spec q i p s r z :
  serve q (shim_state i p s r z) =
    match draw (class_of (counter_of q) p) r, serve q i with
    | Some (d, r'), Some (a, i') =>
      Some (delayed d a, shim_state i' p (charge (counter_of q) d s) r' (z ++ sleeps q d))
    | _, _ => None
    end.
Proof.
  assert (∀ A (f : A → response) m op c, (∀ a d, delayed d (f a) = f a) →
    as_response f (_ ← delay random_range ln exp cos op c; on_inner m) (shim_state i p s r z) =
      match draw op r, as_response f m i with
      | Some (d, r'), Some (a, i') =>
        Some (delayed d a, shim_state i' p (charge c d s) r' (z ++ if d =? 0 then [] else [d]))
      | _, _ => None
      end) as H.
  { intros A f m op c Hf. unfold as_response. rewrite !Run_bind, delay_spec.
    destruct (draw op r) as [[d r']|]; [| done]. unfold on_inner, shim_state. simpl.
    destruct (m i) as [[a i']|]; [| done]. simpl. by rewrite Hf. }
  destruct q as [| | | | | |pre| | |]; try exact (H _ _ _ _ _ (λ _ _, eq_refl)).
  cbn [serve counter_of class_of sleeps]. unfold as_response. rewrite !Run_bind.
  cbn [list_objects shim latency_object_store]. unfold shim_list. rewrite Run_bind.
  unfold on_inner, shim_state. simpl. destruct (list_objects pre i) as [[a i']|]; simpl.
  - rewrite Run_bind. simpl. rewrite Run_bind. unfold draw_of, on_snd, on_rng. simpl.
    destruct (draw (lp_list p) r) as [[d r']|]; [| done]. simpl. by rewrite app_nil_r.
  - by destruct (draw (lp_list p) r) as [[]|].
Qed.

(** * A run of requests *)

(** The draws of a run, one per request. *)
Fixpoint draw_all (p : LatencyProfile) (qs : list request) : Run R (list Z) :=
  match qs with
  | [] => mret []
  | q :: qs => d ← draw (class_of (counter_of q) p); ds ← draw_all p qs; mret (d :: ds)
  end.

Definition charge_all (qs : list request) (ds : list Z) (s : Stats) : Stats :=
  fold_left (λ s '(q, d), charge (counter_of q) d s) (zip qs ds) s.
Lemma serve_all_spec qs i p s r z :
  serve_all qs (shim_state i p s r z) =
    match draw_all p qs r, serve_all qs i with
    | Some (ds, r'), Some (out, i') =>
      Some (zip_with delayed ds out,
            shim_state i' p (charge_all qs ds s) r' (z ++ sleep_all qs ds))
    | _, _ => None
    end.
Proof.
  revert i s r z. induction qs as [|q qs IH]; intros i s r z.
  { unfold sleep_all. cbn. by rewrite app_nil_r. }
  cbn [serve_all draw_all]. rewrite !Run_bind, serve_spec.
  destruct (draw (class_of (counter_of q) p) r) as [[d r1]|]; [| done].
  destruct (serve q i) as [[a i1]|].
  - rewrite !Run_bind, IH. destruct (draw_all p qs r1) as [[ds r2]|]; [| done].
    destruct (serve_all qs i1) as [[out i2]|]; [| done].
    unfold sleep_all. cbn. by rewrite <- app_assoc.
  - rewrite Run_bind. by destruct (draw_all p qs r1) as [[]|].
Qed.

Lemma draw_all_length p qs r ds r' : draw_all p qs r = Some (ds, r') → length ds = length qs.
Proof.
  revert r ds. induction qs as [|q qs IH]; intros r ds; cbn [draw_all]; [by intros [= <- <-] |].
  intros (d & r1 & _ & (ds1 & r2 & H & [= <- <-])%Run_bind_inv)%Run_bind_inv.
  simpl. f_equal. by eapply IH.
Qed.

Lemma draw_all_constant p qs r :
  (∀ c, constant (class_of c p)) →
  draw_all p qs r = Some ((λ q, median (class_of (counter_of q) p)) <$> qs, r).
Proof.
  intros Hp. induction qs as [|q qs IH]; [done |]. cbn [draw_all].
  by rewrite Run_bind, draw_constant, Run_bind, IH.
Qed.

(** * Counting *)

Definition stats_u64 (s : Stats) : Prop := (∀ c, is_u64 (count_of c s)) ∧ is_u64 (injected_micros s).

Lemma count_charge c c' d s :
  count_of c (charge c' d s) = if decide (c = c') then as_u64 (count_of c s + 1) else count_of c s.
Proof. by destruct c, c'. Qed.

Lemma injected_charge c d s :
  injected_micros (charge c d s) = as_u64 (injected_micros s + as_u64 (as_micros d)).
Proof. by destruct c. Qed.

Lemma as_u64_u64 z : is_u64 (as_u64 z).
Proof. apply Z.mod_pos_bound. lia. Qed.

Lemma as_u64_small z : is_u64 z → as_u64 z = z.
Proof. apply Z.mod_small. Qed.

Lemma as_u64_add_l a b : as_u64 (as_u64 a + b) = as_u64 (a + b).
Proof. unfold as_u64. by rewrite Zplus_mod_idemp_l. Qed.

Lemma as_u64_add_r a b : as_u64 (a + as_u64 b) = as_u64 (a + b).
Proof. unfold as_u64. by rewrite Zplus_mod_idemp_r. Qed.

Lemma charge_u64 c d s : stats_u64 s → stats_u64 (charge c d s).
Proof.
  intros [H1 H2]. split; [| rewrite injected_charge; apply as_u64_u64].
  intros c'. rewrite count_charge. case_decide; [apply as_u64_u64 | done].
Qed.

Definition requests_of (c : counter) (qs : list request) : list request :=
  base.filter (λ q, counter_of q = c) qs.
Lemma charge_all_spec qs ds s :
  length ds = length qs → stats_u64 s →
  (∀ c, count_of c (charge_all qs ds s) = as_u64 (count_of c s + zlen (requests_of c qs))) ∧
  injected_micros (charge_all qs ds s) = as_u64 (injected_micros s + sum (as_micros <$> ds)).
Proof.
  revert ds s. induction qs as [|q qs IH]; intros [|d ds] s [=] Hs.
  - destruct Hs as [H1 H2]. unfold charge_all, zlen. simpl.
    split; [intros c |]; by rewrite Z.add_0_r, as_u64_small.
  - destruct (IH ds (charge (counter_of q) d s)) as [Hc Hi]; [done | by apply charge_u64 |].
    split.
    + intros c. change (charge_all _ _ _) with (charge_all qs ds (charge (counter_of q) d s)).
      rewrite Hc, count_charge. unfold requests_of. rewrite filter_cons.
      do 2 case_decide; try congruence. rewrite zlen_cons, as_u64_add_l. f_equal. lia.
    + change (charge_all _ _ _) with (charge_all qs ds (charge (counter_of q) d s)).
      rewrite Hi, injected_charge, as_u64_add_l, fmap_cons. simpl.
      rewrite (Z.add_comm (injected_micros s)), <- Z.add_assoc, as_u64_add_l. f_equal. lia.
Qed.

(** What a publish is charged: one PUT of its class, slept and not counted. *)
Lemma flush_charge_constant p r z :
  constant (lp_put p) → constant (lp_get p) → 0 ≤ median (lp_put p) ≤ duration_max →
  0 ≤ median (lp_get p) →
  flush_charge random_range ln exp cos p 1 0 (mk_machine r z) =
    Some (tt, mk_machine r (z ++ if median (lp_put p) =? 0 then [] else [median (lp_put p)])).
Proof.
  intros H1 H2 [M1 M3] M2. unfold flush_charge, mbind, run_bind, on_rng. simpl.
  rewrite charge_for_constant by done. rewrite Z.mul_1_l, Z.mul_0_l, Z.add_0_r.
  rewrite (proj2 (Z.leb_le _ _) M3). simpl.
  by destruct (median (lp_put p) =? 0); [rewrite app_nil_r |].
Qed.

(** * Properties *)

(** The wrapper is transparent. A run of requests through it gets, request by
    request, what the store behind it answers to the same run, and leaves that store in
    the same state; a listing comes after one wait, before its first item. It fails
    only where a draw or the store itself panics, and sleeps only before a request. *)
Theorem shim_transparent qs i p s r z :
  match serve_all qs (shim_state i p s r z) with
  | Some (out, (w, m)) =>
    ∃ ds as_inner, serve_all qs i = Some (as_inner, inner w) ∧ profile w = p ∧
      length ds = length qs ∧ out = zip_with delayed ds as_inner ∧ slept m = z ++ sleep_all qs ds
  | None => draw_all p qs r = None ∨ serve_all qs i = None
  end.
Proof.
  rewrite serve_all_spec. destruct (draw_all p qs r) as [[ds r']|] eqn:E; [| by left].
  destruct (serve_all qs i) as [[out i']|]; [| by right].
  exists ds, out. split_and!; try done. by eapply draw_all_length.
Qed.

(** C36: the accounts of the wrapper. After any run of requests, each counter has grown
    by the number of requests of its class, modulo 2^64, whatever method made them; the
    injected microseconds by the microseconds of the draws. The responses are those of
    the store behind it to the same run, except that a listing sleeps its request's
    draw before its first item. The time of the draws is the time slept: what the
    requests slept, and what the consumers of the listings wait more than those of the
    store behind it, are the draws to the nanosecond. *)
Theorem shim_accounts qs i p s r z out w m :
  stats_u64 s → serve_all qs (shim_state i p s r z) = Some (out, (w, m)) →
  ∃ ds as_inner, draw_all p qs r = Some (ds, rng m) ∧
    serve_all qs i = Some (as_inner, inner w) ∧
    (∀ c, count_of c (stats w) = as_u64 (count_of c s + zlen (requests_of c qs))) ∧
    injected_micros (stats w) = as_u64 (injected_micros s + sum (as_micros <$> ds)) ∧
    length out = length qs ∧
    (∀ j a d, as_inner !! j = Some a → ds !! j = Some d →
       out !! j = Some match a with R_stream s => R_stream (Sleeps d s) | _ => a end) ∧
    sum (slept m) + sum (waited <$> out) = sum z + sum ds + sum (waited <$> as_inner).
Proof.
  intros Hs. rewrite serve_all_spec. destruct (draw_all p qs r) as [[ds r']|] eqn:E; [| done].
  destruct (serve_all qs i) as [[as_inner i']|] eqn:Ei; [| done]. intros [= <- <- <-].
  pose proof (draw_all_length _ _ _ _ _ E) as Hl. destruct (charge_all_spec qs ds s Hl Hs) as [Hc Hi].
  exists ds, as_inner. simpl. rewrite sum_app. pose proof (delayed_times qs ds i as_inner i' Hl Ei).
  split_and!; try done; [| | lia].
  - rewrite length_zip_with, Hl, (serve_all_length _ _ _ _ Ei). lia.
  - intros j a d Ha Hd. by rewrite (proj2 (lookup_zip_with_Some delayed ds as_inner j _)) by eauto.
Qed.

(** A profile without spread. With fixed delays the wrapper never panics unless
    the store does, asks nothing of the generator, and charges every request its
    class's delay; with [LatencyProfile::none] it injects nothing and sleeps nothing. *)
Theorem fixed_profile_exact qs i p s r z :
  (∀ c, constant (class_of c p)) → stats_u64 s →
  let ds := (λ q, median (class_of (counter_of q) p)) <$> qs in
  (serve_all qs (shim_state i p s r z) = None ↔ serve_all qs i = None) ∧
  ∀ out w m, serve_all qs (shim_state i p s r z) = Some (out, (w, m)) →
    rng m = r ∧ injected_micros (stats w) = as_u64 (injected_micros s + sum (as_micros <$> ds)) ∧
    slept m = z ++ sleep_all qs ds ∧
    (p = profile_none → injected_micros (stats w) = injected_micros s ∧ slept m = z).
Proof.
  intros Hp Hs ds. rewrite serve_all_spec, (draw_all_constant _ _ _ Hp). fold ds.
  assert (length ds = length qs) as Hl by apply length_fmap.
  destruct (charge_all_spec qs ds s Hl Hs) as [_ Hi].
  destruct (serve_all qs i) as [[as_inner i']|]; [| done]. split; [done |].
  intros out w m [= <- <- <-]. simpl. split_and!; try done. intros ->. rewrite Hi.
  assert (ds = replicate (length qs) 0) as ->.
  { unfold ds. clear. induction qs as [|q qs IH]; [done |]. rewrite fmap_cons, IH. by destruct q. }
  clear - Hs. destruct Hs as [_ Hs]. rewrite fmap_replicate. split.
  - rewrite <- (as_u64_small _ Hs) at 2. f_equal.
    assert (∀ n, sum (replicate n (as_micros 0)) = 0) as ->; [| lia].
    induction n; simpl; [done |]. by rewrite IHn.
  - enough (sleep_all qs (replicate (length qs) 0) = []) as -> by apply app_nil_r.
    unfold sleep_all. induction qs as [|q qs IH]; [done |]. simpl. rewrite IH. by destruct q.
Qed.
End shim.

(** * Examples *)

(** A store in memory, as the tests of the crate use. *)
#[local] Instance memory_types : ObjectTypes := {
  Path := string; PutPayload := string; PutOptions := unit; PutResult := unit;
  PutMultipartOptions := unit; MultipartUpload := unit; GetOptions := unit; GetResult := string;
  Range := nat * nat; Bytes := string; ObjectMeta := string; ListResult := list string;
  StoreError := string;
}.

Definition memory : Type := gmap string string.
Definition find (k : string) : Run memory (res string) := λ m,
  Some (match (m : gmap string string) !! k with Some v => inl v | None => inr "not found"%string end, m).
Definition write (k v : string) : Run memory (res unit) := λ m,
  Some (inl tt, <[k := v]> (m : gmap string string)).
Definition keys (m : memory) : list string := (map_to_list (m : gmap string string)).*1.

#[local] Instance memory_store : ObjectStore memory := {
  put_opts k v _ := write k v;
  put_multipart_opts k _ := write k empty_str;
  get_opts k _ := find k;
  get_ranges k rs := λ m, match find k m with
    | Some (inl v, m) => Some (inl ((λ r, String.substring r.1 (r.2 - r.1) v) <$> rs), m)
    | Some (inr e, m) => Some (inr e, m)
    | None => None
    end;
  head k := λ m, match find k m with
    | Some (inl _, m) => Some (inl k, m)
    | Some (inr e, m) => Some (inr e, m)
    | None => None
    end;
  delete k := λ m, Some (inl tt, base.delete k (m : gmap string string));
  list_objects _ := λ m, Some (foldr (λ k s, Item (inl k) s) Ended (keys m), m);
  list_with_delimiter _ := λ m, Some (inl (keys m), m);
  copy src dst := λ m, match find src m with
    | Some (inl v, m) => write dst v m
    | Some (inr e, m) => Some (inr e, m)
    | None => None
    end;
  copy_if_not_exists src dst := λ m, match find dst m, find src m with
    | Some (inr _, _), Some (inl v, m) => write dst v m
    | _, _ => Some (inr "refused"%string, m)
    end;
}.

(** No generator is asked when nothing spreads. *)
Definition no_random (_ _ : f64) (r : unit) : f64 * unit := (f_zero, r).
Definition ms50 : LatencyProfile :=
  mk_profile (op_fixed (from_millis 50)) (op_fixed (from_millis 50)) op_zero op_zero.
Definition requests : list request :=
  [Put_opts "k" "0123456789" tt; Get_opts "k" tt; Get_ranges "k" [(2, 5)]; Head "x"; List None;
   Copy "k" "k2"; Delete "k"]%string%nat.
Definition shim_start (p : LatencyProfile) : LatencyStore memory * machine unit :=
  shim_state (∅ : gmap string string) p stats_default tt [].
Definition serve_memory (p : LatencyProfile) : option (list response * (LatencyStore memory * machine unit)) :=
  serve_all (ObjectStore0 := latency_object_store no_random id id id) requests (shim_start p).

Lemma stats_default_u64 : stats_u64 stats_default.
Proof. split; [intros []; vm_compute; by split | vm_compute; by split]. Qed.

Definition out50 : list response * (LatencyStore memory * machine unit) :=
  default ([], shim_start ms50) (serve_memory ms50).

Lemma serve_memory_50 : serve_memory ms50 = Some (out50.1, (out50.2.1, out50.2.2)).
Proof.
  unfold out50. assert (is_Some (serve_memory ms50)) as [[a [b c]] ->]; [| done].
  assert (match serve_memory ms50 with Some _ => true | None => false end = true) as H
    by (vm_compute; reflexivity).
  by destruct (serve_memory ms50).
Qed.

Lemma shim_accounts_witness :
  st_gets (stats out50.2.1) = 3 ∧ st_puts (stats out50.2.1) = 2 ∧
  injected_micros (stats out50.2.1) = 250000.
Proof.
  destruct (shim_accounts no_random id id id requests _ ms50 _ tt [] out50.1 out50.2.1 out50.2.2
    stats_default_u64 serve_memory_50) as (ds & as_inner & E & _ & Hc & Hi & _).
  split_and!; [exact (Hc Gets) | exact (Hc Puts) |]. rewrite Hi.
  assert (ds = [50000000; 50000000; 50000000; 50000000; 0; 50000000; 0]) as ->; [| reflexivity].
  change (draw_all no_random id id id ms50 requests tt = Some (ds, tt)) in E.
  assert (draw_all no_random id id id ms50 requests tt =
    Some ([50000000; 50000000; 50000000; 50000000; 0; 50000000; 0], tt)) as E' by (vm_compute; reflexivity).
  rewrite E' in E. by injection E.
Defined.

Lemma none_constant c : constant (class_of c profile_none).
Proof. by destruct c. Qed.

Lemma fixed_profile_exact_witness :
  serve_memory profile_none ≠ None ∧
  ∀ out w m, serve_memory profile_none = Some (out, (w, m)) →
    injected_micros (stats w) = 0 ∧ slept m = [].
Proof.
  destruct (fixed_profile_exact no_random id id id requests (∅ : gmap string string) profile_none
    stats_default tt [] none_constant stats_default_u64) as [Hn Hs].
  split.
  - intros H%Hn. vm_compute in H. discriminate H.
  - intros out w m E. destruct (Hs out w m E) as (_ & _ & _ & H). exact (H eq_refl).
Defined.

(** A listing pays before its first item. *)
Example list_waits_first :
  let p := mk_profile op_zero op_zero (op_fixed (from_millis 40)) op_zero in
  match serve (ObjectStore0 := latency_object_store no_random id id id) (List None)
      (shim_state (<["a" := "v"]> (∅ : gmap string string))%string p stats_default tt []) with
  | Some (R_stream s, (w, m)) =>
    items s = [inl "a"%string] ∧ first_wait s = from_millis 40 ∧ st_lists (stats w) = 1 ∧ slept m = []
  | _ => False
  end.
Proof. vm_compute. repeat split. Qed.
