(* ===== verification/StoreTests.v ===== *)
(** The unit tests of the store wrapper as definitions: the [tests] module of
    [src/src/store/latency.rs], assertion by assertion ([Tests.v] says what a test is).
    The crate's in-memory store is a parameter with the laws the tests need of it; what a
    test measures is what it slept and the time its work took, which is a parameter too.
    The statistical test of [draw] is not here: it samples a generator. *)

From S2P Require Import Latency.
From S2P Require Import Prelude Flush Store StoreProps Tests.

Section store_tests.
Context {O : ObjectTypes} {S : Type} {OS : ObjectStore S}.
Context {R : Type} (random_range : f64 → f64 → R → f64 * R) (ln exp cos : f64 → f64).
(** [InMemory::new()], and the crate's conversions and default options. *)
Context (in_memory : S) (path_from : string → Path) (payload : bytes → PutPayload).
Context (put_default : PutOptions) (get_default : GetOptions) (range_options : Z → Z → GetOptions).
Context (body : GetResult → option bytes).
(** What the work of a test takes, its sleeps apart. *)
Context (work : Z).

Abbreviation timed := (Run (LatencyStore S * machine R)).

(** The helper [store], and a test with its store in a variable. *)
Definition store (profile : LatencyProfile) : LatencyStore S := latency_store_new in_memory profile.
Definition with_store {A} (profile : LatencyProfile) (test : timed A) : Run (machine R) A := λ w,
  (λ '(a, x), (a, x.2)) <$> test (store profile, w).

(** [.await.unwrap()] *)
Definition await {A} (m : timed (res A)) : timed A :=
  r ← m; run_lift (match r with inl a => Some a | inr _ => None end).
(** [put], [get] and [get_range] are the crate's, over the trait's methods. *)
Definition put (k : string) (v : bytes) : timed PutResult :=
  await (shim_put_opts random_range ln exp cos (path_from k) (payload v) put_default).
Definition get (k : string) : timed GetResult :=
  await (shim_get_opts random_range ln exp cos (path_from k) get_default).
Definition get_range (k : string) (start end_ : Z) : timed bytes :=
  r ← await (shim_get_opts random_range ln exp cos (path_from k) (range_options start end_));
  run_lift (body r).
(** [collect]: it waits through the stream. *)
Definition collect {A} (s : stream A) : timed (list A) := λ '(l, w),
  Some (items s, (l, mk_machine (rng w) (slept w ++ waits s))).

(** [Instant::now()] and [elapsed()]; the counters. *)
Definition now : timed Z := λ x, Some (sum (slept x.2), x).
Definition elapsed (t : Z) : timed Z := λ x, Some (sum (slept x.2) - t + work, x).
Definition snapshot_now : timed StatsSnapshot := λ x, Some (snapshot (stats x.1), x).

Definition injects_the_configured_delay : Run (machine R) unit :=
  let profile := mk_profile (op_fixed (from_millis 50)) (op_fixed (from_millis 50))
                   (lp_list profile_none) (lp_delete profile_none) in
  with_store profile (
    t ← now;
    _ ← put "k" (lit "v");
    _ ← get "k";
    elapsed ← elapsed t;
    _ ← assert (from_millis 100 <=? elapsed);
    stats ← snapshot_now;
    _ ← assert_eq (sn_puts stats) 1;
    _ ← assert_eq (sn_gets stats) 1;
    assert (from_millis 100 <=? sn_injected stats)).

Definition a_zero_profile_is_a_passthrough : Run (machine R) unit :=
  with_store profile_none (
    t ← now;
    _ ← put "k" (lit "v");
    r ← get "k";
    got ← run_lift (body r);
    _ ← assert_eq got (lit "v");
    elapsed ← elapsed t;
    _ ← assert (elapsed <? from_millis 20);
    stats ← snapshot_now;
    assert_eq (sn_injected stats) 0).

Definition range_reads_are_charged_a_round_trip : Run (machine R) unit :=
  with_store (mk_profile (op_fixed (from_millis 30)) (lp_put profile_none)
                (lp_list profile_none) (lp_delete profile_none)) (
    _ ← put "k" (lit "0123456789");
    t ← now;
    got ← get_range "k" 2 5;
    _ ← assert_eq got (lit "234");
    elapsed ← elapsed t;
    assert (from_millis 30 <=? elapsed)).

Definition listing_pays_before_the_first_item : Run (machine R) unit :=
  with_store (mk_profile (lp_get profile_none) (lp_put profile_none)
                (op_fixed (from_millis 40)) (lp_delete profile_none)) (
    _ ← put "a" (lit "v");
    t ← now;
    s ← shim_list random_range ln exp cos None;
    found ← collect s;
    _ ← assert_eq (zlen found) 1;
    elapsed ← elapsed t;
    _ ← assert (from_millis 40 <=? elapsed);
    stats ← snapshot_now;
    assert_eq (sn_lists stats) 1).

(** * They pass *)

(** What the store in memory does: a put of a new key is read back, whole or by range,
    and it is all a listing yields. *)
Record memory_laws : Prop := {
  memory_put k v : ∃ r m, put_opts (path_from k) (payload v) put_default in_memory = Some (inl r, m) ∧
    (∃ g m', get_opts (path_from k) get_default m = Some (inl g, m') ∧ body g = Some v) ∧
    (∀ a b, 0 ≤ a ≤ b → b ≤ zlen v →
      ∃ g m', get_opts (path_from k) (range_options a b) m = Some (inl g, m') ∧
        body g = Some (take (Z.to_nat (b - a)) (drop (Z.to_nat a) v))) ∧
    ∃ s m', list_objects None m = Some (s, m') ∧ zlen (items s) = 1 ∧ 0 ≤ sum (waits s);
}.

Context (laws : memory_laws) (quick : 0 ≤ work < from_millis 20).

Abbreviation slept_by op := (if median op =? 0 then [] else [median op]).

(** A request behind a delay without spread. *)
Lemma delayed_request {A} op c (m : Run S (res A)) i p s r z a i' :
  constant op → m i = Some (inl a, i') →
  await (_ ← delay random_range ln exp cos op c; on_inner m) (shim_state i p s r z) =
    Some (a, shim_state i' p (charge c (median op) s) r (z ++ slept_by op)).
Proof.
  intros Hc Hm. unfold await. rewrite !Run_bind, delay_spec, draw_constant by done.
  unfold on_inner, shim_state. simpl. by rewrite Hm.
Qed.

Lemma put_runs k v i p s r z a i' :
  constant (lp_put p) → put_opts (path_from k) (payload v) put_default i = Some (inl a, i') →
  put k v (shim_state i p s r z) =
    Some (a, shim_state i' p (charge Puts (median (lp_put p)) s) r (z ++ slept_by (lp_put p))).
Proof. intros Hc Hm. by apply (delayed_request (lp_put p) Puts (put_opts _ _ _)). Qed.

Lemma get_runs k o i p s r z a i' :
  constant (lp_get p) → get_opts (path_from k) o i = Some (inl a, i') →
  await (shim_get_opts random_range ln exp cos (path_from k) o) (shim_state i p s r z) =
    Some (a, shim_state i' p (charge Gets (median (lp_get p)) s) r (z ++ slept_by (lp_get p))).
Proof. intros Hc Hm. by apply (delayed_request (lp_get p) Gets (get_opts _ _)). Qed.

Lemma list_runs i p s r z l i' :
  constant (lp_list p) → list_objects None i = Some (l, i') →
  shim_list random_range ln exp cos None (shim_state i p s r z) =
    Some (Sleeps (median (lp_list p)) l, shim_state i' p (charge Lists (median (lp_list p)) s) r z).
Proof.
  intros Hc Hm. unfold shim_list. rewrite Run_bind. unfold on_inner, shim_state. simpl. rewrite Hm. simpl.
  rewrite Run_bind. simpl. rewrite Run_bind. unfold draw_of, on_snd, on_rng. simpl.
  by rewrite draw_constant.
Qed.

Lemma with_store_passes p (test : timed unit) r :
  passes test (shim_state in_memory p stats_default r []) →
  passes (with_store p test) (mk_machine r []).
Proof. intros [[[] x] E]. unfold passes, with_store. change (store p, mk_machine r []) with (shim_state in_memory p stats_default r []). rewrite E. by eexists. Qed.

(** The sleeps of a test are numbers; only its work is not. *)
Ltac clock :=
  repeat match goal with |- context [sum ?l] =>
    let n := eval vm_compute in (sum l) in change (sum l) with n
  end;
  first [apply Z.leb_le | apply Z.ltb_lt]; unfold from_millis in *; lia.

Lemma injects_passes r : passes injects_the_configured_delay (mk_machine r []).
Proof.
  apply with_store_passes. destruct (memory_put laws "k" (lit "v")) as (a & m & Ep & (g & m' & Eg & _) & _).
  eapply passes_bind; [reflexivity |]. eapply passes_bind; [by apply put_runs |].
  eapply passes_bind; [by apply get_runs |]. eapply passes_bind; [reflexivity |].
  unfold passes. rewrite assert_then by clock.
  by eexists.
Qed.

Lemma passthrough_passes r : passes a_zero_profile_is_a_passthrough (mk_machine r []).
Proof.
  apply with_store_passes. destruct (memory_put laws "k" (lit "v")) as (a & m & Ep & (g & m' & Eg & Hg) & _).
  eapply passes_bind; [reflexivity |]. eapply passes_bind; [by apply put_runs |].
  eapply passes_bind; [by apply get_runs |]. eapply passes_bind; [by rewrite Hg |].
  unfold passes. rewrite assert_eq_then by done. eapply passes_bind; [reflexivity |].
  unfold passes. rewrite assert_then by clock.
  by eexists.
Qed.

Lemma range_reads_passes r : passes range_reads_are_charged_a_round_trip (mk_machine r []).
Proof.
  apply with_store_passes. destruct (memory_put laws "k" (lit "0123456789")) as (a & m & Ep & _ & Hr & _).
  destruct (Hr 2 5) as (g & m' & Eg & Hg); [lia | done |].
  eapply passes_bind; [by apply put_runs |]. eapply passes_bind; [reflexivity |].
  eapply passes_bind; [unfold get_range; rewrite Run_bind; erewrite get_runs; [| | exact Eg]; [by rewrite Hg | done] |].
  unfold passes. rewrite assert_eq_then by done. eapply passes_bind; [reflexivity |].
  apply passes_assert. clock.
Qed.

Lemma listing_passes r : passes listing_pays_before_the_first_item (mk_machine r []).
Proof.
  apply with_store_passes. destruct (memory_put laws "a" (lit "v")) as (a & m & Ep & _ & _ & s & m' & El & Hn & Hw).
  eapply passes_bind; [by apply put_runs |]. eapply passes_bind; [reflexivity |].
  eapply passes_bind; [by apply list_runs |]. eapply passes_bind; [reflexivity |].
  unfold passes. rewrite assert_eq_then by exact Hn. eapply passes_bind; [reflexivity |].
  unfold passes. rewrite assert_then; [by eexists |].
  apply Z.leb_le. cbn -[from_millis]. unfold sum in Hw. lia.
Qed.

Lemma latency_tests_pass r :
  passes injects_the_configured_delay (mk_machine r []) ∧
  passes a_zero_profile_is_a_passthrough (mk_machine r []) ∧
  passes range_reads_are_charged_a_round_trip (mk_machine r []) ∧
  passes listing_pays_before_the_first_item (mk_machine r []).
Proof. split_and!; auto using injects_passes, passthrough_passes, range_reads_passes, listing_passes. Qed.
End store_tests.

(** * Example: a store in memory that reads ranges *)

#[local] Instance range_types : ObjectTypes := {
  Path := string; PutPayload := bytes; PutOptions := unit; PutResult := unit;
  PutMultipartOptions := unit; MultipartUpload := unit; GetOptions := option (Z * Z); GetResult := bytes;
  Range := Z * Z; Bytes := bytes; ObjectMeta := string; ListResult := list string;
  StoreError := string;
}.

Definition shelf : Type := gmap string bytes.
Definition slice (a b : Z) (v : bytes) : bytes := take (Z.to_nat (b - a)) (drop (Z.to_nat a) v).
Definition asks {A} (k : string) (f : bytes → A) : Run shelf (res A) := λ m,
  Some (match (m : gmap string bytes) !! k with Some v => inl (f v) | None => inr "not found"%string end, m).
Definition stores (k : string) (v : bytes) : Run shelf (res unit) := λ m,
  Some (inl tt, <[k := v]> (m : gmap string bytes)).
Definition copies (src dst : string) : Run shelf (res unit) := λ m,
  match (m : gmap string bytes) !! src with
  | Some v => stores dst v m
  | None => Some (inr "not found"%string, m)
  end.

#[local] Instance shelf_store : ObjectStore shelf := {
  put_opts k v _ := stores k v;
  put_multipart_opts k _ := stores k [];
  get_opts k o := asks k (λ v, match o with Some (a, b) => slice a b v | None => v end);
  get_ranges k rs := asks k (λ v, (λ r, slice r.1 r.2 v) <$> rs);
  head k := asks k (λ _, k);
  delete k := λ m, Some (inl tt, base.delete k (m : gmap string bytes));
  list_objects _ := λ m, Some (foldr (λ k s, Item (inl k) s) Ended (map_to_list (m : gmap string bytes)).*1, m);
  list_with_delimiter _ := λ m, Some (inl (map_to_list (m : gmap string bytes)).*1, m);
  copy := copies;
  copy_if_not_exists src dst := λ m,
    match (m : gmap string bytes) !! dst with
    | Some _ => Some (inr "refused"%string, m)
    | None => copies src dst m
    end;
}.

Lemma shelf_laws :
  memory_laws (∅ : gmap string bytes) (λ k, k) (λ v, v) tt None (λ a b, Some (a, b)) Some.
Proof.
  split. intros k v. exists tt, (<[k := v]> ∅). cbn. unfold asks. rewrite lookup_insert_eq.
  split_and!; [done | by eexists _, _ | intros a b _ _; by eexists _, _ |].
  eexists _, _. split; [reflexivity |]. rewrite insert_empty, map_to_list_singleton. by cbn.
Qed.

Example latency_tests_pass_on_a_shelf :
  passes (injects_the_configured_delay no_random id id id (∅ : gmap string bytes) (λ k, k) (λ v, v) tt None 7)
    (mk_machine tt []).
Proof.
  assert (0 ≤ 7 < from_millis 20) as Hw by (unfold from_millis; lia).
  exact (proj1 (latency_tests_pass no_random id id id _ _ _ _ _ _ _ 7 shelf_laws Hw tt)).
Qed.
