(* ===== verification/Reader.v ===== *)
(** [ColumnarReader] ([src/src/read.rs]) over its caches ([src/src/cache.rs]) and the
    latency-injecting store ([src/src/store/latency.rs]): the point read of [Read.v] with
    the two calls of the Parquet library that [Read.v] leaves open.

    The library is third-party. It can reach an object only through the fetcher it is
    given, so what it does is a [program]: ranges to ask for, depending on the bytes
    that came back, and a result in the end; an error of a fetch ends it. *)

From S2P Require Import Latency Store StoreProps.
From S2P Require Import Prelude Memtable Catalog Bloom Index Read Cache WorkingSet.

(** * Programs of the Parquet library *)

Inductive program (A : Type) : Type :=
| Return (a : A)
| Raise (e : Error)
| Ask (ranges : list (Z * Z)) (k : list bytes → program A).
Arguments Return {A} a.
Arguments Raise {A} e.
Arguments Ask {A} ranges k.

Fixpoint interp {S A} (ask : list (Z * Z) → M S (list bytes)) (p : program A) : M S A :=
  match p with
  | Return a => mret a
  | Raise e => m_err e
  | Ask ranges k => bs ← ask ranges; interp ask (k bs)
  end.

(** What it comes to on an object with this content, and what it asks for. *)
Fixpoint answer {A} (obj : Z → Z → bytes) (p : program A) : result A :=
  match p with
  | Return a => Ok a
  | Raise e => Err e
  | Ask ranges k => answer obj (k ((λ r, obj r.1 r.2) <$> ranges))
  end.
Fixpoint asked {A} (obj : Z → Z → bytes) (p : program A) : list (Z * Z) :=
  match p with
  | Return _ | Raise _ => []
  | Ask ranges k => ranges ++ asked obj (k ((λ r, obj r.1 r.2) <$> ranges))
  end.

Definition keys (path : string) (ranges : list (Z * Z)) : list Key :=
  (λ r, mk_key path r.1 r.2) <$> ranges.

(** The footer is fetched range by range, with [MetadataFetch::fetch]. *)
Fixpoint fetch_each {S} (fetch : Z → Z → M S bytes) (ranges : list (Z * Z)) : M S (list bytes) :=
  match ranges with
  | [] => mret []
  | (s, e) :: ranges => bs ← fetch s e; rest ← fetch_each fetch ranges; mret (bs :: rest)
  end.

Section reader.
Context {St : Type} (get_range : string → Z → Z → M St bytes).
Context (path_from : string → string).
(** [ParquetMetaDataReader::load_and_finish]; the statistics [ArrowReaderMetadata] has of
    the [pk] column; the stream over one row group, projected. *)
Context {Meta : Type} (load : Z → program Meta).
Context (arrow_meta : Meta → result (list pk_stats)).
Context (read_rows : Meta → nat → program (list (list prow))).

Definition caches : Type := MetadataCache (Meta := Meta) * (ByteCache * St).

(** [CachedReader]'s implementation of [AsyncFileReader::get_metadata]. *)
Definition metadata (path : string) (size : Z) : M caches Meta :=
  get_metadata get_range (λ fetch size, interp (fetch_each fetch) (load size)) (reader_new path size).

(** The two calls of [get_from_file] and [scan_row_group]. The metadata of the second is
    the one the first left in the metadata cache. *)
Definition load_meta (path : string) (size : Z) : M caches (list pk_stats) :=
  meta ← metadata path size; m_lift (arrow_meta meta).
Definition read_group (path : string) (size : Z) (rg_idx : nat) : M caches (list (list prow)) :=
  meta ← metadata path size;
  m_zoom snd (λ x st, (fst st, x)) (interp (get_byte_ranges get_range path) (read_rows meta rg_idx)).

(** [ColumnarReader::get]. *)
Definition reader_get (bucket : string) (index : FileIndex) (key : bytes) : M caches (option Lookup) :=
  Read.get path_from load_meta read_group bucket index key.

(** The same read with no cache, off the objects themselves; its state is the ranges
    it has asked for. *)
Context (content : string → Z → Z → bytes).

Definition direct {A} (path : string) (p : program A) : M (list Key) A := λ ks,
  (answer (content path) p, ks ++ keys path (asked (content path) p)).
Definition direct_meta (path : string) (size : Z) : M (list Key) (list pk_stats) :=
  meta ← direct path (load size); m_lift (arrow_meta meta).
Definition direct_group (path : string) (size : Z) (rg_idx : nat) : M (list Key) (list (list prow)) :=
  meta ← direct path (load size); direct path (read_rows meta rg_idx).
Definition direct_get (bucket : string) (index : FileIndex) (key : bytes) : M (list Key) (option Lookup) :=
  Read.get path_from direct_meta direct_group bucket index key.

(** The ranges a point read touches. *)
Definition footprint (bucket : string) (index : FileIndex) (key : bytes) : list Key :=
  (direct_get bucket index key []).2.
End reader.

(** * Reads, cached and direct *)

(** Only what was there and the newcomer is in the cache after an insertion. *)
Lemma evict_subset fuel size : ∀ c k x, entries (evict fuel size c) !! k = Some x → entries c !! k = Some x.
Proof.
  induction fuel as [|fuel IH]; intros c k x; simpl; [done |].
  repeat split_match; try done; intros Hk%IH; simpl in Hk; [by apply lookup_delete_Some in Hk as [_ ?] | done..].
Qed.

Lemma cache_insert_subset key bs c k x :
  entries (cache_insert key bs c) !! k = Some x → k = key ∧ x.1 = bs ∨ entries c !! k = Some x.
Proof.
  unfold cache_insert. destruct (_ <? _); [by right |]. cbn zeta. cbn [entries]. intros H.
  destruct (decide (k = key)) as [->|Hne].
  - rewrite lookup_insert_eq in H. injection H as <-. by left.
  - rewrite lookup_insert_ne in H by done. right. apply evict_subset in H.
    unfold forget in H. destruct (entries c !! key) as [[b t]|]; [| done]. simpl in H.
    by apply lookup_delete_Some in H as [_ ?].
Qed.

Lemma cache_insert_keeps_coherent content key c :
  coherent content c → coherent content (cache_insert key (content_of content key) c).
Proof.
  intros Hco k bs t Hk. apply cache_insert_subset in Hk as [[-> Hb]|Hk]; [by simpl in Hb | by eapply Hco].
Qed.

(** What a read over caches has to do with the read off the objects, whose result is [r]
    and which asks for [ks]. It keeps the caches right and returns the same, or an error
    of the store. In a cache with room for [U] it leaves all of [ks]. Where all of [ks]
    is there it asks the store for nothing. *)
Section relation.
Context {X St : Type} (cache : X → ByteCache) (store : X → St).
Context (ok : X → Prop) (room : gset Key → X → Prop) (serves : Prop).
Context (room_ok : ∀ U st, room U st → ok st).

Record reads {A} (m : M X A) (r : result A) (ks : list Key) : Prop := {
  rd_follows st x st' : ok st → m st = (x, st') →
    ok st' ∧ (∀ a, x = Ok a → r = Ok a) ∧ (serves → x = r);
  rd_warm U st a st' : room U st → list_to_set ks ⊆ U → tick (cache st) + zlen ks < u64_max →
    m st = (Ok a, st') →
    room U st' ∧ tick (cache st') ≤ tick (cache st) + zlen ks ∧
    dom (entries (cache st')) = dom (entries (cache st)) ∪ list_to_set ks ∧
    evictions (stats (cache st')) = evictions (stats (cache st));
  rd_hot U st : room U st → list_to_set ks ⊆ dom (entries (cache st)) →
    tick (cache st) + zlen ks < u64_max →
    ∃ st' j, m st = (r, st') ∧ room U st' ∧ store st' = store st ∧
      dom (entries (cache st')) = dom (entries (cache st)) ∧
      tick (cache st') ≤ tick (cache st) + zlen ks ∧ (j ≤ length ks)%nat ∧
      stats (cache st') = Nat.iter j count_hit (stats (cache st));
}.

Lemma reads_still {A} (m : M X A) (r : result A) : (∀ st, m st = (r, st)) → reads m r [].
Proof.
  intros Hm. split.
  - intros st x st' Hok. rewrite Hm. intros [= <- <-]. by split_and!.
  - intros U st a st' Hr _ _. rewrite Hm. intros [= _ <-]. rewrite zlen_nil, list_to_set_nil, union_empty_r_L.
    split_and!; [done | lia | done | done].
  - intros U st Hr _ _. exists st, 0%nat. rewrite zlen_nil. split_and!; [done.. | lia | lia | done].
Qed.
Lemma cached_ret {A} (a : A) : reads (mret a) (Ok a) [].
Proof. by apply reads_still. Qed.

Lemma cached_bind {A B} (m : M X A) (f : A → M X B) r ks (r2 : A → result B) ks2 :
  reads m r ks → (∀ a, r = Ok a → reads (f a) (r2 a) (ks2 a)) →
  reads (m ≫= f) (r ≫= r2) (ks ++ match r with Ok a => ks2 a | Err _ => [] end).
Proof.
  intros Hm Hf. split.
  - intros st x st' Hok [(a & st1 & E1 & E2)|(e & E1 & ->)]%bind_inv.
    + destruct (rd_follows _ _ _ Hm _ _ _ Hok E1) as (Hok1 & Hr & _).
      rewrite (Hr a eq_refl) in *. simpl.
      by apply (rd_follows _ _ _ (Hf a eq_refl) _ _ _ Hok1 E2).
    + destruct (rd_follows _ _ _ Hm _ _ _ Hok E1) as (Hok1 & _ & Hs). split; [done |].
      split; [done |]. intros S. by rewrite <- (Hs S).
  - intros U st b st' Hr HU Ht [(a & st1 & E1 & E2)|(e & _ & ?)]%bind_inv; [| done].
    destruct (rd_follows _ _ _ Hm _ _ _ (room_ok _ _ Hr) E1) as (_ & Ha & _).
    rewrite (Ha a eq_refl) in *. clear Ha.
    rewrite list_to_set_app_L, zlen_app in *. pose proof (zlen_nonneg (ks2 a)).
    destruct (rd_warm _ _ _ Hm _ _ _ _ Hr ltac:(set_solver) ltac:(lia) E1) as (Hr1 & Ht1 & Hd1 & Hv1).
    destruct (rd_warm _ _ _ (Hf a eq_refl) _ _ _ _ Hr1 ltac:(set_solver) ltac:(lia) E2) as (Hr2 & Ht2 & Hd2 & Hv2).
    split; [done |]. split; [lia |]. split; [by rewrite Hd2, Hd1, assoc_L by apply _ | congruence].
  - intros U st Hr HU Ht. rewrite list_to_set_app_L, zlen_app in *.
    pose proof (zlen_nonneg (match r with Ok a => ks2 a | Err _ => [] end)).
    destruct (rd_hot _ _ _ Hm _ _ Hr ltac:(set_solver) ltac:(lia)) as (st1 & j1 & E1 & Hr1 & Hs1 & Hd1 & Ht1 & Hj1 & Hv1).
    destruct r as [a|e]; simpl in *.
    + destruct (rd_hot _ _ _ (Hf a eq_refl) _ _ Hr1 ltac:(rewrite Hd1; set_solver) ltac:(lia))
        as (st2 & j2 & E2 & Hr2 & Hs2 & Hd2 & Ht2 & Hj2 & Hv2).
      exists st2, (j2 + j1)%nat. rewrite (bind_ok _ _ _ _ _ E1), length_app.
      split_and!; [done | done | congruence | congruence | lia | lia |].
      by rewrite Hv2, Hv1, Nat.iter_add.
    + exists st1, j1. rewrite (bind_err _ _ _ _ _ E1), app_nil_r. split_and!; try done. lia.
Qed.

Lemma reads_fmap {A B} (m : M X A) (f : A → B) r ks :
  reads m r ks → reads (a ← m; mret (f a)) (a ← r; mret (f a)) ks.
Proof.
  intros Hm. pose proof (cached_bind m (λ a, mret (f a)) r ks (λ a, Ok (f a)) (λ _, []) Hm) as H.
  destruct r; rewrite app_nil_r in H; apply H; intros; apply cached_ret.
Qed.

Lemma reads_ext {A} (m m' : M X A) r ks : (∀ st, m st = m' st) → reads m r ks → reads m' r ks.
Proof.
  intros E [H1 H2 H3]. split.
  - intros st x st'. rewrite <- E. apply H1.
  - intros U st a st'. rewrite <- E. apply H2.
  - intros U st. rewrite <- E. apply H3.
Qed.

(** With the trace of the direct read. *)
Definition mirrors {A} (m : M X A) (d : M (list Key) A) : Prop :=
  ∃ r ks, (∀ l, d l = (r, l ++ ks)) ∧ reads m r ks.

Lemma mirrors_ret {A} (a : A) : mirrors (mret a) (mret a).
Proof. exists (Ok a), []. split; [intros l; by rewrite app_nil_r | apply cached_ret]. Qed.
Lemma mirrors_bind {A B} (m : M X A) (f : A → M X B) d (g : A → M (list Key) B) :
  mirrors m d → (∀ a, (d []).1 = Ok a → mirrors (f a) (g a)) → mirrors (m ≫= f) (d ≫= g).
Proof.
  intros (r & ks & Hd & Hm) Hf. rewrite Hd in Hf. simpl in Hf. destruct r as [a|e].
  - destruct (Hf a eq_refl) as (r2 & ks2 & Hd2 & Hm2).
    exists r2, (ks ++ ks2). split.
    + intros l. rewrite (bind_ok _ _ _ _ _ (Hd l)), Hd2. by rewrite assoc_L by apply _.
    + by apply (cached_bind m f (Ok a) ks (λ _, r2) (λ _, ks2) Hm); intros ? [= <-].
  - exists (Err e), ks. split; [intros l; by rewrite (bind_err _ _ _ _ _ (Hd l)) |].
    pose proof (cached_bind m f (Err e) ks (λ _, Err e) (λ _, []) Hm) as H. rewrite app_nil_r in H. by apply H.
Qed.
End relation.

(** * The reader *)

Section cached.
Context {St : Type} (get_range : string → Z → Z → M St bytes).
Context (content : string → Z → Z → bytes).
Context (path_from : string → string).
Context {Meta : Type} (load : Z → program Meta).
Context (arrow_meta : Meta → result (list pk_stats)).
Context (read_rows : Meta → nat → program (list (list prow))).
(** The size of the object of a path, as the catalog has it. *)
Context (size_of : string → Z).
(** What the store returns, when it returns, is the object's bytes. *)
Context (store_serves : ∀ p a b st x st', get_range p a b st = (Ok x, st') → x = content p a b).

(** It always does. *)
Definition serves : Prop := ∀ p a b st, (get_range p a b st).1 = Ok (content p a b).

Abbreviation obj_answer p := (answer (content p)).
Abbreviation obj_asked p := (asked (content p)).
Abbreviation set_of ks := (list_to_set (C := gset Key) ks).

(** ** Ranges *)

Definition low_ok (x : ByteCache * St) : Prop := coherent content x.1.
Record low_room (U : gset Key) (x : ByteCache * St) : Prop := {
  lr_inv : cache_inv x.1;
  lr_ok : coherent content x.1;
  lr_dom : dom (entries x.1) ⊆ U;
  lr_room : weight content U ≤ max_bytes x.1;
}.
Abbreviation low_reads := (reads fst snd low_ok low_room serves).

Lemma reads_fetch_range p a b :
  low_reads (fetch_range get_range p a b) (Ok (content p a b)) [mk_key p a b].
Proof.
  set (k := mk_key p a b). split.
  - intros [c s] x [c' s'] Hok Hrun%fetch_range_cases. fold k in Hrun. unfold low_ok in *. simpl in *.
    destruct Hrun as [(bs & t & E & -> & -> & ->)|[E Hrun]].
    + pose proof (Hok _ _ _ E) as ->. split; [by apply cache_get_coherent | done].
    + pose proof (store_serves p a b s) as Hs.
      assert (serves → (get_range p a b s).1 = Ok (content p a b)) as Hall by (intros S; apply S).
      destruct (get_range p a b s) as [[bs|e] s1]; destruct Hrun as (-> & -> & ->).
      * pose proof (Hs bs s1 eq_refl) as ->. split; [| done].
        by apply (cache_insert_keeps_coherent content k).
      * split; [done |]. split; [done |]. intros S. by specialize (Hall S).
  - intros U [c s] x [c' s'] [I Hok Hd Hw] HU Ht Hrun%fetch_range_cases. simpl in *. fold k in Hrun.
    rewrite zlen_cons, zlen_nil in *. pose proof (ci_tick _ I) as Htk.
    destruct Hrun as [(bs & t & E & _ & -> & ->)|[E Hrun]].
    + destruct (cache_get_tick k c ltac:(lia)) as [Ht' Hm].
      assert (dom (entries (cache_get k c).2) = dom (entries c) ∪ {[k]}) as Hdom.
      { unfold cache_get. rewrite E. simpl. rewrite dom_insert_L. set_solver. }
      split; [| split; [lia | split; [rewrite Hdom; set_solver | unfold cache_get; by rewrite E]]].
      split; simpl; [apply cache_get_inv; [done | lia] | by apply cache_get_coherent | set_solver | congruence].
    + pose proof (store_serves p a b s) as Hs.
      destruct (get_range p a b s) as [[bs|e] s1]; destruct Hrun as (Ho & -> & ->); [| done].
      pose proof (Hs bs s1 eq_refl) as ->. set (c1 := set_stats _ c).
      assert (cache_inv c1) as I1 by (by apply set_stats_inv).
      change (content p a b) with (content_of content k).
      destruct (cache_insert_coherent content k c1 I1 Hok) as (I2 & Hco2 & Htk2 & Hm2); [by simpl; lia |].
      assert (resident c1 + zlen (content_of content k) ≤ max_bytes c1) as Hroom.
      { pose proof (entries_weight content (entries c) Hok) as Ew.
        pose proof (ci_resident _ I) as Er.
        assert (k ∉ dom (entries c)) as Hk by (by apply not_elem_of_dom).
        pose proof (weight_disj_union content (dom (entries c)) {[k]} ltac:(set_solver)) as Eu.
        rewrite weight_singleton in Eu.
        pose proof (weight_mono content (dom (entries c) ∪ {[k]}) U ltac:(set_solver)).
        simpl. lia. }
      rewrite (cache_insert_room k _ c1 I1 E Hroom) in * by (simpl; lia). cbn [tick max_bytes] in *.
      split; [| split; [simpl; lia | split; [simpl; rewrite dom_insert_L; set_solver | done]]].
      split; simpl; [done | done | rewrite dom_insert_L; set_solver | done].
  - intros U [c s] [I Hok Hd Hw] HU Ht. simpl in *. rewrite zlen_cons, zlen_nil in *. pose proof (ci_tick _ I) as Htk.
    assert (is_Some (entries c !! k)) as [[bs t] E] by (apply elem_of_dom; set_solver).
    destruct (cache_get_tick k c ltac:(lia)) as [Ht' Hm].
    assert (dom (entries (cache_get k c).2) = dom (entries c)) as Hdom.
    { unfold cache_get. rewrite E. simpl. rewrite dom_insert_L. apply elem_of_dom_2 in E. set_solver. }
    exists ((cache_get k c).2, s), 1%nat. destruct (fetch_range get_range p a b (c, s)) as [r [c' s']] eqn:F.
    apply fetch_range_cases in F as [(y & u & Ey & -> & -> & ->)|[Ey _]]; fold k in Ey; [| congruence].
    pose proof (Hok _ _ _ Ey) as ->. split_and!; try done; simpl; try lia.
    + split; simpl; [apply cache_get_inv; [done | lia] | by apply cache_get_coherent | by rewrite Hdom | congruence].
    + unfold cache_get. by rewrite Ey.
Qed.

Lemma low_room_ok U x : low_room U x → low_ok x.
Proof. by intros []. Qed.

Lemma reads_each p rs :
  low_reads (fetch_each (fetch_range get_range p) rs) (Ok ((λ r, content p r.1 r.2) <$> rs)) (keys p rs).
Proof.
  induction rs as [|[a b] rs IH]; [apply cached_ret |].
  apply (cached_bind _ _ _ _ _ low_room_ok _ _ _ _ (λ _, Ok (_ :: _)) (λ _, keys p rs)
    (reads_fetch_range p a b)).
  intros bs [= <-].
  pose proof (reads_fmap _ _ _ _ _ low_room_ok _ (λ rest, content p a b :: rest) _ _ IH) as H. exact H.
Qed.

Lemma get_byte_ranges_each p rs st :
  get_byte_ranges get_range p rs st = fetch_each (fetch_range get_range p) rs st.
Proof.
  revert st. induction rs as [|[a b] rs IH]; intros st; [done |]. simpl.
  unfold mbind, m_bind. destruct (fetch_range get_range p a b st) as [[bs|e] st1]; [| done]. by rewrite IH.
Qed.

Lemma reads_interp {A} (ask : list (Z * Z) → M (ByteCache * St) (list bytes)) p (prog : program A) :
  (∀ rs, low_reads (ask rs) (Ok ((λ r, content p r.1 r.2) <$> rs)) (keys p rs)) →
  low_reads (interp ask prog) (obj_answer p prog) (keys p (obj_asked p prog)).
Proof.
  intros Hask. induction prog as [a|e|rs k IH]; [apply cached_ret | by apply reads_still |].
  cbn [interp answer asked]. unfold keys. rewrite fmap_app.
  apply (cached_bind _ _ _ _ _ low_room_ok _ _ _ _ (λ bs, obj_answer p (k bs))
    (λ bs, keys p (obj_asked p (k bs))) (Hask rs)). intros bs _. apply IH.
Qed.

(** ** Footers *)

Abbreviation caches := (caches (St := St) (Meta := Meta)).
Abbreviation metadata := (metadata get_range load).
Definition bytes_of_caches (st : caches) : ByteCache := st.2.1.
Definition store_of_caches (st : caches) : St := st.2.2.

(** Every entry of the two caches is what a direct read finds. *)
Definition caches_ok (st : caches) : Prop :=
  coherent content st.2.1 ∧ ∀ p m, st.1 !! p = Some m → obj_answer p (load (size_of p)) = Ok m.
(** The ranges of a footer that is remembered are in the byte cache too. *)
Record roomy (U : gset Key) (st : caches) : Prop := {
  ro_low : low_room U st.2;
  ro_ok : caches_ok st;
  ro_footers p m : st.1 !! p = Some m →
    set_of (keys p (obj_asked p (load (size_of p)))) ⊆ dom (entries st.2.1);
}.
Abbreviation cached_reads := (reads bytes_of_caches store_of_caches caches_ok roomy serves).

Lemma roomy_ok U st : roomy U st → caches_ok st.
Proof. by intros []. Qed.

Lemma cached_lift {A} (m : M (ByteCache * St) A) r ks :
  low_reads m r ks → cached_reads (m_zoom snd (λ x st, (fst st, x)) m) r ks.
Proof.
  intros Hm. split.
  - intros [ms x] y st' [Hco Hms] (x' & E & ->)%zoom_inv.
    destruct (rd_follows _ _ _ _ _ _ _ _ Hm _ _ _ Hco E) as (Hok & H). split; [by split | exact H].
  - intros U [ms x] a st' [Hl [Hco Hms] Hf] HU Ht (x' & E & ->)%zoom_inv.
    destruct (rd_warm _ _ _ _ _ _ _ _ Hm _ _ _ _ Hl HU Ht E) as (Hl' & Ht' & Hd & Hv).
    split; [| done]. split; [done | split; [by apply Hl' | done] |].
    intros p m' Hp. simpl. rewrite Hd. specialize (Hf p m' Hp). set_solver.
  - intros U [ms x] [Hl [Hco Hms] Hf] HU Ht.
    destruct (rd_hot _ _ _ _ _ _ _ _ Hm _ _ Hl HU Ht) as (x' & j & E & Hl' & Hs & Hd & H).
    exists (ms, x'), j. split; [unfold m_zoom; simpl in *; by rewrite E |].
    split; [| done]. split; [done | split; [by apply Hl' | done] |].
    intros p m' Hp. simpl. rewrite Hd. by apply (Hf p m' Hp).
Qed.

Lemma metadata_run p size ms x :
  metadata p size (ms, x) =
    match ms !! p with
    | Some m => (Ok m, (ms, x))
    | None =>
      match interp (fetch_each (fetch_range get_range p)) (load size) x with
      | (Ok m, x') => (Ok m, (<[p := m]> ms, x'))
      | (Err e, x') => (Err e, (ms, x'))
      end
    end.
Proof.
  unfold Reader.metadata, get_metadata, mbind, m_bind, m_get, m_zoom, m_modify, metadata_get, metadata_insert, fetch.
  simpl. destruct (ms !! p); [done |].
  change (λ start end_, fetch_range get_range p start end_) with (fetch_range get_range p). cbn [fst snd].
  by destruct (interp _ _ x) as [[m|e] x'].
Qed.

Lemma footer_lookup (ms : gmap string Meta) p m q m' :
  <[p:=m]> ms !! q = Some m' → q = p ∨ ms !! q = Some m'.
Proof. intros [[-> _]|[_ ?]]%lookup_insert_Some; auto. Qed.

Lemma reads_metadata p :
  cached_reads (metadata p (size_of p)) (obj_answer p (load (size_of p)))
    (keys p (obj_asked p (load (size_of p)))).
Proof.
  pose proof (reads_interp (fetch_each (fetch_range get_range p)) p (load (size_of p)) (reads_each p)) as Hl.
  set (ks := keys p _) in *. set (r := obj_answer p _) in *.
  assert (∀ (ms : gmap string Meta) m, (∀ q m', ms !! q = Some m' → obj_answer q (load (size_of q)) = Ok m') → r = Ok m →
    ∀ q m', <[p:=m]> ms !! q = Some m' → obj_answer q (load (size_of q)) = Ok m') as Hins.
  { intros ms m Hms Hr q m'. destruct (decide (q = p)) as [->|Hne].
    - rewrite lookup_insert_eq. by intros [= <-].
    - rewrite lookup_insert_ne by done. apply Hms. }
  split.
  - intros [ms x] y st' [Hco Hms]. rewrite metadata_run. destruct (ms !! p) as [m|] eqn:Em.
    + intros [= <- <-]. split; [done |]. rewrite (Hms _ _ Em : r = _). by split; [intros ? [= ->] |].
    + destruct (interp _ _ x) as [z x'] eqn:E.
      destruct (rd_follows _ _ _ _ _ _ _ _ Hl _ _ _ Hco E) as (Hok & Hr & Hs).
      destruct z as [m|e]; intros [= <- <-]; (split; [split; [done |] | done]); [| done].
      by apply Hins, Hr.
  - intros U [ms x] a st' [Hlr [Hco Hms] Hf] HU Ht. rewrite metadata_run. destruct (ms !! p) as [m|] eqn:Em.
    + intros [= _ <-]. split; [done |]. pose proof (zlen_nonneg ks). split; [lia |]. split; [| done].
      specialize (Hf p m Em). fold ks in Hf. simpl in *. set_solver.
    + destruct (interp _ _ x) as [z x'] eqn:E.
      destruct (rd_follows _ _ _ _ _ _ _ _ Hl _ _ _ Hco E) as (Hok & Hr & _).
      destruct z as [m|e]; intros [= _ <-].
      destruct (rd_warm _ _ _ _ _ _ _ _ Hl _ _ _ _ Hlr HU Ht E) as (Hl' & Ht' & Hd & Hv).
      split; [| done]. split; [done | split; [done | by apply Hins, Hr] |].
      intros q m'. simpl. rewrite Hd. intros [->|Hq]%footer_lookup; [fold ks; set_solver |].
      specialize (Hf q m' Hq). simpl in Hf. set_solver.
  - intros U [ms x] [Hlr [Hco Hms] Hf] HU Ht. rewrite metadata_run. destruct (ms !! p) as [m|] eqn:Em.
    + exists (ms, x), 0%nat. rewrite (Hms _ _ Em : r = _). pose proof (zlen_nonneg ks).
      split_and!; [done.. | lia | lia | done].
    + destruct (rd_hot _ _ _ _ _ _ _ _ Hl _ _ Hlr HU Ht) as (x' & j & E & Hl' & Hs & Hd & H). cbn [snd] in E. rewrite E.
      destruct r as [m|e] eqn:Er.
      * exists (<[p:=m]> ms, x'), j. split; [done |]. split; [| done].
        split; [done | split; [by apply Hl' | by apply Hins] |].
        intros q m'. simpl. rewrite Hd. intros [->|Hq]%footer_lookup; [exact HU | by apply (Hf q m')].
      * exists (ms, x'), j. split; [done |]. split; [| done]. split; [done | split; [by apply Hl' | done] |].
        intros q m' Hq. simpl. rewrite Hd. by apply (Hf q m' Hq).
Qed.

(** ** Point reads *)

Abbreviation load_meta := (load_meta get_range load arrow_meta).
Abbreviation read_group := (read_group get_range load read_rows).
Abbreviation direct := (direct content).
Abbreviation direct_meta := (direct_meta load arrow_meta content).
Abbreviation direct_group := (direct_group load read_rows content).
Abbreviation reader_get := (reader_get get_range path_from load arrow_meta read_rows).
Abbreviation direct_get := (direct_get path_from load arrow_meta read_rows content).
Abbreviation footprint := (footprint path_from load arrow_meta read_rows content).
Abbreviation cached_mirrors := (mirrors bytes_of_caches store_of_caches caches_ok roomy serves).

Lemma mirrors_metadata p : cached_mirrors (metadata p (size_of p)) (direct p (load (size_of p))).
Proof. exists (obj_answer p (load (size_of p))), (keys p (obj_asked p (load (size_of p)))). split; [done | apply reads_metadata]. Qed.

Lemma mirrors_lift {A} (r : result A) : cached_mirrors (m_lift r) (m_lift r).
Proof. exists r, []. split; [intros l; by rewrite app_nil_r | by apply reads_still]. Qed.

Lemma mirrors_load_meta p : cached_mirrors (load_meta p (size_of p)) (direct_meta p (size_of p)).
Proof. apply (mirrors_bind _ _ _ _ _ roomy_ok); [apply mirrors_metadata |]. intros m _. apply mirrors_lift. Qed.

Lemma mirrors_read_group p i : cached_mirrors (read_group p (size_of p) i) (direct_group p (size_of p) i).
Proof.
  apply (mirrors_bind _ _ _ _ _ roomy_ok); [apply mirrors_metadata |]. intros m _.
  exists (obj_answer p (read_rows m i)), (keys p (obj_asked p (read_rows m i))). split; [done |].
  apply cached_lift, reads_interp. intros rs.
  apply (reads_ext _ _ _ _ _ (fetch_each (fetch_range get_range p) rs)); [| apply reads_each].
  intros st. by rewrite get_byte_ranges_each.
Qed.

Lemma mirrors_row_groups p key groups i :
  cached_mirrors (row_groups read_group p (size_of p) key groups i)
    (row_groups direct_group p (size_of p) key groups i).
Proof.
  revert i. induction groups as [|g groups IH]; intros i; simpl; [apply mirrors_ret |].
  destruct (negb _); [apply IH |].
  apply (mirrors_bind _ _ _ _ _ roomy_ok); [apply mirrors_read_group |]. intros b _. apply mirrors_ret.
Qed.

(** The index has the sizes of the objects. *)
Definition sized (bucket : string) (index : FileIndex) : Prop :=
  Forall (λ e, file_size e = size_of (object_path path_from e bucket)) index.

Lemma mirrors_get_loop bucket entries key :
  sized bucket entries →
  cached_mirrors (get_loop path_from load_meta read_group bucket entries key)
    (get_loop path_from direct_meta direct_group bucket entries key).
Proof.
  induction 1 as [|e entries He Hes IH]; simpl; [apply mirrors_ret |].
  destruct (bloom_may_contain e key) as [[]|]; [| done | apply mirrors_ret].
  apply (mirrors_bind _ _ _ _ _ roomy_ok).
  - unfold get_from_file. rewrite He.
    apply (mirrors_bind _ _ _ _ _ roomy_ok); [apply mirrors_load_meta |]. intros m _. apply mirrors_row_groups.
  - intros l _. destruct l; [apply mirrors_ret.. | done].
Qed.

Lemma sized_candidates bucket index key : sized bucket index → sized bucket (candidates index key).
Proof.
  unfold sized. rewrite !Forall_forall. intros H e He. apply H. unfold candidates in He.
  by apply list_elem_of_filter in He as [_ ?].
Qed.

Lemma mirrors_get bucket index key :
  sized bucket index → cached_mirrors (reader_get bucket index key) (direct_get bucket index key).
Proof. intros H. by apply mirrors_get_loop, sized_candidates. Qed.

Lemma direct_get_trace bucket index key :
  sized bucket index →
  cached_reads (reader_get bucket index key) (direct_get bucket index key []).1 (footprint bucket index key).
Proof. intros H. destruct (mirrors_get bucket index key H) as (r & ks & Hd & Hr). unfold Reader.footprint. by rewrite Hd. Qed.

(** C18: the caches change no answer. A point read through the footer cache, the byte cache
    and the store returns what the same read off the objects themselves returns, or an
    error if the store fails; with a store that never fails the two are the same, errors
    of the library and panics included. The caches stay right for the next read. *)
Theorem cached_read_is_direct bucket index key st x st' :
  sized bucket index → caches_ok st → reader_get bucket index key st = (x, st') →
  caches_ok st' ∧
  (∀ l, x = Ok l → (direct_get bucket index key []).1 = Ok l) ∧
  (serves → x = (direct_get bucket index key []).1).
Proof.
  intros Hs Hok Hrun.
  exact (rd_follows _ _ _ _ _ _ _ _ (direct_get_trace bucket index key Hs) _ _ _ Hok Hrun).
Qed.

(** ** Loops of reads *)

(** [for key in keys { engine.get(key).await.unwrap(); }], of keys that are in no memtable. *)
Definition read_all (bucket : string) (index : FileIndex) (qs : list bytes) : M caches unit :=
  m_iter (λ key, _ ← reader_get bucket index key; mret tt) qs.
Definition footprints (bucket : string) (index : FileIndex) (qs : list bytes) : list Key :=
  q ← qs; footprint bucket index q.

Lemma footprints_cons bucket index q qs :
  footprints bucket index (q :: qs) = footprint bucket index q ++ footprints bucket index qs.
Proof. done. Qed.
Lemma footprint_in bucket index q qs :
  q ∈ qs → set_of (footprint bucket index q) ⊆ set_of (footprints bucket index qs).
Proof.
  intros Hq k. rewrite !elem_of_list_to_set. intros Hk. unfold footprints. apply list_elem_of_bind. by exists q.
Qed.

Lemma read_all_warm bucket index U qs : ∀ st st',
  sized bucket index → roomy U st → set_of (footprints bucket index qs) ⊆ U →
  tick st.2.1 + zlen (footprints bucket index qs) < u64_max →
  read_all bucket index qs st = (Ok tt, st') →
  roomy U st' ∧ tick st'.2.1 ≤ tick st.2.1 + zlen (footprints bucket index qs) ∧
  dom (entries st'.2.1) = dom (entries st.2.1) ∪ set_of (footprints bucket index qs) ∧
  evictions (stats st'.2.1) = evictions (stats st.2.1) ∧
  Forall (λ q, is_ok (direct_get bucket index q []).1 = true) qs.
Proof.
  induction qs as [|q qs IH]; intros st st' Hs Hr HU Ht Hrun.
  { injection Hrun as <-. change (footprints bucket index []) with (@nil Key). rewrite list_to_set_nil, union_empty_r_L, zlen_nil. split_and!; try done. lia. }
  rewrite footprints_cons, list_to_set_app_L, zlen_app in *. pose proof (zlen_nonneg (footprints bucket index qs)).
  apply bind_inv in Hrun as [([] & st1 & E1 & E2)|(e & _ & ?)]; [| done].
  apply bind_inv in E1 as [(l & st2 & E1 & [= <-])|(e & _ & ?)]; [| done].
  pose proof (direct_get_trace bucket index q Hs) as Hq.
  destruct (rd_follows _ _ _ _ _ _ _ _ Hq _ _ _ (roomy_ok _ _ Hr) E1) as (_ & Hl & _).
  destruct (rd_warm _ _ _ _ _ _ _ _ Hq _ _ _ _ Hr ltac:(set_solver)
    ltac:(unfold bytes_of_caches; lia) E1) as (Hr1 & Ht1 & Hd1 & Hv1). unfold bytes_of_caches in *.
  destruct (IH _ _ Hs Hr1 ltac:(set_solver) ltac:(lia) E2) as (Hr2 & Ht2 & Hd2 & Hv2 & Hall).
  split_and!; [done | lia | by rewrite Hd2, Hd1, assoc_L by apply _ | congruence |].
  constructor; [by rewrite (Hl l eq_refl) | done].
Qed.

Lemma read_all_hot bucket index U qs : ∀ st,
  sized bucket index → roomy U st →
  Forall (λ q, is_ok (direct_get bucket index q []).1 = true ∧
    set_of (footprint bucket index q) ⊆ dom (entries st.2.1)) qs →
  tick st.2.1 + zlen (footprints bucket index qs) < u64_max →
  ∃ st' j, read_all bucket index qs st = (Ok tt, st') ∧ roomy U st' ∧ st'.2.2 = st.2.2 ∧
    dom (entries st'.2.1) = dom (entries st.2.1) ∧ (j ≤ length (footprints bucket index qs))%nat ∧
    stats st'.2.1 = Nat.iter j count_hit (stats st.2.1).
Proof.
  induction qs as [|q qs IH]; intros st Hs Hr Hall Ht.
  { by exists st, 0%nat. }
  rewrite footprints_cons, zlen_app in *. pose proof (zlen_nonneg (footprints bucket index qs)).
  apply Forall_cons in Hall as [[Hok Hq] Hall].
  destruct (rd_hot _ _ _ _ _ _ _ _ (direct_get_trace bucket index q Hs) _ _ Hr Hq
    ltac:(unfold bytes_of_caches; lia)) as (st1 & j1 & E1 & Hr1 & Hs1 & Hd1 & Ht1 & Hj1 & Hv1).
  unfold bytes_of_caches, store_of_caches in *.
  destruct (IH st1 Hs Hr1) as (st2 & j2 & E2 & Hr2 & Hs2 & Hd2 & Hj2 & Hv2); [by rewrite Hd1 | lia |].
  destruct (direct_get bucket index q []).1 as [l|]; [| done].
  exists st2, (j2 + j1)%nat. split_and!; [| done | congruence | congruence | rewrite length_app; lia |].
  - unfold read_all. cbn [m_iter].
    assert ((_ ← reader_get bucket index q; mret tt) st = (Ok tt, st1)) as E by (by rewrite (bind_ok _ _ _ _ _ E1)).
    by rewrite (bind_ok _ _ _ _ _ E).
  - by rewrite Hv2, Hv1, Nat.iter_add.
Qed.

Lemma iter_hit_others j st :
  misses (Nat.iter j count_hit st) = misses st ∧ evictions (Nat.iter j count_hit st) = evictions st.
Proof. by induction j. Qed.

Lemma roomy_new n U s :
  0 ≤ n < 2 ^ 63 → weight content U ≤ n → roomy U ((∅ : gmap string Meta), (cache_new n, s)).
Proof.
  intros Hn Hw. assert (coherent content (cache_new n)) as Hco by (intros k bs t E; done).
  assert (∀ p m, (∅ : gmap string Meta) !! p = Some m → False) as Hno by (intros p m; by rewrite lookup_empty).
  split; [| split; [done |] |]; [| by intros p m ?%Hno..].
  split; [by apply cache_new_inv | done | simpl; rewrite dom_empty_L; set_solver | done].
Qed.

Lemma roomy_reset U ms c s : roomy U (ms, (c, s)) → roomy U (ms, (Cache.reset_stats c, s)).
Proof. intros [[I Hco Hd Hw] Hok Hf]. split; [split; [by apply set_stats_inv | done..] | done | done]. Qed.

Lemma read_warm_then_hot bucket index n hot qs s ms1 c1 s1 :
  sized bucket index → 0 ≤ n < 2 ^ 63 →
  weight content (set_of (footprints bucket index hot)) ≤ n →
  zlen (footprints bucket index hot) + zlen (footprints bucket index qs) < u64_max →
  Forall (λ q, q ∈ hot) qs →
  read_all bucket index hot (metadata_new, (cache_new n, s)) = (Ok tt, (ms1, (c1, s1))) →
  resident c1 = weight content (set_of (footprints bucket index hot)) ∧ evictions (stats c1) = 0 ∧
  ∃ ms2 c2 j, read_all bucket index qs (ms1, (Cache.reset_stats c1, s1)) = (Ok tt, (ms2, (c2, s1))) ∧
    stats c2 = Nat.iter j count_hit (mk_stats 0 0 0 0) ∧ resident c2 = resident c1.
Proof.
  intros Hs Hn Hw Ht Hqs Hrun. pose proof (zlen_nonneg (footprints bucket index qs)).
  set (U := set_of (footprints bucket index hot)) in *.
  destruct (read_all_warm bucket index U hot _ _ Hs (roomy_new n U s Hn Hw) ltac:(done)
    ltac:(simpl; lia) Hrun) as (Hr1 & Ht1 & Hd1 & Hv1 & Hall). fold U in Hd1.
  assert (∀ st, roomy U st → dom (entries st.2.1) = U → resident st.2.1 = weight content U) as Hres.
  { intros st [[I Hco _ _] _ _] E. by rewrite (ci_resident _ I), (entries_weight content _ Hco), E. }
  simpl in Hd1. rewrite dom_empty_L, union_empty_l_L in Hd1. simpl in Ht1, Hv1.
  destruct (read_all_hot bucket index U qs (ms1, (Cache.reset_stats c1, s1)) Hs) as
    ([ms2 [c2 s2]] & j & E2 & Hr2 & Hs2 & Hd2 & Hj & Hv2).
  { by apply roomy_reset. }
  { rewrite !Forall_forall in *. intros q Hq. split; [by apply Hall, Hqs |].
    simpl. rewrite Hd1. by apply footprint_in, Hqs. }
  { simpl. lia. }
  simpl in Hs2, Hd2, Hv2. subst s2.
  rewrite (Hres _ Hr1 Hd1 : resident c1 = _). split; [done |]. split; [done |].
  exists ms2, c2, j. split; [done |]. split; [exact Hv2 |]. apply (Hres _ Hr2). simpl. congruence.
Qed.

(** C19: the working set is what the benchmark takes it for. Read every key of a set through
    caches that start empty, in a byte cache with room for what those reads touch: the
    resident bytes are then exactly the bytes of the ranges the reads touch, each range
    once, footers included, and nothing was evicted. From then on any reads of keys of the
    set succeed without the store, with no miss, whatever the store would say. *)
Theorem warm_reads_are_free bucket index n hot qs s ms1 c1 s1 :
  sized bucket index → 0 ≤ n < 2 ^ 63 →
  weight content (set_of (footprints bucket index hot)) ≤ n →
  zlen (footprints bucket index hot) + zlen (footprints bucket index qs) < u64_max →
  Forall (λ q, q ∈ hot) qs →
  read_all bucket index hot (metadata_new, (cache_new n, s)) = (Ok tt, (ms1, (c1, s1))) →
  sn_bytes_resident (cache_stats c1) = weight content (set_of (footprints bucket index hot)) ∧
  sn_evictions (cache_stats c1) = 0 ∧
  ∃ ms2 c2, read_all bucket index qs (ms1, (Cache.reset_stats c1, s1)) = (Ok tt, (ms2, (c2, s1))) ∧
    sn_misses (cache_stats c2) = 0 ∧ sn_evictions (cache_stats c2) = 0 ∧
    sn_bytes_resident (cache_stats c2) = sn_bytes_resident (cache_stats c1).
Proof.
  intros Hs Hn Hw Ht Hqs Hrun.
  destruct (read_warm_then_hot _ _ _ _ _ _ _ _ _ Hs Hn Hw Ht Hqs Hrun) as (Hr & Hv & ms2 & c2 & j & E & Hst & Hr2).
  split; [done |]. split; [done |]. exists ms2, c2. split; [done |]. unfold cache_stats.
  cbn [sn_misses sn_evictions sn_bytes_resident]. rewrite Hst.
  destruct (iter_hit_others j (mk_stats 0 0 0 0)) as [-> ->]. done.
Qed.
End cached.

(** * Over the latency store *)

Section shim.
Context {O : ObjectTypes} {S : Type} `{!Store.ObjectStore S}.
Context {R : Type} (random_range : f64 → f64 → R → f64 * R) (ln exp cos : f64 → f64).
(** The path with this text, the options with this range, the body of a response and the
    message of an error: types of the [object_store] crate. *)
Context (path_of : string → Path) (range_options : Z → Z → GetOptions).
Context (body : GetResult → result bytes) (message : StoreError → string).

Abbreviation store := (LatencyStore S * machine R)%type.

(** The crate's [get_range], a [get_opts] with the range among its options. *)
Definition shim_get_range (path : string) (start end_ : Z) : M store bytes := λ st,
  match shim_get_opts random_range ln exp cos (path_of path) (range_options start end_) st with
  | Some (inl res, st') => (body res, st')
  | Some (inr e, st') => (Err (Parquet (message e)), st')
  | None => (Err panicked, st)
  end.

Lemma shim_get_range_gets p a b st r st' :
  shim_get_range p a b st = (r, st') → r ≠ Err panicked →
  st_gets (Store.stats st'.1) = as_u64 (st_gets (Store.stats st.1) + 1).
Proof.
  destruct st as [[i pr s] [rn z]]. unfold shim_get_range.
  assert (shim_get_opts random_range ln exp cos (path_of p) (range_options a b) (shim_state i pr s rn z) =
    match draw random_range ln exp cos (lp_get pr) rn with
    | Some (d, rn') => on_inner (get_opts (path_of p) (range_options a b))
        (shim_state i pr (charge Gets d s) rn' (z ++ if d =? 0 then [] else [d]))
    | None => None
    end) as E.
  { unfold shim_get_opts, on_get. rewrite !Run_bind. unfold ask_profile at 1. simpl.
    pose proof (delay_spec random_range ln exp cos (lp_get pr) Gets i pr s rn z) as D.
    unfold shim_state in *. rewrite D. by destruct (draw _ _ _ _ _ _) as [[d rn']|]. }
  unfold shim_state in *. rewrite E. clear E. destruct (draw _ _ _ _ _ _) as [[d rn']|]; [| by intros [= <- <-] ?].
  unfold on_inner. simpl. destruct (get_opts _ _ i) as [[[res|e] i']|]; simpl; intros [= <- <-] Hr; done.
Qed.

(** ** What is counted *)

Section counted.
Context {X : Type} (paid : X → Z).
(** Unless it panics, [m] moves the two counters alike. *)
Definition balanced {A} (m : M X A) : Prop :=
  ∀ st r st', m st = (r, st') → r ≠ Err panicked → paid st' = paid st.

Lemma balanced_still {A} (m : M X A) : (∀ st, (m st).2 = st) → balanced m.
Proof. intros Hm st r st' E _. by rewrite <- (Hm st), E. Qed.
Lemma balanced_bind {A B} (m : M X A) (f : A → M X B) :
  balanced m → (∀ a, balanced (f a)) → balanced (m ≫= f).
Proof.
  intros Hm Hf st r st' [(a & st1 & E1 & E2)|(e & E1 & ->)]%bind_inv Hr.
  - rewrite (Hf a _ _ _ E2 Hr). by apply (Hm _ _ _ E1).
  - apply (Hm _ _ _ E1). by intros [= ->].
Qed.
End counted.

Definition paid_low (x : ByteCache * store) : Z :=
  as_u64 (st_gets (Store.stats x.2.1) - misses (stats x.1)).

Lemma as_u64_succ_both a b : as_u64 (as_u64 (a + 1) - as_u64 (b + 1)) = as_u64 (a - b).
Proof. unfold as_u64. rewrite <- Zminus_mod. f_equal. lia. Qed.

Lemma balanced_fetch_range p a b : balanced paid_low (fetch_range shim_get_range p a b).
Proof.
  intros [c s] r [c' s'] E Hr. unfold paid_low. simpl.
  apply fetch_range_cases in E as [(bs & t & E & -> & -> & ->)|[E Hrun]].
  - unfold cache_get. by rewrite E.
  - pose proof (λ r s', shim_get_range_gets p a b s r s') as Hg.
    destruct (shim_get_range p a b s) as [[x|e] s1]; destruct Hrun as (-> & -> & ->).
    + rewrite (Hg _ _ eq_refl Hr), (proj2 (cache_insert_counts _ _ _)). apply as_u64_succ_both.
    + rewrite (Hg _ _ eq_refl Hr). apply as_u64_succ_both.
Qed.

Lemma balanced_each p rs : balanced paid_low (fetch_each (fetch_range shim_get_range p) rs).
Proof.
  induction rs as [|[a b] rs IH]; [by apply balanced_still |]. apply balanced_bind; [apply balanced_fetch_range |].
  intros bs. apply balanced_bind; [exact IH |]. intros rest. by apply balanced_still.
Qed.
Lemma balanced_ranges p rs : balanced paid_low (get_byte_ranges shim_get_range p rs).
Proof. intros st r st'. rewrite get_byte_ranges_each. apply balanced_each. Qed.

Lemma balanced_interp {A} ask (prog : program A) :
  (∀ rs, balanced paid_low (ask rs)) → balanced paid_low (interp ask prog).
Proof.
  intros Hask. induction prog as [a|e|rs k IH]; [by apply balanced_still.. |].
  apply balanced_bind; [apply Hask | exact IH].
Qed.

Context (path_from : string → string).
Context {Meta : Type} (load : Z → program Meta).
Context (arrow_meta : Meta → result (list pk_stats)).
Context (read_rows : Meta → nat → program (list (list prow))).
Definition paid (st : caches (St := store) (Meta := Meta)) : Z := paid_low st.2.

Lemma balanced_lift {A} (m : M (ByteCache * store) A) :
  balanced paid_low m → balanced paid (m_zoom snd (λ x st, (fst st, x)) m).
Proof. intros Hm st r st' (x & E & ->)%zoom_inv Hr. exact (Hm _ _ _ E Hr). Qed.

Lemma balanced_metadata p size : balanced paid (metadata shim_get_range load p size).
Proof.
  intros [ms x] r st'. rewrite metadata_run. destruct (ms !! p); [by intros [= <- <-] |].
  destruct (interp _ _ x) as [[m|e] x'] eqn:E; intros [= <- <-] Hr;
    by apply (balanced_interp _ _ (balanced_each p) _ _ _ E).
Qed.

Lemma balanced_load_meta p size : balanced paid (load_meta shim_get_range load arrow_meta p size).
Proof. apply balanced_bind; [apply balanced_metadata |]. intros m. by apply balanced_still. Qed.
Lemma balanced_read_group p size i : balanced paid (read_group shim_get_range load read_rows p size i).
Proof.
  apply balanced_bind; [apply balanced_metadata |]. intros m.
  apply balanced_lift, balanced_interp, balanced_ranges.
Qed.

Lemma balanced_row_groups p size key groups i :
  balanced paid (row_groups (read_group shim_get_range load read_rows) p size key groups i).
Proof.
  revert i. induction groups as [|g groups IH]; intros i; simpl; [by apply balanced_still |].
  destruct (negb _); [apply IH |]. apply balanced_bind; [apply balanced_read_group |].
  intros b. by apply balanced_still.
Qed.

Abbreviation reader_get := (reader_get shim_get_range path_from load arrow_meta read_rows).

Lemma balanced_get bucket index key : balanced paid (reader_get bucket index key).
Proof.
  unfold Reader.reader_get, get. induction (candidates index key) as [|e entries IH]; simpl; [by apply balanced_still |].
  destruct (bloom_may_contain e key) as [[]|]; [| done | by apply balanced_still].
  apply balanced_bind; [apply balanced_bind; [apply balanced_load_meta |]; intros; apply balanced_row_groups |].
  intros []; [by apply balanced_still.. | exact IH].
Qed.

(** C20: a miss is a round trip. Whatever a point read finds and however it fails, short
    of a panic, the GETs the latency store counts for it are exactly the misses the byte
    cache counts, of the footer and of the row groups both: no read reaches the store
    around the cache, none is charged twice, and one that failed is counted too. *)
Theorem misses_are_gets bucket index key ms c s w r ms' c' s' w' :
  reader_get bucket index key (ms, (c, (s, w))) = (r, (ms', (c', (s', w')))) → r ≠ Err panicked →
  as_u64 (st_gets (Store.stats s') - st_gets (Store.stats s)) =
  as_u64 (misses (stats c') - misses (stats c)).
Proof.
  intros E Hr. pose proof (balanced_get bucket index key _ _ _ E Hr) as Hb.
  unfold paid, paid_low, as_u64 in *. simpl in Hb.
  set (g' := st_gets (Store.stats s')) in *. set (g := st_gets (Store.stats s)) in *.
  set (m' := misses (stats c')) in *. set (m := misses (stats c)) in *.
  replace (g' - g) with ((g' - m') + (m' - g)) by lia.
  rewrite <- Zplus_mod_idemp_l, Hb, Zplus_mod_idemp_l. f_equal. lia.
Qed.
End shim.

(** * Examples *)

(** A store of two objects of thirty-two bytes each, behind 50 ms of latency. *)
#[local] Instance ranged_types : ObjectTypes := {
  Path := string; PutPayload := unit; PutOptions := unit; PutResult := unit;
  PutMultipartOptions := unit; MultipartUpload := unit; GetOptions := Z * Z; GetResult := bytes;
  Range := unit; Bytes := unit; ObjectMeta := unit; ListResult := unit; StoreError := string;
}.

Definition cell (b : byte) : bytes := replicate 4 b.
Definition object_of (p : string) : bytes :=
  if decide (p = "a"%string)
  then cell Byte.x41 ++ cell Byte.x01 ++ cell Byte.x43 ++ cell Byte.x02 ++ replicate 16 Byte.x00
  else cell Byte.x42 ++ cell Byte.x03 ++ cell Byte.x44 ++ cell Byte.x04 ++ replicate 16 Byte.x00.
Definition slice_of (p : string) (a b : Z) : bytes := take (Z.to_nat (b - a)) (drop (Z.to_nat a) (object_of p)).

#[local] Instance ranged_store : Store.ObjectStore unit := {
  put_opts _ _ _ := λ u, Some (inr "read only"%string, u);
  put_multipart_opts _ _ := λ u, Some (inr "read only"%string, u);
  get_opts p r := λ u, Some (inl (slice_of p r.1 r.2), u);
  get_ranges _ _ := λ u, Some (inr "not used"%string, u);
  head _ := λ u, Some (inr "not used"%string, u);
  delete _ := λ u, Some (inr "read only"%string, u);
  list_objects _ := λ u, Some (Ended, u);
  list_with_delimiter _ := λ u, Some (inr "not used"%string, u);
  copy _ _ := λ u, Some (inr "read only"%string, u);
  copy_if_not_exists _ _ := λ u, Some (inr "read only"%string, u);
}.

Abbreviation ex_range :=
  (shim_get_range (O := ranged_types) (S := unit) no_random id id id (λ p : string, p) pair Ok id).
Lemma ranged_serves p a b st x st' : ex_range p a b st = (Ok x, st') → x = slice_of p a b.
Proof.
  unfold shim_get_range, shim_get_opts, on_get. destruct st as [[i pr s] [r z]]. rewrite !Run_bind.
  unfold ask_profile at 1. simpl.
  pose proof (delay_spec (S := unit) no_random id id id (lp_get pr) Gets i pr s r z) as D.
  unfold shim_state in D. rewrite D. destruct (draw _ _ _ _ _ _) as [[d r']|]; simpl; by intros [= <- _].
Qed.

(** The library: a footer of sixteen bytes, and one row group of two pages, each a key
    and a value. *)
Definition ex_load (size : Z) : program bytes := Ask [(size - 16, size)] (λ bs, Return (concat bs)).
Definition ex_meta (footer : bytes) : result (list pk_stats) :=
  if decide (length footer = 16%nat) then Ok [None] else Err (Parquet "footer").
Definition ex_rows (footer : bytes) (i : nat) : program (list (list prow)) :=
  Ask [(0, 8); (8, 16)] (λ pages, Return [(λ p, mk_prow (take 4 p) 0 (Some (drop 4 p))) <$> pages]).
Definition data_file (p : string) (lo hi : byte) (lsn : Z) : FileEntry :=
  mk_file_entry p lsn (cell lo) (cell hi) 32 2 None.
Definition ex_index : FileIndex := [data_file "b" Byte.x42 Byte.x44 2; data_file "a" Byte.x41 Byte.x43 1].
Definition keyC : bytes := cell Byte.x43.
Abbreviation ex_get := (reader_get ex_range id ex_load ex_meta ex_rows "bucket" ex_index).
Abbreviation ex_read_all := (read_all ex_range id ex_load ex_meta ex_rows "bucket" ex_index).

Definition ex_store : LatencyStore unit * machine unit := (latency_store_new tt ms50, mk_machine tt []).
Definition ex_caches (n : Z) : caches (Meta := bytes) := ((∅ : gmap string bytes), (cache_new n, ex_store)).
(** The key is in both files' ranges, and in the older file. *)
Definition ex_read := ex_get keyC (ex_caches 48).

Lemma ex_sized : sized id (λ _, 32) "bucket" ex_index.
Proof. by repeat constructor. Qed.

Lemma cached_read_is_direct_witness :
  (direct_get id ex_load ex_meta ex_rows slice_of "bucket" ex_index keyC []).1 = Ok (Some (Found (cell Byte.x02))).
Proof.
  assert (ex_read.1 = Ok (Some (Found (cell Byte.x02)))) as E by (vm_compute; reflexivity).
  destruct (cached_read_is_direct ex_range slice_of id ex_load ex_meta ex_rows (λ _, 32) ranged_serves
    "bucket" ex_index keyC (ex_caches 48) ex_read.1 ex_read.2 ex_sized) as (_ & H & _).
  - split; [intros k bs t Hk; done | intros p m Hm; done].
  - apply surjective_pairing.
  - by apply H.
Defined.

Lemma misses_are_gets_witness :
  as_u64 (st_gets (Store.stats ex_read.2.2.2.1) - 0) = 6 ∧ misses (stats ex_read.2.2.1) = 6.
Proof.
  assert (misses (stats ex_read.2.2.1) = 6) as E by (vm_compute; reflexivity). split; [| exact E].
  pose proof (misses_are_gets (O := ranged_types) (S := unit) no_random id id id (λ p : string, p) pair Ok id id
    ex_load ex_meta ex_rows "bucket" ex_index keyC ∅ (cache_new 48) ex_store.1 ex_store.2 ex_read.1
    ex_read.2.1 ex_read.2.2.1 ex_read.2.2.2.1 ex_read.2.2.2.2) as H.
  rewrite E in H. apply H; [rewrite <- !surjective_pairing; reflexivity | vm_compute; discriminate].
Defined.

Lemma caches_eta {A S1 S2 S3} (o : result A * (S1 * (S2 * S3))) a :
  o.1 = Ok a → o = (Ok a, (o.2.1, (o.2.2.1, o.2.2.2))).
Proof. intros <-. by destruct o as [r [x [y z]]]. Qed.

(** Room for both files, to the byte. *)
Definition ex_hot : list bytes := [cell Byte.x41; keyC].
Definition ex_warm := ex_read_all ex_hot (ex_caches 64).

Lemma warm_reads_are_free_witness :
  sn_bytes_resident (cache_stats ex_warm.2.2.1) = 64 ∧
  ∃ st, ex_read_all [keyC; cell Byte.x41; keyC] (ex_warm.2.1, (Cache.reset_stats ex_warm.2.2.1, ex_warm.2.2.2)) = (Ok tt, st).
Proof.
  destruct (warm_reads_are_free ex_range slice_of id ex_load ex_meta ex_rows (λ _, 32) ranged_serves
    "bucket" ex_index 64 ex_hot [keyC; cell Byte.x41; keyC] ex_store ex_warm.2.1 ex_warm.2.2.1 ex_warm.2.2.2
    ex_sized) as (Hw & _ & ms2 & c2 & E & _).
  - done.
  - vm_compute. discriminate.
  - vm_compute. reflexivity.
  - repeat constructor; set_solver.
  - apply (caches_eta ex_warm). vm_compute. reflexivity.
  - split; [rewrite Hw; vm_compute; reflexivity |]. eexists. exact E.
Defined.
