(* ===== verification/Lakehouse.v ===== *)
(** The columnar level put together: the catalog ([catalog.rs]), the file index
    ([index.rs]), the point read ([read.rs]) and the publish ([flush.rs]) as one
    instance of the engine's interface ([Columnar.v]).

    What is left as a parameter is third-party: the store of Parquet files and its
    reader, and the DuckDB process. [published] says what a run of that process does
    to the catalog's rows and to the store when its transaction commits. *)

From S2P Require Import Prelude RecordModel Fs Memtable Flush Columnar Engine.
From S2P Require Import Catalog Sbbf Bloom Index IndexProps Read ReadProps.

Section lakehouse.
Context {St P : Type}.

(** The database and the object store. *)
Record lakehouse : Type := mk_lakehouse { lh_pg : pg; lh_store : St }.

Definition set_lh_pg (d : pg) (l : lakehouse) : lakehouse := mk_lakehouse d (lh_store l).
Definition set_lh_store (s : St) (l : lakehouse) : lakehouse := mk_lakehouse (lh_pg l) s.
Definition on_pg {A} (m : M pg A) : M lakehouse A := m_zoom lh_pg set_lh_pg m.
Definition on_objects {A} (m : M St A) : M lakehouse A := m_zoom lh_store set_lh_store m.

Context (path_from : string → P).
Context (load_meta : P → Z → M St (list pk_stats)).
Context (read_group : P → Z → nat → M St (list (list prow))).
Context (hex_decode : string → bytes + string) (base64_decode : string → option bytes).
Context (pg_bigint : string → option Z).
(** A run of the DuckDB binary on a script that reads a file with these bytes. *)
Context (duckdb : string → bytes → lakehouse → process * lakehouse).
Context (cfg : Config).
(** The handle the engine keeps. *)
Context (lake : DuckLake).

Definition unwrap {S A} (m : M S (option A)) : M S A :=
  o ← m; match o with Some a => mret a | None => m_err panicked end.

(** [flush::publish] *)
Definition run_publish (staging : string) (bs : bytes) : M lakehouse unit := λ l,
  let script := publish_script (cfg_catalog cfg) (cfg_s3 cfg) staging in
  let '(child, l') := duckdb script bs l in
  (run_duckdb child, l').

(** The handle is the section's [lake]: [connect_resolves] in [LakehouseProps.v] shows
    that [connect] returns it. *)
Definition connect_lake : M lakehouse unit := _ ← on_pg (connect (cfg_catalog cfg)); mret tt.

#[export] Instance lakehouse_columnar : Columnar lakehouse FileIndex := {
  co_connect := connect_lake;
  co_published_watermark := on_pg (published_watermark pg_bigint lake);
  co_load := unwrap (on_pg (load hex_decode base64_decode lake));
  co_watermark := index_watermark;
  co_file_count := index_len;
  co_get index key :=
    unwrap (on_objects (get path_from load_meta read_group (bucket lake) index key));
  co_publish := run_publish;
}.

(** * What a committed publish leaves *)

(** The files behind the paths. *)
Context (content : St → P → list (pk_stats * list (list prow))).

Definition prow_of (r : row) : prow := mk_prow (r_pk r) (r_op r) (r_value r).

(** The rows a publish adds to the catalog, and the file it writes. *)
Record new_file : Type := mk_new_file {
  nf_id : Z; nf_path : string; nf_size : Z; nf_count : Z;
  nf_pk_min : string; nf_pk_max : string;
  nf_lsn_min : option string; nf_lsn_max : string;
  nf_other : list stats_row;
  nf_bloom : option (option string);
  nf_groups : list (pk_stats * list (list prow));
}.

Definition nf_row (w : new_file) : file_row :=
  mk_file_row (nf_id w) (table_id lake) (nf_path w) (nf_size w) (nf_count w) None.
Definition nf_pk_row (w : new_file) : stats_row :=
  mk_stats_row (nf_id w) (table_id lake) FIELD_ID_PK (Some (nf_pk_min w)) (Some (nf_pk_max w)).
Definition nf_lsn_row (w : new_file) : stats_row :=
  mk_stats_row (nf_id w) (table_id lake) FIELD_ID_LSN (nf_lsn_min w) (Some (nf_lsn_max w)).
Definition nf_bloom_rows (w : new_file) : list bloom_row :=
  match nf_bloom w with Some b => [mk_bloom_row (nf_id w) FIELD_ID_PK b] | None => [] end.

(** Where the reader looks for a file of the catalog. *)
Definition file_path (f : file_row) : P :=
  object_path path_from (mk_file_entry (key_prefix lake +:+ f_path f) 0 [] [] 0 0 None) (bucket lake).

Definition add_file (w : new_file) (c : catalog) : catalog :=
  mk_catalog (ducklake_table c) (ducklake_schema c) (ducklake_column c)
    (ducklake_data_file c ++ [nf_row w])
    (ducklake_file_column_stats c ++ nf_pk_row w :: nf_lsn_row w :: nf_other w)
    (ducklake_file_column_blooms c ++ nf_bloom_rows w).

(** A row group's statistics are the least and the greatest of its keys. *)
Definition group_exact (g : pk_stats * list (list prow)) : Prop :=
  ∃ lo hi, g.1 = Some (Some lo, Some hi) ∧ lo ∈ p_pk <$> group_rows g ∧ hi ∈ p_pk <$> group_rows g ∧
    ∀ r, r ∈ group_rows g → bytes_le lo (p_pk r) ∧ bytes_le (p_pk r) hi.

(** What DuckLake documents of an insert: one transaction adds a data file under a
    new id and a new path, its column statistics, and its bloom if the table has
    them; the Parquet file holds the rows in their order. *)
Record published (l l' : lakehouse) (rows : list row) (w : new_file) : Prop := {
  pb_id : ∀ f, f ∈ ducklake_data_file (pg_catalog (lh_pg l)) → f_id f ≠ nf_id w;
  pb_id_stats : ∀ s, s ∈ ducklake_file_column_stats (pg_catalog (lh_pg l)) → s_file s ≠ nf_id w;
  pb_id_blooms : ∀ b, b ∈ ducklake_file_column_blooms (pg_catalog (lh_pg l)) → b_file b ≠ nf_id w;
  pb_path : ∀ f, f ∈ ducklake_data_file (pg_catalog (lh_pg l)) → file_path f ≠ file_path (nf_row w);
  pb_catalog : pg_catalog (lh_pg l') = add_file w (pg_catalog (lh_pg l));
  pb_other : Forall (λ s, s_file s = nf_id w ∧ s_table s = table_id lake ∧
    s_column s ≠ FIELD_ID_PK ∧ s_column s ≠ FIELD_ID_LSN) (nf_other w);
  pb_bounds : ∃ lo hi, hex_decode (nf_pk_min w) = inl lo ∧ hex_decode (nf_pk_max w) = inl hi ∧
    ∀ r, r ∈ rows → bytes_le lo (r_pk r) ∧ bytes_le (r_pk r) hi;
  pb_lsn : parse_u64 (nf_lsn_max w) = Some (rows_max rows);
  pb_bloom : ∀ b bl, nf_bloom w = Some (Some b) → from_base64 base64_decode b = Some bl →
    ∀ r, r ∈ rows → sbbf_contains (words bl) (num_blocks bl) (r_pk r) = true;
  pb_new : content (lh_store l') (file_path (nf_row w)) = nf_groups w;
  pb_old : ∀ p, p ≠ file_path (nf_row w) → content (lh_store l') p = content (lh_store l) p;
  pb_rows : concat (group_rows <$> nf_groups w) = prow_of <$> rows;
  pb_stats : Forall group_exact (nf_groups w);
}.

(** No file, no statistics, no object changes. *)
Definition untouched (l l' : lakehouse) : Prop :=
  pg_catalog (lh_pg l') = pg_catalog (lh_pg l) ∧
  ∀ p, content (lh_store l') p = content (lh_store l) p.
End lakehouse.

Arguments lakehouse St : clear implicits.
