(* ===== verification/LakehouseProps.v ===== *)
(** The columnar level keeps the contract the engine is verified against: the
    instance of [Lakehouse.v] satisfies [ColumnarLaws], from what is documented of the
    Parquet reader and of DuckDB's insert. *)

From S2P Require Import Prelude RecordModel Fs Memtable Flush Columnar Engine EngineLemmas.
From S2P Require Import Catalog Sbbf Bloom Index IndexProps Read ReadProps Lakehouse.

(** * Calls that only read the catalog *)

(** On the catalog [c] the call returns [v], or the database fails it. *)
Definition reads_at {A} (c : catalog) (m : M pg A) (v : result A) : Prop :=
  ∀ d r d', pg_catalog d = c → m d = (r, d') →
    pg_catalog d' = c ∧ (r = v ∨ (∃ e, r = Err e) ∧ pg_faults d ≠ []) ∧
    (pg_faults d = [] → pg_faults d' = []).

Lemma reads_query {A} c (f : catalog → result A) : reads_at c (query f) (f c).
Proof.
  intros d r d' Hc. unfold query.
  destruct (pg_faults d) as [|[] q] eqn:E; intros [= <- <-]; simpl; rewrite ?Hc, ?E.
  - by auto.
  - split; [done |]. split; [right; eauto | done].
  - split; [done |]. split; [by left | done].
Qed.

Lemma reads_lift {A} c (v : result A) : reads_at c (m_lift v) v.
Proof. intros d r d' Hc [= <- <-]. by auto. Qed.

Lemma reads_ret {A} c (a : A) : reads_at c (mret a) (Ok a).
Proof. intros d r d' Hc [= <- <-]. by auto. Qed.

Lemma reads_bind {A B} c (m : M pg A) (k : A → M pg B) a v :
  reads_at c m (Ok a) → reads_at c (k a) v → reads_at c (m ≫= k) v.
Proof.
  intros Hm Hk d r d' Hc Hrun.
  apply bind_inv in Hrun as [(a' & d1 & E & Hrun)|(e & E & ->)].
  - destruct (Hm _ _ _ Hc E) as (Hc1 & [[= ->]|[[e [=]] _]] & Hq1).
    destruct (Hk _ _ _ Hc1 Hrun) as (Hc2 & Hr & Hq2). split; [done |]. split; [| auto].
    destruct Hr as [->|[He Hf]]; [by left |]. right. split; [done |]. auto.
  - destruct (Hm _ _ _ Hc E) as (Hc1 & [[=]|[_ Hf]] & Hq1). split; [done |]. split; [| done].
    right. eauto.
Qed.

(** * Lists of rows *)

Lemma rows_get_scan k rows :
  rows_get k rows = default Missing (scan_rows k (prow_of <$> rows)).
Proof.
  induction rows as [|r rows IH]; [done |]. rewrite fmap_cons. simpl.
  case_bool_decide; case_decide; try done.
Qed.

Lemma max_of_rows files : max_of (rows_max <$> files) = files_max files.
Proof. induction files as [|rows files IH]; [done |]. rewrite fmap_cons. simpl. by rewrite IH. Qed.

Lemma files_max_nonneg files : 0 ≤ files_max files.
Proof. induction files; simpl; lia. Qed.

Lemma rows_max_above files rows :
  rows ≠ [] → Forall (λ r, files_max files < r_lsn r < 2 ^ 63) rows →
  files_max files < rows_max rows < 2 ^ 63.
Proof.
  intros Hne. induction 1 as [|r rows Hr Hrows IH]; [done |]. simpl.
  destruct rows as [|r' rows]; [| specialize (IH ltac:(done)); simpl in *; lia].
  simpl. pose proof (files_max_nonneg files). lia.
Qed.

(** * Row groups of a file in key order *)

Lemma exact_groups_ordered gs :
  StronglySorted bytes_lt (p_pk <$> concat (group_rows <$> gs)) → Forall group_exact gs →
  Forall group_bounded gs ∧ groups_separated gs.
Proof.
  intros Hs He. split.
  - eapply Forall_impl; [exact He |]. intros g (lo & hi & Hg & _ & _ & Hb). by exists lo, hi.
  - induction He as [|g gs (lo & hi & Hg & _ & Hhi & _) He IH]; [constructor |].
    rewrite fmap_cons in Hs. simpl in Hs. rewrite fmap_app in Hs.
    constructor; [by apply IH; eapply StronglySorted_app_1_r |].
    apply Forall_forall. intros g' Hg' lo' hi' r E Hr.
    pose proof (eq_trans (eq_sym Hg) E) as E2. injection E2 as <- <-.
    eapply StronglySorted_app_1_elem_of; [exact Hs | exact Hhi |].
    apply list_elem_of_fmap_2, elem_of_concat. exists (group_rows g').
    split; [by apply list_elem_of_fmap_2 | done].
Qed.

Section laws.
Context {St P : Type}.
Context (path_from : string → P).
Context (load_meta : P → Z → M St (list pk_stats)).
Context (read_group : P → Z → nat → M St (list (list prow))).
Context (hex_decode : string → bytes + string) (base64_decode : string → option bytes).
Context (pg_bigint : string → option Z).
Context (duckdb : string → bytes → lakehouse St → process * lakehouse St).
Context (cfg : Config) (lake : DuckLake).
Context (content : St → P → list (pk_stats * list (list prow))).
Context (read_parquet : bytes → option (list row)).
(** No call of the store fails. *)
Context (store_quiet : St → Prop).

Abbreviation load_row := (load_row hex_decode base64_decode lake).
Abbreviation file_path := (file_path path_from lake).
Abbreviation published := (published path_from hex_decode base64_decode lake content).
Abbreviation untouched := (untouched content).
Abbreviation entry_path e := (object_path path_from e (bucket lake)).

Definition lh_quiet (l : lakehouse St) : Prop := pg_faults (lh_pg l) = [] ∧ store_quiet (lh_store l).

(** What is documented of the third-party code: the Parquet reader returns what is in
    the file or fails, and changes nothing; Postgres reads decimals; an insert is one
    transaction, which adds the file or leaves everything as it was, and a process
    that reports success has committed. *)
Record documented : Prop := {
  doc_meta p n st r st' : load_meta p n st = (r, st') →
    (∀ q, content st' q = content st q) ∧ (∀ m, r = Ok m → m = (content st p).*1) ∧
    (store_quiet st → is_ok r = true ∧ store_quiet st');
  doc_group p n i st r st' : read_group p n i st = (r, st') →
    (∀ q, content st' q = content st q) ∧ (∀ b, r = Ok b → (content st p).*2 !! i = Some b) ∧
    (store_quiet st → (is_Some (content st p !! i) → is_ok r = true) ∧ store_quiet st');
  doc_bigint : bigint_decimal pg_bigint;
  doc_insert l staging bs rows child l' :
    read_parquet bs = Some rows → rows ≠ [] → StronglySorted bytes_lt (r_pk <$> rows) →
    Forall (λ r, 0 ≤ r_lsn r < 2 ^ 63) rows →
    duckdb (publish_script (cfg_catalog cfg) (cfg_s3 cfg) staging) bs l = (child, l') →
    (untouched l l' ∧ run_duckdb child ≠ Ok tt ∨ ∃ w, published l l' rows w) ∧
    (lh_quiet l → run_duckdb child = Ok tt ∧ lh_quiet l');
}.

(** * The invariant of the lake *)

(** The settings resolve to the handle, and its columns are the engine's. *)
Definition resolves (c : catalog) : Prop :=
  ∃ schema_sub table_sub prefix,
    table_rows (cat_schema (cfg_catalog cfg)) (cat_table (cfg_catalog cfg)) c =
      [(table_id lake, schema_sub, table_sub)] ∧
    split_data_path (data_path (cfg_catalog cfg)) = Ok (bucket lake, prefix) ∧
    key_prefix lake = prefix +:+ schema_sub +:+ table_sub ∧
    column_rows (table_id lake) c = EXPECTED_COLUMNS.

(** The entry is what the index should say of a file with these rows. *)
Definition describes (cont : P → list (pk_stats * list (list prow))) (e : FileEntry)
    (rows : list row) : Prop :=
  entry_sound path_from (bucket lake) cont e ∧
  file_rows path_from (bucket lake) cont e = prow_of <$> rows ∧
  fe_watermark e = rows_max rows.

Definition ages (es : list FileEntry) : Prop :=
  StronglySorted (λ a b, fe_watermark a < fe_watermark b) es.

(** The live files of the lake, oldest first, whatever order the catalog lists them in. *)
Record holds (l : lakehouse St) (files : list (list row)) : Prop := {
  ho_resolves : resolves (pg_catalog (lh_pg l));
  ho_wf : catalog_wf lake (pg_catalog (lh_pg l));
  ho_entries : ∃ listed es,
    Forall2 (λ x e, load_row x = Some (Ok e)) (index_rows lake (pg_catalog (lh_pg l))) listed ∧
    listed ≡ₚ es ∧ Forall2 (describes (content (lh_store l))) es files ∧ ages es;
}.

(** An index of these files: the newest first, each in the catalog's list. *)
Definition indexes (l : lakehouse St) (i : FileIndex) (files : list (list row)) : Prop :=
  ∃ es, i = reverse es ∧ Forall2 (describes (content (lh_store l))) es files ∧ ages es ∧
    Forall (λ e, ∃ f, f ∈ ducklake_data_file (pg_catalog (lh_pg l)) ∧ entry_path e = file_path f) es.

(** * Reading the catalog *)

Lemma connect_resolves c : resolves c → reads_at c (connect (cfg_catalog cfg)) (Ok lake).
Proof.
  intros (ssub & tsub & prefix & Ht & Hs & Hk & Hc). unfold connect.
  eapply reads_bind; [apply (reads_query c (λ _, Ok tt)) |].
  eapply reads_bind.
  { unfold resolve_table. pose proof (reads_query c (λ c, at_most_one (table_rows
      (cat_schema (cfg_catalog cfg)) (cat_table (cfg_catalog cfg)) c))) as H.
    simpl in H. rewrite Ht in H. exact H. }
  eapply reads_bind; [apply reads_lift |]. simpl.
  eapply reads_bind; [rewrite Hs; apply reads_lift |]. simpl.
  rewrite <- Hk. replace (mk_ducklake (table_id lake) (bucket lake) (key_prefix lake)) with lake
    by (by destruct lake).
  eapply reads_bind; [| apply reads_ret].
  unfold verify_columns. eapply reads_bind; [apply (reads_query c (λ c, Ok (column_rows _ c))) |].
  rewrite Hc. simpl. apply (reads_lift c).
Qed.

Lemma entries_loadable c listed :
  Forall2 (λ x e, load_row x = Some (Ok e)) (index_rows lake c) listed →
  rows_loadable hex_decode base64_decode lake c.
Proof.
  unfold rows_loadable. induction 1; constructor; [by eexists | done].
Qed.

Lemma watermarks_of_files cont es files :
  Forall2 (describes cont) es files → fe_watermark <$> es = rows_max <$> files.
Proof. induction 1 as [|e rows es files (_ & _ & Hw) _ IH]; csimpl; [done |]. by rewrite Hw, IH. Qed.

Lemma published_watermark_reads (D : documented) l files :
  holds l files →
  reads_at (pg_catalog (lh_pg l)) (published_watermark pg_bigint lake) (Ok (files_max files)).
Proof.
  intros [_ Hwf (listed & es & Hl & Hp & Hd & _)].
  pose proof (entries_loadable _ _ Hl) as Hload.
  destruct (lsn_stats_values _ _ _ _ _ Hwf (doc_bigint D) Hload) as (ns & Hn1 & Hn2).
  destruct (max_bigint_ok _ _ _ Hn1) as (m & Hm & Hdm & _).
  assert (max_of ns = files_max files) as Hmax.
  { rewrite <- max_of_rows, <- (watermarks_of_files _ _ _ Hd). apply max_of_ext. intros n.
    rewrite <- (watermarks_agree _ _ _ _ _ _ Hwf Hl Hn2), Hp. done. }
  unfold published_watermark. eapply reads_bind.
  { pose proof (reads_query (pg_catalog (lh_pg l))
      (λ c, default 0 <$> max_bigint pg_bigint (s_max <$> lsn_stats lake c))) as H.
    cbn beta in H. rewrite Hm in H. exact H. }
  simpl. rewrite Hdm, Hmax. replace (as_u64 (files_max files)) with (files_max files);
    [apply reads_ret |].
  symmetry. apply Z.mod_small. pose proof (files_max_nonneg files).
  pose proof (ns_bounded _ _ Hn2). lia.
Qed.

Lemma ages_inj es x y : ages es → x ∈ es → y ∈ es → fe_watermark x = fe_watermark y → x = y.
Proof.
  induction 1 as [|e es Hs IH He]; intros Hx Hy E; [by apply elem_of_nil in Hx |].
  rewrite Forall_forall in He. apply elem_of_cons in Hx as [->|Hx], Hy as [->|Hy]; [done | | | auto].
  - specialize (He y Hy). lia.
  - specialize (He x Hx). lia.
Qed.

(** Sorting any listing of the entries by watermark gives them newest first. *)
Lemma sort_listed listed es : listed ≡ₚ es → ages es → sort_by newest_first listed = reverse es.
Proof.
  intros Hp Ha. rewrite (sort_by_unique newest_first newest_first_total newest_first_trans
    listed (reverse es)).
  - apply sort_by_id. clear Hp. unfold leb_sorted. induction Ha as [|e es Hs IH He]; [constructor |].
    rewrite reverse_cons. apply StronglySorted_app. split_and!; [| done | repeat constructor].
    intros x y Hx Hy. rewrite elem_of_reverse in Hx. apply list_elem_of_singleton in Hy as ->.
    rewrite Forall_forall in He. specialize (He x Hx). unfold newest_first. lia.
  - intros x y. rewrite Hp. intros Hx Hy Hxy Hyx. apply (ages_inj es); [done.. |].
    unfold newest_first in *. lia.
  - by rewrite reverse_Permutation.
Qed.

Lemma load_rows_of rows es :
  Forall2 (λ x e, load_row x = Some (Ok e)) rows es →
  load_rows hex_decode base64_decode lake rows = Some (Ok es).
Proof. induction 1 as [|x e rows es Hx _ IH]; simpl; [done |]. by rewrite Hx, IH. Qed.

(** Where the index looks for a listed file. *)
Lemma load_row_path f pk st b e : load_row (f, pk, st, b) = Some (Ok e) → entry_path e = file_path f.
Proof.
  unfold Index.load_row. intros H.
  destruct (s_min pk); [| done]. destruct (s_max pk); [| done]. simpl in H.
  destruct (s_max st) as [x|]; [| done]. simpl in H. injection H as H.
  destruct (decode_hex hex_decode _ "pk min"); [| done]. simpl in H.
  destruct (decode_hex hex_decode _ "pk max"); [| done]. simpl in H.
  destruct (parse_u64 x); [| done]. by injection H as <-.
Qed.

Lemma entries_listed (l : lakehouse St) listed es :
  Forall2 (λ x e, load_row x = Some (Ok e)) (index_rows lake (pg_catalog (lh_pg l))) listed →
  listed ≡ₚ es →
  Forall (λ e, ∃ f, f ∈ ducklake_data_file (pg_catalog (lh_pg l)) ∧ entry_path e = file_path f) es.
Proof.
  intros Hl Hp. apply Forall_forall. intros e He. rewrite <- Hp in He.
  destruct (Forall2_elem_r _ _ _ _ Hl He) as ([[[f pk] st] b] & Hin & Hrow).
  apply index_row_elem in Hin as (Hf & _). exists f. by rewrite (load_row_path _ _ _ _ _ Hrow).
Qed.

Lemma load_reads l files :
  holds l files →
  ∃ i, reads_at (pg_catalog (lh_pg l)) (load hex_decode base64_decode lake) (Ok (Some i)) ∧
       indexes l i files.
Proof.
  intros [_ _ (listed & es & Hl & Hp & Hd & Ha)]. exists (reverse es). split; [| exists es; split_and!; try done; by eapply entries_listed].
  unfold load. eapply reads_bind; [apply (reads_query _ (λ c, Ok (index_rows lake c))) |].
  assert (load_rows hex_decode base64_decode lake (index_rows lake (pg_catalog (lh_pg l))) =
    Some (Ok listed)) as -> by (by apply load_rows_of).
  rewrite (sort_listed listed es Hp Ha). apply reads_ret.
Qed.

(** * Reading the files *)

Lemma scan_files_get cont k es files :
  Forall2 (describes cont) es files →
  scan_files path_from (bucket lake) cont k es = files_get k files.
Proof.
  induction 1 as [|e rows es files (_ & Hr & _) _ IH]; [done |]. simpl.
  rewrite rows_get_scan, Hr, IH. pose proof (scan_rows_hit k (prow_of <$> rows)) as Hh.
  destruct (scan_rows k (prow_of <$> rows)) as [[]|]; done.
Qed.

(** An entry depends on its own file only. *)
Lemma describes_ext cont cont' e rows :
  cont' (entry_path e) = cont (entry_path e) → describes cont e rows → describes cont' e rows.
Proof. unfold describes, entry_sound, file_ordered, file_rows. by intros ->. Qed.

Lemma describes_all cont cont' es files :
  (∀ p, cont' p = cont p) → Forall2 (describes cont) es files → Forall2 (describes cont') es files.
Proof. intros H HF. eapply Forall2_impl; [exact HF |]. intros e rows. by apply describes_ext. Qed.

Lemma holds_store l s files :
  (∀ p, content s p = content (lh_store l) p) → holds l files → holds (set_lh_store s l) files.
Proof.
  intros H [H1 H2 (listed & es & Hl & Hp & Hd & Ha)]. split; [done | done |].
  exists listed, es. split_and!; try done. by eapply describes_all.
Qed.

Lemma holds_pg l d files :
  pg_catalog d = pg_catalog (lh_pg l) → holds l files → holds (set_lh_pg d l) files.
Proof. intros H [H1 H2 H3]. split; simpl; rewrite H; done. Qed.

(** The store while the files of [l] are read. *)
Definition reading (l : lakehouse St) (s : St) : Prop :=
  (∀ p, content s p = content (lh_store l) p) ∧ (store_quiet (lh_store l) → store_quiet s).

Lemma reading_content (D : documented) l :
  reads_content load_meta read_group (content (lh_store l)) (reading l).
Proof.
  split.
  - intros p n st r st' [Hc Hq] E. destruct (doc_meta D _ _ _ _ _ E) as (Hs & Hr & Hq').
    split; [split; [intros q; by rewrite Hs |] |].
    + intros q. by apply Hq', Hq.
    + intros m Hm. by rewrite (Hr m Hm), Hc.
  - intros p n i st r st' [Hc Hq] E. destruct (doc_group D _ _ _ _ _ _ E) as (Hs & Hr & Hq').
    split; [split; [intros q; by rewrite Hs |] |].
    + intros q. by apply Hq', Hq.
    + intros b Hb. by rewrite <- Hc, (Hr b Hb).
Qed.

(** When the store is quiet no read fails. *)
Lemma quiet_no_io_error (D : documented) l e :
  store_quiet (lh_store l) → ¬ io_error load_meta read_group (content (lh_store l)) (reading l) e.
Proof.
  intros Q [(p & n & st & st' & [_ Hq] & E)|(p & n & i & st & st' & [Hc Hq] & Hi & E)].
  - destruct (doc_meta D _ _ _ _ _ E) as (_ & _ & H). by destruct (H (Hq Q)).
  - destruct (doc_group D _ _ _ _ _ _ E) as (_ & _ & H).
    destruct (H (Hq Q)) as [H' _]. rewrite Hc in H'. by specialize (H' Hi).
Qed.

Lemma index_sound cont es files :
  Forall2 (describes cont) es files → Forall (entry_sound path_from (bucket lake) cont) (reverse es).
Proof.
  intros H. apply Forall_reverse. induction H as [|e rows es files (He & _) _ IH]; by constructor.
Qed.

(** * Publishing *)

Lemma bind_ext_elem {A B} (f g : A → list B) l :
  (∀ x, x ∈ l → f x = g x) → l ≫= f = l ≫= g.
Proof.
  induction l as [|x l IH]; intros H; [done |]. csimpl. rewrite (H x) by left. f_equal.
  apply IH. intros y Hy. apply H. by right.
Qed.

Lemma filter_keep {A} (Q : A → Prop) `{!∀ x, Decision (Q x)} a b l :
  Q a → ¬ Q b → (∀ x, x ∈ l → ¬ Q x) → base.filter Q (a :: b :: l) = [a].
Proof.
  intros Ha Hb Hl. rewrite !filter_cons, decide_True, decide_False by done. f_equal. by apply filter_none.
Qed.

Lemma filter_keep_2 {A} (Q : A → Prop) `{!∀ x, Decision (Q x)} a b l :
  ¬ Q a → Q b → (∀ x, x ∈ l → ¬ Q x) → base.filter Q (a :: b :: l) = [b].
Proof.
  intros Ha Hb Hl. rewrite !filter_cons, decide_False, decide_True by done. f_equal. by apply filter_none.
Qed.

Definition new_bloom (w : new_file) : option string := default None (nf_bloom w).

Lemma index_rows_add l l' rows w :
  published l l' rows w →
  index_rows lake (pg_catalog (lh_pg l')) =
    index_rows lake (pg_catalog (lh_pg l)) ++
    [(nf_row lake w, nf_pk_row lake w, nf_lsn_row lake w, new_bloom w)].
Proof.
  intros B. rewrite (pb_catalog _ _ _ _ _ _ _ _ _ B). unfold index_rows, add_file. simpl.
  pose proof (pb_id _ _ _ _ _ _ _ _ _ B) as F1. pose proof (pb_id_stats _ _ _ _ _ _ _ _ _ B) as F2.
  pose proof (pb_id_blooms _ _ _ _ _ _ _ _ _ B) as F3.
  pose proof (pb_other _ _ _ _ _ _ _ _ _ B) as Ho. rewrite Forall_forall in Ho.
  rewrite filter_app, bind_app. f_equal.
  - apply bind_ext_elem. intros f [_ Hf]%list_elem_of_filter. specialize (F1 f Hf).
    assert (∀ col, base.filter (λ s, s_file s = f_id f ∧ s_column s = col)
      (nf_pk_row lake w :: nf_lsn_row lake w :: nf_other w) = []) as Hn.
    { intros col. apply filter_none. intros s Hs [E _].
      apply elem_of_cons in Hs as [->|Hs]; [by apply F1 |].
      apply elem_of_cons in Hs as [->|Hs]; [by apply F1 |].
      apply F1. rewrite <- E. apply Ho, Hs. }
    assert (base.filter (λ b, b_file b = f_id f ∧ b_column b = FIELD_ID_PK) (nf_bloom_rows w) = [])
      as Hb.
    { apply filter_none. unfold nf_bloom_rows. destruct (nf_bloom w); [| by intros ? ?%elem_of_nil].
      intros b ->%list_elem_of_singleton [E _]. by apply F1. }
    rewrite !filter_app, !Hn, Hb, !app_nil_r. done.
  - rewrite filter_all by (by intros f ->%list_elem_of_singleton).
    csimpl. rewrite !filter_app, !(filter_none _ (ducklake_file_column_stats _)), filter_none;
      try (intros ? H' [? _]; first [by eapply F2 | by eapply F3]).
    assert (base.filter (λ s, s_file s = nf_id w ∧ s_column s = FIELD_ID_PK)
      (nf_pk_row lake w :: nf_lsn_row lake w :: nf_other w) = [nf_pk_row lake w]) as ->.
    { apply filter_keep; [done | intros [_ H0]; discriminate H0 |].
      intros s Hs [_ E]. by destruct (Ho s Hs) as (_ & _ & ? & ?). }
    assert (base.filter (λ s, s_file s = nf_id w ∧ s_column s = FIELD_ID_LSN)
      (nf_pk_row lake w :: nf_lsn_row lake w :: nf_other w) = [nf_lsn_row lake w]) as ->.
    { apply filter_keep_2; [intros [_ H0]; discriminate H0 | done |].
      intros s Hs [_ E]. by destruct (Ho s Hs) as (_ & _ & ? & ?). }
    rewrite filter_all.
    + unfold nf_bloom_rows, new_bloom. by destruct (nf_bloom w).
    + unfold nf_bloom_rows. destruct (nf_bloom w); [| by intros ? ?%elem_of_nil].
      by intros b ->%list_elem_of_singleton.
Qed.

(** The entry the index will have for the new file. *)
Definition new_entry (w : new_file) (rows : list row) (lo hi : bytes) : FileEntry :=
  mk_file_entry (key_prefix lake +:+ nf_path w) (rows_max rows) lo hi
    (as_u64 (nf_size w)) (as_u64 (nf_count w))
    (match new_bloom w with Some b => from_base64 base64_decode b | None => None end).

Lemma new_entry_loads w rows lo hi :
  hex_decode (nf_pk_min w) = inl lo → hex_decode (nf_pk_max w) = inl hi →
  parse_u64 (nf_lsn_max w) = Some (rows_max rows) →
  load_row (nf_row lake w, nf_pk_row lake w, nf_lsn_row lake w, new_bloom w) =
    Some (Ok (new_entry w rows lo hi)).
Proof.
  intros Hlo Hhi Hp. unfold Index.load_row, decode_hex, new_entry. simpl.
  by rewrite Hlo, Hhi, Hp.
Qed.

Lemma new_entry_describes l l' rows w lo hi :
  published l l' rows w → StronglySorted bytes_lt (r_pk <$> rows) →
  (∀ r, r ∈ rows → bytes_le lo (r_pk r) ∧ bytes_le (r_pk r) hi) →
  describes (content (lh_store l')) (new_entry w rows lo hi) rows.
Proof.
  intros B Hs Hb.
  assert (content (lh_store l') (entry_path (new_entry w rows lo hi)) = nf_groups w) as Hc
    by exact (pb_new _ _ _ _ _ _ _ _ _ B).
  pose proof (pb_rows _ _ _ _ _ _ _ _ _ B) as Hr.
  assert (file_rows path_from (bucket lake) (content (lh_store l')) (new_entry w rows lo hi) =
    prow_of <$> rows) as Hf by (unfold file_rows; by rewrite Hc).
  assert (∀ x, x ∈ prow_of <$> rows → ∃ r, r ∈ rows ∧ p_pk x = r_pk r) as Hin.
  { intros x (r & -> & ?)%list_elem_of_fmap. by exists r. }
  split; [| split; [done | done]]. split; [| split].
  - unfold file_ordered. rewrite Hc. apply exact_groups_ordered; [| by apply (pb_stats _ _ _ _ _ _ _ _ _ B)].
    rewrite Hr, <- list_fmap_compose. exact Hs.
  - rewrite Hf. intros x Hx. destruct (Hin x Hx) as (r & Hr' & ->). by apply Hb.
  - rewrite Hf. unfold new_entry, new_bloom. simpl.
    destruct (nf_bloom w) as [[b|]|] eqn:Ew; [| done | done]. simpl.
    destruct (from_base64 base64_decode b) as [bl|] eqn:Eb; [| done].
    split; [by eapply from_base64_wf |]. intros x Hx. destruct (Hin x Hx) as (r & Hr' & ->).
    by apply (pb_bloom _ _ _ _ _ _ _ _ _ B b bl Ew Eb).
Qed.

Lemma new_stats_file l l' rows w s :
  published l l' rows w → s ∈ nf_pk_row lake w :: nf_lsn_row lake w :: nf_other w →
  s_file s = nf_id w ∧ s_table s = table_id lake.
Proof.
  intros B. pose proof (pb_other _ _ _ _ _ _ _ _ _ B) as Ho. rewrite Forall_forall in Ho.
  intros [->|[->|Hs]%elem_of_cons]%elem_of_cons; [done | done |].
  by destruct (Ho s Hs) as (? & ? & _).
Qed.

Lemma catalog_wf_add l l' rows w :
  published l l' rows w → rows_max rows < 2 ^ 63 →
  catalog_wf lake (pg_catalog (lh_pg l)) → catalog_wf lake (pg_catalog (lh_pg l')).
Proof.
  intros B Hmax Hwf. rewrite (pb_catalog _ _ _ _ _ _ _ _ _ B).
  pose proof (pb_id _ _ _ _ _ _ _ _ _ B) as F1. pose proof (pb_id_stats _ _ _ _ _ _ _ _ _ B) as F2.
  pose proof (λ s, new_stats_file _ _ _ _ s B) as F3.
  split; simpl.
  - intros f s [Hf|Hf%list_elem_of_singleton]%elem_of_app [Hs|Hs]%elem_of_app Hlive E.
    + by apply (wf_table _ _ Hwf).
    + destruct (F3 s Hs) as [E' _]. destruct (F1 f Hf). congruence.
    + subst f. by destruct (F2 s Hs).
    + subst f. by destruct (F3 s Hs).
  - intros f s [Hf|Hf%list_elem_of_singleton]%elem_of_app [Hs|Hs]%elem_of_app Ht Hlive E Hcol.
    + destruct (wf_pk _ _ Hwf f s Hf Hs Ht Hlive E Hcol) as (s' & Hs' & ?).
      exists s'. split; [| done]. apply elem_of_app. by left.
    + destruct (F3 s Hs) as [E' _]. destruct (F1 f Hf). congruence.
    + subst f. by destruct (F2 s Hs).
    + subst f. exists (nf_pk_row lake w). split; [| done]. apply elem_of_app. right. by left.
  - intros s x n [Hs|Hs]%elem_of_app Ht Hcol Hx Hn; [by eapply (wf_lsn _ _ Hwf s) |].
    apply elem_of_cons in Hs as [->|Hs]; [done |]. apply elem_of_cons in Hs as [->|Hs].
    + injection Hx as <-. pose proof (pb_lsn _ _ _ _ _ _ _ _ _ B) as Hp. simpl in Hp.
      assert (n = rows_max rows) by congruence. by subst.
    + pose proof (pb_other _ _ _ _ _ _ _ _ _ B) as Ho. rewrite Forall_forall in Ho.
      by destruct (Ho s Hs) as (_ & _ & _ & ?).
Qed.

Lemma old_entries_describe l l' rows w es files :
  published l l' rows w →
  Forall (λ e, ∃ f, f ∈ ducklake_data_file (pg_catalog (lh_pg l)) ∧ entry_path e = file_path f) es →
  Forall2 (describes (content (lh_store l))) es files →
  Forall2 (describes (content (lh_store l'))) es files.
Proof.
  intros B Hin Hd. induction Hd as [|e rs es files He Hd IH]; [constructor |].
  apply Forall_cons in Hin as [(f & Hf & E) Hin]. constructor; [| by apply IH].
  eapply describes_ext; [| exact He]. rewrite E.
  apply (pb_old _ _ _ _ _ _ _ _ _ B). by apply (pb_path _ _ _ _ _ _ _ _ _ B).
Qed.

Lemma files_max_describes cont es files e :
  Forall2 (describes cont) es files → e ∈ es → fe_watermark e ≤ files_max files.
Proof.
  intros Hd He. rewrite <- max_of_rows, <- (watermarks_of_files _ _ _ Hd).
  apply max_of_ge. by apply list_elem_of_fmap_2.
Qed.

(** A committed publish adds one file, the newest. *)
Lemma holds_published l l' files rows w :
  holds l files → publishable files rows → published l l' rows w → holds l' (files ++ [rows]).
Proof.
  intros [Hres Hwf (listed & es & Hl & Hp & Hd & Ha)] (Hne & Hs & Hlsn) B.
  pose proof (rows_max_above _ _ Hne Hlsn) as [Hmax1 Hmax2].
  pose proof (pb_catalog _ _ _ _ _ _ _ _ _ B) as Hc.
  destruct (pb_bounds _ _ _ _ _ _ _ _ _ B) as (lo & hi & Hlo & Hhi & Hb).
  split.
  - rewrite Hc. exact Hres.
  - by eapply catalog_wf_add.
  - exists (listed ++ [new_entry w rows lo hi]), (es ++ [new_entry w rows lo hi]). split_and!.
    + rewrite (index_rows_add _ _ _ _ B). apply Forall2_app; [done |].
      repeat constructor. apply new_entry_loads; [done | done | by apply (pb_lsn _ _ _ _ _ _ _ _ _ B)].
    + by rewrite Hp.
    + apply Forall2_app; [eapply old_entries_describe; [exact B | by eapply entries_listed | done] |].
      repeat constructor; by eapply new_entry_describes.
    + apply StronglySorted_app. split_and!; [| done | repeat constructor].
      intros x y Hx Hy. apply list_elem_of_singleton in Hy as ->. simpl.
      pose proof (files_max_describes _ _ _ _ Hd Hx). lia.
Qed.

Lemma holds_untouched l l' files : holds l files → untouched l l' → holds l' files.
Proof.
  intros [H1 H2 (listed & es & Hl & Hp & Hd & Ha)] [Hc Hs]. split; rewrite ?Hc; [done | done |].
  exists listed, es. split_and!; try done. by eapply describes_all.
Qed.

(** An index stays true when the store and the catalog are read, and when a file is added. *)
Lemma indexes_store (l : lakehouse St) s i files :
  (∀ p, content s p = content (lh_store l) p) → indexes l i files → indexes (set_lh_store s l) i files.
Proof. intros H (es & -> & Hd & Ha & Hin). exists es. split_and!; try done. by eapply describes_all. Qed.

Lemma indexes_pg l d i files :
  pg_catalog d = pg_catalog (lh_pg l) → indexes l i files → indexes (set_lh_pg d l) i files.
Proof. intros H (es & -> & Hd & Ha & Hin). exists es. simpl. by rewrite H. Qed.

Lemma indexes_untouched l l' i files : indexes l i files → untouched l l' → indexes l' i files.
Proof.
  intros (es & -> & Hd & Ha & Hin) [Hc Hs]. exists es. rewrite Hc. split_and!; try done.
  by eapply describes_all.
Qed.

Lemma indexes_published l l' rows w i files : published l l' rows w → indexes l i files → indexes l' i files.
Proof.
  intros B (es & -> & Hd & Ha & Hin). exists es. split; [done |]. split; [by eapply old_entries_describe |].
  split; [done |]. rewrite (pb_catalog _ _ _ _ _ _ _ _ _ B). eapply Forall_impl; [exact Hin |].
  intros e (f & Hf & E). exists f. split; [| done]. simpl. apply elem_of_app. by left.
Qed.

(** * The contract *)

Abbreviation lakehouse_columnar := (lakehouse_columnar path_from load_meta read_group hex_decode
  base64_decode pg_bigint duckdb cfg lake).

Lemma on_pg_reads {A} (m : M pg A) v l r l' :
  reads_at (pg_catalog (lh_pg l)) m v → on_pg m l = (r, l') →
  ∃ d, l' = set_lh_pg d l ∧ pg_catalog d = pg_catalog (lh_pg l) ∧
    (r = v ∨ (∃ e, r = Err e) ∧ ¬ lh_quiet l) ∧ (lh_quiet l → lh_quiet l').
Proof.
  intros Hm Hrun. unfold on_pg, m_zoom in Hrun. destruct (m (lh_pg l)) as [r0 d] eqn:E.
  injection Hrun as <- <-. destruct (Hm _ _ _ eq_refl E) as (Hc & Hr & Hq).
  exists d. split; [done |]. split; [done |]. split.
  - destruct Hr as [->|[He Hf]]; [by left |]. right. split; [done |]. by intros [? _].
  - intros [H1 H2]. split; [by apply Hq | done].
Qed.

Lemma connect_keeps l files r l' :
  holds l files → connect_lake cfg l = (r, l') →
  holds l' files ∧ (lh_quiet l → r = Ok tt ∧ lh_quiet l').
Proof.
  intros Hh Hrun. unfold connect_lake in Hrun.
  apply bind_inv in Hrun as [(h & l1 & E & Hrun)|(e & E & ->)];
    destruct (on_pg_reads _ _ _ _ _ (connect_resolves _ (ho_resolves _ _ Hh)) E)
      as (d & -> & Hc & Hr & Hq).
  - injection Hrun as <- <-. split; [by apply holds_pg | auto].
  - split; [by apply holds_pg |]. intros Q. by destruct Hr as [?|[_ ?]].
Qed.

Lemma watermark_keeps (D : documented) l files r l' :
  holds l files → on_pg (published_watermark pg_bigint lake) l = (r, l') →
  holds l' files ∧ (∀ i fs, indexes l i fs → indexes l' i fs) ∧ (∀ w, r = Ok w → w = files_max files) ∧ (lh_quiet l → is_ok r = true ∧ lh_quiet l').
Proof.
  intros Hh E. destruct (on_pg_reads _ _ _ _ _ (published_watermark_reads D _ _ Hh) E)
    as (d & -> & Hc & Hr & Hq).
  split; [by apply holds_pg |]. split; [intros; by apply indexes_pg |]. split.
  - intros w ->. by destruct Hr as [[= ->]|[[e [=]] _]].
  - intros Q. split; [| auto]. by destruct Hr as [->|[_ ?]].
Qed.

Lemma load_keeps l files r l' :
  holds l files → unwrap (on_pg (load hex_decode base64_decode lake)) l = (r, l') →
  holds l' files ∧ (∀ i fs, indexes l i fs → indexes l' i fs) ∧
  (∀ i, r = Ok i → indexes l' i files) ∧ (lh_quiet l → is_ok r = true ∧ lh_quiet l').
Proof.
  intros Hh Hrun. destruct (load_reads _ _ Hh) as (i & Hi & Hidx). unfold unwrap in Hrun.
  apply bind_inv in Hrun as [(o & l1 & E & Hrun)|(e & E & ->)];
    destruct (on_pg_reads _ _ _ _ _ Hi E) as (d & -> & Hc & Hr & Hq).
  - destruct Hr as [[= ->]|[[e [=]] _]]. injection Hrun as <- <-.
    split; [by apply holds_pg |]. split; [intros; by apply indexes_pg |].
    split; [intros i' [= <-]; by apply indexes_pg | auto].
  - split; [by apply holds_pg |]. split; [intros; by apply indexes_pg |]. split; [done |]. intros Q. by destruct Hr as [?|[_ ?]].
Qed.

Lemma get_keeps (D : documented) l files i fs k r l' :
  holds l files → indexes l i fs →
  unwrap (on_objects (get path_from load_meta read_group (bucket lake) i k)) l = (r, l') →
  holds l' files ∧ (∀ j fs, indexes l j fs → indexes l' j fs) ∧
  (∀ x, r = Ok x → x = files_get k (reverse fs)) ∧ (lh_quiet l → is_ok r = true ∧ lh_quiet l').
Proof.
  intros Hh (es & -> & Hd & Ha & Hin) Hrun. unfold unwrap in Hrun.
  assert (Forall2 (describes (content (lh_store l))) (reverse es) (reverse fs)) as Hd'
    by (by apply Forall2_reverse).
  apply bind_inv in Hrun as [(o & l1 & E & Hrun)|(e & E & ->)];
    unfold on_objects, m_zoom in E;
    destruct (get _ _ _ _ _ _ (lh_store l)) as [r0 st] eqn:Eg; injection E as -> <-;
    destruct (get_scan _ _ _ _ _ (reading l) _ _ _ _ _ (reading_content D l)
      (conj (λ _, eq_refl) (λ q, q)) (index_sound _ _ _ Hd) Eg) as [[Hc Hq] Hr];
    (assert (holds (set_lh_store st l) files) as Hh' by (by apply holds_store));
    (assert (∀ j fs, indexes l j fs → indexes (set_lh_store st l) j fs) as Hi'
      by (intros; by apply indexes_store)).
  - simpl in Hr. subst o. injection Hrun as <- <-. split_and!; try done.
    + intros x [= <-]. by apply scan_files_get with (cont := content (lh_store l)).
    + intros [Q1 Q2]. split; [done | split; [done | by apply Hq]].
  - split_and!; try done. intros [Q1 Q2]. by destruct (quiet_no_io_error D l e Q2).
Qed.

Lemma publish_keeps (D : documented) l files staging bs rows r l' :
  holds l files → read_parquet bs = Some rows → publishable files rows →
  run_publish duckdb cfg staging bs l = (r, l') →
  (∀ i fs, indexes l i fs → indexes l' i fs) ∧
  (holds l' files ∧ r ≠ Ok tt ∨ holds l' (files ++ [rows])) ∧
  (lh_quiet l → r = Ok tt ∧ lh_quiet l').
Proof.
  intros Hh Hp Hpub Hrun. unfold run_publish in Hrun.
  destruct (duckdb _ bs l) as [child l1] eqn:E. injection Hrun as <- <-.
  pose proof Hpub as (Hne & Hs & Hlsn).
  assert (Forall (λ r, 0 ≤ r_lsn r < 2 ^ 63) rows) as Hrange.
  { eapply Forall_impl; [exact Hlsn |]. intros x [? ?]. pose proof (files_max_nonneg files). lia. }
  destruct (doc_insert D _ _ _ _ _ _ Hp Hne Hs Hrange E) as [Hcase Hq].
  destruct Hcase as [[Hu Hr]|[w B]].
  - split; [intros; by eapply indexes_untouched |]. split; [| done].
    left. split; [by eapply holds_untouched | done].
  - split; [intros; by eapply indexes_published |]. split; [| done]. right. by eapply holds_published.
Qed.

Lemma index_watermark_keeps l i files : indexes l i files → index_watermark i = files_max files.
Proof.
  intros (es & -> & Hd & Ha & _). rewrite <- max_of_rows, <- (watermarks_of_files _ _ _ Hd).
  rewrite <- (sort_listed es es (reflexivity es) Ha). apply index_watermark_max.
  clear Ha. induction Hd as [|e rows es files (_ & _ & Hw) _ IH]; constructor; [| done].
  rewrite Hw. clear. induction rows; simpl; lia.
Qed.

Lemma index_len_keeps l i files : indexes l i files → index_len i = zlen files.
Proof.
  intros (es & -> & Hd & _). unfold index_len, zlen. by rewrite length_reverse, (Forall2_length _ _ _ Hd).
Qed.

(** The instance: the engine's contract, from what is documented. *)
Definition lakehouse_laws (D : documented) :
    @ColumnarLaws (lakehouse St) FileIndex lakehouse_columnar read_parquet :=
  @Build_ColumnarLaws (lakehouse St) FileIndex lakehouse_columnar read_parquet
    holds indexes lh_quiet connect_keeps (watermark_keeps D) load_keeps index_watermark_keeps index_len_keeps
    (get_keeps D) (publish_keeps D).
End laws.
