(* ===== verification/DuckModel.v ===== *)
(** An executable object store and an executable DuckDB insert, for the examples: a
    store that maps paths to row groups, and a process that writes the staged rows as
    one file of two-row groups and commits it. They are what [LakehouseProps.v] takes
    from the documentation, so the whole stack can be run. *)

From Stdlib Require Import Ascii.
From stdpp Require Import stringmap.
From S2P Require Import Latency.
From S2P Require Import Prelude RecordModel Fs Instances Memtable Flush Columnar Engine.
From S2P Require Import LakeModel Catalog Bloom Index IndexProps Read ReadProps Lakehouse LakehouseProps.

(** * The store *)

Definition objects : Type := gmap string (list (pk_stats * list (list prow))).

Definition groups_at (st : objects) (p : string) : list (pk_stats * list (list prow)) :=
  default [] (st !! p).
Definition read_meta (p : string) (_ : Z) : M objects (list pk_stats) :=
  action (λ st, (Ok (groups_at st p).*1, st)).
Definition read_rows_of (p : string) (_ : Z) (i : nat) : M objects (list (list prow)) :=
  action (λ st, (ok_or ((groups_at st p).*2 !! i) (Parquet "no such row group"), st)).

(** * The insert *)

Definition hex_char (d : Z) : ascii := if d <? 10 then digit_ascii d else ascii_of_N (Z.to_N (87 + d)).
Fixpoint hex_of (bs : bytes) : list ascii :=
  match bs with
  | [] => []
  | b :: bs => hex_char (byte_val b / 16) :: hex_char (byte_val b mod 16) :: hex_of bs
  end.
Definition hex_encode (bs : bytes) : string := str_of_list (hex_of bs).

Fixpoint pairs {A} (l : list A) : list (list A) :=
  match l with
  | [] => []
  | [a] => [[a]]
  | a :: b :: l => [a; b] :: pairs l
  end.

Definition keys_bounds (ks : list bytes) : option bytes * option bytes := (head ks, last ks).
Definition row_group (rs : list prow) : pk_stats * list (list prow) :=
  (Some (keys_bounds (p_pk <$> rs)), [rs]).

Definition fresh_id (c : catalog) : Z :=
  1 + foldr Z.max 0 ((f_id <$> ducklake_data_file c) ++ (s_file <$> ducklake_file_column_stats c) ++
    (b_file <$> ducklake_file_column_blooms c)).
Definition fresh_path (c : catalog) : string :=
  fresh_string_of_set "f" (list_to_set (f_path <$> ducklake_data_file c)).

Definition insert_of (c : catalog) (rows : list row) : new_file :=
  let ks := r_pk <$> rows in
  mk_new_file (fresh_id c) (fresh_path c) 1000 (zlen rows)
    (hex_encode (default [] (head ks))) (hex_encode (default [] (last ks)))
    (Some (fmt_020 0)) (fmt_020 (rows_max rows)) [] None
    (row_group <$> pairs (prow_of <$> rows)).

(** The settings of the examples and the table they resolve to. *)
Definition duck_catalog : CatalogConfig :=
  mk_catalog_config "host=127.0.0.1 dbname=holy_grail" "main" "kv" "s3://warehouse/hg/".
Definition duck_cfg : Config :=
  mk_config "wal" 1024 1000 2
    (mk_s3 "http://localhost:9000" "warehouse" "admin" "password" "us-east-1") duck_catalog
    (mk_duckdb "duckdb" 8192 true) profile_none 4096.
Definition duck_lake : DuckLake := mk_ducklake 1 "warehouse" "hg/main/kv/".

(** The process: it reads the staged rows and commits the file. *)
Definition duckdb_insert (_ : string) (bs : bytes) (l : lakehouse objects) :
    process * lakehouse objects :=
  match read_rows bs with
  | None => (Exited (Some 1) "not a Parquet file", l)
  | Some rows =>
    let w := insert_of (pg_catalog (lh_pg l)) rows in
    (Exited (Some 0) empty_str,
     mk_lakehouse (mk_pg (add_file duck_lake w (pg_catalog (lh_pg l))) (pg_faults (lh_pg l)))
       (<[file_path id duck_lake (nf_row duck_lake w) := nf_groups w]> (lh_store l)))
  end.

(** The lake after the bootstrap: the table and its columns, no file. *)
Definition bootstrapped : lakehouse objects :=
  mk_lakehouse
    (mk_pg (mk_catalog [mk_table_row 1 0 "kv" "kv/" None] [mk_schema_row 0 "main" "main/" None]
      [mk_column_row 1 1 "pk" "blob" 1 None; mk_column_row 2 1 "lsn" "int64" 2 None;
       mk_column_row 3 1 "op" "int32" 3 None; mk_column_row 4 1 "value" "blob" 4 None]
      [] [] []) [])
    ∅.

(** * They do what is documented *)

Lemma hex_digit_char d : 0 ≤ d < 16 → hex_digit (hex_char d) = Some d.
Proof.
  intros Hd. assert (d ∈ seqZ 0 16) as Hin by (apply elem_of_seqZ; lia). revert d Hin Hd.
  refine (proj1 (Forall_forall _ _) _). repeat (constructor; [intros _; reflexivity |]). constructor.
Qed.

Lemma hex_std_encode bs : hex_std (hex_encode bs) = inl bs.
Proof.
  unfold hex_std, hex_encode. rewrite list_of_str_of.
  assert (hex_pairs (hex_of bs) = Some bs) as ->; [| done].
  induction bs as [|b bs IH]; [done |]. cbn [hex_of hex_pairs].
  pose proof (byte_val_range b) as Hb.
  rewrite !hex_digit_char by (split; [apply Z.div_pos || apply Z.mod_pos_bound; lia |
    apply Z.div_lt_upper_bound || apply Z.mod_pos_bound; lia]).
  simpl. rewrite IH. simpl. f_equal. f_equal.
  rewrite <- (Z.div_mod (byte_val b) 16) by lia. apply byte_of_val.
Qed.

Lemma foldr_max_ge l x : x ∈ l → x ≤ foldr Z.max 0 l.
Proof. induction 1; simpl; lia. Qed.

Lemma fresh_id_new c x :
  x ∈ (f_id <$> ducklake_data_file c) ++ (s_file <$> ducklake_file_column_stats c) ++
    (b_file <$> ducklake_file_column_blooms c) → x ≠ fresh_id c.
Proof. intros H%foldr_max_ge. unfold fresh_id. lia. Qed.

Lemma fresh_path_new c f : f ∈ ducklake_data_file c → f_path f ≠ fresh_path c.
Proof.
  intros Hf E. apply (fresh_string_of_set_fresh (list_to_set (f_path <$> ducklake_data_file c)) "f").
  fold (fresh_path c). rewrite <- E. apply elem_of_list_to_set. by apply list_elem_of_fmap_2.
Qed.

Lemma duck_path f : file_path id duck_lake f = "hg/main/kv/" +:+ f_path f.
Proof. reflexivity. Qed.

Lemma duck_path_inj f g : file_path id duck_lake f = file_path id duck_lake g → f_path f = f_path g.
Proof. rewrite !duck_path. apply (inj (String.app _)). Qed.

Lemma concat_pairs {A} (l : list A) : concat (pairs l) = l.
Proof.
  assert (∀ n (l : list A), (length l ≤ n)%nat → concat (pairs l) = l) as H; [| by apply (H (length l))].
  clear l. induction n as [|n IH]; intros [|a [|b l]] Hl; simpl in *; try done; try lia.
  rewrite IH by lia. done.
Qed.

Lemma pairs_spec {A} (l : list A) c : c ∈ pairs l → (∃ a, c = [a]) ∨ ∃ a b, c = [a; b].
Proof.
  assert (∀ n (l : list A), (length l ≤ n)%nat → c ∈ pairs l → (∃ a, c = [a]) ∨ ∃ a b, c = [a; b]) as H;
    [| by apply (H (length l))].
  clear l. induction n as [|n IH]; intros [|a [|b l]] Hl; simpl in *; try lia;
    rewrite ?elem_of_cons, ?elem_of_nil; [done | done | naive_solver |].
  intros [->|Hc]; [by eauto |]. by apply (IH l); [lia |].
Qed.

Lemma pairs_sublist {A} (l : list A) c : c ∈ pairs l → sublist c l.
Proof.
  assert (∀ n (l : list A), (length l ≤ n)%nat → c ∈ pairs l → sublist c l) as H;
    [| by apply (H (length l))].
  clear l. induction n as [|n IH]; intros [|a [|b l]] Hl; simpl in *; try lia;
    rewrite ?elem_of_cons, ?elem_of_nil; [done | done | by intros [->|[]] |].
  intros [->|Hc].
  - do 2 apply sublist_skip. apply sublist_nil_l.
  - do 2 apply sublist_cons. by apply (IH l); [lia |].
Qed.

Lemma row_group_exact rs c :
  StronglySorted bytes_lt (p_pk <$> rs) → c ∈ pairs rs → group_exact (row_group c).
Proof.
  intros Hs Hc. unfold group_exact, group_rows, row_group. simpl. rewrite app_nil_r.
  destruct (pairs_spec _ _ Hc) as [[a ->]|(a & b & ->)].
  - exists (p_pk a), (p_pk a). split; [done |]. split; [by left |]. split; [by left |].
    intros r ->%list_elem_of_singleton. split; apply bytes_le_refl.
  - assert (bytes_lt (p_pk a) (p_pk b)) as Hab.
    { apply pairs_sublist in Hc. apply (fmap_sublist p_pk) in Hc.
      pose proof (StronglySorted_sublist _ _ _ Hc Hs) as H. by apply StronglySorted_inv in H as [_ H%Forall_inv]. }
    exists (p_pk a), (p_pk b). split; [done |]. split; [by left |]. split; [by right; left |].
    intros r [->|[->|[]%elem_of_nil]%elem_of_cons]%elem_of_cons;
      (split; [| ]; first [apply bytes_le_refl | by apply bytes_lt_le]).
Qed.

Lemma sorted_bounds ks k :
  StronglySorted bytes_lt ks → k ∈ ks →
  bytes_le (default [] (head ks)) k ∧ bytes_le k (default [] (last ks)).
Proof.
  intros Hs Hk. split.
  - destruct Hs as [|a ks Hs Ha]; [by apply elem_of_nil in Hk |]. simpl.
    apply elem_of_cons in Hk as [->|Hk]; [apply bytes_le_refl |].
    rewrite Forall_forall in Ha. by apply bytes_lt_le, Ha.
  - destruct ks as [|k' ks _] using rev_ind; [by apply elem_of_nil in Hk |].
    rewrite last_snoc. simpl. apply elem_of_app in Hk as [Hk|Hk].
    + apply bytes_lt_le. eapply StronglySorted_app_1_elem_of; [exact Hs | done | by left].
    + apply list_elem_of_singleton in Hk as ->. apply bytes_le_refl.
Qed.

Lemma groups_at_new (st : objects) p gs : groups_at (<[p := gs]> st) p = gs.
Proof. unfold groups_at, objects in *. by rewrite lookup_insert_eq. Qed.

Lemma groups_at_old (st : objects) p q gs : q ≠ p → groups_at (<[p := gs]> st) q = groups_at st q.
Proof. intros Hq. unfold groups_at, objects in *. by rewrite lookup_insert_ne. Qed.

Abbreviation duck_published := (published id hex_std base64_standard duck_lake groups_at).

Lemma insert_published l bs rows child l' :
  read_rows bs = Some rows → StronglySorted bytes_lt (r_pk <$> rows) →
  rows_max rows < 2 ^ 63 →
  duckdb_insert empty_str bs l = (child, l') →
  duck_published l l' rows (insert_of (pg_catalog (lh_pg l)) rows).
Proof.
  intros Hr Hs Hmax E. unfold duckdb_insert in E. rewrite Hr in E. injection E as <- <-.
  split; cbn [lh_store lh_pg pg_catalog].
  - intros f Hf. apply fresh_id_new, elem_of_app. left. by apply list_elem_of_fmap_2.
  - intros f Hf. apply fresh_id_new, elem_of_app. right. apply elem_of_app. left. by apply list_elem_of_fmap_2.
  - intros f Hf. apply fresh_id_new, elem_of_app. right. apply elem_of_app. right. by apply list_elem_of_fmap_2.
  - intros f Hf E%duck_path_inj. by apply (fresh_path_new _ f Hf).
  - done.
  - constructor.
  - exists (default [] (head (r_pk <$> rows))), (default [] (last (r_pk <$> rows))).
    unfold insert_of. cbn [nf_pk_min nf_pk_max]. rewrite !hex_std_encode. split; [done |]. split; [done |]. intros r Hin.
    apply sorted_bounds; [done | by apply list_elem_of_fmap_2].
  - apply parse_fmt_020. split; [| lia]. clear. induction rows; simpl; lia.
  - done.
  - apply groups_at_new.
  - intros p Hp. by apply groups_at_old.
  - unfold insert_of. cbn [nf_groups]. rewrite <- list_fmap_compose, (list_fmap_ext _ id).
    + rewrite list_fmap_id. apply concat_pairs.
    + intros i rs _. unfold compose, group_rows, row_group. simpl. apply app_nil_r.
  - apply Forall_fmap, Forall_forall. intros rs Hrs. simpl. eapply row_group_exact; [| exact Hrs].
    rewrite <- list_fmap_compose. exact Hs.
Qed.

Lemma duck_documented :
  documented id read_meta read_rows_of hex_std base64_standard parse_u64 duckdb_insert duck_cfg
    duck_lake groups_at read_rows (λ _, True).
Proof.
  split.
  - intros p n st r st' [= <- <-]. split; [done |]. split; [by intros m [= <-] | done].
  - intros p n i st r st' [= <- <-]. split; [done |]. split.
    + intros b Hb. by destruct ((groups_at st p).*2 !! i); [injection Hb as <- |].
    + intros _. split; [| done]. rewrite list_lookup_fmap. by intros [g ->].
  - intros x n Hp _. exact Hp.
  - intros l staging bs rows child l' Hr Hne Hs Hl E.
    assert (rows_max rows < 2 ^ 63) as Hmax by (clear -Hl; induction Hl; simpl; lia).
    pose proof (insert_published l bs rows child l' Hr Hs Hmax E) as B.
    unfold duckdb_insert in E. rewrite Hr in E. injection E as <- <-.
    split; [right; by eexists |]. intros [Q _]. done.
Qed.

(** The bootstrapped lake holds no file. *)
Lemma bootstrapped_holds :
  holds id hex_std base64_standard duck_cfg duck_lake groups_at bootstrapped [].
Proof.
  split.
  - exists "main/"%string, "kv/"%string, "hg/"%string. split_and!; vm_compute; reflexivity.
  - split; simpl; intros *; by intros ?%elem_of_nil.
  - exists [], []. split_and!; [constructor | done | constructor | constructor].
Qed.
