(* ===== verification/StackProps.v ===== *)
(** The whole stack: the engine over the catalog, the index and the point read.
    The refinement of a plain map and the read of a publish, from what is documented
    of the third-party code, with runs of the executable model of [DuckModel.v]. *)

From S2P Require Import Prelude RecordModel Fs Instances Wal WalLemmas Memtable MemtableProps.
From S2P Require Import Flush FlushProps Columnar Engine EngineLemmas LakeModel EngineProps.
From S2P Require Import Catalog Bloom Index IndexProps Read ReadProps Lakehouse LakehouseProps.
From S2P Require Import DuckModel.

Section stack.
Context {St P : Type}.
Context (path_from : string → P).
Context (load_meta : P → Z → M St (list pk_stats)).
Context (read_group : P → Z → nat → M St (list (list prow))).
Context (hex_decode : string → bytes + string) (base64_decode : string → option bytes).
Context (pg_bigint : string → option Z).
Context (duckdb : string → bytes → lakehouse St → process * lakehouse St).
Context (cfg : Config) (lake : DuckLake).
Context (content : St → P → list (pk_stats * list (list prow))).
Context (read_parquet : bytes → option (list row)).
Context (store_quiet : St → Prop).
Context (D : documented path_from load_meta read_group hex_decode base64_decode pg_bigint duckdb
  cfg lake content read_parquet store_quiet).

Abbreviation holds := (holds path_from hex_decode base64_decode cfg lake content).
Abbreviation columnar := (lakehouse_columnar path_from load_meta read_group hex_decode
  base64_decode pg_bigint duckdb cfg lake).
Abbreviation laws := (lakehouse_laws path_from load_meta read_group hex_decode base64_decode
  pg_bigint duckdb cfg lake content read_parquet store_quiet D).

Section engine.
Context {T : Type} {SM : SkipMap T} {SML : SkipMapLaws T}.
Context (crc32_hash : bytes → Z) (read_dir : gmap string file → list string).
Context (parquet_head : list Field → bytes) (parquet_batch : RecordBatch → bytes).
Context (parquet_footer : list RecordBatch → bytes).

(** A new installation: no log, and the lake as the bootstrap leaves it. *)
Lemma fresh_durable w :
  fs_files (w_wal w) = ∅ → holds (w_lake w) [] →
  durable (CO := columnar) (COL := laws) crc32_hash w [].
Proof.
  intros Hw Hl. exists [], [], [], []. rewrite Hw.
  split_and!; [apply disk_segs_empty | exact Hl | apply tiers_empty | constructor | done].
Qed.

(** C2: the stack refines a map. The engine runs over the catalog, the index and the
    reader of the code, and over any Postgres, DuckDB, Parquet reader and store that do
    what is documented. From a new installation, any run of writes, reads, flushes,
    failures, crashes and recoveries shows the client what a plain map does when every
    acknowledged write is applied, in order, and each unacknowledged one is or is not. *)
Theorem stack_refines_map
    (A : assumptions (read_parquet := read_parquet) crc32_hash read_dir parquet_head parquet_batch
      parquet_footer cfg) w evs s :
  fs_files (w_wal w) = ∅ → holds (w_lake w) [] →
  run (T := T) (CO := columnar) (COL := laws) crc32_hash read_dir parquet_head parquet_batch
    parquet_footer cfg (Down w) evs s →
  ∃ m, spec_run ∅ evs m ∧ represents (CO := columnar) (COL := laws) crc32_hash cfg s m.
Proof.
  intros Hw Hl Hrun.
  exact (run_refines (COL := laws) _ _ _ _ _ _ A w [] evs s (fresh_durable w Hw Hl) Hrun).
Qed.
End engine.

(** C11: what a publish is for. After a publish that reported success, an index loaded
    from the catalog answers every key from the published rows where they have it and
    from the older files where they do not, through range pruning, blooms and row-group
    statistics, and its watermark is the highest LSN published. *)
Theorem publish_then_read l files staging bs rows l1 i l2 k x l3 :
  holds l files → read_parquet bs = Some rows → publishable files rows →
  run_publish duckdb cfg staging bs l = (Ok tt, l1) →
  unwrap (on_pg (load hex_decode base64_decode lake)) l1 = (Ok i, l2) →
  unwrap (on_objects (get path_from load_meta read_group (bucket lake) i k)) l2 = (Ok x, l3) →
  x = match rows_get k rows with Missing => files_get k (reverse files) | hit => hit end ∧
  index_watermark i = rows_max rows.
Proof.
  intros Hh Hp Hpub E1 E2 E3.
  destruct (publish_keeps _ _ _ _ _ _ _ _ _ _ _ _ D _ _ _ _ _ _ _ Hh Hp Hpub E1) as (_ & [[_ ?]|Hh1] & _); [done |].
  destruct (load_keeps _ _ _ _ _ _ store_quiet _ _ _ _ Hh1 E2) as (Hh2 & _ & Hi & _). specialize (Hi i eq_refl).
  destruct (get_keeps _ _ _ _ _ _ _ _ _ _ _ _ D _ _ _ _ _ _ _ Hh2 Hi E3) as (_ & _ & Hx & _).
  rewrite (Hx x eq_refl), reverse_snoc. split; [done |].
  rewrite (index_watermark_keeps _ _ _ _ _ _ Hi), files_max_app. simpl.
  destruct Hpub as (Hne & _ & Hlsn). pose proof (rows_max_above _ _ Hne Hlsn).
  pose proof (files_max_nonneg files). lia.
Qed.
End stack.

(** * Examples *)

Abbreviation MT := (gmap bytes Entry).
Abbreviation lh := (lakehouse objects).

#[local] Instance duck_columnar : Columnar lh FileIndex :=
  lakehouse_columnar id read_meta read_rows_of hex_std base64_standard parse_u64 duckdb_insert
    duck_cfg duck_lake.
#[local] Instance duck_laws : ColumnarLaws lh FileIndex read_rows :=
  lakehouse_laws _ _ _ _ _ _ _ _ _ _ _ _ duck_documented.

Abbreviation dk_open := (open (T := MT) (L := lh) crc32_ieee read_dir_keys duck_cfg).
Abbreviation dk_put :=
  (put (T := MT) (L := lh) crc32_ieee head_bytes batch_bytes footer_bytes duck_cfg).
Abbreviation dk_flush :=
  (flush_inner (T := MT) (L := lh) head_bytes batch_bytes footer_bytes duck_cfg).
Abbreviation dk_get := (Engine.get (T := MT) (L := lh)).

Lemma duck_assumptions :
  assumptions (read_parquet := read_rows) crc32_ieee read_dir_keys head_bytes batch_bytes
    footer_bytes duck_cfg.
Proof.
  split; [apply crc32_ieee_u32 | apply read_dir_keys_perm | | done | done].
  intros bs _. apply read_rows_staged.
Qed.

Definition installed : world (L := lh) := mk_world (mk_fs ∅ []) (mk_fs ∅ []) bootstrapped.

(** The engine of a successful open. *)
Definition engine_of (r : result (option (engine (T := MT) (I := FileIndex)))) : engine :=
  match r with
  | Ok (Some e) => e
  | _ => mk_engine [] set0
           (mk_wal 0 (mk_bufwriter empty_str []) (mk_segment empty_str 0 0) 0 [] []) 0
  end.

Lemma open_eta (w : world (L := lh)) o :
  o = dk_open w → match o.1 with Ok (Some _) => true | _ => false end = true →
  dk_open w = (Ok (Some (engine_of o.1)), o.2).
Proof. intros <-. by destruct o as [[[e|]|err] w']. Qed.

Lemma call_eta {S1 S2 A} (m : M (S1 * S2) A) st o a :
  o = m st → o.1 = Ok a → m st = (Ok a, (o.2.1, o.2.2)).
Proof. intros <-. by destruct o as [r [x y]]; simpl; intros ->. Qed.

(** Open a new installation, write, flush to the lake, crash, recover, and read the
    key from the published file. *)
Definition run_open := dk_open installed.
Definition run_put := dk_put k1 v1 (engine_of run_open.1, run_open.2).
Definition run_flush := dk_flush None (run_put.2.1, run_put.2.2).
Definition after_crash : world (L := lh) :=
  mk_world (crash_at (λ _, 0%nat) (w_wal run_flush.2.2)) (mk_fs ∅ []) (w_lake run_flush.2.2).
Definition run_reopen := dk_open after_crash.
Definition run_get := dk_get k1 (engine_of run_reopen.1, run_reopen.2).

Example stack_run :
  run_put.1 = Ok 1 ∧ run_flush.1 = Ok (Flushed_Committed 1 1) ∧ run_get.1 = Ok (Some v1).
Proof. vm_compute. repeat split. Qed.

Lemma stack_refines_map_witness :
  ∃ m, spec_run ∅ [Silent; Acked (RecordModel.put k1 1 v1); Silent; Silent; Silent;
                   Read k1 (Some v1)] m.
Proof.
  destruct (stack_refines_map (T := MT) _ _ _ _ _ _ _ _ _ _ _ _ duck_documented crc32_ieee
    read_dir_keys head_bytes batch_bytes footer_bytes duck_assumptions installed
    [Silent; Acked (RecordModel.put k1 1 v1); Silent; Silent; Silent; Read k1 (Some v1)]
    (Up run_get.2.1 run_get.2.2) eq_refl bootstrapped_holds) as (m & Hm & _).
  - apply (run_more _ _ _ _ _ _ _ _ (Up (engine_of run_open.1) run_open.2)).
    { apply step_open, open_eta; [reflexivity | vm_compute; reflexivity]. }
    apply (run_more _ _ _ _ _ _ _ _ (Up run_put.2.1 run_put.2.2)).
    { apply step_put; [split; vm_compute; reflexivity |].
      apply call_eta; [reflexivity | vm_compute; reflexivity]. }
    apply (run_more _ _ _ _ _ _ _ _ (Up run_flush.2.1 run_flush.2.2)).
    { apply (step_flush _ _ _ _ _ _ _ _ (Flushed_Committed 1 1)).
      apply call_eta; [reflexivity | vm_compute; reflexivity]. }
    apply (run_more _ _ _ _ _ _ _ _ (Down after_crash)).
    { apply step_crash. split; [apply crash_at_crash | done]. }
    apply (run_more _ _ _ _ _ _ _ _ (Up (engine_of run_reopen.1) run_reopen.2)).
    { apply step_open, open_eta; [reflexivity | vm_compute; reflexivity]. }
    apply (run_more _ _ _ _ _ _ _ _ (Up run_get.2.1 run_get.2.2)); [| apply run_done].
    apply step_get, call_eta; [reflexivity | vm_compute; reflexivity].
  - by exists m.
Defined.

(** Two rows, published as one file, then looked up. *)
Definition rows12 : list row := [mk_row k1 1 0 (Some v1); mk_row k2 2 0 (Some v2)].
Definition bytes12 : bytes := bytes_of_pos (countable.encode (row_cells <$> rows12)).
Definition run_pub := run_publish duckdb_insert duck_cfg "staging" bytes12 bootstrapped.
Definition run_load := unwrap (on_pg (load hex_std base64_standard duck_lake)) run_pub.2.
Definition loaded : FileIndex := match run_load.1 with Ok i => i | _ => [] end.
Definition run_lookup :=
  unwrap (on_objects (Read.get id read_meta read_rows_of (bucket duck_lake) loaded k2)) run_load.2.

Lemma publish_then_read_witness : run_lookup.1 = Ok (Found v2) ∧ index_watermark loaded = 2.
Proof.
  assert (run_lookup.1 = Ok (Found v2)) as E by (vm_compute; reflexivity).
  split; [exact E |].
  refine (proj2 (publish_then_read _ _ _ _ _ _ _ _ _ _ _ _ duck_documented bootstrapped []
    "staging" bytes12 rows12 run_pub.2 loaded run_load.2 k2 (Found v2) run_lookup.2
    bootstrapped_holds _ _ _ _ _)).
  - vm_compute. reflexivity.
  - split; [done | split; [| repeat constructor]].
    constructor; [constructor; [constructor | constructor] | constructor; [| constructor]].
    vm_compute. reflexivity.
  - assert (run_pub.1 = Ok tt) as <- by (vm_compute; reflexivity). apply surjective_pairing.
  - assert (run_load.1 = Ok loaded) as <- by (vm_compute; reflexivity). apply surjective_pairing.
  - rewrite <- E. apply surjective_pairing.
Defined.
