(* ===== verification/Node.v ===== *)
(** The engine with its read caches ([src/src/engine.rs]): the store, the caches and the
    reader that [open] builds around the engine of [Engine.v], the read through them, and
    the accessors of the counters. [Node] is what a program that embeds the engine calls
    of it; the benchmark is written against it, and [engine_node] implements it. *)

From S2P Require Import Latency Store.
From S2P Require Import Prelude RecordModel Fs Wal Memtable Flush Columnar Engine.
From S2P Require Import Catalog Bloom Index Read Cache Reader.

(** An engine is an [E]; what outlives it, the catalog and the disk, is a [W]. *)
Class Node (E W : Type) : Type := {
  nd_bootstrap : Config → M W unit;
  nd_open : Config → M W E;
  nd_put : Config → bytes → bytes → M (E * W) Lsn;
  nd_delete : Config → bytes → M (E * W) Lsn;
  nd_get : bytes → M (E * W) (option bytes);
  nd_flush : Config → M (E * W) Flushed;
  nd_watermark : E → Lsn;
  nd_file_count : E → Z;
  nd_cache_stats : E → CacheStatsSnapshot;
  nd_store_stats : E → StatsSnapshot;
  nd_reset_stats : E → E;
}.

Section node.
Context {T : Type} {SM : SkipMap T} {L : Type} {CO : Columnar L FileIndex}.
Context (crc32_hash : bytes → Z) (read_dir : gmap string file → list string).
Context (parquet_head : list Field → bytes) (parquet_batch : RecordBatch → bytes).
Context (parquet_footer : list RecordBatch → bytes).
(** A run of the DuckDB binary on a script. *)
Context (duckdb : string → L → process * L).

(** The object store and its client, the generator, the Parquet library. *)
Context {O : ObjectTypes} {S : Type} {OS : Store.ObjectStore S} {R : Type}.
Context (amazon_s3 : string → string → string → string → string → bool → bool → result S).
Context (objects : L → S) (put_objects : S → L → L).
Context (random_range : f64 → f64 → R → f64 * R) (ln exp cos : f64 → f64).
Context (path_of : string → Path) (range_options : Z → Z → GetOptions).
Context (body : GetResult → result bytes) (message : StoreError → string).
Context (path_from : string → string).
Context {Meta : Type} (load : Z → program Meta) (arrow_meta : Meta → result (list pk_stats)).
Context (read_rows : Meta → nat → program (list (list prow))).
Context (bucket : string).

(** [Engine] with its [store], [cache] and [reader]. The objects behind the store are the
    world's: the flush's DuckDB adds to them. *)
Record node : Type := mk_node {
  nd_engine : engine (T := T) (I := FileIndex);
  nd_profile : LatencyProfile;
  nd_stats : Stats;
  nd_cache : ByteCache;
  nd_metadata : MetadataCache (Meta := Meta);
}.
(** The catalog, the disk and the objects, with the thread's generator. *)
Definition host : Type := world (L := L) * machine R.

(** [Engine::open], in its order but for the calls that build the caches, which touch
    nothing else. *)
Definition node_open (cfg : Config) : M host node :=
  store ← m_lift (build amazon_s3 (cfg_s3 cfg) (latency cfg));
  e ← m_zoom fst (λ w h, (w, snd h)) (Engine.open (T := T) crc32_hash read_dir cfg);
  match e with
  | None => m_err panicked
  | Some e =>
    let cache := cache_new (cache_bytes cfg) in
    let metadata := metadata_new in
    mret (mk_node e (profile store) (Store.stats store) cache metadata)
  end.

(** A method of the engine without its caches. *)
Definition on_engine {A} (m : M (engine (T := T) (I := FileIndex) * world (L := L)) A) : M (node * host) A :=
  m_zoom (λ x, (nd_engine x.1, x.2.1))
    (λ y x, (mk_node y.1 (nd_profile x.1) (nd_stats x.1) (nd_cache x.1) (nd_metadata x.1), (y.2, x.2.2))) m.

(** A read through the caches and the store. *)
Definition on_reader {A} (m : M (caches (St := LatencyStore S * machine R) (Meta := Meta)) A) : M (node * host) A :=
  m_zoom
    (λ x, (nd_metadata x.1, (nd_cache x.1,
      (mk_latency_store (objects (w_lake x.2.1)) (nd_profile x.1) (nd_stats x.1), x.2.2))))
    (λ y x, (mk_node (nd_engine x.1) (profile y.2.2.1) (Store.stats y.2.2.1) y.2.1 y.1,
      (set_w_lake (put_objects (inner y.2.2.1) (w_lake x.2.1)) x.2.1, y.2.2.2))) m.

Definition node_get (k : bytes) : M (node * host) (option bytes) :=
  '(n, _) ← m_get;
  match ms_get k (en_memtables (nd_engine n)) with
  | Found v => mret (Some v)
  | Deleted => mret None
  | Missing =>
    l ← on_reader (reader_get
      (shim_get_range random_range ln exp cos path_of range_options body message)
      path_from load arrow_meta read_rows bucket (en_index (nd_engine n)) k);
    match l with
    | None => m_err panicked
    | Some (Found v) => mret (Some v)
    | Some Deleted | Some Missing => mret None
    end
  end.

Definition node_bootstrap (cfg : Config) : M host unit :=
  m_zoom (λ h, w_lake h.1) (λ l h, (set_w_lake l h.1, h.2)) (λ l,
    let '(child, l') := duckdb (bootstrap_script (cfg_duckdb cfg) (cfg_catalog cfg) (cfg_s3 cfg)) l in
    (run_duckdb child, l')).

(** The accessors. [reset_stats] resets the cache's counters and no others. *)
Definition node_file_count (n : node) : Z := co_file_count (en_index (nd_engine n)).
Definition node_cache_stats (n : node) : CacheStatsSnapshot := Cache.cache_stats (nd_cache n).
Definition node_store_stats (n : node) : StatsSnapshot := snapshot (nd_stats n).
Definition node_reset_stats (n : node) : node :=
  mk_node (nd_engine n) (nd_profile n) (nd_stats n) (Cache.reset_stats (nd_cache n)) (nd_metadata n).

#[export] Instance engine_node : Node node host := {
  nd_bootstrap := node_bootstrap;
  nd_open := node_open;
  nd_put cfg k v := on_engine (Engine.put crc32_hash parquet_head parquet_batch parquet_footer cfg k v);
  nd_delete cfg k := on_engine (Engine.delete crc32_hash parquet_head parquet_batch parquet_footer cfg k);
  nd_get := node_get;
  nd_flush cfg := on_engine (Engine.flush parquet_head parquet_batch parquet_footer cfg);
  nd_watermark n := Engine.watermark (nd_engine n);
  nd_file_count := node_file_count;
  nd_cache_stats := node_cache_stats;
  nd_store_stats := node_store_stats;
  nd_reset_stats := node_reset_stats;
}.
End node.
