(* ===== verification/Bench.v ===== *)
(** [src/src/bin/bench.rs], the benchmark: it writes a table, measures the working set of
    a set of keys, sweeps the size of the cache and reports where the latency stays under
    a bar.

    Every failure is an [unwrap] or an [assert!], so [None] is a panic. The engine is any
    [Node]; the generator and the stopwatch are a [G], which [random_index] and [elapsed]
    read. What the program prints is left out but for the report's conclusion, which is a
    [verdict]. *)

From Stdlib Require Import SpecFloat.
From S2P Require Import Latency Settings Store.
From S2P Require Import Prelude Memtable Flush Engine Cache Node.

(** * Constants *)

Definition KEYSPACE : Z := 200000.
Definition FLUSH_EVERY : Z := 10000.
Definition WORKING_SET : nat := Z.to_nat 2000.
Definition VALUE_BYTES : nat := 256.

Definition f_half : f64 := f_div (f_of_Z 1) (f_of_Z 2).
Definition RATIOS : list f64 := f_half :: (f_of_Z <$> [1; 2; 4; 8; 16; 32]).
Definition OLTP_P99 : Z := from_millis 10.

(** [HG_BENCH_READS]. *)
Definition reads (vars : gmap string string) : Z := default 5000 (env_parse vars "HG_BENCH_READS").

Inductive WriteDist : Type := Random | Sequential.

#[export] Instance WriteDist_eq_dec : EqDecision WriteDist.
Proof. solve_decision. Defined.

(** The argument after the first [--write-dist]. *)
Fixpoint dist_of_args (args : list string) : option WriteDist :=
  match args with
  | [] => Some Random
  | a :: args =>
    if decide (a = "--write-dist"%string) then
      match args with
      | v :: _ =>
        if decide (v = "random"%string) then Some Random
        else if decide (v = "sequential"%string) then Some Sequential
        else None
      | [] => None
      end
    else dist_of_args args
  end.

(** The settings of the run. *)
Definition bench_config (dist : WriteDist) (pid tmp : string) (cfg : Config) : Config :=
  let table := "bench_" +:+ (match dist with Random => "rnd" | Sequential => "seq" end) +:+ "_" +:+ pid in
  let c := cfg_catalog cfg in
  mk_config (tmp +:+ "/bench-wal-" +:+ pid) (wal_segment_bytes cfg) (2 ^ 30) (max_frozen_memtables cfg)
    (cfg_s3 cfg) (mk_catalog_config (pg_conn c) (cat_schema c) table (data_path c)) (cfg_duckdb cfg)
    (latency cfg) (cache_bytes cfg).
Definition with_cache (n : Z) (cfg : Config) : Config :=
  mk_config (wal_dir cfg) (wal_segment_bytes cfg) (memtable_max_bytes cfg) (max_frozen_memtables cfg)
    (cfg_s3 cfg) (cfg_catalog cfg) (cfg_duckdb cfg) (latency cfg) n.

(** * Keys *)

(** The digits [k:08] takes of a [u32]. *)
Definition key_width (k : Z) : nat :=
  if k <? 10 ^ 8 then 8 else if k <? 10 ^ 9 then 9 else 10.
Definition key_of (k : Z) : bytes :=
  String.list_byte_of_string ("key" +:+ str_of_list (dec_digits (key_width k) k)).

(** [(0..n).collect()]. *)
Definition range_from (n : Z) : list Z := Z.of_nat <$> seq 0 (Z.to_nat n).

Definition swap {A} (i j : nat) (v : list A) : option (list A) :=
  x ← v !! i; y ← v !! j; Some (<[j := x]> (<[i := y]> v)).

(** * Numbers *)

(** [x as usize]: towards zero, and to the nearest end of the range. *)
Definition f_to_usize (x : f64) : Z :=
  match x with
  | S754_finite false m e =>
    if 0 <=? e then Z.shiftl (Z.pos m) e `min` u64_max else Z.shiftr (Z.pos m) (- e) `min` u64_max
  | S754_infinity false => u64_max
  | _ => 0
  end.

Definition pct (sorted : list Z) (p : f64) : option Z :=
  let i := f_to_usize (f_mul (f_of_Z (zlen sorted)) p) in
  if decide (sorted = []) then None else sorted !! Z.to_nat (i `min` (zlen sorted - 1)).

Definition ms (d : Z) : f64 := f_mul (as_secs_f64 d) (f_of_Z 1000).

(** The literals [0.50], [0.99] and [0.999]. *)
Definition P50 : f64 := f_div (f_of_Z 50) (f_of_Z 100).
Definition P99 : f64 := f_div (f_of_Z 99) (f_of_Z 100).
Definition P999 : f64 := f_div (f_of_Z 999) (f_of_Z 1000).

(** [f64::MIN], [f64::MAX], [f64::max] and [f64::min]. *)
Definition f_min_value : f64 := S754_finite true (2 ^ 53 - 1) 971.
Definition f_max_value : f64 := S754_finite false (2 ^ 53 - 1) 971.
Definition f_max (x y : f64) : f64 :=
  match SFcompare x y with
  | Some Lt => y
  | Some _ => x
  | None => match x with S754_nan => y | _ => x end
  end.
Definition f_min (x y : f64) : f64 :=
  match SFcompare x y with
  | Some Gt => y
  | Some _ => x
  | None => match x with S754_nan => y | _ => x end
  end.

Record Point : Type := mk_point {
  p50 : Z; p99 : Z; p999 : Z; gets_per_read : f64; hit_rate : f64;
}.

(** * The report *)

(** What to optimise at the edge. *)
Inductive advice : Type := Compaction | CacheMisses.

(** [at_edge] is the [if let Some(p)]; [rerun] the advice to run the other distribution. *)
Inductive verdict : Type :=
| EmptyEnvelope
| HoldsThroughout (last_ok : f64)
| Edge (last_ok first_bad : f64) (at_edge : option (Point * advice)) (rerun : bool).

Definition under_bar (p : Point) : bool := p99 p <=? OLTP_P99.

Definition envelope (curve : list (f64 * Point)) (dist : WriteDist) : verdict :=
  let last_ok := foldl f_max f_min_value (base.filter (λ x, under_bar x.2 = true) curve).*1 in
  let first_bad := foldl f_min f_max_value (base.filter (λ x, under_bar x.2 = false) curve).*1 in
  if SFeqb last_ok f_min_value then EmptyEnvelope
  else if SFeqb first_bad f_max_value then HoldsThroughout last_ok
  else
    let at_edge := snd <$> list_find (λ x, SFeqb x.1 first_bad = true) curve in
    Edge last_ok first_bad
      ((λ x, (x.2, if SFltb (f_of_Z 8) (gets_per_read x.2) then Compaction else CacheMisses)) <$> at_edge)
      (bool_decide (is_Some at_edge ∧ dist = Random)).

(** * The runs *)

Section runs.
Context {E W G : Type} {ND : Node E W}.
(** [rand::random_range(0..n)] for a positive [n], and [Instant::elapsed]. *)
Context (random_index : Z → G → Z * G) (elapsed : G → Z * G).

Abbreviation outside := (W * G)%type.
Abbreviation inside := (E * (W * G))%type.

Definition draw_index (n : Z) : Run G Z := λ g, if 0 <? n then Some (random_index n g) else None.

(** [for i in (1..v.len()).rev() { v.swap(i, random_range(0..=i)) }], from [i] down. *)
Fixpoint shuffle_from (i : nat) (v : list Z) : Run G (list Z) :=
  match i with
  | O => mret v
  | S i' =>
    j ← draw_index (Z.of_nat (S i) );
    v ← run_lift (swap i (Z.to_nat j) v);
    shuffle_from i' v
  end.
Definition shuffle (v : list Z) : Run G (list Z) := shuffle_from (length v - 1) v.

(** The loop of [pick_hot], for at most [fuel] turns; [Some None] is that they did not do. *)
Fixpoint pick_hot (keys : list bytes) (fuel : nat) (seen : gset nat) (hot : list bytes) :
    Run G (option (list bytes)) :=
  if decide (length hot < WORKING_SET)%nat then
    match fuel with
    | O => mret None
    | S fuel =>
      i ← draw_index (zlen keys);
      let i := Z.to_nat i in
      if decide (i ∈ seen) then pick_hot keys fuel seen hot
      else
        key ← run_lift (keys !! i);
        pick_hot keys fuel ({[i]} ∪ seen) (hot ++ [key])
    end
  else mret (Some hot).

(** [unwrap()] of a call of the engine. *)
Definition unwrapped {A} (m : M (E * W) A) : Run inside A := λ '(e, (w, g)),
  match m (e, w) with
  | (Ok a, (e, w)) => Some (a, (e, (w, g)))
  | (Err _, _) => None
  end.
Definition ask {A} (f : E → A) : Run inside A := λ x, Some (f x.1, x).
Definition tell (f : E → E) : Run inside unit := λ x, Some (tt, (f x.1, x.2)).
Definition on_ambient {A} (m : Run G A) : Run inside A := λ '(e, (w, g)),
  (λ '(a, g), (a, (e, (w, g)))) <$> m g.
Definition on_ambient_outside {A} (m : Run G A) : Run outside A := λ '(w, g),
  (λ '(a, g), (a, (w, g))) <$> m g.

(** [Engine::open(cfg).await.unwrap()], for the body's duration. *)
Definition with_engine {A} (cfg : Config) (body : Run inside A) : Run outside A := λ '(w, g),
  match nd_open cfg w with
  | (Ok e, w) => (λ '(a, x), (a, x.2)) <$> body (e, (w, g))
  | (Err _, _) => None
  end.

(** [write_table]'s loop, from index [i] on. *)
Fixpoint write_keys (cfg : Config) (value : bytes) (i : Z) (order : list Z) : Run inside (list bytes) :=
  match order with
  | [] => mret []
  | k :: order =>
    let key := key_of k in
    _ ← unwrapped (nd_put cfg key value);
    _ ← (if as_u32 (as_u32 i + 1) mod FLUSH_EVERY =? 0
         then _ ← unwrapped (nd_flush cfg); mret tt else mret tt);
    keys ← write_keys cfg value (i + 1) order;
    mret (key :: keys)
  end.
(** The keys, and the number of files it prints. *)
Definition write_table (cfg : Config) (dist : WriteDist) : Run outside (list bytes * Z) :=
  with_engine cfg (
    let value := replicate VALUE_BYTES Byte.x76 in
    let order := range_from KEYSPACE in
    order ← (if decide (dist = Random) then on_ambient (shuffle order) else mret order);
    keys ← write_keys cfg value 0 order;
    files ← ask nd_file_count;
    mret (keys, files)).

(** [for key in keys { engine.get(key).await.unwrap(); }] *)
Fixpoint get_all (keys : list bytes) : Run inside unit :=
  match keys with
  | [] => mret tt
  | key :: keys => _ ← unwrapped (nd_get key); get_all keys
  end.

(** [calibrate], with [fuel] turns of [pick_hot] allowed; [None] inside is that they did
    not do. *)
Definition calibrate (fuel : nat) (cfg : Config) (keys : list bytes) :
    Run outside (option (Z * list bytes)) :=
  hot ← on_ambient_outside (pick_hot keys fuel ∅ []);
  match hot with
  | None => mret None
  | Some hot =>
    with_engine (with_cache (Z.shiftl 4 30) cfg) (
      _ ← get_all hot;
      cache ← ask nd_cache_stats;
      mret (Some (sn_bytes_resident cache, hot)))
  end.

(** The measured loop: [n] reads from the [i]th on, and their times. *)
Fixpoint measure_reads (hot : list bytes) (i : Z) (n : nat) : Run inside (list Z) :=
  match n with
  | O => mret []
  | S n =>
    key ← run_lift (if decide (hot = []) then None else hot !! Z.to_nat (i mod zlen hot));
    got ← unwrapped (nd_get key);
    t ← on_ambient (λ g, Some (elapsed g));
    match got with
    | None => run_lift None
    | Some _ => ts ← measure_reads hot (i + 1) n; mret (t :: ts)
    end
  end.

Definition measure (reads : Z) (cfg : Config) (cache_bytes : Z) (hot : list bytes) : Run outside Point :=
  with_engine (with_cache cache_bytes cfg) (
    _ ← get_all (take (WORKING_SET `min` length hot) hot);
    _ ← tell nd_reset_stats;
    latencies ← measure_reads hot 0 (Z.to_nat reads);
    let latencies := sort_by Z.leb latencies in
    store ← ask nd_store_stats;
    cache ← ask nd_cache_stats;
    p50 ← run_lift (pct latencies P50);
    p99 ← run_lift (pct latencies P99);
    p999 ← run_lift (pct latencies P999);
    mret (mk_point p50 p99 p999
      (f_div (f_of_Z (sn_gets store)) (f_of_Z reads))
      (f_div (f_of_Z (sn_hits cache)) (f_of_Z (as_u64 (sn_hits cache + sn_misses cache) `max` 1))))).

Fixpoint sweep (reads : Z) (cfg : Config) (working_set : Z) (hot : list bytes) (ratios : list f64) :
    Run outside (list (f64 * Point)) :=
  match ratios with
  | [] => mret []
  | ratio :: ratios =>
    let cache_bytes := f_to_usize (f_div (f_of_Z working_set) ratio) in
    point ← measure reads cfg cache_bytes hot;
    curve ← sweep reads cfg working_set hot ratios;
    mret ((ratio, point) :: curve)
  end.

(** [main], from the arguments and the environment on. *)
Definition bench_main (ln : f64 → f64) (vars : gmap string string) (args : list string)
    (pid tmp : string) (fuel : nat) : Run outside (option verdict) :=
  dist ← run_lift (dist_of_args args);
  cfg ← run_lift (from_env ln vars);
  let cfg := bench_config dist pid tmp cfg in
  _ ← (λ '(w, g), match nd_bootstrap cfg w with (Ok _, w) => Some (tt, (w, g)) | (Err _, _) => None end);
  '(keys, _) ← write_table cfg dist;
  calibrated ← calibrate fuel cfg keys;
  match calibrated with
  | None => mret None
  | Some (working_set, hot) =>
    curve ← sweep (reads vars) cfg working_set hot RATIOS;
    mret (Some (envelope curve dist))
  end.
End runs.
