(* ===== verification/BenchProps.v ===== *)
(** Properties of the benchmark ([src/src/bin/bench.rs]): the keys, the order they are
    written in, the hot set, the percentiles and the report; and its two phases over the
    engine, the table it writes and what a sweep point measures. *)

From Stdlib Require Import SpecFloat.
From S2P Require Import Latency Settings Store StoreProps.
From S2P Require Import Prelude RecordModel Fs Instances Wal WalLemmas Memtable MemtableProps.
From S2P Require Import Flush FlushProps Columnar Engine EngineLemmas LakeModel EngineProps.
From S2P Require Import Catalog Bloom Index Read Cache WorkingSet Reader Node Bench.

(** * Keys *)

Lemma byte_of_ascii_val c : byte_val (Ascii.byte_of_ascii c) = Z.of_N (Ascii.N_of_ascii c).
Proof. by destruct c as [[] [] [] [] [] [] [] []]. Qed.

Lemma bytes_of_string_compare s t :
  bytes_cmp (String.list_byte_of_string s) (String.list_byte_of_string t) = String.compare s t.
Proof.
  revert t. induction s as [|c s IH]; intros [|d t]; try done.
  unfold String.list_byte_of_string in *. cbn [String.list_ascii_of_string map bytes_cmp String.compare].
  rewrite !byte_of_ascii_val, N2Z.inj_compare. unfold Ascii.compare. by rewrite IH.
Qed.

Lemma key_of_compare a b :
  0 ≤ a < 10 ^ 8 → 0 ≤ b < 10 ^ 8 → bytes_cmp (key_of a) (key_of b) = (a ?= b).
Proof.
  intros Ha Hb. unfold key_of, key_width. rewrite !(proj2 (Z.ltb_lt _ _)) by lia.
  rewrite bytes_of_string_compare, compare_app_same. apply dec_digits_compare; lia.
Qed.

Lemma range_from_lookup n i : (i < Z.to_nat n)%nat → range_from n !! i = Some (Z.of_nat i).
Proof. intros Hi. unfold range_from. rewrite list_lookup_fmap, lookup_seq_lt by done. done. Qed.
Lemma elem_of_range_from n k : k ∈ range_from n ↔ 0 ≤ k < n.
Proof.
  unfold range_from. rewrite list_elem_of_fmap. split.
  - intros (i & -> & Hi%elem_of_seq). lia.
  - intros Hk. exists (Z.to_nat k). split; [lia |]. apply elem_of_seq. lia.
Qed.
Lemma range_from_NoDup n : NoDup (range_from n).
Proof. unfold range_from. apply NoDup_fmap; [exact Nat2Z.inj' | apply NoDup_seq]. Qed.

(** The order of the keys is the order of their numbers, up to a hundred million of
    them. So a table written in order is written in the order of its keys, and any two of
    its files hold disjoint ranges of keys, one after the other, which is what makes the
    sequential run the one where pruning works. *)
Theorem sequential_files_disjoint n i j xs ys zs rest :
  n ≤ 10 ^ 8 → range_from n = xs ++ ys ++ zs ++ rest → i ∈ ys → j ∈ zs →
  bytes_lt (key_of i) (key_of j).
Proof.
  intros Hn E Hi Hj. unfold bytes_lt.
  assert (i ∈ range_from n ∧ j ∈ range_from n) as [Hi' Hj'] by (rewrite E; set_solver).
  rewrite elem_of_range_from in Hi', Hj'. rewrite key_of_compare by lia. apply Z.compare_lt_iff.
  apply list_elem_of_lookup in Hi as [p Hp]. apply list_elem_of_lookup in Hj as [q Hq].
  pose proof (lookup_lt_Some _ _ _ Hp). pose proof (lookup_lt_Some _ _ _ Hq).
  assert (range_from n !! (length xs + p)%nat = Some i) as E1.
  { rewrite E, lookup_app_r by lia. rewrite lookup_app_l by lia. rewrite <- Hp. f_equal. lia. }
  assert (range_from n !! (length xs + (length ys + q))%nat = Some j) as E2.
  { rewrite E, lookup_app_r by lia. rewrite lookup_app_r by lia. rewrite lookup_app_l by lia.
    rewrite <- Hq. f_equal. lia. }
  pose proof (lookup_lt_Some _ _ _ E1) as L1. pose proof (lookup_lt_Some _ _ _ E2) as L2.
  assert (length (range_from n) = Z.to_nat n) as El by (unfold range_from; by rewrite length_fmap, length_seq).
  rewrite range_from_lookup in E1, E2 by lia. injection E1 as <-. injection E2 as <-. lia.
Qed.

Lemma sequential_files_disjoint_witness : bytes_lt (key_of 9) (key_of 10).
Proof.
  apply (sequential_files_disjoint 12 9 10 (range_from 8) [8; 9] [10; 11] []);
    [done | reflexivity | set_solver | set_solver].
Defined.

(** * The shuffle *)

(** [swap] by positions. *)
Definition transpose (i j k : nat) : nat := if decide (k = i) then j else if decide (k = j) then i else k.

Lemma swap_lookup {A} i j (v v' : list A) k : swap i j v = Some v' → v' !! k = v !! transpose i j k.
Proof.
  unfold swap. intros (x & Ex & (y & Ey & [= <-])%bind_Some)%bind_Some.
  pose proof (lookup_lt_Some _ _ _ Ex). pose proof (lookup_lt_Some _ _ _ Ey).
  unfold transpose. destruct (decide (k = j)) as [->|Hj].
  - rewrite list_lookup_insert_eq by (rewrite length_insert; lia). case_decide; congruence.
  - rewrite list_lookup_insert_ne by done. case_decide as Hi; [subst k; by rewrite list_lookup_insert_eq |].
    by rewrite list_lookup_insert_ne.
Qed.
Lemma swap_length {A} i j (v v' : list A) : swap i j v = Some v' → length v' = length v.
Proof. unfold swap. intros (x & _ & (y & _ & [= <-])%bind_Some)%bind_Some. by rewrite !length_insert. Qed.
Lemma swap_some {A} i j (v : list A) : (i < length v)%nat → (j < length v)%nat → ∃ v', swap i j v = Some v'.
Proof.
  intros [x Hx]%lookup_lt_is_Some [y Hy]%lookup_lt_is_Some. unfold swap. rewrite Hx. simpl. rewrite Hy. simpl. by eexists.
Qed.
Lemma swap_perm {A} i j (v v' : list A) : swap i j v = Some v' → v' ≡ₚ v.
Proof.
  intros E. apply Permutation_inj. split; [by apply (swap_length i j) |].
  exists (transpose i j). split; [| intros k; by apply swap_lookup].
  intros k1 k2. unfold transpose. repeat case_decide; congruence.
Qed.

(** A source whose draws are written down, and which notes the bounds it is asked for,
    the latest first. *)
Definition scripted (n : Z) (st : list Z * list Z) : Z * (list Z * list Z) :=
  match st with
  | ([], asked) => (0, ([], n :: asked))
  | (j :: js, asked) => (j, (js, n :: asked))
  end.
(** The draws of [shuffle_from i], each below the bound asked for: [i + 1], [i], down to 2. *)
Fixpoint script (i : nat) (js : list Z) : Prop :=
  match i, js with
  | O, [] => True
  | S i', j :: js => 0 ≤ j < Z.of_nat (S i) ∧ script i' js
  | _, _ => False
  end.
(** The bounds, the latest first. *)
Definition bounds (i : nat) : list Z := Z.of_nat <$> seq 2 i.
Abbreviation scripted_from := (shuffle_from scripted).

Lemma bounds_S i : bounds (S i) = bounds i ++ [Z.of_nat (S (S i))].
Proof. unfold bounds. by rewrite seq_S, fmap_app. Qed.

Lemma script_below i js : script i js ↔ Forall2 (λ j n, 0 ≤ j < n) js (reverse (bounds i)).
Proof.
  revert js. induction i as [|i IH]; intros js.
  { change (reverse (bounds 0)) with ([] : list Z). destruct js as [|j js]; simpl; [by split |].
    split; [done | by intros ?%Forall2_nil_inv_r]. }
  rewrite bounds_S, reverse_snoc. destruct js as [|j js]; simpl.
  - split; [done | by intros ?%Forall2_nil_inv_l].
  - rewrite Forall2_cons, IH. done.
Qed.

Lemma shuffle_from_S i v j js asked :
  scripted_from (S i) v (j :: js, asked) =
    match swap (S i) (Z.to_nat j) v with
    | Some v' => scripted_from i v' (js, Z.of_nat (S (S i)) :: asked)
    | None => None
    end.
Proof. cbn [shuffle_from]. unfold mbind, run_bind, draw_index, run_lift. simpl. by destruct (swap _ _ v). Qed.

(** What is asked for does not depend on the draws. *)
Lemma shuffle_from_asks i : ∀ v js asked w js' asked',
  scripted_from i v (js, asked) = Some (w, (js', asked')) → asked' = bounds i ++ asked.
Proof.
  induction i as [|i IH]; intros v js asked w js' asked'; [by intros [= _ _ <-] |].
  cbn [shuffle_from]. unfold mbind, run_bind, draw_index, run_lift.
  rewrite (proj2 (Z.ltb_lt _ _)) by lia. rewrite bounds_S, <- app_assoc.
  destruct js as [|j js]; simpl; destruct (swap _ _ v); simpl; (done || apply IH).
Qed.

Lemma shuffle_from_spec i : ∀ v js asked,
  script i js → (i < length v)%nat →
  ∃ w asked', scripted_from i v (js, asked) = Some (w, ([], asked')) ∧ w ≡ₚ v ∧
    ∀ k, (i < k)%nat → w !! k = v !! k.
Proof.
  induction i as [|i IH]; intros v [|j js] asked Hs Hi; try done; [by exists v, asked |].
  destruct Hs as [Hj Hs]. rewrite shuffle_from_S.
  destruct (swap_some (S i) (Z.to_nat j) v) as [v' Hv']; [lia.. |]. rewrite Hv'.
  pose proof (swap_length _ _ _ _ Hv') as Hl.
  destruct (IH v' js (Z.of_nat (S (S i)) :: asked) Hs ltac:(lia)) as (w & asked' & E & Hp & Hk).
  exists w, asked'. split; [done |]. split.
  - rewrite Hp. by apply (swap_perm (S i) (Z.to_nat j)).
  - intros k Hik. rewrite Hk, (swap_lookup _ _ _ _ k Hv') by lia. unfold transpose.
    by rewrite !decide_False by lia.
Qed.

(** The last draw decides who is last. *)
Lemma shuffle_from_last i v j js asked w asked' :
  script (S i) (j :: js) → (S i < length v)%nat →
  scripted_from (S i) v (j :: js, asked) = Some (w, ([], asked')) →
  w !! S i = v !! Z.to_nat j.
Proof.
  intros [Hj Hs] Hi. rewrite shuffle_from_S.
  destruct (swap_some (S i) (Z.to_nat j) v) as [v' Hv']; [lia.. |]. rewrite Hv'.
  pose proof (swap_length _ _ _ _ Hv') as Hl.
  destruct (shuffle_from_spec i v' js (Z.of_nat (S (S i)) :: asked) Hs ltac:(lia)) as (w' & a' & -> & _ & Hk).
  intros [= <- _].
  rewrite Hk, (swap_lookup _ _ _ _ (S i) Hv') by lia. unfold transpose. by rewrite decide_True.
Qed.

Lemma shuffle_from_inj i : ∀ v js1 js2 asked w a1 a2,
  NoDup v → (i < length v)%nat → script i js1 → script i js2 →
  scripted_from i v (js1, asked) = Some (w, ([], a1)) →
  scripted_from i v (js2, asked) = Some (w, ([], a2)) → js1 = js2.
Proof.
  induction i as [|i IH]; intros v [|j1 js1] [|j2 js2] asked w a1 a2 Hnd Hi Hs1 Hs2 E1 E2; try done.
  pose proof (shuffle_from_last _ _ _ _ _ _ _ Hs1 Hi E1) as L1.
  pose proof (shuffle_from_last _ _ _ _ _ _ _ Hs2 Hi E2) as L2.
  destruct Hs1 as [Hj1 Hs1]. destruct Hs2 as [Hj2 Hs2].
  assert (Z.to_nat j1 = Z.to_nat j2) as Ej.
  { destruct (lookup_lt_is_Some_2 v (Z.to_nat j1) ltac:(lia)) as [x Hx].
    apply (NoDup_lookup v _ _ x Hnd Hx). congruence. }
  assert (j1 = j2) as <- by lia. f_equal. rewrite !shuffle_from_S in *.
  destruct (swap (S i) (Z.to_nat j1) v) as [v'|] eqn:Hv'; [| done].
  apply (IH v' js1 js2 (Z.of_nat (S (S i)) :: asked) w a1 a2); try done.
  - by rewrite (swap_perm _ _ _ _ Hv').
  - rewrite (swap_length _ _ _ _ Hv'). lia.
Qed.

Lemma head_perm (v w : list Z) :
  v ≡ₚ w → (∀ k, (0 < k)%nat → v !! k = w !! k) → v = w.
Proof.
  intros Hp Hk. destruct v as [|x v], w as [|y w].
  - done.
  - by apply Permutation_nil_cons in Hp.
  - symmetry in Hp. by apply Permutation_nil_cons in Hp.
  - assert (v = w) as <- by (apply list_eq; intros k; apply (Hk (S k)); lia).
    assert (x ∈ y :: v) as Hx by (rewrite <- Hp; by left).
    assert (y ∈ x :: v) as Hy by (rewrite Hp; by left).
    destruct (decide (x = y)) as [->|Hne]; [done |].
    assert (count_occ Z.eq_dec (x :: v) x = count_occ Z.eq_dec (y :: v) x) as Hc by (by apply Permutation_count_occ).
    rewrite count_occ_cons_eq, count_occ_cons_neq in Hc by congruence. lia.
Qed.

Lemma shuffle_from_surj i : ∀ v w asked,
  NoDup v → (i < length v)%nat → v ≡ₚ w → (∀ k, (i < k)%nat → v !! k = w !! k) →
  ∃ js asked', script i js ∧ scripted_from i v (js, asked) = Some (w, ([], asked')).
Proof.
  induction i as [|i IH]; intros v w asked Hnd Hi Hp Hk.
  { exists [], asked. by rewrite (head_perm v w Hp Hk). }
  pose proof (Permutation_length Hp) as Hl.
  destruct (lookup_lt_is_Some_2 w (S i) ltac:(lia)) as [x Hx].
  assert (x ∈ v) as Hin by (rewrite Hp; by apply list_elem_of_lookup_2 in Hx).
  apply list_elem_of_lookup in Hin as [j Hj].
  assert (j ≤ S i)%nat as Hji.
  { destruct (decide (j ≤ S i)%nat) as [?|Hgt]; [done |]. exfalso. rewrite (Hk j ltac:(lia)) in Hj.
    assert (NoDup w) as Hw by (by rewrite <- Hp). pose proof (NoDup_lookup w _ _ _ Hw Hx Hj). lia. }
  destruct (swap_some (S i) j v) as [v' Hv']; [lia.. |].
  pose proof (swap_perm _ _ _ _ Hv') as Hp'. pose proof (swap_length _ _ _ _ Hv') as Hl'.
  destruct (IH v' w (Z.of_nat (S (S i)) :: asked)) as (js & asked' & Hs & E); [by rewrite Hp' | lia | by rewrite Hp' | |].
  - intros k Hik. rewrite (swap_lookup _ _ _ _ k Hv'). unfold transpose.
    destruct (decide (k = S i)) as [->|Hne]; [by rewrite Hj, Hx |].
    rewrite decide_False by lia. apply Hk. lia.
  - exists (Z.of_nat j :: js), asked'. split; [split; [lia | done] |].
    by rewrite shuffle_from_S, Nat2Z.id, Hv'.
Qed.

(** C39: the shuffle is fair. Of [n] different keys, at least one, it asks for
    an index below [n], then below [n - 1], down to 2, whatever the draws before. Draws
    within what is asked for give a permutation of the keys, and every permutation comes
    from exactly one such run of draws. So with draws that are uniform below the bound asked for, and independent,
    each order of the keys has the same chance, one in [n!]. *)
Theorem shuffle_fair (v : list Z) :
  NoDup v → v ≠ [] →
  let asks := Z.of_nat <$> reverse (seq 2 (length v - 1)) in
  (∀ js w js' asked, shuffle scripted v (js, []) = Some (w, (js', asked)) → reverse asked = asks) ∧
  (∀ js, Forall2 (λ j n, 0 ≤ j < n) js asks →
     ∃ w asked, shuffle scripted v (js, []) = Some (w, ([], asked)) ∧ w ≡ₚ v) ∧
  (∀ w, w ≡ₚ v →
     ∃ js asked, Forall2 (λ j n, 0 ≤ j < n) js asks ∧
       shuffle scripted v (js, []) = Some (w, ([], asked)) ∧
       ∀ js' asked', Forall2 (λ j n, 0 ≤ j < n) js' asks →
         shuffle scripted v (js', []) = Some (w, ([], asked')) → js' = js).
Proof.
  intros Hnd Hne asks. unfold shuffle.
  assert (asks = reverse (bounds (length v - 1))) as -> by (unfold asks, bounds; by rewrite fmap_reverse).
  assert (length v - 1 < length v)%nat as Hl by (destruct v; [done | simpl; lia]). split; [| split].
  - intros js w js' asked ->%shuffle_from_asks. by rewrite app_nil_r.
  - intros js Hs%script_below. destruct (shuffle_from_spec _ v js [] Hs Hl) as (w & a & E & Hp & _). by exists w, a.
  - intros w Hp. pose proof (Permutation_length Hp) as Hlen.
    destruct (shuffle_from_surj (length v - 1) v w [] Hnd Hl) as (js & a & Hs & E); [done | |].
    { intros k Hk. rewrite !lookup_ge_None_2 by lia. done. }
    exists js, a. split; [by apply script_below |]. split; [done |]. intros js' a' Hs'%script_below E'.
    by apply (shuffle_from_inj (length v - 1) v js' js [] w a' a).
Qed.

Lemma shuffle_fair_witness :
  ∃ js asked, Forall2 (λ j n, 0 ≤ j < n) js [3; 2] ∧
    shuffle scripted [7; 8; 9] (js, []) = Some ([9; 7; 8], ([], asked)).
Proof.
  destruct (shuffle_fair [7; 8; 9] ltac:(repeat constructor; set_solver) ltac:(done)) as (_ & _ & H).
  destruct (H [9; 7; 8]) as (js & asked & Hs & E & _).
  - by rewrite (Permutation_app_comm [9] [7; 8] : [9; 7; 8] ≡ₚ [7; 8; 9]).
  - by exists js, asked.
Defined.

(** Whatever the generator, as long as it stays in range. *)
Lemma shuffle_from_perm {G} (random_index : Z → G → Z * G) i :
  (∀ n g, 0 < n → 0 ≤ (random_index n g).1 < n) →
  ∀ v g, (i < length v)%nat → ∃ w g', shuffle_from random_index i v g = Some (w, g') ∧ w ≡ₚ v.
Proof.
  intros Hr. induction i as [|i IH]; intros v g Hi; [by exists v, g |].
  cbn [shuffle_from]. unfold mbind, run_bind, draw_index, run_lift.
  rewrite (proj2 (Z.ltb_lt _ _)) by lia. pose proof (Hr (Z.of_nat (S (S i))) g ltac:(lia)) as Hj.
  destruct (random_index _ g) as [j g1]. simpl in Hj.
  destruct (swap_some (S i) (Z.to_nat j) v) as [v' Hv']; [lia.. |]. rewrite Hv'. simpl.
  destruct (IH v' g1) as (w & g' & E & Hp); [rewrite (swap_length _ _ _ _ Hv'); lia |].
  exists w, g'. split; [exact E |]. rewrite Hp. by apply (swap_perm (S i) (Z.to_nat j)).
Qed.

(** * The hot set *)

(** The first [n] draws. *)
Fixpoint draws {G} (random_index : Z → G → Z * G) (len : Z) (n : nat) (g : G) : list nat :=
  match n with
  | O => []
  | S n => let '(i, g) := random_index len g in Z.to_nat i :: draws random_index len n g
  end.

Section hot.
Context {G : Type} (random_index : Z → G → Z * G).
Context (in_range : ∀ n g, 0 < n → 0 ≤ (random_index n g).1 < n).
Context (keys : list bytes).

(** The indices drawn so far and the keys at them. *)
Definition chosen (seen : gset nat) (hot : list bytes) : Prop :=
  ∃ idx, NoDup idx ∧ list_to_set idx = seen ∧ Forall2 (λ i key, keys !! i = Some key) idx hot.

Lemma chosen_size seen hot : chosen seen hot → base.size seen = length hot.
Proof.
  intros (idx & Hnd & <- & Hf). rewrite size_list_to_set by done. by apply Forall2_length in Hf.
Qed.
Lemma chosen_more seen hot i key :
  chosen seen hot → i ∉ seen → keys !! i = Some key → chosen ({[i]} ∪ seen) (hot ++ [key]).
Proof.
  intros (idx & Hnd & <- & Hf) Hi Hk. exists (idx ++ [i]). split_and!.
  - apply NoDup_app. split; [done |]. split; [| apply NoDup_singleton].
    intros x Hx ->%list_elem_of_singleton. by apply Hi, elem_of_list_to_set.
  - rewrite list_to_set_app_L. simpl. set_solver.
  - apply Forall2_app; [done |]. by constructor.
Qed.

(** What the loop has done when it returns, in time or out of it. *)
Lemma pick_hot_spec fuel : ∀ seen hot g,
  chosen seen hot → keys ≠ [] → (length hot ≤ WORKING_SET)%nat →
  ∃ o g', pick_hot random_index keys fuel seen hot g = Some (o, g') ∧
    match o with
    | Some hot' => length hot' = WORKING_SET ∧ ∃ seen', chosen seen' hot'
    | None => (base.size (seen ∪ list_to_set (draws random_index (zlen keys) fuel g)) < WORKING_SET)%nat
    end.
Proof.
  induction fuel as [|fuel IH]; intros seen hot g Hc Hne Hle; cbn [pick_hot].
  { destruct (decide _) as [Hlt|Hge]; [| exists (Some hot), g; split; [done | split; [lia | by exists seen]]].
    exists None, g. split; [done |]. simpl. by rewrite union_empty_r_L, (chosen_size _ _ Hc). }
  destruct (decide _) as [Hlt|Hge]; [| exists (Some hot), g; split; [done | split; [lia | by exists seen]]].
  unfold mbind, run_bind, draw_index, run_lift. cbn [draws].
  assert (0 < zlen keys) as Hpos by (destruct keys; [done | unfold zlen; simpl; lia]).
  rewrite (proj2 (Z.ltb_lt _ _)) by done. pose proof (in_range _ g Hpos) as Hi.
  destruct (random_index (zlen keys) g) as [i g1]. cbn [fst] in Hi.
  destruct (decide (Z.to_nat i ∈ seen)) as [Hin|Hnin].
  - destruct (IH seen hot g1 Hc Hne Hle) as (o & g' & E & Ho). exists o, g'. split; [done |].
    destruct o; [done |]. cbn [list_to_set]. by replace (seen ∪ ({[Z.to_nat i]} ∪ _)) with
      (seen ∪ list_to_set (draws random_index (zlen keys) fuel g1)) by set_solver.
  - destruct (lookup_lt_is_Some_2 keys (Z.to_nat i)) as [key Hkey]; [unfold zlen in Hi; lia |].
    rewrite Hkey. simpl.
    destruct (IH ({[Z.to_nat i]} ∪ seen) (hot ++ [key]) g1) as (o & g' & E & Ho);
      [by apply chosen_more | done | rewrite length_app; simpl; lia |].
    exists o, g'. split; [done |]. destruct o; [done |]. cbn [list_to_set].
    by replace (seen ∪ ({[Z.to_nat i]} ∪ _)) with
      ({[Z.to_nat i]} ∪ seen ∪ list_to_set (draws random_index (zlen keys) fuel g1)) by set_solver.
Qed.

Lemma chosen_nil : chosen ∅ [].
Proof. exists []. split; [apply NoDup_nil_2 | done]. Qed.

(** The hot set is a sample without repetition, and drawing it ends. As soon as the draws
    have met as many different positions as the working set has keys, it returns that many
    keys, from positions that are all different; and if the table has fewer keys than the
    working set no number of draws is enough. It never panics while there is a key. *)
Theorem pick_hot_ends fuel g :
  keys ≠ [] →
  (WORKING_SET ≤ base.size (list_to_set (C := gset nat) (draws random_index (zlen keys) fuel g)))%nat →
  (∃ hot g' idx, pick_hot random_index keys fuel ∅ [] g = Some (Some hot, g') ∧
     length hot = WORKING_SET ∧ NoDup idx ∧ Forall2 (λ i key, keys !! i = Some key) idx hot) ∧
  (WORKING_SET ≤ length keys)%nat.
Proof.
  intros Hne Hd.
  destruct (pick_hot_spec fuel ∅ [] g chosen_nil Hne ltac:(simpl; lia)) as (o & g' & E & Ho).
  destruct o as [hot|]; [| rewrite union_empty_l_L in Ho; lia].
  destruct Ho as [Hl (seen & idx & Hnd & Hs & Hf)]. split; [by exists hot, g', idx |].
  assert (list_to_set (C := gset nat) idx ⊆ list_to_set (seq 0 (length keys))) as Hsub.
  { intros i Hi%elem_of_list_to_set. apply elem_of_list_to_set, elem_of_seq.
    apply list_elem_of_lookup in Hi as [n Hn]. destruct (Forall2_lookup_l _ _ _ _ _ Hf Hn) as (key & _ & Hk).
    apply lookup_lt_Some in Hk. lia. }
  apply subseteq_size in Hsub. rewrite !size_list_to_set, length_seq in Hsub by (done || apply NoDup_seq).
  apply Forall2_length in Hf. lia.
Qed.
End hot.

(** A table of as many keys as the working set, drawn in order. *)
Definition in_order (n g : Z) : Z * Z := (g mod n, g + 1).
Definition small_table : list bytes := key_of <$> range_from 2000.

Lemma draws_in_order len n : ∀ g : nat,
  (g + n ≤ len)%nat → draws in_order (Z.of_nat len) n (Z.of_nat g) = seq g n.
Proof.
  induction n as [|n IH]; intros g Hg; [done |]. cbn [draws]. unfold in_order at 1. cbn [seq].
  rewrite Z.mod_small, Nat2Z.id by lia. f_equal. rewrite <- IH by lia. f_equal. lia.
Qed.

Lemma pick_hot_ends_witness :
  ∃ hot g', pick_hot in_order small_table WORKING_SET ∅ [] 0 = Some (Some hot, g').
Proof.
  assert (length small_table = WORKING_SET) as Hl
    by (unfold small_table, range_from; by rewrite !length_fmap, length_seq).
  destruct (pick_hot_ends in_order (λ n g Hn, Z.mod_pos_bound g n Hn) small_table WORKING_SET 0)
    as [(hot & g' & _ & E & _) _].
  - intros Hn. rewrite Hn in Hl. discriminate.
  - unfold zlen. rewrite Hl. change 0 with (Z.of_nat 0). rewrite draws_in_order by lia.
    rewrite size_list_to_set, length_seq by apply NoDup_seq. done.
  - exists hot, g'. exact E.
Defined.

(** * Percentiles *)

Lemma f_to_usize_nonneg x : 0 ≤ f_to_usize x.
Proof.
  unfold f_to_usize, u64_max. repeat case_match; try lia;
    apply Z.min_glb; try lia; (apply Z.shiftl_nonneg || apply Z.shiftr_nonneg); lia.
Qed.

Lemma pct_some l p : l ≠ [] → ∃ x, pct l p = Some x.
Proof.
  intros Hl. unfold pct. rewrite decide_False by done. apply lookup_lt_is_Some_2.
  pose proof (f_to_usize_nonneg (f_mul (f_of_Z (zlen l)) p)).
  assert (0 < zlen l) by (destruct l; [done | unfold zlen; simpl; lia]). unfold zlen in *. lia.
Qed.
Lemma pct_at l n p :
  zlen l = n → 0 < n → pct l p = l !! Z.to_nat (f_to_usize (f_mul (f_of_Z n) p) `min` (n - 1)).
Proof. intros <- Hn. unfold pct. rewrite decide_False; [done |]. by intros ->. Qed.

(** The rank of the 99th percentile of up to a hundred samples. *)
Definition p99_rank (n : Z) : Z := f_to_usize (f_mul (f_of_Z n) P99) `min` (n - 1).
Lemma p99_rank_small : forallb (λ i, p99_rank (Z.of_nat i) =? Z.of_nat i - 1) (seq 1 100) = true.
Proof. vm_compute. reflexivity. Qed.

(** What the percentiles are. There is one of any sample but the empty one, and it is a
    measured time. Of the default five thousand reads the 50th, 99th and 99.9th are the
    times with 2500, 4950 and 4995 below; of a thousand the 99.9th is the worst time, and of
    a hundred or fewer the 99th is. *)
Theorem pct_ranks l :
  (∀ p, pct l p = None ↔ l = []) ∧ (∀ p x, pct l p = Some x → x ∈ l) ∧
  (zlen l = 5000 → pct l P50 = l !! 2500%nat ∧ pct l P99 = l !! Z.to_nat 4950 ∧ pct l P999 = l !! Z.to_nat 4995) ∧
  (zlen l = 1000 → pct l P99 = l !! 990%nat ∧ pct l P999 = last l) ∧
  (0 < zlen l ≤ 100 → pct l P99 = last l).
Proof.
  split_and!.
  - intros p. split; [| by intros ->]. intros E. destruct (decide (l = [])) as [|Hl]; [done |].
    by destruct (pct_some l p Hl) as [x Hx]; rewrite Hx in E.
  - intros p x. unfold pct. case_decide; [done |]. by intros E%list_elem_of_lookup_2.
  - intros Hl. rewrite !(pct_at l 5000) by (done || lia). split_and!; f_equal; vm_compute; reflexivity.
  - intros Hl. rewrite !(pct_at l 1000), last_lookup by (done || lia). unfold zlen in Hl.
    replace (pred (length l)) with (Z.to_nat 999) by lia. split; f_equal; vm_compute; reflexivity.
  - intros Hl. rewrite (pct_at l (zlen l)), last_lookup by (done || lia). f_equal.
    pose proof p99_rank_small as Hr. rewrite forallb_forall in Hr.
    assert (In (length l) (seq 1 100)) as Hin by (unfold zlen in Hl; apply in_seq; lia).
    specialize (Hr _ Hin). unfold p99_rank in Hr. fold (zlen l) in Hr.
    apply Z.eqb_eq in Hr. unfold zlen in *. rewrite Hr. lia.
Qed.

(** * The report *)

(** Which points of a sweep are under the bar: the last that is and the first that is not. *)
Fixpoint last_true (bs : list bool) : option nat :=
  match bs with
  | [] => None
  | b :: bs => match last_true bs with Some i => Some (S i) | None => if b then Some O else None end
  end.
Fixpoint first_false (bs : list bool) : option nat :=
  match bs with
  | [] => None
  | b :: bs => if b then S <$> first_false bs else Some O
  end.

(** [envelope]'s two folds, from the bits alone. *)
Definition picked (b : bool) (rs : list f64) (bs : list bool) : list f64 :=
  (base.filter (λ x, x.2 = b) (zip rs bs)).*1.
Definition last_ok_of (bs : list bool) : f64 := foldl f_max f_min_value (picked true RATIOS bs).
Definition first_bad_of (bs : list bool) : f64 := foldl f_min f_max_value (picked false RATIOS bs).

Lemma picked_points b rs ps :
  (base.filter (λ x, under_bar x.2 = b) (zip rs ps)).*1 = picked b rs (under_bar <$> ps).
Proof.
  unfold picked. revert ps. induction rs as [|r rs IH]; intros [|p ps]; [done.. |].
  rewrite fmap_cons. cbn [zip zip_with]. rewrite !filter_cons. cbn [snd].
  destruct (decide (under_bar p = b)); [rewrite !fmap_cons; by rewrite IH | apply IH].
Qed.

Lemma find_ratio f rs (ps : list Point) :
  length ps = length rs →
  snd <$> list_find (λ x, SFeqb x.1 f = true) (zip rs ps) =
  '(i, r) ← list_find (λ r, SFeqb r f = true) rs; p ← ps !! i; Some (r, p).
Proof.
  revert ps. induction rs as [|r rs IH]; intros [|p ps] Hl; try done. cbn [zip zip_with list_find].
  cbn [fst]. destruct (decide (SFeqb r f = true)); [done |]. injection Hl as Hl. specialize (IH ps Hl).
  destruct (list_find _ (zip rs ps)) as [[i x]|], (list_find _ rs) as [[j y]|]; simpl in *; done.
Qed.

#[local] Instance f64_eq_dec : EqDecision spec_float.
Proof. intros x y. unfold Decision. repeat decide equality. Defined.

(** The outcome of all hundred and twenty-eight sweeps. *)
Definition bits_right (bs : list bool) : bool :=
  match last_true bs, first_false bs with
  | None, _ => SFeqb (last_ok_of bs) f_min_value
  | Some i, None =>
    negb (SFeqb (last_ok_of bs) f_min_value) && SFeqb (first_bad_of bs) f_max_value &&
    bool_decide (RATIOS !! i = Some (last_ok_of bs))
  | Some i, Some j =>
    negb (SFeqb (last_ok_of bs) f_min_value) && negb (SFeqb (first_bad_of bs) f_max_value) &&
    bool_decide (RATIOS !! i = Some (last_ok_of bs)) && bool_decide (RATIOS !! j = Some (first_bad_of bs)) &&
    bool_decide (list_find (λ r, SFeqb r (first_bad_of bs) = true) RATIOS = Some (j, first_bad_of bs))
  end.

Lemma bits_right_all bs : length bs = 7%nat → bits_right bs = true.
Proof.
  intros Hl. do 7 (destruct bs as [|[] bs]; [done | |]); (destruct bs; [| done]); vm_compute; reflexivity.
Qed.

(** C40: what the report says. For every outcome of the sweep, whatever was measured: the
    envelope is empty exactly when no point is under the bar; it holds throughout exactly
    when all are, and then its end is the last ratio; otherwise it names the largest ratio
    under the bar and the smallest that is not, and reads its advice off the point that was
    measured at that smallest ratio. *)
Theorem envelope_reports (ps : list Point) dist :
  length ps = length RATIOS →
  match last_true (under_bar <$> ps), first_false (under_bar <$> ps) with
  | None, _ => envelope (zip RATIOS ps) dist = EmptyEnvelope
  | Some i, None => ∃ r, RATIOS !! i = Some r ∧ envelope (zip RATIOS ps) dist = HoldsThroughout r
  | Some i, Some j =>
    ∃ r r' p, RATIOS !! i = Some r ∧ RATIOS !! j = Some r' ∧ ps !! j = Some p ∧
      envelope (zip RATIOS ps) dist =
        Edge r r' (Some (p, if SFltb (f_of_Z 8) (gets_per_read p) then Compaction else CacheMisses))
          (bool_decide (dist = Random))
  end.
Proof.
  intros Hl. unfold envelope. rewrite !picked_points.
  fold (last_ok_of (under_bar <$> ps)) (first_bad_of (under_bar <$> ps)).
  pose proof (bits_right_all (under_bar <$> ps)) as Hb.
  rewrite length_fmap, Hl in Hb. specialize (Hb eq_refl). unfold bits_right in Hb.
  destruct (last_true _) as [i|]; [| by rewrite Hb].
  destruct (first_false _) as [j|]; rewrite !andb_true_iff, ?bool_decide_eq_true, !negb_true_iff in Hb.
  - destruct Hb as ((((-> & ->) & Hi) & Hj) & Hf). rewrite find_ratio, Hf by done. simpl.
    destruct (lookup_lt_is_Some_2 ps j) as [p Hp]; [rewrite Hl; by apply lookup_lt_Some in Hj |].
    rewrite Hp. simpl. eexists _, _, p. split; [exact Hi |]. split; [exact Hj |]. split; [done |].
    f_equal. by apply bool_decide_ext; naive_solver.
  - destruct Hb as ((-> & ->) & Hi). by eexists.
Qed.

(** A curve that dips under the bar again. *)
Definition point_of (t gets : Z) : Point := mk_point t t t (f_of_Z gets) f_one.
Definition dipping : list Point :=
  (λ t, point_of (from_millis t) 3) <$> [1; 2; 12; 5; 6; 30; 40].

Lemma envelope_reports_witness :
  envelope (zip RATIOS dipping) Sequential =
    Edge (f_of_Z 8) (f_of_Z 2) (Some (point_of (from_millis 12) 3, CacheMisses)) false.
Proof.
  pose proof (envelope_reports dipping Sequential eq_refl) as H.
  assert (last_true (under_bar <$> dipping) = Some 4%nat) as E1 by (vm_compute; reflexivity).
  assert (first_false (under_bar <$> dipping) = Some 2%nat) as E2 by (vm_compute; reflexivity).
  rewrite E1, E2 in H. destruct H as (r & r' & p & Hr & Hr' & Hp & ->).
  injection Hr as <-. injection Hr' as <-. injection Hp as <-. vm_compute. reflexivity.
Defined.

(** * The table *)

Lemma length_key_of k : zlen (key_of k) ≤ 13.
Proof.
  unfold key_of, zlen, String.list_byte_of_string. rewrite length_map.
  assert (∀ s, length (String.list_ascii_of_string s) = String.length s) as -> by (intros s; induction s; simpl; auto).
  assert (∀ s, String.length ("key" +:+ s) = 3 + String.length s)%nat as -> by done.
  rewrite length_str_of_list, length_dec_digits. unfold key_width. repeat case_match; lia.
Qed.

Section table.
Context {T : Type} {SM : SkipMap T} {SML : SkipMapLaws T}.
Context {L : Type} {CO : Columnar L FileIndex} {read_parquet : bytes → option (list row)}.
Context {COL : ColumnarLaws L FileIndex read_parquet}.
Context (crc32_hash : bytes → Z) (read_dir : gmap string file → list string).
Context (parquet_head : list Field → bytes) (parquet_batch : RecordBatch → bytes).
Context (parquet_footer : list RecordBatch → bytes).
Context (duckdb : string → L → process * L).
Context {O : ObjectTypes} {S : Type} {OS : Store.ObjectStore S} {R : Type}.
Context (amazon_s3 : string → string → string → string → string → bool → bool → result S).
Context (objects : L → S) (put_objects : S → L → L).
Context (random_range : f64 → f64 → R → f64 * R) (ln exp cos : f64 → f64).
Context (path_of : string → Path) (range_options : Z → Z → GetOptions).
Context (body : GetResult → result bytes) (message : StoreError → string).
Context (path_from : string → string).
Context {Meta : Type} (load : Z → program Meta) (arrow_meta : Meta → result (list pk_stats)).
Context (read_rows : Meta → nat → program (list (list prow))).
Context (bucket : string).

#[local] Instance the_node : Node (node (T := T) (Meta := Meta)) (host (L := L) (R := R)) :=
  engine_node crc32_hash read_dir parquet_head parquet_batch parquet_footer duckdb amazon_s3 objects
    put_objects random_range ln exp cos path_of range_options body message path_from load arrow_meta
    read_rows bucket.
Abbreviation node := (node (T := T) (Meta := Meta)).
Abbreviation host := (host (L := L) (R := R)).
Context {G : Type} (random_index : Z → G → Z * G).
Context (cfg : Config).
Abbreviation world := (world (L := L)).
Abbreviation running := (running (T := T) (COL := COL) crc32_hash cfg).
Abbreviation drained := (drained (T := T) (COL := COL) crc32_hash cfg).
Abbreviation durable := (durable (COL := COL) crc32_hash).
Abbreviation quiet := (quiet (COL := COL)).
Abbreviation assumptions := (assumptions (read_parquet := read_parquet) crc32_hash read_dir
  parquet_head parquet_batch parquet_footer cfg).

(** The records of a run of puts, numbered from [n]. *)
Fixpoint puts (value : bytes) (n : Lsn) (order : list Z) : list record :=
  match order with
  | [] => []
  | k :: order => RecordModel.put (key_of k) n value :: puts value (n + 1) order
  end.

Lemma puts_kv value order : ∀ n hist k,
  k ∈ order ∨ kv_of hist !! key_of k = Some value →
  kv_of (hist ++ puts value n order) !! key_of k = Some value.
Proof.
  induction order as [|j order IH]; intros n hist k H; cbn [puts].
  { rewrite app_nil_r. destruct H as [H|H]; [by apply not_elem_of_nil in H | done]. }
  rewrite cons_middle, app_assoc. apply IH. rewrite elem_of_cons in H.
  destruct (decide (k ∈ order)) as [Hin|Hnin]; [by left | right].
  assert (kv_of (hist ++ [RecordModel.put (key_of j) n value]) = <[key_of j := value]> (kv_of hist)) as ->
    by (unfold kv_of; by rewrite fold_left_app).
  destruct (decide (key_of j = key_of k)) as [->|Hne]; [by rewrite lookup_insert_eq |].
  rewrite lookup_insert_ne by done. destruct H as [[->|?]|H]; done.
Qed.

(** A call of the engine, from the node. *)
Lemma unwrapped_engine {A} (m : M (engine (T := T) (I := FileIndex) * world) A) n w mc (g : G) a e' w' :
  m (nd_engine n, w) = (Ok a, (e', w')) →
  unwrapped (E := node) (W := host) (on_engine (Meta := Meta) (R := R) m) (n, ((w, mc), g)) =
    Some (a, (mk_node e' (nd_profile n) (nd_stats n) (nd_cache n) (nd_metadata n), ((w', mc), g))).
Proof. intros E. unfold unwrapped, on_engine, m_zoom. simpl. by rewrite E. Qed.

Lemma put_serves (A : assumptions) e w hist k v :
  running e w hist → quiet w → write_fits e k v →
  ∃ e' w', Engine.put crc32_hash parquet_head parquet_batch parquet_footer cfg k v (e, w) =
      (Ok (en_next_lsn e), (e', w')) ∧
    running e' w' (hist ++ [RecordModel.put k (en_next_lsn e) v]) ∧ quiet w' ∧
    en_next_lsn e' = en_next_lsn e + 1.
Proof.
  intros Hr Q F.
  destruct (Engine.put crc32_hash parquet_head parquet_batch parquet_footer cfg k v (e, w)) as [r [e' w']] eqn:E.
  destruct (append_running _ _ _ _ _ _ A e w hist k v Put r (e', w') Hr F E) as (Hok & _ & Hq).
  destruct (Hq Q) as [Ho Q']. destruct r as [n|]; [| done]. destruct (Hok n eq_refl) as [-> R'].
  exists e', w'. split; [done |]. split; [done |]. split; [done |].
  destruct R' as [_ R'], Hr as [_ Hn]. simpl in R'. rewrite R', max_lsn_of_app. simpl.
  pose proof (max_lsn_of_nonneg hist). lia.
Qed.

Lemma flush_serves (A : assumptions) e w hist :
  running e w hist → quiet w →
  ∃ x e' w', Engine.flush parquet_head parquet_batch parquet_footer cfg (e, w) = (Ok x, (e', w')) ∧
    running e' w' hist ∧ drained e' w' hist ∧ quiet w' ∧ en_next_lsn e' = en_next_lsn e.
Proof.
  intros [Hl Hn] Q. destruct A as [A1 A2 A3 A4 A5].
  destruct (Engine.flush parquet_head parquet_batch parquet_footer cfg (e, w)) as [r [e' w']] eqn:E.
  pose proof (flush_inner_live crc32_hash _ _ _ A3 cfg A5 (quiet w) (en_next_lsn e) None hist (e, w) r
    (e', w') (conj Hl (conj (λ q, q) eq_refl)) E) as Hf.
  destruct r as [x|err]; [| by destruct Hf as [_ Hf]; destruct (Hf Q)].
  destruct Hf as (Hk & HQ & Hd). exists x, e', w'. destruct Hk as [_ He]. simpl in He.
  specialize (Hd eq_refl). split; [done |]. split; [split; [by apply drained_live | congruence] |].
  split; [done |]. split; [by apply HQ | done].
Qed.

Lemma write_keys_serves (A : assumptions) value order : ∀ i n w mc (g : G) hist,
  running (nd_engine n) w hist → quiet w → zlen value < 2 ^ 31 →
  en_next_lsn (nd_engine n) + zlen order < 2 ^ 63 → 0 ≤ i → i + zlen order < 2 ^ 32 →
  ∃ n' w', write_keys cfg value i order (n, ((w, mc), g)) = Some (key_of <$> order, (n', ((w', mc), g))) ∧
    running (nd_engine n') w' (hist ++ puts value (en_next_lsn (nd_engine n)) order) ∧ quiet w' ∧
    (order ≠ [] → (i + zlen order) mod FLUSH_EVERY = 0 →
     drained (nd_engine n') w' (hist ++ puts value (en_next_lsn (nd_engine n)) order)).
Proof.
  induction order as [|k order IH]; intros i n w mc g hist Hr Q Hv Hb Hi Hlen.
  { exists n, w. cbn [puts]. rewrite app_nil_r. by split_and!. }
  rewrite zlen_cons in *. pose proof (zlen_nonneg order). pose proof (zlen_nonneg value).
  destruct (put_serves A _ w hist (key_of k) value Hr Q) as (e1 & w1 & E1 & R1 & Q1 & N1).
  { split; [pose proof (length_key_of k); lia | lia]. }
  set (rec := RecordModel.put (key_of k) (en_next_lsn (nd_engine n)) value) in *.
  cbn [write_keys puts]. unfold mbind at 1, run_bind at 1. cbn [nd_put the_node engine_node].
  rewrite (unwrapped_engine _ _ _ _ _ _ _ _ E1).
  set (n1 := mk_node e1 _ _ _ _).
  assert (as_u32 (as_u32 i + 1) = i + 1) as Ei by (unfold as_u32; rewrite (Z.mod_small i), Z.mod_small; lia).
  rewrite Ei, cons_middle, app_assoc. fold rec.
  assert (∃ n2 w2, (if (i + 1) mod FLUSH_EVERY =? 0
      then _ ← unwrapped (nd_flush cfg); mret tt else mret tt) (n1, ((w1, mc), g))
      = Some (tt, (n2, ((w2, mc), g))) ∧
    running (nd_engine n2) w2 (hist ++ [rec]) ∧ quiet w2 ∧
    en_next_lsn (nd_engine n2) = en_next_lsn (nd_engine n) + 1 ∧
    ((i + 1) mod FLUSH_EVERY = 0 → drained (nd_engine n2) w2 (hist ++ [rec]))) as (n2 & w2 & E2 & R2 & Q2 & N2 & D2).
  { destruct ((i + 1) mod FLUSH_EVERY =? 0) eqn:Em; zbool.
    - destruct (flush_serves A (nd_engine n1) w1 _ R1 Q1) as (x & e2 & w2 & E2 & R2 & D2 & Q2 & N2).
      eexists (mk_node e2 _ _ _ _), w2. split.
      + unfold mbind, run_bind. cbn [nd_flush the_node engine_node].
        rewrite (unwrapped_engine _ _ _ _ _ _ _ _ E2). reflexivity.
      + split; [done |]. split; [done |]. split; [change (nd_engine n1) with e1 in N2; simpl; lia | done].
    - exists n1, w1. by split_and!. }
  unfold mbind at 1, run_bind at 1. rewrite E2.
  destruct (IH (i + 1) n2 w2 mc g (hist ++ [rec]) R2 Q2 Hv ltac:(lia) ltac:(lia) ltac:(lia))
    as (n3 & w3 & E3 & R3 & Q3 & D3).
  unfold mbind at 1, run_bind at 1. rewrite E3. rewrite N2 in R3, D3.
  exists n3, w3. split; [done |]. split; [exact R3 |]. split; [done |].
  intros _ Hm. destruct order as [|k' order'].
  - injection E3 as <- <-. cbn [puts] in *. rewrite app_nil_r in *. apply D2.
    rewrite zlen_nil in Hm. by rewrite Z.add_0_r in Hm.
  - apply D3; [done |]. rewrite <- Hm. f_equal. lia.
Qed.

(** The world a client handed over is opened as an engine that runs on its history. *)
Lemma open_serves (A : assumptions) w mc hist store :
  durable w hist → quiet w → build amazon_s3 (cfg_s3 cfg) (latency cfg) = Ok store →
  ∃ n w', nd_open cfg (w, mc) = (Ok n, (w', mc)) ∧ running (nd_engine n) w' hist ∧ quiet w'.
Proof.
  intros D Q Hs. destruct A as [A1 A2 A3 A4 A5].
  destruct (open_recovers _ A1 _ A2 _ A5 _ _ D Q) as (e & w' & E & Hl & Hn & Q').
  cbn [nd_open the_node engine_node]. unfold node_open, mbind, m_bind, m_lift, m_zoom. rewrite Hs. cbn [fst snd].
  rewrite E. cbn [fst snd]. eexists _, w'. by split_and!.
Qed.

(** C37: the table the benchmark writes. Over any engine of the crate, from a world that
    holds some history and while no call fails, [write_table] does not panic; it returns the
    keys it was to write, in order in the sequential run and all of them, shuffled, in the
    random one, whatever the generator. Afterwards a crash leaves the history and then the
    puts, one for each key in the order returned, under the next LSNs; every key reads as
    the value, and all of it is in the files: the files' highest LSN is the history's, so
    the engines of the measurement have nothing to replay. The number of files is the
    catalog's. *)
Theorem write_table_publishes (A : assumptions) w mc (g : G) hist store dist :
  (∀ n g, 0 < n → 0 ≤ (random_index n g).1 < n) →
  durable w hist → quiet w → max_lsn_of hist + 1 + KEYSPACE < 2 ^ 63 →
  build amazon_s3 (cfg_s3 cfg) (latency cfg) = Ok store →
  ∃ keys count w' g' hist',
    write_table random_index cfg dist ((w, mc), g) = Some ((keys, count), ((w', mc), g')) ∧
    keys ≡ₚ key_of <$> range_from KEYSPACE ∧
    (dist = Sequential → keys = key_of <$> range_from KEYSPACE) ∧
    (∃ order, keys = key_of <$> order ∧
       hist' = puts (replicate VALUE_BYTES Byte.x76) (max_lsn_of hist + 1) order) ∧
    (∀ w2, wcrash (COL := COL) w' w2 → durable w2 (hist ++ hist')) ∧
    (∀ key, key ∈ keys → kv_of (hist ++ hist') !! key = Some (replicate VALUE_BYTES Byte.x76)) ∧
    ∃ files, co_files (w_lake w') files ∧ files_max files = max_lsn_of (hist ++ hist') ∧ count = zlen files.
Proof.
  intros Hrand D Q Hb Hs. destruct (open_serves A w mc hist store D Q Hs) as (n & w1 & E1 & R1 & Q1).
  assert (zlen (range_from KEYSPACE) = KEYSPACE) as Hlen
    by (unfold zlen, range_from; rewrite length_fmap, length_seq; reflexivity).
  assert (∃ order g1, (if decide (dist = Random) then on_ambient (shuffle random_index (range_from KEYSPACE))
      else mret (range_from KEYSPACE)) (n, ((w1, mc), g)) = Some (order, (n, ((w1, mc), g1))) ∧
    order ≡ₚ range_from KEYSPACE ∧ (dist = Sequential → order = range_from KEYSPACE)) as (order & g1 & E2 & Hp & Hseq).
  { destruct (decide (dist = Random)) as [->|Hd].
    - destruct (shuffle_from_perm random_index (length (range_from KEYSPACE) - 1) Hrand (range_from KEYSPACE) g)
        as (order & g1 & E & Hp); [unfold zlen in Hlen; unfold KEYSPACE in *; lia |].
      exists order, g1. split; [| split; [exact Hp | discriminate]]. unfold on_ambient, shuffle. by rewrite E.
    - exists (range_from KEYSPACE), g. split; [reflexivity | split; reflexivity]. }
  assert (zlen order = KEYSPACE) as Hol by (unfold zlen in *; by rewrite (Permutation_length Hp)).
  destruct (write_keys_serves A (replicate VALUE_BYTES Byte.x76) order 0 n w1 mc g1 hist R1 Q1)
    as (n3 & w3 & E3 & R3 & Q3 & D3); [done | | done | rewrite Hol; done |].
  { destruct R1 as [_ ->]. rewrite Hol. lia. }
  assert (order ≠ []) as Hne by (intros ->; by rewrite zlen_nil in Hol).
  assert ((0 + zlen order) mod FLUSH_EVERY = 0) as Hm by (rewrite Hol; reflexivity).
  specialize (D3 Hne Hm).
  exists (key_of <$> order), (nd_file_count n3), w3, g1, (puts (replicate VALUE_BYTES Byte.x76) (en_next_lsn (nd_engine n)) order).
  split.
  { unfold write_table, with_engine. rewrite E1. cbv zeta.
    rewrite Run_bind, E2, Run_bind, E3, Run_bind. unfold ask, mret, run_ret. cbn [fmap option_fmap option_map fst snd].
    reflexivity. }
  split; [exact (fmap_Permutation key_of _ _ Hp) |]. split; [intros Hd; exact (f_equal (fmap key_of) (Hseq Hd)) |].
  split.
  { exists order. split; [reflexivity |].
    exact (f_equal (λ next, puts (replicate VALUE_BYTES Byte.x76) next order) (proj2 R1)). }
  destruct D3 as (logs & s & rs & files & frs & St & Hms & _ & Hi).
  split; [intros w2; by eapply stored_crash |]. split.
  - intros key (k & -> & Hk)%list_elem_of_fmap. apply puts_kv. by left.
  - exists files. pose proof (st_tiers _ _ _ _ _ _ _ _ _ _ _ St) as Ti. split; [apply St |]. split.
    + rewrite (tiers_files_max _ _ _ _ _ Ti), (ti_hist _ _ _ _ _ Ti). by rewrite app_nil_r.
    + by apply (co_file_count_law (w_lake w3)).
Qed.
End table.

(** * A sweep point *)

Section sweep.
Context {T : Type} {SM : SkipMap T} {L : Type} {CO : Columnar L FileIndex}.
Context (crc32_hash : bytes → Z) (read_dir : gmap string file → list string).
Context (parquet_head : list Field → bytes) (parquet_batch : RecordBatch → bytes).
Context (parquet_footer : list RecordBatch → bytes).
Context (duckdb : string → L → process * L).
Context {O : ObjectTypes} {S : Type} {OS : Store.ObjectStore S} {R : Type}.
Context (amazon_s3 : string → string → string → string → string → bool → bool → result S).
Context (objects : L → S) (put_objects : S → L → L).
Context (objects_put : ∀ s l, objects (put_objects s l) = s).
Context (random_range : f64 → f64 → R → f64 * R) (ln exp cos : f64 → f64).
Context (path_of : string → Path) (range_options : Z → Z → GetOptions).
Context (body : GetResult → result bytes) (message : StoreError → string).
Context (path_from : string → string).
Context {Meta : Type} (load : Z → program Meta) (arrow_meta : Meta → result (list pk_stats)).
Context (read_rows : Meta → nat → program (list (list prow))).
Context (bucket : string).

#[local] Instance sweep_node : Node (node (T := T) (Meta := Meta)) (host (L := L) (R := R)) :=
  engine_node crc32_hash read_dir parquet_head parquet_batch parquet_footer duckdb amazon_s3 objects
    put_objects random_range ln exp cos path_of range_options body message path_from load arrow_meta
    read_rows bucket.
Abbreviation node := (node (T := T) (Meta := Meta)).
Abbreviation host := (host (L := L) (R := R)).
Abbreviation engine := (engine (T := T) (I := FileIndex)).
Abbreviation get_range := (shim_get_range random_range ln exp cos path_of range_options body message).
Abbreviation reader_get := (reader_get get_range path_from load arrow_meta read_rows bucket).
Abbreviation read_all := (read_all get_range path_from load arrow_meta read_rows bucket).
Context {G : Type} (random_index : Z → G → Z * G) (elapsed : G → Z * G).

(** What the node's reader sees of it. *)
Definition view (n : node) (h : host) : caches (St := LatencyStore S * machine R) (Meta := Meta) :=
  (nd_metadata n, (nd_cache n, (mk_latency_store (objects (w_lake h.1)) (nd_profile n) (nd_stats n), h.2))).

(** The key is in no memtable. *)
Definition unbuffered (e : engine) (q : bytes) : Prop := ms_get q (en_memtables e) = Missing.

Lemma node_get_reads q n h (g : G) a x :
  unbuffered (nd_engine n) q → unwrapped (E := node) (W := host) (nd_get q) (n, (h, g)) = Some (a, x) →
  ∃ n' h' l, x = (n', (h', g)) ∧ nd_engine n' = nd_engine n ∧
    reader_get (en_index (nd_engine n)) q (view n h) = (Ok l, view n' h').
Proof.
  intros Hq. unfold unwrapped. cbn [nd_get sweep_node engine_node]. unfold node_get, mbind, m_bind, m_get.
  rewrite Hq. unfold on_reader, m_zoom. destruct h as [w mc]. cbn [fst snd].
  change (nd_metadata n, (nd_cache n, (mk_latency_store (objects (w_lake w)) (nd_profile n) (nd_stats n), mc)))
    with (view n (w, mc)).
  destruct (reader_get (en_index (nd_engine n)) q (view n (w, mc))) as [[l|err] [ms [c [s mc']]]] eqn:E; [| done].
  cbn [fst snd]. intros Hx. exists (mk_node (nd_engine n) (profile s) (Store.stats s) c ms),
    (set_w_lake (put_objects (inner s) (w_lake w)) w, mc'), l.
  assert (view (mk_node (nd_engine n) (profile s) (Store.stats s) c ms)
    (set_w_lake (put_objects (inner s) (w_lake w)) w, mc') = (ms, (c, (s, mc')))) as ->.
  { unfold view. cbn. rewrite objects_put. by destruct s. }
  split; [| done]. destruct l as [[v| |]|]; [by injection Hx as _ <-.. | done].
Qed.

Lemma read_all_cons index q qs st l st1 :
  reader_get index q st = (Ok l, st1) → read_all index (q :: qs) st = read_all index qs st1.
Proof.
  intros E. unfold Reader.read_all. cbn [m_iter].
  assert ((_ ← reader_get index q; mret tt) st = (Ok tt, st1)) as E1 by (by rewrite (bind_ok _ _ _ _ _ E)).
  by rewrite (bind_ok _ _ _ _ _ E1).
Qed.

Lemma get_all_reads qs : ∀ n h (g : G) x,
  Forall (unbuffered (nd_engine n)) qs → get_all (E := node) (W := host) qs (n, (h, g)) = Some (tt, x) →
  ∃ n' h', x = (n', (h', g)) ∧ nd_engine n' = nd_engine n ∧
    read_all (en_index (nd_engine n)) qs (view n h) = (Ok tt, view n' h').
Proof.
  induction qs as [|q qs IH]; intros n h g x Hall Hrun.
  { injection Hrun as <-. by exists n, h. }
  apply Forall_cons in Hall as [Hq Hall].
  cbn [get_all] in Hrun. apply Run_bind_inv in Hrun as (a & x1 & E1 & E2).
  apply node_get_reads in E1 as (n1 & h1 & l & -> & He & E1); [| done].
  apply IH in E2 as (n2 & h2 & -> & He2 & E2); [| by rewrite He].
  exists n2, h2. split; [done |]. split; [congruence |]. rewrite (read_all_cons _ _ _ _ _ _ E1). by rewrite <- He.
Qed.

Lemma measure_reads_reads hot k : ∀ i n h (g : G) ts x,
  Forall (unbuffered (nd_engine n)) hot → 0 ≤ i →
  measure_reads (E := node) (W := host) elapsed hot i k (n, (h, g)) = Some (ts, x) →
  ∃ qs n' h' g', x = (n', (h', g')) ∧ nd_engine n' = nd_engine n ∧ length qs = k ∧ length ts = k ∧
    Forall (λ q, q ∈ hot) qs ∧
    read_all (en_index (nd_engine n)) qs (view n h) = (Ok tt, view n' h').
Proof.
  induction k as [|k IH]; intros i n h g ts x Hall Hi Hrun.
  { injection Hrun as <- <-. by exists [], n, h, g. }
  cbn [measure_reads] in Hrun. apply Run_bind_inv in Hrun as (q & x1 & E1 & Hrun).
  unfold run_lift in E1. destruct (decide (hot = [])); [done |].
  destruct (hot !! _) as [q'|] eqn:Eq; [| done]. injection E1 as -> <-.
  apply list_elem_of_lookup_2 in Eq. pose proof Hall as Hall'. rewrite Forall_forall in Hall'. specialize (Hall' q Eq).
  apply Run_bind_inv in Hrun as (a & x1 & E1 & Hrun).
  apply node_get_reads in E1 as (n1 & h1 & l & -> & He & E1); [| done].
  apply Run_bind_inv in Hrun as (t & x2 & E2 & Hrun). unfold on_ambient in E2.
  destruct (elapsed g) as [t' g1]. injection E2 as <- <-.
  destruct a as [v|]; [| done].
  apply Run_bind_inv in Hrun as (ts' & x3 & E3 & Hrun). injection Hrun as <- <-.
  apply IH in E3 as (qs & n3 & h3 & g3 & -> & He3 & Hl & Hl' & Hqs & E3); [| by rewrite He | lia].
  exists (q :: qs), n3, h3, g3. split; [done |]. split; [congruence |].
  split; [simpl; lia |]. split; [simpl; lia |]. split; [by constructor |].
  rewrite (read_all_cons _ _ _ _ _ _ E1). by rewrite <- He.
Qed.

Lemma balanced_read_all index qs :
  balanced paid (read_all index qs).
Proof.
  unfold Reader.read_all. induction qs as [|q qs IH]; cbn [m_iter]; [by apply balanced_still |].
  apply balanced_bind; [| by intros _].
  apply balanced_bind; [apply balanced_get |]. intros l. by apply balanced_still.
Qed.

Context (content : string → Z → Z → bytes) (size_of : string → Z).
Context (store_serves : ∀ p a b st x st', get_range p a b st = (Ok x, st') → x = content p a b).
Abbreviation footprints := (footprints content path_from load arrow_meta read_rows bucket).
Abbreviation weight_of index qs := (weight content (list_to_set (C := gset Key) (footprints index qs))).

(** A new engine, for reading. *)
Record opened (n : Z) (nd : node) (hot : list bytes) : Prop := {
  op_cache : nd_cache nd = cache_new n;
  op_metadata : nd_metadata nd = metadata_new;
  op_stats : nd_stats nd = stats_default;
  op_unbuffered : Forall (unbuffered (nd_engine nd)) hot;
  op_sized : sized path_from size_of bucket (en_index (nd_engine nd));
}.

Lemma nd_open_new cfg n h nd h' :
  nd_open (with_cache n cfg) h = (Ok nd, h') →
  nd_cache nd = cache_new n ∧ nd_metadata nd = metadata_new ∧ nd_stats nd = stats_default.
Proof.
  cbn [nd_open sweep_node engine_node]. unfold node_open.
  intros [(st & h1 & E1 & Hrun)|(? & _ & ?)]%bind_inv; [| done].
  apply bind_inv in Hrun as [(e & h2 & E2 & Hrun)|(? & _ & ?)]; [| done].
  destruct e as [e|]; [| done]. injection Hrun as <- <-. split; [done |]. split; [done |].
  unfold m_lift in E1. injection E1 as E1 _. unfold build in E1. destruct (amazon_s3 _ _ _ _ _ _ _); [| done].
  by injection E1 as <-.
Qed.

Lemma with_engine_inv {A} cfg (m : Run (node * (host * G)) A) h g a o :
  with_engine (E := node) (W := host) cfg m (h, g) = Some (a, o) →
  ∃ nd h1 x, nd_open cfg h = (Ok nd, h1) ∧ m (nd, (h1, g)) = Some (a, x) ∧ o = x.2.
Proof.
  unfold with_engine. destruct (nd_open cfg h) as [[nd|err] h1]; [| done].
  destruct (m (nd, (h1, g))) as [[b x]|] eqn:E; [| done]. intros [= <- <-]. by exists nd, h1, x.
Qed.

(** The calibration measures the working set. When what the reads of the hot keys touch
    fits in its four gigabytes, the resident bytes it returns are the bytes of those ranges,
    each once: nothing computed, nothing evicted, nothing counted twice. *)
Lemma calibrate_measures fuel cfg keys h (g : G) nd h1 ws hot o :
  nd_open (with_cache (Z.shiftl 4 30) cfg) h = (Ok nd, h1) →
  Forall (unbuffered (nd_engine nd)) hot → sized path_from size_of bucket (en_index (nd_engine nd)) →
  weight_of (en_index (nd_engine nd)) hot ≤ Z.shiftl 4 30 →
  zlen (footprints (en_index (nd_engine nd)) hot) < u64_max →
  calibrate random_index fuel cfg keys (h, g) = Some (Some (ws, hot), o) →
  ws = weight_of (en_index (nd_engine nd)) hot.
Proof.
  intros Ho Hun Hs Hw Ht Hrun. destruct (nd_open_new _ _ _ _ _ Ho) as (Hc & Hm & Hst).
  unfold calibrate in Hrun. apply Run_bind_inv in Hrun as (hot0 & [h0 g0] & E0 & Hrun).
  unfold on_ambient_outside in E0. destruct (pick_hot _ _ _ _ _ g) as [[hot' g']|]; [| done].
  injection E0 as -> <- <-. destruct hot0 as [hot0|]; [| done].
  apply with_engine_inv in Hrun as (nd0 & h0 & x & Ho0 & E & _). rewrite Ho in Ho0. injection Ho0 as <- <-.
  apply Run_bind_inv in E as ([] & x1 & E1 & E). apply Run_bind_inv in E as (c & x2 & E2 & E).
  injection E2 as <- <-. injection E as <- -> _.
  apply get_all_reads in E1 as (n' & h' & -> & He & E1); [| done].
  unfold view at 1 in E1. rewrite Hm, Hc in E1.
  destruct (read_warm_then_hot get_range content path_from load arrow_meta read_rows size_of store_serves
    bucket (en_index (nd_engine nd)) (Z.shiftl 4 30) hot [] _ _ _ _ Hs ltac:(done) Hw
    ltac:(rewrite (zlen_nil : zlen (Reader.footprints _ _ _ _ _ _ _ []) = 0); lia) ltac:(constructor) E1) as (Hr & _).
  exact Hr.
Qed.

Lemma footprints_bound index hot qs :
  Forall (λ q, q ∈ hot) qs → zlen (footprints index qs) ≤ zlen qs * zlen (footprints index hot).
Proof.
  induction 1 as [|q qs Hq Hqs IH]; [done |].
  rewrite footprints_cons, zlen_app, zlen_cons.
  assert (zlen (footprint path_from load arrow_meta read_rows content bucket index q) ≤ zlen (footprints index hot)).
  { clear -Hq. induction hot as [|k hot IH]; [by apply not_elem_of_nil in Hq |].
    rewrite footprints_cons, zlen_app. apply elem_of_cons in Hq as [->|Hq].
    - pose proof (zlen_nonneg (footprints index hot)). lia.
    - pose proof (zlen_nonneg (footprint path_from load arrow_meta read_rows content bucket index k)).
      specialize (IH Hq). lia. }
  lia.
Qed.

(** C38: what a sweep point reports when the cache is large enough. The measured reads then
    never reach the store; the hit rate says so; but the GETs per read do not: the engine's
    counter of GETs is not reset after the warm-up, so what is divided by the number of
    measured reads is the misses of the warm-up, all of them and no others. *)
Theorem roomy_point_counts_warmup reads cfg n hot h (g : G) nd h1 p o :
  nd_open (with_cache n cfg) h = (Ok nd, h1) →
  Forall (unbuffered (nd_engine nd)) hot → sized path_from size_of bucket (en_index (nd_engine nd)) →
  (length hot ≤ WORKING_SET)%nat → 0 ≤ n < 2 ^ 63 → 0 ≤ reads →
  weight_of (en_index (nd_engine nd)) hot ≤ n →
  (reads + 1) * zlen (footprints (en_index (nd_engine nd)) hot) < u64_max →
  measure elapsed reads cfg n hot (h, g) = Some (p, o) →
  ∃ ms c s hits,
    read_all (en_index (nd_engine nd)) hot (view nd h1) = (Ok tt, (ms, (c, s))) ∧
    as_u64 (st_gets (Store.stats s.1)) = as_u64 (misses (stats c)) ∧
    gets_per_read p = f_div (f_of_Z (st_gets (Store.stats s.1))) (f_of_Z reads) ∧
    hit_rate p = f_div (f_of_Z hits) (f_of_Z (as_u64 hits `max` 1)).
Proof.
  intros Ho Hun Hs Hlen Hn Hreads Hw Ht Hrun. destruct (nd_open_new _ _ _ _ _ Ho) as (Hc & Hm & Hst).
  apply with_engine_inv in Hrun as (nd0 & h0 & x & Ho0 & E & _). rewrite Ho in Ho0. injection Ho0 as <- <-.
  rewrite take_ge in E by lia.
  apply Run_bind_inv in E as ([] & x1 & E1 & E).
  apply get_all_reads in E1 as (n1 & h2 & -> & He & E1); [| done].
  apply Run_bind_inv in E as ([] & x2 & E2 & E). injection E2 as <-. cbn [fst snd] in E.
  apply Run_bind_inv in E as (lat & x3 & E3 & E).
  apply measure_reads_reads in E3 as (qs & n3 & h3 & g3 & -> & He3 & Hl & _ & Hqs & E3);
    [| cbn [nd_engine nd_reset_stats sweep_node engine_node node_reset_stats]; by rewrite He | done].
  cbn [nd_engine nd_reset_stats sweep_node engine_node node_reset_stats] in E3. rewrite He in E3.
  set (index := en_index (nd_engine nd)) in *.
  pose proof (footprints_bound index hot qs Hqs) as Hb.
  assert (zlen qs = reads) as Hlq by (unfold zlen; lia). rewrite Hlq in Hb.
  pose proof (balanced_read_all index hot _ _ _ E1 ltac:(done)) as Hbal.
  unfold view at 1 in E1. rewrite Hm, Hc in E1.
  destruct (read_warm_then_hot get_range content path_from load arrow_meta read_rows size_of store_serves
    bucket index n hot qs _ _ _ _ Hs Hn Hw ltac:(lia) Hqs E1) as (_ & _ & ms2 & c2 & j & E2 & Hst2 & _).
  unfold view at 1 in E3. cbn in E3. cbn in E2. rewrite E2 in E3.
  assert (nd_cache n3 = c2 ∧ nd_stats n3 = nd_stats n1) as [Ec Es] by (by injection E3).
  apply Run_bind_inv in E as (s' & x4 & Ea & E). injection Ea as <- <-.
  apply Run_bind_inv in E as (c' & x4 & Ea & E). injection Ea as <- <-.
  apply Run_bind_inv in E as (v1 & x4 & Ea & E). apply Run_bind_inv in E as (v2 & x5 & Eb & E).
  apply Run_bind_inv in E as (v3 & x6 & Ed & E). injection E as <- _. cbn [gets_per_read hit_rate].
  unfold view. rewrite Hm, Hc.
  exists (nd_metadata n1), (nd_cache n1), (mk_latency_store (objects (w_lake h2.1)) (nd_profile n1) (nd_stats n1), h2.2),
    (hits (stats c2)).
  split; [exact E1 |]. split; [| split].
  - unfold paid, paid_low, view in Hbal. cbn in Hbal. rewrite Hc, Hst in Hbal. cbn in Hbal.
    cbn. unfold as_u64 in *. rewrite Zmod_0_l in Hbal.
    set (a := st_gets (nd_stats n1)) in *. set (b := misses (stats (nd_cache n1))) in *.
    replace a with (b + (a - b)) by lia. rewrite <- Zplus_mod_idemp_r, Hbal. f_equal. lia.
  - cbn [fst Store.stats]. unfold snapshot. cbn. by rewrite Es.
  - cbn. rewrite Ec. unfold cache_stats. cbn. destruct (iter_hit_others j (mk_stats 0 0 0 0)) as [Hmi _].
    rewrite Hst2, Hmi. cbn [misses]. by rewrite Z.add_0_r.
Qed.
End sweep.

(** * Examples *)

From S2P Require Import Lakehouse LakehouseProps DuckModel StackProps.

Lemma write_table_publishes_witness :
  ∃ keys count o, write_table (ND := the_node (T := MT) (L := lh) (CO := duck_columnar) (O := ranged_types)
      (S := unit) (OS := ranged_store) (Meta := bytes) crc32_ieee read_dir_keys head_bytes batch_bytes footer_bytes
      (λ _ l, (Exited (Some 0) empty_str, l)) (λ _ _ _ _ _ _ _, Ok tt) (λ _, tt) (λ _ l, l) no_random id id id
      (λ p : string, p) pair Ok id id ex_load ex_meta ex_rows "bucket")
    in_order duck_cfg Random ((installed, mk_machine tt []), 0) = Some ((keys, count), o) ∧
    keys ≡ₚ key_of <$> range_from KEYSPACE.
Proof.
  destruct (write_table_publishes (T := MT) (L := lh) (CO := duck_columnar) (COL := duck_laws)
    (O := ranged_types) (S := unit) (OS := ranged_store) (Meta := bytes) crc32_ieee read_dir_keys head_bytes
    batch_bytes footer_bytes (λ _ l, (Exited (Some 0) empty_str, l)) (λ _ _ _ _ _ _ _, Ok tt) (λ _, tt) (λ _ l, l)
    no_random id id id (λ p : string, p) pair Ok id id ex_load ex_meta ex_rows "bucket" in_order duck_cfg
    duck_assumptions installed (mk_machine tt []) 0 [] (latency_store_new tt (latency duck_cfg)) Random)
    as (keys & count & w' & g' & hist' & E & Hp & _).
  - intros n g Hn. exact (Z.mod_pos_bound g n Hn).
  - apply (fresh_durable _ _ _ _ _ _ _ _ _ _ _ _ duck_documented); [done | apply bootstrapped_holds].
  - by split_and!.
  - vm_compute. reflexivity.
  - reflexivity.
  - exists keys, count, ((w', mk_machine tt []), g'). split; [exact E | exact Hp].
Defined.

(** A lake whose catalog lists the two objects of [Reader.v]; nothing is written to it. *)
#[local] Instance listed : Columnar unit FileIndex := {
  co_connect := mret tt;
  co_published_watermark := mret 2;
  co_load := mret ex_index;
  co_watermark := index_watermark;
  co_file_count := index_len;
  co_get _ _ := mret Missing;
  co_publish _ _ := mret tt;
}.
#[local] Instance listed_node : Node (node (T := MT) (Meta := bytes)) (host (L := unit) (R := unit)) :=
  sweep_node (T := MT) (L := unit) (O := ranged_types) (S := unit) (OS := ranged_store) (Meta := bytes)
    crc32_ieee read_dir_keys head_bytes batch_bytes footer_bytes (λ _ l, (Exited (Some 0) empty_str, l))
    (λ _ _ _ _ _ _ _, Ok tt) (λ l, l) (λ s _, s) no_random id id id (λ p : string, p) pair Ok id id ex_load
    ex_meta ex_rows "bucket".
Definition ticking (g : Z) : Z * Z := (from_millis 1, g + 1).

Definition listed_host : host (L := unit) (R := unit) :=
  (mk_world (mk_fs ∅ []) (mk_fs ∅ []) tt, mk_machine tt []).
Definition opened_with (n : Z) := nd_open (with_cache n duck_cfg) listed_host.
Definition no_node : node (T := MT) (Meta := bytes) :=
  mk_node (mk_engine [] (mk_set (mk_arc 0 mt_new) [] 0 0 0) (mk_wal 0 (mk_bufwriter empty_str []) (mk_segment empty_str 0 0) 0 [] []) 0)
    profile_none stats_default (cache_new 0) (∅ : gmap string bytes).
Definition node_of (n : Z) : node (T := MT) (Meta := bytes) :=
  match (opened_with n).1 with Ok nd => nd | Err _ => no_node end.

Lemma opened_with_ok n : is_ok (opened_with n).1 = true → nd_open (with_cache n duck_cfg) listed_host = (Ok (node_of n), (opened_with n).2).
Proof. unfold node_of, opened_with. by destruct (nd_open _ _) as [[nd|] h]. Qed.

Lemma option_eta {A} (o : option A) (a : A) : is_Some o → o = Some (default a o).
Proof. by intros [b ->]. Qed.

(** A cache to the byte: the point is measured, no read misses, and the GETs reported are
    the six of the warm-up, over three reads. *)
Definition no_point : Point * (host (L := unit) (R := unit) * Z) := (mk_point 0 0 0 f_zero f_zero, (listed_host, 0)).
Definition run_point := default no_point (measure ticking 3 duck_cfg 64 ex_hot (listed_host, 0)).

Lemma roomy_point_counts_warmup_witness :
  gets_per_read run_point.1 = f_div (f_of_Z 6) (f_of_Z 3) ∧
  ∃ hits, hit_rate run_point.1 = f_div (f_of_Z hits) (f_of_Z (as_u64 hits `max` 1)).
Proof.
  destruct (roomy_point_counts_warmup (T := MT) (L := unit) (O := ranged_types) (S := unit)
    (OS := ranged_store) (Meta := bytes) crc32_ieee read_dir_keys head_bytes batch_bytes footer_bytes
    (λ _ l, (Exited (Some 0) empty_str, l)) (λ _ _ _ _ _ _ _, Ok tt) (λ l, l) (λ s _, s) (λ s l, eq_refl) no_random
    id id id (λ p : string, p) pair Ok id id ex_load ex_meta ex_rows "bucket" ticking slice_of (λ _, 32) ranged_serves
    3 duck_cfg 64 ex_hot listed_host 0 (node_of 64) (opened_with 64).2 run_point.1 run_point.2)
    as (ms' & c & s & hits & Er & _ & Eg & Eh).
  - apply opened_with_ok. vm_compute. reflexivity.
  - by repeat constructor.
  - exact ex_sized.
  - apply Nat.leb_le. vm_compute. reflexivity.
  - done.
  - done.
  - vm_compute. discriminate.
  - vm_compute. reflexivity.
  - unfold run_point. rewrite <- surjective_pairing. apply option_eta.
    assert (match measure ticking 3 duck_cfg 64 ex_hot (listed_host, 0) with Some _ => true | None => false end = true) as H
      by (vm_compute; reflexivity).
    destruct (measure _ _ _ _ _ _); [by eexists | done].
  - split; [vm_compute; reflexivity | by exists hits].
Defined.
