(* ===== verification/TraceFlush.v ===== *)
(** [src/examples/trace_flush.rs]: a probe that counts what a publish costs. It writes a
    hundred keys, flushes and reads one of them back, with pauses in between; which phase
    may touch the object store is its point. Every failure is an [unwrap], so [None] is a
    panic; the pauses and the text of the output are left out, and so is the call that
    creates the log's directory. *)

From Stdlib Require Import SpecFloat String.
From S2P Require Import Latency Settings Store StoreProps.
From S2P Require Import Prelude RecordModel Fs Instances Wal WalLemmas Memtable MemtableProps Tests.
From S2P Require Import Flush FlushProps Columnar Engine EngineLemmas LakeModel EngineProps.
From S2P Require Import Catalog Bloom Index Read Cache WorkingSet Reader Node Bench BenchProps.

Definition trace_config (pid tmp : string) (cfg : Config) : Config :=
  let c := cfg_catalog cfg in
  mk_config (tmp +:+ "/trace-wal-" +:+ pid) (wal_segment_bytes cfg) (Z.shiftl 1 30) (max_frozen_memtables cfg)
    (cfg_s3 cfg) (mk_catalog_config (pg_conn c) (cat_schema c) ("t_trace_" +:+ pid) (data_path c))
    (cfg_duckdb cfg) (latency cfg) (cache_bytes cfg).

Definition trace_key (i : Z) : bytes := lit ("key" +:+ padded 4 i).
Definition trace_value (i : Z) : bytes := lit ("value-" +:+ show_u64 i).

Section trace.
Context {E W G : Type} {ND : Node E W}.
Abbreviation inside := (E * (W * G))%type.
Abbreviation outside := (W * G)%type.

(** The puts. *)
Fixpoint put_each (cfg : Config) (ks : list Z) : Run inside unit :=
  match ks with
  | [] => mret tt
  | i :: ks => _ ← unwrapped (nd_put cfg (trace_key i) (trace_value i)); put_each cfg ks
  end.
(** The phases between the open and the read. *)
Definition trace_writes (cfg : Config) : Run inside unit :=
  _ ← put_each cfg (range 0 100);
  _ ← unwrapped (nd_flush cfg);
  mret tt.
Definition trace_phases (cfg : Config) : Run outside unit :=
  with_engine cfg (
    _ ← trace_writes cfg;
    _ ← unwrapped (nd_get (lit "key0050"));
    mret tt).
(** [main], on an environment. *)
Definition trace_flush (ln : f64 → f64) (vars : gmap string string) (pid tmp : string) : Run outside unit :=
  cfg ← run_lift (from_env ln vars);
  let cfg := trace_config pid tmp cfg in
  _ ← (λ '(w, g), match nd_bootstrap cfg w with (Ok _, w) => Some (tt, (w, g)) | (Err _, _) => None end);
  trace_phases cfg.
End trace.

(** * What is written *)

Fixpoint traced (n : Lsn) (ks : list Z) : list record :=
  match ks with
  | [] => []
  | i :: ks => RecordModel.put (trace_key i) n (trace_value i) :: traced (n + 1) ks
  end.

Definition traceable (i : Z) : Prop := 0 ≤ i < 10 ^ 20.

Lemma trace_key_inj i j : traceable i → traceable j → trace_key i = trace_key j → i = j.
Proof. intros Hi Hj Ek%lit_inj. injection Ek as Ek. by apply (padded_inj 4). Qed.

Lemma kv_of_put hist k n v : kv_of (hist ++ [RecordModel.put k n v]) = <[k := v]> (kv_of hist).
Proof. unfold kv_of. by rewrite fold_left_app. Qed.

Lemma traced_other i ks : ∀ n hist,
  traceable i → Forall traceable ks → i ∉ ks →
  kv_of (hist ++ traced n ks) !! trace_key i = kv_of hist !! trace_key i.
Proof.
  induction ks as [|j ks IH]; intros n hist Hi Hks Hin; cbn [traced]; [by rewrite app_nil_r |].
  apply Forall_cons in Hks as [Hj Hks]. apply not_elem_of_cons in Hin as [Hne Hin].
  rewrite cons_middle, app_assoc, IH by done. rewrite kv_of_put. apply lookup_insert_ne.
  intros Ek. by apply Hne, trace_key_inj.
Qed.

Lemma traced_kv i ks : ∀ n hist,
  Forall traceable ks → NoDup ks → i ∈ ks →
  kv_of (hist ++ traced n ks) !! trace_key i = Some (trace_value i).
Proof.
  induction ks as [|j ks IH]; intros n hist Hks Hnd Hin; [by apply not_elem_of_nil in Hin |].
  apply Forall_cons in Hks as [Hj Hks]. apply NoDup_cons in Hnd as [Hnin Hnd].
  cbn [traced]. rewrite cons_middle, app_assoc. apply elem_of_cons in Hin as [->|Hin]; [| by apply IH].
  rewrite traced_other by done. rewrite kv_of_put. apply lookup_insert_eq.
Qed.

Lemma zlen_lit s : zlen (lit s) = Z.of_nat (String.length s).
Proof.
  unfold zlen, lit, String.list_byte_of_string. rewrite length_map. f_equal. induction s; simpl; auto.
Qed.
Lemma length_str_app s t : String.length (s +:+ t) = (String.length s + String.length t)%nat.
Proof. induction s as [|c s IH]; [done |]. exact (f_equal Datatypes.S IH). Qed.
Lemma length_dec_fuel n : ∀ z acc, (length (dec_fuel n z acc) ≤ n + length acc)%nat.
Proof.
  induction n as [|n IH]; intros z acc; cbn [dec_fuel]; [lia |].
  case_match; [simpl; lia |]. rewrite IH. simpl. lia.
Qed.
Lemma show_u64_length n : (String.length (show_u64 n) ≤ 20)%nat.
Proof. unfold show_u64. rewrite length_str_of_list. pose proof (length_dec_fuel 20 n []) as Hd. exact Hd. Qed.
Lemma padded_length w n : (String.length (padded w n) ≤ w + 20)%nat.
Proof.
  unfold padded. cbv zeta. rewrite length_str_app, length_str_of_list, length_replicate.
  pose proof (show_u64_length n). lia.
Qed.

Lemma trace_fits i : 17 + zlen (trace_key i) + zlen (trace_value i) < 2 ^ 32.
Proof.
  unfold trace_key, trace_value. rewrite !zlen_lit, !length_str_app.
  pose proof (padded_length 4 i). pose proof (show_u64_length i). cbn [String.length]. lia.
Qed.

Section phases.
Context {T : Type} {SM : SkipMap T} {SML : SkipMapLaws T}.
Context {L : Type} {CO : Columnar L FileIndex} {read_parquet : bytes → option (list row)}.
Context {COL : ColumnarLaws L FileIndex read_parquet}.
Context (crc32_hash : bytes → Z) (read_dir : gmap string file → list string).
Context (parquet_head : list Field → bytes) (parquet_batch : RecordBatch → bytes).
Context (parquet_footer : list RecordBatch → bytes).
Context (duckdb : string → L → process * L).
Context {O : ObjectTypes} {S : Type} {OS : Store.ObjectStore S} {R : Type}.
Context (amazon_s3 : string → string → string → string → string → bool → bool → result S).
Context (objects : L → S) (put_objects : S → L → L).
Context (random_range : f64 → f64 → R → f64 * R) (ln exp cos : f64 → f64).
Context (path_of : string → Path) (range_options : Z → Z → GetOptions).
Context (body : GetResult → result bytes) (message : StoreError → string).
Context (path_from : string → string).
Context {Meta : Type} (load : Z → program Meta) (arrow_meta : Meta → result (list pk_stats)).
Context (read_rows : Meta → nat → program (list (list prow))).
Context (bucket : string).

#[local] Instance traced_node : Node (node (T := T) (Meta := Meta)) (host (L := L) (R := R)) :=
  engine_node crc32_hash read_dir parquet_head parquet_batch parquet_footer duckdb amazon_s3 objects
    put_objects random_range ln exp cos path_of range_options body message path_from load arrow_meta
    read_rows bucket.
Abbreviation node := (node (T := T) (Meta := Meta)).
Abbreviation host := (host (L := L) (R := R)).
Context {G : Type}.
Context (cfg : Config).
Abbreviation running := (running (T := T) (COL := COL) crc32_hash cfg).
Abbreviation durable := (durable (COL := COL) crc32_hash).
Abbreviation quiet := (quiet (COL := COL)).
Abbreviation assumptions := (assumptions (read_parquet := read_parquet) crc32_hash read_dir
  parquet_head parquet_batch parquet_footer cfg).

(** The store, the cache and the counters of a node are as they were. *)
Definition same_caches (n n' : node) : Prop :=
  nd_profile n' = nd_profile n ∧ nd_stats n' = nd_stats n ∧ nd_cache n' = nd_cache n ∧
  nd_metadata n' = nd_metadata n.

Lemma put_each_serves (A : assumptions) ks : ∀ n w mc (g : G) hist,
  running (nd_engine n) w hist → quiet w → en_next_lsn (nd_engine n) + zlen ks < 2 ^ 63 →
  ∃ n' w', put_each (E := node) (W := host) cfg ks (n, ((w, mc), g)) = Some (tt, (n', ((w', mc), g))) ∧
    running (nd_engine n') w' (hist ++ traced (en_next_lsn (nd_engine n)) ks) ∧ quiet w' ∧ same_caches n n'.
Proof.
  induction ks as [|i ks IH]; intros n w mc g hist Hr Q Hb.
  { exists n, w. cbn [traced]. rewrite app_nil_r. by split_and!. }
  rewrite zlen_cons in Hb. pose proof (zlen_nonneg ks).
  edestruct (put_serves (T := T) (COL := COL)) as (e1 & w1 & E1 & R1 & Q1 & N1);
    [exact A | exact Hr | exact Q | split; [exact (trace_fits i) | lia] |].
  cbn [put_each traced]. unfold mbind at 1, run_bind at 1. cbn [nd_put traced_node engine_node].
  rewrite (unwrapped_engine _ _ _ _ _ _ _ _ E1). rewrite cons_middle, app_assoc, <- N1.
  set (n1 := mk_node e1 _ _ _ _).
  destruct (IH n1 w1 mc g _ R1 Q1) as (n2 & w2 & E2 & R2 & Q2 & S2); [change (nd_engine n1) with e1; lia |].
  exists n2, w2. split; [exact E2 |]. split; [exact R2 |]. split; [exact Q2 | exact S2].
Qed.

(** What a publish costs the engine. Over any engine of the crate, from a world that holds
    some history and while no call fails, the probe opens, writes its hundred keys and
    flushes without a panic, and the engine's own client of the object store is not used
    once: its counters are zero, nothing was slept, the caches are new. So the one request
    of the flush is DuckDB's. By then every key reads as its value, in the files and after
    any crash; the rest of the run is the read of one of them. *)
Theorem trace_makes_no_request (A : assumptions) w mc (g : G) hist store :
  durable w hist → quiet w → max_lsn_of hist + 1 + 100 < 2 ^ 63 →
  build amazon_s3 (cfg_s3 cfg) (latency cfg) = Ok store →
  ∃ n w' hist',
    trace_phases (E := node) (W := host) cfg ((w, mc), g) =
      match unwrapped (E := node) (W := host) (nd_get (trace_key 50)) (n, ((w', mc), g)) with
      | Some (_, x) => Some (tt, x.2)
      | None => None
      end ∧
    nd_store_stats n = snapshot stats_default ∧ nd_cache n = cache_new (cache_bytes cfg) ∧
    (∀ w2, wcrash (COL := COL) w' w2 → durable w2 (hist ++ hist')) ∧
    (∀ i, 0 ≤ i < 100 → kv_of (hist ++ hist') !! trace_key i = Some (trace_value i)) ∧
    ∃ files, co_files (w_lake w') files ∧ files_max files = max_lsn_of (hist ++ hist').
Proof.
  intros D Q Hb Hs.
  destruct (open_serves (T := T) (COL := COL) crc32_hash read_dir parquet_head parquet_batch parquet_footer duckdb
    amazon_s3 objects put_objects random_range ln exp cos path_of range_options body message path_from load
    arrow_meta read_rows bucket cfg A w mc hist store D Q Hs) as (n & w1 & E1 & R1 & Q1).
  assert (zlen (range 0 100) = 100) as Hz by reflexivity.
  destruct (put_each_serves A (range 0 100) n w1 mc g hist R1 Q1) as (n2 & w2 & E2 & R2 & Q2 & C2).
  { destruct R1 as [_ ->]. rewrite Hz. lia. }
  edestruct (flush_serves (T := T) (COL := COL)) as (x & e3 & w3 & E3 & _ & D3 & Q3 & _); [exact A | exact R2 | exact Q2 |].
  exists (mk_node e3 (nd_profile n2) (nd_stats n2) (nd_cache n2) (nd_metadata n2)), w3,
    (traced (en_next_lsn (nd_engine n)) (range 0 100)).
  split.
  { unfold trace_phases, with_engine. change (@nd_open node host traced_node cfg (w, mc) = (Ok n, (w1, mc))) in E1. cbn beta iota. rewrite E1. unfold trace_writes.
    rewrite !Run_bind.
    lazymatch goal with |- context [put_each ?c ?ks ?s] => change (put_each c ks s) with (put_each (E := node) (W := host) cfg (range 0 100) (n, ((w1, mc), g))) end.
    rewrite E2, Run_bind. cbn [nd_flush traced_node engine_node].
    rewrite (unwrapped_engine _ _ _ _ _ _ _ _ E3). cbn [mret run_ret]. rewrite Run_bind.
    by destruct (unwrapped _ _) as [[a y]|]. }
  assert (nd_cache n = cache_new (cache_bytes cfg) ∧ nd_stats n = stats_default) as [Hc Hst].
  { assert (with_cache (cache_bytes cfg) cfg = cfg) as Ec by by destruct cfg.
    rewrite <- Ec in E1. apply nd_open_new in E1. split; apply E1. }
  destruct C2 as (_ & Hs2 & Hc2 & _).
  split; [change (snapshot (nd_stats n2) = snapshot stats_default); by rewrite Hs2, Hst |].
  split; [change (nd_cache n2 = cache_new (cache_bytes cfg)); by rewrite Hc2 |].
  destruct D3 as (logs & s & rs & files & frs & St & Hms & _ & Hi).
  split; [intros w4; by eapply stored_crash |]. split.
  - intros i Hin. apply traced_kv; [| apply NoDup_seqZ | apply elem_of_seqZ; lia].
    apply Forall_forall. intros j Hj%elem_of_seqZ. unfold traceable. lia.
  - exists files. pose proof (st_tiers _ _ _ _ _ _ _ _ _ _ _ St) as Ti. split; [apply St |].
    rewrite (tiers_files_max _ _ _ _ _ Ti), (ti_hist _ _ _ _ _ Ti). by rewrite app_nil_r.
Qed.
End phases.

(** * Example: the probe on a fresh table, with the insert of [DuckModel.v] *)

From S2P Require Import Lakehouse LakehouseProps DuckModel StackProps.

Lemma trace_makes_no_request_witness :
  ∃ hist', kv_of ([] ++ hist') !! trace_key 50 = Some (lit "value-50").
Proof.
  destruct (trace_makes_no_request (T := MT) (L := lh) (CO := duck_columnar) (COL := duck_laws)
    (O := ranged_types) (S := unit) (OS := ranged_store) (Meta := bytes) crc32_ieee read_dir_keys head_bytes
    batch_bytes footer_bytes (λ _ l, (Exited (Some 0) empty_str, l)) (λ _ _ _ _ _ _ _, Ok tt) (λ _, tt) (λ _ l, l)
    no_random id id id (λ p : string, p) pair Ok id id ex_load ex_meta ex_rows "bucket" duck_cfg
    duck_assumptions installed (mk_machine tt []) tt [] (latency_store_new tt (latency duck_cfg)))
    as (n & w' & hist' & _ & _ & _ & _ & Hkv & _).
  - apply (fresh_durable _ _ _ _ _ _ _ _ _ _ _ _ duck_documented); [done | apply bootstrapped_holds].
  - by split_and!.
  - vm_compute. reflexivity.
  - reflexivity.
  - exists hist'. rewrite Hkv by lia. vm_compute. reflexivity.
Qed.
